(* ===== verification/_CoqProject ===== *)
-Q . S2P
Prelude.v
JsValue.v
Int32.v
Uri.v
Base64.v
BufferCore.v
BufferInt.v
BufferText.v
Buffer.v
Double.v
Ieee754.v
Cookie.v
Auth.v
SpecConverter.v
SchemaMarkup.v
SchemaHtml.v
OperationUrl.v
Operation.v
OperationModel.v
Resolver.v
ResolverLoop.v
Client.v
Regex.v
ClientBuild.v
Emitter.v
Superagent.v
Http.v
YamlTypes.v
YamlSchema.v
YamlMark.v
Promise.v
XmlFormat.v
XmlSample.v
XmlWellFormed.v
UiAuth.v
UiForm.v
UiViews.v
ClientSpec.v
JsHeap.v
ResolverWalk.v
ResolverSound.v
ResolverWrite.v
ResolverSettled.v
YamlScan.v
YamlLoader.v
YamlDump.v
YamlCore.v
YamlRoundtrip.v
YamlTotal.v
YamlFlow.v
YamlFlowLoad.v
YamlTime.v
