(* ===== verification/Prelude.v ===== *)
(** * Verification of the embedded Swagger console

    Digital Rebar Provision is a server written in Go that serves its API
    console from [src/embedded/assets/swagger-ui]. The console's program is the
    bundle [swagger-ui.js]; this library models the parts of the bundle that
    carry its logic and proves what makes them correct. Every definition is
    translated from the lines of the bundle; the line numbers are in the
    manifest beside the library.

    ** The program and the files

    The console loads a specification, resolves its references, builds a client
    with one function per operation, shows models and samples, and sends calls.

    - [Prelude] (this file), [JsValue], [Int32], [Uri]: the language. Strings as
      lists of 16-bit units, exceptions as the result type [res], property lists
      with the enumeration order of objects, dynamic values with their
      operators, 32-bit bit operations, [encodeURIComponent].
    - [Client], [ClientBuild], [ClientSpec] (client.js): scheme choice, operation
      identifiers, groups and unique names, order of the groups; the address from
      the URL, and the life of a client from [build] to its callbacks as a
      transition system; the fields copied from the specification, the setters and
      [help]. [Regex] is the matching of regular expressions by backtracking, which
      [parseUri] and the console use.
    - [SpecConverter] (spec-converter.js): Swagger 1.x documents to 2.0; a
      resource listing with its response handlers is a state machine.
    - [Resolver], [ResolverLoop] (resolver.js): URL arithmetic of references,
      pointer lookup, [allOf]; the lookup loop with its locks, cache, timers and
      handlers as a transition system in which timers and responses may come in
      any order. [JsHeap] is a heap of shared objects with the monad of programs
      that change them; on it [ResolverWalk] is the whole of [resolve] and
      [finish], which work through aliases into one mutable document.
      [ResolverSound], [ResolverWrite] and [ResolverSettled] are about them.
    - [SchemaMarkup], [SchemaHtml] (schema-markup.js, helpers.js,
      types/model.js): samples, type names and the HTML of schemas whose models
      refer to each other.
    - [OperationModel], [OperationUrl], [Operation] (types/operation.js): the
      constructor; the URL of a call; headers, body, execution and curl text.
      They use [Auth] (auth.js) for authorizations, which uses [Cookie]
      (cookiejar) and [Buffer] (btoa).
    - [Http] (http.js) hands the request to [Superagent] (superagent), whose
      requests are [Emitter]s (component-emitter).
    - [Base64], [BufferCore], [BufferInt], [BufferText], [Buffer] (base64-js and
      the buffer shim): cells and bounds, the integer accessors behind one
      interface (the class [AccessorOk]), text encodings, the rest of the class.
      [Double] is the arithmetic of doubles, [Ieee754] the module ieee754 and the
      accessors for floating-point numbers.
    - [YamlTypes], [YamlSchema], [YamlMark] (js-yaml): scalar and collection
      types, schemas, error excerpts; [YamlScan] and [YamlLoader]: the loader, with
      the place in the text as a cursor and collections as objects of the heap of
      [JsHeap]; [YamlDump]: the dumper; [YamlCore]: the scalar types as both use
      them; [YamlRoundtrip], [YamlTotal], [YamlFlow] (the dumper on trees and what the
      loader allocates for them) and [YamlFlowLoad]: their theorems; [YamlTime]:
      timestamps, with the calendar of the language.
    - [Promise] (Q): deferred values, [then] and the queue of tasks.
    - The console around the client (SwaggerUi): [XmlFormat] lays out XML,
      [XmlSample] writes XML samples with the list of models being expanded shared
      and mutated as in the code, [XmlWellFormed] reads them back; [UiAuth] is the
      authorization dialog (its models, login, logout and token requests), [UiForm]
      the submission of an operation's form, [UiViews] what the other views compute
      before they touch the page: URLs, names, response headers and rows, texts.

    State is passed explicitly, updates in place return the new value. Fallible
    code returns [res]; a read from [undefined] is [Throw TypeError].

    ** What the theorems show

    - Calls: the query of a URL and a form body parse back to the arguments, a
      path argument stays one segment, required arguments are enforced, masked
      passwords do not influence the URL; authorizing is idempotent and puts the
      credentials of the selected authorizations where they belong and nothing
      else; the HTTP layer sends the URL, method, headers and body it was given,
      dispatches a response by its status, and calls back once in every order of
      response, failure, timeout and abort.
    - Documents: conversion of 1.x documents keeps the operations and yields
      well-formed ones, the listing's callback comes once and with everything;
      the resolver's loop finishes once, with every entry accounted for, and
      never locks itself out; references are rebased exactly, and where none has an
      escaped slash the count of unresolved ones agrees with the lookup.
      In the shared, mutable document a reference is written back as the definition
      or with the properties it refers to, and a resolved document is left as it is.
    - Client: it is built once in every order of answers, and called at the address
      of its specification unless that names another.
    - Schemas: samples are valid for their schemas, and samples, signatures and
      HTML end on recursive models; XML samples are well-formed, and the shared
      list of models being expanded gives the same text as a copied one.
    - Console: a submitted form has every required field, and is otherwise not
      sent; the table of authorizations after a login or logout is the old one with
      exactly the confirmed names entered or removed; a login page without a query
      of its own gets the parameters of the dialog; nicknames are unique; headers and escaped texts
      read back.
    - YAML: scalars but for a text of three dots, and trees of collections in the
      flow style, are loaded back from what the dumper writes, dates of the years 100 to 9999 from their text, and the
      loader ends on every text.
    - Libraries: round trips of base64, buffers (texts, integers, doubles and numbers
      of single precision, whose bytes are those of IEEE 754), cookies, forms, headers, YAML
      integers and binary data; the emitter refines an abstract registry;
      cookies go where their scope allows;
      schemas of scalar implicit types compile to the last type of each tag; a promise settles at most
      once and calls back in order.

    The conditions of a theorem are in its comment. Theorems about single inputs record defects of the code; they are listed as
    findings in the manifest.

    ** Bounds and fuel

    Recursion the code does without a bound has one computed from its input:
    the conversion of types, samples, signatures and type names descend at most
    as deep as the size of the schema and the models ([toJsonSchema],
    [schemaToJSON], [getStringSignature], [getType]), and theorems show that the
    bound is not reached, so the stack overflow that stands for it never occurs.
    [schemaToHTML] runs for a number of rounds; enough rounds exist for plain
    models, and one definition on which it runs for ever is exhibited. The loops
    that search a free name try one candidate more than there are names taken.
    A repetition of a regular expression is tried at most as often as there are
    units left, since an empty turn is refused. On the heap recursion is bounded by
    the number of objects, which a way down that is not circular does not exceed
    ([tree_bound]); resolution has seven rounds ([resolve_rounds_enough]). XML samples descend at most by the
    depth of the schema and, for each model not yet open, by the deepest model.
    The loops of the YAML loader have a turn for each unit of the text, and its nodes
    nest at most as deep; [YamlTotal] shows that this is enough for every text.
    [uri_decode] consumes a unit per turn, [to_radix] a bit per digit. An
    emission nests as deep as its argument says and the lemmas hold for any
    depth. Integers are exact: where the code adds or multiplies numbers they
    stay below 2^53 in the ranges the theorems name, and bit operations wrap at
    32 bits.

    ** What is not modelled

    - The Go server, and assets that are data or third-party minified code.
    - Templates (generated code) and what the views do to the page; es5-shim and
      lodash: the model uses the documented behaviour of the functions called.
    - js-yaml's floats, the types that evaluate JavaScript, warnings and listeners. Outside of [Ieee754] numbers that are not integers are carried as
      their text.
    - Of the resolver: authorizations that change the URL of a fetched document in
      the heap model, and documents without a URL.
    - [FormData], [Blob], progress events; user-supplied objects with methods
      (authorizations, HTTP clients). Code outside the bundle (JSON and date
      parsing, the network) appears as parameters or as the environment. Classes
      stand for the engine where a document decides what is evaluated: [RegExp_gi]
      for expressions built from names of parameters that use their syntax, and
      [TextNumbers] for the number a text stands for.
    - Case mapping is that of ASCII, and documents do not use the property names
      of [Object.prototype]. *)

From Stdlib Require Export ZArith Ascii String Lia.
From Corelib Require Export ssreflect.
From stdpp Require Export base list strings gmap numbers pretty.

#[export] Set Default Goal Selector "!".
#[export] Set Warnings "-rewrite-rw,-clear-no-such-hyp,-level-tolerance".
#[export] Set SsrOldRewriteGoalsOrder.
Open Scope Z_scope.

(** ** JavaScript strings

    A JavaScript string is a sequence of 16-bit code units; [jstr] is that
    sequence, one [Z] per unit. [js] turns an ASCII literal into one. *)

Abbreviation jstr := (list Z).

Definition js (s : string) : jstr :=
  map (fun c => Z.of_N (N_of_ascii c)) (list_ascii_of_string s).
Arguments js : simpl never.

Declare Scope js_scope.
Delimit Scope js_scope with js.
Notation "# s" := (js s%string) (at level 1, format "# s") : js_scope.
Open Scope js_scope.

(** A sequence is a string of the language when every unit has 16 bits. *)
Definition code_unit (c : Z) : Prop := 0 <= c < 65536.
Definition wf_jstr (s : jstr) : Prop := Forall code_unit s.

Lemma wf_check s : forallb (λ c, (0 <=? c) && (c <? 65536)) s = true → wf_jstr s.
Proof.
  rewrite forallb_forall. intros H. apply Forall_forall. intros c Hc.
  apply list_elem_of_In, H in Hc as H1. clear H. rename H1 into H. apply andb_true_iff in H as [H1 H2].
  apply Z.leb_le in H1. apply Z.ltb_lt in H2. done.
Qed.

(** ** Exceptions *)

(** What the modelled code can throw. *)
Inductive exn :=
  | TypeError
  | URIError
  | RangeError (msg : jstr)
  | JsError (msg : jstr).

Inductive res (A : Type) :=
  | Ok (a : A)
  | Throw (e : exn).
Arguments Ok {A} a.
Arguments Throw {A} e.

#[export] Instance res_ret : MRet res := @Ok.
#[export] Instance res_bind : MBind res := fun A B f m =>
  match m with Ok a => f a | Throw e => Throw e end.
#[export] Instance res_fmap : FMap res := fun A B f m =>
  match m with Ok a => Ok (f a) | Throw e => Throw e end.

Definition is_ok {A} (m : res A) : bool :=
  match m with Ok _ => true | Throw _ => false end.

Lemma bind_Ok {A B} (f : A → res B) (m : res A) b :
  m ≫= f = Ok b → ∃ a, m = Ok a ∧ f a = Ok b.
Proof. destruct m; cbn; [eauto | done]. Qed.

(** Loops whose body can throw. *)
Fixpoint fold_res {A B} (f : A → B → res A) (l : list B) (a : A) : res A :=
  match l with
  | [] => Ok a
  | b :: l => a' ← f a b; fold_res f l a'
  end.

Fixpoint map_res {A B} (f : A → res B) (l : list A) : res (list B) :=
  match l with
  | [] => Ok []
  | a :: l => b ← f a; bs ← map_res f l; Ok (b :: bs)
  end.

Lemma fold_res_app {A B} (f : A → B → res A) l1 l2 a :
  fold_res f (l1 ++ l2) a = a' ← fold_res f l1 a; fold_res f l2 a'.
Proof.
  revert a. induction l1 as [|b l1 IH]; intros a; cbn; [done|].
  destruct (f a b); cbn; [apply IH | done].
Qed.

Lemma fold_res_ext_in {A B} (f g : A → B → res A) l a :
  (∀ x b, b ∈ l → f x b = g x b) → fold_res f l a = fold_res g l a.
Proof.
  revert a. induction l as [|b l IH]; intros a Hfg; cbn; [done|].
  rewrite Hfg; [|by left]. destruct (g a b); cbn; [|done]. apply IH. intros x c Hc. apply Hfg. by right.
Qed.

Lemma fold_res_ext {A B} (f g : A → B → res A) l a :
  (∀ x b, f x b = g x b) → fold_res f l a = fold_res g l a.
Proof. intros Hfg. apply fold_res_ext_in. auto. Qed.

Lemma map_res_ext_in {A B} (f g : A → res B) l :
  (∀ x, x ∈ l → f x = g x) → map_res f l = map_res g l.
Proof.
  induction l as [|x l IH]; intros Hfg; cbn; [done|]. rewrite Hfg; [|by left].
  rewrite IH; [done|]. intros y Hy. apply Hfg. by right.
Qed.

(** An invariant of the loop body is an invariant of the loop. *)
Lemma fold_res_inv {A B} (P : A → Prop) (f : A → B → res A) l a a' :
  (∀ x b x', P x → f x b = Ok x' → P x') →
  P a → fold_res f l a = Ok a' → P a'.
Proof.
  intros Hf. revert a. induction l as [|b l IH]; intros a Ha H; cbn in H.
  - by injection H as <-.
  - apply bind_Ok in H as (x & Hx & H). eauto.
Qed.

(** A loop whose body never fails on the states of an invariant ends in one. *)
Lemma fold_res_ok {A B} (P : A → Prop) (f : A → B → res A) l a :
  (∀ x b, P x → b ∈ l → ∃ x', f x b = Ok x' ∧ P x') →
  P a → ∃ a', fold_res f l a = Ok a' ∧ P a'.
Proof.
  revert a. induction l as [|b l IH]; intros a Hf Ha; cbn; [eauto|].
  destruct (Hf a b Ha) as (x & -> & Hx); [by left|]. cbn.
  apply IH; [|done]. intros y c Hy Hc. apply Hf; [done|by right].
Qed.

Lemma map_res_ok {A B} (f : A → res B) l :
  Forall (λ x, ∃ y, f x = Ok y) l → ∃ ys, map_res f l = Ok ys.
Proof.
  induction 1 as [|x l [y Hy] _ [ys IH]]; cbn; [eauto|]. rewrite Hy /= IH /=. eauto.
Qed.

Lemma map_res_total {A B} (f : A → res B) (g : A → B) l :
  (∀ x, f x = Ok (g x)) → map_res f l = Ok (map g l).
Proof. intros Hf. induction l as [|x l IH]; cbn; [done|]. by rewrite Hf /= IH. Qed.

Lemma map_res_length {A B} (f : A → res B) l l' :
  map_res f l = Ok l' → length l' = length l.
Proof.
  revert l'. induction l as [|a l IH]; intros l' H; cbn in H.
  - by injection H as <-.
  - apply bind_Ok in H as (b & _ & H). apply bind_Ok in H as (bs & Hbs & H).
    injection H as <-. cbn. by rewrite (IH _ Hbs).
Qed.

(** Sequencing tactic: turn every successful bind of the context into the
    successful runs of its two halves. *)
Ltac inv_res :=
  repeat match goal with
  | H : mbind _ _ = Ok _ |- _ => apply bind_Ok in H as (? & ? & H)
  | H : Ok _ = Ok _ |- _ => injection H as H; try subst
  | H : Throw _ = Ok _ |- _ => discriminate H
  | H : Ok _ = Throw _ |- _ => discriminate H
  end.

(** The code's recursion has no bound; the models give it one, and reaching it
    is the stack overflow of the engine. *)
Definition stack_overflow {A} : res A := Throw (RangeError #"Maximum call stack size exceeded").

(** A computation that does not overflow the stack. *)
Definition no_overflow {A} (r : res A) : Prop := r ≠ stack_overflow.

Lemma no_overflow_bind {A B} (m : res A) (f : A → res B) :
  no_overflow m → (∀ a, m = Ok a → no_overflow (f a)) → no_overflow (m ≫= f).
Proof.
  unfold no_overflow, stack_overflow. destruct m; cbn; [eauto|]. intros H _ [= ->]. by apply H.
Qed.

Lemma no_overflow_fmap {A B} (f : A → B) (m : res A) : no_overflow m → no_overflow (f <$> m).
Proof. unfold no_overflow, stack_overflow. destruct m; cbn; [done|]. intros H [= ->]. by apply H. Qed.

Lemma no_overflow_fold {A B} (f : A → B → res A) l a :
  (∀ x b, b ∈ l → no_overflow (f x b)) → no_overflow (fold_res f l a).
Proof.
  revert a. induction l as [|b l IH]; intros a Hf; cbn; [done|].
  apply no_overflow_bind; [apply Hf; by left|]. intros x _. apply IH. intros y c Hc. apply Hf. by right.
Qed.

Lemma no_overflow_map {A B} (f : A → res B) l :
  (∀ x, x ∈ l → no_overflow (f x)) → no_overflow (map_res f l).
Proof.
  induction l as [|x l IH]; intros Hf; cbn; [done|].
  apply no_overflow_bind; [apply Hf; by left|]. intros y _.
  apply no_overflow_bind; [|done]. apply IH. intros z Hz. apply Hf. by right.
Qed.

(** ** Operations of [String.prototype] *)

Definition streq (a b : jstr) : bool := bool_decide (a = b).

Lemma streq_spec a b : streq a b = true ↔ a = b.
Proof. apply bool_decide_eq_true. Qed.
Lemma streq_refl a : streq a a = true.
Proof. by apply streq_spec. Qed.
Lemma streq_neq a b : streq a b = false ↔ a ≠ b.
Proof. apply bool_decide_eq_false. Qed.

(** [s.indexOf(p) === 0] *)
Fixpoint prefixb (p s : jstr) : bool :=
  match p, s with
  | [], _ => true
  | a :: p, b :: s => (a =? b) && prefixb p s
  | _ :: _, [] => false
  end.


Lemma prefixb_spec p s : prefixb p s = true ↔ ∃ t, s = p ++ t.
Proof.
  revert s. induction p as [|a p IH]; intros [|b s]; cbn.
  - split; [by exists [] | done].
  - split; [by exists (b :: s) | done].
  - split; [done | by intros [t Ht]].
  - rewrite andb_true_iff Z.eqb_eq IH. split.
    + intros [-> [t ->]]. by exists t.
    + intros [t Ht]. injection Ht as -> ->. eauto.
Qed.

Lemma prefixb_app p s : prefixb p (p ++ s) = true.
Proof. apply prefixb_spec. eauto. Qed.

(** Position of the first occurrence of [p] in [s]. *)
Fixpoint find_sub (p s : jstr) : option nat :=
  if prefixb p s then Some 0%nat
  else match s with
       | [] => None
       | _ :: t => S <$> find_sub p t
       end.

(** [s.indexOf(p)]: the position, or -1. *)
Definition index_of (p s : jstr) : Z :=
  match find_sub p s with Some n => Z.of_nat n | None => -1 end.

Definition contains (p s : jstr) : bool := 0 <=? index_of p s.
Definition starts_with (p s : jstr) : bool := index_of p s =? 0.

Lemma index_of_bound p s : -1 <= index_of p s.
Proof. unfold index_of. destruct (find_sub p s); lia. Qed.

Lemma find_sub_some p s n :
  find_sub p s = Some n → ∃ a b, s = a ++ p ++ b ∧ length a = n.
Proof.
  revert n. induction s as [|c s IH]; intros n; cbn.
  - destruct (prefixb p []) eqn:E; [|done]. intros [= <-].
    apply prefixb_spec in E as [t Ht]. by exists [], t.
  - destruct (prefixb p (c :: s)) eqn:E.
    + intros [= <-]. apply prefixb_spec in E as [t Ht]. by exists [], t.
    + destruct (find_sub p s) as [m|] eqn:F; [|done]. intros [= <-].
      destruct (IH m eq_refl) as (a & b & -> & <-). by exists (c :: a), b.
Qed.

Lemma starts_with_prefixb p s : starts_with p s = prefixb p s.
Proof.
  unfold starts_with, index_of.
  destruct s as [|c s]; cbn; destruct (prefixb p _) eqn:E; try done.
  destruct (find_sub p s); cbn; [|done]. apply Z.eqb_neq. lia.
Qed.

(** A unit occurs in a string. *)
Definition has (c : Z) (s : jstr) : bool := existsb (Z.eqb c) s.

Lemma has_spec c s : has c s = true ↔ c ∈ s.
Proof.
  unfold has. rewrite existsb_exists. setoid_rewrite Z.eqb_eq.
  setoid_rewrite <- list_elem_of_In. naive_solver.
Qed.
Lemma has_false c s : has c s = false ↔ c ∉ s.
Proof. rewrite -has_spec. destruct (has c s); naive_solver. Qed.
Lemma not_in_check (c : Z) (s : jstr) : has c s = false → c ∉ s.
Proof. apply has_false. Qed.
Lemma has_app c s t : has c (s ++ t) = has c s || has c t.
Proof. apply existsb_app. Qed.

(** [s.indexOf(c)] for a one-unit string [c]. *)
Lemma contains_unit c s : contains [c] s = has c s.
Proof.
  unfold contains, index_of. induction s as [|d s IH]; cbn; [done|].
  destruct (c =? d); cbn; [done|].
  fold (has c s). rewrite -IH. destruct (find_sub [c] s); cbn -[Z.of_nat]; [|done].
  transitivity true; [|symmetry]; apply Z.leb_le; lia.
Qed.

(** The first occurrence of a unit cuts the string there. *)
Lemma find_unit (c : Z) (a b : jstr) : c ∉ a → find_sub [c] (a ++ c :: b) = Some (length a).
Proof.
  induction a as [|d a IH]; intros H; cbn; [by rewrite Z.eqb_refl|].
  apply not_elem_of_cons in H as [Hd H].
  replace (c =? d) with false by (symmetry; by apply Z.eqb_neq). cbn. by rewrite IH.
Qed.

Lemma index_of_unit (c : Z) (a b : jstr) : c ∉ a → index_of [c] (a ++ c :: b) = Z.of_nat (length a).
Proof. intros H. unfold index_of. by rewrite find_unit. Qed.

Lemma index_of_none (c : Z) (s : jstr) : c ∉ s ↔ index_of [c] s = -1.
Proof.
  rewrite -has_false -contains_unit. unfold contains. pose proof (index_of_bound [c] s).
  rewrite Z.leb_gt. lia.
Qed.

Lemma unit_cases (c : Z) (s : jstr) : c ∉ s ∨ ∃ a b, s = a ++ c :: b ∧ c ∉ a.
Proof.
  induction s as [|d s IH]; [left; apply not_elem_of_nil|].
  destruct (Z.eq_dec d c) as [->|Hd]; [right; exists [], s; split; [done|apply not_elem_of_nil]|].
  destruct IH as [H|(a & b & -> & H)].
  - left. apply not_elem_of_cons. split; [congruence|done].
  - right. exists (d :: a), b. split; [done|]. apply not_elem_of_cons. split; [congruence|done].
Qed.

(** [s.substring(a)], [s.substring(a, b)] and [s.slice(a, b)] at positions
    inside the string ([0 <= a <= b]). *)
Definition substring_from (a : Z) (s : jstr) : jstr := drop (Z.to_nat a) s.
Definition substring (a b : Z) (s : jstr) : jstr :=
  drop (Z.to_nat (Z.min a b)) (take (Z.to_nat (Z.max a b)) s).

(** [s.endsWith(p)] *)
Definition ends_with (p s : jstr) : bool :=
  (length p <=? length s)%nat && streq (drop (length s - length p) s) p.

(** [l.join(sep)] *)
Fixpoint join (sep : jstr) (l : list jstr) : jstr :=
  match l with
  | [] => []
  | [x] => x
  | x :: l => x ++ sep ++ join sep l
  end.

Lemma join_cons sep x l : l ≠ [] → join sep (x :: l) = x ++ sep ++ join sep l.
Proof. by destruct l. Qed.

(** [s.split(sep)] for a nonempty separator: [acc] is the piece being read,
    reversed, and [skip] the units of a separator still to be consumed. *)
Fixpoint split_go (sep : jstr) (acc : jstr) (skip : nat) (s : jstr) : list jstr :=
  match s with
  | [] => [rev acc]
  | c :: t =>
      match skip with
      | S k => split_go sep acc k t
      | O => if prefixb sep s
             then rev acc :: split_go sep [] (length sep - 1)%nat t
             else split_go sep (c :: acc) 0 t
      end
  end.
Definition split (sep s : jstr) : list jstr := split_go sep [] 0 s.

Lemma split_go_not_nil sep acc k s : split_go sep acc k s ≠ [].
Proof.
  revert acc k. induction s as [|c s IH]; intros acc k; cbn; [done|].
  destruct k; [destruct (prefixb _ _); [done|apply IH]|apply IH].
Qed.

Lemma split_go_skip sep acc k s :
  (k <= length s)%nat → split_go sep acc k s = split_go sep acc 0 (drop k s).
Proof.
  revert k. induction s as [|c s IH]; intros [|k] Hk; cbn [length drop] in *; try done; try lia.
  cbn [split_go]. apply IH. lia.
Qed.

(** Joining the pieces of a split with its separator gives the string back. *)
Lemma join_split_go sep acc s n :
  sep ≠ [] → (length s <= n)%nat → join sep (split_go sep acc 0 s) = rev acc ++ s.
Proof.
  intros Hsep. revert acc s. induction n as [|n IH]; intros acc [|c s] Hn; cbn in *;
    try lia; try by rewrite app_nil_r.
  destruct (prefixb sep (c :: s)) eqn:E.
  - apply prefixb_spec in E as [t Ht].
    destruct sep as [|d sep]; [done|]. injection Ht as -> ->.
    rewrite join_cons; [|apply split_go_not_nil].
    rewrite split_go_skip; cbn; [|rewrite length_app; lia].
    rewrite Nat.sub_0_r drop_app_length IH; [done|].
    rewrite length_app in Hn. lia.
  - rewrite IH; [|lia]. cbn. by rewrite <- app_assoc.
Qed.

Lemma join_split sep s : sep ≠ [] → join sep (split sep s) = s.
Proof. intros. unfold split. by rewrite (join_split_go sep [] s (length s)). Qed.

(** A string without the separator's unit is one piece, and splitting after a
    piece without it cuts there. *)
Lemma split_go_none c acc s : c ∉ s → split_go [c] acc 0 s = [rev acc ++ s].
Proof.
  revert acc. induction s as [|d s IH]; intros acc Hc; cbn; [by rewrite app_nil_r|].
  apply not_elem_of_cons in Hc as [Hd Hs].
  replace (c =? d) with false by (symmetry; by apply Z.eqb_neq).
  cbn. rewrite IH; [|done]. cbn. by rewrite <- app_assoc.
Qed.

Lemma split_none c s : c ∉ s → split [c] s = [s].
Proof. intros. unfold split. by rewrite split_go_none. Qed.

Lemma split_go_cut c acc s t :
  c ∉ s → split_go [c] acc 0 (s ++ c :: t) = (rev acc ++ s) :: split [c] t.
Proof.
  revert acc. induction s as [|d s IH]; intros acc Hc; cbn.
  - rewrite Z.eqb_refl app_nil_r. done.
  - apply not_elem_of_cons in Hc as [Hd Hs].
    replace (c =? d) with false by (symmetry; by apply Z.eqb_neq).
    cbn. rewrite IH; [|done]. cbn. by rewrite <- app_assoc.
Qed.

Lemma split_cut c s t : c ∉ s → split [c] (s ++ c :: t) = s :: split [c] t.
Proof. intros. unfold split at 1. by rewrite split_go_cut. Qed.

(** Splitting what was joined on a unit that occurs in no piece. *)
Lemma split_join c l :
  l ≠ [] → Forall (λ s, c ∉ s) l → split [c] (join [c] l) = l.
Proof.
  intros Hl HF. induction HF as [|x l Hx HF IH]; [done|].
  destruct l as [|y l]; [by apply split_none|].
  rewrite join_cons; [|done]. rewrite (split_cut c x); [|done].
  f_equal. by apply IH.
Qed.

(** Splitting after more text keeps the pieces before and after the cut. *)
Lemma split_go_app_unit c acc s t :
  split_go [c] acc 0 (s ++ c :: t) = split_go [c] acc 0 s ++ split [c] t.
Proof.
  revert acc. induction s as [|d s IH]; intros acc; cbn.
  - by rewrite Z.eqb_refl.
  - destruct (c =? d); cbn; [f_equal|]; apply IH.
Qed.
Lemma split_app_unit c s t : split [c] (s ++ c :: t) = split [c] s ++ split [c] t.
Proof. apply split_go_app_unit. Qed.

(** [s.replace(p, r)] with string [p]: the first occurrence. *)
Definition replace_first (p r s : jstr) : jstr :=
  match find_sub p s with
  | Some n => take n s ++ r ++ drop (n + length p) s
  | None => s
  end.

Lemma replace_first_in p r s c : c ∈ replace_first p r s → c ∈ r ∨ c ∈ s.
Proof.
  unfold replace_first. destruct (find_sub p s) as [n|]; [|by right].
  rewrite !elem_of_app. intros [H|[H|H]]; [right|by left|right].
  - rewrite -(take_drop n s). set_solver.
  - rewrite -(take_drop (n + length p) s). set_solver.
Qed.

(** [s.replace(/p/g, r)] for a literal nonempty [p]. *)
Definition replace_all (p r s : jstr) : jstr := join r (split p s).

(** [s.toLowerCase()] and [s.toUpperCase()], on the ASCII letters. *)
Definition lower_unit (c : Z) : Z := if (65 <=? c) && (c <=? 90) then c + 32 else c.
Definition upper_unit (c : Z) : Z := if (97 <=? c) && (c <=? 122) then c - 32 else c.
Definition to_lower (s : jstr) : jstr := map lower_unit s.
Definition to_upper (s : jstr) : jstr := map upper_unit s.

(** [s.trim()]: white space of the language in the ASCII and Latin-1 range. *)
Definition is_space (c : Z) : bool :=
  (c =? 32) || ((9 <=? c) && (c <=? 13)) || (c =? 160) || (c =? 65279).
Fixpoint trim_left (s : jstr) : jstr :=
  match s with
  | c :: t => if is_space c then trim_left t else s
  | [] => []
  end.
Definition trim (s : jstr) : jstr := rev (trim_left (rev (trim_left s))).

(** Decimal digits. *)
Definition is_digit (c : Z) : bool := (48 <=? c) && (c <=? 57).

(** [String(n)] of an integer. *)
Definition str_of_Z (n : Z) : jstr := js (pretty n).

Lemma js_inj s t : js s = js t → s = t.
Proof.
  unfold js. intros H.
  rewrite <- (string_of_list_ascii_of_string s), <- (string_of_list_ascii_of_string t).
  f_equal. revert H. generalize (list_ascii_of_string s), (list_ascii_of_string t).
  intros l. induction l as [|a l IH]; intros [|b l'] H; cbn in H; try done.
  injection H as H1 H2. f_equal; [|by apply IH].
  apply N2Z.inj in H1. rewrite <- (ascii_N_embedding a), <- (ascii_N_embedding b).
  by rewrite H1.
Qed.

Lemma str_of_Z_inj m n : str_of_Z m = str_of_Z n → m = n.
Proof. intros H%js_inj. by apply (inj pretty). Qed.

(** The number a text of decimal digits denotes. *)
Definition digits_value (s : jstr) : Z := fold_left (λ a d, a * 10 + (d - 48)) s 0.

Lemma digit_char (x : N) : (x < 10)%N → js (String (pretty_N_char x) EmptyString) = [48 + Z.of_N x].
Proof. intros H. assert (x ∈ map N.of_nat (seq 0 10)) as Hx.
  { apply list_elem_of_fmap. exists (N.to_nat x). split; [lia|]. apply elem_of_seq. lia. }
  cbn in Hx. repeat (apply elem_of_cons in Hx as [->|Hx]; [reflexivity|]). by apply not_elem_of_nil in Hx.
Qed.

Lemma js_String c s : js (String c s) = js (String c EmptyString) ++ js s.
Proof. done. Qed.

Lemma pretty_N_digits (x : N) : ∀ s, ∃ d,
  js (pretty_N_go x s) = d ++ js s ∧ forallb is_digit d = true ∧ (x ≠ 0%N → d ≠ [] ∧ head d ≠ Some 48) ∧
  ∀ a, fold_left (λ a d, a * 10 + (d - 48)) d a = a * 10 ^ Z.of_nat (length d) + Z.of_N x.
Proof.
  induction (N.lt_wf_0 x) as [x _ IH]. intros s. destruct (decide (x = 0%N)) as [->|Hx].
  { exists []. rewrite pretty_N_go_0. split_and!; [done|done|done|]. intros a. cbn. lia. }
  rewrite pretty_N_go_step; [|lia].
  destruct (IH (x `div` 10)%N (N.div_lt x 10 ltac:(lia) eq_refl) (String (pretty_N_char (x `mod` 10)) s))
    as (d & Hd & Hdig & Hhead & Hval).
  pose proof (N.mod_lt x 10 ltac:(done)) as Hm.
  exists (d ++ [48 + Z.of_N (x `mod` 10)]). rewrite Hd js_String (digit_char _ Hm). split_and!.
  - by rewrite -app_assoc.
  - rewrite forallb_app Hdig. clear -Hm. revert Hm. generalize (x `mod` 10)%N. intros r Hm. cbn. unfold is_digit.
    assert (48 <= 48 + Z.of_N r <= 57) as [->%Z.leb_le ->%Z.leb_le] by lia. done.
  - intros _. split; [intros H; by apply app_eq_nil in H as [_ H]|].
    pose proof (N.div_mod x 10 ltac:(done)). destruct d as [|c d].
    + intros [= H']. specialize (Hval 0). cbn in Hval. lia.
    + intros [= ->]. apply Hhead; [|done]. intros E. specialize (Hval 0). rewrite E in Hval. rewrite E in Hd.
      rewrite pretty_N_go_0 in Hd. apply (f_equal length) in Hd. rewrite length_app in Hd. cbn in Hd. lia.
  - intros a. rewrite fold_left_app Hval length_app. cbn [fold_left length].
    rewrite Nat2Z.inj_add Z.pow_add_r; [|lia|lia]. pose proof (N.div_mod x 10 ltac:(done)).
    change (10 ^ Z.of_nat 1) with 10. lia.
Qed.

(** A number that is not negative prints as digits that denote it. *)
Lemma str_of_Z_digits n : 0 <= n →
  forallb is_digit (str_of_Z n) = true ∧ digits_value (str_of_Z n) = n ∧ str_of_Z n ≠ [] ∧
  (n ≠ 0 → head (str_of_Z n) ≠ Some 48).
Proof.
  intros Hn. destruct n as [|p|p]; [done| |lia]. unfold str_of_Z.
  change (pretty (Z.pos p)) with (pretty_N_go (N.pos p) EmptyString).
  destruct (pretty_N_digits (N.pos p) EmptyString) as (d & -> & Hd & Hne & Hv). rewrite app_nil_r.
  split_and!; [done| |by apply Hne|by intros _; apply Hne]. unfold digits_value. rewrite Hv. lia.
Qed.

Lemma str_of_Z_neg n : n < 0 → str_of_Z n = 45 :: str_of_Z (- n).
Proof. intros Hn. by destruct n as [|p|p]. Qed.

(** ** Property tables

    A JavaScript object used as a dictionary: own enumerable properties in the
    order they were created. Assigning an existing key keeps its place. *)

Section props.
Context {V : Type}.
Implicit Types (o : list (jstr * V)).

Fixpoint pget o (k : jstr) : option V :=
  match o with
  | [] => None
  | (k', v) :: o => if streq k k' then Some v else pget o k
  end.

Fixpoint pset (k : jstr) (v : V) o : list (jstr * V) :=
  match o with
  | [] => [(k, v)]
  | (k', v') :: o =>
      if streq k k' then (k', v) :: o else (k', v') :: pset k v o
  end.

Definition pdel (k : jstr) o : list (jstr * V) :=
  filter (λ '(k', _), k ≠ k') o.

Lemma pget_pset_eq k v o : pget (pset k v o) k = Some v.
Proof.
  induction o as [|[k' v'] o IH]; cbn; [by rewrite streq_refl|].
  destruct (streq k k') eqn:E; cbn; by rewrite E.
Qed.

Lemma pget_pset_ne k k' v o : k ≠ k' → pget (pset k v o) k' = pget o k'.
Proof.
  intros Hk. induction o as [|[k1 v1] o IH]; cbn.
  - destruct (streq k' k) eqn:E; [|done]. apply streq_spec in E. congruence.
  - destruct (streq k k1) eqn:E; cbn.
    + apply streq_spec in E as <-.
      destruct (streq k' k) eqn:E'; [|done]. apply streq_spec in E'. congruence.
    + by rewrite IH.
Qed.

Lemma pget_pset k k' v o :
  pget (pset k v o) k' = if streq k k' then Some v else pget o k'.
Proof.
  destruct (streq k k') eqn:E.
  - apply streq_spec in E as <-. apply pget_pset_eq.
  - apply pget_pset_ne. by apply streq_neq.
Qed.

Lemma pget_pdel_eq k o : pget (pdel k o) k = None.
Proof.
  induction o as [|[k' v'] o IH]; [done|]. unfold pdel in *.
  rewrite filter_cons. case_decide; cbn; [|done].
  replace (streq k k') with false by (symmetry; by apply streq_neq). done.
Qed.

Lemma pget_pdel_ne k k' o : k ≠ k' → pget (pdel k o) k' = pget o k'.
Proof.
  intros Hk. induction o as [|[k1 v1] o IH]; [done|]. unfold pdel in *.
  rewrite filter_cons. case_decide as D; cbn.
  - by rewrite IH.
  - subst k1. rewrite IH.
    replace (streq k' k) with false; [done|]. symmetry. apply streq_neq. congruence.
Qed.

Lemma pget_some_in k v o : pget o k = Some v → (k, v) ∈ o.
Proof.
  induction o as [|[k' v'] o IH]; cbn; [done|].
  destruct (streq k k') eqn:E.
  - apply streq_spec in E as <-. intros [= <-]. by left.
  - intros. right. auto.
Qed.

Lemma pget_none k o : pget o k = None ↔ k ∉ o.*1.
Proof.
  induction o as [|[k' v'] o IH]; cbn; [split; [intros _; apply not_elem_of_nil|done]|].
  destruct (streq k k') eqn:E.
  - apply streq_spec in E as <-. split; [done|]. intros H. exfalso. apply H. by left.
  - apply streq_neq in E. rewrite IH not_elem_of_cons. naive_solver.
Qed.

Lemma pset_keys k v o :
  (pset k v o).*1 = if bool_decide (k ∈ o.*1) then o.*1 else o.*1 ++ [k].
Proof.
  induction o as [|[k' v'] o IH]; cbn; [by rewrite bool_decide_eq_false_2; [|apply not_elem_of_nil]|].
  destruct (streq k k') eqn:E; cbn.
  - apply streq_spec in E as <-. rewrite bool_decide_eq_true_2; [done|by left].
  - apply streq_neq in E. rewrite IH.
    destruct (decide (k ∈ o.*1)) as [H|H].
    + rewrite !bool_decide_eq_true_2; [done|by right|done].
    + rewrite !bool_decide_eq_false_2; [done|rewrite not_elem_of_cons; naive_solver|done].
Qed.

(** No key occurs twice: the invariant of a table built by assignments. *)
Lemma pset_nodup k v o : NoDup o.*1 → NoDup (pset k v o).*1.
Proof.
  intros H. rewrite pset_keys. case_bool_decide; [done|].
  apply NoDup_app. split_and!; [done| |apply NoDup_singleton]. set_solver.
Qed.

(** A new property goes last. *)
Lemma pset_fresh k v o : k ∉ o.*1 → pset k v o = o ++ [(k, v)].
Proof.
  induction o as [|[k' v'] o IH]; intros Hk; cbn; [done|]. cbn in Hk.
  apply not_elem_of_cons in Hk as [Hk Hn]. rewrite (proj2 (streq_neq k k') Hk). by rewrite IH.
Qed.

Lemma pset_in k v o k' : k' ∈ (pset k v o).*1 ↔ k' = k ∨ k' ∈ o.*1.
Proof. rewrite pset_keys. case_bool_decide; set_solver. Qed.
End props.

(** [for (k in o)] and [Object.keys(o)]: the keys that are array indices in
    ascending order, then the others in creation order. *)
Definition canonical_index (k : jstr) : option Z :=
  match k with
  | [] => None
  | c :: t =>
      if forallb is_digit k && (negb (c =? 48) || match t with [] => true | _ => false end)
      then let n := fold_left (λ a d, a * 10 + (d - 48)) k 0 in
           if n <? 4294967295 then Some n else None
      else None
  end.

Fixpoint insert_index {V} (n : Z) (p : jstr * V) (l : list (Z * (jstr * V))) :=
  match l with
  | [] => [(n, p)]
  | (m, q) :: l' => if n <? m then (n, p) :: l else (m, q) :: insert_index n p l'
  end.

Definition enum {V} (o : list (jstr * V)) : list (jstr * V) :=
  (fold_left (λ acc p, match canonical_index p.1 with
                       | Some n => insert_index n p acc
                       | None => acc
                       end) o []).*2
  ++ filter (λ p, canonical_index p.1 = None) o.
Definition enum_keys {V} (o : list (jstr * V)) : list jstr := (enum o).*1.

Lemma insert_index_perm {V} n (p : jstr * V) l :
  (insert_index n p l).*2 ≡ₚ p :: l.*2.
Proof.
  induction l as [|[m q] l IH]; cbn; [done|].
  destruct (n <? m); cbn; [done|]. rewrite IH. apply Permutation_swap.
Qed.

(** Enumerating visits every property once. *)
Lemma enum_perm {V} (o : list (jstr * V)) : enum o ≡ₚ o.
Proof.
  unfold enum.
  assert (∀ acc : list (Z * (jstr * V)),
    (fold_left (λ acc p, match canonical_index p.1 with
                         | Some n => insert_index n p acc
                         | None => acc end) o acc).*2
    ++ filter (λ p, canonical_index p.1 = None) o ≡ₚ acc.*2 ++ o) as H; [|by rewrite H].
  induction o as [|p o IH]; intros acc; [done|].
  rewrite filter_cons. cbn [fold_left]. case_decide as D.
  - rewrite D -Permutation_middle IH. apply Permutation_middle.
  - destruct (canonical_index p.1) as [n|]; [|done].
    rewrite IH insert_index_perm. apply Permutation_middle.
Qed.

Lemma pget_in {V} (o : list (jstr * V)) k v : NoDup o.*1 → (k, v) ∈ o → pget o k = Some v.
Proof.
  induction o as [|[k' v'] o IH]; intros Hnd Hin; [by apply not_elem_of_nil in Hin|].
  apply NoDup_cons in Hnd as [Hk Hnd]. cbn. apply elem_of_cons in Hin as [[= <- <-]|Hin].
  - by rewrite streq_refl.
  - destruct (streq k k') eqn:E; [|by apply IH]. apply streq_spec in E as <-.
    exfalso. apply Hk. apply list_elem_of_fmap. by exists (k, v).
Qed.

Lemma pget_perm {V} (o o' : list (jstr * V)) k : NoDup o.*1 → o ≡ₚ o' → pget o k = pget o' k.
Proof.
  intros Hnd HP. assert (NoDup o'.*1) as Hnd' by by rewrite -HP.
  destruct (pget o' k) as [v|] eqn:E.
  - apply pget_in; [done|]. rewrite HP. by apply pget_some_in.
  - apply pget_none. apply pget_none in E. by rewrite HP.
Qed.

(** ** Fresh names

    Several loops of the code try [base], [base_0], [base_1], ... until a name
    is free; among more candidates than names taken, one is free. *)

Definition candidate (base : jstr) (n : nat) : jstr :=
  match n with
  | O => base
  | S k => base ++ #"_" ++ str_of_Z (Z.of_nat k)
  end.

Lemma candidate_inj base m n : candidate base m = candidate base n → m = n.
Proof.
  destruct m as [|m], n as [|n]; cbn; intros H; [done| | |].
  - apply (f_equal length) in H. rewrite !length_app in H.
    change (length #"_") with 1%nat in H. lia.
  - apply (f_equal length) in H. rewrite !length_app in H.
    change (length #"_") with 1%nat in H. lia.
  - apply app_inv_head, app_inv_head in H. apply str_of_Z_inj in H. lia.
Qed.

Lemma fresh_among (f : nat → jstr) (taken : list jstr) :
  (∀ m n, f m = f n → m = n) → ∃ n, (n <= length taken)%nat ∧ f n ∉ taken.
Proof.
  intros Hf.
  destruct (decide (Exists (λ n, f n ∉ taken) (seq 0 (S (length taken))))) as [H|H].
  - apply Exists_exists in H as (n & Hn & Ht). exists n. split; [|done].
    apply elem_of_seq in Hn. lia.
  - exfalso.
    assert (map f (seq 0 (S (length taken))) ⊆ taken) as Hsub.
    { intros x Hx. apply list_elem_of_fmap in Hx as (n & -> & Hn).
      destruct (decide (f n ∈ taken)); [done|]. exfalso. apply H.
      apply Exists_exists. eauto. }
    assert (NoDup (map f (seq 0 (S (length taken))))) as Hnd.
    { apply NoDup_fmap_2; [intros ???; by apply Hf | apply NoDup_seq]. }
    pose proof (NoDup_incl_length (proj1 (NoDup_ListNoDup _) Hnd)
      (l' := taken)) as Hl.
    rewrite length_map length_seq in Hl.
    enough (S (length taken) <= length taken)%nat by lia. apply Hl.
    intros x Hx. apply list_elem_of_In, Hsub, list_elem_of_In, Hx.
Qed.

(** ** Finite checks

    A decidable fact about a bounded range of integers is checked on each. *)

Definition range (lo : Z) (n : nat) : list Z := map (λ i, lo + Z.of_nat i) (seq 0 n).

Lemma range_check (P : Z → bool) lo n :
  forallb P (range lo n) = true → ∀ v, lo <= v < lo + Z.of_nat n → P v = true.
Proof.
  intros H v Hv. rewrite forallb_forall in H. apply H, list_elem_of_In, list_elem_of_fmap.
  exists (Z.to_nat (v - lo)). split; [lia|]. apply elem_of_seq. lia.
Qed.

(** ** Automation *)

Create HintDb jsdb.
Create Rewrite HintDb jsrw.
#[export] Hint Resolve streq_refl pget_pset_eq pset_nodup : jsdb.
#[export] Hint Rewrite @pget_pset_eq streq_refl Z.eqb_refl : jsrw.

(** Case analysis on every boolean test of the goal. *)
Ltac case_if :=
  match goal with
  | |- context [if ?b then _ else _] => destruct b eqn:?
  | H : context [if ?b then _ else _] |- _ => destruct b eqn:?
  end.

(** Turn boolean string tests in the context into equations. *)
Ltac str_eqs :=
  repeat match goal with
  | H : streq _ _ = true |- _ => apply streq_spec in H
  | H : streq _ _ = false |- _ => apply streq_neq in H
  | H : andb _ _ = true |- _ => apply andb_true_iff in H as [? ?]
  | H : orb _ _ = false |- _ => apply orb_false_iff in H as [? ?]
  | H : negb _ = true |- _ => apply negb_true_iff in H
  | H : negb _ = false |- _ => apply negb_false_iff in H
  end.

(** Equality of explicit lists, element by element. *)
Ltac list_eq tac := repeat (apply (f_equal2 cons); [solve [tac | reflexivity]|]); reflexivity.
