(* ===== verification/JsValue.v ===== *)
(** * JavaScript values and the global functions of the language

    The dynamic values the client passes around (parsed JSON or YAML documents,
    parameter values), with the operators of the language on them, and
    [encodeURIComponent] with its inverse. Objects hold their own enumerable
    properties; the properties inherited from [Object.prototype] are not keys of
    the documents the client handles. *)

From S2P Require Import Prelude.

(** Integers print as decimal numerals and are kept as [Z]; any other number
    (fractions, infinities, NaN) is carried by its [ToString] image. *)
#[local] Unset Elimination Schemes.
Inductive value :=
  | VUndef
  | VNull
  | VBool (b : bool)
  | VNum (n : Z)
  | VDbl (repr : jstr)
  | VStr (s : jstr)
  | VArr (l : list value)
  | VObj (o : list (jstr * value)).
#[local] Set Elimination Schemes.

Section value_ind.
Variable P : value → Prop.
Hypothesis HUndef : P VUndef.
Hypothesis HNull : P VNull.
Hypothesis HBool : ∀ b, P (VBool b).
Hypothesis HNum : ∀ n, P (VNum n).
Hypothesis HDbl : ∀ r, P (VDbl r).
Hypothesis HStr : ∀ s, P (VStr s).
Hypothesis HArr : ∀ l, Forall P l → P (VArr l).
Hypothesis HObj : ∀ o, Forall (λ p, P p.2) o → P (VObj o).

Fixpoint value_ind (v : value) : P v :=
  match v with
  | VUndef => HUndef
  | VNull => HNull
  | VBool b => HBool b
  | VNum n => HNum n
  | VDbl r => HDbl r
  | VStr s => HStr s
  | VArr l => HArr l ((fix go l : Forall P l :=
      match l with
      | [] => Forall_nil_2 P
      | v :: l => Forall_cons_2 P v l (value_ind v) (go l)
      end) l)
  | VObj o => HObj o ((fix go o : Forall (λ p, P p.2) o :=
      match o with
      | [] => Forall_nil_2 _
      | p :: o => Forall_cons_2 (λ p, P p.2) p o (value_ind p.2) (go o)
      end) o)
  end.
End value_ind.

(** ** Operators *)

(** [!!v] *)
Definition truthy (v : value) : bool :=
  match v with
  | VUndef | VNull => false
  | VBool b => b
  | VNum n => negb (n =? 0)
  | VDbl r => negb (streq r #"NaN")
  | VStr s => negb (streq s [])
  | VArr _ | VObj _ => true
  end.

(** [a || b] *)
Definition or_else (a b : value) : value := if truthy a then a else b.

Definition is_undef (v : value) : bool := match v with VUndef => true | _ => false end.
Definition is_array (v : value) : bool := match v with VArr _ => true | _ => false end.
Definition is_plain_object (v : value) : bool := match v with VObj _ => true | _ => false end.
(** lodash [isObject] *)
Definition is_object (v : value) : bool :=
  match v with VArr _ | VObj _ => true | _ => false end.
Definition is_string (v : value) : bool := match v with VStr _ => true | _ => false end.

(** [typeof v] *)
Definition typeof (v : value) : jstr :=
  match v with
  | VUndef => #"undefined"
  | VNull | VArr _ | VObj _ => #"object"
  | VBool _ => #"boolean"
  | VNum _ | VDbl _ => #"number"
  | VStr _ => #"string"
  end.

(** [v === s] for a string literal *)
Definition is_str (s : jstr) (v : value) : bool :=
  match v with VStr t => streq t s | _ => false end.
(** [v === b] for a boolean literal *)
Definition is_bool (b : bool) (v : value) : bool :=
  match v with VBool c => Bool.eqb b c | _ => false end.

(** [a === b]; two objects that are not the same object differ. *)
Definition strict_eq (a b : value) : bool :=
  match a, b with
  | VUndef, VUndef | VNull, VNull => true
  | VBool x, VBool y => Bool.eqb x y
  | VNum x, VNum y => x =? y
  | VDbl x, VDbl y => streq x y && negb (streq x #"NaN")
  | VStr x, VStr y => streq x y
  | _, _ => false
  end.

(** [String(v)], also what [+] does to an operand next to a string. *)
Fixpoint to_string (v : value) : jstr :=
  match v with
  | VUndef => #"undefined"
  | VNull => #"null"
  | VBool b => if b then #"true" else #"false"
  | VNum n => str_of_Z n
  | VDbl r => r
  | VStr s => s
  | VArr l => join #"," (map (λ v, match v with VUndef | VNull => [] | _ => to_string v end) l)
  | VObj _ => #"[object Object]"
  end.

(** How an element of an array is printed by [join]. *)
Definition joined (v : value) : jstr := match v with VUndef | VNull => [] | _ => to_string v end.

(** [v[k]]: reading a property. A missing property is [undefined]; reading from
    [undefined] or [null] throws. *)
Definition get (v : value) (k : jstr) : res value :=
  match v with
  | VUndef | VNull => Throw TypeError
  | VObj o => Ok (default VUndef (pget o k))
  | VArr l =>
      if streq k #"length" then Ok (VNum (Z.of_nat (length l)))
      else match canonical_index k with
           | Some n => Ok (default VUndef (l !! Z.to_nat n))
           | None => Ok VUndef
           end
  | VStr s =>
      if streq k #"length" then Ok (VNum (Z.of_nat (length s)))
      else match canonical_index k with
           | Some n => Ok (match s !! Z.to_nat n with Some c => VStr [c] | None => VUndef end)
           | None => Ok VUndef
           end
  | VBool _ | VNum _ | VDbl _ => Ok VUndef
  end.

(** Reading from a value known to be an object. *)
Definition field (o : list (jstr * value)) (k : jstr) : value := default VUndef (pget o k).

Lemma get_obj o k : get (VObj o) k = Ok (field o k).
Proof. done. Qed.

Lemma field_pset k k' v o : field (pset k v o) k' = if streq k k' then v else field o k'.
Proof. unfold field. rewrite pget_pset. by destruct (streq k k'). Qed.

(** The string method receivers: calling a string method on another value
    throws. *)
Definition as_str (v : value) : res jstr :=
  match v with VStr s => Ok s | _ => Throw TypeError end.

(** The keys and values a [for (k in v)] or lodash [forEach] visits. *)
Definition entries (v : value) : list (jstr * value) :=
  match v with
  | VObj o => enum o
  | VArr l => imap (λ i v, (str_of_Z (Z.of_nat i), v)) l
  | _ => []
  end.

(** ** [JSON.stringify] *)

Definition hex4 (c : Z) : Z := if c <? 10 then 48 + c else 87 + c.
Definition json_unit (c : Z) : jstr :=
  if c =? 34 then [92; 34] else if c =? 92 then [92; 92]
  else if c =? 8 then #"\b" else if c =? 12 then #"\f" else if c =? 10 then #"\n"
  else if c =? 13 then #"\r" else if c =? 9 then #"\t"
  else if c <? 32 then #"\u00" ++ [hex4 (c / 16); hex4 (c mod 16)] else [c].
Definition json_quote (s : jstr) : jstr := [34] ++ concat (map json_unit s) ++ [34].

(** [None] is [undefined]: such properties are left out and such elements are
    [null]. *)
Fixpoint stringify (v : value) : option jstr :=
  match v with
  | VUndef => None
  | VNull => Some #"null"
  | VBool b => Some (if b then #"true" else #"false")
  | VNum n => Some (str_of_Z n)
  | VDbl r => Some (if streq r #"NaN" || streq r #"Infinity" || streq r #"-Infinity"
                    then #"null" else r)
  | VStr s => Some (json_quote s)
  | VArr l => Some (#"[" ++ join #"," (map (λ v, default #"null" (stringify v)) l) ++ #"]")
  | VObj o =>
      Some (#"{" ++ join #"," (omap (λ '(k, s), s' ← s; Some (json_quote k ++ #":" ++ s'))
              (enum (map (λ '(k, v), (k, stringify v)) o))) ++ #"}")
  end.
