(* ===== verification/Int32.v ===== *)
(** * 32-bit integer operators of the language

    The bitwise operators convert their operands with [ToInt32] (or [ToUint32]
    for [>>>]); they are written out on [Z]. *)

From S2P Require Import Prelude.

Definition to_uint32 (z : Z) : Z := z mod 4294967296.
Definition to_int32 (z : Z) : Z := (z + 2147483648) mod 4294967296 - 2147483648.

Definition jand (a b : Z) : Z := Z.land (to_int32 a) (to_int32 b).
Definition jor (a b : Z) : Z := Z.lor (to_int32 a) (to_int32 b).
(** [a << n], [a >> n] and [a >>> n] for a shift count below 32. *)
Definition jshl (a n : Z) : Z := to_int32 (Z.shiftl (to_int32 a) n).
Definition jshr (a n : Z) : Z := Z.shiftr (to_int32 a) n.
Definition jushr (a n : Z) : Z := Z.shiftr (to_uint32 a) n.

Ltac zdm := Z.div_mod_to_equations; lia.

Lemma to_int32_small z : -2147483648 <= z < 2147483648 → to_int32 z = z.
Proof. intros. unfold to_int32. zdm. Qed.

Lemma to_uint32_small z : 0 <= z < 4294967296 → to_uint32 z = z.
Proof. intros. by apply Z.mod_small. Qed.

Lemma to_int32_range z : -2147483648 <= to_int32 z < 2147483648.
Proof. unfold to_int32. zdm. Qed.

Lemma to_int32_mod z : to_int32 z mod 4294967296 = z mod 4294967296.
Proof. unfold to_int32. zdm. Qed.

(** [ToInt32] keeps the low bits. *)
Lemma to_int32_mod_pow z k : 0 <= k <= 32 → to_int32 z mod 2 ^ k = z mod 2 ^ k.
Proof.
  intros Hk. assert ((2 ^ k | 4294967296)) as Hdiv.
  { exists (2 ^ (32 - k)). rewrite -Z.pow_add_r; [|lia..].
    by replace (32 - k + k) with 32 by lia. }
  rewrite -(Z.mod_mod_divide (to_int32 z) 4294967296); [|done].
  rewrite to_int32_mod. by apply Z.mod_mod_divide.
Qed.

Lemma land_ones_mod a k : 0 <= k → Z.land a (2 ^ k - 1) = a mod 2 ^ k.
Proof.
  intros. rewrite -Z.land_ones; [|done]. f_equal. rewrite Z.ones_equiv. lia.
Qed.

(** [v & 0xFF] and [v & 0x3F] *)
Lemma jand_ones v k : 0 <= k <= 31 → jand v (2 ^ k - 1) = v mod 2 ^ k.
Proof.
  intros Hk. unfold jand. rewrite (to_int32_small (2 ^ k - 1)).
  - rewrite land_ones_mod; [|lia]. apply to_int32_mod_pow. lia.
  - assert (0 < 2 ^ k <= 2 ^ 31); [|lia].
    split; [apply Z.pow_pos_nonneg; lia|apply Z.pow_le_mono_r; lia].
Qed.

Lemma jand_255 v : jand v 255 = v mod 256.
Proof. apply (jand_ones v 8). lia. Qed.
Lemma jand_63 v : jand v 63 = v mod 64.
Proof. apply (jand_ones v 6). lia. Qed.

Lemma jshr_div v n : -2147483648 <= v < 2147483648 → 0 <= n → jshr v n = v / 2 ^ n.
Proof. intros. unfold jshr. rewrite to_int32_small; [|done]. by rewrite Z.shiftr_div_pow2. Qed.

Lemma jushr_div v n : 0 <= v < 4294967296 → 0 <= n → jushr v n = v / 2 ^ n.
Proof. intros. unfold jushr. rewrite to_uint32_small; [|done]. by rewrite Z.shiftr_div_pow2. Qed.

Lemma jshl_mul v n :
  0 <= n → -2147483648 <= v < 2147483648 → -2147483648 <= v * 2 ^ n < 2147483648 →
  jshl v n = v * 2 ^ n.
Proof.
  intros. unfold jshl. rewrite (to_int32_small v); [|done].
  rewrite Z.shiftl_mul_pow2; [|done]. by rewrite to_int32_small.
Qed.

(** Disjoint bits add up. *)
Lemma land_shifted a b k : 0 <= k → 0 <= b < 2 ^ k → Z.land (a * 2 ^ k) b = 0.
Proof.
  intros Hk Hb. apply Z.bits_inj'. intros n Hn.
  rewrite Z.land_spec Z.bits_0 -Z.shiftl_mul_pow2; [|done].
  destruct (Z.lt_ge_cases n k).
  - by rewrite Z.shiftl_spec_low.
  - rewrite -(Z.mod_small b (2 ^ k)); [|done].
    rewrite Z.mod_pow2_bits_high; [|done]. apply andb_false_r.
Qed.

Lemma lor_add a b k : 0 <= k → 0 <= b < 2 ^ k → Z.lor (a * 2 ^ k) b = a * 2 ^ k + b.
Proof.
  intros Hk Hb. rewrite -Z.add_lor_land land_shifted; [lia|done|done].
Qed.

Lemma jor_add a b k :
  0 <= k → 0 <= b < 2 ^ k → -2147483648 <= a * 2 ^ k < 2147483648 →
  -2147483648 <= b < 2147483648 → jor (a * 2 ^ k) b = a * 2 ^ k + b.
Proof. intros. unfold jor. rewrite !to_int32_small; [|done..]. by apply lor_add. Qed.

Lemma jor_comm a b : jor a b = jor b a.
Proof. apply Z.lor_comm. Qed.

(** Instances at the widths the code uses. *)
Lemma jor_add6 a b : 0 <= b < 64 → 0 <= a < 33554432 → jor (a * 64) b = a * 64 + b.
Proof. intros. apply (jor_add a b 6); lia. Qed.
Lemma jor_add8 a b : 0 <= b < 256 → 0 <= a < 8388608 → jor (a * 256) b = a * 256 + b.
Proof. intros. apply (jor_add a b 8); lia. Qed.
Lemma jshl_pow a n :
  0 <= n <= 24 → 0 <= a → a * 2 ^ n < 2147483648 → jshl a n = a * 2 ^ n.
Proof.
  intros Hn Ha H. assert (0 < 2 ^ n) by (apply Z.pow_pos_nonneg; lia).
  apply jshl_mul; nia.
Qed.

Lemma land_le a b : 0 <= a → 0 <= b → Z.land a b <= a.
Proof.
  intros Ha Hb. rewrite -(Z2N.id a) // -(Z2N.id b) // -N2Z.inj_land.
  apply N2Z.inj_le, N.land_le_l.
Qed.
