(* ===== verification/Uri.v ===== *)
(** * [encodeURIComponent]

    The global function the client encodes path, query and form values with:
    unreserved units are copied, any other code point becomes the percent
    escapes of its UTF-8 bytes, and an unpaired surrogate throws [URIError].
    [uri_decode] is [decodeURIComponent], used as the specification of what a
    server reads back. *)

From S2P Require Import Prelude.

Definition is_alnum (c : Z) : bool :=
  is_digit c || ((65 <=? c) && (c <=? 90)) || ((97 <=? c) && (c <=? 122)).

(** Letters, digits and - _ . ! ~ * ' ( ) *)
Definition uri_unreserved (c : Z) : bool :=
  is_alnum c || existsb (Z.eqb c) [45; 95; 46; 33; 126; 42; 39; 40; 41].

Definition high_surrogate (c : Z) : bool := (55296 <=? c) && (c <=? 56319).
Definition low_surrogate (c : Z) : bool := (56320 <=? c) && (c <=? 57343).

(** The code point of a surrogate pair. *)
Definition pair_cp (c d : Z) : Z := (c - 55296) * 1024 + (d - 56320) + 65536.

Definition utf8 (cp : Z) : list Z :=
  if cp <? 128 then [cp]
  else if cp <? 2048 then [192 + cp / 64; 128 + cp mod 64]
  else if cp <? 65536 then [224 + cp / 4096; 128 + cp / 64 mod 64; 128 + cp mod 64]
  else [240 + cp / 262144; 128 + cp / 4096 mod 64; 128 + cp / 64 mod 64; 128 + cp mod 64].

Definition hex_digit (d : Z) : Z := if d <? 10 then 48 + d else 55 + d.
Definition pct (b : Z) : jstr := [37; hex_digit (b / 16); hex_digit (b mod 16)].
Definition pct_cp (cp : Z) : jstr := concat (map pct (utf8 cp)).

Fixpoint encodeURIComponent (s : jstr) : res jstr :=
  match s with
  | [] => Ok []
  | c :: t =>
      if uri_unreserved c then cons c <$> encodeURIComponent t
      else if low_surrogate c then Throw URIError
      else if high_surrogate c then
        match t with
        | d :: t' =>
            if low_surrogate d then app (pct_cp (pair_cp c d)) <$> encodeURIComponent t'
            else Throw URIError
        | [] => Throw URIError
        end
      else app (pct_cp c) <$> encodeURIComponent t
  end.

(** ** Decoding *)

Definition hex_val (c : Z) : option Z :=
  if is_digit c then Some (c - 48)
  else if (65 <=? c) && (c <=? 70) then Some (c - 55)
  else if (97 <=? c) && (c <=? 102) then Some (c - 87)
  else None.

Definition pct_byte (s : jstr) : option (Z * jstr) :=
  match s with
  | c :: a :: b :: t =>
      if c =? 37 then x ← hex_val a; y ← hex_val b; Some (16 * x + y, t) else None
  | _ => None
  end.

(** A continuation byte, its six bits. *)
Definition pct_cont (s : jstr) : option (Z * jstr) :=
  '(b, t) ← pct_byte s; if (128 <=? b) && (b <? 192) then Some (b - 128, t) else None.

(** A code point as code units. *)
Definition cp_units (cp : Z) : jstr :=
  if cp <? 65536 then [cp]
  else [55296 + (cp - 65536) / 1024; 56320 + (cp - 65536) mod 1024].

(** The code point at the head of a string that starts with an escape. *)
Definition pct_head (s : jstr) : option (Z * jstr) :=
  '(b, t) ← pct_byte s;
  if b <? 128 then Some (b, t)
  else if (192 <=? b) && (b <? 224) then
    '(x, t) ← pct_cont t; Some ((b - 192) * 64 + x, t)
  else if (224 <=? b) && (b <? 240) then
    '(x, t) ← pct_cont t; '(y, t) ← pct_cont t; Some ((b - 224) * 4096 + x * 64 + y, t)
  else if (240 <=? b) && (b <? 248) then
    '(x, t) ← pct_cont t; '(y, t) ← pct_cont t; '(z, t) ← pct_cont t;
    Some ((b - 240) * 262144 + x * 4096 + y * 64 + z, t)
  else None.

(** [n] bounds the escapes and units read; the length of [s] is enough. *)
Fixpoint uri_decode_go (n : nat) (s : jstr) : option jstr :=
  match n, s with
  | _, [] => Some []
  | O, _ => None
  | S n, c :: t =>
      if c =? 37 then '(cp, t) ← pct_head s; app (cp_units cp) <$> uri_decode_go n t
      else cons c <$> uri_decode_go n t
  end.
Definition uri_decode (s : jstr) : option jstr := uri_decode_go (length s) s.
Arguments uri_decode : simpl never.

(** ** Round trip *)

Ltac zdm := Z.div_mod_to_equations; lia.

Lemma hex_val_digit d : 0 <= d < 16 → hex_val (hex_digit d) = Some d.
Proof.
  intros Hd. unfold hex_digit, hex_val, is_digit.
  destruct (Z.ltb_spec d 10).
  - replace (_ && _) with true by (symmetry; apply andb_true_iff; rewrite !Z.leb_le; lia).
    f_equal. lia.
  - replace (_ && _) with false by (symmetry; apply andb_false_iff; rewrite !Z.leb_gt; lia).
    replace (_ && _) with true by (symmetry; apply andb_true_iff; rewrite !Z.leb_le; lia).
    f_equal. lia.
Qed.

Lemma pct_byte_pct b t : 0 <= b < 256 → pct_byte (pct b ++ t) = Some (b, t).
Proof.
  intros Hb. cbn -[Z.mul Z.div Z.modulo hex_val hex_digit].
  rewrite !hex_val_digit; [|zdm..]. cbn -[Z.mul Z.div Z.modulo].
  do 2 f_equal. zdm.
Qed.

Lemma pct_cont_pct b t : 0 <= b < 64 → pct_cont (pct (128 + b) ++ t) = Some (b, t).
Proof.
  intros Hb. unfold pct_cont. rewrite pct_byte_pct; [|lia]. cbn -[Z.leb Z.ltb Z.add Z.sub].
  replace (_ && _) with true
    by (symmetry; apply andb_true_iff; rewrite Z.leb_le Z.ltb_lt; lia).
  do 2 f_equal. lia.
Qed.

Ltac solve_test :=
  symmetry; rewrite ?andb_true_iff ?andb_false_iff ?Z.leb_le ?Z.ltb_lt ?Z.leb_gt ?Z.ltb_ge; zdm.

Lemma pct_head_cp cp t :
  0 <= cp < 1114112 → pct_head (pct_cp cp ++ t) = Some (cp, t).
Proof.
  intros Hcp. unfold pct_cp, utf8, pct_head.
  destruct (Z.ltb_spec cp 128) as [H1|H1];
    [|destruct (Z.ltb_spec cp 2048) as [H2|H2];
      [|destruct (Z.ltb_spec cp 65536) as [H3|H3]]];
    cbn [map concat]; rewrite -?app_assoc pct_byte_pct; try zdm; cbn [mbind option_bind].
  - replace (cp <? 128) with true by solve_test. done.
  - replace (_ <? 128) with false by solve_test.
    replace (_ && _) with true by solve_test.
    rewrite pct_cont_pct; [|zdm]. cbn [mbind option_bind]. do 2 f_equal. zdm.
  - replace (_ <? 128) with false by solve_test.
    replace ((192 <=? _) && _) with false by solve_test.
    replace ((224 <=? _) && _) with true by solve_test.
    do 2 (rewrite pct_cont_pct; [|zdm]; cbn [mbind option_bind]). do 2 f_equal. zdm.
  - replace (_ <? 128) with false by solve_test.
    replace ((192 <=? _) && _) with false by solve_test.
    replace ((224 <=? _) && _) with false by solve_test.
    replace ((240 <=? _) && _) with true by solve_test.
    do 3 (rewrite pct_cont_pct; [|zdm]; cbn [mbind option_bind]). do 2 f_equal. zdm.
Qed.

Lemma pct_cp_head cp : ∃ t, pct_cp cp = 37 :: t.
Proof. unfold pct_cp, utf8. repeat case_if; cbn; eauto. Qed.

Lemma pair_cp_units c d :
  high_surrogate c = true → low_surrogate d = true →
  cp_units (pair_cp c d) = [c; d] ∧ 65536 <= pair_cp c d < 1114112.
Proof.
  unfold high_surrogate, low_surrogate, cp_units, pair_cp. intros Hc Hd.
  apply andb_true_iff in Hc, Hd. rewrite !Z.leb_le in Hc, Hd.
  replace (_ <? 65536) with false by solve_test.
  split; [|lia]. f_equal; [|f_equal]; zdm.
Qed.

Lemma uri_unreserved_not_pct c : uri_unreserved c = true → (c =? 37) = false.
Proof. intros H. apply Z.eqb_neq. intros ->. done. Qed.

Lemma uri_decode_cp n cp t :
  0 <= cp < 1114112 →
  uri_decode_go (S n) (pct_cp cp ++ t) = app (cp_units cp) <$> uri_decode_go n t.
Proof.
  intros Hcp. destruct (pct_cp_head cp) as [u Hu].
  pose proof (pct_head_cp cp t Hcp) as H. rewrite Hu in H |- *.
  cbn -[pct_head]. cbn -[pct_head] in H. by rewrite H.
Qed.

Lemma pct_cp_length cp : (1 <= length (pct_cp cp))%nat.
Proof. destruct (pct_cp_head cp) as [u ->]. cbn. lia. Qed.

Lemma fmap_Ok {A B} (f : A → B) (m : res A) b :
  f <$> m = Ok b → ∃ a, m = Ok a ∧ b = f a.
Proof. destruct m; cbn; [intros [= <-]; eauto|done]. Qed.

(** What an encoding looks like from its first unit. *)
Lemma encode_cases c t e :
  encodeURIComponent (c :: t) = Ok e →
  (uri_unreserved c = true ∧ ∃ e', encodeURIComponent t = Ok e' ∧ e = c :: e')
  ∨ (uri_unreserved c = false ∧ low_surrogate c = false ∧ high_surrogate c = false ∧
     ∃ e', encodeURIComponent t = Ok e' ∧ e = pct_cp c ++ e')
  ∨ (high_surrogate c = true ∧ ∃ d t' e', t = d :: t' ∧ low_surrogate d = true ∧
     encodeURIComponent t' = Ok e' ∧ e = pct_cp (pair_cp c d) ++ e').
Proof.
  cbn. destruct (uri_unreserved c) eqn:U.
  { intros (e' & ? & ->)%fmap_Ok. left. eauto. }
  destruct (low_surrogate c) eqn:L; [done|]. destruct (high_surrogate c) eqn:Hh.
  - destruct t as [|d t']; [done|]. destruct (low_surrogate d) eqn:Ld; [|done].
    intros (e' & ? & ->)%fmap_Ok. right; right. split; [done|]. by exists d, t', e'.
  - intros (e' & ? & ->)%fmap_Ok. right; left. eauto 6.
Qed.

Lemma uri_decode_encode_go s : ∀ e n k,
  (length s <= k)%nat → wf_jstr s → encodeURIComponent s = Ok e →
  (length e <= n)%nat → uri_decode_go n e = Some s.
Proof.
  intros e n k. revert s e n.
  induction k as [|k IH]; intros [|c t] e n Hk Hwf He Hn; cbn [length] in Hk; try lia;
    try (injection He as <-; by destruct n).
  apply encode_cases in He as
    [(U & e' & He & ->)|[(U & L & Hh & e' & He & ->)|(Hh & d & t' & e' & -> & Ld & He & ->)]].
  - destruct n as [|n]; cbn in Hn; [lia|]. cbn [uri_decode_go].
    rewrite uri_unreserved_not_pct; [|done].
    rewrite (IH t e' n); [done|lia|by inversion Hwf|done|lia].
  - pose proof (pct_cp_length c). rewrite length_app in Hn.
    destruct n as [|n]; [lia|]. inversion Hwf as [|? ? Hc Ht]; subst.
    unfold code_unit in Hc. rewrite uri_decode_cp; [|lia].
    rewrite (IH t e' n); [|lia|done|done|lia].
    unfold cp_units. by replace (c <? 65536) with true by solve_test.
  - destruct (pair_cp_units c d Hh Ld) as [Hu Hr].
    pose proof (pct_cp_length (pair_cp c d)). rewrite length_app in Hn.
    destruct n as [|n]; [lia|]. cbn in Hk. rewrite uri_decode_cp; [|lia].
    rewrite (IH t' e' n); [by rewrite Hu|lia| |done|lia].
    inversion Hwf as [|? ? _ Ht]; subst. by inversion Ht.
Qed.

(** Decoding an encoding gives the string back. *)
Lemma uri_decode_encode s e :
  wf_jstr s → encodeURIComponent s = Ok e → uri_decode e = Some s.
Proof. intros Hwf He. by eapply (uri_decode_encode_go s e (length e) (length s)). Qed.

Lemma encode_inj s s' e :
  wf_jstr s → wf_jstr s' →
  encodeURIComponent s = Ok e → encodeURIComponent s' = Ok e → s = s'.
Proof.
  intros Hs Hs' He He'. apply uri_decode_encode in He, He'; [|done..]. congruence.
Qed.

(** ** The alphabet of encoded text *)

Definition uri_safe (c : Z) : bool := uri_unreserved c || (c =? 37).

Lemma hex_digit_safe d : 0 <= d < 16 → uri_safe (hex_digit d) = true.
Proof.
  intros Hd. unfold uri_safe, uri_unreserved, is_alnum, is_digit, hex_digit.
  destruct (Z.ltb_spec d 10).
  - replace ((48 <=? 48 + d) && (48 + d <=? 57)) with true by solve_test. done.
  - replace ((65 <=? 55 + d) && (55 + d <=? 90)) with true by solve_test.
    by rewrite orb_true_r.
Qed.

Lemma pct_safe b : 0 <= b < 256 → Forall (λ c, uri_safe c = true) (pct b).
Proof.
  intros. unfold pct. rewrite !Forall_cons.
  split_and!; [done|apply hex_digit_safe; zdm..|by apply Forall_nil].
Qed.

Lemma utf8_bytes cp : 0 <= cp < 1114112 → Forall (λ b, 0 <= b < 256) (utf8 cp).
Proof.
  intros. unfold utf8. repeat case_if;
    repeat match goal with H : (_ <? _) = _ |- _ =>
      first [apply Z.ltb_lt in H | apply Z.ltb_ge in H] end;
    rewrite ?Forall_cons ?Forall_nil; split_and!; zdm || done.
Qed.

Lemma pct_cp_safe cp : 0 <= cp < 1114112 → Forall (λ c, uri_safe c = true) (pct_cp cp).
Proof.
  intros H%utf8_bytes. unfold pct_cp. induction H as [|b l Hb _ IH]; cbn [map concat]; [done|].
  apply Forall_app. split; [by apply pct_safe | done].
Qed.

Lemma encode_safe_go s : ∀ k e,
  (length s <= k)%nat → wf_jstr s → encodeURIComponent s = Ok e →
  Forall (λ c, uri_safe c = true) e.
Proof.
  intros k. revert s. induction k as [|k IH]; intros [|c t] e Hk Hwf He;
    cbn [length] in Hk; try lia; try by injection He as <-.
  inversion Hwf as [|? ? Hc Ht]; subst. unfold code_unit in Hc.
  apply encode_cases in He as
    [(U & e' & He & ->)|[(U & L & Hh & e' & He & ->)|(Hh & d & t' & e' & -> & Ld & He & ->)]].
  - constructor; [unfold uri_safe; by rewrite U|]. apply (IH t); [lia|done|done].
  - apply Forall_app. split; [apply pct_cp_safe; lia|]. apply (IH t); [lia|done|done].
  - destruct (pair_cp_units c d Hh Ld) as [_ Hr].
    apply Forall_app. split; [apply pct_cp_safe; lia|].
    cbn in Hk. apply (IH t'); [lia|by inversion Ht|done].
Qed.

(** Encoded text holds only unreserved units and percent signs. *)
Lemma encode_safe s e :
  wf_jstr s → encodeURIComponent s = Ok e → Forall (λ c, uri_safe c = true) e.
Proof. intros. by eapply (encode_safe_go s (length s)). Qed.

(** So no delimiter of a URL occurs in it. *)
Lemma encode_no_delim s e c :
  wf_jstr s → encodeURIComponent s = Ok e → uri_safe c = false → c ∉ e.
Proof.
  intros Hwf He Hc Hin. pose proof (encode_safe s e Hwf He) as HF.
  rewrite Forall_forall in HF. rewrite (HF c Hin) in Hc. done.
Qed.

(** ** When encoding succeeds *)

(** Surrogates come in pairs. *)
Fixpoint well_paired (s : jstr) : bool :=
  match s with
  | [] => true
  | c :: t =>
      if low_surrogate c then false
      else if high_surrogate c then
        match t with d :: t' => low_surrogate d && well_paired t' | [] => false end
      else well_paired t
  end.

Lemma unreserved_no_surrogate c :
  uri_unreserved c = true → low_surrogate c = false ∧ high_surrogate c = false.
Proof.
  intros H. assert (c < 55296).
  { unfold uri_unreserved, is_alnum, is_digit in H. cbn in H.
    repeat (apply orb_true_iff in H as [H|H]); try done;
      try (apply andb_true_iff in H as [H1 H2]; apply Z.leb_le in H1, H2; lia);
      apply Z.eqb_eq in H; lia. }
  unfold low_surrogate, high_surrogate.
  rewrite !andb_false_iff !Z.leb_gt. lia.
Qed.

Lemma encode_total_go s : ∀ k, (length s <= k)%nat →
  is_ok (encodeURIComponent s) = well_paired s.
Proof.
  intros k. revert s. induction k as [|k IH]; intros [|c t] Hk; cbn [length] in Hk;
    try lia; try done. cbn [encodeURIComponent well_paired].
  destruct (uri_unreserved c) eqn:U.
  - destruct (unreserved_no_surrogate c U) as [-> ->].
    rewrite -(IH t); [|lia]. by destruct (encodeURIComponent t).
  - destruct (low_surrogate c); [done|]. destruct (high_surrogate c).
    + destruct t as [|d t']; [done|]. destruct (low_surrogate d); [|done].
      cbn in Hk. rewrite -(IH t'); [|lia]. by destruct (encodeURIComponent t').
    + rewrite -(IH t); [|lia]. by destruct (encodeURIComponent t).
Qed.

(** [encodeURIComponent] throws exactly on an unpaired surrogate. *)
Lemma encode_total s : is_ok (encodeURIComponent s) = well_paired s.
Proof. by eapply encode_total_go. Qed.

Lemma encode_ok s : well_paired s = true → ∃ e, encodeURIComponent s = Ok e.
Proof. rewrite -encode_total. destruct (encodeURIComponent s); [eauto|done]. Qed.

(** ** Undoing an escape

    The query keys are encoded and then some of their escapes are put back;
    decoding does not see the difference. *)

Lemma pct_byte_shrinks s v t : pct_byte s = Some (v, t) → (length t < length s)%nat.
Proof.
  destruct s as [|c [|a [|b s]]]; cbn; try done. destruct (c =? 37); [|done].
  destruct (hex_val a); cbn; [|done]. destruct (hex_val b); cbn; [|done]. intros [= _ <-]. lia.
Qed.

Lemma pct_cont_shrinks s v t : pct_cont s = Some (v, t) → (length t < length s)%nat.
Proof.
  unfold pct_cont. destruct (pct_byte s) as [[b t']|] eqn:E; cbn; [|done].
  case_if; [|done]. intros [= _ <-]. by eapply pct_byte_shrinks.
Qed.

(** Run the continuation bytes of a hypothesis. *)
Ltac conts H :=
  repeat match type of H with
  | context [pct_cont ?t] =>
      destruct (pct_cont t) as [[? ?]|] eqn:?; cbn -[Z.leb Z.ltb] in H; [|discriminate H]
  end.

Lemma pct_head_shrinks s v t : pct_head s = Some (v, t) → (length t < length s)%nat.
Proof.
  unfold pct_head. destruct (pct_byte s) as [[b t']|] eqn:E; cbn; [|done].
  apply pct_byte_shrinks in E.
  repeat case_if; intros H; conts H; try done; injection H as _ <-;
    repeat match goal with H : pct_cont _ = Some (?v, ?t) |- _ => apply pct_cont_shrinks in H end; lia.
Qed.

Lemma uri_decode_fuel n : ∀ s t m,
  uri_decode_go n s = Some t → (length s <= m)%nat → uri_decode_go m s = Some t.
Proof.
  induction n as [|n IH]; intros [|c s] t m H Hm; cbn [uri_decode_go] in H; try done;
    try (by injection H as <-; destruct m).
  destruct m as [|m]; cbn [length] in Hm; [lia|]. cbn [uri_decode_go].
  destruct (c =? 37).
  - destruct (pct_head (c :: s)) as [[cp u]|] eqn:E; cbn [mbind option_bind] in *; [|done].
    apply pct_head_shrinks in E. cbn [length] in E.
    destruct (uri_decode_go n u) as [t'|] eqn:D; [|done]. rewrite (IH u t' m); [done|done|lia].
  - destruct (uri_decode_go n s) as [t'|] eqn:D; [|done]. rewrite (IH s t' m); [done|done|lia].
Qed.

(** Decoding texts one after the other. *)
Lemma pct_byte_app s v t u : pct_byte s = Some (v, t) → pct_byte (s ++ u) = Some (v, t ++ u).
Proof.
  destruct s as [|c [|a [|b s]]]; cbn; try done. destruct (c =? 37); [|done].
  destruct (hex_val a); cbn; [|done]. destruct (hex_val b); cbn; [|done]. by intros [= <- <-].
Qed.

Lemma pct_cont_app s v t u : pct_cont s = Some (v, t) → pct_cont (s ++ u) = Some (v, t ++ u).
Proof.
  unfold pct_cont. destruct (pct_byte s) as [[b t']|] eqn:E; cbn; [|done].
  rewrite (pct_byte_app _ _ _ u E). cbn. case_if; [|done]. by intros [= <- <-].
Qed.

Lemma pct_head_app s v t u : pct_head s = Some (v, t) → pct_head (s ++ u) = Some (v, t ++ u).
Proof.
  unfold pct_head. destruct (pct_byte s) as [[b t']|] eqn:E; cbn -[Z.leb Z.ltb]; [|done].
  rewrite (pct_byte_app _ _ _ u E). cbn -[Z.leb Z.ltb].
  repeat case_if; intros H; conts H; try done; injection H as <- <-;
    repeat match goal with
    | H : pct_cont _ = Some _ |- _ => apply (pct_cont_app _ _ _ u) in H; rewrite H; clear H; cbn -[Z.leb Z.ltb]
    end; done.
Qed.

Lemma uri_decode_app a b x y : uri_decode a = Some x → uri_decode b = Some y → uri_decode (a ++ b) = Some (x ++ y).
Proof.
  unfold uri_decode. intros Ha Hb. rewrite length_app. revert Ha. generalize (length a) as n. intros n.
  revert a x. induction n as [|n IH]; intros [|c a] x Ha; cbn [uri_decode_go] in Ha; try done.
  1, 2: injection Ha as <-; cbn [app]; eapply uri_decode_fuel; [exact Hb|lia].
  cbn [Nat.add app uri_decode_go]. destruct (c =? 37).
  - destruct (pct_head (c :: a)) as [[cp u]|] eqn:E; cbn [mbind option_bind] in *; [|done].
    apply (pct_head_app _ _ _ b) in E. cbn [app] in E. rewrite E. cbn [mbind option_bind].
    destruct (uri_decode_go n u) as [t|] eqn:D; [|done]. injection Ha as <-. rewrite (IH _ _ D). cbn. by rewrite app_assoc.
  - destruct (uri_decode_go n a) as [t|] eqn:D; [|done]. injection Ha as <-. by rewrite (IH _ _ D).
Qed.

Lemma pct_byte_inside a b t v rest :
  0 <= b < 256 → a ≠ [] → pct_byte (a ++ pct b ++ t) = Some (v, rest) →
  ∃ a2, rest = a2 ++ pct b ++ t ∧ (length a2 < length a)%nat ∧ ∀ u, pct_byte (a ++ u) = Some (v, a2 ++ u).
Proof.
  intros Hb Ha. destruct a as [|c [|x [|y a]]]; [done| | |]; cbn [app].
  - unfold pct. cbn. by destruct (c =? 37).
  - unfold pct. cbn. destruct (c =? 37); [|done]. by destruct (hex_val x).
  - intros H. exists a. cbn in *. destruct (c =? 37); [|done].
    destruct (hex_val x); cbn in *; [|done]. destruct (hex_val y); cbn in *; [|done].
    injection H as <- <-. split_and!; [done|lia|done].
Qed.

Lemma pct_cont_inside a b t v rest :
  0 <= b < 128 → pct_cont (a ++ pct b ++ t) = Some (v, rest) →
  ∃ a2, rest = a2 ++ pct b ++ t ∧ (length a2 < length a)%nat ∧ ∀ u, pct_cont (a ++ u) = Some (v, a2 ++ u).
Proof.
  intros Hb. unfold pct_cont. destruct (decide (a = [])) as [->|Ha].
  - cbn [app]. rewrite pct_byte_pct; [|lia]. cbn -[Z.leb Z.ltb].
    replace (128 <=? b) with false by (symmetry; apply Z.leb_gt; lia). done.
  - destruct (pct_byte (a ++ pct b ++ t)) as [[w u]|] eqn:E; cbn -[Z.leb Z.ltb]; [|done].
    apply pct_byte_inside in E as (a2 & -> & Hl & Hu); [|lia|done].
    intros H. exists a2. destruct (_ && _) eqn:C; [|done]. injection H as <- <-.
    split_and!; [done|done|]. intros u. rewrite Hu. cbn -[Z.leb Z.ltb]. by rewrite C.
Qed.

Lemma pct_head_inside a b t cp rest :
  0 <= b < 128 → a ≠ [] → pct_head (a ++ pct b ++ t) = Some (cp, rest) →
  ∃ a2, rest = a2 ++ pct b ++ t ∧ (length a2 < length a)%nat ∧ ∀ u, pct_head (a ++ u) = Some (cp, a2 ++ u).
Proof.
  intros Hb Ha. unfold pct_head.
  destruct (pct_byte (a ++ pct b ++ t)) as [[w r0]|] eqn:E; cbn -[Z.leb Z.ltb]; [|done].
  apply pct_byte_inside in E as (a0 & -> & Hl0 & Hu0); [|lia|done].
  intros H. assert (∀ u, pct_byte (a ++ u) = Some (w, a0 ++ u)) by done.
  repeat (case_if; [|]); try done; conts H; injection H as <- <-;
    repeat match goal with
    | H : pct_cont (?a ++ pct b ++ t) = Some _ |- _ =>
        apply pct_cont_inside in H as (? & -> & ? & ?); [|done]
    end.
  all: eexists; split_and!; [done|lia|]; intros u; rewrite Hu0;
    cbn -[Z.leb Z.ltb]; repeat match goal with
      | H : (_ <? _) = _ |- _ => rewrite H
      | H : (_ <=? _) && _ = _ |- _ => rewrite H
      | H : ∀ u, pct_cont (?a ++ u) = _ |- _ => rewrite (H u); clear H; cbn -[Z.leb Z.ltb]
      end; done.
Qed.

Lemma uri_decode_unescape_go b t n : ∀ a s m,
  0 <= b < 128 → b ≠ 37 → uri_decode_go n (a ++ pct b ++ t) = Some s →
  (length (a ++ b :: t) <= m)%nat → uri_decode_go m (a ++ b :: t) = Some s.
Proof.
  induction n as [|n IH]; intros a s m Hb H37 H Hm; [by destruct a|].
  rewrite length_app in Hm. cbn [length] in Hm. destruct m as [|m]; [lia|].
  destruct a as [|c a].
  - cbn [app] in *. unfold pct in H. cbn [app uri_decode_go] in H.
    rewrite -/(pct b ++ t) in H. replace (b =? 37) with false by (symmetry; by apply Z.eqb_neq).
    cbn [Z.eqb Pos.eqb] in H. unfold pct_head in H.
    change (37 :: hex_digit (b / 16) :: hex_digit (b mod 16) :: t) with (pct b ++ t) in H.
    rewrite pct_byte_pct in H; [|lia]. cbn -[Z.ltb uri_decode_go] in H.
    replace (b <? 128) with true in H by (symmetry; apply Z.ltb_lt; lia).
    cbn -[Z.ltb uri_decode_go] in H. cbn [uri_decode_go].
    replace (b =? 37) with false by (symmetry; by apply Z.eqb_neq).
    destruct (uri_decode_go n t) as [s'|] eqn:D; [|done].
    rewrite (uri_decode_fuel n t s' m); [|done|cbn in Hm; lia].
    unfold cp_units in H. replace (b <? 65536) with true in H by (symmetry; apply Z.ltb_lt; lia). done.
  - cbn [app uri_decode_go] in *. destruct (c =? 37).
    + destruct (pct_head (c :: a ++ pct b ++ t)) as [[cp r]|] eqn:E; cbn in H; [|done].
      change (c :: a ++ pct b ++ t) with ((c :: a) ++ pct b ++ t) in E.
      apply pct_head_inside in E as (a2 & -> & Hl & Hu); [|done|done].
      specialize (Hu (b :: t)). cbn [app] in Hu. rewrite Hu. cbn.
      destruct (uri_decode_go n (a2 ++ pct b ++ t)) as [s'|] eqn:D; [|done].
      rewrite (IH a2 s' m) //. rewrite length_app. cbn [length] in *. lia.
    + destruct (uri_decode_go n (a ++ pct b ++ t)) as [s'|] eqn:D; [|done].
      rewrite (IH a s' m) //. rewrite length_app. cbn [length] in *. lia.
Qed.

(** Replacing the first escape of a plain unit by the unit. *)
Lemma uri_decode_unescape b e s :
  0 <= b < 128 → b ≠ 37 → uri_decode e = Some s →
  uri_decode (replace_first (pct b) [b] e) = Some s.
Proof.
  intros Hb H37 H. unfold replace_first. destruct (find_sub (pct b) e) as [n|] eqn:F; [|done].
  apply find_sub_some in F as (a & t & -> & <-).
  rewrite take_app_length (app_assoc a (pct b) t) -length_app drop_app_length.
  unfold uri_decode in *. by eapply uri_decode_unescape_go.
Qed.
