(* ===== verification/Base64.v ===== *)
(** * base64-js

    [fromByteArray] and [toByteArray] of the bundled base64-js, used by the
    [Buffer] shim and through it by [btoa] and the basic-auth header. Bytes are
    [Z] in [0, 256). The decoder's lookup returns [undefined] past the alphabet
    ([None] here), which the shift operators read as 0. *)

From S2P Require Import Prelude Int32.

Definition lookup : jstr :=
  #"ABCDEFGHIJKLMNOPQRSTUVWXYZabcdefghijklmnopqrstuvwxyz0123456789+/".

(** ** Decoding *)

(** [decode(elt)]; [elt] is [None] for the empty string [charAt] gives past the
    end. *)
Definition decode (elt : option Z) : option Z :=
  match elt with
  | None => None
  | Some code =>
      if (code =? 43) || (code =? 45) then Some 62
      else if (code =? 47) || (code =? 95) then Some 63
      else if code <? 48 then Some (-1)
      else if code <? 48 + 10 then Some (code - 48 + 26 + 26)
      else if code <? 65 + 26 then Some (code - 65)
      else if code <? 97 + 26 then Some (code - 97 + 26)
      else None
  end.

(** The value of [decode(b64.charAt(i))] under a bit operator. *)
Definition dec (s : jstr) (i : nat) : Z := default 0 (decode (s !! i)).

(** One turn of the main loop: four units at the head of [s] give three bytes. *)
Definition quad_bytes (s : jstr) : list Z :=
  let tmp := jor (jor (jor (jshl (dec s 0) 18) (jshl (dec s 1) 12)) (jshl (dec s 2) 6))
                 (dec s 3) in
  [jshr (jand tmp 16711680) 16; jshr (jand tmp 65280) 8; jand tmp 255].

(** The loop over the first [l] units: [n] is [l / 4], the number of turns. *)
Fixpoint quads (n : nat) (s : jstr) : list Z :=
  match n with
  | O => []
  | S n => quad_bytes s ++ quads n (drop 4 s)
  end.

Definition place_holders (b64 : jstr) : nat :=
  let len := length b64 in
  (if (2 <=? len) && bool_decide (b64 !! (len - 2) = Some 61%Z) then 2
   else if (1 <=? len) && bool_decide (b64 !! (len - 1) = Some 61%Z) then 1
   else 0)%nat.

Definition b64ToByteArray (b64 : jstr) : res (list Z) :=
  if negb (length b64 mod 4 =? 0)%nat
  then Throw (JsError #"Invalid string. Length must be a multiple of 4")
  else
    let ph := place_holders b64 in
    let l := (if 0 <? ph then length b64 - 4 else length b64)%nat in
    let tail := drop l b64 in
    Ok (quads (l / 4) b64 ++
        match ph with
        | 2%nat => [jand (jor (jshl (dec tail 0) 2) (jshr (dec tail 1) 4)) 255]
        | 1%nat =>
            let tmp := jor (jor (jshl (dec tail 0) 10) (jshl (dec tail 1) 4))
                           (jshr (dec tail 2) 2) in
            [jand (jshr tmp 8) 255; jand tmp 255]
        | _ => []
        end).

(** ** Encoding *)

(** [lookup.charAt(num)] *)
Definition encode (num : Z) : jstr :=
  if 0 <=? num then match lookup !! Z.to_nat num with Some c => [c] | None => [] end
  else [].

Definition tripletToBase64 (num : Z) : jstr :=
  encode (jand (jshr num 18) 63) ++ encode (jand (jshr num 12) 63)
  ++ encode (jand (jshr num 6) 63) ++ encode (jand num 63).

(** The loop over full triplets, then the switch on the extra bytes. *)
Fixpoint uint8ToBase64 (uint8 : list Z) : jstr :=
  match uint8 with
  | a :: b :: c :: rest =>
      tripletToBase64 (jshl a 16 + jshl b 8 + c) ++ uint8ToBase64 rest
  | [a] => encode (jshr a 2) ++ encode (jand (jshl a 4) 63) ++ #"=="
  | [a; b] =>
      let temp := jshl a 8 + b in
      encode (jshr temp 10) ++ encode (jand (jshr temp 4) 63)
      ++ encode (jand (jshl temp 2) 63) ++ #"="
  | [] => []
  end.

(** ** The sextet alphabet *)

Definition is_byte (b : Z) : Prop := 0 <= b < 256.

Lemma byte_check l : forallb (λ c, (0 <=? c) && (c <? 256)) l = true → Forall is_byte l.
Proof.
  rewrite forallb_forall. intros H. apply Forall_forall. intros c Hc.
  apply list_elem_of_In, H in Hc as H1. clear H. rename H1 into H. apply andb_true_iff in H as [H1 H2].
  apply Z.leb_le in H1. apply Z.ltb_lt in H2. done.
Qed.

(** The unit that stands for a sextet. *)
Definition b64_unit (n : Z) : Z := default 0 (lookup !! Z.to_nat n).

(** A decidable fact about sextets is checked on the 64 of them. *)
Lemma sextet_check (P : Z → bool) :
  forallb P (range 0 64) = true → ∀ n, 0 <= n < 64 → P n = true.
Proof. apply range_check. Qed.

Lemma encode_unit n : 0 <= n < 64 → encode n = [b64_unit n].
Proof.
  intros Hn. apply (bool_decide_eq_true_1 (encode n = [b64_unit n])). revert n Hn.
  by apply sextet_check.
Qed.

Lemma decode_unit n : 0 <= n < 64 → decode (Some (b64_unit n)) = Some n.
Proof.
  intros Hn. apply (bool_decide_eq_true_1 (decode (Some (b64_unit n)) = Some n)).
  revert n Hn. by apply sextet_check.
Qed.

Lemma unit_not_pad n : 0 <= n < 64 → b64_unit n ≠ 61.
Proof.
  intros Hn. apply Z.eqb_neq, negb_true_iff.
  by apply (sextet_check (λ n, negb (b64_unit n =? 61))).
Qed.

(** ** The code against the sextets of RFC 4648 *)

(** Three bytes are four sextets. *)
Definition sextets3 (a b c : Z) : list Z :=
  [a / 4; a mod 4 * 16 + b / 16; b mod 16 * 4 + c / 64; c mod 64].

(** The reference encoder: sextets of each triple, zero-padded at the end. *)
Fixpoint rfc4648 (bs : list Z) : jstr :=
  match bs with
  | a :: b :: c :: rest => map b64_unit (sextets3 a b c) ++ rfc4648 rest
  | [a] => map b64_unit [a / 4; a mod 4 * 16] ++ [61; 61]
  | [a; b] => map b64_unit [a / 4; a mod 4 * 16 + b / 16; b mod 16 * 4] ++ [61]
  | [] => []
  end.

(** Induction by triples, the recursion of both encoders. *)
Lemma triple_ind (P : list Z → Prop) :
  P [] → (∀ a, P [a]) → (∀ a b, P [a; b]) →
  (∀ a b c rest, P rest → P (a :: b :: c :: rest)) → ∀ l, P l.
Proof.
  intros H0 H1 H2 H3. fix IH 1. intros [|a [|b [|c rest]]].
  - exact H0.
  - exact (H1 a).
  - exact (H2 a b).
  - exact (H3 a b c rest (IH rest)).
Qed.

Lemma tripletToBase64_spec a b c :
  is_byte a → is_byte b → is_byte c →
  tripletToBase64 (jshl a 16 + jshl b 8 + c) = map b64_unit (sextets3 a b c).
Proof.
  unfold is_byte. intros Ha Hb Hc. unfold tripletToBase64, sextets3.
  rewrite (jshl_pow a 16) ?(jshl_pow b 8); [|lia..].
  rewrite !jand_63 !jshr_div; [|lia..].
  rewrite !encode_unit; [|zdm..]. cbn [app map].
  list_eq ltac:(f_equal; zdm).
Qed.

Lemma uint8ToBase64_ref bs : Forall is_byte bs → uint8ToBase64 bs = rfc4648 bs.
Proof.
  induction bs as [|a|a b|a b c rest IH] using triple_ind; intros H;
    cbn [uint8ToBase64 rfc4648]; [done| | |].
  - apply Forall_cons in H as [Ha _]. unfold is_byte in Ha.
    rewrite (jshl_pow a 4) ?jshr_div ?jand_63; [|lia..].
    rewrite !encode_unit; [|zdm..]. cbn [app map]. list_eq ltac:(f_equal; zdm).
  - rewrite !Forall_cons in H. destruct H as (Ha & Hb & _). unfold is_byte in *.
    rewrite (jshl_pow a 8); [|lia..]. rewrite (jshl_pow _ 2); [|lia..].
    rewrite !jshr_div ?jand_63; [|lia..].
    rewrite !encode_unit; [|zdm..]. cbn [app map].
    list_eq ltac:(f_equal; zdm).
  - rewrite !Forall_cons in H. destruct H as (Ha & Hb & Hc & H).
    rewrite tripletToBase64_spec; [|done..]. by rewrite IH.
Qed.

(** ** Decoding what was encoded *)

Lemma dec_unit s i n : s !! i = Some (b64_unit n) → 0 <= n < 64 → dec s i = n.
Proof. intros H Hn. unfold dec. by rewrite H decode_unit. Qed.

Lemma jor4 p q r s :
  0 <= p < 64 → 0 <= q < 64 → 0 <= r < 64 → 0 <= s < 64 →
  jor (jor (jor (jshl p 18) (jshl q 12)) (jshl r 6)) s
  = p * 262144 + q * 4096 + r * 64 + s.
Proof.
  intros. rewrite (jshl_pow p 18) ?(jshl_pow q 12) ?(jshl_pow r 6); [|lia..].
  rewrite (jor_add p (q * 2 ^ 12) 18); [|lia..].
  replace (p * 2 ^ 18 + q * 2 ^ 12) with ((p * 64 + q) * 2 ^ 12) by lia.
  rewrite (jor_add _ (r * 2 ^ 6) 12); [|lia..].
  replace ((p * 64 + q) * 2 ^ 12 + r * 2 ^ 6) with ((p * 4096 + q * 64 + r) * 2 ^ 6) by lia.
  rewrite (jor_add _ s 6); lia.
Qed.

(** Masking a byte out of the middle of a number. *)
Lemma jand_byte_shr t k :
  0 <= t < 2147483648 → 0 <= k <= 23 → jshr (jand t (255 * 2 ^ k)) k = t / 2 ^ k mod 256.
Proof.
  intros Ht Hk. assert (0 < 2 ^ k <= 2 ^ 23).
  { split; [apply Z.pow_pos_nonneg; lia|apply Z.pow_le_mono_r; lia]. }
  unfold jand. rewrite !to_int32_small; [|lia..].
  assert (0 <= Z.land t (255 * 2 ^ k) <= t) as [Hl Hu].
  { split; [apply Z.land_nonneg; lia|]. apply land_le; lia. }
  rewrite jshr_div; [|lia..].
  rewrite -!Z.shiftr_div_pow2; [|lia..]. rewrite Z.shiftr_land.
  rewrite (Z.shiftr_div_pow2 (255 * 2 ^ k)); [|lia]. rewrite Z.div_mul; [|lia].
  by apply (land_ones_mod _ 8).
Qed.

Lemma quad_bytes_sextets a b c rest :
  is_byte a → is_byte b → is_byte c →
  quad_bytes (map b64_unit (sextets3 a b c) ++ rest) = [a; b; c].
Proof.
  unfold is_byte. intros Ha Hb Hc. unfold quad_bytes.
  rewrite (dec_unit _ 0 (a / 4)) ?(dec_unit _ 1 (a mod 4 * 16 + b / 16))
    ?(dec_unit _ 2 (b mod 16 * 4 + c / 64)) ?(dec_unit _ 3 (c mod 64));
    [|done|zdm|done|zdm|done|zdm|done|zdm].
  rewrite jor4; [|zdm..].
  rewrite (jand_byte_shr _ 16) ?(jand_byte_shr _ 8) ?jand_255; [|zdm..].
  list_eq zdm.
Qed.

(** Place holders, seen from the tail of the string. *)
Lemma place_holders_app s t :
  (2 <= length t)%nat → place_holders (s ++ t) = place_holders t.
Proof.
  intros Ht. unfold place_holders. rewrite length_app.
  rewrite !(lookup_app_r s t); [|lia..].
  replace (length s + length t - 2 - length s)%nat with (length t - 2)%nat by lia.
  replace (length s + length t - 1 - length s)%nat with (length t - 1)%nat by lia.
  replace (2 <=? length s + length t)%nat with (2 <=? length t)%nat
    by (rewrite !(proj2 (Nat.leb_le _ _)); lia || done).
  replace (1 <=? length s + length t)%nat with (1 <=? length t)%nat
    by (rewrite !(proj2 (Nat.leb_le _ _)); lia || done). done.
Qed.

Lemma rfc4648_length bs : length (rfc4648 bs) = (4 * ((length bs + 2) / 3))%nat.
Proof.
  induction bs as [|a|a b|a b c rest IH] using triple_ind; [done..|].
  cbn [rfc4648 sextets3 map app length]. rewrite IH.
  replace (S (S (S (length rest))) + 2)%nat with (1 * 3 + (length rest + 2))%nat by lia.
  rewrite Nat.div_add_l; lia.
Qed.

(** The decoder, one full quad at a time. *)
Lemma b64_step q s bs b :
  length q = 4%nat → (s = [] → place_holders q = 0%nat) → (s ≠ [] → (4 <= length s)%nat) →
  quad_bytes (q ++ s) = b → b64ToByteArray s = Ok bs →
  b64ToByteArray (q ++ s) = Ok (b ++ bs).
Proof.
  intros Hq Hnil Hlen Hb. unfold b64ToByteArray. rewrite length_app Hq.
  replace ((4 + length s) mod 4)%nat with (length s mod 4)%nat
    by (rewrite -(Nat.Div0.add_mod_idemp_l 4); done).
  destruct (negb _); [done|].
  assert (place_holders (q ++ s) = place_holders s) as ->.
  { destruct s as [|c s]; [rewrite app_nil_r; by rewrite Hnil|].
    apply place_holders_app. specialize (Hlen ltac:(done)). lia. }
  assert ((4 + length s - 4)%nat = length s) as H4 by lia.
  set (ph := place_holders s).
  assert (∃ l, (if (0 <? ph)%nat then length s - 4 else length s)%nat = l ∧
    (if (0 <? ph)%nat then 4 + length s - 4 else 4 + length s)%nat = (4 + l)%nat)
    as (l & -> & ->).
  { destruct (0 <? ph)%nat eqn:E; [|eauto]. exists (length s - 4)%nat. split; [done|].
    destruct s as [|c s]; [done|]. specialize (Hlen ltac:(done)). cbn in *. lia. }
  assert ((4 + l) / 4 = S (l / 4))%nat as ->
    by (rewrite (Nat.div_add_l 1 4 l); lia).
  cbn [quads]. rewrite Hb.
  replace (drop 4 (q ++ s)) with s by (rewrite -Hq; by rewrite drop_app_length).
  replace (drop (4 + l) (q ++ s)) with (drop l s)
    by (rewrite -drop_drop -Hq drop_app_length; done).
  intros [= <-]. by rewrite -app_assoc.
Qed.

Lemma rfc4648_not_short bs : rfc4648 bs ≠ [] → (4 <= length (rfc4648 bs))%nat.
Proof.
  destruct bs as [|a [|b [|c rest]]]; cbn; [done|lia..].
Qed.

Lemma place_holders_units l :
  Forall (λ n, 0 <= n < 64) l → place_holders (map b64_unit l) = 0%nat.
Proof.
  intros Hl.
  assert (∀ i, map b64_unit l !! i ≠ Some 61) as Hi.
  { intros i Hi. apply list_lookup_fmap_Some in Hi as (n & Hn & Hi).
    rewrite Forall_lookup in Hl. specialize (Hl i n Hi).
    by apply (unit_not_pad n). }
  unfold place_holders.
  rewrite !bool_decide_eq_false_2; [|apply Hi..]. by rewrite !andb_false_r.
Qed.

(** The two short tails. *)
Lemma decode_tail1 a : is_byte a → b64ToByteArray (rfc4648 [a]) = Ok [a].
Proof.
  unfold is_byte. intros Ha. cbn [rfc4648].
  assert (place_holders (map b64_unit [a / 4; a mod 4 * 16] ++ [61; 61]) = 2%nat) as Hp by done.
  unfold b64ToByteArray. rewrite Hp.
  cbn -[dec jor jshl jshr jand Z.div Z.modulo Z.mul b64_unit].
  rewrite (dec_unit _ 0 (a / 4)) ?(dec_unit _ 1 (a mod 4 * 16)); [|done|zdm|done|zdm].
  rewrite (jshl_pow _ 2) ?jshr_div; [|zdm..].
  rewrite (jor_add (a / 4) _ 2); [|zdm..]. rewrite jand_255. do 2 f_equal. zdm.
Qed.

Lemma decode_tail2 a b : is_byte a → is_byte b → b64ToByteArray (rfc4648 [a; b]) = Ok [a; b].
Proof.
  unfold is_byte. intros Ha Hb. cbn [rfc4648].
  assert (place_holders (map b64_unit [a / 4; a mod 4 * 16 + b / 16; b mod 16 * 4] ++ [61])
          = 1%nat) as Hp.
  { unfold place_holders. rewrite bool_decide_eq_false_2; [done|].
    intros [= H]. eapply (unit_not_pad (b mod 16 * 4)); [zdm|done]. }
  unfold b64ToByteArray. rewrite Hp.
  cbn -[dec jor jshl jshr jand Z.div Z.modulo Z.mul Z.add b64_unit].
  rewrite (dec_unit _ 0 (a / 4)) ?(dec_unit _ 1 (a mod 4 * 16 + b / 16))
    ?(dec_unit _ 2 (b mod 16 * 4)); [|done|zdm|done|zdm|done|zdm].
  rewrite (jshl_pow _ 10) ?(jshl_pow _ 4) ?(jshr_div (b mod 16 * 4)); [|zdm..].
  rewrite (jor_add (a / 4) _ 10); [|zdm..].
  replace (a / 4 * 2 ^ 10 + (a mod 4 * 16 + b / 16) * 2 ^ 4)
    with ((a / 4 * 64 + a mod 4 * 16 + b / 16) * 2 ^ 4) by lia.
  rewrite (jor_add _ _ 4); [|zdm..].
  rewrite !jand_255 jshr_div; [|zdm..]. f_equal. list_eq zdm.
Qed.

Lemma decode_rfc4648 bs : Forall is_byte bs → b64ToByteArray (rfc4648 bs) = Ok bs.
Proof.
  induction bs as [|a|a b|a b c rest IH] using triple_ind; intros H;
    rewrite ?Forall_cons in H.
  - done.
  - apply decode_tail1, H.
  - apply decode_tail2; apply H.
  - destruct H as (Ha & Hb & Hc & Hr). cbn [rfc4648].
    apply (b64_step _ _ rest [a; b; c]); [done| |apply rfc4648_not_short| |by apply IH].
    + intros _. apply place_holders_units. unfold is_byte in *.
      rewrite !Forall_cons. split_and!; try zdm. by apply Forall_nil.
    + by apply quad_bytes_sextets.
Qed.

(** ** Correctness *)

(** The encoder computes the RFC 4648 encoding of any bytes, and
    decoding an encoding gives the bytes back. *)
Theorem base64_correct bs :
  Forall is_byte bs →
  uint8ToBase64 bs = rfc4648 bs ∧ b64ToByteArray (uint8ToBase64 bs) = Ok bs.
Proof.
  intros H. rewrite uint8ToBase64_ref; [|done]. split; [done|]. by apply decode_rfc4648.
Qed.

Lemma base64_correct_witness : uint8ToBase64 [77; 97; 110; 255] = rfc4648 [77; 97; 110; 255] ∧
  b64ToByteArray (uint8ToBase64 [77; 97; 110; 255]) = Ok [77; 97; 110; 255].
Proof. apply (base64_correct [77; 97; 110; 255]). apply byte_check. reflexivity. Defined.

Lemma quads_length n s : length (quads n s) = (3 * n)%nat.
Proof. revert s. induction n as [|n IH]; intros s; cbn; [done|]. rewrite IH. lia. Qed.
