(* ===== verification/BufferCore.v ===== *)
(** * Buffer: cells, bounds checks and integer access

    The byte store of the bundled [buffer] module and its integer accessors.
    A buffer is the list of its cells. [TAS] is [Buffer.TYPED_ARRAY_SUPPORT]: a
    [Uint8Array] cell keeps a stored number modulo 256, a cell of the fallback
    object keeps the number itself; a store outside the buffer changes no cell.
    Reading outside gives [undefined] ([None]), which is 0 under a bit operator
    and NaN ([None]) under arithmetic. Offsets and values are integers, and the
    variable-width accessors are exact up to 6 bytes, where every intermediate
    number is below 2^53. *)

From S2P Require Import Prelude Int32 Base64.

Abbreviation buffer := (list Z).

Definition blen (b : buffer) : Z := Z.of_nat (length b).

(** [buf[i]] *)
Definition cell (b : buffer) (i : Z) : option Z :=
  if (0 <=? i) && (i <? blen b) then b !! Z.to_nat i else None.

(** [buf[i] = v] *)
Definition store (TAS : bool) (b : buffer) (i v : Z) : buffer :=
  if (0 <=? i) && (i <? blen b)
  then <[Z.to_nat i := if TAS then v mod 256 else v]> b else b.

(** An operand of a bit operator, and arithmetic on possibly missing cells. *)
Definition bits (o : option Z) : Z := default 0 o.
Definition oadd (a b : option Z) : option Z := x ← a; y ← b; Some (x + y).
Definition omul (a : option Z) (m : Z) : option Z := x ← a; Some (x * m).

Definition wf_buffer (b : buffer) : Prop := Forall is_byte b.

(** ** Bounds checks *)

Definition checkOffset (offset ext len : Z) : res () :=
  if offset <? 0 then Throw (RangeError #"offset is not uint")
  else if len <? offset + ext then Throw (RangeError #"Trying to access beyond buffer length")
  else Ok ().

Definition checkInt (b : buffer) (value offset ext max min : Z) : res () :=
  if (max <? value) || (value <? min) then Throw (RangeError #"value is out of bounds")
  else if blen b <? offset + ext then Throw (RangeError #"index out of range")
  else Ok ().

(** [if (!noAssert) check] *)
Definition unless (noAssert : bool) (check : res ()) : res () :=
  if noAssert then Ok () else check.

(** ** Reading *)

(** [while (++i < byteLength && (mul *= 0x100)) val += this[offset + i] * mul]
    with [n] turns left; returns [val] and the last [mul]. *)
Fixpoint read_up (b : buffer) (offset i mul : Z) (n : nat) (val : option Z) : option Z * Z :=
  match n with
  | O => (val, mul)
  | S n =>
      let i := i + 1 in
      let mul := mul * 256 in
      read_up b offset i mul n (oadd val (omul (cell b (offset + i)) mul))
  end.

(** [while (i > 0 && (mul *= 0x100)) val += this[offset + --i] * mul] *)
Fixpoint read_down (b : buffer) (offset mul : Z) (i : nat) (val : option Z) : option Z * Z :=
  match i with
  | O => (val, mul)
  | S i =>
      let mul := mul * 256 in
      read_down b offset mul i (oadd val (omul (cell b (offset + Z.of_nat i)) mul))
  end.

Definition readUIntLE (b : buffer) (offset byteLength : Z) (noAssert : bool) : res (option Z) :=
  let offset := to_int32 offset in
  let byteLength := to_int32 byteLength in
  _ ← unless noAssert (checkOffset offset byteLength (blen b));
  Ok (read_up b offset 0 1 (Z.to_nat (byteLength - 1)) (cell b offset)).1.

Definition readUIntBE (b : buffer) (offset byteLength : Z) (noAssert : bool) : res (option Z) :=
  let offset := to_int32 offset in
  let byteLength := to_int32 byteLength in
  _ ← unless noAssert (checkOffset offset byteLength (blen b));
  Ok (read_down b offset 1 (Z.to_nat (byteLength - 1)) (cell b (offset + (byteLength - 1)))).1.

Definition readUInt8 (b : buffer) (offset : Z) (noAssert : bool) : res (option Z) :=
  _ ← unless noAssert (checkOffset offset 1 (blen b)); Ok (cell b offset).

Definition readUInt16LE (b : buffer) (offset : Z) (noAssert : bool) : res Z :=
  _ ← unless noAssert (checkOffset offset 2 (blen b));
  Ok (jor (bits (cell b offset)) (jshl (bits (cell b (offset + 1))) 8)).

Definition readUInt16BE (b : buffer) (offset : Z) (noAssert : bool) : res Z :=
  _ ← unless noAssert (checkOffset offset 2 (blen b));
  Ok (jor (jshl (bits (cell b offset)) 8) (bits (cell b (offset + 1)))).

Definition readUInt32LE (b : buffer) (offset : Z) (noAssert : bool) : res (option Z) :=
  _ ← unless noAssert (checkOffset offset 4 (blen b));
  Ok (oadd (Some (jor (jor (bits (cell b offset)) (jshl (bits (cell b (offset + 1))) 8))
                      (jshl (bits (cell b (offset + 2))) 16)))
           (omul (cell b (offset + 3)) 16777216)).

Definition readUInt32BE (b : buffer) (offset : Z) (noAssert : bool) : res (option Z) :=
  _ ← unless noAssert (checkOffset offset 4 (blen b));
  Ok (oadd (omul (cell b offset) 16777216)
           (Some (jor (jor (jshl (bits (cell b (offset + 1))) 16)
                           (jshl (bits (cell b (offset + 2))) 8))
                      (bits (cell b (offset + 3)))))).

(** [mul *= 0x80; if (val >= mul) val -= Math.pow(2, 8 * byteLength)] *)
Definition sign_adjust (val : option Z) (mul byteLength : Z) : option Z :=
  v ← val; Some (if mul * 128 <=? v then v - 2 ^ (8 * byteLength) else v).

Definition readIntLE (b : buffer) (offset byteLength : Z) (noAssert : bool) : res (option Z) :=
  let offset := to_int32 offset in
  let byteLength := to_int32 byteLength in
  _ ← unless noAssert (checkOffset offset byteLength (blen b));
  let '(val, mul) := read_up b offset 0 1 (Z.to_nat (byteLength - 1)) (cell b offset) in
  Ok (sign_adjust val mul byteLength).

Definition readIntBE (b : buffer) (offset byteLength : Z) (noAssert : bool) : res (option Z) :=
  let offset := to_int32 offset in
  let byteLength := to_int32 byteLength in
  _ ← unless noAssert (checkOffset offset byteLength (blen b));
  let '(val, mul) := read_down b offset 1 (Z.to_nat (byteLength - 1))
                               (cell b (offset + (byteLength - 1))) in
  Ok (sign_adjust val mul byteLength).

Definition readInt8 (b : buffer) (offset : Z) (noAssert : bool) : res (option Z) :=
  _ ← unless noAssert (checkOffset offset 1 (blen b));
  if jand (bits (cell b offset)) 128 =? 0 then Ok (cell b offset)
  else Ok (v ← cell b offset; Some ((255 - v + 1) * -1)).

(** [(val & 0x8000) ? val | 0xFFFF0000 : val] *)
Definition sign16 (val : Z) : Z :=
  if jand val 32768 =? 0 then val else jor val 4294901760.

Definition readInt16LE (b : buffer) (offset : Z) (noAssert : bool) : res Z :=
  _ ← unless noAssert (checkOffset offset 2 (blen b));
  Ok (sign16 (jor (bits (cell b offset)) (jshl (bits (cell b (offset + 1))) 8))).

Definition readInt16BE (b : buffer) (offset : Z) (noAssert : bool) : res Z :=
  _ ← unless noAssert (checkOffset offset 2 (blen b));
  Ok (sign16 (jor (bits (cell b (offset + 1))) (jshl (bits (cell b offset)) 8))).

Definition readInt32LE (b : buffer) (offset : Z) (noAssert : bool) : res Z :=
  _ ← unless noAssert (checkOffset offset 4 (blen b));
  Ok (jor (jor (jor (bits (cell b offset)) (jshl (bits (cell b (offset + 1))) 8))
               (jshl (bits (cell b (offset + 2))) 16))
          (jshl (bits (cell b (offset + 3))) 24)).

Definition readInt32BE (b : buffer) (offset : Z) (noAssert : bool) : res Z :=
  _ ← unless noAssert (checkOffset offset 4 (blen b));
  Ok (jor (jor (jor (jshl (bits (cell b offset)) 24) (jshl (bits (cell b (offset + 1))) 16))
               (jshl (bits (cell b (offset + 2))) 8))
          (bits (cell b (offset + 3)))).

(** ** Writing: the buffer after the call and the returned offset *)

(** The [while] loops of the variable-width writers, [n] turns left: [f] gives
    the byte stored for a multiplier, [step] is 1 upwards and -1 downwards. *)
Fixpoint write_loop (TAS : bool) (f : Z → Z) (step : Z) (b : buffer) (i mul : Z) (n : nat) : buffer :=
  match n with
  | O => b
  | S n =>
      let i := i + step in
      let mul := mul * 256 in
      write_loop TAS f step (store TAS b i (f mul)) i mul n
  end.

Section writers.
Context (TAS : bool).

Definition writeUIntLE (b : buffer) (value offset byteLength : Z) (noAssert : bool)
    : res (buffer * Z) :=
  let offset := to_int32 offset in
  let byteLength := to_int32 byteLength in
  _ ← unless noAssert (checkInt b value offset byteLength (2 ^ (8 * byteLength)) 0);
  let b := store TAS b offset (jand value 255) in
  Ok (write_loop TAS (λ mul, jand (Z.quot value mul) 255) 1 b offset 1
        (Z.to_nat (byteLength - 1)), offset + byteLength).

Definition writeUIntBE (b : buffer) (value offset byteLength : Z) (noAssert : bool)
    : res (buffer * Z) :=
  let offset := to_int32 offset in
  let byteLength := to_int32 byteLength in
  _ ← unless noAssert (checkInt b value offset byteLength (2 ^ (8 * byteLength)) 0);
  let i := byteLength - 1 in
  let b := store TAS b (offset + i) (jand value 255) in
  Ok (write_loop TAS (λ mul, jand (Z.quot value mul) 255) (-1) b (offset + i) 1
        (Z.to_nat i), offset + byteLength).

Definition writeUInt8 (b : buffer) (value offset : Z) (noAssert : bool) : res (buffer * Z) :=
  let offset := to_int32 offset in
  _ ← unless noAssert (checkInt b value offset 1 255 0);
  Ok (store TAS b offset value, offset + 1).

(** The fallback stores: bytes [i] of the first [j], from the low or the high
    end. *)
Definition objectWriteUInt16 (b : buffer) (value offset : Z) (littleEndian : bool) : buffer :=
  let value := if value <? 0 then 65535 + value + 1 else value in
  let j := Z.min (blen b - offset) 2 in
  fold_left (λ b i, let k := if littleEndian then i else 1 - i in
                    store TAS b (offset + i)
                      (jushr (jand value (jshl 255 (8 * k))) (k * 8)))
    (map Z.of_nat (seq 0 (Z.to_nat j))) b.

Definition objectWriteUInt32 (b : buffer) (value offset : Z) (littleEndian : bool) : buffer :=
  let value := if value <? 0 then 4294967295 + value + 1 else value in
  let j := Z.min (blen b - offset) 4 in
  fold_left (λ b i, let k := if littleEndian then i else 3 - i in
                    store TAS b (offset + i) (jand (jushr value (k * 8)) 255))
    (map Z.of_nat (seq 0 (Z.to_nat j))) b.

Definition put16LE (b : buffer) (value offset : Z) : buffer :=
  if TAS then store TAS (store TAS b offset value) (offset + 1) (jushr value 8)
  else objectWriteUInt16 b value offset true.
Definition put16BE (b : buffer) (value offset : Z) : buffer :=
  if TAS then store TAS (store TAS b offset (jushr value 8)) (offset + 1) value
  else objectWriteUInt16 b value offset false.

Definition writeUInt16LE (b : buffer) (value offset : Z) (noAssert : bool) : res (buffer * Z) :=
  let offset := to_int32 offset in
  _ ← unless noAssert (checkInt b value offset 2 65535 0);
  Ok (put16LE b value offset, offset + 2).

Definition writeUInt16BE (b : buffer) (value offset : Z) (noAssert : bool) : res (buffer * Z) :=
  let offset := to_int32 offset in
  _ ← unless noAssert (checkInt b value offset 2 65535 0);
  Ok (put16BE b value offset, offset + 2).

Definition writeUInt32LE (b : buffer) (value offset : Z) (noAssert : bool) : res (buffer * Z) :=
  let offset := to_int32 offset in
  _ ← unless noAssert (checkInt b value offset 4 4294967295 0);
  Ok (if TAS
      then let b := store TAS b (offset + 3) (jushr value 24) in
           let b := store TAS b (offset + 2) (jushr value 16) in
           let b := store TAS b (offset + 1) (jushr value 8) in
           store TAS b offset value
      else objectWriteUInt32 b value offset true, offset + 4).

(** The big-endian stores shared by the signed and unsigned writers. *)
Definition put32BE (b : buffer) (value offset : Z) : buffer :=
  if TAS
  then let b := store TAS b offset (jushr value 24) in
       let b := store TAS b (offset + 1) (jushr value 16) in
       let b := store TAS b (offset + 2) (jushr value 8) in
       store TAS b (offset + 3) value
  else objectWriteUInt32 b value offset false.

Definition writeUInt32BE (b : buffer) (value offset : Z) (noAssert : bool) : res (buffer * Z) :=
  let offset := to_int32 offset in
  _ ← unless noAssert (checkInt b value offset 4 4294967295 0);
  Ok (put32BE b value offset, offset + 4).

(** [((value / mul) >> 0) - sub & 0xFF] *)
Definition int_byte (value mul : Z) : Z :=
  jand (jshr (Z.quot value mul) 0 - (if value <? 0 then 1 else 0)) 255.

Definition writeIntLE (b : buffer) (value offset byteLength : Z) (noAssert : bool)
    : res (buffer * Z) :=
  let offset := to_int32 offset in
  let limit := 2 ^ (8 * byteLength - 1) in
  _ ← unless noAssert (checkInt b value offset byteLength (limit - 1) (- limit));
  let b := store TAS b offset (jand value 255) in
  Ok (write_loop TAS (int_byte value) 1 b offset 1 (Z.to_nat (byteLength - 1)),
      offset + byteLength).

Definition writeIntBE (b : buffer) (value offset byteLength : Z) (noAssert : bool)
    : res (buffer * Z) :=
  let offset := to_int32 offset in
  let limit := 2 ^ (8 * byteLength - 1) in
  _ ← unless noAssert (checkInt b value offset byteLength (limit - 1) (- limit));
  let i := byteLength - 1 in
  let b := store TAS b (offset + i) (jand value 255) in
  Ok (write_loop TAS (int_byte value) (-1) b (offset + i) 1 (Z.to_nat i),
      offset + byteLength).

Definition writeInt8 (b : buffer) (value offset : Z) (noAssert : bool) : res (buffer * Z) :=
  let offset := to_int32 offset in
  _ ← unless noAssert (checkInt b value offset 1 127 (-128));
  let value := if value <? 0 then 255 + value + 1 else value in
  Ok (store TAS b offset value, offset + 1).

Definition writeInt16LE (b : buffer) (value offset : Z) (noAssert : bool) : res (buffer * Z) :=
  let offset := to_int32 offset in
  _ ← unless noAssert (checkInt b value offset 2 32767 (-32768));
  Ok (put16LE b value offset, offset + 2).

Definition writeInt16BE (b : buffer) (value offset : Z) (noAssert : bool) : res (buffer * Z) :=
  let offset := to_int32 offset in
  _ ← unless noAssert (checkInt b value offset 2 32767 (-32768));
  Ok (put16BE b value offset, offset + 2).

Definition writeInt32LE (b : buffer) (value offset : Z) (noAssert : bool) : res (buffer * Z) :=
  let offset := to_int32 offset in
  _ ← unless noAssert (checkInt b value offset 4 2147483647 (-2147483648));
  Ok (if TAS
      then let b := store TAS b offset value in
           let b := store TAS b (offset + 1) (jushr value 8) in
           let b := store TAS b (offset + 2) (jushr value 16) in
           store TAS b (offset + 3) (jushr value 24)
      else objectWriteUInt32 b value offset true, offset + 4).

Definition writeInt32BE (b : buffer) (value offset : Z) (noAssert : bool) : res (buffer * Z) :=
  let offset := to_int32 offset in
  _ ← unless noAssert (checkInt b value offset 4 2147483647 (-2147483648));
  let value := if value <? 0 then 4294967295 + value + 1 else value in
  Ok (put32BE b value offset, offset + 4).
End writers.

(** ** Byte strings of integers *)

Fixpoint le_bytes (n : nat) (v : Z) : list Z :=
  match n with
  | O => []
  | S n => v mod 256 :: le_bytes n (v / 256)
  end.
Definition be_bytes (n : nat) (v : Z) : list Z := rev (le_bytes n v).

Fixpoint le_value (bs : list Z) : Z :=
  match bs with
  | [] => 0
  | x :: bs => x + 256 * le_value bs
  end.
Definition be_value (bs : list Z) : Z := le_value (rev bs).

(** Two's complement reading of an [n]-byte number. *)
Definition signed (n : nat) (v : Z) : Z :=
  if 128 * 256 ^ (Z.of_nat n - 1) <=? v then v - 256 ^ Z.of_nat n else v.

(** The buffer with the bytes from [o] on replaced. *)
Definition splice (b : buffer) (o : Z) (bs : list Z) : buffer :=
  take (Z.to_nat o) b ++ bs ++ drop (Z.to_nat o + length bs) b.

Lemma length_le_bytes n v : length (le_bytes n v) = n.
Proof. revert v. induction n as [|n IH]; intros v; cbn; [done|]. by rewrite IH. Qed.

Lemma le_bytes_bytes n v : Forall is_byte (le_bytes n v).
Proof.
  revert v. induction n as [|n IH]; intros v; cbn; constructor; [|done].
  unfold is_byte. zdm.
Qed.

Lemma pow256_pos n : 0 < 256 ^ Z.of_nat n.
Proof. apply Z.pow_pos_nonneg; lia. Qed.

Lemma le_value_bytes n v : le_value (le_bytes n v) = v mod 256 ^ Z.of_nat n.
Proof.
  revert v. induction n as [|n IH]; intros v; [by rewrite Z.mod_1_r|].
  cbn [le_bytes le_value]. rewrite IH Nat2Z.inj_succ Z.pow_succ_r; [|lia].
  pose proof (pow256_pos n). rewrite Z.rem_mul_r; lia.
Qed.

Lemma le_value_range bs : Forall is_byte bs → 0 <= le_value bs < 256 ^ Z.of_nat (length bs).
Proof.
  induction 1 as [|x bs Hx _ IH]; [cbn; lia|]. unfold is_byte in Hx.
  cbn [le_value length]. rewrite Nat2Z.inj_succ Z.pow_succ_r; lia.
Qed.

(** ** Cells of a split buffer *)

Lemma blen_app a b : blen (a ++ b) = blen a + blen b.
Proof. unfold blen. rewrite length_app. lia. Qed.

(** Every in-bounds window splits the buffer. *)
Lemma split_at (b : buffer) (o : Z) (n : nat) :
  0 <= o → o + Z.of_nat n <= blen b →
  ∃ pre bs post, b = pre ++ bs ++ post ∧ blen pre = o ∧ length bs = n.
Proof.
  intros Ho Hn. unfold blen in *.
  exists (take (Z.to_nat o) b), (take n (drop (Z.to_nat o) b)), (drop n (drop (Z.to_nat o) b)).
  split; [by rewrite !take_drop|]. rewrite !length_take length_drop. lia.
Qed.

Lemma splice_split pre bs post new :
  length new = length bs → splice (pre ++ bs ++ post) (blen pre) new = pre ++ new ++ post.
Proof.
  intros Hl. unfold splice, blen. rewrite Nat2Z.id take_app_length Hl.
  by rewrite (app_assoc pre bs post) -length_app drop_app_length.
Qed.

Lemma cell_split pre bs post i :
  (i < length bs)%nat → cell (pre ++ bs ++ post) (blen pre + Z.of_nat i) = bs !! i.
Proof.
  intros Hi. unfold cell, blen. rewrite !length_app.
  replace (_ && _) with true
    by (symmetry; apply andb_true_iff; rewrite Z.leb_le Z.ltb_lt; lia).
  replace (Z.to_nat _) with (length pre + i)%nat by lia.
  rewrite lookup_app_r; [|lia]. rewrite lookup_app_l; [|lia]. f_equal. lia.
Qed.

Definition norm (TAS : bool) (v : Z) : Z := if TAS then v mod 256 else v.

Lemma store_split TAS pre bs post i v :
  (i < length bs)%nat →
  store TAS (pre ++ bs ++ post) (blen pre + Z.of_nat i) v
  = pre ++ <[i := norm TAS v]> bs ++ post.
Proof.
  intros Hi. unfold store, blen. rewrite !length_app.
  replace (_ && _) with true
    by (symmetry; apply andb_true_iff; rewrite Z.leb_le Z.ltb_lt; lia).
  replace (Z.to_nat _) with (length pre + i)%nat by lia.
  rewrite insert_app_r insert_app_l; [done|lia].
Qed.

Lemma store_split0 TAS pre bs post v :
  (0 < length bs)%nat →
  store TAS (pre ++ bs ++ post) (blen pre) v = pre ++ <[0%nat := norm TAS v]> bs ++ post.
Proof. intros H. by rewrite -(store_split TAS pre bs post 0) ?Z.add_0_r. Qed.

Lemma store_length TAS b i v : length (store TAS b i v) = length b.
Proof. unfold store. case_if; [apply length_insert|done]. Qed.

Lemma store_wf b i v : wf_buffer b → wf_buffer (store true b i v).
Proof.
  intros H. unfold store. case_if; [|done]. apply Forall_insert; [done|].
  unfold is_byte. zdm.
Qed.

(** ** Loops *)

Fixpoint loop_bytes (TAS : bool) (f : Z → Z) (mul : Z) (n : nat) : list Z :=
  match n with
  | O => []
  | S n => norm TAS (f (mul * 256)) :: loop_bytes TAS f (mul * 256) n
  end.

Lemma write_loop_up TAS f pre x bs post mul :
  write_loop TAS f 1 (pre ++ x :: bs ++ post) (blen pre) mul (length bs)
  = pre ++ x :: loop_bytes TAS f mul (length bs) ++ post.
Proof.
  revert pre x mul. induction bs as [|y bs IH]; intros pre x mul; cbn [length write_loop loop_bytes];
    [done|].
  pose proof (store_split TAS pre (x :: y :: bs) post 1 (f (mul * 256)) ltac:(cbn; lia)) as Hs.
  cbn [app Z.of_nat Pos.of_succ_nat] in Hs. cbn [app]. rewrite Hs. cbn [insert list_insert app].
  specialize (IH (pre ++ [x]) (norm TAS (f (mul * 256))) (mul * 256)).
  rewrite blen_app -app_assoc in IH. cbn [app] in IH.
  change (blen [x]) with 1 in IH. rewrite IH. by rewrite -app_assoc.
Qed.

Lemma write_loop_down TAS f pre bs x post mul :
  write_loop TAS f (-1) (pre ++ bs ++ x :: post) (blen pre + blen bs) mul (length bs)
  = pre ++ rev (loop_bytes TAS f mul (length bs)) ++ x :: post.
Proof.
  revert x post mul. induction bs as [|y bs IH] using rev_ind; intros x post mul; [done|].
  rewrite blen_app length_app Nat.add_comm. change (blen [y]) with 1. cbn [length Nat.add].
  cbn [write_loop loop_bytes].
  replace (blen pre + (blen bs + 1) + -1) with (blen pre + blen bs) by lia.
  pose proof (store_split TAS (pre ++ bs) [y] (x :: post) 0 (f (mul * 256)) ltac:(cbn; lia)) as Hs.
  rewrite blen_app Z.add_0_r -!app_assoc in Hs. rewrite -!app_assoc.
  cbn [app] in Hs |- *. rewrite Hs. cbn [insert list_insert app].
  rewrite (IH (norm TAS (f (mul * 256))) (x :: post) (mul * 256)). done.
Qed.

Lemma read_up_spec b o i mul bs val :
  (∀ k, (k < length bs)%nat → cell b (o + i + 1 + Z.of_nat k) = bs !! k) →
  read_up b o i mul (length bs) (Some val)
  = (Some (val + mul * 256 * le_value bs), mul * 256 ^ Z.of_nat (length bs)).
Proof.
  revert i mul val. induction bs as [|x bs IH]; intros i mul val Hc; cbn [length read_up le_value].
  { f_equal; [f_equal|]; lia. }
  pose proof (Hc 0%nat ltac:(cbn; lia)) as H0. cbn in H0. rewrite Z.add_0_r in H0.
  rewrite (Z.add_assoc o i 1) H0. cbn [omul oadd mbind option_bind].
  rewrite (IH (i + 1)).
  - rewrite Nat2Z.inj_succ Z.pow_succ_r; [|lia]. f_equal; [f_equal|]; lia.
  - intros k Hk. specialize (Hc (S k) ltac:(cbn; lia)).
    change ((x :: bs) !! S k) with (bs !! k) in Hc. rewrite -Hc. f_equal. lia.
Qed.

Lemma read_down_spec b o mul bs val :
  (∀ k, (k < length bs)%nat → cell b (o + Z.of_nat k) = bs !! k) →
  read_down b o mul (length bs) (Some val)
  = (Some (val + mul * 256 * be_value bs), mul * 256 ^ Z.of_nat (length bs)).
Proof.
  revert mul val. induction bs as [|x bs IH] using rev_ind; intros mul val Hc.
  { cbn. f_equal; [f_equal|]; lia. }
  rewrite length_app Nat.add_comm. cbn [length Nat.add read_down].
  rewrite Hc; [|rewrite length_app; cbn; lia].
  rewrite lookup_app_r; [|lia]. rewrite Nat.sub_diag. cbn [lookup list_lookup omul oadd mbind option_bind].
  rewrite IH.
  - unfold be_value. rewrite rev_app_distr. cbn [rev app le_value].
    rewrite Nat2Z.inj_succ Z.pow_succ_r; [|lia]. f_equal; [f_equal|]; lia.
  - intros k Hk. rewrite Hc; [|rewrite length_app; cbn; lia]. by rewrite lookup_app_l.
Qed.

(** ** Fixed-width writers store the bytes of the value *)

Lemma checkInt_ok b v o n max min :
  min <= v <= max → o + n <= blen b → checkInt b v o n max min = Ok ().
Proof.
  intros Hv Ho. unfold checkInt.
  replace (_ || _) with false
    by (symmetry; apply orb_false_iff; rewrite !Z.ltb_ge; lia).
  by replace (_ <? _) with false by (symmetry; apply Z.ltb_ge; lia).
Qed.

Lemma checkOffset_ok o n len : 0 <= o → o + n <= len → checkOffset o n len = Ok ().
Proof.
  intros Ho Hn. unfold checkOffset.
  replace (o <? 0) with false by (symmetry; apply Z.ltb_ge; lia).
  by replace (_ <? _) with false by (symmetry; apply Z.ltb_ge; lia).
Qed.

(** The byte [k] of a number, as each branch of the writers computes it. *)
Lemma jushr_mod v k : 0 <= k <= 3 → jushr v (8 * k) mod 256 = v / 256 ^ k mod 256.
Proof.
  intros Hk. unfold jushr, to_uint32. rewrite Z.shiftr_div_pow2; [|lia].
  assert (k = 0 ∨ k = 1 ∨ k = 2 ∨ k = 3) as [->|[->|[->| ->]]] by lia; cbn; zdm.
Qed.

Lemma mod_wrap v m k :
  0 <= k <= 3 → (v + m * 4294967296) / 256 ^ k mod 256 = v / 256 ^ k mod 256.
Proof.
  intros Hk.
  assert (k = 0 ∨ k = 1 ∨ k = 2 ∨ k = 3) as [->|[->|[->| ->]]] by lia; cbn; zdm.
Qed.

Lemma fold_store4 TAS (g : Z → Z) pre x0 x1 x2 x3 post :
  fold_left (λ b i, store TAS b (blen pre + i) (g i)) (map Z.of_nat (seq 0 4))
    (pre ++ [x0; x1; x2; x3] ++ post)
  = pre ++ [norm TAS (g 0); norm TAS (g 1); norm TAS (g 2); norm TAS (g 3)] ++ post.
Proof.
  cbn [seq map fold_left].
  by do 4 (rewrite store_split; [|cbn; lia]; cbn [insert list_insert]).
Qed.

Lemma fold_store2 TAS (g : Z → Z) pre x0 x1 post :
  fold_left (λ b i, store TAS b (blen pre + i) (g i)) (map Z.of_nat (seq 0 2))
    (pre ++ [x0; x1] ++ post)
  = pre ++ [norm TAS (g 0); norm TAS (g 1)] ++ post.
Proof.
  cbn [seq map fold_left].
  by do 2 (rewrite store_split; [|cbn; lia]; cbn [insert list_insert]).
Qed.

(** Bytes as quotients by powers of 256. *)
Lemma le_bytes2 v : le_bytes 2 v = [v mod 256; v / 256 ^ 1 mod 256].
Proof. cbn [le_bytes]. list_eq ltac:(cbn; zdm). Qed.
Lemma le_bytes4 v :
  le_bytes 4 v = [v mod 256; v / 256 ^ 1 mod 256; v / 256 ^ 2 mod 256; v / 256 ^ 3 mod 256].
Proof. cbn [le_bytes]. list_eq ltac:(cbn; zdm). Qed.

Lemma be_bytes2 v : be_bytes 2 v = [v / 256 ^ 1 mod 256; v mod 256].
Proof. unfold be_bytes. by rewrite le_bytes2. Qed.
Lemma be_bytes4 v :
  be_bytes 4 v = [v / 256 ^ 3 mod 256; v / 256 ^ 2 mod 256; v / 256 ^ 1 mod 256; v mod 256].
Proof. unfold be_bytes. by rewrite le_bytes4. Qed.

Lemma object16_byte v k :
  0 <= v < 65536 → 0 <= k <= 1 →
  jushr (jand v (jshl 255 (8 * k))) (k * 8) = v / 256 ^ k mod 256.
Proof.
  intros Hv Hk. rewrite (jshl_pow 255 (8 * k)); [|lia|lia|].
  2: { assert (k = 0 ∨ k = 1) as [->| ->] by lia; cbn; lia. }
  pose proof (jand_byte_shr v (8 * k) ltac:(lia) ltac:(lia)) as H.
  replace (256 ^ k) with (2 ^ (8 * k)) by (rewrite Z.pow_mul_r; [done|lia|lia]).
  assert (0 <= 255 * 2 ^ (8 * k) <= 65280)
    by (assert (k = 0 ∨ k = 1) as [->| ->] by lia; cbn; lia).
  rewrite -H (Z.mul_comm k 8). unfold jushr, jshr. f_equal.
  assert (jand v (255 * 2 ^ (8 * k)) = Z.land v (255 * 2 ^ (8 * k))) as ->.
  { unfold jand. rewrite (to_int32_small v) ?(to_int32_small (255 * _)); lia || done. }
  assert (0 <= Z.land v (255 * 2 ^ (8 * k)) <= v) as [? ?].
  { split; [apply Z.land_nonneg; lia|apply land_le; lia]. }
  rewrite to_int32_small ?to_uint32_small; lia.
Qed.

(** Stores in the order the typed-array branches make them. *)
Ltac stores :=
  repeat first
    [ rewrite store_split0; [|cbn; lia]
    | rewrite (store_split _ _ _ _ 1); [|cbn; lia]
    | rewrite (store_split _ _ _ _ 2); [|cbn; lia]
    | rewrite (store_split _ _ _ _ 3); [|cbn; lia] ];
  cbn [insert list_insert].

Lemma wrap16 v k :
  -32768 <= v < 65536 → 0 <= k <= 1 →
  (if v <? 0 then 65535 + v + 1 else v) / 256 ^ k mod 256 = v / 256 ^ k mod 256.
Proof.
  intros Hv Hk. destruct (Z.ltb_spec v 0); [|done].
  assert (k = 0 ∨ k = 1) as [->| ->] by lia; cbn; zdm.
Qed.

Lemma put16_spec TAS pre x0 x1 post v :
  -32768 <= v < 65536 →
  put16LE TAS (pre ++ [x0; x1] ++ post) v (blen pre) = pre ++ le_bytes 2 v ++ post ∧
  put16BE TAS (pre ++ [x0; x1] ++ post) v (blen pre) = pre ++ be_bytes 2 v ++ post.
Proof.
  intros Hv. unfold put16LE, put16BE. rewrite le_bytes2 be_bytes2.
  destruct TAS.
  - stores. cbn [norm].
    change (jushr v 8) with (jushr v (8 * 1)). rewrite jushr_mod; [done|lia].
  - unfold objectWriteUInt16. rewrite blen_app.
    set (w := if v <? 0 then 65535 + v + 1 else v).
    assert (0 <= w < 65536) by (unfold w; destruct (Z.ltb_spec v 0); lia).
    replace (Z.to_nat (Z.min (blen pre + blen ([x0; x1] ++ post) - blen pre) 2)) with 2%nat
      by (rewrite blen_app; unfold blen; cbn; lia).
    rewrite !fold_store2. cbn [norm].
    rewrite !object16_byte; [|lia..].
    unfold w. rewrite !wrap16; [|lia..].
    by rewrite ?Z.sub_0_r ?Z.sub_diag ?Z.pow_0_r ?Z.div_1_r.
Qed.

Lemma wrap32 v k :
  -2147483648 <= v < 4294967296 → 0 <= k <= 3 →
  (if v <? 0 then 4294967295 + v + 1 else v) / 256 ^ k mod 256 = v / 256 ^ k mod 256.
Proof.
  intros Hv Hk. destruct (Z.ltb_spec v 0); [|done].
  rewrite -(mod_wrap v 1 k); [|done]. do 2 f_equal. lia.
Qed.

Lemma object32_spec TAS pre x0 x1 x2 x3 post v :
  -2147483648 <= v < 4294967296 →
  objectWriteUInt32 TAS (pre ++ [x0; x1; x2; x3] ++ post) v (blen pre) true
    = pre ++ le_bytes 4 v ++ post ∧
  objectWriteUInt32 TAS (pre ++ [x0; x1; x2; x3] ++ post) v (blen pre) false
    = pre ++ be_bytes 4 v ++ post.
Proof.
  intros Hv. unfold objectWriteUInt32. rewrite le_bytes4 be_bytes4 blen_app.
  set (w := if v <? 0 then 4294967295 + v + 1 else v).
  replace (Z.to_nat (Z.min (blen pre + blen ([x0; x1; x2; x3] ++ post) - blen pre) 4)) with 4%nat
    by (rewrite blen_app; unfold blen; cbn; lia).
  assert (∀ k, 0 <= k <= 3 → norm TAS (jand (jushr w (k * 8)) 255) = v / 256 ^ k mod 256) as Hk.
  { intros k Hk. rewrite jand_255 (Z.mul_comm k 8) jushr_mod; [|done].
    unfold w. rewrite wrap32; [|done..]. unfold norm. destruct TAS; [|done].
    apply Z.mod_mod. lia. }
  rewrite !fold_store4 !Hk; [|lia..].
  by rewrite ?Z.sub_0_r ?Z.sub_diag ?Z.pow_0_r ?Z.div_1_r.
Qed.
