(* ===== verification/BufferInt.v ===== *)
(** * Buffer: the integer accessors, read and written together

    Each reader/writer pair of [Buffer.prototype] is packed as an [accessor] and
    checked against one interface, [AccessorOk]; the theorems about reading back,
    framing and rejection are proved from the interface for every pair at once. *)

From S2P Require Import Prelude Int32 Base64 BufferCore.

(** [vmin] and [vmax] bound the values a pair takes; [exact] holds of those in
    the range that it stores as they are. *)
Record accessor := Accessor {
  width : nat;
  vmin : Z;
  vmax : Z;
  exact : Z → Prop;
  bytes_of : Z → list Z;
  wr : bool → buffer → Z → Z → bool → res (buffer * Z);
  rd : buffer → Z → bool → res (option Z);
}.

(** What a pair promises: writing an allowed value in bounds splices its bytes
    in, reading those bytes gives the value, reading out of bounds throws. *)
Class AccessorOk (a : accessor) := {
  ok_bytes : ∀ v, length (bytes_of a v) = width a ∧ Forall is_byte (bytes_of a v);
  ok_write : ∀ TAS b v o,
    vmin a <= v <= vmax a → exact a v → 0 <= o → o + Z.of_nat (width a) <= blen b → blen b < 2147483648 →
    wr a TAS b v o false = Ok (splice b o (bytes_of a v), o + Z.of_nat (width a));
  ok_read : ∀ pre post v,
    vmin a <= v <= vmax a → exact a v → blen pre < 2147483648 →
    rd a (pre ++ bytes_of a v ++ post) (blen pre) false = Ok (Some v);
  ok_read_bounds : ∀ b o,
    -2147483648 <= o < 2147483648 → o < 0 ∨ blen b < o + Z.of_nat (width a) →
    ∃ m, rd a b o false = Throw (RangeError m);
}.

(** A pair whose writer also refuses every other value or position. *)
Class AccessorStrict (a : accessor) := {
  strict_write : ∀ TAS b v o,
    -2147483648 <= o < 2147483648 →
    v < vmin a ∨ vmax a < v ∨ blen b < o + Z.of_nat (width a) →
    ∃ m, wr a TAS b v o false = Throw (RangeError m);
}.

Definition every (v : Z) : Prop := True.
(** A negative multiple of 256 is not stored as it is by the signed writers of a
    variable width. *)
Definition no_borrow (v : Z) : Prop := 0 <= v ∨ v mod 256 ≠ 0.

Definition acc_u8 := Accessor 1 0 255 every (le_bytes 1) writeUInt8 readUInt8.
Definition acc_u16le := Accessor 2 0 65535 every (le_bytes 2) writeUInt16LE
  (λ b o n, Some <$> readUInt16LE b o n).
Definition acc_u16be := Accessor 2 0 65535 every (be_bytes 2) writeUInt16BE
  (λ b o n, Some <$> readUInt16BE b o n).
Definition acc_u32le := Accessor 4 0 4294967295 every (le_bytes 4) writeUInt32LE readUInt32LE.
Definition acc_u32be := Accessor 4 0 4294967295 every (be_bytes 4) writeUInt32BE readUInt32BE.
Definition acc_i8 := Accessor 1 (-128) 127 every (le_bytes 1) writeInt8 readInt8.
Definition acc_i16le := Accessor 2 (-32768) 32767 every (le_bytes 2) writeInt16LE
  (λ b o n, Some <$> readInt16LE b o n).
Definition acc_i16be := Accessor 2 (-32768) 32767 every (be_bytes 2) writeInt16BE
  (λ b o n, Some <$> readInt16BE b o n).
Definition acc_i32le := Accessor 4 (-2147483648) 2147483647 every (le_bytes 4) writeInt32LE
  (λ b o n, Some <$> readInt32LE b o n).
Definition acc_i32be := Accessor 4 (-2147483648) 2147483647 every (be_bytes 4) writeInt32BE
  (λ b o n, Some <$> readInt32BE b o n).

(** The variable-width unsigned pairs, for [n] bytes. *)
Definition acc_ule (n : nat) := Accessor n 0 (256 ^ Z.of_nat n - 1) every (le_bytes n)
  (λ TAS b v o na, writeUIntLE TAS b v o (Z.of_nat n) na)
  (λ b o na, readUIntLE b o (Z.of_nat n) na).
Definition acc_ube (n : nat) := Accessor n 0 (256 ^ Z.of_nat n - 1) every (be_bytes n)
  (λ TAS b v o na, writeUIntBE TAS b v o (Z.of_nat n) na)
  (λ b o na, readUIntBE b o (Z.of_nat n) na).

(** The variable-width signed pairs, for [n] bytes. *)
Definition acc_ile (n : nat) :=
  Accessor n (- 2 ^ (8 * Z.of_nat n - 1)) (2 ^ (8 * Z.of_nat n - 1) - 1) no_borrow (le_bytes n)
    (λ TAS b v o na, writeIntLE TAS b v o (Z.of_nat n) na)
    (λ b o na, readIntLE b o (Z.of_nat n) na).
Definition acc_ibe (n : nat) :=
  Accessor n (- 2 ^ (8 * Z.of_nat n - 1)) (2 ^ (8 * Z.of_nat n - 1) - 1) no_borrow (be_bytes n)
    (λ TAS b v o na, writeIntBE TAS b v o (Z.of_nat n) na)
    (λ b o na, readIntBE b o (Z.of_nat n) na).

Definition fixed_accessors : list accessor :=
  [acc_u8; acc_u16le; acc_u16be; acc_u32le; acc_u32be;
   acc_i8; acc_i16le; acc_i16be; acc_i32le; acc_i32be].
Definition buffer_accessors : list accessor :=
  fixed_accessors ++ map acc_ule (seq 1 6) ++ map acc_ube (seq 1 6)
  ++ map acc_ile (seq 1 6) ++ map acc_ibe (seq 1 6).

(** ** Reading bytes *)

Lemma cell_split0 pre bs post :
  (0 < length bs)%nat → cell (pre ++ bs ++ post) (blen pre) = bs !! 0%nat.
Proof. intros H. by rewrite -(cell_split pre bs post 0) ?Z.add_0_r. Qed.

Ltac cells :=
  repeat first
    [ rewrite cell_split0; [|cbn; lia]
    | rewrite (cell_split _ _ _ 1); [|cbn; lia]
    | rewrite (cell_split _ _ _ 2); [|cbn; lia]
    | rewrite (cell_split _ _ _ 3); [|cbn; lia] ];
  cbn -[jand jor jshl jushr sign16 Z.modulo Z.div Z.mul Z.add Z.sub Z.eqb Z.pow].

Lemma blen_nonneg b : 0 <= blen b.
Proof. unfold blen. lia. Qed.

Lemma read_check pre bs post :
  checkOffset (blen pre) (blen bs) (blen (pre ++ bs ++ post)) = Ok ().
Proof.
  apply checkOffset_ok; [apply blen_nonneg|]. rewrite !blen_app.
  pose proof (blen_nonneg post). lia.
Qed.

Lemma checkOffset_throw o n len :
  o < 0 ∨ len < o + n → ∃ m, checkOffset o n len = Throw (RangeError m).
Proof.
  intros H. unfold checkOffset. destruct (Z.ltb_spec o 0); [eauto|].
  destruct (Z.ltb_spec len (o + n)); [eauto|lia].
Qed.

Lemma checkInt_throw b v o n max min :
  v < min ∨ max < v ∨ blen b < o + n → ∃ m, checkInt b v o n max min = Throw (RangeError m).
Proof.
  intros H. unfold checkInt. destruct (Z.ltb_spec max v); cbn; [eauto|].
  destruct (Z.ltb_spec v min); cbn; [eauto|].
  destruct (Z.ltb_spec (blen b) (o + n)); [eauto|lia].
Qed.

(** Two and four bytes put together by the bit operators. *)
Lemma jor2 x y : is_byte x → is_byte y → jor x (jshl y 8) = x + 256 * y.
Proof.
  unfold is_byte. intros. rewrite (jshl_pow y 8); [|lia..].
  rewrite jor_comm (jor_add y x 8); lia.
Qed.

Lemma jor3 x y z :
  is_byte x → is_byte y → is_byte z →
  jor (jor x (jshl y 8)) (jshl z 16) = x + 256 * y + 65536 * z.
Proof.
  intros Hx Hy Hz. rewrite jor2; [|done..]. unfold is_byte in *.
  rewrite (jshl_pow z 16); [|lia..]. rewrite jor_comm (jor_add z _ 16); lia.
Qed.

(** [z << 24] wraps to a negative number from 128 on. *)
Lemma jshl24 w : is_byte w → jshl w 24 = (if w <? 128 then w else w - 256) * 16777216.
Proof.
  unfold is_byte. intros Hw. unfold jshl. rewrite (to_int32_small w); [|lia].
  rewrite Z.shiftl_mul_pow2; [|lia]. change (2 ^ 24) with 16777216.
  unfold to_int32. destruct (Z.ltb_spec w 128); zdm.
Qed.

Lemma jor_hi24 x w :
  0 <= x < 16777216 → is_byte w → jor x (jshl w 24) = to_int32 (x + 16777216 * w).
Proof.
  intros Hx Hw. rewrite jshl24; [|done]. unfold is_byte in Hw.
  set (h := if w <? 128 then w else w - 256).
  assert (-128 <= h < 128) by (unfold h; destruct (Z.ltb_spec w 128); lia).
  rewrite jor_comm (jor_add h x 24); [|lia..].
  unfold to_int32, h. destruct (Z.ltb_spec w 128); zdm.
Qed.

Lemma jor4le x y z w :
  is_byte x → is_byte y → is_byte z → is_byte w →
  jor (jor (jor x (jshl y 8)) (jshl z 16)) (jshl w 24)
  = to_int32 (x + 256 * y + 65536 * z + 16777216 * w).
Proof.
  intros Hx Hy Hz Hw. rewrite jor3; [|done..]. apply jor_hi24; [|done].
  unfold is_byte in *. lia.
Qed.

Lemma jor3be x y z :
  is_byte x → is_byte y → is_byte z →
  jor (jor (jshl z 16) (jshl y 8)) x = x + 256 * y + 65536 * z.
Proof.
  unfold is_byte. intros. rewrite (jshl_pow z 16) ?(jshl_pow y 8); [|lia..].
  rewrite (jor_add z (y * 2 ^ 8) 16); [|lia..].
  replace (z * 2 ^ 16 + y * 2 ^ 8) with ((z * 256 + y) * 2 ^ 8) by lia.
  rewrite (jor_add _ x 8); lia.
Qed.

Lemma jor4be x y z w :
  is_byte x → is_byte y → is_byte z → is_byte w →
  jor (jor (jor (jshl w 24) (jshl z 16)) (jshl y 8)) x
  = to_int32 (x + 256 * y + 65536 * z + 16777216 * w).
Proof.
  intros Hx Hy Hz Hw. rewrite (jshl24 w); [|done]. unfold is_byte in *.
  rewrite (jshl_pow z 16) ?(jshl_pow y 8); [|lia..].
  set (h := if w <? 128 then w else w - 256).
  assert (-128 <= h < 128) by (unfold h; destruct (Z.ltb_spec w 128); lia).
  rewrite (jor_add h (z * 2 ^ 16) 24); [|lia..].
  replace (h * 2 ^ 24 + z * 2 ^ 16) with ((h * 256 + z) * 2 ^ 16) by lia.
  rewrite (jor_add _ (y * 2 ^ 8) 16); [|lia..].
  replace ((h * 256 + z) * 2 ^ 16 + y * 2 ^ 8) with ((h * 65536 + z * 256 + y) * 2 ^ 8) by lia.
  rewrite (jor_add _ x 8); [|lia..].
  unfold to_int32, h. destruct (Z.ltb_spec w 128); zdm.
Qed.

(** Sign extension of 16 bits. *)
Lemma sign16_spec v : 0 <= v < 65536 → sign16 v = if v <? 32768 then v else v - 65536.
Proof.
  intros Hv. unfold sign16.
  assert (jand v 32768 = if v <? 32768 then 0 else 32768) as ->.
  { unfold jand. rewrite !to_int32_small; [|lia..].
    apply Z.bits_inj'. intros n Hn. rewrite Z.land_spec.
    change 32768 with (2 ^ 15). rewrite Z.pow2_bits_eqb; [|lia].
    destruct (Z.eqb_spec 15 n) as [<-|Hne].
    - rewrite andb_true_r. rewrite Z.testbit_eqb; [|lia]. change (2 ^ 15) with 32768.
      destruct (Z.ltb_spec v 32768).
      + rewrite Z.div_small; [done|lia].
      + replace (v / 32768) with 1 by zdm. done.
    - rewrite andb_false_r. destruct (v <? 2 ^ 15); [by rewrite Z.bits_0|].
      rewrite Z.pow2_bits_eqb; [|lia]. symmetry. by apply Z.eqb_neq. }
  destruct (Z.ltb_spec v 32768); [done|]. cbn -[jor].
  unfold jor. rewrite (to_int32_small v); [|lia].
  change (to_int32 4294901760) with (-1 * 2 ^ 16).
  rewrite Z.lor_comm lor_add; lia.
Qed.

(** ** The pairs satisfy the interface *)

(** Split the buffer of a write at its window and name the old bytes. *)
Ltac window b o n :=
  let pre := fresh "pre" in let post := fresh "post" in let Hl := fresh "Hl" in
  let bs := fresh "bs" in let Ho := fresh "Ho" in
  destruct (split_at b o n) as (pre & bs & post & -> & Ho & Hl); [lia|cbn in *; lia|];
  subst o;
  repeat (let x := fresh "x" in destruct bs as [|x bs]; cbn in Hl; try discriminate Hl);
  clear Hl.

Ltac enter_write :=
  rewrite (to_int32_small (blen _)); [|lia];
  cbn [unless]; rewrite checkInt_ok; [|lia|lia]; cbn [mbind res_bind].

Ltac byte_facts :=
  repeat match goal with
  | |- context [le_bytes 2 ?v] => rewrite (le_bytes2 v)
  | |- context [be_bytes 2 ?v] => rewrite (be_bytes2 v)
  | |- context [le_bytes 4 ?v] => rewrite (le_bytes4 v)
  | |- context [be_bytes 4 ?v] => rewrite (be_bytes4 v)
  end.

Lemma be_bytes_ok n v : length (be_bytes n v) = n ∧ Forall is_byte (be_bytes n v).
Proof.
  unfold be_bytes. rewrite length_rev length_le_bytes. split; [done|].
  apply Forall_rev, le_bytes_bytes.
Qed.
Lemma le_bytes_ok n v : length (le_bytes n v) = n ∧ Forall is_byte (le_bytes n v).
Proof. split; [apply length_le_bytes|apply le_bytes_bytes]. Qed.

(** The bounds law of a reader that checks its offset first. *)
Ltac bounds_law :=
  let H := fresh in intros ? ? ? H; cbn in H |- *; unfold readUInt8, readInt8, readUInt16LE,
    readUInt16BE, readInt16LE, readInt16BE, readUInt32LE, readUInt32BE, readInt32LE, readInt32BE;
  cbn [unless];
  match goal with |- context [checkOffset ?o ?n ?l] =>
    destruct (checkOffset_throw o n l) as [? ->]; [lia|]
  end; cbn; eauto.

Lemma store8_spec TAS pre x post v :
  norm TAS v = v mod 256 → store TAS (pre ++ [x] ++ post) (blen pre) v = pre ++ le_bytes 1 v ++ post.
Proof. intros Hn. rewrite store_split0; [|cbn; lia]. cbn [insert list_insert]. by rewrite Hn. Qed.

Lemma norm_mod TAS v : 0 <= v < 256 → norm TAS v = v mod 256.
Proof. intros. destruct TAS; [done|]. cbn. by rewrite Z.mod_small. Qed.

#[export] Instance acc_u8_ok : AccessorOk acc_u8.
Proof.
  split; [apply le_bytes_ok| | |bounds_law].
  - cbn [vmin vmax width bytes_of wr acc_u8]. intros TAS b v o Hv _ Ho Hb Hlen.
    window b o 1%nat. unfold writeUInt8. enter_write.
    rewrite splice_split; [|done]. by rewrite store8_spec; [|apply norm_mod; lia].
  - cbn [vmin vmax width bytes_of rd acc_u8]. intros pre post v Hv _ Hp.
    unfold readUInt8. cbn [unless].
    rewrite (read_check pre (le_bytes 1 v) post). cbn [mbind res_bind].
    rewrite cell_split0; [|cbn; lia]. cbn. by rewrite Z.mod_small; [|lia].
Qed.

#[export] Instance acc_i8_ok : AccessorOk acc_i8.
Proof.
  split; [apply le_bytes_ok| | |bounds_law].
  - cbn [vmin vmax width bytes_of wr acc_i8]. intros TAS b v o Hv _ Ho Hb Hlen.
    window b o 1%nat. unfold writeInt8. enter_write.
    rewrite splice_split; [|done]. do 2 f_equal.
    destruct (Z.ltb_spec v 0).
    + rewrite store8_spec; [|apply norm_mod; lia]. do 2 f_equal. cbn [le_bytes].
      f_equal. zdm.
    + by rewrite store8_spec; [|apply norm_mod; lia].
  - cbn [vmin vmax width bytes_of rd acc_i8]. intros pre post v Hv _ Hp.
    unfold readInt8. cbn [unless].
    rewrite (read_check pre (le_bytes 1 v) post). cbn [mbind res_bind].
    rewrite cell_split0; [|cbn; lia]. cbn -[jand Z.modulo Z.add Z.sub Z.mul Z.eqb].
    assert (jand (v mod 256) 128 = if v <? 0 then 128 else 0) as ->.
    { apply Z.eqb_eq.
      apply (range_check (λ v, jand (v mod 256) 128 =? (if v <? 0 then 128 else 0)) (-128) 256);
        [by vm_compute|lia]. }
    destruct (Z.ltb_spec v 0); cbn [Z.eqb]; do 2 f_equal; zdm.
Qed.

(** Bytes of a value as bounded digits. *)
Lemma byte_mod x : is_byte (x mod 256).
Proof. unfold is_byte. zdm. Qed.

Ltac enter_read bs :=
  cbn [unless];
  match goal with |- context [checkOffset (blen ?pre) _ (blen (?pre ++ _ ++ ?post))] =>
    rewrite (read_check pre bs post)
  end; cbn [mbind res_bind fmap res_fmap].

Ltac rebuild := do 2 f_equal; cbn; zdm.

#[export] Instance acc_u16le_ok : AccessorOk acc_u16le.
Proof.
  split; [apply le_bytes_ok| | |bounds_law].
  - cbn [vmin vmax width bytes_of wr acc_u16le]. intros TAS b v o Hv _ Ho Hb Hlen.
    window b o 2%nat. unfold writeUInt16LE. enter_write.
    rewrite splice_split; [|done]. by rewrite (proj1 (put16_spec _ _ _ _ _ _ _)); [|lia].
  - cbn [vmin vmax width bytes_of rd acc_u16le]. intros pre post v Hv _ Hp.
    unfold readUInt16LE. enter_read (le_bytes 2 v). rewrite le_bytes2. cells.
    rewrite jor2; [|apply byte_mod..]. rebuild.
Qed.

#[export] Instance acc_u16be_ok : AccessorOk acc_u16be.
Proof.
  split; [apply be_bytes_ok| | |bounds_law].
  - cbn [vmin vmax width bytes_of wr acc_u16be]. intros TAS b v o Hv _ Ho Hb Hlen.
    window b o 2%nat. unfold writeUInt16BE. enter_write.
    rewrite splice_split; [|done]. by rewrite (proj2 (put16_spec _ _ _ _ _ _ _)); [|lia].
  - cbn [vmin vmax width bytes_of rd acc_u16be]. intros pre post v Hv _ Hp.
    unfold readUInt16BE. enter_read (be_bytes 2 v). rewrite be_bytes2. cells.
    rewrite jor_comm jor2; [|apply byte_mod..]. rebuild.
Qed.

Lemma sign_rebuild16 v :
  -32768 <= v <= 32767 → sign16 (v mod 256 + 256 * (v / 256 ^ 1 mod 256)) = v.
Proof.
  intros Hv. rewrite sign16_spec; [|cbn; zdm].
  match goal with |- context [?x <? 32768] => destruct (Z.ltb_spec x 32768) end; cbn in *; zdm.
Qed.

#[export] Instance acc_i16le_ok : AccessorOk acc_i16le.
Proof.
  split; [apply le_bytes_ok| | |bounds_law].
  - cbn [vmin vmax width bytes_of wr acc_i16le]. intros TAS b v o Hv _ Ho Hb Hlen.
    window b o 2%nat. unfold writeInt16LE. enter_write.
    rewrite splice_split; [|done]. by rewrite (proj1 (put16_spec _ _ _ _ _ _ _)); [|lia].
  - cbn [vmin vmax width bytes_of rd acc_i16le]. intros pre post v Hv _ Hp.
    unfold readInt16LE. enter_read (le_bytes 2 v). rewrite le_bytes2. cells.
    rewrite jor2; [|apply byte_mod..]. by rewrite sign_rebuild16.
Qed.

#[export] Instance acc_i16be_ok : AccessorOk acc_i16be.
Proof.
  split; [apply be_bytes_ok| | |bounds_law].
  - cbn [vmin vmax width bytes_of wr acc_i16be]. intros TAS b v o Hv _ Ho Hb Hlen.
    window b o 2%nat. unfold writeInt16BE. enter_write.
    rewrite splice_split; [|done]. by rewrite (proj2 (put16_spec _ _ _ _ _ _ _)); [|lia].
  - cbn [vmin vmax width bytes_of rd acc_i16be]. intros pre post v Hv _ Hp.
    unfold readInt16BE. enter_read (be_bytes 2 v). rewrite be_bytes2. cells.
    rewrite jor2; [|apply byte_mod..]. by rewrite sign_rebuild16.
Qed.

(** The four stores of the typed-array branches. *)
Lemma typed32 pre x0 x1 x2 x3 post v :
  let b := pre ++ [x0; x1; x2; x3] ++ post in let o := blen pre in
  store true (store true (store true (store true b (o + 3) (jushr v 24)) (o + 2) (jushr v 16))
    (o + 1) (jushr v 8)) o v = pre ++ le_bytes 4 v ++ post ∧
  store true (store true (store true (store true b o v) (o + 1) (jushr v 8)) (o + 2) (jushr v 16))
    (o + 3) (jushr v 24) = pre ++ le_bytes 4 v ++ post ∧
  store true (store true (store true (store true b o (jushr v 24)) (o + 1) (jushr v 16))
    (o + 2) (jushr v 8)) (o + 3) v = pre ++ be_bytes 4 v ++ post.
Proof.
  cbv zeta. stores. rewrite le_bytes4 be_bytes4. cbn [norm].
  change (jushr v 8) with (jushr v (8 * 1)). change (jushr v 16) with (jushr v (8 * 2)).
  change (jushr v 24) with (jushr v (8 * 3)). by rewrite !jushr_mod; [|lia..].
Qed.

Lemma put32BE_spec TAS pre x0 x1 x2 x3 post v :
  -2147483648 <= v < 4294967296 →
  put32BE TAS (pre ++ [x0; x1; x2; x3] ++ post) v (blen pre) = pre ++ be_bytes 4 v ++ post.
Proof.
  intros Hv. unfold put32BE. destruct TAS; [exact (proj2 (proj2 (typed32 _ _ _ _ _ _ _)))|]. by apply object32_spec.
Qed.

#[export] Instance acc_u32le_ok : AccessorOk acc_u32le.
Proof.
  split; [apply le_bytes_ok| | |bounds_law].
  - cbn [vmin vmax width bytes_of wr acc_u32le]. intros TAS b v o Hv _ Ho Hb Hlen.
    window b o 4%nat. unfold writeUInt32LE. enter_write.
    rewrite splice_split; [|done]. do 2 f_equal.
    destruct TAS; [exact (proj1 (typed32 _ _ _ _ _ _ _))|apply object32_spec; lia].
  - cbn [vmin vmax width bytes_of rd acc_u32le]. intros pre post v Hv _ Hp.
    unfold readUInt32LE. enter_read (le_bytes 4 v). rewrite le_bytes4. cells.
    rewrite jor3; [|apply byte_mod..]. rebuild.
Qed.

#[export] Instance acc_u32be_ok : AccessorOk acc_u32be.
Proof.
  split; [apply be_bytes_ok| | |bounds_law].
  - cbn [vmin vmax width bytes_of wr acc_u32be]. intros TAS b v o Hv _ Ho Hb Hlen.
    window b o 4%nat. unfold writeUInt32BE. enter_write.
    rewrite splice_split; [|done]. by rewrite put32BE_spec; [|lia].
  - cbn [vmin vmax width bytes_of rd acc_u32be]. intros pre post v Hv _ Hp.
    unfold readUInt32BE. enter_read (be_bytes 4 v). rewrite be_bytes4. cells.
    rewrite jor3be; [|apply byte_mod..]. rebuild.
Qed.

Lemma int32_rebuild v :
  -2147483648 <= v <= 2147483647 →
  to_int32 (v mod 256 + 256 * (v / 256 ^ 1 mod 256) + 65536 * (v / 256 ^ 2 mod 256)
            + 16777216 * (v / 256 ^ 3 mod 256)) = v.
Proof.
  intros Hv. pose proof (le_value_bytes 4 v) as H. rewrite le_bytes4 in H.
  cbn [le_value] in H. change (256 ^ Z.of_nat 4) with 4294967296 in H.
  match goal with |- to_int32 ?x = _ => replace x with (v mod 4294967296) by lia end.
  unfold to_int32. zdm.
Qed.

#[export] Instance acc_i32le_ok : AccessorOk acc_i32le.
Proof.
  split; [apply le_bytes_ok| | |bounds_law].
  - cbn [vmin vmax width bytes_of wr acc_i32le]. intros TAS b v o Hv _ Ho Hb Hlen.
    window b o 4%nat. unfold writeInt32LE. enter_write.
    rewrite splice_split; [|done]. do 2 f_equal.
    destruct TAS; [exact (proj1 (proj2 (typed32 _ _ _ _ _ _ _)))|apply object32_spec; lia].
  - cbn [vmin vmax width bytes_of rd acc_i32le]. intros pre post v Hv _ Hp.
    unfold readInt32LE. enter_read (le_bytes 4 v). rewrite le_bytes4. cells.
    rewrite jor4le; [|apply byte_mod..]. by rewrite int32_rebuild.
Qed.

Lemma be_bytes4_wrap v :
  be_bytes 4 (if v <? 0 then 4294967295 + v + 1 else v) = be_bytes 4 v.
Proof.
  destruct (v <? 0); [|done]. rewrite !be_bytes4.
  replace (4294967295 + v + 1) with (v + 1 * 4294967296) by lia.
  rewrite !mod_wrap; [|lia..]. list_eq zdm.
Qed.

#[export] Instance acc_i32be_ok : AccessorOk acc_i32be.
Proof.
  split; [apply be_bytes_ok| | |bounds_law].
  - cbn [vmin vmax width bytes_of wr acc_i32be]. intros TAS b v o Hv _ Ho Hb Hlen.
    window b o 4%nat. unfold writeInt32BE. enter_write.
    rewrite splice_split; [|done]. rewrite put32BE_spec.
    + by rewrite be_bytes4_wrap.
    + destruct (Z.ltb_spec v 0); lia.
  - cbn [vmin vmax width bytes_of rd acc_i32be]. intros pre post v Hv _ Hp.
    unfold readInt32BE. enter_read (be_bytes 4 v). rewrite be_bytes4. cells.
    rewrite jor4be; [|apply byte_mod..]. by rewrite int32_rebuild.
Qed.

(** ** Variable widths *)

Lemma loop_bytes_le TAS v m n :
  0 <= v → 0 < m →
  loop_bytes TAS (λ mul, jand (Z.quot v mul) 255) m n = le_bytes n (v / m / 256).
Proof.
  intros Hv. revert m. induction n as [|n IH]; intros m Hm; cbn [loop_bytes le_bytes]; [done|].
  rewrite IH; [|lia]. rewrite jand_255 Z.quot_div_nonneg; [|lia..].
  rewrite !Z.div_div; [|lia..]. f_equal.
  unfold norm. destruct TAS; [|done]. apply Z.mod_mod. lia.
Qed.

Lemma norm_jand TAS v : norm TAS (jand v 255) = v mod 256.
Proof. rewrite jand_255. destruct TAS; [|done]. cbn. apply Z.mod_mod. lia. Qed.

Lemma pow_256 n : 2 ^ (8 * Z.of_nat n) = 256 ^ Z.of_nat n.
Proof. rewrite Z.pow_mul_r; [done|lia|lia]. Qed.

(** The upward loop is one splice of little-endian bytes. *)
Lemma acc_ule_ok n : (1 <= n <= 6)%nat → AccessorOk (acc_ule n).
Proof.
  intros Hn. split; [apply le_bytes_ok| | |].
  - cbn [vmin vmax width bytes_of wr acc_ule]. intros TAS b v o Hv _ Ho Hb Hlen.
    destruct (split_at b o n) as (pre & bs & post & -> & <- & Hl); [lia..|].
    unfold writeUIntLE. rewrite !to_int32_small; [|lia..]. cbn [unless].
    rewrite checkInt_ok; [|rewrite pow_256; lia|lia]. cbn [mbind res_bind].
    rewrite splice_split; [|by rewrite length_le_bytes].
    destruct bs as [|x bs]; cbn in Hl; [lia|]. subst n.
    rewrite store_split0; [|cbn; lia]. cbn [insert list_insert app].
    rewrite norm_jand. replace (Z.to_nat _) with (length bs) by lia.
    rewrite write_loop_up loop_bytes_le; [|lia..]. rewrite Z.div_1_r. done.
  - cbn [vmin vmax width bytes_of rd acc_ule]. intros pre post v Hv _ Hp.
    destruct n as [|n]; [lia|]. unfold readUIntLE.
    rewrite !to_int32_small; [|pose proof (blen_nonneg pre); lia..]. cbn [unless].
    replace (Z.of_nat (S n)) with (blen (le_bytes (S n) v)) at 1
      by (unfold blen; rewrite length_le_bytes; lia).
    rewrite read_check. cbn [mbind res_bind].
    rewrite cell_split0; [|cbn; lia]. change (le_bytes (S n) v !! 0%nat) with (Some (v mod 256)).
    replace (Z.to_nat _) with (length (le_bytes n (v / 256))) by (rewrite length_le_bytes; lia).
    rewrite read_up_spec; [cbn [fst]|].
    + rewrite le_value_bytes. rewrite Nat2Z.inj_succ Z.pow_succ_r in Hv; [|lia].
      rewrite (Z.mod_small (v / 256)); [do 2 f_equal; clear; zdm|].
      split; [apply Z.div_pos; lia|]. apply Z.div_lt_upper_bound; lia.
    + intros k Hk. rewrite length_le_bytes in Hk.
      pose proof (cell_split pre (le_bytes (S n) v) post (S k)) as Hc.
      rewrite length_le_bytes in Hc. specialize (Hc ltac:(lia)).
      change (le_bytes (S n) v !! S k) with (le_bytes n (v / 256) !! k) in Hc.
      rewrite -Hc. f_equal. lia.
  - cbn [width rd acc_ule]. intros b o Ho H. unfold readUIntLE.
    rewrite !to_int32_small; [|lia..]. cbn [unless].
    destruct (checkOffset_throw o (Z.of_nat n) (blen b)) as [? ->]; [lia|]. cbn. eauto.
Qed.

Lemma be_bytes_S n v : be_bytes (S n) v = be_bytes n (v / 256) ++ [v mod 256].
Proof. done. Qed.

Lemma acc_ube_ok n : (1 <= n <= 6)%nat → AccessorOk (acc_ube n).
Proof.
  intros Hn. split; [apply be_bytes_ok| | |].
  - cbn [vmin vmax width bytes_of wr acc_ube]. intros TAS b v o Hv _ Ho Hb Hlen.
    destruct (split_at b o n) as (pre & bs & post & -> & <- & Hl); [lia..|].
    unfold writeUIntBE. rewrite !to_int32_small; [|lia..]. cbn [unless].
    rewrite checkInt_ok; [|rewrite pow_256; lia|lia]. cbn [mbind res_bind].
    rewrite splice_split; [|unfold be_bytes; by rewrite length_rev length_le_bytes].
    destruct n as [|n]; [lia|]. destruct bs as [|y bs _] using rev_ind; [done|].
    rewrite length_app Nat.add_comm in Hl. injection Hl as Hl.
    rewrite be_bytes_S -!app_assoc. cbn [app].
    replace (Z.of_nat (S n) - 1) with (blen bs) by (unfold blen; lia).
    rewrite -blen_app app_assoc.
    rewrite (store_split0 TAS (pre ++ bs) [y] post); [|cbn; lia].
    cbn [insert list_insert app]. rewrite norm_jand -app_assoc blen_app.
    replace (Z.to_nat (blen bs)) with (length bs) by (unfold blen; lia).
    rewrite write_loop_down loop_bytes_le; [|lia..].
    by rewrite Z.div_1_r Hl.
  - cbn [vmin vmax width bytes_of rd acc_ube]. intros pre post v Hv _ Hp.
    destruct n as [|n]; [lia|]. unfold readUIntBE.
    rewrite !to_int32_small; [|pose proof (blen_nonneg pre); lia..]. cbn [unless].
    replace (checkOffset _ _ _) with (Ok ()).
    2: { rewrite -(read_check pre (be_bytes (S n) v) post). f_equal. unfold blen.
         rewrite (proj1 (be_bytes_ok (S n) v)). done. }
    cbn [mbind res_bind].
    replace (Z.of_nat (S n) - 1) with (Z.of_nat n) by lia. rewrite Nat2Z.id.
    rewrite cell_split; [|rewrite (proj1 (be_bytes_ok (S n) v)); lia].
    rewrite be_bytes_S lookup_app_r; [|rewrite (proj1 (be_bytes_ok n _)); lia].
    rewrite (proj1 (be_bytes_ok n _)) Nat.sub_diag.
    change ([v mod 256] !! 0%nat) with (Some (v mod 256)).
    rewrite -{2}(proj1 (be_bytes_ok n (v / 256))).
    rewrite read_down_spec; [cbn [fst]|].
    + unfold be_value, be_bytes. rewrite rev_involutive le_value_bytes.
      rewrite Nat2Z.inj_succ Z.pow_succ_r in Hv; [|lia].
      rewrite (Z.mod_small (v / 256)); [do 2 f_equal; clear; zdm|].
      split; [apply Z.div_pos; lia|]. apply Z.div_lt_upper_bound; lia.
    + intros k Hk. rewrite cell_split; [|rewrite length_app; lia].
      by rewrite lookup_app_l.
  - cbn [width rd acc_ube]. intros b o Ho H. unfold readUIntBE.
    rewrite !to_int32_small; [|lia..]. cbn [unless].
    destruct (checkOffset_throw o (Z.of_nat n) (blen b)) as [? ->]; [lia|]. cbn. eauto.
Qed.

(** ** The signed variable-width accessors *)

Lemma int_byte_spec v m :
  0 < m → -140737488355328 <= v < 140737488355328 → (0 <= v ∨ v mod m ≠ 0) →
  int_byte v m = v / m mod 256.
Proof.
  intros Hm Hv Hd. unfold int_byte. rewrite jand_255. unfold jshr. rewrite Z.shiftr_0_r.
  assert (∀ q s, (to_int32 q - s) mod 256 = (q - s) mod 256) as Hq.
  { intros q s. rewrite Zminus_mod (to_int32_mod_pow q 8); [|lia].
    change (2 ^ 8) with 256. by rewrite -Zminus_mod. }
  rewrite Hq. f_equal. destruct (Z.ltb_spec v 0).
  - destruct Hd as [?|Hd]; [lia|].
    rewrite -{1}(Z.opp_involutive v) Z.quot_opp_l; [|lia].
    rewrite Z.quot_div_nonneg; [|lia..]. rewrite Z.div_opp_l_nz; [|lia|done]. lia.
  - rewrite Z.quot_div_nonneg; lia.
Qed.

Lemma mod_mul_nz v m : 0 < m → v mod 256 ≠ 0 → v mod (m * 256) ≠ 0.
Proof.
  intros Hm Hv H. apply Hv. rewrite Z.mul_comm in H.
  apply Z.mod_divide in H; [|lia]. apply Z.mod_divide; [lia|].
  destruct H as [k ->]. exists (k * m). lia.
Qed.

Lemma loop_bytes_int TAS v m n :
  0 < m → -140737488355328 <= v < 140737488355328 → (0 <= v ∨ v mod 256 ≠ 0) →
  loop_bytes TAS (int_byte v) m n = le_bytes n (v / m / 256).
Proof.
  intros Hm Hv Hd. revert m Hm. induction n as [|n IH]; intros m Hm; cbn [loop_bytes le_bytes]; [done|].
  rewrite int_byte_spec; [|lia|done|destruct Hd; [by left|right; by apply mod_mul_nz]].
  rewrite IH; [|lia]. rewrite !Z.div_div; [|lia..]. f_equal.
  unfold norm. destruct TAS; [|done]. apply Z.mod_mod. lia.
Qed.

(** [writeIntLE] stores the two's complement bytes of a value that is not
    negative or not a multiple of 256. *)
Lemma writeIntLE_spec TAS n b v o :
  (1 <= n <= 6)%nat → - 2 ^ (8 * Z.of_nat n - 1) <= v < 2 ^ (8 * Z.of_nat n - 1) →
  (0 <= v ∨ v mod 256 ≠ 0) → 0 <= o → o + Z.of_nat n <= blen b → blen b < 2147483648 →
  writeIntLE TAS b v o (Z.of_nat n) false
  = Ok (splice b o (le_bytes n v), o + Z.of_nat n).
Proof.
  intros Hn Hv Hd Ho Hb Hlen.
  destruct (split_at b o n) as (pre & bs & post & -> & <- & Hl); [lia..|].
  unfold writeIntLE. rewrite to_int32_small; [|lia]. cbn [unless].
  rewrite checkInt_ok; [|lia..]. cbn [mbind res_bind].
  rewrite splice_split; [|by rewrite length_le_bytes].
  destruct bs as [|x bs]; cbn in Hl; [lia|]. subst n.
  rewrite store_split0; [|cbn; lia]. cbn [insert list_insert app].
  rewrite norm_jand. replace (Z.to_nat _) with (length bs) by lia.
  rewrite write_loop_up loop_bytes_int; [|lia| |done].
  - by rewrite Z.div_1_r.
  - assert (2 ^ (8 * Z.of_nat (S (length bs)) - 1) <= 2 ^ 47) by (apply Z.pow_le_mono_r; lia). lia.
Qed.

Lemma signed_mod n v :
  (1 <= n)%nat → - 2 ^ (8 * Z.of_nat n - 1) <= v < 2 ^ (8 * Z.of_nat n - 1) →
  (if 256 ^ Z.of_nat (n - 1) * 128 <=? v mod 256 ^ Z.of_nat n
   then v mod 256 ^ Z.of_nat n - 256 ^ Z.of_nat n else v mod 256 ^ Z.of_nat n) = v.
Proof.
  intros Hn Hv.
  assert (2 ^ (8 * Z.of_nat n - 1) = 256 ^ Z.of_nat (n - 1) * 128) as Hp.
  { replace (8 * Z.of_nat n - 1) with (8 * Z.of_nat (n - 1) + 7) by lia.
    rewrite Z.pow_add_r; [|lia..]. by rewrite pow_256. }
  assert (256 ^ Z.of_nat n = 2 * (256 ^ Z.of_nat (n - 1) * 128)) as Hq.
  { replace n with (S (n - 1)) at 1 by lia. rewrite Nat2Z.inj_succ Z.pow_succ_r; lia. }
  rewrite Hp in Hv. rewrite Hq. set (h := 256 ^ Z.of_nat (n - 1) * 128) in *.
  assert (0 < h) by (unfold h; pose proof (pow256_pos (n - 1)); lia).
  destruct (Z.lt_ge_cases v 0).
  - rewrite -(Z_mod_plus_full v 1 (2 * h)) (Z.mod_small (v + 1 * (2 * h))); [|lia].
    destruct (Z.leb_spec h (v + 1 * (2 * h))); lia.
  - rewrite Z.mod_small; [|lia]. destruct (Z.leb_spec h v); lia.
Qed.

(** Reading the two's complement bytes of a value gives the value. *)
Lemma readIntLE_bytes n pre post v :
  (1 <= n <= 6)%nat → - 2 ^ (8 * Z.of_nat n - 1) <= v < 2 ^ (8 * Z.of_nat n - 1) →
  blen pre < 2147483648 →
  readIntLE (pre ++ le_bytes n v ++ post) (blen pre) (Z.of_nat n) false = Ok (Some v).
Proof.
  intros Hn Hv Hp. destruct n as [|n]; [lia|]. unfold readIntLE.
  rewrite !to_int32_small; [|pose proof (blen_nonneg pre); lia..]. cbn [unless].
  replace (checkOffset _ _ _) with (Ok ()).
  2: { rewrite -(read_check pre (le_bytes (S n) v) post). f_equal. unfold blen.
       by rewrite length_le_bytes. }
  cbn [mbind res_bind].
  rewrite cell_split0; [|cbn; lia]. change (le_bytes (S n) v !! 0%nat) with (Some (v mod 256)).
  replace (Z.to_nat _) with (length (le_bytes n (v / 256))) by (rewrite length_le_bytes; lia).
  rewrite read_up_spec.
  - rewrite length_le_bytes !Z.mul_1_l. unfold sign_adjust. cbn [mbind option_bind].
    pose proof (le_value_bytes (S n) v) as H. cbn [le_bytes le_value] in H. rewrite H pow_256.
    pose proof (signed_mod (S n) v ltac:(lia) Hv) as Hs. cbn [Nat.sub] in Hs.
    rewrite Nat.sub_0_r in Hs. by rewrite Hs.
  - intros k Hk. rewrite length_le_bytes in Hk.
    pose proof (cell_split pre (le_bytes (S n) v) post (S k)) as Hc.
    rewrite length_le_bytes in Hc. specialize (Hc ltac:(lia)).
    change (le_bytes (S n) v !! S k) with (le_bytes n (v / 256) !! k) in Hc.
    rewrite -Hc. f_equal. lia.
Qed.

Lemma writeIntBE_spec TAS n b v o :
  (1 <= n <= 6)%nat → - 2 ^ (8 * Z.of_nat n - 1) <= v < 2 ^ (8 * Z.of_nat n - 1) →
  (0 <= v ∨ v mod 256 ≠ 0) → 0 <= o → o + Z.of_nat n <= blen b → blen b < 2147483648 →
  writeIntBE TAS b v o (Z.of_nat n) false
  = Ok (splice b o (be_bytes n v), o + Z.of_nat n).
Proof.
  intros Hn Hv Hd Ho Hb Hlen.
  destruct (split_at b o n) as (pre & bs & post & -> & <- & Hl); [lia..|].
  unfold writeIntBE. rewrite to_int32_small; [|lia]. cbn [unless].
  rewrite checkInt_ok; [|lia..]. cbn [mbind res_bind].
  rewrite splice_split; [|unfold be_bytes; by rewrite length_rev length_le_bytes].
  assert (2 ^ (8 * Z.of_nat n - 1) <= 2 ^ 47) by (apply Z.pow_le_mono_r; lia).
  destruct n as [|n]; [lia|]. destruct bs as [|y bs _] using rev_ind; [done|].
  rewrite length_app Nat.add_comm in Hl. injection Hl as Hl.
  rewrite be_bytes_S -!app_assoc. cbn [app].
  replace (Z.of_nat (S n) - 1) with (blen bs) by (unfold blen; lia).
  rewrite -blen_app app_assoc.
  rewrite (store_split0 TAS (pre ++ bs) [y] post); [|cbn; lia].
  cbn [insert list_insert app]. rewrite norm_jand -app_assoc blen_app.
  replace (Z.to_nat (blen bs)) with (length bs) by (unfold blen; lia).
  rewrite write_loop_down loop_bytes_int; [|lia..|done].
  by rewrite Z.div_1_r Hl.
Qed.

Lemma readIntBE_bytes n pre post v :
  (1 <= n <= 6)%nat → - 2 ^ (8 * Z.of_nat n - 1) <= v < 2 ^ (8 * Z.of_nat n - 1) →
  blen pre < 2147483648 →
  readIntBE (pre ++ be_bytes n v ++ post) (blen pre) (Z.of_nat n) false = Ok (Some v).
Proof.
  intros Hn Hv Hp. destruct n as [|n]; [lia|]. unfold readIntBE.
  rewrite !to_int32_small; [|pose proof (blen_nonneg pre); lia..]. cbn [unless].
  replace (checkOffset _ _ _) with (Ok ()).
  2: { rewrite -(read_check pre (be_bytes (S n) v) post). f_equal. unfold blen.
       rewrite (proj1 (be_bytes_ok (S n) v)). done. }
  cbn [mbind res_bind].
  replace (Z.of_nat (S n) - 1) with (Z.of_nat n) by lia. rewrite Nat2Z.id.
  rewrite cell_split; [|rewrite (proj1 (be_bytes_ok (S n) v)); lia].
  rewrite be_bytes_S lookup_app_r; [|rewrite (proj1 (be_bytes_ok n _)); lia].
  rewrite (proj1 (be_bytes_ok n _)) Nat.sub_diag.
  change ([v mod 256] !! 0%nat) with (Some (v mod 256)).
  rewrite -{2}(proj1 (be_bytes_ok n (v / 256))).
  rewrite read_down_spec.
  - rewrite (proj1 (be_bytes_ok n _)) !Z.mul_1_l. unfold sign_adjust. cbn [mbind option_bind].
    unfold be_value, be_bytes. rewrite rev_involutive.
    pose proof (le_value_bytes (S n) v) as H. cbn [le_bytes le_value] in H. rewrite H pow_256.
    pose proof (signed_mod (S n) v ltac:(lia) Hv) as Hs. cbn [Nat.sub] in Hs.
    rewrite Nat.sub_0_r in Hs. by rewrite Hs.
  - intros k Hk. rewrite cell_split; [|rewrite length_app; lia].
    by rewrite lookup_app_l.
Qed.

Lemma acc_ile_ok n : (1 <= n <= 6)%nat → AccessorOk (acc_ile n).
Proof.
  intros Hn. split; [apply le_bytes_ok| | |]; cbn [vmin vmax exact width bytes_of wr rd acc_ile].
  - intros TAS b v o Hv. apply writeIntLE_spec; [done|lia].
  - intros pre post v Hv _. apply readIntLE_bytes; [done|lia].
  - intros b o Ho H. unfold readIntLE. rewrite !to_int32_small; [|lia..]. cbn [unless].
    destruct (checkOffset_throw o (Z.of_nat n) (blen b)) as [? ->]; [lia|]. cbn. eauto.
Qed.

Lemma acc_ibe_ok n : (1 <= n <= 6)%nat → AccessorOk (acc_ibe n).
Proof.
  intros Hn. split; [apply be_bytes_ok| | |]; cbn [vmin vmax exact width bytes_of wr rd acc_ibe].
  - intros TAS b v o Hv. apply writeIntBE_spec; [done|lia].
  - intros pre post v Hv _. apply readIntBE_bytes; [done|lia].
  - intros b o Ho H. unfold readIntBE. rewrite !to_int32_small; [|lia..]. cbn [unless].
    destruct (checkOffset_throw o (Z.of_nat n) (blen b)) as [? ->]; [lia|]. cbn. eauto.
Qed.

Lemma accessor_ok a : a ∈ buffer_accessors → AccessorOk a.
Proof.
  unfold buffer_accessors. rewrite !elem_of_app.
  intros [H|[H|[H|[H|H]]]].
  - unfold fixed_accessors in H. rewrite !elem_of_cons elem_of_nil in H.
    destruct_or!; subst; try apply _; done.
  - apply list_elem_of_fmap in H as (n & -> & Hn%elem_of_seq). apply acc_ule_ok. lia.
  - apply list_elem_of_fmap in H as (n & -> & Hn%elem_of_seq). apply acc_ube_ok. lia.
  - apply list_elem_of_fmap in H as (n & -> & Hn%elem_of_seq). apply acc_ile_ok. lia.
  - apply list_elem_of_fmap in H as (n & -> & Hn%elem_of_seq). apply acc_ibe_ok. lia.
Qed.

Ltac strict_law W :=
  let H := fresh "H" in
  split; cbn [vmin vmax width wr acc_u8 acc_u16le acc_u16be acc_u32le acc_u32be
              acc_i8 acc_i16le acc_i16be acc_i32le acc_i32be];
  intros TAS b v o Ho H; unfold W;
  rewrite (to_int32_small o); [|lia]; cbn [unless];
  match goal with |- context [checkInt b v o ?n ?mx ?mn] =>
    destruct (checkInt_throw b v o n mx mn) as [? ->]; [lia|]
  end; cbn; eauto.

Lemma accessor_strict a : a ∈ fixed_accessors → AccessorStrict a.
Proof.
  unfold fixed_accessors. rewrite !elem_of_cons elem_of_nil.
  intros H; destruct_or!; subst; try done.
  - strict_law writeUInt8.
  - strict_law writeUInt16LE.
  - strict_law writeUInt16BE.
  - strict_law writeUInt32LE.
  - strict_law writeUInt32BE.
  - strict_law writeInt8.
  - strict_law writeInt16LE.
  - strict_law writeInt16BE.
  - strict_law writeInt32LE.
  - strict_law writeInt32BE.
Qed.

(** ** Properties of every accessor pair *)

(** In-bounds writes of an allowed value. *)
Definition in_bounds (a : accessor) (b : buffer) (o : Z) : Prop :=
  0 <= o ∧ o + Z.of_nat (width a) <= blen b ∧ blen b < 2147483648.

Lemma splice_at a `{!AccessorOk a} b o v :
  in_bounds a b o → ∃ pre post, blen pre = o ∧
    splice b o (bytes_of a v) = pre ++ bytes_of a v ++ post ∧
    ∃ old, length old = width a ∧ b = pre ++ old ++ post.
Proof.
  intros (Ho & Hn & Hl).
  destruct (split_at b o (width a)) as (pre & bs & post & -> & <- & Hbs); [lia..|].
  exists pre, post. split; [done|]. split; [|eauto].
  apply splice_split. rewrite (proj1 (ok_bytes v)). done.
Qed.

(** (C32) Writing with one of the integer writers, the fixed-width ones and
    those of one to six bytes, signed and unsigned and in both byte orders,
    succeeds at an offset from which the bytes fit, for every value of the range
    except, for the signed writers of a variable width, the negative multiples
    of 256; it returns the offset after the bytes, and the reader of the same
    name at the same offset gives the value back. Both for typed arrays and for
    the fallback object. The negative multiples of 256 do not read back
    ([writeIntLE_negative_multiple]). *)
Theorem buffer_read_back a TAS b v o :
  a ∈ buffer_accessors → vmin a <= v <= vmax a → exact a v → in_bounds a b o →
  ∃ b', wr a TAS b v o false = Ok (b', o + Z.of_nat (width a)) ∧
        rd a b' o false = Ok (Some v).
Proof.
  intros Ha Hv He Hb. pose proof (accessor_ok a Ha).
  exists (splice b o (bytes_of a v)). split; [destruct Hb as (? & ? & ?); by apply ok_write|].
  destruct (splice_at a b o v Hb) as (pre & post & <- & -> & _).
  apply ok_read; [done..|]. destruct Hb as (? & ? & ?). lia.
Qed.

Lemma buffer_read_back_witness : ∃ b', wr (acc_ibe 3) true [1; 2; 3; 4] (-515) 1 false = Ok (b', 4) ∧
  rd (acc_ibe 3) b' 1 false = Ok (Some (-515)).
Proof.
  apply (buffer_read_back (acc_ibe 3) true [1; 2; 3; 4] (-515) 1).
  - unfold buffer_accessors. rewrite !elem_of_app. do 4 right. right; right; left.
  - vm_compute; split; discriminate.
  - right. vm_compute. discriminate.
  - unfold in_bounds, blen. cbn [length width acc_ibe]. lia.
Defined.

(** A write keeps the length, every byte outside its window, and the byte
    invariant. *)
Theorem buffer_write_frame a TAS b v o :
  a ∈ buffer_accessors → vmin a <= v <= vmax a → exact a v → in_bounds a b o → wf_buffer b →
  ∃ b', wr a TAS b v o false = Ok (b', o + Z.of_nat (width a)) ∧
        length b' = length b ∧ wf_buffer b' ∧
        ∀ i, i < o ∨ o + Z.of_nat (width a) <= i → cell b' i = cell b i.
Proof.
  intros Ha Hv He Hb Hwf. pose proof (accessor_ok a Ha).
  exists (splice b o (bytes_of a v)). split; [destruct Hb as (? & ? & ?); by apply ok_write|].
  destruct (splice_at a b o v Hb) as (pre & post & <- & -> & old & Hold & ->).
  destruct (ok_bytes v) as [Hlen Hbytes].
  split; [rewrite !length_app; lia|]. split.
  { unfold wf_buffer in *. rewrite !Forall_app in Hwf |- *. naive_solver. }
  intros i Hi. unfold cell. rewrite !blen_app.
  replace (blen (bytes_of a v)) with (blen old) by (unfold blen; lia).
  destruct (_ && _) eqn:E; [|done].
  apply andb_true_iff in E as [E1 E2]. apply Z.leb_le in E1. apply Z.ltb_lt in E2.
  unfold blen in *. destruct Hi as [Hi|Hi].
  - rewrite !lookup_app_l; [done|lia..].
  - rewrite !(app_assoc pre) !lookup_app_r ?length_app; [f_equal; lia|lia..].
Qed.

Lemma buffer_write_frame_witness : ∃ b', wr acc_u16le true [1; 2; 3] 515 1 false = Ok (b', 3) ∧
  length b' = 3%nat ∧ wf_buffer b' ∧ ∀ i, i < 1 ∨ 3 <= i → cell b' i = cell [1; 2; 3] i.
Proof.
  apply (buffer_write_frame acc_u16le true [1; 2; 3] 515 1);
    [right; left|vm_compute; split; discriminate|done| |apply byte_check; reflexivity].
  unfold in_bounds, blen. cbn [length width acc_u16le]. lia.
Defined.

(** No reader leaves the buffer: outside its bounds it throws. *)
Theorem buffer_read_bounds a b o :
  a ∈ buffer_accessors → -2147483648 <= o < 2147483648 →
  o < 0 ∨ blen b < o + Z.of_nat (width a) →
  ∃ m, rd a b o false = Throw (RangeError m).
Proof. intros Ha. pose proof (accessor_ok a Ha). apply ok_read_bounds. Qed.

Lemma buffer_read_bounds_witness : ∃ m, rd acc_u16le [1; 2; 3] 2 false = Throw (RangeError m).
Proof.
  apply (buffer_read_bounds acc_u16le [1; 2; 3] 2); [right; left|lia|]. right. vm_compute. reflexivity.
Defined.

(** The fixed-width writers refuse every value or position that does not
    fit. *)
Theorem buffer_write_rejects a TAS b v o :
  a ∈ fixed_accessors → -2147483648 <= o < 2147483648 →
  v < vmin a ∨ vmax a < v ∨ blen b < o + Z.of_nat (width a) →
  ∃ m, wr a TAS b v o false = Throw (RangeError m).
Proof. intros Ha. pose proof (accessor_strict a Ha). apply strict_write. Qed.

Lemma buffer_write_rejects_witness : ∃ m, wr acc_u16le true [1; 2; 3] 65536 0 false = Throw (RangeError m).
Proof.
  apply (buffer_write_rejects acc_u16le true [1; 2; 3] 65536 0); [right; left|lia|].
  right; left. vm_compute. reflexivity.
Defined.

(** ** Where the range checks and the borrow go wrong *)

(** For a negative multiple of 256 the borrow is subtracted once too
    often: writing [-256 k] in two bytes stores, and reads back as, [-256 (k+1)]. *)
Theorem writeIntLE_negative_multiple TAS pre x y post k :
  1 <= k <= 127 → blen (pre ++ [x; y] ++ post) < 2147483648 →
  writeIntLE TAS (pre ++ [x; y] ++ post) (-256 * k) (blen pre) 2 false
    = Ok (pre ++ le_bytes 2 (-256 * (k + 1)) ++ post, blen pre + 2) ∧
  readIntLE (pre ++ le_bytes 2 (-256 * (k + 1)) ++ post) (blen pre) 2 false
    = Ok (Some (-256 * (k + 1))).
Proof.
  intros Hk Hlen. pose proof (blen_nonneg pre). pose proof (blen_nonneg post).
  rewrite !blen_app in Hlen. change (blen [x; y]) with 2 in Hlen. split.
  - unfold writeIntLE. rewrite to_int32_small; [|lia]. cbn [unless].
    rewrite checkInt_ok; [|change (2 ^ (8 * 2 - 1)) with 32768; lia|].
    2: { rewrite !blen_app. change (blen [x; y]) with 2. lia. }
    cbn [mbind res_bind].
    rewrite store_split0; [|cbn; lia]. cbn [insert list_insert app].
    pose proof (write_loop_up TAS (int_byte (-256 * k)) pre (norm TAS (jand (-256 * k) 255)) [y] post 1) as Hw.
    cbn [app length] in Hw. change (Z.to_nat (2 - 1)) with 1%nat. rewrite Hw. clear Hw.
    assert (int_byte (-256 * k) (1 * 256) = (-256 * (k + 1)) / 256 ^ 1 mod 256) as Hb.
    { unfold int_byte, jshr. rewrite Z.shiftr_0_r jand_255.
      replace (-256 * k) with (- k * 256) by lia. rewrite Z.mul_1_l Z.quot_mul; [|lia].
      replace (- k * 256 <? 0) with true by (symmetry; apply Z.ltb_lt; lia).
      rewrite to_int32_small; [|lia]. cbn. zdm. }
    cbn [loop_bytes]. rewrite norm_jand le_bytes2 Hb. cbn [app].
    assert ((-256 * k) mod 256 = (-256 * (k + 1)) mod 256) as -> by zdm.
    unfold norm. by destruct TAS; rewrite ?Z.mod_mod.
  - apply (readIntLE_bytes 2); cbn; lia.
Qed.

(** The unsigned variable-width writer's range check is off by one: it
    accepts [256 ^ n] and stores zeros. *)
Theorem writeUIntLE_overflow TAS n b o :
  (1 <= n <= 6)%nat → 0 <= o → o + Z.of_nat n <= blen b → blen b < 2147483648 →
  writeUIntLE TAS b (256 ^ Z.of_nat n) o (Z.of_nat n) false
  = Ok (splice b o (replicate n 0), o + Z.of_nat n).
Proof.
  intros Hn Ho Hb Hlen.
  assert (le_bytes n (256 ^ Z.of_nat n) = replicate n 0) as Hz.
  { clear. induction n as [|n IH]; [done|]. cbn [le_bytes replicate].
    rewrite Nat2Z.inj_succ Z.pow_succ_r; [|lia]. rewrite (Z.mul_comm 256).
    by rewrite Z.mod_mul ?Z.div_mul ?IH. }
  rewrite -Hz.
  destruct (split_at b o n) as (pre & bs & post & -> & <- & Hl); [lia..|].
  pose proof (pow256_pos n).
  unfold writeUIntLE. rewrite !to_int32_small; [|lia..]. cbn [unless].
  rewrite checkInt_ok; [|rewrite pow_256; lia|lia]. cbn [mbind res_bind].
  rewrite splice_split; [|by rewrite length_le_bytes].
  destruct bs as [|x bs]; cbn in Hl; [lia|]. subst n.
  rewrite store_split0; [|cbn; lia]. cbn [insert list_insert app].
  rewrite norm_jand. replace (Z.to_nat _) with (length bs) by lia.
  rewrite write_loop_up loop_bytes_le; [|lia..]. by rewrite Z.div_1_r.
Qed.
