(* ===== verification/BufferText.v ===== *)
(** * Buffer: text encodings

    The converters between strings and bytes of the [buffer] module: UTF-8 with
    its surrogate handling and unit budget, ASCII/binary, hex, UTF-16LE and
    base64. *)

From S2P Require Import Prelude Int32 Uri Base64 BufferCore.

(** ** UTF-8 from a string *)

(** The budget [units]: [None] is [Infinity]. *)
Definition spend (units : option Z) (n : Z) : option Z := u ← units; Some (u - n).
Definition over (units : option Z) : bool :=
  match units with Some u => u <? 0 | None => false end.

(** [if ((units -= 3) > -1) bytes.push(0xEF, 0xBF, 0xBD)] *)
Definition replacement (units : option Z) : list Z :=
  if over units then [] else [239; 191; 189].

(** The branch that pushes the bytes of a code point: their count, then them. *)
Definition utf8_push (cp : Z) : res (Z * list Z) :=
  if cp <? 128 then Ok (1, [cp])
  else if cp <? 2048 then Ok (2, [jor (jshr cp 6) 192; jor (jand cp 63) 128])
  else if cp <? 65536 then
    Ok (3, [jor (jshr cp 12) 224; jor (jand (jshr cp 6) 63) 128; jor (jand cp 63) 128])
  else if cp <? 1114112 then
    Ok (4, [jor (jshr cp 18) 240; jor (jand (jshr cp 12) 63) 128;
            jor (jand (jshr cp 6) 63) 128; jor (jand cp 63) 128])
  else Throw (JsError #"Invalid code point").

(** [leadSurrogate - 0xD800 << 10 | codePoint - 0xDC00 | 0x10000] *)
Definition join_surrogates (lead cp : Z) : Z :=
  jor (jor (jshl (lead - 55296) 10) (cp - 56320)) 65536.

(** The loop over the units of the string. *)
Fixpoint utf8_loop (string : jstr) (units lead : option Z) : res (list Z) :=
  match string with
  | [] => Ok []
  | c :: t =>
      let encode cp units :=
        '(n, bytes) ← utf8_push cp;
        let units := spend units n in
        if over units then Ok [] else app bytes <$> utf8_loop t units None in
      if (55295 <? c) && (c <? 57344) then
        match lead with
        | None =>
            if (56319 <? c) || match t with [] => true | _ => false end
            then let units := spend units 3 in
                 app (replacement units) <$> utf8_loop t units None
            else utf8_loop t units (Some c)
        | Some l =>
            if c <? 56320
            then let units := spend units 3 in
                 app (replacement units) <$> utf8_loop t units (Some c)
            else encode (join_surrogates l c) units
        end
      else
        match lead with
        | Some _ => let units := spend units 3 in
                    app (replacement units) <$> encode c units
        | None => encode c units
        end
  end.

Definition utf8ToBytes (string : jstr) (units : option Z) : res (list Z) :=
  utf8_loop string (u ← units; if u =? 0 then None else Some u) None.

(** ** UTF-8 to a string *)

Definition is_cont (b : Z) : bool := jand b 192 =? 128.

(** The code point at [i], if the bytes there are a well-formed sequence that
    ends by [end_], and the length of the sequence. *)
Definition utf8_at (b : buffer) (i end_ : Z) : option Z * Z :=
  let firstByte := bits (cell b i) in
  let n := if 239 <? firstByte then 4 else if 223 <? firstByte then 3
           else if 191 <? firstByte then 2 else 1 in
  if i + n <=? end_ then
    let second := bits (cell b (i + 1)) in
    let third := bits (cell b (i + 2)) in
    let fourth := bits (cell b (i + 3)) in
    if n =? 1 then (if firstByte <? 128 then Some firstByte else None, n)
    else if n =? 2 then
      (if is_cont second then
         let t := jor (jshl (jand firstByte 31) 6) (jand second 63) in
         if 127 <? t then Some t else None
       else None, n)
    else if n =? 3 then
      (if is_cont second && is_cont third then
         let t := jor (jor (jshl (jand firstByte 15) 12) (jshl (jand second 63) 6))
                      (jand third 63) in
         if (2047 <? t) && ((t <? 55296) || (57343 <? t)) then Some t else None
       else None, n)
    else
      (if is_cont second && is_cont third && is_cont fourth then
         let t := jor (jor (jor (jshl (jand firstByte 15) 18) (jshl (jand second 63) 12))
                           (jshl (jand third 63) 6)) (jand fourth 63) in
         if (65535 <? t) && (t <? 1114112) then Some t else None
       else None, n)
  else (None, n).

(** The units pushed for a code point. *)
Definition cp_push (cp : Z) : jstr :=
  if 65535 <? cp
  then let cp := cp - 65536 in
       [jor (jand (jushr cp 10) 1023) 55296; jor 56320 (jand cp 1023)]
  else [cp].

(** [n] bounds the turns; each one advances. *)
Fixpoint utf8_slice_loop (n : nat) (b : buffer) (i end_ : Z) : list Z :=
  match n with
  | O => []
  | S n =>
      if i <? end_ then
        match utf8_at b i end_ with
        | (Some cp, len) => cp_push cp ++ utf8_slice_loop n b (i + len) end_
        | (None, _) => 65533 :: utf8_slice_loop n b (i + 1) end_
        end
      else []
  end.

(** [String.fromCharCode] *)
Definition from_char_code (c : Z) : Z := c mod 65536.

Definition MAX_ARGUMENTS_LENGTH : nat := 4096.

Fixpoint decode_chunks (n : nat) (codePoints : list Z) : jstr :=
  match n, codePoints with
  | S n, _ :: _ =>
      map from_char_code (take MAX_ARGUMENTS_LENGTH codePoints)
      ++ decode_chunks n (drop MAX_ARGUMENTS_LENGTH codePoints)
  | _, _ => []
  end.

Definition decodeCodePointsArray (codePoints : list Z) : jstr :=
  if (length codePoints <=? MAX_ARGUMENTS_LENGTH)%nat
  then map from_char_code codePoints
  else decode_chunks (length codePoints) codePoints.

Definition utf8Slice (b : buffer) (start end_ : Z) : jstr :=
  let end_ := Z.min (blen b) end_ in
  decodeCodePointsArray (utf8_slice_loop (Z.to_nat (end_ - start)) b start end_).

(** ** Single-byte encodings *)

(** The cells from [start] to [end_]; the loops below read each one. *)
Definition window (b : buffer) (start end_ : Z) : list Z :=
  map (λ i, bits (cell b (start + Z.of_nat i))) (seq 0 (Z.to_nat (end_ - start))).

Definition asciiToBytes (str : jstr) : list Z := map (λ c, jand c 255) str.

Definition asciiSlice (b : buffer) (start end_ : Z) : jstr :=
  map (λ x, from_char_code (jand x 127)) (window b start (Z.min (blen b) end_)).

Definition binarySlice (b : buffer) (start end_ : Z) : jstr :=
  map from_char_code (window b start (Z.min (blen b) end_)).

(** ** Hex *)

(** [n.toString(16)] *)
Definition hex_lower (d : Z) : Z := if d <? 10 then 48 + d else 87 + d.
Definition toHex (n : Z) : jstr :=
  if n <? 16 then #"0" ++ [hex_lower n] else [hex_lower (n / 16); hex_lower (n mod 16)].

Definition hexSlice (b : buffer) (start end_ : Z) : jstr :=
  let len := blen b in
  let start := if start <? 0 then 0 else start in
  let end_ := if (end_ =? 0) || (end_ <? 0) || (len <? end_) then len else end_ in
  concat (map toHex (window b start end_)).

(** [parseInt(s, 16)]: leading white space, a sign, an optional 0x, then the
    longest run of hex digits; [None] is NaN. *)
Fixpoint hex_run (s : jstr) (acc : option Z) : option Z :=
  match s with
  | c :: t =>
      match hex_val c with
      | Some d => hex_run t (Some (default 0 acc * 16 + d))
      | None => acc
      end
  | [] => acc
  end.
Definition strip_0x (s : jstr) : jstr :=
  match s with
  | 48 :: c :: t => if (c =? 120) || (c =? 88) then t else s
  | _ => s
  end.
Definition parse_hex (s : jstr) : option Z :=
  match trim_left s with
  | 45 :: t => Z.opp <$> hex_run (strip_0x t) None
  | 43 :: t => hex_run (strip_0x t) None
  | t => hex_run (strip_0x t) None
  end.

(** The writing loop: one byte per two units, [n] turns. *)
Fixpoint hex_loop (TAS : bool) (n : nat) (b : buffer) (string : jstr) (i : Z) : res buffer :=
  match n with
  | O => Ok b
  | S n =>
      match parse_hex (take 2 string) with
      | None => Throw (JsError #"Invalid hex string")
      | Some parsed => hex_loop TAS n (store TAS b i parsed) (drop 2 string) (i + 1)
      end
  end.

(** [length] is [None] when undefined; the count of bytes written is returned. *)
Definition hexWrite (TAS : bool) (b : buffer) (string : jstr) (offset : Z) (length : option Z)
    : res (buffer * Z) :=
  let remaining := blen b - offset in
  let length := match length with
                | None | Some 0 => remaining
                | Some n => if remaining <? n then remaining else n
                end in
  let strLen := Z.of_nat (List.length string) in
  if negb (strLen mod 2 =? 0) then Throw (JsError #"Invalid hex string")
  else
    let length := if strLen / 2 <? length then strLen / 2 else length in
    b ← hex_loop TAS (Z.to_nat length) b string offset;
    Ok (b, Z.max length 0).

(** ** UTF-16LE *)

Fixpoint utf16leToBytes (str : jstr) (units : Z) : list Z :=
  match str with
  | [] => []
  | c :: t =>
      let units := units - 2 in
      if units <? 0 then [] else c mod 256 :: jshr c 8 :: utf16leToBytes t units
  end.

(** ** Base64 *)

(** The characters [INVALID_BASE64_RE] keeps. *)
Definition base64_char (c : Z) : bool :=
  (c =? 43) || (c =? 47) || is_digit c || ((65 <=? c) && (c <=? 90))
  || ((97 <=? c) && (c <=? 122)) || (c =? 45) || (c =? 95).

(** [while (str.length % 4 !== 0) str = str + '='] *)
Definition pad4 (str : jstr) : jstr :=
  match (length str mod 4)%nat with
  | 1%nat => str ++ #"===" | 2%nat => str ++ #"==" | 3%nat => str ++ #"=" | _ => str
  end.

Definition base64clean (str : jstr) : jstr :=
  let str := List.filter base64_char (trim str) in
  if (length str <? 2)%nat then [] else pad4 str.

Definition base64ToBytes (str : jstr) : res (list Z) := b64ToByteArray (base64clean str).

(** ** Copying bytes in *)

(** [blitBuffer]: up to [length] bytes of [src] into [dst] from [offset]; the
    number copied is returned. *)
Fixpoint blit_loop (TAS : bool) (n : nat) (src : list Z) (dst : buffer) (i offset : Z)
    : buffer * Z :=
  match n with
  | O => (dst, i)
  | S n =>
      match src with
      | [] => (dst, i)
      | x :: src =>
          if blen dst <=? i + offset then (dst, i)
          else blit_loop TAS n src (store TAS dst (i + offset) x) (i + 1) offset
      end
  end.
Definition blitBuffer (TAS : bool) (src : list Z) (dst : buffer) (offset length : Z) : buffer * Z :=
  blit_loop TAS (Z.to_nat length) src dst 0 offset.

(** ** UTF-8 against the reference encoding *)

Lemma jor_const h x k :
  0 <= k <= 8 → 0 <= x < 2 ^ k → 0 <= h < 4096 → jor x (h * 2 ^ k) = h * 2 ^ k + x.
Proof.
  intros Hk Hx Hh. assert (0 < 2 ^ k <= 2 ^ 8).
  { split; [apply Z.pow_pos_nonneg; lia|apply Z.pow_le_mono_r; lia]. }
  rewrite jor_comm. apply jor_add; nia.
Qed.

Lemma jor_tail x : jor (jand x 63) 128 = 128 + x mod 64.
Proof. rewrite jand_63. rewrite (jor_const 2 _ 6); zdm. Qed.

Lemma utf8_push_spec cp :
  0 <= cp < 1114112 → utf8_push cp = Ok (Z.of_nat (length (utf8 cp)), utf8 cp).
Proof.
  intros Hcp. unfold utf8_push, utf8.
  destruct (Z.ltb_spec cp 128); [done|].
  destruct (Z.ltb_spec cp 2048); [|destruct (Z.ltb_spec cp 65536)].
  - rewrite jor_tail jshr_div; [|lia..]. rewrite (jor_const 6 (cp / 2 ^ 6) 5); [|zdm..].
    do 2 f_equal. 
  - rewrite !jor_tail !jshr_div; [|lia..]. rewrite (jor_const 14 (cp / 2 ^ 12) 4); [|zdm..]. done.
  - replace (cp <? 1114112) with true by (symmetry; apply Z.ltb_lt; lia).
    rewrite !jor_tail !jshr_div; [|lia..]. rewrite (jor_const 15 (cp / 2 ^ 18) 4); [|zdm..]. done.
Qed.

(** The plane of a surrogate pair decides whether the [|] of
    [join_surrogates] adds its last operand. *)
Definition odd_plane (lead : Z) : bool := Z.even ((lead - 55296) / 64).

Lemma lor_bit16 x : 0 <= x < 1048576 →
  Z.lor x 65536 = if Z.even (x / 65536) then x + 65536 else x.
Proof.
  intros Hx.
  rewrite {1}(Z.div_mod x 65536) //.
  set (q := x / 65536). set (r := x mod 65536).
  assert (0 <= r < 65536 ∧ 0 <= q < 16) as [Hr Hq] by (unfold q, r; zdm).
  rewrite (Z.mul_comm 65536 q).
  pose proof (lor_add q r 16 ltac:(lia) Hr) as H. change (2 ^ 16) with 65536 in H.
  rewrite -H -Z.lor_assoc (Z.lor_comm r) Z.lor_assoc.
  assert (Z.lor (q * 65536) 65536 = (if Z.even q then q + 1 else q) * 65536) as ->.
  { change 65536 with (2 ^ 16) at 2. rewrite -(Z.mul_1_l (2 ^ 16)).
    change 65536 with (2 ^ 16). rewrite -!Z.shiftl_mul_pow2; [|lia..].
    rewrite -Z.shiftl_lor. f_equal.
    apply Z.eqb_eq.
    apply (range_check (λ q, Z.lor q 1 =? (if Z.even q then q + 1 else q)) 0 16);
      [by vm_compute|lia]. }
  pose proof (lor_add (if Z.even q then q + 1 else q) r 16 ltac:(lia) Hr) as H'.
  change (2 ^ 16) with 65536 in H'. rewrite H'.
  unfold q, r. destruct (Z.even _); zdm.
Qed.

Lemma join_surrogates_spec l d :
  high_surrogate l = true → low_surrogate d = true →
  join_surrogates l d = if odd_plane l then pair_cp l d else pair_cp l d - 65536.
Proof.
  unfold high_surrogate, low_surrogate. intros Hl Hd.
  apply andb_true_iff in Hl, Hd. rewrite !Z.leb_le in Hl, Hd.
  unfold join_surrogates. rewrite (jshl_pow _ 10); [|lia..].
  rewrite (jor_add _ (d - 56320) 10); [|lia..].
  change (2 ^ 10) with 1024. set (x := (l - 55296) * 1024 + (d - 56320)).
  unfold jor. rewrite !to_int32_small; [|lia..]. rewrite lor_bit16; [|lia].
  unfold odd_plane. replace (x / 65536) with ((l - 55296) / 64) by (unfold x; zdm).
  unfold pair_cp. destruct (Z.even _); unfold x; lia.
Qed.

(** Well-formed text whose supplementary code points lie in the planes 1, 3,
    5, ... 15, where the joining is exact. *)
Fixpoint utf8_ok (s : jstr) : bool :=
  match s with
  | [] => true
  | c :: t =>
      if low_surrogate c then false
      else if high_surrogate c then
        match t with
        | d :: t' => low_surrogate d && odd_plane c && utf8_ok t'
        | [] => false
        end
      else utf8_ok t
  end.

(** The code points of well-paired text, and their UTF-8 bytes. *)
Fixpoint code_points (s : jstr) : list Z :=
  match s with
  | [] => []
  | c :: t =>
      if high_surrogate c
      then match t with
           | d :: t' => pair_cp c d :: code_points t'
           | [] => []
           end
      else c :: code_points t
  end.
Definition utf8_ref (s : jstr) : list Z := concat (map utf8 (code_points s)).

Lemma surrogate_test c :
  (55295 <? c) && (c <? 57344) = high_surrogate c || low_surrogate c.
Proof.
  unfold high_surrogate, low_surrogate.
  destruct (Z.ltb_spec 55295 c), (Z.ltb_spec c 57344), (Z.leb_spec 55296 c),
    (Z.leb_spec c 56319), (Z.leb_spec 56320 c), (Z.leb_spec c 57343); try done; lia.
Qed.

(** Induction on the text by code points. *)
Lemma utf8_ok_ind (P : jstr → Prop) :
  P [] →
  (∀ c t, low_surrogate c = false → high_surrogate c = false → P t → P (c :: t)) →
  (∀ c d t, high_surrogate c = true → low_surrogate d = true → odd_plane c = true →
     P t → P (c :: d :: t)) →
  ∀ s, utf8_ok s = true → P s.
Proof.
  intros H0 H1 H2.
  assert (∀ n s, (length s <= n)%nat → utf8_ok s = true → P s) as H; [|eauto].
  induction n as [|n IH]; intros [|c t] Hn Hs; cbn in Hn; try lia; try done.
  cbn in Hs. destruct (low_surrogate c) eqn:L; [done|].
  destruct (high_surrogate c) eqn:Hh.
  - destruct t as [|d t]; [done|]. str_eqs. apply H2; [done..|].
    apply IH; [cbn in Hn; lia|done].
  - apply H1; [done..|]. apply IH; [lia|done].
Qed.

Lemma high_not_low c :
  high_surrogate c = true →
  low_surrogate c = false ∧ (c <? 56320) = true ∧ (56319 <? c) = false.
Proof.
  unfold high_surrogate, low_surrogate. intros H. str_eqs. rewrite !Z.leb_le in H H0.
  rewrite andb_false_iff !Z.leb_gt Z.ltb_lt Z.ltb_ge. lia.
Qed.

(** The budget covers [n] more bytes. *)
Definition covers (units : option Z) (n : Z) : Prop :=
  match units with None => True | Some u => n <= u end.

Lemma covers_spend units n m :
  0 <= n → 0 <= m → covers units (n + m) →
  over (spend units n) = false ∧ covers (spend units n) m.
Proof.
  intros Hn Hm. destruct units as [u|]; cbn; [|done]. intros H. rewrite Z.ltb_ge. lia.
Qed.

(** One code point of the loop, its bytes within the budget. *)
Lemma utf8_encode_step cp t units rest :
  0 <= cp < 1114112 → covers units (blen (utf8 cp ++ rest)) →
  (∀ units, covers units (blen rest) → utf8_loop t units None = Ok rest) →
  ('(n, bytes) ← utf8_push cp;
   let units := spend units n in
   if over units then Ok [] else app bytes <$> utf8_loop t units None)
  = Ok (utf8 cp ++ rest).
Proof.
  intros Hcp Hc IH. rewrite utf8_push_spec //. cbn [mbind res_bind]. rewrite blen_app in Hc.
  apply covers_spend in Hc as [Ho Hc]; [|unfold blen; lia..].
  unfold blen in Ho at 1. unfold blen in Hc at 1. rewrite Ho IH //.
Qed.

Lemma utf8_loop_ref s :
  utf8_ok s = true → wf_jstr s →
  ∀ units, covers units (blen (utf8_ref s)) → utf8_loop s units None = Ok (utf8_ref s).
Proof.
  intros Hs. pattern s. revert s Hs. apply utf8_ok_ind.
  - done.
  - intros c t L Hh IH Hwf units. inversion Hwf as [|? ? Hc Ht]; subst. unfold code_unit in Hc.
    unfold utf8_ref. cbn [code_points]. rewrite Hh. cbn [map concat]. intros Hcov.
    cbn [utf8_loop]. rewrite surrogate_test L Hh. cbn [orb].
    apply utf8_encode_step; [lia|done|]. by apply IH.
  - intros c d t Hh Ld Ev IH Hwf units. inversion Hwf as [|? ? Hc Ht]; subst.
    inversion Ht as [|? ? Hd Ht']; subst.
    destruct (high_not_low c Hh) as (L & Hlt & Hgt).
    unfold utf8_ref. cbn [code_points]. rewrite Hh. cbn [map concat]. intros Hcov.
    cbn [utf8_loop]. rewrite !surrogate_test Hh L Ld Hgt. cbn [orb].
    rewrite orb_true_r.
    replace (d <? 56320) with false.
    2: { unfold low_surrogate in Ld. str_eqs. symmetry. apply Z.ltb_ge. by apply Z.leb_le. }
    rewrite join_surrogates_spec; [|done..]. rewrite Ev.
    destruct (pair_cp_units c d Hh Ld) as [_ Hr].
    apply utf8_encode_step; [lia|done|]. by apply IH.
Qed.

Lemma utf8ToBytes_ref s units :
  utf8_ok s = true → wf_jstr s → covers units (blen (utf8_ref s)) →
  utf8ToBytes s units = Ok (utf8_ref s).
Proof.
  intros Hs Hwf Hc. unfold utf8ToBytes. apply utf8_loop_ref; [done..|].
  destruct units as [u|]; cbn; [|done]. by destruct (u =? 0).
Qed.

(** ** Reading UTF-8 back *)

Lemma is_cont_tail x : 0 <= x < 64 → is_cont (128 + x) = true.
Proof. intros. apply (range_check (λ x, is_cont (128 + x)) 0 64); [by vm_compute|lia]. Qed.

Lemma jand_tail x : 0 <= x < 64 → jand (128 + x) 63 = x.
Proof. intros. rewrite jand_63. zdm. Qed.

Lemma jand_15 v : jand v 15 = v mod 16.
Proof. apply (jand_ones v 4). lia. Qed.
Lemma jand_31 v : jand v 31 = v mod 32.
Proof. apply (jand_ones v 5). lia. Qed.
Lemma jand_1023 v : jand v 1023 = v mod 1024.
Proof. apply (jand_ones v 10). lia. Qed.

Lemma cells_split pre bs post i :
  (i < length bs)%nat → bits (cell (pre ++ bs ++ post) (blen pre + Z.of_nat i)) = bits (bs !! i).
Proof. intros. by rewrite cell_split. Qed.
Lemma cells_split0 pre bs post :
  (0 < length bs)%nat → bits (cell (pre ++ bs ++ post) (blen pre)) = bits (bs !! 0%nat).
Proof. intros. by rewrite -(cells_split pre bs post 0) ?Z.add_0_r. Qed.

Definition scalar (cp : Z) : Prop :=
  0 <= cp < 1114112 ∧ low_surrogate cp = false ∧ high_surrogate cp = false.

Lemma scalar_not_surrogate cp : scalar cp → cp < 55296 ∨ 57343 < cp.
Proof.
  intros (H & L & Hh). unfold low_surrogate, high_surrogate in *.
  rewrite andb_false_iff !Z.leb_gt in L. rewrite andb_false_iff !Z.leb_gt in Hh. lia.
Qed.

Lemma cells_split1 pre bs post :
  (1 < length bs)%nat → bits (cell (pre ++ bs ++ post) (blen pre + 1)) = bits (bs !! 1%nat).
Proof. apply cells_split. Qed.
Lemma cells_split2 pre bs post :
  (2 < length bs)%nat → bits (cell (pre ++ bs ++ post) (blen pre + 2)) = bits (bs !! 2%nat).
Proof. apply cells_split. Qed.
Lemma cells_split3 pre bs post :
  (3 < length bs)%nat → bits (cell (pre ++ bs ++ post) (blen pre + 3)) = bits (bs !! 3%nat).
Proof. apply cells_split. Qed.

Ltac ltb_true := match goal with |- context [?a <? ?b] =>
  replace (a <? b) with true by (symmetry; apply Z.ltb_lt; zdm) end.
Ltac ltb_false := match goal with |- context [?a <? ?b] =>
  replace (a <? b) with false by (symmetry; apply Z.ltb_ge; zdm) end.

Lemma utf8_at_2 pre post e cp :
  128 <= cp < 2048 → blen pre + 2 <= e →
  utf8_at (pre ++ utf8 cp ++ post) (blen pre) e = (Some cp, 2).
Proof.
  intros Hcp He. unfold utf8.
  replace (cp <? 128) with false by (symmetry; apply Z.ltb_ge; lia).
  replace (cp <? 2048) with true by (symmetry; apply Z.ltb_lt; lia).
  set (x := cp / 64). set (y := cp mod 64).
  assert (2 <= x < 32 ∧ 0 <= y < 64 ∧ cp = x * 64 + y) as (Hx & Hy & E)
    by (unfold x, y; zdm).
  clearbody x y. subst cp.
  unfold utf8_at. rewrite cells_split0 ?cells_split1; [|cbn; lia..].
  cbn -[jand jor jshl Z.add Z.ltb is_cont Z.leb Z.eqb cell].
  do 2 ltb_false. ltb_true. cbn [Z.eqb Pos.eqb].
  replace (blen pre + 2 <=? e) with true by (symmetry; apply Z.leb_le; lia).
  rewrite is_cont_tail // jand_tail // jand_31.
  replace ((192 + x) mod 32) with x by zdm.
  rewrite (jshl_pow x 6) // ?(jor_add x y 6) //; [|lia..].
  change (2 ^ 6) with 64. by ltb_true.
Qed.

Lemma utf8_at_3 pre post e cp :
  2048 <= cp < 65536 → cp < 55296 ∨ 57343 < cp → blen pre + 3 <= e →
  utf8_at (pre ++ utf8 cp ++ post) (blen pre) e = (Some cp, 3).
Proof.
  intros Hcp Hs He. unfold utf8.
  replace (cp <? 128) with false by (symmetry; apply Z.ltb_ge; lia).
  replace (cp <? 2048) with false by (symmetry; apply Z.ltb_ge; lia).
  replace (cp <? 65536) with true by (symmetry; apply Z.ltb_lt; lia).
  set (x := cp / 4096). set (y := cp / 64 mod 64). set (z := cp mod 64).
  assert (0 <= x < 16 ∧ 0 <= y < 64 ∧ 0 <= z < 64 ∧ cp = x * 4096 + y * 64 + z)
    as (Hx & Hy & Hz & E) by (unfold x, y, z; zdm).
  clearbody x y z. subst cp.
  unfold utf8_at. rewrite cells_split0 ?cells_split1 ?cells_split2; [|cbn; lia..].
  cbn -[jand jor jshl Z.add Z.ltb is_cont Z.leb Z.eqb cell].
  ltb_false. ltb_true. cbn [Z.eqb Pos.eqb].
  replace (blen pre + 3 <=? e) with true by (symmetry; apply Z.leb_le; lia).
  rewrite !is_cont_tail // !jand_tail // jand_15. cbn [andb].
  replace ((224 + x) mod 16) with x by zdm.
  rewrite (jshl_pow x 12) ?(jshl_pow y 6); [|lia..].
  rewrite (jor_add x (y * 2 ^ 6) 12); [|lia..].
  replace (x * 2 ^ 12 + y * 2 ^ 6) with ((x * 64 + y) * 2 ^ 6) by lia.
  rewrite (jor_add _ z 6); [|lia..].
  replace ((x * 64 + y) * 2 ^ 6 + z) with (x * 4096 + y * 64 + z) by lia.
  ltb_true. cbn [andb].
  replace (_ || _) with true; [done|]. symmetry. rewrite orb_true_iff !Z.ltb_lt. lia.
Qed.

Lemma utf8_at_4 pre post e cp :
  65536 <= cp < 1114112 → blen pre + 4 <= e →
  utf8_at (pre ++ utf8 cp ++ post) (blen pre) e = (Some cp, 4).
Proof.
  intros Hcp He. unfold utf8.
  replace (cp <? 128) with false by (symmetry; apply Z.ltb_ge; lia).
  replace (cp <? 2048) with false by (symmetry; apply Z.ltb_ge; lia).
  replace (cp <? 65536) with false by (symmetry; apply Z.ltb_ge; lia).
  set (w := cp / 262144). set (x := cp / 4096 mod 64).
  set (y := cp / 64 mod 64). set (z := cp mod 64).
  assert (0 <= w < 5 ∧ 0 <= x < 64 ∧ 0 <= y < 64 ∧ 0 <= z < 64
          ∧ cp = w * 262144 + x * 4096 + y * 64 + z)
    as (Hw & Hx & Hy & Hz & Hcp') by (unfold w, x, y, z; zdm).
  clearbody w x y z.
  unfold utf8_at. rewrite cells_split0 ?cells_split1 ?cells_split2 ?cells_split3; [|cbn; lia..].
  cbn -[jand jor jshl Z.add Z.ltb is_cont Z.leb Z.eqb cell].
  ltb_true. cbn [Z.eqb Pos.eqb].
  replace (blen pre + 4 <=? e) with true by (symmetry; apply Z.leb_le; lia).
  rewrite !is_cont_tail // !jand_tail // jand_15. cbn [andb].
  replace ((240 + w) mod 16) with w by zdm.
  rewrite jor4; [|lia..]. rewrite -Hcp'. by do 2 ltb_true.
Qed.

Lemma utf8_at_spec pre post e cp :
  scalar cp → blen pre + Z.of_nat (length (utf8 cp)) <= e →
  utf8_at (pre ++ utf8 cp ++ post) (blen pre) e = (Some cp, Z.of_nat (length (utf8 cp))).
Proof.
  intros Hs He. pose proof (scalar_not_surrogate cp Hs) as Hn. destruct Hs as [Hr _].
  destruct (Z.lt_ge_cases cp 128).
  { unfold utf8 in *. replace (cp <? 128) with true in * by (symmetry; apply Z.ltb_lt; lia).
    unfold utf8_at. rewrite cells_split0; [|cbn; lia].
    cbn -[jand jor jshl Z.add Z.ltb is_cont Z.leb Z.eqb cell Z.of_nat]. do 3 ltb_false.
    replace (blen pre + 1 <=? e) with true by (symmetry; apply Z.leb_le; cbn in He; lia).
    cbn [Z.eqb Pos.eqb]. by ltb_true. }
  assert (length (utf8 cp) = if cp <? 2048 then 2%nat else if cp <? 65536 then 3%nat else 4%nat) as Hl.
  { unfold utf8. replace (cp <? 128) with false by (symmetry; apply Z.ltb_ge; lia).
    repeat case_if; done. }
  rewrite Hl in He |- *.
  destruct (Z.ltb_spec cp 2048); [apply utf8_at_2; lia|].
  destruct (Z.ltb_spec cp 65536); [apply utf8_at_3; lia|apply utf8_at_4; lia].
Qed.

Lemma cp_push_units cp : 0 <= cp < 1114112 → cp_push cp = cp_units cp.
Proof.
  intros Hcp. unfold cp_push, cp_units.
  destruct (Z.ltb_spec 65535 cp), (Z.ltb_spec cp 65536); try lia; [|done].
  rewrite jushr_div ?jand_1023; [|lia..].
  set (m := cp - 65536). assert (0 <= m / 2 ^ 10 < 1024 ∧ 0 <= m mod 1024 < 1024) as [H1 H2].
  { unfold m. change (2 ^ 10) with 1024. zdm. }
  rewrite (Z.mod_small (m / 2 ^ 10)) // (jor_comm _ 55296).
  rewrite (jor_add 54 (m / 2 ^ 10) 10) ?(jor_add 55 (m mod 1024) 10) //; lia.
Qed.

Lemma code_points_scalar s : utf8_ok s = true → wf_jstr s → Forall scalar (code_points s).
Proof.
  intros Hs. pattern s. revert s Hs. apply utf8_ok_ind; [done| |].
  - intros c t L Hh IH Hwf. inversion Hwf as [|? ? Hc Ht]; subst. unfold code_unit in Hc.
    cbn. rewrite Hh. constructor; [|by apply IH]. unfold scalar. split_and!; [lia|lia|done..].
  - intros c d t Hh L Ev IH Hwf. inversion Hwf as [|? ? _ Ht]; subst.
    inversion Ht as [|? ? _ Ht']; subst. cbn. rewrite Hh.
    constructor; [|by apply IH]. destruct (pair_cp_units c d Hh L) as [_ Hr].
    unfold scalar, low_surrogate, high_surrogate. rewrite !andb_false_iff !Z.leb_gt. lia.
Qed.

Lemma code_points_units s : utf8_ok s = true → wf_jstr s → concat (map cp_units (code_points s)) = s.
Proof.
  intros Hs. pattern s. revert s Hs. apply utf8_ok_ind; [done| |].
  - intros c t L Hh IH Hwf. inversion Hwf as [|? ? Hc Ht]; subst.
    cbn [code_points]. rewrite Hh. cbn [map concat]. rewrite IH //.
    unfold cp_units. replace (c <? 65536) with true; [done|].
    symmetry. apply Z.ltb_lt. apply Hc.
  - intros c d t Hh L Ev IH Hwf. inversion Hwf as [|? ? _ Ht]; subst.
    inversion Ht as [|? ? _ Ht']; subst. cbn [code_points]. rewrite Hh. cbn [map concat].
    rewrite IH // (proj1 (pair_cp_units c d Hh L)). done.
Qed.


Lemma utf8_length cp : (1 <= length (utf8 cp))%nat.
Proof. unfold utf8. repeat case_if; cbn; lia. Qed.

(** The loop decodes the code points one sequence at a time. *)
Lemma utf8_slice_loop_ref cps : ∀ pre n e,
  Forall scalar cps → blen pre + blen (concat (map utf8 cps)) = e →
  (length (concat (map utf8 cps)) <= n)%nat →
  utf8_slice_loop n (pre ++ concat (map utf8 cps)) (blen pre) e = concat (map cp_units cps).
Proof.
  induction cps as [|cp cps IH]; intros pre n e HF He Hn; cbn [map concat] in *.
  - unfold blen at 2 in He. cbn in He. destruct n; [done|]. cbn [utf8_slice_loop].
    by replace (blen pre <? e) with false by (symmetry; apply Z.ltb_ge; lia).
  - inversion HF as [|? ? Hs HF']; subst. rewrite length_app in Hn.
    pose proof (utf8_length cp) as Hl. destruct n as [|n]; [lia|]. cbn [utf8_slice_loop].
    rewrite blen_app. unfold blen at 2 5. 
    replace (blen pre <? _) with true by (symmetry; apply Z.ltb_lt; unfold blen; lia).
    rewrite utf8_at_spec //; [|unfold blen; lia].
    rewrite cp_push_units; [|apply Hs]. f_equal.
    rewrite app_assoc. replace (blen pre + Z.of_nat (length (utf8 cp))) with (blen (pre ++ utf8 cp))
      by (rewrite blen_app; done).
    apply IH; [done|rewrite blen_app; unfold blen; lia|lia].
Qed.

Lemma decode_chunks_id n l : wf_jstr l → (length l <= n)%nat → decode_chunks n l = l.
Proof.
  revert l. induction n as [|n IH]; intros l Hwf Hl; [destruct l; [done|cbn in Hl; lia]|].
  destruct l as [|c l]; [done|].
  unfold decode_chunks; fold decode_chunks.
  assert (map from_char_code (take MAX_ARGUMENTS_LENGTH (c :: l)) = take MAX_ARGUMENTS_LENGTH (c :: l)) as ->.
  { assert (wf_jstr (take MAX_ARGUMENTS_LENGTH (c :: l))) as H by by apply Forall_take.
    induction H as [|x t Hx _ IHt]; [done|]. cbn [map]. rewrite IHt.
    unfold from_char_code. by rewrite Z.mod_small. }
  rewrite IH; [apply take_drop|by apply Forall_drop|].
  rewrite length_drop. unfold MAX_ARGUMENTS_LENGTH. cbn [length] in *. lia.
Qed.

Lemma decodeCodePointsArray_id l : wf_jstr l → decodeCodePointsArray l = l.
Proof.
  intros Hwf. unfold decodeCodePointsArray. case_if; [|by apply decode_chunks_id].
  induction Hwf as [|x t Hx _ IHt]; [done|]. cbn [map]. rewrite IHt.
  - unfold from_char_code. by rewrite Z.mod_small.
  - apply Nat.leb_le in Heqb. apply Nat.leb_le. cbn [length] in Heqb. lia.
Qed.

Lemma utf8Slice_ref s :
  wf_jstr s → utf8_ok s = true → utf8Slice (utf8_ref s) 0 (blen (utf8_ref s)) = s.
Proof.
  intros Hwf Hs. unfold utf8Slice, utf8_ref. rewrite Z.min_id.
  pose proof (utf8_slice_loop_ref (code_points s) [] (Z.to_nat (blen (utf8_ref s) - 0))
    (blen (utf8_ref s)) (code_points_scalar s Hs Hwf)) as H.
  change (blen []) with 0 in H. cbn [app] in H. unfold utf8_ref in H.
  rewrite H; [|lia|unfold blen; lia]. rewrite code_points_units //. by apply decodeCodePointsArray_id.
Qed.

Lemma utf8_ref_bytes s : wf_jstr s → utf8_ok s = true → Forall is_byte (utf8_ref s).
Proof.
  intros Hwf Hs. unfold utf8_ref. pose proof (code_points_scalar s Hs Hwf) as HF.
  induction HF as [|cp cps Hcp _ IH]; [done|]. cbn [map concat]. apply Forall_app.
  split; [|done]. apply utf8_bytes. apply Hcp.
Qed.

(** A character of an even-numbered supplementary plane (U+20000 for
    one) is written as the bytes of the character 65536 below it, because the
    code joins the surrogates with a bitwise or where an addition is due. *)
Theorem utf8_even_plane_lossy l d :
  high_surrogate l = true → low_surrogate d = true → odd_plane l = false →
  utf8ToBytes [l; d] None = Ok (utf8 (pair_cp l d - 65536)).
Proof.
  intros Hl Hd Ev. destruct (high_not_low l Hl) as (L & Hlt & Hgt).
  unfold utf8ToBytes. cbn [mbind option_bind utf8_loop].
  rewrite !surrogate_test Hl L Hd Hgt. cbn [orb]. rewrite orb_true_r.
  replace (d <? 56320) with false.
  2: { unfold low_surrogate in Hd. str_eqs. symmetry. apply Z.ltb_ge. by apply Z.leb_le. }
  rewrite join_surrogates_spec // Ev. destruct (pair_cp_units l d Hl Hd) as [_ Hr].
  rewrite utf8_push_spec; [|lia]. cbn. by rewrite app_nil_r.
Qed.
