(* ===== verification/Buffer.v ===== *)
(** * Buffer: construction, conversion, comparison and copying

    The [Buffer] class of the [buffer] module on its typed-array
    implementation, from the accessors of [BufferCore] and the converters of
    [BufferText], and [btoa], which the client uses for basic authentication.

    A buffer is the list of its bytes; [new Uint8Array(n)] is zero-filled. A
    method that updates its receiver returns the new contents; [copy] takes
    whether its two buffers are the same object. [slice] returns the contents of
    the view it creates, so writes through a view are not followed. *)

From S2P Require Import Prelude Int32 Uri Base64 BufferCore BufferText.

(** ** Construction *)

Definition kMaxLength (TAS : bool) : Z := if TAS then 2147483647 else 1073741823.

Definition checked (TAS : bool) (len : Z) : res Z :=
  if kMaxLength TAS <=? len
  then Throw (RangeError (#"Attempt to allocate Buffer larger than maximum size: 0x"
                          ++ (if TAS then #"7fffffff" else #"3fffffff") ++ #" bytes"))
  else Ok (to_int32 len).

(** [new Uint8Array(length)] *)
Definition allocate (len : Z) : buffer := replicate (Z.to_nat len) 0.

Definition fromNumber (len : Z) : res buffer :=
  if len <? 0 then Ok (allocate 0) else allocate <$> checked true len.

(** The elements are truncated to a byte as they are stored. *)
Definition fromArray (array : list Z) : res buffer :=
  len ← checked true (blen array);
  Ok (fold_left (λ that i, store true that (Z.of_nat i) (jand (bits (array !! i)) 255))
                (seq 0 (Z.to_nat len)) (allocate len)).

(** ** Encoding names *)

Inductive encoding := EHex | EUtf8 | EAscii | EBinary | EBase64 | EUcs2.

#[export] Instance encoding_eq_dec : EqDecision encoding.
Proof. solve_decision. Defined.

Definition encoding_case (e : jstr) : option encoding :=
  if streq e #"hex" then Some EHex
  else if streq e #"utf8" || streq e #"utf-8" then Some EUtf8
  else if streq e #"ascii" then Some EAscii
  else if streq e #"binary" then Some EBinary
  else if streq e #"base64" then Some EBase64
  else if streq e #"ucs2" || streq e #"ucs-2" || streq e #"utf16le" || streq e #"utf-16le"
  then Some EUcs2
  else None.

(** The loops around the switches: the name as given, then lowered. *)
Definition encoding_of (e : jstr) : option encoding :=
  match encoding_case e with Some c => Some c | None => encoding_case (to_lower e) end.

Definition isEncoding (e : jstr) : bool :=
  let e := to_lower e in
  match encoding_case e with Some _ => true | None => streq e #"raw" end.

(** [byteLength] knows two more names for single-byte text, and takes an
    unknown encoding for UTF-8. *)
Definition byteLength_case (e : jstr) : option encoding :=
  if streq e #"raw" || streq e #"raws" then Some EBinary else encoding_case e.

Definition byteLength (string e : jstr) : res Z :=
  let len := Z.of_nat (length string) in
  if len =? 0 then Ok 0
  else match (match byteLength_case e with
              | Some c => Some c
              | None => byteLength_case (to_lower e)
              end) with
       | Some EAscii | Some EBinary => Ok len
       | Some EUcs2 => Ok (len * 2)
       | Some EHex => Ok (jushr len 1)
       | Some EBase64 => blen <$> base64ToBytes string
       | Some EUtf8 | None => blen <$> utf8ToBytes string None
       end.

(** ** Writing text *)

(** The argument lists [write] tells apart: [write(string)],
    [write(string, encoding)], [write(string, offset, length, encoding)] with a
    length, [write(string, offset, encoding)], and the legacy
    [write(string, encoding, offset, length)]. *)
Inductive write_args :=
  | WriteString
  | WriteEncoding (encoding : jstr)
  | WriteRange (offset length : Z) (encoding : option jstr)
  | WriteOffset (offset : Z) (encoding : option jstr)
  | WriteLegacy (encoding : jstr) (offset : Z) (length : option Z).

(** The encoding, offset and length after the first conditional. *)
Definition write_normal (b : buffer) (a : write_args) : jstr * Z * option Z :=
  match a with
  | WriteString => (#"utf8", 0, Some (blen b))
  | WriteEncoding e => (e, 0, Some (blen b))
  | WriteRange o l e => (default #"utf8" e, to_int32 o, Some (to_int32 l))
  | WriteOffset o e => (default [] e, to_int32 o, None)
  | WriteLegacy e o l => (e, to_int32 o, l)
  end.

Definition write (b : buffer) (string : jstr) (a : write_args) : res (buffer * Z) :=
  let '(e, offset, len) := write_normal b a in
  let remaining := blen b - offset in
  let len := match len with
             | None => remaining
             | Some l => if remaining <? l then remaining else l
             end in
  if ((0 <? Z.of_nat (length string)) && ((len <? 0) || (offset <? 0))) || (blen b <? offset)
  then Throw (RangeError #"attempt to write outside buffer bounds")
  else
    let e := match e with [] => #"utf8" | _ => e end in
    match encoding_of e with
    | Some EHex => hexWrite true b string offset (Some len)
    | Some EUtf8 =>
        bytes ← utf8ToBytes string (Some (blen b - offset));
        Ok (blitBuffer true bytes b offset len)
    | Some EAscii | Some EBinary => Ok (blitBuffer true (asciiToBytes string) b offset len)
    | Some EBase64 =>
        bytes ← base64ToBytes string; Ok (blitBuffer true bytes b offset len)
    | Some EUcs2 =>
        Ok (blitBuffer true (utf16leToBytes string (blen b - offset)) b offset len)
    | None => Throw TypeError
    end.

Definition fromString (string e : jstr) : res buffer :=
  let e := match e with [] => #"utf8" | _ => e end in
  len ← byteLength string e;
  '(b, _) ← write (allocate (to_int32 len)) string (WriteEncoding e);
  Ok b.

(** ** Reading text *)

(** The bounds [slice] computes from its arguments. *)
Definition slice_bounds (len start : Z) (end_ : option Z) : Z * Z :=
  let clip x := if x <? 0 then Z.max (x + len) 0 else if len <? x then len else x in
  let start := clip (to_int32 start) in
  let end_ := match end_ with None => len | Some e => clip (to_int32 e) end in
  (start, if end_ <? start then start else end_).

Definition slice (b : buffer) (start : Z) (end_ : option Z) : buffer :=
  let '(s, e) := slice_bounds (blen b) start end_ in
  take (Z.to_nat (e - s)) (drop (Z.to_nat s) b).

Definition base64Slice (b : buffer) (start end_ : Z) : jstr :=
  if (start =? 0) && (end_ =? blen b) then uint8ToBase64 b
  else uint8ToBase64 (slice b start (Some end_)).

(** [fromCharCode] of NaN, for a missing last byte, is unit 0. *)
Fixpoint units16le (bytes : list Z) : jstr :=
  match bytes with
  | lo :: hi :: t => from_char_code (lo + hi * 256) :: units16le t
  | [_] => [0]
  | [] => []
  end.
Definition utf16leSlice (b : buffer) (start end_ : Z) : jstr :=
  units16le (slice b start (Some end_)).

Definition slowToString (b : buffer) (e : jstr) (start : Z) (end_ : option Z) : res jstr :=
  let start := to_int32 start in
  let end_ := match end_ with None => blen b | Some x => to_int32 x end in
  let e := match e with [] => #"utf8" | _ => e end in
  let start := if start <? 0 then 0 else start in
  let end_ := if blen b <? end_ then blen b else end_ in
  if end_ <=? start then Ok []
  else match encoding_of e with
       | Some EHex => Ok (hexSlice b start end_)
       | Some EUtf8 => Ok (utf8Slice b start end_)
       | Some EAscii => Ok (asciiSlice b start end_)
       | Some EBinary => Ok (binarySlice b start end_)
       | Some EBase64 => Ok (base64Slice b start end_)
       | Some EUcs2 => Ok (utf16leSlice b start end_)
       | None => Throw TypeError
       end.

(** [buf.toString(encoding)]; without an argument [e] is empty. *)
Definition toString (b : buffer) (e : jstr) : res jstr :=
  let length := to_int32 (blen b) in
  if length =? 0 then Ok []
  else match e with
       | [] => Ok (utf8Slice b 0 length)
       | _ => slowToString b e 0 None
       end.

(** [btoa] of a string. *)
Definition btoa (str : jstr) : res jstr :=
  b ← fromString str #"binary"; toString b #"base64".

(** ** Comparison and search *)

(** [compare] of two distinct objects: the first difference, else the lengths. *)
Fixpoint compare (a b : buffer) : Z :=
  match a, b with
  | x :: a, y :: b => if x =? y then compare a b else if x <? y then -1 else 1
  | [], [] => 0
  | [], _ :: _ => -1
  | _ :: _, [] => 1
  end.

(** [a === b] settles both methods first. *)
Definition buffer_compare (same : bool) (a b : buffer) : Z := if same then 0 else compare a b.
Definition equals (same : bool) (a b : buffer) : bool := same || (compare a b =? 0).

(** The loop of [arrayIndexOf] from [i]; [n] turns are left. *)
Fixpoint arrayIndexOf_loop (n : nat) (arr val : list Z) (byteOffset i foundIndex : Z) : Z :=
  match n with
  | O => -1
  | S n =>
      if bool_decide (cell arr (byteOffset + i)
                      = cell val (if foundIndex =? -1 then 0 else i - foundIndex))
      then let foundIndex := if foundIndex =? -1 then i else foundIndex in
           if i - foundIndex + 1 =? blen val then byteOffset + foundIndex
           else arrayIndexOf_loop n arr val byteOffset (i + 1) foundIndex
      else arrayIndexOf_loop n arr val byteOffset (i + 1) (-1)
  end.
Definition arrayIndexOf (arr val : list Z) (byteOffset : Z) : Z :=
  arrayIndexOf_loop (Z.to_nat (blen arr - byteOffset)) arr val byteOffset 0 (-1).

(** [indexOf] of a buffer or of a number (as a one-element array). *)
Definition indexOf (b val : list Z) (byteOffset : Z) : Z :=
  let byteOffset := if 2147483647 <? byteOffset then 2147483647
                    else if byteOffset <? -2147483648 then -2147483648 else byteOffset in
  if blen b =? 0 then -1
  else if blen b <=? byteOffset then -1
  else let byteOffset := if byteOffset <? 0 then Z.max (blen b + byteOffset) 0 else byteOffset in
       arrayIndexOf b val byteOffset.

(** ** Copying and filling *)

(** One assignment [target[i + targetStart] = this[i + start]]; when the two
    are the same object the read sees the writes so far. *)
Definition copy_step (same : bool) (src : buffer) (targetStart start : Z)
    (target : buffer) (i : nat) : buffer :=
  store true target (Z.of_nat i + targetStart)
    (bits (cell (if same then target else src) (Z.of_nat i + start))).

Definition copy (same : bool) (src target : buffer) (targetStart start : Z) (end_ : option Z)
    : res (buffer * Z) :=
  let end_ := default (blen src) end_ in
  let targetStart := if blen target <=? targetStart then blen target else targetStart in
  let end_ := if (0 <? end_) && (end_ <? start) then start else end_ in
  if end_ =? start then Ok (target, 0)
  else if (blen target =? 0) || (blen src =? 0) then Ok (target, 0)
  else if targetStart <? 0 then Throw (RangeError #"targetStart out of bounds")
  else if (start <? 0) || (blen src <=? start)
  then Throw (RangeError #"sourceStart out of bounds")
  else if end_ <? 0 then Throw (RangeError #"sourceEnd out of bounds")
  else
    let end_ := if blen src <? end_ then blen src else end_ in
    let end_ := if blen target - targetStart <? end_ - start
                then blen target - targetStart + start else end_ in
    let len := end_ - start in
    let order := seq 0 (Z.to_nat len) in
    if same && (start <? targetStart) && (targetStart <? end_) then
      Ok (fold_left (copy_step same src targetStart start) (rev order) target, len)
    else if len <? 1000 then
      Ok (fold_left (copy_step same src targetStart start) order target, len)
    else
      (* [target._set(this.subarray(start, start + len), targetStart)] *)
      Ok (splice target targetStart (take (Z.to_nat len) (drop (Z.to_nat start) src)), len).

(** [Buffer.concat(list)] *)
Definition concat_fold (list : list buffer) (buf : buffer) : res (buffer * Z) :=
  fold_res (λ '(buf, pos) item, '(buf', _) ← copy false item buf pos 0 None;
                                Ok (buf', pos + blen item)) list (buf, 0).
Definition buffer_concat (list : list buffer) (length : option Z) : res buffer :=
  match list with
  | [] => fromNumber 0
  | _ =>
      let length := default (fold_left (λ n item, n + blen item) list 0) length in
      buf ← fromNumber length;
      fst <$> concat_fold list buf
  end.

(** [fill] with a number, or with text ([inr]). *)
Definition fill (b : buffer) (value : Z + jstr) (start end_ : Z) : res buffer :=
  let end_ := if end_ =? 0 then blen b else end_ in
  if end_ <? start then Throw (RangeError #"end < start")
  else if end_ =? start then Ok b
  else if blen b =? 0 then Ok b
  else if (start <? 0) || (blen b <=? start) then Throw (RangeError #"start out of bounds")
  else if (end_ <? 0) || (blen b <? end_) then Throw (RangeError #"end out of bounds")
  else
    let positions := map (λ i, start + Z.of_nat i) (seq 0 (Z.to_nat (end_ - start))) in
    match value with
    | inl v => Ok (fold_left (λ b i, store true b i v) positions b)
    | inr [] => Ok (fold_left (λ b i, store true b i 0) positions b)
    | inr s =>
        bytes ← utf8ToBytes s None;
        Ok (fold_left (λ b i, store true b i (bits (cell bytes (i mod blen bytes)))) positions b)
    end.

(** ** Cells of updated buffers *)

Lemma cell_in b j : 0 <= j < blen b → cell b j = b !! Z.to_nat j.
Proof.
  intros. unfold cell. by replace (_ && _) with true
    by (symmetry; apply andb_true_iff; rewrite Z.leb_le Z.ltb_lt; lia).
Qed.
Lemma cell_out b j : j < 0 ∨ blen b <= j → cell b j = None.
Proof.
  intros. unfold cell. by replace (_ && _) with false
    by (symmetry; apply andb_false_iff; rewrite Z.leb_gt Z.ltb_ge; lia).
Qed.

Lemma cell_ext a b : length a = length b → (∀ j, cell a j = cell b j) → a = b.
Proof.
  intros Hl H. apply list_eq_same_length with (length a); [done|done|].
  intros i x y Hi Hx Hy. specialize (H (Z.of_nat i)).
  rewrite !cell_in in H; [|unfold blen; lia..]. rewrite Nat2Z.id in H. congruence.
Qed.

Lemma cell_store b i v j :
  0 <= i < blen b → cell (store true b i v) j = if j =? i then Some (v mod 256) else cell b j.
Proof.
  intros Hi. unfold store.
  replace (_ && _) with true
    by (symmetry; apply andb_true_iff; rewrite Z.leb_le Z.ltb_lt; lia).
  destruct (Z.eqb_spec j i) as [->|Hj].
  - rewrite cell_in; [|unfold blen; rewrite length_insert; unfold blen in Hi; lia].
    apply list_lookup_insert_eq. unfold blen in Hi. lia.
  - unfold cell, blen. rewrite length_insert. destruct (_ && _) eqn:E; [|done].
    str_eqs. rewrite list_lookup_insert_ne; [done|]. rewrite Z.leb_le in H. lia.
Qed.

Lemma splice_length b o w :
  0 <= o → o + blen w <= blen b → length (splice b o w) = length b.
Proof.
  intros Ho Hw. unfold splice, blen in *.
  rewrite !length_app length_take length_drop. lia.
Qed.

Lemma cell_splice b o w j :
  0 <= o → o + blen w <= blen b →
  cell (splice b o w) j = if (o <=? j) && (j <? o + blen w) then cell w (j - o) else cell b j.
Proof.
  intros Ho Hw. pose proof (splice_length b o w Ho Hw) as Hl.
  destruct (decide (0 <= j < blen b)) as [Hj|Hj].
  2: { rewrite cell_out; [|unfold blen in *; lia].
       destruct (_ && _) eqn:E; [str_eqs; rewrite Z.leb_le in H; rewrite -> Z.ltb_lt in *; unfold blen in *; lia|].
       rewrite cell_out; [done|lia]. }
  rewrite cell_in; [|unfold blen in *; lia]. unfold splice. unfold blen in *.
  destruct (Z.leb_spec o j); cbn [andb].
  - rewrite lookup_app_r length_take; [|lia]. destruct (Z.ltb_spec j (o + Z.of_nat (length w))).
    + rewrite lookup_app_l; [|lia]. rewrite cell_in; [|unfold blen; lia]. f_equal. lia.
    + rewrite lookup_app_r; [|lia]. rewrite lookup_drop cell_in; [|unfold blen; lia]. f_equal. lia.
  - rewrite lookup_app_l; [|rewrite length_take; lia]. rewrite lookup_take_lt; [|lia].
    rewrite cell_in; [done|unfold blen; lia].
Qed.

(** A loop that stores [f i] at [i + ts] for the positions of [order], where
    [f] may look at the buffer as long as it reads the original contents. *)
Lemma store_loop (f : buffer → nat → Z) (g : nat → Z) ts order t :
  Forall (λ i, 0 <= Z.of_nat i + ts < blen t) order →
  (∀ done i rest t', order = done ++ i :: rest → length t' = length t →
     (∀ j, existsb (λ d, j =? Z.of_nat d + ts) done = false → cell t' j = cell t j) →
     f t' i = g i) →
  let t' := fold_left (λ t i, store true t (Z.of_nat i + ts) (f t i)) order t in
  length t' = length t ∧
  ∀ j, cell t' j = if existsb (λ d, j =? Z.of_nat d + ts) order
                   then Some (g (Z.to_nat (j - ts)) mod 256) else cell t j.
Proof.
  cbn zeta. induction order as [|i order IH] using rev_ind; intros HF Hf; [done|].
  apply Forall_app in HF as [HF [Hi _]%Forall_cons].
  destruct IH as [Hl Hc]; [done| |].
  { intros done i' rest t' -> Ht' Hj. apply (Hf done i' (rest ++ [i])); [by rewrite -app_assoc|done..]. }
  rewrite fold_left_app. cbn [fold_left]. rewrite store_length. split; [done|]. intros j.
  rewrite cell_store; [|unfold blen in *; lia].
  rewrite existsb_app. cbn [existsb]. rewrite orb_false_r Hc.
  destruct (Z.eqb_spec j (Z.of_nat i + ts)) as [->|Hne]; [|by rewrite orb_false_r].
  rewrite orb_true_r. do 2 f_equal.
  rewrite (Hf order i []); [f_equal; lia|done|done|].
  intros j Hj. by rewrite Hc Hj.
Qed.

Lemma existsb_seq j ts n :
  existsb (λ d, j =? Z.of_nat d + ts) (seq 0 n) = (ts <=? j) && (j <? ts + Z.of_nat n).
Proof.
  apply eq_iff_eq_true. rewrite existsb_exists andb_true_iff Z.leb_le Z.ltb_lt. split.
  - intros (d & Hd & E). apply in_seq in Hd. apply Z.eqb_eq in E. lia.
  - intros H. exists (Z.to_nat (j - ts)). rewrite in_seq Z.eqb_eq. lia.
Qed.

Lemma existsb_rev {A} (f : A → bool) l : existsb f (rev l) = existsb f l.
Proof.
  apply eq_iff_eq_true. rewrite !existsb_exists. setoid_rewrite <- in_rev. done.
Qed.

(** So such a loop over the positions of a window replaces the window. *)
Lemma store_loop_splice (f : buffer → nat → Z) (w : list Z) ts order t :
  order = seq 0 (length w) ∨ order = rev (seq 0 (length w)) →
  Forall is_byte w → 0 <= ts → ts + blen w <= blen t →
  (∀ done i rest t', order = done ++ i :: rest → length t' = length t →
     (∀ j, existsb (λ d, j =? Z.of_nat d + ts) done = false → cell t' j = cell t j) →
     f t' i = bits (w !! i)) →
  fold_left (λ t i, store true t (Z.of_nat i + ts) (f t i)) order t = splice t ts w.
Proof.
  intros Ho Hw Hts Hn Hf.
  assert (∀ i, i ∈ order → (i < length w)%nat) as Hin.
  { intros i. rewrite list_elem_of_In. destruct Ho as [->| ->]; rewrite -?in_rev in_seq; lia. }
  destruct (store_loop f (λ i, bits (w !! i)) ts order t) as [Hl Hc]; [|done|].
  { apply Forall_forall. intros i Hi. apply Hin in Hi. unfold blen in *. lia. }
  cbn zeta in *. apply cell_ext; [by rewrite Hl splice_length|]. intros j.
  rewrite Hc cell_splice //.
  assert (existsb (λ d, j =? Z.of_nat d + ts) order = (ts <=? j) && (j <? ts + blen w)) as ->.
  { unfold blen. destruct Ho as [->| ->]; rewrite ?existsb_rev; apply existsb_seq. }
  destruct (_ && _) eqn:E; [|done]. str_eqs. rewrite Z.leb_le in H. rewrite -> Z.ltb_lt in *.
  rewrite cell_in; [|lia]. destruct (w !! Z.to_nat (j - ts)) as [x|] eqn:Ex.
  - rewrite Forall_lookup in Hw. cbn. by rewrite Z.mod_small; [|by eapply Hw].
  - apply lookup_ge_None in Ex. unfold blen in *. lia.
Qed.

(** ** Copying is a move of the source window *)

(** The bytes [copy] moves when its arguments are in range. *)
Definition copied (src target : buffer) (targetStart start end_ : Z) : list Z :=
  take (Z.to_nat (Z.min (Z.min end_ (blen src) - start) (blen target - targetStart)))
       (drop (Z.to_nat start) src).

Lemma copy_order (same : bool) (src t : buffer) ts start order w :
  (same = true → src = t) → 0 <= start → start + blen w <= blen src →
  w = take (length w) (drop (Z.to_nat start) src) →
  (same = true → (start < ts ∧ order = rev (seq 0 (length w)))
               ∨ ((ts <= start ∨ start + blen w <= ts) ∧ order = seq 0 (length w))) →
  order = seq 0 (length w) ∨ order = rev (seq 0 (length w)) →
  Forall is_byte w → 0 <= ts → ts + blen w <= blen t →
  fold_left (copy_step same src ts start) order t = splice t ts w.
Proof.
  intros Hsame Hs Hsw Hw Hdir Ho HF Hts Hn.
  apply (store_loop_splice (λ t i, bits (cell (if same then t else src) (Z.of_nat i + start))));
    [done..|].
  intros done i rest t' Hord Hl Hj.
  assert (i < length w)%nat as Hi.
  { assert (i ∈ order) as Hio by (rewrite Hord; set_solver).
    rewrite list_elem_of_In in Hio. destruct Ho as [Ho|Ho]; rewrite Ho -?in_rev in_seq in Hio; lia. }
  assert (cell src (Z.of_nat i + start) = w !! i) as Hc.
  { rewrite cell_in; [|unfold blen in *; lia]. rewrite {1}Hw lookup_take_lt // lookup_drop.
    f_equal. lia. }
  destruct same; [|by rewrite Hc]. rewrite -Hc Hj; [by rewrite Hsame|].
  apply Bool.not_true_iff_false. rewrite existsb_exists. intros (d & Hd & E).
  apply Z.eqb_eq in E. destruct (Hdir eq_refl) as [[Hlt Hr]|[Hlt Hr]]; rewrite Hr in Hord.
  - apply (f_equal (@rev nat)) in Hord. rewrite rev_involutive rev_app_distr in Hord. cbn in Hord.
    pose proof (seq_NoDup (length w) 0) as Hnd. rewrite Hord in Hnd.
    rewrite -app_assoc in Hord. cbn in Hord.
    assert (Hii : seq 0 (length w) !! length (rev rest) = Some i).
    { rewrite Hord lookup_app_r // Nat.sub_diag. done. }
    apply in_rev, list_elem_of_In, list_elem_of_lookup in Hd as [k Hk].
    assert (Hdd : seq 0 (length w) !! (length (rev rest) + S k)%nat = Some d).
    { rewrite Hord lookup_app_r; [|lia].
      by replace (length (rev rest) + S k - length (rev rest))%nat with (S k) by lia. }
    apply lookup_seq in Hii as [-> _]. apply lookup_seq in Hdd as [-> _]. lia.
  - assert (Hii : seq 0 (length w) !! length done = Some i).
    { rewrite Hord lookup_app_r // Nat.sub_diag. done. }
    apply list_elem_of_In, list_elem_of_lookup in Hd as [k Hk].
    pose proof (lookup_lt_Some _ _ _ Hk) as Hkl.
    assert (Hdd : seq 0 (length w) !! k = Some d) by (by rewrite Hord lookup_app_l).
    apply lookup_seq in Hii as [-> _]. apply lookup_seq in Hdd as [-> Hkw]. unfold blen in *. lia.
Qed.

Lemma copy_window same src target targetStart start end_ :
  (same = true → src = target) → wf_buffer src →
  0 <= targetStart <= blen target → 0 <= start < end_ → start < blen src → 0 < blen target →
  let w := copied src target targetStart start end_ in
  copy same src target targetStart start (Some end_) = Ok (splice target targetStart w, blen w).
Proof.
  intros Hsame Hwf Hts Hse Hs Ht w.
  set (n := Z.min (Z.min end_ (blen src) - start) (blen target - targetStart)).
  assert (blen w = n ∧ length w = Z.to_nat n) as [Hn Hn'].
  { unfold w, copied, blen. fold n. rewrite length_take length_drop. unfold blen in *. lia. }
  unfold copy. cbv zeta. change (default (blen src) (Some end_)) with end_.
  replace (if blen target <=? targetStart then blen target else targetStart) with targetStart
    by (destruct (Z.leb_spec (blen target) targetStart); lia).
  replace (if (0 <? end_) && (end_ <? start) then start else end_) with end_
    by (destruct (Z.ltb_spec end_ start); [lia|by rewrite andb_false_r]).
  destruct (Z.eqb_spec end_ start); [lia|].
  destruct (Z.eqb_spec (blen target) 0); [lia|]. destruct (Z.eqb_spec (blen src) 0); [lia|].
  destruct (Z.ltb_spec targetStart 0); [lia|]. destruct (Z.ltb_spec start 0); [lia|].
  destruct (Z.leb_spec (blen src) start); [lia|]. destruct (Z.ltb_spec end_ 0); [lia|]. cbn [orb].
  set (e := if blen src <? end_ then blen src else end_).
  assert ((if blen target - targetStart <? e - start
           then blen target - targetStart + start else e) = start + n) as ->
    by (unfold e, n; destruct (Z.ltb_spec (blen src) end_);
        destruct (Z.ltb_spec (blen target - targetStart) (blen src - start));
        destruct (Z.ltb_spec (blen target - targetStart) (end_ - start)); lia).
  replace (start + n - start) with n by lia. rewrite -Hn'.
  assert (Forall is_byte w) as HF by by apply Forall_take, Forall_drop.
  assert (w = take (length w) (drop (Z.to_nat start) src)) as Hw by (rewrite Hn'; done).
  destruct (same && (start <? targetStart) && (targetStart <? start + n)) eqn:E.
  - str_eqs. rewrite -> Z.ltb_lt in *. rewrite (copy_order same src target targetStart start _ w);
      [by rewrite Hn|done|lia|lia|done| |by right|done|lia|lia]. intros _. left. split; [lia|done].
  - case_if.
    + rewrite (copy_order same src target targetStart start _ w);
        [by rewrite Hn|done|lia|lia|done| |by left|done|lia|lia].
      intros ->. right. split; [|done]. cbn [andb] in E.
      apply andb_false_iff in E. rewrite !Z.ltb_ge in E. lia.
    + by rewrite -Hw Hn.
Qed.

(** [copy] moves the window of the source as it was before the call, also
    when the two buffers are one object and the windows overlap; the rest of the
    target keeps its bytes, and the number of bytes moved is returned. *)
Theorem copy_moves same src target targetStart start end_ :
  (same = true → src = target) → wf_buffer src →
  0 <= targetStart <= blen target → 0 <= start < end_ → start < blen src → 0 < blen target →
  let w := copied src target targetStart start end_ in
  copy same src target targetStart start (Some end_) = Ok (splice target targetStart w, blen w).
Proof. apply copy_window. Qed.

Lemma copy_moves_witness : copy true [1; 2; 3; 4; 5] [1; 2; 3; 4; 5] 1 0 (Some 4)
  = Ok ([1; 1; 2; 3; 4], 4).
Proof.
  apply (copy_moves true [1; 2; 3; 4; 5] [1; 2; 3; 4; 5] 1 0 4);
    [done|apply byte_check; reflexivity|unfold blen; cbn; lia..].
Defined.

(** ** Text in and out of a buffer *)

(** Blitting a string of bytes over a buffer of its length. *)
Lemma blit_loop_all src : ∀ pre old i,
  Forall is_byte src → length old = length src → blen pre = i →
  blit_loop true (length src) src (pre ++ old) i 0 = (pre ++ src, i + blen src).
Proof.
  induction src as [|x src IH]; intros pre old i HF Hl Hi; cbn [length blit_loop].
  - destruct old; [|done]. unfold blen. cbn. f_equal. lia.
  - destruct old as [|y old]; [done|]. apply Forall_cons in HF as [Hx HF].
    rewrite Z.add_0_r. replace (blen (pre ++ y :: old) <=? i) with false
      by (symmetry; apply Z.leb_gt; rewrite blen_app; unfold blen in *; cbn [length]; lia).
    rewrite -Hi. rewrite (store_split0 true pre [y] old); [|cbn; lia]. cbn [insert list_insert app].
    change (norm true x) with (x mod 256). rewrite Z.mod_small; [|apply Hx].
    change (pre ++ x :: old) with (pre ++ [x] ++ old). rewrite app_assoc.
    rewrite (IH (pre ++ [x]) old); [|done| |by rewrite blen_app]; [|cbn in Hl; lia].
    rewrite -app_assoc. cbn [app]. f_equal. unfold blen. cbn [length]. lia.
Qed.

Lemma blit_all src :
  Forall is_byte src →
  blitBuffer true src (allocate (blen src)) 0 (blen src) = (src, blen src).
Proof.
  intros HF. unfold blitBuffer, blen. rewrite Nat2Z.id.
  pose proof (blit_loop_all src [] (allocate (blen src)) 0 HF) as H. cbn [app] in H.
  unfold allocate, blen in *. rewrite Nat2Z.id in H |- *. rewrite H //. by rewrite length_replicate.
Qed.

Lemma blen_allocate n : 0 <= n → blen (allocate n) = n.
Proof. intros. unfold allocate, blen. rewrite length_replicate. lia. Qed.

(** What a write of a whole new buffer amounts to, for the encodings whose
    bytes are computed first. *)
Definition bytes_for (e : encoding) (string : jstr) (len : Z) : res (list Z) :=
  match e with
  | EUtf8 => utf8ToBytes string (Some len)
  | EBase64 => base64ToBytes string
  | EUcs2 => Ok (utf16leToBytes string len)
  | _ => Ok (asciiToBytes string)
  end.

Lemma fromString_bytes string name e bytes :
  encoding_of name = Some e → e ≠ EHex → name ≠ [] →
  byteLength string name = Ok (blen bytes) → blen bytes < 2147483648 →
  bytes_for e string (blen bytes) = Ok bytes → Forall is_byte bytes →
  fromString string name = Ok bytes.
Proof.
  intros He Hhex Hne Hlen Hmax Hb HF. unfold fromString. destruct name as [|c name]; [done|].
  rewrite Hlen. cbn [mbind res_bind].
  pose proof (blit_all bytes HF) as Hblit. assert (0 <= blen bytes) by (unfold blen; lia).
  rewrite to_int32_small; [|lia]. unfold write. cbn [write_normal].
  rewrite blen_allocate // Z.sub_0_r Z.ltb_irrefl.
  replace (blen bytes <? 0) with false by (symmetry; apply Z.ltb_ge; lia).
  rewrite andb_false_r. cbn [orb]. rewrite He.
  destruct e; try done; cbn [bytes_for] in Hb;
    rewrite ?Hb; cbn [mbind res_bind]; try (injection Hb as ->); by rewrite ?Hblit.
Qed.

(** The text an encoding represents exactly. *)
Definition text_ok (e : encoding) (s : jstr) : Prop :=
  match e with
  | EUtf8 => utf8_ok s = true
  | EAscii => Forall (λ c, c < 128) s
  | EBinary => Forall (λ c, c < 256) s
  | EUcs2 => True
  | EHex | EBase64 => False
  end.

(** Its bytes. *)
Definition text_bytes (e : encoding) (s : jstr) : list Z :=
  match e with
  | EUtf8 => utf8_ref s
  | EUcs2 => concat (map (λ c, [c mod 256; c / 256]) s)
  | _ => s
  end.

Lemma window_all b : window b 0 (blen b) = b.
Proof.
  unfold window, blen. rewrite Z.sub_0_r Nat2Z.id.
  transitivity (map (λ i, bits (b !! i)) (seq 0 (length b))).
  - apply map_ext_in. intros i Hi%in_seq. rewrite Z.add_0_l cell_in; [|unfold blen; lia].
    by rewrite Nat2Z.id.
  - induction b as [|x b IH]; [done|]. cbn [length seq map]. f_equal.
    rewrite -seq_shift map_map. apply IH.
Qed.

Lemma slice_all b : blen b < 2147483648 → slice b 0 (Some (blen b)) = b.
Proof.
  intros Hb. assert (0 <= blen b) by (unfold blen; lia). unfold slice, slice_bounds.
  rewrite !to_int32_small; [|lia..].
  replace (blen b <? 0) with false by (symmetry; apply Z.ltb_ge; lia).
  rewrite Z.ltb_irrefl. cbn [Z.ltb Z.compare].
  replace (blen b <? 0) with false by (symmetry; apply Z.ltb_ge; lia).
  rewrite Z.sub_0_r drop_0. unfold blen. rewrite Nat2Z.id. apply take_ge. lia.
Qed.

Lemma asciiToBytes_id s : Forall is_byte s → asciiToBytes s = s.
Proof.
  intros HF. unfold asciiToBytes. induction HF as [|c s Hc _ IH]; [done|].
  cbn [map]. by rewrite IH jand_255 Z.mod_small.
Qed.

Lemma utf16le_bytes s u :
  wf_jstr s → Z.of_nat (length s) * 2 <= u →
  utf16leToBytes s u = text_bytes EUcs2 s.
Proof.
  intros Hwf. revert u. induction Hwf as [|c s Hc _ IH]; intros u Hu; [done|].
  cbn [length] in Hu. cbn [utf16leToBytes text_bytes map concat].
  replace (u - 2 <? 0) with false by (symmetry; apply Z.ltb_ge; lia).
  unfold code_unit in Hc. rewrite IH; [|lia]. rewrite jshr_div; [|lia..]. done.
Qed.

Lemma units16le_bytes s : wf_jstr s → units16le (text_bytes EUcs2 s) = s.
Proof.
  induction 1 as [|c s Hc _ IH]; [done|]. cbn [text_bytes map concat app units16le].
  rewrite IH. unfold from_char_code, code_unit in *. f_equal. zdm.
Qed.

Lemma ucs2_length s : blen (text_bytes EUcs2 s) = Z.of_nat (length s) * 2.
Proof.
  unfold blen. cbn [text_bytes]. induction s as [|c s IH]; [done|].
  cbn [map concat app length]. lia.
Qed.

Lemma text_bytes_wf e s : wf_jstr s → text_ok e s → Forall is_byte (text_bytes e s).
Proof.
  intros Hwf Hok. destruct e; cbn [text_ok text_bytes] in *; try done.
  - by apply utf8_ref_bytes.
  - apply Forall_forall. intros c Hc. rewrite Forall_forall in Hok. specialize (Hok c Hc).
    unfold wf_jstr in Hwf. rewrite Forall_forall in Hwf. specialize (Hwf c Hc).
    unfold code_unit, is_byte in *. lia.
  - apply Forall_forall. intros c Hc. rewrite Forall_forall in Hok. specialize (Hok c Hc).
    unfold wf_jstr in Hwf. rewrite Forall_forall in Hwf. specialize (Hwf c Hc).
    unfold code_unit, is_byte in *. lia.
  - induction Hwf as [|c s Hc _ IH]; [done|]. cbn. unfold code_unit in Hc.
    constructor; [unfold is_byte; zdm|]. constructor; [unfold is_byte; zdm|]. by apply IH.
Qed.

(** The conversions of a text the encoding represents. *)
Lemma byteLength_text e name s :
  encoding_of name = Some e → byteLength_case name = encoding_case name →
  byteLength_case (to_lower name) = encoding_case (to_lower name) →
  wf_jstr s → text_ok e s →
  byteLength s name = Ok (blen (text_bytes e s)).
Proof.
  intros He H1 H2 Hwf Hok. unfold byteLength. rewrite H1 H2. fold (encoding_of name). rewrite He.
  destruct (Z.eqb_spec (Z.of_nat (length s)) 0) as [E|_].
  { destruct s; [|cbn in E; lia]. by destruct e. }
  destruct e; try done.
  - rewrite utf8ToBytes_ref //.
  - by rewrite ucs2_length.
Qed.

Lemma bytes_for_text e s :
  wf_jstr s → text_ok e s → bytes_for e s (blen (text_bytes e s)) = Ok (text_bytes e s).
Proof.
  intros Hwf Hok. pose proof (text_bytes_wf e s Hwf Hok).
  destruct e; cbn [text_ok bytes_for text_bytes] in *; try done.
  - rewrite utf8ToBytes_ref //. cbn. lia.
  - by rewrite asciiToBytes_id.
  - by rewrite asciiToBytes_id.
  - rewrite -/(text_bytes EUcs2 s) utf16le_bytes //. by rewrite ucs2_length.
Qed.

(** Converting a nonempty buffer as a whole. *)
Definition slice_for (e : encoding) (b : buffer) : jstr :=
  match e with
  | EHex => hexSlice b 0 (blen b)
  | EUtf8 => utf8Slice b 0 (blen b)
  | EAscii => asciiSlice b 0 (blen b)
  | EBinary => binarySlice b 0 (blen b)
  | EBase64 => base64Slice b 0 (blen b)
  | EUcs2 => utf16leSlice b 0 (blen b)
  end.

Lemma toString_whole b name e :
  encoding_of name = Some e → name ≠ [] → b ≠ [] → blen b < 2147483648 →
  toString b name = Ok (slice_for e b).
Proof.
  intros He Hn Hb Hmax. assert (0 < blen b) by (destruct b; [done|unfold blen; cbn; lia]).
  unfold toString. rewrite to_int32_small; [|lia].
  destruct (Z.eqb_spec (blen b) 0); [lia|]. destruct name as [|c name]; [done|].
  unfold slowToString. cbv zeta. rewrite (to_int32_small 0) // Z.ltb_irrefl. cbn [Z.ltb Z.compare].
  replace (blen b <=? 0) with false by (symmetry; apply Z.leb_gt; lia).
  rewrite He. by destruct e.
Qed.

Lemma map_char_code s : wf_jstr s → map from_char_code s = s.
Proof.
  induction 1 as [|c s Hc _ IH]; [done|]. cbn. rewrite IH. unfold from_char_code.
  by rewrite Z.mod_small.
Qed.

Lemma slice_for_text e s :
  wf_jstr s → text_ok e s → blen (text_bytes e s) < 2147483648 →
  slice_for e (text_bytes e s) = s.
Proof.
  intros Hwf Hok Hmax. destruct e; cbn [text_ok slice_for] in *; try done.
  - by apply utf8Slice_ref.
  - cbn [text_bytes] in *. unfold asciiSlice. rewrite Z.min_id window_all.
    induction Hwf as [|c s Hc _ IH]; [done|]. apply Forall_cons in Hok as [Hc' Hok].
    cbn [map]. rewrite IH //; [|unfold blen in *; cbn [length] in Hmax; lia].
    change 127 with (2 ^ 7 - 1). rewrite jand_ones; [|lia]. unfold from_char_code, code_unit in *.
    change (2 ^ 7) with 128. f_equal. zdm.
  - cbn [text_bytes] in *. unfold binarySlice. rewrite Z.min_id window_all. by apply map_char_code.
  - unfold utf16leSlice. rewrite slice_all //. by apply units16le_bytes.
Qed.

(** The canonical name of an encoding. *)
Definition encoding_name (e : encoding) : jstr :=
  match e with
  | EHex => #"hex" | EUtf8 => #"utf8" | EAscii => #"ascii"
  | EBinary => #"binary" | EBase64 => #"base64" | EUcs2 => #"utf16le"
  end.

Lemma fromString_text e s :
  wf_jstr s → text_ok e s → blen (text_bytes e s) < 2147483648 →
  fromString s (encoding_name e) = Ok (text_bytes e s).
Proof.
  intros Hwf Hok Hmax.
  apply (fromString_bytes s (encoding_name e) e); [by destruct e|by intros ->|by destruct e| |done| |].
  - apply byteLength_text; [by destruct e..|done|done].
  - by apply bytes_for_text.
  - by apply text_bytes_wf.
Qed.

(** (C31) A buffer made from a text that is [text_ok] for its encoding holds the
    bytes of the encoding, and converting it back gives the text. The texts are:
    for UTF-8 those whose surrogates come in pairs, a high and a low one, of a
    character of an odd plane (a character of an even plane, such as U+20000, is
    stored as another one, [utf8_even_plane_lossy]); for ASCII those of 7-bit units; for
    binary those of 8-bit units; for UTF-16 all. *)
Theorem buffer_text_roundtrip e s :
  wf_jstr s → text_ok e s → blen (text_bytes e s) < 2147483648 →
  ∃ b, fromString s (encoding_name e) = Ok b ∧ b = text_bytes e s
     ∧ toString b (encoding_name e) = Ok s.
Proof.
  intros Hwf Hok Hmax. exists (text_bytes e s).
  split; [by apply fromString_text|]. split; [done|].
  destruct (decide (text_bytes e s = [])) as [E|E].
  - rewrite E. cbn. rewrite -(slice_for_text e s) // E. by destruct e.
  - rewrite (toString_whole _ _ e) //; [by rewrite slice_for_text|by destruct e|by destruct e].
Qed.

Lemma buffer_text_roundtrip_witness : ∃ b, fromString [104; 233; 8364; 55357; 56832] #"utf8" = Ok b ∧
  b = text_bytes EUtf8 [104; 233; 8364; 55357; 56832] ∧
  toString b #"utf8" = Ok [104; 233; 8364; 55357; 56832].
Proof.
  apply (buffer_text_roundtrip EUtf8 [104; 233; 8364; 55357; 56832]);
    [apply wf_check; reflexivity|reflexivity|reflexivity].
Defined.

(** ** Bytes out and in again *)

Lemma base64_char_unit n : 0 <= n < 64 → base64_char (b64_unit n) && negb (is_space (b64_unit n)) = true.
Proof. intros Hn. by apply (sextet_check (λ n, base64_char (b64_unit n) && negb (is_space (b64_unit n)))). Qed.

(** An encoding is kept units, then its padding. *)
Lemma rfc4648_shape bs :
  Forall is_byte bs → bs ≠ [] →
  ∃ u k, rfc4648 bs = u ++ replicate k 61 ∧ (k <= 2)%nat ∧ (2 <= length u)%nat ∧
    (length (u ++ replicate k 61%Z) mod 4 = 0)%nat ∧
    Forall (λ c, base64_char c = true ∧ is_space c = false) u.
Proof.
  assert (∀ n, 0 <= n < 64 → base64_char (b64_unit n) = true ∧ is_space (b64_unit n) = false) as Hu.
  { intros n Hn. pose proof (base64_char_unit n Hn). by str_eqs. }
  induction bs as [|a|a b|a b c rest IH] using triple_ind; intros HF Hne; [done| | |];
    rewrite ?Forall_cons in HF; unfold is_byte in HF.
  - exists (map b64_unit [a / 4; a mod 4 * 16]), 2%nat. split_and!; [done|lia|done|done|].
    repeat constructor; apply Hu; zdm.
  - exists (map b64_unit [a / 4; a mod 4 * 16 + b / 16; b mod 16 * 4]), 1%nat.
    split_and!; [done|lia|cbn; lia|done|]. repeat constructor; apply Hu; zdm.
  - destruct HF as (Ha & Hb & Hc & HF).
    assert (Forall (λ c, base64_char c = true ∧ is_space c = false) (map b64_unit (sextets3 a b c))) as Hq.
    { unfold sextets3. repeat constructor; apply Hu; zdm. }
    destruct (decide (rest = [])) as [->|Hr].
    + exists (map b64_unit (sextets3 a b c)), 0%nat. cbn [rfc4648].
      split_and!; [done|lia|cbn; lia|done|done].
    + destruct IH as (u & k & E & Hk & Hl & Hm & Hf); [done|done|].
      exists (map b64_unit (sextets3 a b c) ++ u), k. cbn [rfc4648]. rewrite E app_assoc.
      split_and!; [done|lia|rewrite length_app; lia| |by apply Forall_app].
      rewrite -app_assoc length_app. change (length (map b64_unit (sextets3 a b c))) with 4%nat.
      replace (4 + length (u ++ replicate k 61%Z))%nat with (length (u ++ replicate k 61%Z) + 1 * 4)%nat by lia.
      by rewrite Nat.Div0.mod_add.
Qed.

Lemma trim_left_id c s : is_space c = false → trim_left (c :: s) = c :: s.
Proof. intros H. cbn [trim_left]. by rewrite H. Qed.

Lemma trim_id s : s ≠ [] → Forall (λ c, is_space c = false) s → trim s = s.
Proof.
  intros Hne HF. unfold trim. destruct s as [|c s]; [done|].
  rewrite trim_left_id; [|by apply Forall_cons in HF as [? _]].
  destruct (rev (c :: s)) as [|d t] eqn:E.
  - by apply (f_equal (@rev Z)) in E; rewrite rev_involutive in E.
  - rewrite trim_left_id; [by rewrite -E rev_involutive|].
    rewrite Forall_forall in HF. apply HF. rewrite list_elem_of_In in_rev E. by left.
Qed.

Lemma base64clean_rfc4648 bs : Forall is_byte bs → base64clean (rfc4648 bs) = rfc4648 bs.
Proof.
  intros HF. destruct (decide (bs = [])) as [->|Hne]; [done|].
  destruct (rfc4648_shape bs HF Hne) as (u & k & E & Hk & Hl & Hm & Hf).
  rewrite E. unfold base64clean. rewrite trim_id.
  - rewrite List.filter_app.
    assert (List.filter base64_char u = u) as ->.
    { clear -Hf. induction Hf as [|c u [Hc _] _ IH]; [done|]. cbn. by rewrite Hc IH. }
    assert (List.filter base64_char (replicate k 61) = []) as ->.
    { clear. induction k; [done|]. cbn. done. }
    rewrite app_nil_r. replace (length u <? 2)%nat with false by (symmetry; apply Nat.ltb_ge; lia).
    unfold pad4. rewrite length_app length_replicate in Hm.
    rewrite -Nat.Div0.add_mod_idemp_l in Hm. pose proof (Nat.mod_upper_bound (length u) 4).
    destruct (length u mod 4)%nat as [|[|[|[|m]]]] eqn:Em; [| | | |lia].
    all: destruct k as [|[|[|k]]]; cbn in Hm; try lia; by rewrite ?app_nil_r.
  - destruct u; [cbn in Hl; lia|done].
  - apply Forall_app. split; [by eapply Forall_impl; [exact Hf|intros ? []]|].
    clear. induction k; constructor; done.
Qed.

Lemma toHex_facts n : 0 <= n < 256 →
  length (toHex n) = 2%nat ∧ parse_hex (toHex n) = Some n.
Proof.
  intros Hn. pose proof (range_check
    (λ n, bool_decide (length (toHex n) = 2%nat ∧ parse_hex (toHex n) = Some n)) 0 256
    ltac:(by vm_compute) n ltac:(lia)) as H. by apply bool_decide_eq_true in H.
Qed.

Lemma hex_loop_bytes bs : ∀ pre old,
  Forall is_byte bs → length old = length bs →
  hex_loop true (length bs) (pre ++ old) (concat (map toHex bs)) (blen pre) = Ok (pre ++ bs).
Proof.
  induction bs as [|x bs IH]; intros pre old HF Hl; destruct old as [|y old]; try done.
  apply Forall_cons in HF as [Hx HF]. destruct (toHex_facts x Hx) as [H2 Hp].
  cbn [length hex_loop map concat]. rewrite -H2 take_app_length drop_app_length Hp.
  rewrite (store_split0 true pre [y] old); [|cbn; lia]. cbn [insert list_insert app].
  change (norm true x) with (x mod 256). rewrite Z.mod_small; [|apply Hx].
  change (pre ++ x :: old) with (pre ++ [x] ++ old). rewrite app_assoc.
  replace (blen pre + 1) with (blen (pre ++ [x])) by (rewrite blen_app; done).
  rewrite IH; [by rewrite -app_assoc|done|cbn in Hl; lia].
Qed.

Lemma hex_length bs : Forall is_byte bs → length (concat (map toHex bs)) = (2 * length bs)%nat.
Proof.
  induction 1 as [|x bs Hx _ IH]; [done|]. cbn [map concat length].
  rewrite length_app IH (proj1 (toHex_facts x Hx)). lia.
Qed.

Lemma hexWrite_whole bs :
  Forall is_byte bs →
  hexWrite true (allocate (blen bs)) (concat (map toHex bs)) 0 (Some (blen bs)) = Ok (bs, blen bs).
Proof.
  intros HF. unfold hexWrite. rewrite hex_length // blen_allocate; [|unfold blen; lia].
  rewrite Z.sub_0_r Z.ltb_irrefl.
  assert (match blen bs with 0 => blen bs | _ => blen bs end = blen bs) as -> by by destruct (blen bs).
  replace (Z.of_nat (2 * length bs) mod 2 =? 0) with true
    by (symmetry; apply Z.eqb_eq; zdm). cbn [negb].
  replace (Z.of_nat (2 * length bs) / 2) with (blen bs) by (unfold blen; zdm).
  rewrite Z.ltb_irrefl. unfold blen. rewrite Nat2Z.id.
  pose proof (hex_loop_bytes bs [] (allocate (blen bs)) HF) as H. cbn [app] in H.
  change (blen []) with 0 in H. unfold allocate, blen in *. rewrite Nat2Z.id in H |- *.
  rewrite H; [|by rewrite length_replicate]. cbn [mbind res_bind]. do 2 f_equal. lia.
Qed.

Lemma slice_for_base64 b :
  Forall is_byte b → slice_for EBase64 b = rfc4648 b.
Proof.
  intros HF. cbn [slice_for]. unfold base64Slice. rewrite !Z.eqb_refl. cbn [andb].
  by apply uint8ToBase64_ref.
Qed.

Lemma rfc4648_nonempty b : b ≠ [] → rfc4648 b ≠ [].
Proof. by destruct b as [|? [|? [|? ?]]]. Qed.

Lemma fromString_base64 b :
  Forall is_byte b → b ≠ [] → blen b < 2147483648 →
  fromString (rfc4648 b) #"base64" = Ok b.
Proof.
  intros HF Hne Hmax. assert (base64ToBytes (rfc4648 b) = Ok b) as Hb.
  { unfold base64ToBytes. rewrite base64clean_rfc4648 //. by apply decode_rfc4648. }
  apply (fromString_bytes _ _ EBase64); [done..| |done|done|done].
  unfold byteLength. destruct (Z.eqb_spec (Z.of_nat (length (rfc4648 b))) 0) as [E|_].
  - destruct (rfc4648 b) eqn:E'; [by apply rfc4648_nonempty in E'|cbn in E; lia].
  - by rewrite Hb.
Qed.

Lemma fromString_hex b :
  Forall is_byte b → b ≠ [] → blen b < 1073741824 →
  fromString (concat (map toHex b)) #"hex" = Ok b.
Proof.
  intros HF Hne Hmax. pose proof (hex_length b HF) as Hl.
  assert (0 < blen b) by (destruct b; [done|unfold blen; cbn; lia]).
  unfold fromString. cbv beta iota zeta.
  assert (byteLength (concat (map toHex b)) #"hex" = Ok (blen b)) as Hbl.
  { unfold byteLength. rewrite Hl. cbv zeta.
    destruct (Z.eqb_spec (Z.of_nat (2 * length b)) 0) as [E|_]; [unfold blen in *; lia|].
    change (byteLength_case #"hex") with (Some EHex). cbv beta iota.
    rewrite jushr_div; [|unfold blen in *; lia..]. f_equal. unfold blen. change (2 ^ 1) with 2. zdm. }
  change (match #"hex" with [] => #"utf8" | _ => #"hex" end) with #"hex".
  rewrite Hbl. cbn [mbind res_bind]. rewrite to_int32_small; [|lia].
  unfold write. cbn [write_normal]. rewrite blen_allocate ?Z.sub_0_r ?Z.ltb_irrefl; [|lia].
  replace (blen b <? 0) with false by (symmetry; apply Z.ltb_ge; lia).
  rewrite andb_false_r. cbn [orb].
  change (match #"hex" with [] => #"utf8" | _ => #"hex" end) with #"hex".
  change (encoding_of #"hex") with (Some EHex). cbv beta iota. by rewrite hexWrite_whole.
Qed.

(** The base64 and hex text of a nonempty buffer, read back into a
    buffer, give the same bytes. *)
Theorem buffer_bytes_roundtrip e b :
  e = EBase64 ∨ e = EHex → wf_buffer b → b ≠ [] → blen b < 1073741824 →
  ∃ s, toString b (encoding_name e) = Ok s ∧ fromString s (encoding_name e) = Ok b.
Proof.
  intros He Hwf Hne Hmax. exists (slice_for e b).
  split; [apply toString_whole; [by destruct He; subst..|done|lia]|].
  destruct He as [->| ->]; cbn [encoding_name].
  - rewrite slice_for_base64 //. apply fromString_base64; [done..|lia].
  - cbn [slice_for]. unfold hexSlice. rewrite Z.ltb_irrefl.
    assert (0 < blen b) by (destruct b; [done|unfold blen; cbn; lia]).
    replace (blen b =? 0) with false by (symmetry; apply Z.eqb_neq; lia).
    replace (blen b <? 0) with false by (symmetry; apply Z.ltb_ge; lia).
    cbn [orb]. cbn [Z.ltb Z.compare]. rewrite Z.ltb_irrefl window_all. by apply fromString_hex.
Qed.

Lemma buffer_bytes_roundtrip_witness : ∃ s, toString [0; 255; 16] #"hex" = Ok s ∧ fromString s #"hex" = Ok [0; 255; 16].
Proof.
  apply (buffer_bytes_roundtrip EHex [0; 255; 16]);
    [by right|apply byte_check; reflexivity|done|reflexivity].
Defined.

(** The bytes a unit string becomes: its low halves. *)
Lemma btoa_spec s :
  Z.of_nat (length s) < 2147483648 → btoa s = Ok (rfc4648 (asciiToBytes s)).
Proof.
  intros Hmax. unfold btoa.
  assert (Forall is_byte (asciiToBytes s)) as HF.
  { unfold asciiToBytes. induction s as [|c s IH]; [done|]. constructor.
    - rewrite jand_255. unfold is_byte. zdm.
    - apply IH. cbn [length] in Hmax. lia. }
  assert (blen (asciiToBytes s) = Z.of_nat (length s)) as Hl
    by (unfold blen, asciiToBytes; by rewrite length_map).
  assert (fromString s #"binary" = Ok (asciiToBytes s)) as ->.
  { apply (fromString_bytes s #"binary" EBinary); [done..| |by rewrite Hl|done|done].
    rewrite Hl. unfold byteLength. destruct (Z.eqb_spec (Z.of_nat (length s)) 0) as [E|_]; [by rewrite E|done]. }
  cbn [mbind res_bind]. destruct (decide (asciiToBytes s = [])) as [->|E]; [done|].
  rewrite (toString_whole _ _ EBase64) //; [by rewrite slice_for_base64|by rewrite Hl].
Qed.

(** ** Comparison and search *)

(** The order of byte strings, shorter first on a common prefix. *)
Fixpoint lex_lt (a b : list Z) : Prop :=
  match a, b with
  | _, [] => False
  | [], _ :: _ => True
  | x :: a, y :: b => x < y ∨ (x = y ∧ lex_lt a b)
  end.

(** [compare] is the lexicographic order: -1, 0 and 1 exactly when the
    first buffer is below, equal to and above the second. *)
Theorem compare_lexicographic a b :
  (compare a b = -1 ↔ lex_lt a b) ∧ (compare a b = 0 ↔ a = b) ∧
  (compare a b = 1 ↔ lex_lt b a) ∧ (equals false a b = true ↔ a = b).
Proof.
  assert ((compare a b = -1 ↔ lex_lt a b) ∧ (compare a b = 0 ↔ a = b) ∧
          (compare a b = 1 ↔ lex_lt b a)) as H.
  { revert b. induction a as [|x a IH]; intros [|y b]; cbn; [naive_solver lia..|].
    destruct (IH b) as (H1 & H2 & H3).
    destruct (Z.eqb_spec x y) as [->|Hne].
    - rewrite H1 H2 H3. split_and!; split; naive_solver lia.
    - destruct (Z.ltb_spec x y); split_and!; split; naive_solver lia. }
  split_and!; [apply H..|]. unfold equals. cbn [orb]. rewrite Z.eqb_eq. apply H.
Qed.

(** The pattern occurs in the buffer at position [p]. *)
Definition occurs_at (arr val : list Z) (p : Z) : Prop :=
  0 <= p ∧ ∀ k, 0 <= k < blen val → cell arr (p + k) = cell val k.

Lemma arrayIndexOf_loop_sound n arr val o : ∀ i found r,
  0 <= o → 0 < blen val → -1 <= found <= i → 0 <= i →
  (found ≠ -1 → ∀ k, 0 <= k < i - found → cell arr (o + found + k) = cell val k) →
  arrayIndexOf_loop n arr val o i found = r → r ≠ -1 → o <= r ∧ occurs_at arr val r.
Proof.
  induction n as [|n IH]; intros i found r Ho Hv Hf Hi Hk E Hr; cbn [arrayIndexOf_loop] in E; [congruence|].
  case_bool_decide as C.
  - set (f := if found =? -1 then i else found) in *.
    assert (0 <= f <= i) as Hf' by (unfold f; destruct (Z.eqb_spec found (-1)); lia).
    assert (∀ k, 0 <= k < i - f + 1 → cell arr (o + f + k) = cell val k) as Hk'.
    { intros k Hk1. unfold f in *. destruct (Z.eqb_spec found (-1)).
      - replace k with 0 in * by lia. by rewrite -C Z.add_0_r.
      - destruct (Z.eq_dec k (i - found)) as [->|]; [rewrite -C; f_equal; lia|apply Hk; lia]. }
    destruct (Z.eqb_spec (i - f + 1) (blen val)) as [El|_].
    + subst r. split; [lia|]. split; [lia|]. intros k Hk1. apply Hk'. lia.
    + eapply (IH (i + 1) f r); [done|done|lia|lia| |done|done]. intros _ k Hk1. apply Hk'. lia.
  - eapply (IH (i + 1) (-1) r); [done|done|lia|lia|done|done|done].
Qed.

(** A position [indexOf] reports holds the pattern, and lies at or after
    the requested offset; the empty buffer and an offset past the end give -1. *)
Theorem indexOf_sound b val off :
  0 < blen val → 0 <= off < 2147483648 →
  let r := indexOf b val off in
  (blen b <= off → r = -1) ∧ (r ≠ -1 → off <= r ∧ occurs_at b val r).
Proof.
  intros Hv Hoff r. unfold r, indexOf.
  replace (2147483647 <? off) with false by (symmetry; apply Z.ltb_ge; lia).
  replace (off <? -2147483648) with false by (symmetry; apply Z.ltb_ge; lia). cbv zeta.
  destruct (Z.eqb_spec (blen b) 0); [done|].
  destruct (Z.leb_spec (blen b) off); [done|].
  replace (off <? 0) with false by (symmetry; apply Z.ltb_ge; lia).
  split; [lia|]. intros Hr. eapply arrayIndexOf_loop_sound; [| |..|done|done]; [lia|lia|lia|lia|done].
Qed.

Lemma indexOf_sound_witness : (blen [7; 1; 2] <= 0 → indexOf [7; 1; 2] [1; 2] 0 = -1) ∧
  (indexOf [7; 1; 2] [1; 2] 0 ≠ -1 → 0 <= indexOf [7; 1; 2] [1; 2] 0 ∧ occurs_at [7; 1; 2] [1; 2] (indexOf [7; 1; 2] [1; 2] 0)).
Proof. apply (indexOf_sound [7; 1; 2] [1; 2] 0); [reflexivity|lia]. Defined.

(** The search restarts after a partial match without backing up: in
    1 1 2 it does not find the 1 2 at position 1. *)
Theorem indexOf_misses :
  ∃ b val, indexOf b val 0 = -1 ∧ occurs_at b val 1.
Proof.
  exists [1; 1; 2], [1; 2]. split; [done|]. split; [done|].
  intros k Hk. change (blen [1; 2]) with 2 in Hk.
  assert (k = 0 ∨ k = 1) as [->| ->] by lia; done.
Qed.

(** ** Concatenation *)

Lemma copy_item item pre zs :
  wf_buffer item → (length item <= length zs)%nat →
  copy false item (pre ++ zs) (blen pre) 0 None
  = Ok (pre ++ item ++ drop (length item) zs, blen item).
Proof.
  intros Hwf Hl. destruct (decide (item = [])) as [->|Hne].
  { unfold copy. cbn [default length]. by rewrite drop_0. }
  assert (0 < blen item) as Hpos by (destruct item; [done|unfold blen; cbn; lia]).
  change (copy false item (pre ++ zs) (blen pre) 0 None)
    with (copy false item (pre ++ zs) (blen pre) 0 (Some (blen item))).
  assert (copied item (pre ++ zs) (blen pre) 0 (blen item) = item) as Hc.
  { unfold copied. rewrite blen_app Z.min_id drop_0. apply take_ge. unfold blen in *. lia. }
  rewrite copy_window; [|done|done|rewrite blen_app; unfold blen in *; lia|lia|lia|
    rewrite blen_app; unfold blen in *; lia]. rewrite Hc. do 2 f_equal.
  rewrite -{1}(take_drop (length item) zs) splice_split //. rewrite length_take. lia.
Qed.

Lemma concat_fold_spec l : ∀ pre zs,
  Forall wf_buffer l → length zs = length (concat l) →
  fold_res (λ '(buf, pos) item, '(buf', _) ← copy false item buf pos 0 None;
                                Ok (buf', pos + blen item)) l (pre ++ zs, blen pre)
  = Ok (pre ++ concat l, blen (pre ++ concat l)).
Proof.
  induction l as [|item l IH]; intros pre zs HF Hl; cbn [concat fold_res] in *.
  - destruct zs; [|done]. by rewrite app_nil_r.
  - apply Forall_cons in HF as [Hi HF]. rewrite length_app in Hl.
    rewrite copy_item //; [|lia]. cbn [mbind res_bind].
    rewrite app_assoc. replace (blen pre + blen item) with (blen (pre ++ item)) by apply blen_app.
    rewrite IH //; [by rewrite -!app_assoc|rewrite length_drop; lia].
Qed.

Lemma total_length l n : fold_left (λ n item, n + blen item) l n = n + blen (concat l).
Proof.
  revert n. induction l as [|b l IH]; intros n; cbn [fold_left concat]; [unfold blen; cbn; lia|].
  rewrite IH blen_app. lia.
Qed.

(** [Buffer.concat] without a length is the concatenation of the
    buffers, whatever their number and sizes, below the size limit. *)
Theorem buffer_concat_spec l :
  Forall wf_buffer l → blen (concat l) < kMaxLength true → buffer_concat l None = Ok (concat l).
Proof.
  intros HF Hmax. unfold buffer_concat. destruct l as [|b l]; [done|].
  match goal with |- context [default ?x None] => change (default x None) with x end. cbv zeta. rewrite total_length Z.add_0_l. unfold fromNumber, checked.
  assert (0 <= blen (concat (b :: l))) by (unfold blen; lia).
  replace (_ <? 0) with false by (symmetry; apply Z.ltb_ge; lia).
  replace (_ <=? _) with false by (symmetry; apply Z.leb_gt; lia).
  rewrite to_int32_small; [|change (kMaxLength true) with 2147483647 in Hmax; lia]. cbn [fmap res_fmap mbind res_bind].
  pose proof (concat_fold_spec (b :: l) [] (allocate (blen (concat (b :: l)))) HF) as H'.
  unfold concat_fold. change (blen []) with 0 in H'. cbn [app] in H'.
  rewrite H' //. unfold allocate, blen. rewrite length_replicate. lia.
Qed.

Lemma buffer_concat_spec_witness : buffer_concat [[1; 2]; []; [3]] None = Ok [1; 2; 3].
Proof.
  apply (buffer_concat_spec [[1; 2]; []; [3]]); [|reflexivity].
  repeat (constructor; [by apply byte_check|]). constructor.
Defined.
