(* ===== verification/Double.v ===== *)
(** * Doubles

    The numbers of the language where they are not integers: the binary64 numbers of
    [SpecFloat], whose operations round to the nearest, ties to even. The code of
    ieee754 multiplies and divides by powers of two, and adds numbers that are far
    smaller: the lemmas say when this is exact. *)

From S2P Require Import Prelude Int32.
From Stdlib Require Import SpecFloat.

(** ** Operations *)

Definition dmul : spec_float → spec_float → spec_float := SFmul 53 1024.
Definition ddiv : spec_float → spec_float → spec_float := SFdiv 53 1024.
Definition dadd : spec_float → spec_float → spec_float := SFadd 53 1024.
Definition dsub : spec_float → spec_float → spec_float := SFsub 53 1024.

(** The double nearest to [m * 2 ^ e]. *)
Definition num (m e : Z) : spec_float := binary_normalize 53 1024 m e false.
(** [Math.pow(2, k)] *)
Definition pow2 (k : Z) : spec_float := num 1 k.

Definition is_nan (x : spec_float) : bool := match x with S754_nan => true | _ => false end.

(** The integer that a bit operator takes a number for, before it is wrapped. *)
Definition to_integer (x : spec_float) : Z :=
  match x with
  | S754_finite s m e => (if s then Z.opp else id) (Z.shiftl (Zpos m) e)
  | _ => 0
  end.

(** ** Rounding *)

Lemma digits2_log2 m : 0 < m → Zdigits2 m = Z.log2 m + 1.
Proof.
  destruct m as [|p|p]; try lia. intros _. cbn [Zdigits2]. induction p as [p IH|p IH|]; cbn [digits2_pos]; [| |done].
  - rewrite Pos2Z.inj_succ IH. change (Zpos p~1) with (2 * Zpos p + 1). rewrite Z.log2_succ_double; lia.
  - rewrite Pos2Z.inj_succ IH. change (Zpos p~0) with (2 * Zpos p). rewrite Z.log2_double; lia.
Qed.

(** A number that is a double, and the exponent of its mantissa. *)
Definition expo (m k : Z) : Z := Z.max (Z.log2 m + k - 52) (-1074).
Definition fits (m k : Z) : Prop := 0 < m ∧ expo m k <= k ∧ Z.log2 m + k <= 1023.
Definition finite (s : bool) (m k : Z) : spec_float := S754_finite s (Z.to_pos (m * 2 ^ (k - expo m k))) (expo m k).

Lemma fexp_expo m k : 0 < m → fexp 53 1024 (Zdigits2 m + k) = expo m k.
Proof. intros H. unfold fexp, emin, expo. rewrite digits2_log2 //. f_equal; lia. Qed.

Lemma log2_shift m n : 0 < m → 0 <= n → Z.log2 (m * 2 ^ n) = Z.log2 m + n.
Proof. intros Hm Hn. rewrite Z.log2_mul_pow2 //; lia. Qed.

Lemma expo_shift m k n : 0 < m → 0 <= n → expo (m * 2 ^ n) (k - n) = expo m k.
Proof. intros Hm Hn. unfold expo. rewrite log2_shift //. f_equal; lia. Qed.

Lemma pow_pos n : 0 <= n → 0 < 2 ^ n.
Proof. intros H. by apply Z.pow_pos_nonneg. Qed.

Lemma shift_pos m n : 0 < m → 0 <= n → 0 < m * 2 ^ n.
Proof. intros H1 H2. pose proof (pow_pos n H2). nia. Qed.

Lemma iter_pos_nat {A} (f : A → A) p : ∀ x, iter_pos f p x = Nat.iter (Pos.to_nat p) f x.
Proof.
  induction p as [p IH|p IH|]; intros x; cbn [iter_pos].
  - rewrite !IH -Nat.iter_add. replace (Pos.to_nat p~1) with (Pos.to_nat p + Pos.to_nat p + 1)%nat by lia.
    rewrite (Nat.iter_add (Pos.to_nat p + Pos.to_nat p) 1). done.
  - rewrite !IH -Nat.iter_add. f_equal. lia.
  - done.
Qed.

Lemma shr_1_spec m r s : 0 <= m → shr_1 {| shr_m := m; shr_r := r; shr_s := s |} = {| shr_m := m / 2; shr_r := Z.odd m; shr_s := r || s |}.
Proof.
  intros Hm. destruct m as [|[p|p|]|p]; try lia; cbn [shr_1 Z.odd]; try done; f_equal.
  - change (Zpos p~1) with (2 * Zpos p + 1). rewrite (Z.mul_comm 2) Z.div_add_l; [|lia]. rewrite Z.div_small; lia.
  - change (Zpos p~0) with (2 * Zpos p). rewrite (Z.mul_comm 2) Z.div_mul; lia.
Qed.

(** What is shifted out, rounded to the half and the rest. *)
Lemma shr_spec m n : 0 <= m → Nat.iter (S n) shr_1 {| shr_m := m; shr_r := false; shr_s := false |} =
  {| shr_m := m / 2 ^ Z.of_nat (S n); shr_r := Z.odd (m / 2 ^ Z.of_nat n); shr_s := negb (m mod 2 ^ Z.of_nat n =? 0) |}.
Proof.
  intros Hm. induction n as [|n IH].
  - cbn [Nat.iter nat_rect]. rewrite shr_1_spec //. change (2 ^ Z.of_nat 1) with 2. change (2 ^ Z.of_nat 0) with 1. by rewrite Z.div_1_r Z.mod_1_r.
  - rewrite Nat.iter_succ IH. assert (0 < 2 ^ Z.of_nat n) as Hp by (apply pow_pos; lia).
    rewrite shr_1_spec; [|apply Z.div_pos; [done|apply pow_pos; lia]]. rewrite !Nat2Z.inj_succ !Z.pow_succ_r; try lia. f_equal.
    + rewrite Z.div_div; [f_equal; lia|lia|lia].
    + rewrite (Z.mul_comm 2) Z.rem_mul_r; [|lia|lia]. rewrite Zmod_odd. pose proof (Z.mod_pos_bound m (2 ^ Z.of_nat n) Hp).
      destruct (Z.odd (m / 2 ^ Z.of_nat n)); cbn [orb].
      * symmetry. apply negb_true_iff, Z.eqb_neq. lia.
      * f_equal. f_equal. lia.
Qed.

Lemma shr_exact m n e : 0 <= m → 0 <= n → shr {| shr_m := m * 2 ^ n; shr_r := false; shr_s := false |} e n = ({| shr_m := m; shr_r := false; shr_s := false |}, e + n).
Proof.
  intros Hm Hn. destruct n as [|p|p]; [cbn; by rewrite Z.mul_1_r Z.add_0_r| |lia]. cbn [shr]. f_equal. rewrite iter_pos_nat.
  destruct (Pos2Nat.is_succ p) as [n En]. rewrite En shr_spec; [|pose proof (pow_pos (Zpos p) ltac:(lia)); nia].
  assert (Zpos p = Z.of_nat (S n)) as -> by lia. pose proof (pow_pos (Z.of_nat n) ltac:(lia)) as Hp.
  assert (m * 2 ^ Z.of_nat (S n) = m * 2 * 2 ^ Z.of_nat n) as E by (rewrite Nat2Z.inj_succ Z.pow_succ_r; lia). f_equal.
  - rewrite Z.div_mul //. apply Z.pow_nonzero; lia.
  - rewrite E Z.div_mul; [|lia]. rewrite Z.odd_mul. cbn. apply andb_false_r.
  - rewrite E Z.mod_mul //. lia.
Qed.

(** A mantissa that needs no more rounding. *)
Lemma round_done s m k : fits m k →
  (let '(mrs, e) := shr_fexp 53 1024 (m * 2 ^ (k - expo m k)) (expo m k) loc_Exact in
   match shr_m mrs with
   | 0 => S754_zero s
   | Zpos p => if e <=? 1024 - 53 then S754_finite s p e else S754_infinity s
   | Zneg _ => S754_nan
   end) = finite s m k.
Proof.
  intros (Hm & He & Hk). set (e := expo m k) in *. pose proof (shift_pos m (k - e) Hm ltac:(lia)) as Hp. unfold shr_fexp.
  assert (fexp 53 1024 (Zdigits2 (m * 2 ^ (k - e)) + e) = e) as ->.
  { rewrite fexp_expo //. unfold e at 3. rewrite -(expo_shift m k (k - e)); [f_equal; lia|done|lia]. }
  rewrite Z.sub_diag. cbn [shr_record_of_loc shr shr_m]. unfold finite. fold e.
  destruct (m * 2 ^ (k - e)) as [|p|p] eqn:Ep; try lia. cbn [Z.to_pos]. assert (e <=? 1024 - 53 = true) as -> by (unfold e, expo in *; lia). done.
Qed.

Lemma round_exact s m k mx ex : fits m k → ex <= expo m k → mx = m * 2 ^ (k - ex) → binary_round_aux 53 1024 s mx ex loc_Exact = finite s m k.
Proof.
  intros Hf Hex ->. pose proof Hf as (Hm & He & Hk). rewrite -round_done //. unfold binary_round_aux. set (e := expo m k) in *.
  assert (shr_fexp 53 1024 (m * 2 ^ (k - ex)) ex loc_Exact = ({| shr_m := m * 2 ^ (k - e); shr_r := false; shr_s := false |}, e)) as ->; [|done].
  unfold shr_fexp. assert (fexp 53 1024 (Zdigits2 (m * 2 ^ (k - ex)) + ex) = e) as ->.
  { rewrite fexp_expo; [|apply shift_pos; lia]. unfold e. rewrite -(expo_shift m k (k - ex)); [f_equal; lia|done|lia]. }
  cbn [shr_record_of_loc]. replace (k - ex) with ((k - e) + (e - ex)) by lia. rewrite Z.pow_add_r; [|lia|lia]. rewrite Z.mul_assoc.
  pose proof (shift_pos m (k - e) Hm ltac:(lia)) as Hp. rewrite shr_exact; [|lia|lia]. f_equal. lia.
Qed.

(** ** Exact operations *)

Lemma shl_align_spec mx ex ex' : ex' <= ex → Zpos (fst (shl_align mx ex ex')) = Zpos mx * 2 ^ (ex - ex').
Proof.
  intros H. unfold shl_align. destruct (ex' - ex) as [|p|p] eqn:E; [|lia|]; cbn [fst].
  - assert (ex - ex' = 0) as -> by lia. lia.
  - assert (ex - ex' = Zpos p) as -> by lia. clear. induction p as [|p IH] using Pos.peano_ind.
    + cbn. lia.
    + rewrite Pos.iter_succ Pos2Z.inj_succ Z.pow_succ_r; [|lia]. change (Zpos (Pos.iter xO mx p)~0) with (2 * Zpos (Pos.iter xO mx p)). lia.
Qed.

Lemma round_fits s p k : fits (Zpos p) k → binary_round 53 1024 s p k = finite s (Zpos p) k.
Proof.
  intros Hf. pose proof Hf as (Hm & He & Hk). unfold binary_round.
  pose proof (fexp_expo (Zpos p) k Hm) as Hx. cbn [Zdigits2] in Hx. rewrite Hx.
  destruct (shl_align p k (expo (Zpos p) k)) as [mz ez] eqn:E.
  assert (ez = expo (Zpos p) k ∧ Zpos mz = Zpos p * 2 ^ (k - ez)) as [-> Hmz].
  { pose proof (shl_align_spec p k (expo (Zpos p) k) He) as H. rewrite E in H. cbn [fst] in H. unfold shl_align in E.
    destruct (expo (Zpos p) k - k) eqn:Ed; [|lia|]; injection E as <- <-; (split; [lia|]); [assert (k - k = 0) as -> by lia; lia|done]. }
  apply round_exact; [done|lia|done].
Qed.

Lemma num_fits m k : fits m k → num m k = finite false m k.
Proof. intros Hf. pose proof Hf as (Hm & _). unfold num, binary_normalize. destruct m as [|p|p]; try lia. by apply round_fits. Qed.

Lemma fits_shift m k n : fits m k → 0 <= n → fits (m * 2 ^ n) (k - n) → num (m * 2 ^ n) (k - n) = num m k.
Proof.
  intros H Hn H'. rewrite !num_fits //. destruct H as (Hm & He & _). unfold finite. rewrite expo_shift //. f_equal. f_equal.
  rewrite -Z.mul_assoc -Z.pow_add_r; [f_equal; f_equal; lia|lia|]. destruct H' as (_ & H' & _). rewrite expo_shift // in H'. lia.
Qed.

Lemma fits_pow k : -1074 <= k <= 1023 → fits 1 k.
Proof. intros H. unfold fits, expo. change (Z.log2 1) with 0. lia. Qed.

Lemma mantissa m k : fits m k → Zpos (Z.to_pos (m * 2 ^ (k - expo m k))) = m * 2 ^ (k - expo m k).
Proof. intros (Hm & He & _). apply Z2Pos.id, shift_pos; lia. Qed.

Lemma dmul_signed s m k j : fits m k → fits 1 j → fits m (k + j) → dmul (finite s m k) (num 1 j) = finite s m (k + j).
Proof.
  intros H1 H2 H3. rewrite num_fits //. unfold finite at 1 2. unfold dmul, SFmul. rewrite Pos2Z.inj_mul !mantissa // xorb_false_r.
  pose proof H1 as (Hm & He & _). pose proof H2 as (_ & Hj & _). pose proof (Z.log2_nonneg m). unfold expo in He, Hj. change (Z.log2 1) with 0 in Hj.
  apply (round_exact s m (k + j)); [done|unfold expo; change (Z.log2 1) with 0; lia|].
  rewrite Z.mul_1_l -Z.mul_assoc -Z.pow_add_r; [f_equal; f_equal; lia|unfold expo; lia|unfold expo; change (Z.log2 1) with 0; lia].
Qed.

Lemma dmul_pow m k j : fits m k → fits 1 j → fits m (k + j) → dmul (num m k) (num 1 j) = num m (k + j).
Proof. intros H1 H2 H3. rewrite (num_fits m k) // (num_fits m (k + j)) //. by apply dmul_signed. Qed.

(** The factor of a sign. *)
Lemma dmul_sign s m : fits m 0 → dmul (num (if s : bool then -1 else 1) 0) (num m 0) = finite s m 0.
Proof.
  intros Hf. pose proof Hf as (Hm & He & _). rewrite (num_fits m 0) //. pose proof (Z.log2_nonneg m).
  assert (num (if s then -1 else 1) 0 = finite s 1 0) as -> by (by destruct s). unfold finite at 1 2. unfold dmul, SFmul.
  rewrite Pos2Z.inj_mul mantissa; [|by apply fits_pow]. rewrite mantissa // xorb_false_r. change (expo 1 0) with (-52). unfold expo in He.
  apply (round_exact s m 0); [done|unfold expo; lia|]. rewrite Z.mul_1_l (Z.mul_comm (2 ^ _)) -Z.mul_assoc -Z.pow_add_r; [f_equal; f_equal; lia|unfold expo; lia|lia].
Qed.

Lemma ddiv_pow m k j : fits m k → fits 1 j → fits m (k - j) → ddiv (num m k) (num 1 j) = num m (k - j).
Proof.
  intros H1 H2 H3. rewrite !num_fits //. unfold finite, ddiv, SFdiv, SFdiv_core_binary. rewrite !mantissa //. set (e1 := expo m k). set (e2 := expo 1 j).
  pose proof H1 as (Hm & He & _). pose proof H2 as (_ & Hj & _). pose proof H3 as (_ & Hd & _). fold e1 in He. fold e2 in Hj.
  assert (fexp 53 1024 (Zdigits2 (m * 2 ^ (k - e1)) + e1 - (Zdigits2 (1 * 2 ^ (j - e2)) + e2)) <= k - j) as Hf.
  { rewrite !digits2_log2; [|apply shift_pos; lia|apply shift_pos; lia]. rewrite !log2_shift; [|lia|lia|lia|lia]. change (Z.log2 1) with 0.
    unfold fexp, emin. unfold expo in Hd. lia. }
  set (e' := Z.min _ (e1 - e2)). assert (e' <= k - j ∧ e' <= e1 - e2) as [Hle Hle2] by lia. assert (e' <= expo m (k - j)) as Hle3.
  { unfold e'. etrans; [apply Z.le_min_l|]. rewrite !digits2_log2; [|apply shift_pos; lia|apply shift_pos; lia]. rewrite !log2_shift; [|lia|lia|lia|lia]. change (Z.log2 1) with 0.
    unfold fexp, emin, expo. lia. }
  clearbody e'. assert (match e1 - e2 - e' with 0 => m * 2 ^ (k - e1) | Zpos _ => Z.shiftl (m * 2 ^ (k - e1)) (e1 - e2 - e') | Zneg _ => 0 end = m * 2 ^ (k - e2 - e')) as ->.
  { destruct (e1 - e2 - e') as [|p|p] eqn:Ep; [f_equal; f_equal; lia| |lia]. rewrite Z.shiftl_mul_pow2; [|lia]. rewrite -Z.mul_assoc -Z.pow_add_r; [f_equal; f_equal; lia|lia|lia]. }
  replace (k - e2 - e') with ((k - j - e') + (j - e2)) by lia. rewrite Z.pow_add_r; [|lia|lia].
  pose proof (Z_div_mod (m * (2 ^ (k - j - e') * 2 ^ (j - e2))) (1 * 2 ^ (j - e2))) as Hdm. pose proof (pow_pos (j - e2) ltac:(lia)) as Hp. specialize (Hdm ltac:(lia)).
  destruct (Z.div_eucl _ _) as [q r]. destruct Hdm as [Hq Hr].
  assert (q = m * 2 ^ (k - j - e') ∧ r = 0) as [-> ->].
  { generalize dependent (2 ^ (j - e2)). generalize (2 ^ (k - j - e')). intros a b Hb Hq Hr.
    assert (m * a - q = 0 ∨ m * a - q <= -1 ∨ 1 <= m * a - q) as [H|[H|H]] by lia; [split; [lia|nia]|nia|nia]. }
  assert (∀ n, new_location n 0 = loc_Exact) as -> by (intros n; unfold new_location; by destruct (Z.even n)).
  apply round_exact; done.
Qed.

Lemma num_integer m k : fits m k → to_integer (num m k) = Z.shiftl m k.
Proof.
  intros H. rewrite num_fits //. unfold finite, to_integer, id. rewrite mantissa //. destruct H as (Hm & He & _).
  rewrite -Z.shiftl_mul_pow2; [|lia]. rewrite Z.shiftl_shiftl; [f_equal; lia|lia].
Qed.

(** A number against a power of two. *)
Lemma compare_pow m k j : fits m k → 0 <= j <= 1023 →
  SFltb (num m k) (num 1 j) = (Z.log2 m + k <? j) ∧ SFleb (num 1 j) (num m k) = (j <=? Z.log2 m + k).
Proof.
  intros Hf Hj. pose proof (fits_pow j ltac:(lia)) as Hfj. rewrite !num_fits //. pose proof Hf as (Hm & He & Hk).
  unfold finite, SFltb, SFleb, SFcompare. change (Pos.compare_cont Eq ?a ?b) with (Z.compare (Zpos a) (Zpos b)). rewrite !mantissa //.
  assert (expo 1 j = j - 52) as -> by (unfold expo; change (Z.log2 1) with 0; lia). replace (j - (j - 52)) with 52 by lia.
  destruct (Z.lt_trichotomy (Z.log2 m + k) j) as [H|[H|H]].
  - assert (expo m k < j - 52) as Hlt by (unfold expo; lia). rewrite (proj2 (Z.compare_lt_iff _ _) Hlt) (proj2 (Z.compare_gt_iff (j - 52) _) Hlt).
    split; symmetry; [by apply Z.ltb_lt|apply Z.leb_gt; lia].
  - assert (expo m k = j - 52) as Heq by (unfold expo; lia). rewrite Heq Z.compare_refl.
    assert (2 ^ 52 <= m * 2 ^ (k - (j - 52))) as Hge.
    { pose proof (Z.log2_spec m Hm) as [Hlog _]. replace (2 ^ 52) with (2 ^ Z.log2 m * 2 ^ (k - (j - 52))); [pose proof (pow_pos (k - (j - 52)) ltac:(lia)); nia|].
      rewrite -Z.pow_add_r; [f_equal; lia|apply Z.log2_nonneg|lia]. }
    rewrite Z.mul_1_l. split.
    + rewrite (proj2 (Z.ltb_ge _ _)); [|lia]. destruct (Z.compare_spec (m * 2 ^ (k - (j - 52))) (2 ^ 52)); try done. lia.
    + rewrite (proj2 (Z.leb_le _ _)); [|lia]. destruct (Z.compare_spec (2 ^ 52) (m * 2 ^ (k - (j - 52)))); try done. lia.
  - assert (j - 52 < expo m k) as Hlt by (unfold expo; lia). rewrite (proj2 (Z.compare_gt_iff (expo m k) _) Hlt) (proj2 (Z.compare_lt_iff (j - 52) _) Hlt).
    split; symmetry; [apply Z.ltb_ge; lia|apply Z.leb_le; lia].
Qed.

(** A number from 1 to 2, without its leading digit. *)
Lemma dsub_one m k : fits m k → Z.log2 m + k = 0 → fits (m - 2 ^ (- k)) k ∨ m = 2 ^ (- k) → dsub (num m k) (num 1 0) = num (m - 2 ^ (- k)) k.
Proof.
  intros Hf H0 Hr. pose proof Hf as (Hm & He & _). pose proof (Z.log2_nonneg m). rewrite (num_fits m k) // (num_fits 1 0); [|by apply fits_pow].
  assert (expo m k = -52) as Ee by (unfold expo; lia). rewrite Ee in He. unfold finite, dsub, SFsub. rewrite Ee. change (expo 1 0) with (-52). cbv zeta.
  rewrite Z.min_id !shl_align_spec; [|lia|lia]. cbn [cond_Zopp]. rewrite -{1}Ee mantissa //. rewrite Ee.
  replace (Zpos (Z.to_pos (1 * 2 ^ (0 - -52)))) with (2 ^ (- k) * 2 ^ (k + 52)).
  2: { rewrite -Z.pow_add_r; [|lia|lia]. replace (- k + (k + 52)) with 52 by lia. done. }
  rewrite Z.sub_diag Z.pow_0_r !Z.mul_1_r. replace (k - -52) with (k + 52) by lia. rewrite -Z.mul_sub_distr_r.
  destruct Hr as [Hr| ->]; [|by rewrite Z.sub_diag].
  change (binary_normalize 53 1024 ?a ?b false) with (num a b). replace (-52) with (k - (k + 52)) by lia. apply fits_shift; [done|lia|].
  destruct Hr as (Hm' & He' & Hk'). unfold fits. rewrite expo_shift; [|done|lia]. rewrite log2_shift; [|done|lia]. split; [apply shift_pos; lia|].
  assert (Z.log2 (m - 2 ^ (- k)) <= Z.log2 m) by (apply Z.log2_le_mono; pose proof (pow_pos (- k) ltac:(lia)); lia).
  unfold expo in *. lia.
Qed.

(** A number less by a little than one of 53 binary places more is rounded to it. *)
Lemma round_up a j : fits a j → 1 <= Z.log2 a <= 51 → Z.odd a = true → -1074 <= Z.log2 a + j - 52 →
  binary_normalize 53 1024 (a * 2 ^ 53 - 1) (j - 53) false = finite false a j.
Proof.
  intros Hf Hl Hodd Hn. pose proof Hf as (Ha & He & Hk). set (d := Z.log2 a) in *. pose proof (Z.log2_spec a Ha) as [Hlo Hhi]. fold d in Hlo, Hhi.
  assert (2 ^ d < a) as Hlo'.
  { destruct (Z.eq_dec a (2 ^ d)) as [E|]; [|lia]. rewrite E Z.odd_pow in Hodd; [|lia]. done. }
  set (n := a * 2 ^ 53 - 1). assert (Z.log2 n = d + 53) as Hln.
  { apply Z.log2_unique; [lia|]. replace (Z.succ (d + 53)) with (Z.succ d + 53) by lia. rewrite (Z.pow_add_r 2 (Z.succ d) 53) ?(Z.pow_add_r 2 d 53); lia. }
  assert (0 < n) as Hn0 by (unfold n; lia).
  assert (expo a j = d + j - 52) as Ea by (unfold expo; fold d; lia).
  assert (fexp 53 1024 (Zdigits2 n + (j - 53)) = expo a j) as Hfe.
  { rewrite fexp_expo // Ea. unfold expo. rewrite Hln. lia. }
  unfold binary_normalize. destruct n as [|p|p] eqn:En; try lia. unfold binary_round. cbn [Zdigits2] in Hfe. rewrite Hfe.
  assert (shl_align p (j - 53) (expo a j) = (p, j - 53)) as ->.
  { unfold shl_align. destruct (expo a j - (j - 53)) eqn:E; [done|done|lia]. }
  rewrite -round_done //. unfold binary_round_aux.
  assert (∀ i, 0 <= i <= 52 → n / 2 ^ i = a * 2 ^ (53 - i) - 1 ∧ n mod 2 ^ i = 2 ^ i - 1) as Hdiv.
  { intros i Hi. pose proof (pow_pos i ltac:(lia)) as Hp. assert (2 ^ 53 = 2 ^ i * 2 ^ (53 - i)) as E53 by (rewrite -Z.pow_add_r; [f_equal|..]; lia).
    assert (n = 2 ^ i * (a * 2 ^ (53 - i) - 1) + (2 ^ i - 1)) as E by (unfold n; rewrite E53; ring).
    split; symmetry; [apply (Z.div_unique_pos n _ _ (2 ^ i - 1))|apply (Z.mod_unique_pos n _ (a * 2 ^ (53 - i) - 1))]; done || lia. }
  assert (shr_fexp 53 1024 (Zpos p) (j - 53) loc_Exact =
    ({| shr_m := a * 2 ^ (52 - d) - 1; shr_r := true; shr_s := true |}, expo a j)) as ->.
  { unfold shr_fexp. change (Zdigits2 (Zpos p)) with (Zpos (digits2_pos p)). rewrite Hfe -En. cbn [shr_record_of_loc].
    assert (expo a j - (j - 53) = Z.of_nat (S (Z.to_nat d))) as -> by lia.
    change (Z.of_nat (S (Z.to_nat d))) with (Zpos (Pos.of_succ_nat (Z.to_nat d))). cbn [shr]. rewrite iter_pos_nat SuccNat2Pos.id_succ shr_spec; [|lia].
    change (Zpos (Pos.of_succ_nat (Z.to_nat d))) with (Z.of_nat (S (Z.to_nat d))).
    assert (Z.of_nat (S (Z.to_nat d)) = d + 1) as -> by lia. rewrite Z2Nat.id; [|lia].
    destruct (Hdiv (d + 1)) as [-> _]; [lia|]. destruct (Hdiv d) as [-> ->]; [lia|]. f_equal; [|lia]. f_equal.
    - do 3 f_equal. lia.
    - replace (53 - d) with (Z.succ (52 - d)) by lia. rewrite Z.pow_succ_r; [|lia]. rewrite Z.odd_sub !Z.odd_mul andb_false_r. done.
    - apply negb_true_iff, Z.eqb_neq. assert (2 ^ 1 <= 2 ^ d) by (apply Z.pow_le_mono_r; lia). lia. }
  cbn [shr_m loc_of_shr_record round_nearest_even]. replace (a * 2 ^ (52 - d) - 1 + 1) with (a * 2 ^ (j - expo a j)); [done|].
  rewrite Ea. replace (j - (d + j - 52)) with (52 - d) by lia. lia.
Qed.

Lemma log2_half m i : 0 < m → 1 <= i → Z.log2 (m * 2 ^ i + 1) = Z.log2 m + i.
Proof.
  intros Hm Hi. replace i with (Z.succ (i - 1)) by lia. rewrite Z.pow_succ_r; [|lia]. replace (m * (2 * 2 ^ (i - 1)) + 1) with (2 * (m * 2 ^ (i - 1)) + 1) by lia.
  rewrite Z.log2_succ_double; [|apply shift_pos; lia]. rewrite log2_shift; lia.
Qed.

(** Half of a unit, and less by a little: the sum is rounded up. *)
Lemma dadd_half m k j : fits m k → 0 < k - j → Z.log2 m + k - j <= 51 → -1074 <= Z.log2 m + k - 52 → -1021 <= j <= 970 →
  dadd (num m k) (num (2 ^ 53 - 1) (j - 53)) = num (m * 2 ^ (k - j) + 1) j.
Proof.
  intros Hf Hkj Hl Hn Hj. pose proof Hf as (Hm & He & Hk). pose proof (Z.log2_nonneg m) as Hlm.
  assert (fits (2 ^ 53 - 1) (j - 53)) as Hf2 by (unfold fits, expo; change (Z.log2 (2 ^ 53 - 1)) with 52; lia).
  set (a := m * 2 ^ (k - j) + 1).
  assert (Z.log2 a = Z.log2 m + (k - j)) as Hla by (apply log2_half; lia).
  assert (0 < a) as Ha by (pose proof (shift_pos m (k - j) Hm ltac:(lia)); lia).
  assert (fits a j) as Hfa by (unfold fits, expo in *; lia).
  rewrite (num_fits a) // (num_fits m) // (num_fits (2 ^ 53 - 1)) //. unfold finite at 1 2. unfold dadd, SFadd. cbv zeta.
  assert (expo (2 ^ 53 - 1) (j - 53) = j - 53) as Ee by (unfold expo; change (Z.log2 (2 ^ 53 - 1)) with 52; lia). rewrite Ee.
  assert (expo m k = Z.log2 m + k - 52) as Em by (unfold expo; lia).
  assert (Z.min (expo m k) (j - 53) = j - 53) as -> by lia.
  rewrite !shl_align_spec; [|lia|lia]. cbn [cond_Zopp]. rewrite mantissa //. rewrite Z.sub_diag Z.pow_0_r !Z.mul_1_r.
  change (Zpos (Z.to_pos (2 ^ 53 - 1))) with (2 ^ 53 - 1).
  assert (m * 2 ^ (k - expo m k) * 2 ^ (expo m k - (j - 53)) + (2 ^ 53 - 1) = a * 2 ^ 53 - 1) as ->.
  { rewrite -Z.mul_assoc -Z.pow_add_r; [|lia|lia]. replace (k - expo m k + (expo m k - (j - 53))) with ((k - j) + 53) by lia. rewrite Z.pow_add_r; [|lia|lia]. unfold a. lia. }
  apply round_up; [done|lia| |lia]. unfold a. rewrite Z.odd_add Z.odd_mul Z.odd_pow; [|lia]. by rewrite andb_false_r.
Qed.

Lemma pow2_infinite k : 1024 <= k → pow2 k = S754_infinity false.
Proof.
  intros H. unfold pow2, num, binary_normalize, binary_round. cbn [digits2_pos].
  assert (fexp 53 1024 (1 + k) = k - 52) as -> by (unfold fexp, emin; lia). unfold shl_align. replace (k - 52 - k) with (-52) by lia.
  unfold binary_round_aux, shr_fexp. change (Pos.iter xO 1 52)%positive with (2 ^ 52)%positive. change (Zdigits2 (Zpos (2 ^ 52))) with 53.
  assert (fexp 53 1024 (53 + (k - 52)) = k - 52) as -> by (unfold fexp, emin; lia). rewrite Z.sub_diag. cbn [shr shr_record_of_loc shr_m loc_of_shr_record round_nearest_even].
  change (Zdigits2 (Zpos (2 ^ 52))) with 53. assert (fexp 53 1024 (53 + (k - 52)) = k - 52) as -> by (unfold fexp, emin; lia). rewrite Z.sub_diag. cbn [shr shr_m].
  by destruct (Z.leb_spec (k - 52) (1024 - 53)); [lia|].
Qed.
