(* ===== verification/Ieee754.v ===== *)
(** * ieee754, and the accessors of buffers for floating point

    The bytes of floating-point numbers: the module ieee754 of the bundle and the
    methods of [Buffer] that use it. A number is a double of [Double]; the code takes
    the exponent from [Math.floor(Math.log(value) / Math.LN2)], which is a parameter
    that may be off by one. *)

From S2P Require Import Prelude Int32 Base64 BufferCore Double.
From Stdlib Require Import SpecFloat.

(** ** Reading *)

(** [for (; nBits > 0; x = x * 256 + buffer[offset + i], i += d, nBits -= 8) {}] *)
Fixpoint get_loop (n : nat) (b : buffer) (offset d i nBits : Z) (x : option Z) : option Z * Z * Z :=
  match n with
  | O => (x, i, nBits)
  | S n =>
      if 0 <? nBits then get_loop n b offset d (i + d) (nBits - 8) (oadd (omul x 256) (cell b (offset + i)))
      else (x, i, nBits)
  end.

(** A missing cell makes the mantissa [NaN] ([None]). *)
Definition read (b : buffer) (offset : Z) (isLE : bool) (mLen nBytes : Z) : spec_float :=
  let eLen := nBytes * 8 - mLen - 1 in
  let eMax := jshl 1 eLen - 1 in
  let eBias := jshr eMax 1 in
  let nBits := -7 in
  let i := if isLE then nBytes - 1 else 0 in
  let d := if isLE then -1 else 1 in
  let s := bits (cell b (offset + i)) in
  let i := i + d in
  let e := jand s (jshl 1 (- nBits) - 1) in
  let s := jshr s (- nBits) in
  let nBits := nBits + eLen in
  let '(e, i, nBits) := get_loop (Z.to_nat nBits) b offset d i nBits (Some e) in
  let m := jand (bits e) (jshl 1 (- nBits) - 1) in
  let e := jshr (bits e) (- nBits) in
  let nBits := nBits + mLen in
  let '(m, _, _) := get_loop (Z.to_nat nBits) b offset d i nBits (Some m) in
  let signed x := dmul (num (if s =? 0 then 1 else -1) 0) x in
  let scaled m e := match m with Some m => dmul (signed (num m 0)) (pow2 (e - mLen)) | None => S754_nan end in
  if e =? 0 then scaled m (1 - eBias)
  else if e =? eMax then
    match m with
    | Some (Zpos _ | Zneg _) => S754_nan
    | _ => signed (S754_infinity false)
    end
  else scaled (oadd m (Some (2 ^ mLen))) (e - eBias).

(** ** Writing *)

Section write.
(** [Math.floor(Math.log(value) / Math.LN2)]; [None] is [-Infinity]. *)
Context (floor_log2 : spec_float → option Z).

(** [x >= n] for an exponent *)
Definition at_least (n : Z) (x : option Z) : bool := match x with Some x => n <=? x | None => false end.

(** The exponent and the mantissa of a finite number; the mantissa may have a
    fraction, which the bit operators drop. *)
Definition split_number (value : spec_float) (mLen eBias eMax : Z) (rt : spec_float) : Z * spec_float :=
  let e := floor_log2 value in
  let c := match e with Some e => pow2 (- e) | None => S754_infinity false end in
  let '(e, c) := if SFltb (dmul value c) (num 1 0) then ((λ e, e - 1) <$> e, dmul c (num 2 0)) else (e, c) in
  let value := if at_least 1 (Z.add eBias <$> e) then dadd value (ddiv rt c) else dadd value (dmul rt (pow2 (1 - eBias))) in
  let '(e, c) := if SFleb (num 2 0) (dmul value c) then ((λ e, e + 1) <$> e, ddiv c (num 2 0)) else (e, c) in
  match e with
  | Some e =>
      if eMax <=? e + eBias then (eMax, num 0 0)
      else if 1 <=? e + eBias then (e + eBias, dmul (dsub (dmul value c) (num 1 0)) (pow2 mLen))
      else (0, dmul (dmul value (pow2 (eBias - 1))) (pow2 mLen))
  | None => (0, dmul (dmul value (pow2 (eBias - 1))) (pow2 mLen))
  end.

(** [for (; len >= lim; buffer[offset + i] = x & 0xff, i += d, x /= 256, len -= 8) {}] *)
Fixpoint put_loop (n : nat) (TAS : bool) (lim : Z) (b : buffer) (offset d i len : Z) (x : spec_float) : buffer * Z * Z * spec_float :=
  match n with
  | O => (b, i, len, x)
  | S n =>
      if lim <=? len then
        put_loop n TAS lim (store TAS b (offset + i) (jand (to_integer x) 255)) offset d (i + d) (len - 8) (ddiv x (num 256 0))
      else (b, i, len, x)
  end.

(** The bytes of the mantissa, then those of the exponent, then the sign. *)
Definition put_fields (TAS : bool) (b : buffer) (e : Z) (m : spec_float) (s offset i d mLen eLen : Z) : buffer :=
  let '(b, i, mLen, m) := put_loop (Z.to_nat mLen) TAS 8 b offset d i mLen m in
  let e := jor (jshl e mLen) (to_integer m) in
  let eLen := eLen + mLen in
  let '(b, i, _, _) := put_loop (Z.to_nat eLen) TAS 1 b offset d i eLen (num e 0) in
  store TAS b (offset + i - d) (jor (bits (cell b (offset + i - d))) (s * 128)).

Definition write (TAS : bool) (b : buffer) (value : spec_float) (offset : Z) (isLE : bool) (mLen nBytes : Z) : buffer :=
  let eLen := nBytes * 8 - mLen - 1 in
  let eMax := jshl 1 eLen - 1 in
  let eBias := jshr eMax 1 in
  let rt := if mLen =? 23 then dsub (pow2 (-24)) (pow2 (-77)) else num 0 0 in
  let i := if isLE then 0 else nBytes - 1 in
  let d := if isLE then 1 else -1 in
  let s := if SFltb value (num 0 0) || (SFeqb value (num 0 0) && SFltb (ddiv (num 1 0) value) (num 0 0)) then 1 else 0 in
  let value := SFabs value in
  let '(e, m) :=
    if is_nan value || SFeqb value (S754_infinity false) then (eMax, num (if is_nan value then 1 else 0) 0)
    else split_number value mLen eBias eMax rt in
  put_fields TAS b e m s offset i d mLen eLen.

(** ** The methods of buffers *)

Definition checkIEEE754 (b : buffer) (value : spec_float) (offset ext : Z) (max min : spec_float) : res () :=
  if SFltb max value || SFltb value min then Throw (RangeError #"value is out of bounds")
  else if blen b <? offset + ext then Throw (RangeError #"index out of range")
  else if offset <? 0 then Throw (RangeError #"index out of range")
  else Ok ().

(** 3.4028234663852886e+38 and 1.7976931348623157E+308 *)
Definition float_max : spec_float := num (2 ^ 24 - 1) 104.
Definition double_max : spec_float := num (2 ^ 53 - 1) 971.

Definition writeFloat (TAS : bool) (b : buffer) (value : spec_float) (offset : Z) (littleEndian noAssert : bool) : res (buffer * Z) :=
  _ ← unless noAssert (checkIEEE754 b value offset 4 float_max (SFopp float_max));
  Ok (write TAS b value offset littleEndian 23 4, offset + 4).
Definition writeFloatLE (TAS : bool) (b : buffer) (value : spec_float) (offset : Z) (noAssert : bool) : res (buffer * Z) :=
  writeFloat TAS b value offset true noAssert.
Definition writeFloatBE (TAS : bool) (b : buffer) (value : spec_float) (offset : Z) (noAssert : bool) : res (buffer * Z) :=
  writeFloat TAS b value offset false noAssert.

Definition writeDouble (TAS : bool) (b : buffer) (value : spec_float) (offset : Z) (littleEndian noAssert : bool) : res (buffer * Z) :=
  _ ← unless noAssert (checkIEEE754 b value offset 8 double_max (SFopp double_max));
  Ok (write TAS b value offset littleEndian 52 8, offset + 8).
Definition writeDoubleLE (TAS : bool) (b : buffer) (value : spec_float) (offset : Z) (noAssert : bool) : res (buffer * Z) :=
  writeDouble TAS b value offset true noAssert.
Definition writeDoubleBE (TAS : bool) (b : buffer) (value : spec_float) (offset : Z) (noAssert : bool) : res (buffer * Z) :=
  writeDouble TAS b value offset false noAssert.
End write.

Definition readFloatLE (b : buffer) (offset : Z) (noAssert : bool) : res spec_float :=
  _ ← unless noAssert (checkOffset offset 4 (blen b)); Ok (read b offset true 23 4).
Definition readFloatBE (b : buffer) (offset : Z) (noAssert : bool) : res spec_float :=
  _ ← unless noAssert (checkOffset offset 4 (blen b)); Ok (read b offset false 23 4).
Definition readDoubleLE (b : buffer) (offset : Z) (noAssert : bool) : res spec_float :=
  _ ← unless noAssert (checkOffset offset 8 (blen b)); Ok (read b offset true 52 8).
Definition readDoubleBE (b : buffer) (offset : Z) (noAssert : bool) : res spec_float :=
  _ ← unless noAssert (checkOffset offset 8 (blen b)); Ok (read b offset false 52 8).

(** The logarithm without error. *)
Definition exact_log2 (x : spec_float) : option Z :=
  match x with S754_finite _ m e => Some (Z.log2 (Zpos m) + e) | _ => None end.

(** Numbers and their bytes. *)
Example sample_bytes :
  writeDoubleBE exact_log2 true (replicate 8 0) (num 1 0) 0 false = Ok ([63; 240; 0; 0; 0; 0; 0; 0], 8) ∧
  writeFloatBE exact_log2 true (replicate 4 0) (num (-5) (-1)) 0 false = Ok ([192; 32; 0; 0], 4) ∧
  writeDoubleLE exact_log2 true (replicate 8 0) (num 1 (-1074)) 0 false = Ok ([1; 0; 0; 0; 0; 0; 0; 0], 8) ∧
  readDoubleBE [63; 185; 153; 153; 153; 153; 153; 154] 0 false = Ok (ddiv (num 1 0) (num 10 0)) ∧
  readFloatBE [255; 128; 0; 0] 0 false = Ok (S754_infinity true).
Proof. vm_compute. done. Qed.

(** ** The interchange format

    The integer whose bits are the sign, the exponent and the fraction. *)

Definition bias (eLen : Z) : Z := 2 ^ (eLen - 1) - 1.

Definition ieee_bits (mLen eLen : Z) (v : spec_float) : Z :=
  let sign (s : bool) := if s then 2 ^ (mLen + eLen) else 0 in
  match v with
  | S754_zero s => sign s
  | S754_infinity s => sign s + (2 ^ eLen - 1) * 2 ^ mLen
  | S754_nan => (2 ^ eLen - 1) * 2 ^ mLen + 1
  | S754_finite s m e =>
      sign s + (if Zpos m <? 2 ^ mLen then Zpos m else (e + mLen + bias eLen) * 2 ^ mLen + (Zpos m - 2 ^ mLen))
  end.

Definition ieee_number (mLen eLen x : Z) : spec_float :=
  let s := negb (x / 2 ^ (mLen + eLen) =? 0) in
  let e := x / 2 ^ mLen mod 2 ^ eLen in
  let m := x mod 2 ^ mLen in
  if e =? 2 ^ eLen - 1 then if m =? 0 then S754_infinity s else S754_nan
  else if e =? 0 then match m with Zpos p => S754_finite s p (1 - bias eLen - mLen) | _ => S754_zero s end
  else S754_finite s (Z.to_pos (m + 2 ^ mLen)) (e - bias eLen - mLen).

(** The double that is a number of the format. *)
Definition widen (v : spec_float) : spec_float :=
  match v with S754_finite s m e => binary_round 53 1024 s m e | _ => v end.

(** The formats of the accessors, and their numbers. *)
Definition known (mLen nBytes eLen : Z) : Prop := (mLen = 23 ∧ nBytes = 4 ∧ eLen = 8) ∨ (mLen = 52 ∧ nBytes = 8 ∧ eLen = 11).
Definition valid (mLen eLen : Z) (v : spec_float) : Prop := valid_binary (mLen + 1) (2 ^ (eLen - 1)) v = true.

Lemma valid_cases mLen nBytes eLen s m e : known mLen nBytes eLen → valid mLen eLen (S754_finite s m e) →
  (Zpos m < 2 ^ mLen ∧ e = 1 - bias eLen - mLen) ∨
  (2 ^ mLen <= Zpos m < 2 ^ (mLen + 1) ∧ Z.log2 (Zpos m) = mLen ∧ 1 <= e + mLen + bias eLen < 2 ^ eLen - 1).
Proof.
  intros Hk Hv. unfold valid, valid_binary, bounded, canonical_mantissa in Hv. apply andb_true_iff in Hv as [Hc%Z.eqb_eq He%Z.leb_le].
  pose proof (digits2_log2 (Zpos m) ltac:(lia)) as Hd. cbn [Zdigits2] in Hd. rewrite Hd in Hc. pose proof (Z.log2_spec (Zpos m) ltac:(lia)) as [Hlo Hhi].
  unfold fexp, emin in Hc. unfold bias. assert (0 <= mLen) as Hm by (destruct Hk as [(-> & _)|(-> & _)]; lia).
  destruct (Z.lt_ge_cases (Z.log2 (Zpos m)) mLen) as [Hlt|Hge].
  - left. split; [apply Z.lt_le_trans with (1 := Hhi), Z.pow_le_mono_r; lia|].
    destruct Hk as [(-> & -> & ->)|(-> & -> & ->)]; change (2 ^ (8 - 1)) with 128 in *; change (2 ^ (11 - 1)) with 1024 in *; lia.
  - right. assert (Z.log2 (Zpos m) = mLen) as Hl by lia. rewrite Hl in Hlo, Hhi, Hc |- *. split; [done|]. split; [done|].
    destruct Hk as [(-> & -> & ->)|(-> & -> & ->)]; change (2 ^ (8 - 1)) with 128 in *; change (2 ^ (11 - 1)) with 1024 in *; change (2 ^ 8) with 256 in *; change (2 ^ 11) with 2048 in *; lia.
Qed.

(** ** Bytes *)

Lemma le_bytes_add a b x : le_bytes (a + b) x = le_bytes a x ++ le_bytes b (x / 256 ^ Z.of_nat a).
Proof.
  revert x. induction a as [|a IH]; intros x; cbn [le_bytes Nat.add app]; [by rewrite Z.div_1_r|]. rewrite IH. do 3 f_equal.
  rewrite Nat2Z.inj_succ Z.pow_succ_r; [|lia]. pose proof (pow256_pos a). rewrite Z.div_div; [done|lia|lia].
Qed.

Lemma le_bytes_mod n x y : le_bytes n (x + 256 ^ Z.of_nat n * y) = le_bytes n x.
Proof.
  revert x. induction n as [|n IH]; intros x; [done|]. cbn [le_bytes]. rewrite Nat2Z.inj_succ Z.pow_succ_r; [|lia].
  assert (x + 256 * 256 ^ Z.of_nat n * y = x + (256 ^ Z.of_nat n * y) * 256) as -> by lia. rewrite Z.mod_add; [|lia]. rewrite Z.div_add; [|lia]. by rewrite IH.
Qed.

(** A number that the loops divide. *)
Definition tame (a k : Z) : Prop := 0 <= a < 2 ^ 53 ∧ -900 <= k <= 900.

Lemma tame_fits a k : tame a k → 0 < a → fits a k.
Proof.
  intros [Ha Hk] H. assert (Z.log2 a <= 52) by (apply Z.lt_succ_r, Z.log2_lt_pow2; [done|exact (proj2 Ha)]). pose proof (Z.log2_nonneg a).
  unfold fits, expo. lia.
Qed.

Lemma tame_integer a k : tame a k → to_integer (num a k) = Z.shiftl a k.
Proof.
  intros H. destruct (Z.eq_dec a 0) as [->|Hne]; [by rewrite Z.shiftl_0_l|]. apply num_integer, tame_fits; [done|]. destruct H. lia.
Qed.

Lemma tame_divided a k : tame a k → -892 <= k → ddiv (num a k) (num 256 0) = num a (k - 8).
Proof.
  intros H Hk. destruct (Z.eq_dec a 0) as [->|Hne]; [done|]. change (num 256 0) with (num 1 8).
  destruct H as [Ha Hk']. apply ddiv_pow; [apply tame_fits; [done|lia]|by apply fits_pow|apply tame_fits; [|lia]]. split; [done|lia].
Qed.

Lemma shiftl_div a k : Z.shiftl a (k - 8) = Z.shiftl a k / 256.
Proof.
  change 256 with (2 ^ 8). rewrite -Z.shiftr_div_pow2; [|lia]. apply Z.bits_inj'. intros i Hi. rewrite Z.shiftr_spec // !Z.shiftl_spec; [f_equal; lia|lia|done].
Qed.

Lemma put_up TAS lim n : ∀ fuel pre old post offset i len a k, length old = n → (n <= fuel)%nat → offset + i = blen pre →
  lim - 8 <= len - 8 * Z.of_nat n < lim → tame a k → -900 <= k - 8 * Z.of_nat n →
  put_loop fuel TAS lim (pre ++ old ++ post) offset 1 i len (num a k) =
  (pre ++ le_bytes n (Z.shiftl a k) ++ post, i + Z.of_nat n, len - 8 * Z.of_nat n, num a (k - 8 * Z.of_nat n)).
Proof.
  induction n as [|n IH]; intros fuel pre old post offset i len a k Hl Hf Ho Hlen Ht Hk.
  - destruct old; [|done]. rewrite !Z.mul_0_r !Z.sub_0_r Z.add_0_r. cbn [le_bytes]. destruct fuel as [|fuel]; [done|]. cbn [put_loop].
    by destruct (Z.leb_spec lim len); [lia|].
  - destruct old as [|x old]; [done|]. destruct fuel as [|fuel]; [lia|]. cbn [put_loop]. destruct (Z.leb_spec lim len) as [_|]; [|lia].
    rewrite tame_integer // jand_255 Ho store_split0; [|cbn; lia]. cbn [insert list_insert app].
    assert (norm TAS (Z.shiftl a k mod 256) = Z.shiftl a k mod 256) as -> by (unfold norm; destruct TAS; [by rewrite Z.mod_mod|done]).
    rewrite tame_divided //; [|lia]. rewrite (cons_middle _ pre) app_assoc.
    rewrite (IH fuel (pre ++ [Z.shiftl a k mod 256]) old post offset (i + 1) (len - 8) a (k - 8)).
    + cbn [le_bytes]. rewrite -app_assoc shiftl_div. cbn [app]. replace (i + 1 + Z.of_nat n) with (i + Z.of_nat (S n)) by lia.
      replace (len - 8 - 8 * Z.of_nat n) with (len - 8 * Z.of_nat (S n)) by lia. replace (k - 8 - 8 * Z.of_nat n) with (k - 8 * Z.of_nat (S n)) by lia. done.
    + by injection Hl.
    + lia.
    + rewrite blen_app. change (blen [_]) with 1. lia.
    + lia.
    + destruct Ht. split; [done|lia].
    + lia.
Qed.

Lemma put_down TAS lim n : ∀ fuel pre old post offset i len a k, length old = n → (n <= fuel)%nat → offset + i = blen pre + Z.of_nat n - 1 →
  lim - 8 <= len - 8 * Z.of_nat n < lim → tame a k → -900 <= k - 8 * Z.of_nat n →
  put_loop fuel TAS lim (pre ++ old ++ post) offset (-1) i len (num a k) =
  (pre ++ be_bytes n (Z.shiftl a k) ++ post, i - Z.of_nat n, len - 8 * Z.of_nat n, num a (k - 8 * Z.of_nat n)).
Proof.
  induction n as [|n IH]; intros fuel pre old post offset i len a k Hl Hf Ho Hlen Ht Hk.
  - destruct old; [|done]. rewrite !Z.mul_0_r !Z.sub_0_r. destruct fuel as [|fuel]; [done|]. cbn [put_loop].
    by destruct (Z.leb_spec lim len); [lia|].
  - destruct old as [|x old _] using rev_ind; [done|]. rewrite length_app Nat.add_1_r in Hl. injection Hl as Hl.
    destruct fuel as [|fuel]; [lia|]. cbn [put_loop]. destruct (Z.leb_spec lim len) as [_|]; [|lia].
    rewrite tame_integer // jand_255. rewrite -app_assoc (app_assoc pre old).
    replace (offset + i) with (blen (pre ++ old)) by (rewrite blen_app; unfold blen in *; lia). rewrite store_split0; [|cbn; lia]. cbn [insert list_insert].
    assert (norm TAS (Z.shiftl a k mod 256) = Z.shiftl a k mod 256) as -> by (unfold norm; destruct TAS; [by rewrite Z.mod_mod|done]).
    rewrite tame_divided //; [|lia]. rewrite -app_assoc.
    rewrite (IH fuel pre old ([Z.shiftl a k mod 256] ++ post) offset (i + -1) (len - 8) a (k - 8)).
    + unfold be_bytes. cbn [le_bytes rev]. rewrite -app_assoc shiftl_div. replace (i + -1 - Z.of_nat n) with (i - Z.of_nat (S n)) by lia.
      replace (len - 8 - 8 * Z.of_nat n) with (len - 8 * Z.of_nat (S n)) by lia. replace (k - 8 - 8 * Z.of_nat n) with (k - 8 * Z.of_nat (S n)) by lia. done.
    + done.
    + lia.
    + lia.
    + lia.
    + destruct Ht. split; [done|lia].
    + lia.
Qed.

(** ** The exponent and the mantissa *)

Section split.
Context (floor_log2 : spec_float → option Z).
(** The logarithm is off by one at most. *)
Definition log_near : Prop := ∀ m k, fits m k → ∃ e, floor_log2 (num m k) = Some e ∧ -1 <= e - (Z.log2 m + k) <= 1.
Definition log_of_zero : Prop := floor_log2 (S754_zero false) = None.

Lemma fits_scaled m k e : fits m k → -1 <= Z.log2 m + k - e <= 1 → fits m (k - e).
Proof. intros (Hm & He & Hk) H. unfold fits, expo in *. lia. Qed.

(** The first correction: the exponent is not above, unless its power is infinite. *)
Lemma exponent_down m k e : fits m k → -1 <= e - (Z.log2 m + k) <= 1 → ∃ e',
  (if SFltb (dmul (num m k) (pow2 (- e))) (num 1 0) then ((λ e, e - 1) <$> Some e, dmul (pow2 (- e)) (num 2 0)) else (Some e, pow2 (- e))) = (Some e', pow2 (- e')) ∧
  -1 <= e' - (Z.log2 m + k) <= 1 ∧ (-1023 <= e' → e' <= Z.log2 m + k).
Proof.
  intros Hf He. pose proof Hf as (Hm & Hx & Hk). destruct (Z.le_gt_cases 1024 (- e)) as [Hinf|Hfin].
  { rewrite pow2_infinite // (num_fits m k) //. exists e. rewrite pow2_infinite //. split; [reflexivity|]. lia. }
  pose proof (fits_pow (- e) ltac:(lia)) as Hfe. unfold pow2 at 1. rewrite dmul_pow //; [|apply fits_scaled; [done|lia]].
  destruct (compare_pow m (k + - e) 0 (fits_scaled m k e Hf ltac:(lia)) ltac:(lia)) as [-> _]. destruct (Z.ltb_spec (Z.log2 m + (k + - e)) 0) as [Hlt|Hge].
  - exists (e - 1). split; [|lia]. cbn [fmap option_fmap option_map]. f_equal. change (num 2 0) with (num 1 1). unfold pow2.
    destruct (Z.eq_dec e (-1023)) as [->|Hne]; [vm_compute; reflexivity|]. rewrite dmul_pow //; [f_equal; lia|apply fits_pow; lia].
  - exists e. split; [done|]. lia.
Qed.

(** The second: it is the exponent, unless its power is infinite. *)
Lemma exponent_up m k e : fits m k → -1 <= e - (Z.log2 m + k) <= 1 → (-1023 <= e → e <= Z.log2 m + k) → ∃ e' c,
  (if SFleb (num 2 0) (dmul (num m k) (pow2 (- e))) then ((λ e, e + 1) <$> Some e, ddiv (pow2 (- e)) (num 2 0)) else (Some e, pow2 (- e))) = (Some e', c) ∧
  (-1023 <= e → e' = Z.log2 m + k ∧ c = pow2 (- e')) ∧ (e < -1023 → e' <= -1023).
Proof.
  intros Hf He Hle. pose proof Hf as (Hm & Hx & Hk). destruct (Z.le_gt_cases 1024 (- e)) as [Hinf|Hfin].
  { rewrite pow2_infinite // (num_fits m k) //. exists (e + 1), (S754_infinity false). split; [reflexivity|]. lia. }
  pose proof (fits_pow (- e) ltac:(lia)) as Hfe. specialize (Hle ltac:(lia)). unfold pow2 at 1. rewrite dmul_pow //; [|apply fits_scaled; [done|lia]].
  change (num 2 0) with (num 1 1). destruct (compare_pow m (k + - e) 1 (fits_scaled m k e Hf ltac:(lia)) ltac:(lia)) as [_ ->].
  destruct (Z.leb_spec 1 (Z.log2 m + (k + - e))) as [Hlt|Hge].
  - exists (e + 1), (pow2 (- (e + 1))). split; [|split; [intros _; split; [lia|done]|lia]]. cbn [fmap option_fmap option_map]. f_equal. unfold pow2. rewrite ddiv_pow //; [f_equal; lia|apply fits_pow; lia].
  - exists e, (pow2 (- e)). split; [done|]. split; [intros _; split; [lia|done]|lia].
Qed.

(** The mantissa of a number whose leading digit is its own, or is not. *)
Lemma mantissa_normal a j n : fits a j → -1022 <= Z.log2 a + j → 0 <= n <= 60 → ∃ k', k' = n - Z.log2 a ∧
  dmul (dsub (dmul (num a j) (pow2 (- (Z.log2 a + j)))) (num 1 0)) (pow2 n) = num (a - 2 ^ Z.log2 a) k' ∧ tame (a - 2 ^ Z.log2 a) k'.
Proof.
  intros Hf Hlow Hn. pose proof Hf as (Ha & He & Hk). set (l := Z.log2 a) in *. exists (n - l). split; [done|].
  assert (0 <= l <= 52) as Hl by (unfold expo in He; fold l in He; pose proof (Z.log2_nonneg a); lia).
  pose proof (Z.log2_spec a Ha) as [Hlo Hhi]. fold l in Hlo, Hhi. rewrite Z.pow_succ_r in Hhi; [|lia].
  assert (2 ^ l <= 2 ^ 52) as H52 by (apply Z.pow_le_mono_r; lia). change (2 ^ 52) with 4503599627370496 in H52.
  assert (tame (a - 2 ^ l) (n - l) ∧ tame (a - 2 ^ l) (- l)) as [Ht1 Ht2] by (unfold tame; change (2 ^ 53) with 9007199254740992; lia). split; [|done].
  unfold pow2. rewrite (dmul_pow a j (- (l + j))); [|done|apply fits_pow; unfold expo in He; fold l in He; lia|apply fits_scaled; [done|fold l; lia]].
  replace (j + - (l + j)) with (- l) by lia. assert (fits a (- l)) as Hfl by (replace (- l) with (j - (l + j)) by lia; apply fits_scaled; [done|fold l; lia]).
  destruct (Z.eq_dec a (2 ^ l)) as [E|Hne].
  - rewrite dsub_one; [|done|fold l; lia|right; by rewrite Z.opp_involutive]. rewrite Z.opp_involutive -E Z.sub_diag. change (num 0 ?x) with (S754_zero false).
    rewrite num_fits; [done|]. apply fits_pow; lia.
  - pose proof (tame_fits _ _ Ht2 ltac:(lia)) as Hf2. rewrite dsub_one; [|done|fold l; lia|left; by rewrite Z.opp_involutive]. rewrite Z.opp_involutive.
    rewrite dmul_pow //; [f_equal; lia|apply fits_pow; lia|]. replace (- l + n) with (n - l) by lia. apply tame_fits; [done|lia].
Qed.

Lemma mantissa_small a j p q : fits a j → fits 1 p → fits 1 q → fits a (j + p) → fits a (j + p + q) →
  dmul (dmul (num a j) (pow2 p)) (pow2 q) = num a (j + p + q).
Proof. intros H1 H2 H3 H4 H5. unfold pow2. rewrite dmul_pow // dmul_pow //. Qed.

(** A positive number of a format: below its normal numbers, or one of them. *)
Definition of_format (mLen eLen m k : Z) : Prop :=
  (0 < m < 2 ^ mLen ∧ k = 1 - bias eLen - mLen) ∨ (0 < m ∧ Z.log2 m = mLen ∧ 1 <= k + mLen + bias eLen < 2 ^ eLen - 1).

Definition rounding_term (mLen : Z) : spec_float := if mLen =? 23 then dsub (pow2 (-24)) (pow2 (-77)) else num 0 0.

Lemma format_bounds mLen nBytes eLen m k : known mLen nBytes eLen → of_format mLen eLen m k →
  0 < m ∧ 0 <= Z.log2 m <= mLen ∧ fits m k ∧
  (mLen = 23 ∧ -149 <= k <= 104 ∧ (Z.log2 m < 23 → k = -149) ∨ mLen = 52 ∧ -1074 <= k <= 971 ∧ (Z.log2 m < 52 → k = -1074)).
Proof.
  intros Hk Hf. assert (0 < m) as Hm by (destruct Hf as [[[? _] _]|[? _]]; done). pose proof (Z.log2_nonneg m) as H0.
  assert (Z.log2 m <= mLen ∧ (Z.log2 m < mLen → k = 1 - bias eLen - mLen) ∧ (Z.log2 m = mLen → 1 - bias eLen - mLen <= k) ∧ k + mLen + bias eLen < 2 ^ eLen - 1) as (Hl & Hs & Hn & Hu).
  { destruct Hf as [[Hlt ->]|(_ & Hl & Hr)].
    - assert (Z.log2 m < mLen) by (apply Z.log2_lt_pow2; lia). destruct Hk as [(-> & -> & ->)|(-> & -> & ->)]; cbn; lia.
    - lia. }
  unfold fits, expo. destruct Hk as [(-> & -> & ->)|(-> & -> & ->)]; unfold bias in *;
    change (2 ^ (8 - 1)) with 128 in *; change (2 ^ (11 - 1)) with 1024 in *; change (2 ^ 8) with 256 in *; change (2 ^ 11) with 2048 in *; lia.
Qed.

(** The number with what is added for the rounding: half of a unit, or a quarter if
    the exponent was too low. *)
Lemma rounded_value mLen nBytes eLen m k e : known mLen nBytes eLen → of_format mLen eLen m k →
  -1 <= e - (Z.log2 m + k) <= 1 → (-1023 <= e → e <= Z.log2 m + k) → ∃ i, 0 <= i <= 2 ∧ (mLen = 52 → i = 0) ∧
  (if at_least 1 (Z.add (bias eLen) <$> Some e) then dadd (num m k) (ddiv (rounding_term mLen) (pow2 (- e)))
   else dadd (num m k) (dmul (rounding_term mLen) (pow2 (1 - bias eLen)))) = num (m * 2 ^ i + Z.min i 1) (k - i).
Proof.
  intros Hk Hf He Hle. pose proof (format_bounds _ _ _ _ _ Hk Hf) as (Hm & Hl & Hfit & Hb).
  destruct Hk as [(-> & -> & ->)|(-> & -> & ->)].
  - destruct Hb as [(_ & Hkb & Hsub)|[? _]]; [|lia]. specialize (Hle ltac:(lia)). change (rounding_term 23) with (num (2 ^ 53 - 1) (-77)). change (bias 8) with 127.
    assert (∀ j, -500 <= j <= 500 → fits (2 ^ 53 - 1) j) as Hr by (intros j Hj; unfold fits, expo; change (Z.log2 (2 ^ 53 - 1)) with 52; lia).
    cbn [fmap option_fmap option_map at_least]. destruct (Z.leb_spec 1 (127 + e)) as [Hn|Hn].
    + exists (k - (e - 24)). split; [lia|]. split; [lia|]. unfold pow2. rewrite ddiv_pow; [|apply Hr; lia|apply fits_pow; lia|apply Hr; lia].
      replace (-77 - - e) with (e - 24 - 53) by lia. rewrite dadd_half; [|done|lia..]. f_equal; lia.
    + exists 1. split; [lia|]. split; [lia|]. unfold pow2. rewrite dmul_pow; [|apply Hr; lia|apply fits_pow; lia|apply Hr; lia].
      replace (-77 + (1 - 127)) with (-150 - 53) by lia. rewrite dadd_half; [|done|lia..]. f_equal; [|lia]. f_equal. f_equal. f_equal. lia.
  - exists 0. split; [lia|]. split; [done|]. change (rounding_term 52) with (S754_zero false). rewrite Z.sub_0_r Z.pow_0_r Z.mul_1_r Z.add_0_r.
    assert (∀ x, (∃ s, x = S754_zero s) → dadd (num m k) x = num m k) as Hz by (intros x [s ->]; rewrite num_fits //).
    destruct (at_least _ _); apply Hz.
    + destruct (Z.le_gt_cases 1024 (- e)); [rewrite pow2_infinite //; by eexists|]. unfold pow2. rewrite num_fits; [by eexists|]. apply fits_pow. lia.
    + by eexists.
Qed.

Definition magnitude (mLen eLen m k : Z) : Z := if m <? 2 ^ mLen then m else (k + mLen + bias eLen) * 2 ^ mLen + (m - 2 ^ mLen).

(** The fields of a number, with a mantissa that may have a fraction. *)
Definition fields (mLen eLen v : Z) (p : Z * spec_float) : Prop := ∃ e a j,
  p = (e, num a j) ∧ (tame a j ∧ -800 <= j) ∧ 0 <= Z.shiftl a j < 2 ^ mLen ∧ 0 <= e < 2 ^ eLen ∧ e * 2 ^ mLen + Z.shiftl a j = v.

Lemma shiftl_back m i : 0 <= i → Z.shiftl (m * 2 ^ i + Z.min i 1) (- i) = m.
Proof.
  intros Hi. rewrite Z.shiftl_div_pow2; [|lia]. rewrite Z.opp_involutive. pose proof (pow_pos i Hi). rewrite Z.div_add_l; [|lia].
  rewrite Z.div_small; [lia|]. destruct (Z.eq_dec i 0) as [->|]; [done|]. assert (2 ^ 1 <= 2 ^ i) by (apply Z.pow_le_mono_r; lia). lia.
Qed.

Lemma log2_rounded m i : 0 < m → 0 <= i → Z.log2 (m * 2 ^ i + Z.min i 1) = Z.log2 m + i.
Proof.
  intros Hm Hi. destruct (Z.eq_dec i 0) as [->|]; [by rewrite Z.pow_0_r Z.mul_1_r !Z.add_0_r|]. rewrite Z.min_r; [|lia]. apply log2_half; lia.
Qed.

Lemma split_fields mLen nBytes eLen m k : known mLen nBytes eLen → of_format mLen eLen m k → log_near →
  fields mLen eLen (magnitude mLen eLen m k) (split_number floor_log2 (num m k) mLen (bias eLen) (2 ^ eLen - 1) (rounding_term mLen)).
Proof.
  intros Hk Hf Hlog. pose proof (format_bounds _ _ _ _ _ Hk Hf) as (Hm & Hl & Hfit & Hb). unfold split_number.
  destruct (Hlog m k Hfit) as (e0 & -> & He0). destruct (exponent_down m k e0 Hfit He0) as (e1 & -> & He1 & Hle1).
  destruct (rounded_value _ _ _ _ _ _ Hk Hf He1 Hle1) as (i & Hi & Hi0 & ->). set (a := m * 2 ^ i + Z.min i 1).
  assert (Z.log2 a = Z.log2 m + i) as Hla by (apply log2_rounded; lia).
  assert (0 < a) as Ha by (pose proof (shift_pos m i Hm ltac:(lia)); lia).
  assert (fits a (k - i)) as Hfa by (unfold fits, expo in *; lia).
  destruct (exponent_up a (k - i) e1 Hfa ltac:(lia) ltac:(lia)) as (e2 & c & -> & Hfin & Hinf).
  assert (bias eLen <= 1023) as Hbias by (destruct Hk as [(-> & -> & ->)|(-> & -> & ->)]; done).
  assert (0 < 2 ^ mLen ∧ bias eLen < 2 ^ eLen - 1 ∧ 0 < bias eLen ∧ mLen <= 60 ∧ 1 - bias eLen - mLen <= k) as (Hp & Hmax & Hb0 & Hm60 & Hk1).
  { unfold bias. destruct Hk as [(-> & -> & ->)|(-> & -> & ->)]; cbn; lia. }
  destruct Hf as [[Hlt Hke]|(_ & Hlm & Hr)].
  - assert (Z.log2 m < mLen) as Hlog' by (apply Z.log2_lt_pow2; lia). assert (e2 + bias eLen < 1) as Hsub by (destruct (Z.le_gt_cases (-1023) e1); lia).
    destruct (Z.leb_spec (2 ^ eLen - 1) (e2 + bias eLen)) as [|_]; [lia|]. destruct (Z.leb_spec 1 (e2 + bias eLen)) as [|_]; [lia|].
    assert (Z.log2 a <= 52) by (destruct Hk as [(-> & -> & ->)|(-> & -> & ->)]; lia). assert (0 <= Z.log2 a) by apply Z.log2_nonneg.
    assert (a < 2 ^ 53) as Ha53 by (apply Z.log2_lt_pow2; lia).
    rewrite mantissa_small; [|done|apply fits_pow; lia|apply fits_pow; lia|unfold fits, expo; lia|unfold fits, expo; lia].
    exists 0, a, (k - i + (bias eLen - 1) + mLen). replace (k - i + (bias eLen - 1) + mLen) with (- i) by lia. split; [done|]. unfold a at 2 3. rewrite shiftl_back; [|lia].
    split; [split; [split; lia|lia]|]. split; [lia|]. split; [lia|]. unfold magnitude. rewrite (proj2 (Z.ltb_lt _ _)); lia.
  - destruct (Hfin ltac:(lia)) as [He2 ->]. assert (e2 = mLen + k) as He2' by lia.
    destruct (Z.leb_spec (2 ^ eLen - 1) (e2 + bias eLen)) as [|_]; [lia|]. destruct (Z.leb_spec 1 (e2 + bias eLen)) as [_|]; [|lia].
    destruct (mantissa_normal a (k - i) mLen Hfa ltac:(lia) ltac:(lia)) as (k' & Hk' & E & Ht). rewrite -He2 in E. rewrite E.
    exists (e2 + bias eLen), (a - 2 ^ Z.log2 a), k'. split; [done|]. split; [split; [done|lia]|].
    pose proof (Z.log2_spec m Hm) as [Hlo Hhi]. rewrite Hlm Z.pow_succ_r in Hlo Hhi; [|lia].
    assert (Z.shiftl (a - 2 ^ Z.log2 a) k' = m - 2 ^ mLen) as ->.
    { rewrite Hk' Hla Hlm. replace (mLen - (mLen + i)) with (- i) by lia. rewrite -(shiftl_back (m - 2 ^ mLen) i); [|lia]. f_equal. rewrite Z.pow_add_r; [|lia|lia]. unfold a. lia. }
    split; [lia|]. split; [lia|]. unfold magnitude. rewrite (proj2 (Z.ltb_ge _ _)); [|lia]. lia.
Qed.
End split.

(** ** The bytes that are written *)

Definition format_bytes (isLE : bool) (n : nat) (x : Z) : list Z := if isLE then le_bytes n x else be_bytes n x.

(** The sign is the highest bit of the last byte that is written. *)
Lemma sign_up TAS pre bs x post s : 0 <= x < 128 → s = 0 ∨ s = 1 →
  store TAS (pre ++ (bs ++ [x]) ++ post) (blen pre + blen bs) (jor (bits (cell (pre ++ (bs ++ [x]) ++ post) (blen pre + blen bs))) (s * 128)) =
  pre ++ (bs ++ [x + s * 128]) ++ post.
Proof.
  intros Hx Hs. assert (blen pre + blen bs = blen (pre ++ bs)) as -> by (by rewrite blen_app). rewrite -!app_assoc !(app_assoc pre bs).
  rewrite store_split0; [|cbn; lia]. pose proof (cell_split (pre ++ bs) [x] post 0 ltac:(cbn; lia)) as Hc. rewrite Z.add_0_r in Hc. rewrite Hc.
  change (bits ([x] !! 0%nat)) with x.
  assert (jor x (s * 128) = x + s * 128) as ->.
  { rewrite jor_comm. change 128 with (2 ^ 7). rewrite (jor_add s x 7); [lia|lia|change (2 ^ 7) with 128; lia|change (2 ^ 7) with 128; lia|lia]. }
  assert (norm TAS (x + s * 128) = x + s * 128) as -> by (unfold norm; destruct TAS; [apply Z.mod_small; destruct Hs as [-> | ->]; lia|done]).
  done.
Qed.


Lemma shiftl_divs a k n : Z.shiftl a (k - 8 * Z.of_nat n) = Z.shiftl a k / 256 ^ Z.of_nat n.
Proof.
  induction n as [|n IH]; [by rewrite Z.sub_0_r Z.div_1_r|]. replace (k - 8 * Z.of_nat (S n)) with (k - 8 * Z.of_nat n - 8) by lia.
  rewrite shiftl_div IH Nat2Z.inj_succ Z.pow_succ_r; [|lia]. pose proof (pow256_pos n). rewrite Z.div_div; [f_equal; lia|lia|lia].
Qed.

(** The last two bytes hold the exponent, what is left of the mantissa, and the sign. *)
Section fields.
Context (TAS : bool) (mLen nBytes eLen r : Z) (t : nat) (e a j s : Z).
Hypothesis sizes : mLen = 8 * Z.of_nat t + r ∧ 0 <= r < 8 ∧ eLen + r = 15 ∧ nBytes = Z.of_nat t + 2 ∧ (t <= 8)%nat.
Hypothesis mantissa_ok : tame a j ∧ 0 <= Z.shiftl a j < 2 ^ mLen ∧ -800 <= j.
Hypothesis exponent_ok : 0 <= e < 2 ^ eLen ∧ 0 <= eLen.
Hypothesis sign_ok : s = 0 ∨ s = 1.

Let M : Z := Z.shiftl a j.
Let E : Z := jor (jshl e r) (Z.shiftl a (j - 8 * Z.of_nat t)).
Let X : Z := s * 2 ^ (mLen + eLen) + (e * 2 ^ mLen + M).

Lemma joined_exponent : E = e * 2 ^ r + M / 256 ^ Z.of_nat t ∧ 0 <= E < 32768.
Proof using All.
  destruct sizes as (Em & Hr & Her & _ & Ht), mantissa_ok as (_ & HM & _), exponent_ok as [He HeL]. unfold E. rewrite shiftl_divs. fold M in HM |- *.
  pose proof (pow256_pos t) as Hp. assert (2 ^ mLen = 2 ^ r * 256 ^ Z.of_nat t) as E1.
  { rewrite Em. rewrite Z.pow_add_r; [|lia|lia]. rewrite Z.pow_mul_r; [|lia|lia]. change (2 ^ 8) with 256. lia. }
  assert (0 <= M / 256 ^ Z.of_nat t < 2 ^ r) as Hq by (split; [apply Z.div_pos; lia|apply Z.div_lt_upper_bound; lia]).
  assert (2 ^ eLen * 2 ^ r = 32768) as E15 by (rewrite -Z.pow_add_r; [by rewrite Her|lia|lia]).
  pose proof (pow_pos r ltac:(lia)) as Hpr. assert (e * 2 ^ r + 2 ^ r <= 32768) as Hb by nia.
  assert (jshl e r = e * 2 ^ r) as ->.
  { apply jshl_mul; nia. }
  rewrite (jor_add e); [|lia|lia|lia|lia]. split; [done|lia].
Qed.

Lemma joined_bytes : le_bytes (t + 2) X = le_bytes t M ++ [E mod 256; E / 256 + s * 128].
Proof using All.
  destruct joined_exponent as [EE HE]. destruct sizes as (Em & Hr & Her & _ & Ht), exponent_ok as [_ HeL]. pose proof (pow256_pos t) as Hp.
  assert (X = M + 256 ^ Z.of_nat t * (e * 2 ^ r + s * 32768)) as EX.
  { unfold X. replace (mLen + eLen) with (8 * Z.of_nat t + 15) by lia. rewrite Em. rewrite !Z.pow_add_r; [|lia..]. rewrite !Z.pow_mul_r; [|lia|lia].
    change (2 ^ 8) with 256. change (2 ^ 15) with 32768. ring. }
  rewrite le_bytes_add EX le_bytes_mod. f_equal. rewrite (Z.mul_comm (256 ^ Z.of_nat t)) Z.div_add; [|lia].
  replace (M / 256 ^ Z.of_nat t + (e * 2 ^ r + s * 32768)) with (E + s * 32768) by lia. cbn [le_bytes].
  clear -HE sign_ok. f_equal; [|f_equal]; destruct sign_ok as [-> | ->]; zdm.
Qed.

Lemma exponent_tame : tame E 0.
Proof using All. destruct joined_exponent as [_ HE]. unfold tame. change (2 ^ 53) with 9007199254740992. lia. Qed.

Lemma exponent_bytes : le_bytes 2 E = [E mod 256; E / 256].
Proof using All. destruct joined_exponent as [_ HE]. cbn [le_bytes]. f_equal. f_equal. apply Z.mod_small. zdm. Qed.

Lemma put_fields_up pre old post : length old = (t + 2)%nat →
  put_fields TAS (pre ++ old ++ post) e (num a j) s (blen pre) 0 1 mLen eLen = pre ++ le_bytes (t + 2) X ++ post.
Proof using All.
  intros Hl. pose proof joined_exponent as [_ HE]. pose proof sizes as (Em & Hr & Her & Hn & Ht). pose proof mantissa_ok as (Hta & HM & Hj).
  rewrite -(take_drop t old) -app_assoc. set (o1 := take t old). set (o2 := drop t old).
  assert (length o1 = t ∧ length o2 = 2%nat) as [H1 H2] by (unfold o1, o2; rewrite length_take length_drop; lia). unfold put_fields.
  rewrite (put_up TAS 8 t (Z.to_nat mLen) pre o1 (o2 ++ post) (blen pre) 0 mLen a j H1); [|lia..|done|lia]. fold M. cbv iota.
  replace (mLen - 8 * Z.of_nat t) with r by lia. rewrite tame_integer; [|destruct Hta; split; [done|lia]]. fold E. rewrite Her.
  rewrite (app_assoc pre). rewrite (put_up TAS 1 2 (Z.to_nat 15) (pre ++ le_bytes t M) o2 post (blen pre) (0 + Z.of_nat t) 15 E 0 H2);
    [|lia|rewrite blen_app; unfold blen; rewrite length_le_bytes; lia|lia|exact exponent_tame|lia]. cbv iota.
  rewrite Z.shiftl_0_r exponent_bytes joined_bytes -!app_assoc.
  pose proof (sign_up TAS pre (le_bytes t M ++ [E mod 256]) (E / 256) post s ltac:(zdm) sign_ok) as Hs. rewrite -!app_assoc in Hs. cbn [app] in Hs.
  replace (blen pre + (0 + Z.of_nat t + Z.of_nat 2) - 1) with (blen pre + blen (le_bytes t M ++ [E mod 256])); [exact Hs|].
  rewrite blen_app. unfold blen at 2 3. rewrite length_le_bytes. cbn [length]. lia.
Qed.

Lemma put_fields_down pre old post : length old = (t + 2)%nat →
  put_fields TAS (pre ++ old ++ post) e (num a j) s (blen pre) (nBytes - 1) (-1) mLen eLen = pre ++ be_bytes (t + 2) X ++ post.
Proof using All.
  intros Hl. pose proof joined_exponent as [_ HE]. pose proof sizes as (Em & Hr & Her & Hn & Ht). pose proof mantissa_ok as (Hta & HM & Hj).
  rewrite -(take_drop 2 old) -app_assoc (app_assoc pre). set (o2 := take 2 old). set (o1 := drop 2 old).
  assert (length o1 = t ∧ length o2 = 2%nat) as [H1 H2] by (unfold o1, o2; rewrite length_take length_drop; lia). unfold put_fields.
  rewrite (put_down TAS 8 t (Z.to_nat mLen) (pre ++ o2) o1 post (blen pre) (nBytes - 1) mLen a j H1); [|lia|rewrite blen_app; unfold blen; lia|lia|done|lia]. fold M. cbv iota.
  replace (mLen - 8 * Z.of_nat t) with r by lia. rewrite tame_integer; [|destruct Hta; split; [done|lia]]. fold E. rewrite Her -app_assoc.
  rewrite (put_down TAS 1 2 (Z.to_nat 15) pre o2 (be_bytes t M ++ post) (blen pre) (nBytes - 1 - Z.of_nat t) 15 E 0 H2); [|lia|lia|lia|exact exponent_tame|lia]. cbv iota.
  rewrite Z.shiftl_0_r. unfold be_bytes. rewrite exponent_bytes joined_bytes rev_app_distr. cbn [rev app].
  pose proof (sign_up TAS pre [] (E / 256) (E mod 256 :: rev (le_bytes t M) ++ post) s ltac:(zdm) sign_ok) as Hs. cbn [app] in Hs.
  change (blen []) with 0 in Hs. replace (blen pre + (nBytes - 1 - Z.of_nat t - Z.of_nat 2) - -1) with (blen pre + 0) by lia. exact Hs.
Qed.
End fields.

Lemma put_known TAS isLE mLen nBytes eLen v p s pre old post : known mLen nBytes eLen → fields mLen eLen v p → s = 0 ∨ s = 1 → length old = Z.to_nat nBytes →
  put_fields TAS (pre ++ old ++ post) p.1 p.2 s (blen pre) (if isLE then 0 else nBytes - 1) (if isLE then 1 else -1) mLen eLen =
  pre ++ format_bytes isLE (Z.to_nat nBytes) (s * 2 ^ (mLen + eLen) + v) ++ post.
Proof.
  intros Hk (e & a & j & -> & (Ht & Hj) & HM & He & <-) Hs Hl. cbn [fst snd].
  assert (∃ r t, mLen = 8 * Z.of_nat t + r ∧ 0 <= r < 8 ∧ eLen + r = 15 ∧ nBytes = Z.of_nat t + 2 ∧ (t <= 8)%nat) as (r & t & Hsz).
  { destruct Hk as [(-> & -> & ->)|(-> & -> & ->)]; [exists 7, 2%nat|exists 4, 6%nat]; lia. }
  assert (Z.to_nat nBytes = (t + 2)%nat) as Hn by lia. rewrite Hn in Hl |- *.
  destruct isLE; cbn [format_bytes]; [apply (put_fields_up TAS mLen nBytes eLen r t e a j s)|apply (put_fields_down TAS mLen nBytes eLen r t e a j s)]; try done; lia.
Qed.

Lemma widen_finite mLen nBytes eLen s m k : known mLen nBytes eLen → valid mLen eLen (S754_finite s m k) →
  of_format mLen eLen (Zpos m) k ∧ widen (S754_finite s m k) = finite s (Zpos m) k.
Proof.
  intros Hk Hv. assert (of_format mLen eLen (Zpos m) k) as Hf.
  { destruct (valid_cases _ _ _ _ _ _ Hk Hv) as [[H1 H2]|(H1 & H2 & H3)]; [left; split; [lia|done]|right; split; [lia|done]]. }
  split; [done|]. apply round_fits. by apply (format_bounds mLen nBytes eLen).
Qed.

Lemma zero_fields floor_log2 mLen nBytes eLen : known mLen nBytes eLen → log_of_zero floor_log2 →
  fields mLen eLen 0 (split_number floor_log2 (S754_zero false) mLen (bias eLen) (2 ^ eLen - 1) (rounding_term mLen)).
Proof.
  intros Hk Hz. unfold split_number. rewrite Hz. destruct Hk as [(-> & -> & ->)|(-> & -> & ->)].
  - exists 0, (2 ^ 53 - 1), (-54). split; [vm_compute; reflexivity|]. unfold tame. change (Z.shiftl (2 ^ 53 - 1) (-54)) with 0. lia.
  - exists 0, 0, 0. split; [vm_compute; reflexivity|]. unfold tame. change (Z.shiftl 0 0) with 0. lia.
Qed.

(** What is written is the number in the interchange format. *)
Lemma write_encodes floor_log2 TAS isLE mLen nBytes eLen v pre old post :
  known mLen nBytes eLen → valid mLen eLen v → log_near floor_log2 → log_of_zero floor_log2 → length old = Z.to_nat nBytes →
  write floor_log2 TAS (pre ++ old ++ post) (widen v) (blen pre) isLE mLen nBytes =
  pre ++ format_bytes isLE (Z.to_nat nBytes) (ieee_bits mLen eLen v) ++ post.
Proof.
  intros Hk Hv Hl Hz Hlen. unfold write.
  assert (nBytes * 8 - mLen - 1 = eLen ∧ jshl 1 eLen - 1 = 2 ^ eLen - 1 ∧ jshr (2 ^ eLen - 1) 1 = bias eLen) as (-> & -> & ->)
    by (by destruct Hk as [(-> & -> & ->)|(-> & -> & ->)]).
  change (if mLen =? 23 then _ else _) with (rounding_term mLen).
  assert (∀ p x (b : bool), fields mLen eLen x p → put_fields TAS (pre ++ old ++ post) p.1 p.2 (if b then 1 else 0) (blen pre) (if isLE then 0 else nBytes - 1) (if isLE then 1 else -1) mLen eLen =
    pre ++ format_bytes isLE (Z.to_nat nBytes) ((if b then 2 ^ (mLen + eLen) else 0) + x) ++ post) as Hput.
  { intros p x b Hx. rewrite (put_known TAS isLE mLen nBytes eLen x p) //; [|by destruct b; auto]. destruct b; [by rewrite Z.mul_1_l|done]. }
  assert (∀ f, 0 <= f <= 1 → fields mLen eLen ((2 ^ eLen - 1) * 2 ^ mLen + f) (2 ^ eLen - 1, num f 0)) as Hspecial.
  { intros f Hf. exists (2 ^ eLen - 1), f, 0. split; [done|]. rewrite Z.shiftl_0_r. unfold tame. destruct Hk as [(-> & -> & ->)|(-> & -> & ->)]; lia. }
  destruct v as [s|s| |s m k].
  - pose proof (zero_fields floor_log2 mLen nBytes eLen Hk Hz) as Hf. cbn [widen SFabs is_nan SFeqb SFcompare orb].
    destruct (split_number _ _ _ _ _ _) as [e x] eqn:E. pose proof (Hput _ _ s Hf) as H. cbn [fst snd] in H. rewrite Z.add_0_r in H. by destruct s.
  - pose proof (Hput _ _ s (Hspecial 0 ltac:(lia))) as H. rewrite Z.add_0_r in H. by destruct s.
  - exact (Hput _ _ false (Hspecial 1 ltac:(lia))).
  - destruct (widen_finite mLen nBytes eLen s m k Hk Hv) as [Hf ->]. pose proof (format_bounds _ _ _ _ _ Hk Hf) as (_ & _ & Hfit & _).
    pose proof (split_fields floor_log2 mLen nBytes eLen (Zpos m) k Hk Hf Hl) as Hsp. rewrite num_fits // in Hsp. unfold finite in Hsp |- *.
    cbn [SFabs is_nan orb SFeqb SFcompare]. destruct (split_number _ _ _ _ _ _) as [e x] eqn:E. pose proof (Hput _ _ s Hsp) as H. cbn [fst snd] in H. by destruct s.
Qed.

(** ** The number that is read *)

Definition horner (x : Z) (l : list Z) : Z := fold_left (λ x c, x * 256 + c) l x.

Lemma horner_value l : ∀ x, horner x l = x * 256 ^ Z.of_nat (length l) + be_value l.
Proof.
  induction l as [|c l IH] using rev_ind; intros x; [cbn; lia|]. unfold horner in *. rewrite fold_left_app. cbn [fold_left]. rewrite IH.
  unfold be_value. rewrite rev_app_distr length_app Nat.add_1_r Nat2Z.inj_succ Z.pow_succ_r; [|lia]. cbn [rev app le_value]. lia.
Qed.

Lemma get_spec b offset d l : ∀ fuel i nBits x, (∀ t, (t < length l)%nat → cell b (offset + (i + d * Z.of_nat t)) = l !! t) → (length l <= fuel)%nat →
  -8 < nBits - 8 * Z.of_nat (length l) <= 0 →
  get_loop fuel b offset d i nBits (Some x) = (Some (horner x l), i + d * Z.of_nat (length l), nBits - 8 * Z.of_nat (length l)).
Proof.
  induction l as [|c l IH]; intros fuel i nBits x Hc Hf Hn; cbn [length] in *.
  - rewrite !Z.mul_0_r Z.add_0_r Z.sub_0_r. destruct fuel; cbn [get_loop]; [done|]. by destruct (Z.ltb_spec 0 nBits); [lia|].
  - destruct fuel as [|fuel]; [lia|]. cbn [get_loop]. destruct (Z.ltb_spec 0 nBits) as [_|]; [|lia].
    pose proof (Hc 0%nat ltac:(lia)) as H0. rewrite Z.mul_0_r Z.add_0_r in H0. rewrite H0. cbn [lookup list_lookup omul oadd mbind option_bind].
    rewrite (IH fuel (i + d) (nBits - 8)).
    + replace (i + d + d * Z.of_nat (length l)) with (i + d * Z.of_nat (S (length l))) by lia. replace (nBits - 8 - 8 * Z.of_nat (length l)) with (nBits - 8 * Z.of_nat (S (length l))) by lia. done.
    + intros t Ht. specialize (Hc (S t) ltac:(lia)). change ((c :: l) !! S t) with (l !! t) in Hc. rewrite -Hc. f_equal. lia.
    + lia.
    + lia.
Qed.

Definition fields_number (mLen eLen : Z) (s : bool) (e m : Z) : spec_float :=
  if e =? 2 ^ eLen - 1 then if m =? 0 then S754_infinity s else S754_nan
  else if e =? 0 then match m with Zpos p => S754_finite s p (1 - bias eLen - mLen) | _ => S754_zero s end
  else S754_finite s (Z.to_pos (m + 2 ^ mLen)) (e - bias eLen - mLen).

Lemma number_join mLen eLen (s : bool) e m : 0 <= mLen → 0 <= eLen → 0 <= e < 2 ^ eLen → 0 <= m < 2 ^ mLen →
  ieee_number mLen eLen ((if s then 2 ^ (mLen + eLen) else 0) + (e * 2 ^ mLen + m)) = fields_number mLen eLen s e m.
Proof.
  intros Hm HeL He Hmm. set (z := if s then 1 else 0). assert ((if s then 2 ^ (mLen + eLen) else 0) = z * 2 ^ eLen * 2 ^ mLen) as ->.
  { rewrite Z.pow_add_r //. unfold z. destruct s; lia. }
  pose proof (pow_pos mLen Hm) as Hp. pose proof (pow_pos eLen HeL) as Hq. set (x := z * 2 ^ eLen * 2 ^ mLen + (e * 2 ^ mLen + m)).
  assert (x / 2 ^ mLen = z * 2 ^ eLen + e ∧ x mod 2 ^ mLen = m) as [E1 E2].
  { assert (x = 2 ^ mLen * (z * 2 ^ eLen + e) + m) as E by (unfold x; lia).
    split; symmetry; [by apply (Z.div_unique_pos x (2 ^ mLen) _ m)|by apply (Z.mod_unique_pos x _ (z * 2 ^ eLen + e))]. }
  assert (x / 2 ^ (mLen + eLen) = z) as E3.
  { rewrite Z.pow_add_r // -Z.div_div; [|lia|lia]. rewrite E1 Z.div_add_l; [|lia]. rewrite Z.div_small //. lia. }
  assert ((z * 2 ^ eLen + e) mod 2 ^ eLen = e) as E4 by (symmetry; apply (Z.mod_unique_pos _ _ z); [done|lia]).
  unfold ieee_number. rewrite E3 E1 E2 E4. by destruct s.
Qed.

(** The number with given fields. *)
Lemma number_of_bits mLen nBytes eLen v : known mLen nBytes eLen → valid mLen eLen v → ieee_number mLen eLen (ieee_bits mLen eLen v) = v.
Proof.
  intros Hk Hv. assert (0 <= mLen ∧ 0 <= eLen ∧ 1 < 2 ^ eLen - 1 ∧ 1 < 2 ^ mLen) as (Hm & He & H1 & H2) by (destruct Hk as [(-> & -> & ->)|(-> & -> & ->)]; lia).
  assert (∀ (s : bool) e m x, 0 <= e < 2 ^ eLen → 0 <= m < 2 ^ mLen → x = e * 2 ^ mLen + m →
    ieee_number mLen eLen ((if s then 2 ^ (mLen + eLen) else 0) + x) = fields_number mLen eLen s e m) as Hd by (intros s e m x He' Hm' ->; by apply number_join).
  destruct v as [s|s| |s m k]; cbn [ieee_bits].
  - pose proof (Hd s 0 0 0 ltac:(lia) ltac:(lia) ltac:(lia)) as H. rewrite Z.add_0_r in H. rewrite H. unfold fields_number.
    by rewrite (proj2 (Z.eqb_neq 0 (2 ^ eLen - 1))); [|lia].
  - rewrite (Hd s (2 ^ eLen - 1) 0); [|lia..]. unfold fields_number. by rewrite Z.eqb_refl.
  - pose proof (Hd false (2 ^ eLen - 1) 1 ((2 ^ eLen - 1) * 2 ^ mLen + 1) ltac:(lia) ltac:(lia) ltac:(lia)) as H. cbn [Z.add] in H. rewrite Z.add_0_l in H. rewrite H.
    unfold fields_number. by rewrite Z.eqb_refl.
  - destruct (valid_cases _ _ _ _ _ _ Hk Hv) as [[Hlt ->]|(Hge & _ & Hr)].
    + rewrite (proj2 (Z.ltb_lt _ _)) // (Hd s 0 (Zpos m)); [|lia..]. unfold fields_number. by rewrite (proj2 (Z.eqb_neq 0 (2 ^ eLen - 1))); [|lia].
    + rewrite (proj2 (Z.ltb_ge _ _)); [|lia]. rewrite Z.pow_add_r in Hge; [|lia|lia]. rewrite (Hd s (k + mLen + bias eLen) (Zpos m - 2 ^ mLen)); [|lia..]. unfold fields_number.
      rewrite (proj2 (Z.eqb_neq _ (2 ^ eLen - 1))); [|lia]. rewrite (proj2 (Z.eqb_neq _ 0)); [|lia]. f_equal; [|lia]. replace (Zpos m - 2 ^ mLen + 2 ^ mLen) with (Zpos m) by lia. done.
Qed.

(** The product that [read] computes. *)
Lemma scaled_number s m j : 0 < m < 2 ^ 53 → -1074 <= j <= 971 → dmul (dmul (num (if s : bool then -1 else 1) 0) (num m 0)) (pow2 j) = widen (S754_finite s (Z.to_pos m) j).
Proof.
  intros Hm Hj. assert (Z.log2 m <= 52) by (apply Z.lt_succ_r, Z.log2_lt_pow2; [lia|exact (proj2 Hm)]). pose proof (Z.log2_nonneg m).
  assert (∀ i, -1074 <= i <= 971 → fits m i) as Hf by (intros i Hi; unfold fits, expo; lia).
  rewrite dmul_sign; [|apply Hf; lia]. unfold pow2. rewrite dmul_signed; [|apply Hf; lia|apply fits_pow; lia|by apply Hf]. cbn [widen].
  assert (Zpos (Z.to_pos m) = m) as Ep by (apply Z2Pos.id; lia). rewrite round_fits Ep; [done|by apply Hf].
Qed.

Section reading.
Context (b : buffer) (offset : Z) (isLE : bool) (mLen nBytes eLen r : Z) (b0 b1 : Z) (l : list Z).
Hypothesis format : known mLen nBytes eLen.
Hypothesis sizes : mLen = 8 * Z.of_nat (length l) + r ∧ 0 < r < 8 ∧ eLen + r = 15 ∧ nBytes = Z.of_nat (length l) + 2.
Hypothesis is_bytes : Forall is_byte (b0 :: b1 :: l).
(** The bytes in the order of their weights. *)
Hypothesis cells : ∀ t, (t < length (b0 :: b1 :: l))%nat →
  cell b (offset + ((if isLE then nBytes - 1 else 0) + (if isLE then -1 else 1) * Z.of_nat t)) = (b0 :: b1 :: l) !! t.

Let E : Z := b0 mod 128 * 256 + b1.
Let F : Z := E mod 2 ^ r * 256 ^ Z.of_nat (length l) + be_value l.

Lemma fields_ranges : 0 <= E < 32768 ∧ 0 <= E / 2 ^ r < 2 ^ eLen ∧ 0 <= F < 2 ^ mLen ∧
  be_value (b0 :: b1 :: l) = (if negb (b0 / 128 =? 0) then 2 ^ (mLen + eLen) else 0) + (E / 2 ^ r * 2 ^ mLen + F).
Proof using All.
  destruct sizes as (Em & Hr & Her & Hn). apply Forall_cons in is_bytes as [H0 [H1 Hl]%Forall_cons]. unfold is_byte in H0, H1.
  assert (0 <= E < 32768) as HE by (unfold E; zdm). pose proof (pow_pos r ltac:(lia)) as Hp. pose proof (pow256_pos (length l)) as H256.
  assert (0 <= be_value l < 256 ^ Z.of_nat (length l)) as Hv.
  { unfold be_value. pose proof (le_value_range (rev l)) as H. rewrite length_rev in H. apply H. by apply Forall_rev. }
  assert (2 ^ mLen = 2 ^ r * 256 ^ Z.of_nat (length l)) as E1.
  { rewrite Em Z.pow_add_r; [|lia|lia]. rewrite Z.pow_mul_r; [|lia|lia]. change (2 ^ 8) with 256. lia. }
  assert (2 ^ r * 2 ^ eLen = 32768) as E15 by (rewrite -Z.pow_add_r; [replace (r + eLen) with 15 by lia; done|lia|destruct format as [(_ & _ & ->)|(_ & _ & ->)]; lia]).
  pose proof (Z.mod_pos_bound E (2 ^ r) Hp) as Hmod. split; [done|]. split; [split; [apply Z.div_pos; lia|apply Z.div_lt_upper_bound; lia]|]. split; [unfold F; nia|].
  assert (be_value (b0 :: b1 :: l) = (b0 * 256 + b1) * 256 ^ Z.of_nat (length l) + be_value l) as ->.
  { pose proof (horner_value (b0 :: b1 :: l) 0) as H. rewrite Z.mul_0_l Z.add_0_l in H. rewrite -H. exact (horner_value l (b0 * 256 + b1)). }
  assert (2 ^ (mLen + eLen) = 32768 * 256 ^ Z.of_nat (length l)) as ->.
  { rewrite Z.pow_add_r; [|lia|destruct format as [(_ & _ & ->)|(_ & _ & ->)]; lia]. rewrite E1 -E15. ring. }
  assert (b0 * 256 + b1 = (if negb (b0 / 128 =? 0) then 32768 else 0) + E) as ->.
  { unfold E. destruct (Z.eqb_spec (b0 / 128) 0); cbn [negb]; zdm. }
  unfold F. rewrite E1. pose proof (Z.div_mod E (2 ^ r) ltac:(lia)) as Hd. revert Hd. generalize (E / 2 ^ r), (E mod 2 ^ r). intros q m ->. destruct (negb _); ring.
Qed.

Lemma read_decodes : read b offset isLE mLen nBytes = widen (ieee_number mLen eLen (be_value (b0 :: b1 :: l))).
Proof using All.
  destruct fields_ranges as (HE & He & HF & ->). pose proof sizes as (Em & Hr & Her & Hn). pose proof is_bytes as [H0 [H1 Hl]%Forall_cons]%Forall_cons. unfold is_byte in H0, H1.
  rewrite number_join; [|lia|destruct format as [(_ & _ & ->)|(_ & _ & ->)]; lia|done|done]. set (s := negb (b0 / 128 =? 0)). unfold read.
  assert (nBytes * 8 - mLen - 1 = eLen) as -> by lia. set (d := if isLE then -1 else 1) in *. set (i := if isLE then nBytes - 1 else 0) in *.
  assert (jshl 1 eLen - 1 = 2 ^ eLen - 1 ∧ jshr (2 ^ eLen - 1) 1 = bias eLen) as [-> ->] by (by destruct format as [(_ & _ & ->)|(_ & _ & ->)]).
  pose proof (cells 0%nat ltac:(cbn; lia)) as Hc0. rewrite Z.mul_0_r Z.add_0_r in Hc0. rewrite Hc0. change (bits ((b0 :: b1 :: l) !! 0%nat)) with b0. cbv zeta.
  change (jshl 1 (- -7) - 1) with (2 ^ 7 - 1). rewrite jand_ones; [|lia]. change (2 ^ 7) with 128. change (- -7) with 7. rewrite (jshr_div b0 7); [|lia|lia]. change (2 ^ 7) with 128.
  rewrite (get_spec b offset d [b1] (Z.to_nat (-7 + eLen)) (i + d) (-7 + eLen)).
  2: { intros t Ht. cbn in Ht. assert (t = 0%nat) as -> by lia. pose proof (cells 1%nat ltac:(cbn; lia)) as Hc. change ((b0 :: b1 :: l) !! 1%nat) with (Some b1) in Hc.
       change ([b1] !! 0%nat) with (Some b1). rewrite -Hc. f_equal. lia. }
  2: { cbn. lia. } 2: { cbn [length]. lia. }
  cbn [horner fold_left length]. fold E. change (bits (Some E)) with E. assert (- (-7 + eLen - 8 * Z.of_nat 1) = r) as -> by lia.
  assert (jshl 1 r - 1 = 2 ^ r - 1) as ->.
  { rewrite jshl_mul; [lia|lia|lia|]. rewrite Z.mul_1_l. assert (2 ^ r <= 2 ^ 7) by (apply Z.pow_le_mono_r; lia). pose proof (pow_pos r ltac:(lia)). change (2 ^ 7) with 128 in *. lia. }
  rewrite jand_ones; [|lia]. rewrite (jshr_div E r); [|lia|lia].
  rewrite (get_spec b offset d l (Z.to_nat (-7 + eLen - 8 * Z.of_nat 1 + mLen)) (i + d + d * Z.of_nat 1) (-7 + eLen - 8 * Z.of_nat 1 + mLen)).
  2: { intros t Ht. pose proof (cells (S (S t)) ltac:(cbn; lia)) as Hc. change ((b0 :: b1 :: l) !! S (S t)) with (l !! t) in Hc. rewrite -Hc. f_equal. lia. }
  2: { lia. } 2: { lia. }
  rewrite horner_value. fold F. set (e := E / 2 ^ r) in *. unfold fields_number.
  assert (num (if b0 / 128 =? 0 then 1 else -1) 0 = num (if s then -1 else 1) 0) as -> by (unfold s; by destruct (b0 / 128 =? 0)).
  assert (2 ^ eLen - 1 ≠ 0 ∧ 2 ^ mLen + 2 ^ mLen <= 2 ^ 53 ∧ -1074 <= 1 - bias eLen - mLen <= 971 ∧ 2 ^ eLen - 2 - bias eLen - mLen <= 971) as (Hmax & Hm53 & Hlow & Hhigh)
    by (destruct format as [(-> & -> & ->)|(-> & -> & ->)]; done).
  destruct (Z.eqb_spec e 0) as [->|Hne].
  - rewrite (proj2 (Z.eqb_neq 0 _)); [|lia]. destruct F as [|p|p] eqn:EF; [|apply (scaled_number s (Zpos p)); lia|lia].
    assert (fits 1 (1 - bias eLen - mLen)) as Hf by (apply fits_pow; lia). unfold pow2. rewrite (num_fits 1 (1 - bias eLen - mLen)) //. by destruct s.
  - destruct (Z.eqb_spec e (2 ^ eLen - 1)) as [_|Hne'].
    + destruct F as [|p|p]; try done. by destruct s.
    + cbn [oadd mbind option_bind]. apply scaled_number; lia.
Qed.
End reading.

(** Reading a window of a buffer. *)
Lemma read_window isLE mLen nBytes eLen pre bs post : known mLen nBytes eLen → length bs = Z.to_nat nBytes → Forall is_byte bs →
  read (pre ++ bs ++ post) (blen pre) isLE mLen nBytes = widen (ieee_number mLen eLen (if isLE then le_value bs else be_value bs)).
Proof.
  intros Hk Hl Hb. set (bl := if isLE then rev bs else bs). assert (length bl = Z.to_nat nBytes) as Hl' by (unfold bl; destruct isLE; [by rewrite length_rev|done]).
  assert ((if isLE then le_value bs else be_value bs) = be_value bl) as -> by (unfold bl, be_value; destruct isLE; [by rewrite rev_involutive|done]).
  assert (Forall is_byte bl) as Hb' by (unfold bl; destruct isLE; [by apply Forall_rev|done]).
  assert (∀ t, (t < length bl)%nat → cell (pre ++ bs ++ post) (blen pre + ((if isLE then nBytes - 1 else 0) + (if isLE then -1 else 1) * Z.of_nat t)) = bl !! t) as Hc.
  { intros t Ht. unfold bl. destruct isLE.
    - replace (blen pre + (nBytes - 1 + -1 * Z.of_nat t)) with (blen pre + Z.of_nat (length bs - S t)) by lia. rewrite cell_split; [|lia].
      rewrite rev_alt. fold (reverse bs). rewrite reverse_lookup //. unfold bl in Ht. by rewrite length_rev in Ht.
    - replace (blen pre + (0 + 1 * Z.of_nat t)) with (blen pre + Z.of_nat t) by lia. by rewrite cell_split. }
  clearbody bl. destruct bl as [|b0 [|b1 l]]; [destruct Hk as [(_ & -> & _)|(_ & -> & _)]; done..|]. cbn [length] in Hl'.
  apply (read_decodes _ _ isLE mLen nBytes eLen (mLen - 8 * Z.of_nat (length l)) b0 b1 l); [done| |done|done]. destruct Hk as [(-> & -> & ->)|(-> & -> & ->)]; lia.
Qed.

(** ** The accessors *)

Definition widths (wide : bool) : Z * Z * Z := if wide then (52, 8, 11) else (23, 4, 8).
Definition write_number (wide : bool) : (spec_float → option Z) → bool → buffer → spec_float → Z → bool → bool → res (buffer * Z) :=
  if wide then writeDouble else writeFloat.
Definition read_number (wide le : bool) : buffer → Z → bool → res spec_float :=
  match wide, le with
  | true, true => readDoubleLE
  | true, false => readDoubleBE
  | false, true => readFloatLE
  | false, false => readFloatBE
  end.

(** A double is a number of its format when nothing is lost in the format. *)
Definition representable (wide : bool) (x : spec_float) : Prop :=
  let '(mLen, _, eLen) := widths wide in ∃ v, valid mLen eLen v ∧ x = widen v.

Lemma every_double x : valid_binary 53 1024 x = true → representable true x.
Proof.
  intros Hv. exists x. split; [exact Hv|]. destruct x as [| | |s m e]; try done.
  destruct (widen_finite 52 8 11 s m e) as [Hf ->]; [by right|exact Hv|]. unfold finite.
  unfold valid_binary, bounded, canonical_mantissa in Hv. apply andb_true_iff in Hv as [Hc%Z.eqb_eq _]. pose proof (fexp_expo (Zpos m) e ltac:(lia)) as Hx.
  cbn [Zdigits2] in Hx. rewrite -Hx Hc Z.sub_diag. by rewrite Z.pow_0_r Z.mul_1_r.
Qed.

(** No number of a format is above its greatest. *)
Lemma below_max s m k M K : fits m k → fits M K → expo m k <= expo M K → (expo m k = expo M K → m * 2 ^ (k - expo m k) <= M * 2 ^ (K - expo M K)) →
  SFltb (num M K) (finite s m k) = false ∧ SFltb (finite s m k) (SFopp (num M K)) = false.
Proof.
  intros H1 H2 Hle Heq. rewrite (num_fits M K) //. unfold finite, SFopp, SFltb, SFcompare. cbn [negb].
  change (Pos.compare_cont Eq ?a ?b) with (Z.compare (Zpos a) (Zpos b)). rewrite !mantissa //.
  destruct s; (split; [|]); try done.
  - destruct (Z.compare_spec (expo m k) (expo M K)) as [E|E|E]; [|done|lia]. specialize (Heq E). by destruct (Z.compare_spec (m * 2 ^ (k - expo m k)) (M * 2 ^ (K - expo M K))); [| |lia].
  - destruct (Z.compare_spec (expo M K) (expo m k)) as [E|E|E]; [|lia|done]. specialize (Heq (eq_sym E)).
    by destruct (Z.compare_spec (M * 2 ^ (K - expo M K)) (m * 2 ^ (k - expo m k))); [|lia|].
Qed.

Definition greatest (wide : bool) : spec_float := if wide then double_max else float_max.

Lemma in_range wide v : let '(mLen, _, eLen) := widths wide in valid mLen eLen v → (∀ s, v ≠ S754_infinity s) →
  SFltb (greatest wide) (widen v) = false ∧ SFltb (widen v) (SFopp (greatest wide)) = false.
Proof.
  destruct wide; cbn [widths greatest]; intros Hv Hi; (destruct v as [s|s| |s m k]; [done|by destruct (Hi s)|done|]).
  - destruct (widen_finite 52 8 11 s m k) as [Hf ->]; [by right|done|]. destruct (format_bounds 52 8 11 (Zpos m) k) as (_ & Hl & Hfit & [[? _]|(_ & Hk & Hs)]); [by right|done|lia|].
    apply below_max; [done|done|change (expo (2 ^ 53 - 1) 971) with 971; unfold expo; lia|]. change (expo (2 ^ 53 - 1) 971) with 971. intros E.
    assert (Z.log2 (Zpos m) = 52 ∧ k = 971) as [Hl' ->] by (unfold expo in E; lia). rewrite E. assert (Zpos m < 2 ^ 53) by (apply Z.log2_lt_pow2; lia).
    change (971 - 971) with 0. rewrite Z.pow_0_r. lia.
  - destruct (widen_finite 23 4 8 s m k) as [Hf ->]; [by left|done|]. destruct (format_bounds 23 4 8 (Zpos m) k) as (_ & Hl & Hfit & [(_ & Hk & Hs)|[? _]]); [by left|done| |lia].
    apply below_max; [done|done|change (expo (2 ^ 24 - 1) 104) with 75; unfold expo; lia|]. change (expo (2 ^ 24 - 1) 104) with 75. intros E.
    assert (Z.log2 (Zpos m) = 23 ∧ k = 104) as [Hl' ->] by (unfold expo in E; lia). rewrite E. assert (Zpos m < 2 ^ 24) by (apply Z.log2_lt_pow2; lia).
    apply Z.mul_le_mono_nonneg_r; [apply Z.pow_nonneg; lia|lia].
Qed.

Lemma encode_range mLen nBytes eLen v : known mLen nBytes eLen → valid mLen eLen v → 0 <= ieee_bits mLen eLen v < 256 ^ nBytes.
Proof.
  intros Hk Hv. assert (256 ^ nBytes = 2 * (2 ^ mLen * 2 ^ eLen) ∧ 2 ^ (mLen + eLen) = 2 ^ mLen * 2 ^ eLen ∧ 1 < 2 ^ mLen ∧ 1 < 2 ^ eLen) as (-> & E & H1 & H2)
    by (destruct Hk as [(-> & -> & ->)|(-> & -> & ->)]; done).
  assert (∀ (s : bool) x, 0 <= x < 2 ^ mLen * 2 ^ eLen → 0 <= (if s then 2 ^ (mLen + eLen) else 0) + x < 2 * (2 ^ mLen * 2 ^ eLen)) as Hs by (intros [] x Hx; lia).
  destruct v as [s|s| |s m k]; cbn [ieee_bits].
  - specialize (Hs s 0 ltac:(nia)). by rewrite Z.add_0_r in Hs.
  - apply Hs. nia.
  - nia.
  - apply Hs. destruct (valid_cases _ _ _ _ _ _ Hk Hv) as [[Hlt _]|(Hge & _ & Hr)].
    + rewrite (proj2 (Z.ltb_lt _ _)) //. nia.
    + rewrite (proj2 (Z.ltb_ge _ _)); [|lia]. rewrite Z.pow_add_r in Hge; [|destruct Hk as [(-> & _)|(-> & _)]; lia|lia]. nia.
Qed.

Lemma format_bytes_facts le n x : length (format_bytes le n x) = n ∧ Forall is_byte (format_bytes le n x) ∧
  (if le then le_value (format_bytes le n x) else be_value (format_bytes le n x)) = x mod 256 ^ Z.of_nat n.
Proof.
  destruct le; cbn [format_bytes]; unfold be_value, be_bytes.
  - split; [apply length_le_bytes|]. split; [apply le_bytes_bytes|apply le_value_bytes].
  - rewrite length_rev rev_involutive. split; [apply length_le_bytes|]. split; [by apply Forall_rev, le_bytes_bytes|apply le_value_bytes].
Qed.

Lemma check_passes wide noAssert b v o : let '(mLen, nBytes, eLen) := widths wide in valid mLen eLen v → noAssert = true ∨ (∀ s, v ≠ S754_infinity s) →
  0 <= o → o + nBytes <= blen b →
  unless noAssert (checkIEEE754 b (widen v) o nBytes (greatest wide) (SFopp (greatest wide))) = Ok ().
Proof.
  pose proof (in_range wide v) as Hr. destruct (widths wide) as [[mLen nBytes] eLen]. intros Hv Hn Ho Hb. destruct noAssert; [done|]. destruct Hn as [|Hn]; [done|].
  destruct (Hr Hv Hn) as [H1 H2]. cbn [unless]. unfold checkIEEE754. rewrite H1 H2. cbn [orb]. by rewrite (proj2 (Z.ltb_ge _ _)) // (proj2 (Z.ltb_ge _ _)).
Qed.

(** (C33) A number of the width, written in bounds in either order of bytes, puts the
    bytes of its interchange format into the buffer and nothing else, and is read back
    from them: zeros with their signs, subnormal numbers, infinities (which the bounds
    check refuses) and [NaN] included. The logarithm the code takes the exponent from
    may be off by one. *)
Theorem float_read_back floor_log2 TAS wide le b x o noAssert noAssert' :
  log_near floor_log2 → log_of_zero floor_log2 → representable wide x → noAssert = true ∨ (∀ s, x ≠ S754_infinity s) →
  0 <= o → o + (if wide then 8 else 4) <= blen b →
  ∃ v b', x = widen v ∧ b' = splice b o (format_bytes le (if wide then 8%nat else 4%nat) (if wide then ieee_bits 52 11 v else ieee_bits 23 8 v)) ∧
    write_number wide floor_log2 TAS b x o le noAssert = Ok (b', o + (if wide then 8 else 4)) ∧
    read_number wide le b' o noAssert' = Ok x.
Proof.
  intros Hl Hz Hx Hn Ho Hb. unfold representable in Hx. pose proof (check_passes wide noAssert b) as Hc. destruct (widths wide) as [[mLen nBytes] eLen] eqn:Ew.
  destruct Hx as (v & Hv & ->). assert (known mLen nBytes eLen ∧ nBytes = if wide then 8 else 4) as [Hk En] by (destruct wide; injection Ew as <- <- <-; [split; [by right|done]|split; [by left|done]]).
  assert (∀ s, widen v ≠ S754_infinity s → v ≠ S754_infinity s) as Hi by (intros s H ->; by apply H).
  specialize (Hc v o Hv ltac:(destruct Hn as [|Hn]; [by left|right; intros s; by apply Hi]) Ho ltac:(lia)).
  set (bytes := format_bytes le (Z.to_nat nBytes) (ieee_bits mLen eLen v)).
  destruct (format_bytes_facts le (Z.to_nat nBytes) (ieee_bits mLen eLen v)) as (Hlen & Hbytes & Hval). fold bytes in Hlen, Hbytes, Hval.
  pose proof (encode_range _ _ _ _ Hk Hv) as Hr. rewrite Z2Nat.id in Hval; [|destruct wide; lia]. rewrite Z.mod_small // in Hval.
  destruct (split_at b o (Z.to_nat nBytes)) as (pre & old & post & -> & <- & Hold); [lia|destruct wide; lia|].
  pose proof (write_encodes floor_log2 TAS le mLen nBytes eLen v pre old post Hk Hv Hl Hz Hold) as Hw. fold bytes in Hw.
  pose proof (read_window le mLen nBytes eLen pre bytes post Hk ltac:(lia) Hbytes) as Hrd. rewrite Hval (number_of_bits mLen nBytes eLen v Hk Hv) in Hrd.
  exists v, (pre ++ bytes ++ post). split; [done|]. split; [rewrite splice_split; [by destruct wide; injection Ew as <- <- <-|]; subst nBytes; rewrite (proj1 (format_bytes_facts _ _ _)); by destruct wide|].
  assert (blen (pre ++ bytes ++ post) = blen (pre ++ old ++ post)) as Hsame by (rewrite !blen_app; unfold blen; lia).
  destruct wide; injection Ew as <- <- <-; cbn [write_number read_number greatest] in *; split.
  - unfold writeDouble. rewrite Hc. cbn [mbind res_bind]. by rewrite Hw.
  - assert (unless noAssert' (checkOffset (blen pre) 8 (blen (pre ++ bytes ++ post))) = Ok ()) as Hu by (destruct noAssert'; [done|]; apply checkOffset_ok; lia).
    destruct le; unfold readDoubleLE, readDoubleBE; rewrite Hu; cbn [mbind res_bind]; by rewrite Hrd.
  - unfold writeFloat. rewrite Hc. cbn [mbind res_bind]. by rewrite Hw.
  - assert (unless noAssert' (checkOffset (blen pre) 4 (blen (pre ++ bytes ++ post))) = Ok ()) as Hu by (destruct noAssert'; [done|]; apply checkOffset_ok; lia).
    destruct le; unfold readFloatLE, readFloatBE; rewrite Hu; cbn [mbind res_bind]; by rewrite Hrd.
Qed.

Lemma exact_log_near : log_near exact_log2.
Proof.
  intros m k Hf. exists (Z.log2 m + k). split; [|lia]. rewrite num_fits //. unfold exact_log2, finite. rewrite mantissa //. destruct Hf as (Hm & He & _).
  rewrite log2_shift; [f_equal; lia|done|lia].
Qed.

Lemma float_read_back_witness :
  ∃ v b', num (-5) (-1) = widen v ∧ b' = splice (replicate 6 9) 1 (format_bytes false 4 (ieee_bits 23 8 v)) ∧
    write_number false exact_log2 true (replicate 6 9) (num (-5) (-1)) 1 false false = Ok (b', 5) ∧
    read_number false false b' 1 false = Ok (num (-5) (-1)).
Proof.
  apply (float_read_back exact_log2 true false false (replicate 6 9) (num (-5) (-1)) 1 false false).
  - apply exact_log_near.
  - reflexivity.
  - exists (S754_finite true 10485760 (-22)). split; vm_compute; reflexivity.
  - right. intros s. vm_compute. discriminate.
  - lia.
  - vm_compute. discriminate.
Defined.

(** A number between two of single precision that is as near to both: it is rounded
    up, where the even one is the nearest by the standard. *)
Example tie_rounded_up :
  writeFloatBE exact_log2 true (replicate 4 0) (num 16777217 0) 0 false = Ok ([75; 128; 0; 1], 4) ∧
  readFloatBE [75; 128; 0; 1] 0 false = Ok (num 16777218 0) ∧
  binary_normalize 24 128 16777217 0 false = binary_normalize 24 128 16777216 0 false.
Proof. vm_compute. done. Qed.
