(* ===== verification/Cookie.v ===== *)
(** * Cookies

    The [cookiejar] module: parsing and printing of cookies, the scope rules
    that decide where a cookie is sent, and the jar with its operations.

    The state of a jar is its table [cookies], from names to the cookies of that
    name in the order they were added. [date_parse] is [Date.parse], whose
    accepted formats are up to the engine; [now] is the value of [Date.now()] at
    the call. *)

From S2P Require Import Prelude.

(** ** Data *)

(** [expiration_date]: [Infinity], a time, or NaN for a date that does not
    parse. *)
Inductive expiry := Never | At (t : Z) | BadDate.

Record CookieAccessInfo := {
  ai_domain : option jstr;
  ai_path : jstr;
  ai_secure : bool;
  ai_script : bool;
}.

(** [name] and [value] are [None] for [null]; a missing [domain] is [None]. *)
Record Cookie := {
  name : option jstr;
  cvalue : option jstr;
  expiration_date : expiry;
  path : jstr;
  explicit_path : bool;
  domain : option jstr;
  explicit_domain : bool;
  secure : bool;
  noscript : bool;
}.

#[export] Instance expiry_eq_dec : EqDecision expiry.
Proof. solve_decision. Defined.
#[export] Instance Cookie_eq_dec : EqDecision Cookie.
Proof. solve_decision. Defined.

(** [s || "/"] *)
Definition or_root (s : option jstr) : jstr :=
  match s with Some ((_ :: _) as p) => p | _ => #"/" end.

(** [s || undefined] *)
Definition non_empty (s : option jstr) : option jstr :=
  match s with Some ((_ :: _) as p) => Some p | _ => None end.

Definition newAccessInfo (d p : option jstr) (sec scr : bool) : CookieAccessInfo :=
  {| ai_domain := non_empty d; ai_path := or_root p; ai_secure := sec; ai_script := scr |}.

(** The cookie before its string is parsed. *)
Definition blank (request_domain request_path : option jstr) : Cookie :=
  {| name := None; cvalue := None; expiration_date := Never; path := or_root request_path;
     explicit_path := false; domain := non_empty request_domain; explicit_domain := false;
     secure := false; noscript := false |}.

(** ** Printing *)

Definition show (s : option jstr) : jstr := default #"null" s.

Definition toValueString (c : Cookie) : jstr := show (name c) ++ #"=" ++ show (cvalue c).

Section print.
(** [new Date(t).toGMTString()] *)
Variable gmt : Z → jstr.

Definition cookie_parts (c : Cookie) : list jstr :=
  [toValueString c]
  ++ match expiration_date c with
     | Never => []
     | At t => [ #"expires=" ++ gmt t]
     | BadDate => [ #"expires=Invalid Date"]
     end
  ++ match domain c with Some ((_ :: _) as d) => [ #"domain=" ++ d] | _ => [] end
  ++ match path c with (_ :: _) as p => [ #"path=" ++ p] | [] => [] end
  ++ (if secure c then [ #"secure"] else [])
  ++ (if noscript c then [ #"httponly"] else []).

Definition cookie_toString (c : Cookie) : jstr := join #"; " (cookie_parts c).
End print.

(** ** Parsing *)

(** The match of an attribute, a run of units other than [=] with an optional
    value after [=]: leading [=] are passed over, the key runs to the next [=]. *)
Fixpoint cut_eq (s : jstr) : jstr * option jstr :=
  match s with
  | [] => ([], None)
  | c :: t => if c =? 61 then ([], Some t) else let '(k, v) := cut_eq t in (c :: k, v)
  end.
Fixpoint skip_eq (s : jstr) : jstr :=
  match s with
  | c :: t => if c =? 61 then skip_eq t else s
  | [] => []
  end.
Definition match_pair (s : jstr) : option (jstr * option jstr) :=
  match skip_eq s with
  | [] => None
  | s => Some (cut_eq s)
  end.

Section jar.
Variable date_parse : jstr → option Z.

(** One attribute: a turn of the loop with its switch. *)
Definition set_attribute (c : Cookie) (part : jstr) : res Cookie :=
  match match_pair part with
  | None => Throw TypeError
  | Some (key, value) =>
      let key := to_lower (trim key) in
      let with_value := match value with Some ((_ :: _) as v) => Some v | _ => None end in
      if streq key #"httponly" then
        Ok {| name := name c; cvalue := cvalue c; expiration_date := expiration_date c;
              path := path c; explicit_path := explicit_path c; domain := domain c;
              explicit_domain := explicit_domain c; secure := secure c; noscript := true |}
      else if streq key #"expires" then
        Ok {| name := name c; cvalue := cvalue c;
              expiration_date := match with_value with
                                 | Some v => match date_parse v with
                                             | Some t => At t | None => BadDate end
                                 | None => Never
                                 end;
              path := path c; explicit_path := explicit_path c; domain := domain c;
              explicit_domain := explicit_domain c; secure := secure c; noscript := noscript c |}
      else if streq key #"path" then
        Ok {| name := name c; cvalue := cvalue c; expiration_date := expiration_date c;
              path := match with_value with Some v => trim v | None => [] end;
              explicit_path := true; domain := domain c;
              explicit_domain := explicit_domain c; secure := secure c; noscript := noscript c |}
      else if streq key #"domain" then
        let d := match with_value with Some v => trim v | None => [] end in
        Ok {| name := name c; cvalue := cvalue c; expiration_date := expiration_date c;
              path := path c; explicit_path := explicit_path c; domain := Some d;
              explicit_domain := negb (streq d []); secure := secure c; noscript := noscript c |}
      else if streq key #"secure" then
        Ok {| name := name c; cvalue := cvalue c; expiration_date := expiration_date c;
              path := path c; explicit_path := explicit_path c; domain := domain c;
              explicit_domain := explicit_domain c; secure := true; noscript := noscript c |}
      else Ok c
  end.

Definition parse (c : Cookie) (str : jstr) (request_domain request_path : option jstr)
    : res Cookie :=
  match List.filter (λ p, negb (streq p [])) (split #";" str) with
  | [] => Throw TypeError
  | first :: rest =>
      match match_pair first with
      | Some (key, Some value) =>
          let c := {| name := Some key; cvalue := Some value;
                      expiration_date := expiration_date c; path := path c;
                      explicit_path := explicit_path c; domain := domain c;
                      explicit_domain := explicit_domain c; secure := secure c;
                      noscript := noscript c |} in
          c ← fold_res set_attribute rest c;
          Ok {| name := name c; cvalue := cvalue c; expiration_date := expiration_date c;
                path := if explicit_path c then path c else or_root request_path;
                explicit_path := explicit_path c;
                domain := if explicit_domain c then domain c else request_domain;
                explicit_domain := explicit_domain c; secure := secure c;
                noscript := noscript c |}
      | _ => Throw TypeError
      end
  end.

(** [new Cookie(cookiestr, request_domain, request_path)] *)
Definition newCookie (arg : Cookie + jstr) (request_domain request_path : option jstr)
    : res Cookie :=
  match arg with
  | inl c => Ok c
  | inr [] => Ok (blank request_domain request_path)
  | inr str => parse (blank request_domain request_path) str request_domain request_path
  end.
End jar.

(** ** Scope *)

(** [d.replace(/^[\.]/, '')] *)
Definition strip_dot (d : jstr) : jstr :=
  match d with 46 :: t => t | _ => d end.

(** [collidesWith]; [access_info] is an access or another cookie, of which only
    the path and the domain are read. *)
Definition collidesWith (c : Cookie) (a_path : jstr) (a_domain : option jstr) : bool :=
  let truthy_path := negb (streq (path c) []) in
  let access_path := negb (streq a_path []) in
  if (truthy_path && negb access_path)
     || (match non_empty (domain c), non_empty a_domain with Some _, None => true | _, _ => false end)
  then false
  else if truthy_path && negb (prefixb (path c) a_path) then false
  else if explicit_path c && negb (prefixb (path c) a_path) then false
  else match non_empty (domain c) with
       | None => true
       | Some d =>
           let cookie_domain := strip_dot d in
           let access_domain := strip_dot (default [] a_domain) in
           if streq cookie_domain access_domain then true
           else match cookie_domain with
                | [] => true
                | _ =>
                    if negb (explicit_domain c) then false
                    else let wildcard := index_of cookie_domain access_domain in
                         negb ((wildcard =? -1)
                               || negb (wildcard =? Z.of_nat (length access_domain)
                                                  - Z.of_nat (length cookie_domain)))
                end
       end.

Definition matches (c : Cookie) (a : CookieAccessInfo) : bool :=
  negb ((noscript c && ai_script a) || (secure c && negb (ai_secure a))
        || negb (collidesWith c (ai_path a) (ai_domain a))).

(** ** The jar *)

(** [c.expiration_date <= Date.now()] *)
Definition expired (now : Z) (c : Cookie) : bool :=
  match expiration_date c with At t => t <=? now | _ => false end.

Abbreviation jar := (list (jstr * list Cookie)).

(** The first cookie that collides with the new one is replaced, or removed. *)
Fixpoint replace_collision (l : list Cookie) (c : Cookie) (remove : bool) : option (list Cookie) :=
  match l with
  | [] => None
  | k :: l =>
      if collidesWith k (path c) (domain c)
      then Some (if remove then l else c :: l)
      else cons k <$> replace_collision l c remove
  end.

Definition key_of (c : Cookie) : jstr := show (name c).

(** [setCookie] on a cookie; the result tells whether a true value is returned. *)
Definition setCookie (now : Z) (cookies : jar) (c : Cookie) : jar * bool :=
  let remove := expired now c in
  let key := key_of c in
  match pget cookies key with
  | Some l =>
      match replace_collision l c remove with
      | Some l' =>
          if remove then (match l' with [] => pdel key cookies | _ => pset key l' cookies end, false)
          else (pset key l' cookies, true)
      | None => if remove then (cookies, false) else (pset key (l ++ [c]) cookies, true)
      end
  | None => if remove then (cookies, false) else (pset key [c] cookies, true)
  end.

Definition getCookie (now : Z) (cookies : jar) (cookie_name : jstr) (a : CookieAccessInfo)
    : option Cookie :=
  match pget cookies cookie_name with
  | None => None
  | Some l => List.find (λ c, negb (expired now c) && matches c a) l
  end.

Definition getCookies (now : Z) (cookies : jar) (a : CookieAccessInfo) : list Cookie :=
  omap (λ k, getCookie now cookies k a) (enum_keys cookies).

(** The [Cookie] header: [matches.toValueString()]. *)
Definition cookies_toValueString (l : list Cookie) : jstr := join #";" (map toValueString l).

(** [setCookies] on an array of strings; the cookies that were kept. *)
Definition setCookies (date_parse : jstr → option Z) (now : Z) (cookies : jar) (l : list jstr)
    (request_domain request_path : option jstr) : res (jar * list Cookie) :=
  cs ← map_res (λ s, newCookie date_parse (inr s) request_domain request_path) l;
  Ok (fold_left (λ '(j, kept) c,
        let '(j', ok) := setCookie now j c in (j', if ok then kept ++ [c] else kept))
      cs (cookies, [])).

(** ** The jar's invariant *)

(** Names are distinct, no list is empty, and a list holds cookies of its name. *)
Definition jar_ok (j : jar) : Prop :=
  NoDup j.*1 ∧ ∀ k l, (k, l) ∈ j → l ≠ [] ∧ Forall (λ c, key_of c = k) l.

Lemma pset_elem {V} k (v : V) o k' v' :
  NoDup o.*1 → (k', v') ∈ pset k v o → (k', v') = (k, v) ∨ (k' ≠ k ∧ (k', v') ∈ o).
Proof.
  intros Hnd Hin. apply (pset_nodup k v) in Hnd as Hnd'.
  apply pget_in in Hin; [|done]. rewrite pget_pset in Hin.
  destruct (streq k k') eqn:E; [str_eqs; left; congruence|].
  str_eqs. right. split; [done|]. by apply pget_some_in.
Qed.

Lemma pdel_elem {V} k (o : list (jstr * V)) p : p ∈ pdel k o ↔ p.1 ≠ k ∧ p ∈ o.
Proof.
  unfold pdel. destruct p as [k' v]. rewrite list_elem_of_filter. cbn. naive_solver.
Qed.

Lemma pdel_nodup {V} k (o : list (jstr * V)) : NoDup o.*1 → NoDup (pdel k o).*1.
Proof.
  intros H. eapply sublist_NoDup; [exact H|]. apply fmap_sublist, sublist_filter.
Qed.

Lemma jar_ok_pset k l j :
  jar_ok j → l ≠ [] → Forall (λ c, key_of c = k) l → jar_ok (pset k l j).
Proof.
  intros [Hnd Hj] Hl HF. split; [by apply pset_nodup|]. intros k' l' Hin.
  apply pset_elem in Hin as [[= -> ->]|[_ Hin]]; [done|by apply Hj|done].
Qed.

Lemma jar_ok_pdel k j : jar_ok j → jar_ok (pdel k j).
Proof.
  intros [Hnd Hj]. split; [by apply pdel_nodup|]. intros k' l' [_ Hin]%pdel_elem. by apply Hj.
Qed.

Lemma jar_ok_get j k l : jar_ok j → pget j k = Some l → l ≠ [] ∧ Forall (λ c, key_of c = k) l.
Proof. intros [_ Hj] H. by apply Hj, pget_some_in. Qed.

(** The collision found is the first one, and only it changes. *)
Lemma replace_collision_some l c remove l' :
  replace_collision l c remove = Some l' →
  ∃ l1 k l2, l = l1 ++ k :: l2 ∧ l' = l1 ++ (if remove then [] else [c]) ++ l2
    ∧ collidesWith k (path c) (domain c) = true
    ∧ Forall (λ k, collidesWith k (path c) (domain c) = false) l1.
Proof.
  revert l'. induction l as [|k l IH]; intros l' H; cbn in H; [done|].
  destruct (collidesWith k _ _) eqn:E.
  - injection H as <-. exists [], k, l. by destruct remove.
  - destruct (replace_collision l c remove) as [l0|]; [|done]. injection H as <-.
    destruct (IH l0 eq_refl) as (l1 & k1 & l2 & -> & -> & Hc & Hf).
    exists (k :: l1), k1, l2. split_and!; [done..|by constructor].
Qed.

Lemma replace_collision_none l c remove :
  replace_collision l c remove = None → Forall (λ k, collidesWith k (path c) (domain c) = false) l.
Proof.
  induction l as [|k l IH]; intros H; cbn in H; [done|].
  destruct (collidesWith k _ _) eqn:E; [done|].
  destruct (replace_collision l c remove); [done|]. constructor; auto.
Qed.

(** Every operation keeps the jar well formed: [setCookie] on any jar,
    cookie and time, whether it replaces, removes, appends or refuses. *)
Theorem setCookie_invariant now j c : jar_ok j → jar_ok (setCookie now j c).1.
Proof.
  intros Hj. unfold setCookie. destruct (pget j (key_of c)) as [l|] eqn:G.
  - destruct (jar_ok_get _ _ _ Hj G) as [Hl HF].
    destruct (replace_collision l c _) as [l'|] eqn:R.
    + apply replace_collision_some in R as (l1 & k & l2 & -> & -> & _).
      apply Forall_app in HF as [HF1 [_ HF2]%Forall_cons].
      destruct (expired now c); cbn [fst].
      * destruct (l1 ++ [] ++ l2) eqn:E; [by apply jar_ok_pdel|]. rewrite -E.
        apply jar_ok_pset; [done|by rewrite E|]. by apply Forall_app.
      * apply jar_ok_pset; [done|by destruct l1|]. rewrite !Forall_app. by repeat constructor.
    + destruct (expired now c); [done|]. apply jar_ok_pset; [done|by destruct l|].
      apply Forall_app. by repeat constructor.
  - destruct (expired now c); [done|]. apply jar_ok_pset; [done..|by repeat constructor].
Qed.

Lemma setCookie_invariant_witness : jar_ok (setCookie 0 [] {| name := Some #"sid"; cvalue := Some #"42"; expiration_date := Never; path := #"/api";
     explicit_path := true; domain := Some #"example.com"; explicit_domain := true;
     secure := true; noscript := false |}).1.
Proof.
  apply (setCookie_invariant 0 []). split; [constructor|]. intros k l H. by apply not_elem_of_nil in H.
Defined.

(** (C29) Setting a cookie: a live one is stored under its name and replaces
    at most the first cookie of that name it collides with; an expired one is
    never stored, and removes at most that cookie. No other name changes. *)
Theorem setCookie_spec now j c :
  let l := default [] (pget j (key_of c)) in
  let '(j', kept) := setCookie now j c in
  let l' := default [] (pget j' (key_of c)) in
  kept = negb (expired now c) ∧
  (∀ k, k ≠ key_of c → pget j' k = pget j k) ∧
  let new := if expired now c then [] else [c] in
  (l' = l ++ new ∧ Forall (λ k, collidesWith k (path c) (domain c) = false) l
   ∨ ∃ l1 k l2, l = l1 ++ k :: l2 ∧ l' = l1 ++ new ++ l2
       ∧ collidesWith k (path c) (domain c) = true
       ∧ Forall (λ k, collidesWith k (path c) (domain c) = false) l1).
Proof.
  cbn zeta. unfold setCookie. destruct (pget j (key_of c)) as [l|] eqn:G; cbn [default].
  2: { destruct (expired now c).
       - rewrite G. split_and!; [done..|by left].
       - rewrite pget_pset_eq. split_and!; [done| |by left].
         intros k Hk. apply pget_pset_ne. congruence. }
  destruct (replace_collision l c _) as [l'|] eqn:R.
  - apply replace_collision_some in R as (l1 & k & l2 & -> & -> & Hc & Hf).
    destruct (expired now c).
    + destruct (l1 ++ [] ++ l2) eqn:E.
      * rewrite pget_pdel_eq. split_and!; [done| |right].
        { intros k' Hk'. apply pget_pdel_ne. congruence. }
        exists l1, k, l2. by rewrite E.
      * rewrite pget_pset_eq. split_and!; [done| |right].
        { intros k' Hk'. apply pget_pset_ne. congruence. }
        exists l1, k, l2. by rewrite E.
    + rewrite pget_pset_eq. split_and!; [done| |right].
      { intros k' Hk'. apply pget_pset_ne. congruence. }
      by exists l1, k, l2.
  - apply replace_collision_none in R. destruct (expired now c).
    + rewrite G. split_and!; [done..|left]. by rewrite app_nil_r.
    + rewrite pget_pset_eq. split_and!; [done| |by left].
      intros k' Hk'. apply pget_pset_ne. congruence.
Qed.

(** ** What the jar hands out *)

Lemma getCookie_some now j k a c :
  getCookie now j k a = Some c →
  ∃ l, pget j k = Some l ∧ c ∈ l ∧ expired now c = false ∧ matches c a = true.
Proof.
  unfold getCookie. destruct (pget j k) as [l|]; [|done]. intros H.
  apply List.find_some in H as [Hin H]. str_eqs. exists l. by rewrite list_elem_of_In.
Qed.

(** [h] ends with [d], and [d] is found nowhere else in it. *)
Definition ends_only (d h : jstr) : Prop :=
  (∃ x, h = x ++ d) ∧ ∀ y z, h = y ++ d ++ z → z = [].

(** The hosts a cookie may go to: any host if it has no domain; else, leading
    dots aside, the host of its domain itself and, when the cookie named the
    domain, the hosts that end with it. *)
Definition sent_to (c : Cookie) (host : option jstr) : Prop :=
  match non_empty (domain c) with
  | None => True
  | Some d => ∃ h, non_empty host = Some h ∧
      (strip_dot h = strip_dot d ∨ strip_dot d = []
       ∨ explicit_domain c = true ∧ ends_only (strip_dot d) (strip_dot h))
  end.

(** What an access may be given. *)
Definition in_scope (c : Cookie) (a : CookieAccessInfo) : Prop :=
  (secure c = true → ai_secure a = true) ∧
  (noscript c = true → ai_script a = false) ∧
  (∃ rest, ai_path a = path c ++ rest) ∧
  sent_to c (ai_domain a).

Lemma find_sub_first p y z : ∃ n, find_sub p (y ++ p ++ z) = Some n ∧ (n <= length y)%nat.
Proof.
  induction y as [|c y IH].
  - exists 0%nat. split; [|done]. cbn [app].
    pose proof (prefixb_app p z) as H. destruct (p ++ z); cbn [find_sub]; by rewrite H.
  - cbn [app find_sub length]. case_match; [exists 0%nat; split; [done|lia]|].
    destruct IH as (n & -> & Hn). exists (S n). split; [done|lia].
Qed.

(** [indexOf] gives the position of the end exactly when the text ends there
    and is found nowhere else. *)
Lemma index_of_end d h :
  negb ((index_of d h =? -1) || negb (index_of d h =? Z.of_nat (length h) - Z.of_nat (length d))) = true
  ↔ ends_only d h.
Proof.
  rewrite negb_true_iff orb_false_iff negb_false_iff Z.eqb_neq Z.eqb_eq. unfold index_of. split.
  - intros [Hn He]. destruct (find_sub d h) as [n|] eqn:F; [|done].
    destruct (find_sub_some _ _ _ F) as (a & b & E & Ha).
    assert (b = []) as ->. { apply nil_length_inv. rewrite E !length_app in He. lia. }
    split; [exists a; by rewrite app_nil_r in E|]. intros y z E'.
    destruct (find_sub_first d y z) as (m & F' & Hm). rewrite -E' F in F'. injection F' as <-.
    apply nil_length_inv. rewrite E' !length_app in He. lia.
  - intros [[x Ex] Hu]. destruct (find_sub_first d x []) as (n & F & _).
    rewrite app_nil_r -Ex in F. rewrite F. destruct (find_sub_some _ _ _ F) as (a & b & E & Ha).
    pose proof (Hu _ _ E) as ->. rewrite app_nil_r in E. split; [lia|]. rewrite E length_app. lia.
Qed.

Lemma collidesWith_spec c p host :
  collidesWith c p host = true ↔ (∃ rest, p = path c ++ rest) ∧ sent_to c host.
Proof.
  rewrite -prefixb_spec. unfold collidesWith, sent_to.
  assert (negb (streq (path c) []) && negb (negb (streq p [])) = true → prefixb (path c) p = false) as Hp.
  { rewrite andb_true_iff !negb_true_iff negb_false_iff streq_spec streq_neq. intros [H ->].
    by destruct (path c). }
  assert (prefixb (path c) p = false → negb (streq (path c) []) = true) as Hne.
  { rewrite negb_true_iff streq_neq. intros H E. by rewrite E in H. }
  destruct (prefixb (path c) p).
  2: { rewrite Hne //. cbn [negb andb]. destruct (_ || _); naive_solver. }
  replace (_ && negb (negb _)) with false
    by (symmetry; apply not_true_is_false; intros H; by apply Hp in H).
  cbn [orb negb]. rewrite !andb_false_r.
  destruct (non_empty (domain c)) as [d|]; [|naive_solver].
  destruct (non_empty host) as [h|] eqn:Eh; [|naive_solver].
  assert (host = Some h) as -> by by destruct host as [[]|].
  cbn [default]. change (id h) with h.
  clear Hp Hne. destruct (streq (strip_dot d) (strip_dot h)) eqn:E.
  { apply streq_spec in E. split; [|by intros _]. intros _. split; [done|]. exists h. naive_solver. }
  apply streq_neq in E. destruct (strip_dot d) as [|x0 d0] eqn:Ed.
  { split; [|by intros _]. intros _. split; [done|]. exists h. naive_solver. }
  destruct (explicit_domain c); cbn [negb].
  - rewrite index_of_end. split; [intros H; split; [done|]; exists h; by auto|].
    intros [_ (h' & [= <-] & [?|[?|[_ ?]]])]; congruence || done.
  - split; [done|]. intros [_ (h' & [= <-] & [?|[?|[? ?]]])]; congruence.
Qed.

Lemma matches_spec c a : matches c a = true ↔ in_scope c a.
Proof.
  unfold matches, in_scope. rewrite negb_true_iff !orb_false_iff negb_false_iff collidesWith_spec.
  destruct (noscript c), (ai_script a), (secure c), (ai_secure a); naive_solver.
Qed.

(** (C30) [getCookie] and [getCookies] hand out exactly the live cookies in
    scope. What they return is stored under its name, not expired, not a secure
    cookie for an insecure access, not an http-only cookie for a script, a
    cookie whose path begins the access' path, and a cookie whose domain allows
    the host ([sent_to]): it has none, or it is the host (a leading dot aside),
    or the cookie named it itself and the host ends with it (and holds it
    nowhere else; a dot before it is not asked for, and the domain [.] allows
    every host). Conversely a name with a live cookie in that scope gets one. *)
Theorem getCookies_spec now j a :
  jar_ok j →
  (∀ c, c ∈ getCookies now j a →
     (∃ l, pget j (key_of c) = Some l ∧ c ∈ l) ∧ expired now c = false ∧ in_scope c a) ∧
  (∀ k l c, pget j k = Some l → c ∈ l → expired now c = false → in_scope c a →
     ∃ c', getCookie now j k a = Some c' ∧ c' ∈ getCookies now j a).
Proof.
  intros Hj. split.
  - intros c Hin. apply list_elem_of_omap in Hin as (k & _ & Hk).
    apply getCookie_some in Hk as (l & Hl & Hc & Hx & Hm).
    destruct (jar_ok_get _ _ _ Hj Hl) as [_ HF]. rewrite Forall_forall in HF.
    rewrite (HF c Hc). apply matches_spec in Hm. by eauto.
  - intros k l c Hl Hc Hx Hm%matches_spec.
    destruct (getCookie now j k a) as [c'|] eqn:G.
    + exists c'. split; [done|]. apply list_elem_of_omap. exists k. split; [|done].
      unfold enum_keys. rewrite enum_perm. apply list_elem_of_fmap. exists (k, l).
      split; [done|]. by apply pget_some_in.
    + exfalso. unfold getCookie in G. rewrite Hl in G. apply list_elem_of_In in Hc.
      pose proof (List.find_none _ _ G c Hc) as F. cbn in F. by rewrite Hx Hm in F.
Qed.

Lemma getCookies_spec_witness : let j := (setCookie 0 [] {| name := Some #"sid"; cvalue := Some #"42"; expiration_date := Never; path := #"/api";
     explicit_path := true; domain := Some #"example.com"; explicit_domain := true;
     secure := true; noscript := false |}).1 in
  let a := newAccessInfo (Some #"www.example.com") (Some #"/api/x") true false in
  (∀ c, c ∈ getCookies 0 j a →
     (∃ l, pget j (key_of c) = Some l ∧ c ∈ l) ∧ expired 0 c = false ∧ in_scope c a) ∧
  (∀ k l c, pget j k = Some l → c ∈ l → expired 0 c = false → in_scope c a →
     ∃ c', getCookie 0 j k a = Some c' ∧ c' ∈ getCookies 0 j a).
Proof.
  apply (getCookies_spec 0). split; [apply NoDup_singleton|].
  intros k l H. apply list_elem_of_singleton in H as [= -> ->]. split; [done|]. by repeat constructor.
Defined.

(** The cookie of the witness goes to a subdomain, and not to another host. *)
Example cookie_hosts :
  let j := (setCookie 0 [] {| name := Some #"sid"; cvalue := Some #"42"; expiration_date := Never; path := #"/";
     explicit_path := false; domain := Some #"example.com"; explicit_domain := true;
     secure := false; noscript := false |}).1 in
  let sent h := length (getCookies 0 j (newAccessInfo (Some h) None false false)) in
  sent #"example.com" = 1%nat ∧ sent #"www.example.com" = 1%nat ∧
  sent #"other.org" = 0%nat ∧ sent #"example.com.evil.org" = 0%nat.
Proof. by vm_compute. Qed.

(** A cookie with an explicit domain is handed out to a host that merely
    ends in the same letters: nothing requires the match to start at a dot, so a
    cookie of [example.com] goes to [notexample.com]. *)
Theorem domain_match_without_dot d x c a :
  d ≠ [] → d !! 0%nat ≠ Some 46 → x ≠ [] → x !! 0%nat ≠ Some 46 →
  index_of d (x ++ d) = Z.of_nat (length x) →
  domain c = Some d → explicit_domain c = true →
  prefixb (path c) (ai_path a) = true → ai_path a ≠ [] → ai_domain a = Some (x ++ d) →
  collidesWith c (ai_path a) (ai_domain a) = true.
Proof.
  intros Hd Hd0 Hx Hx0 Hi Hcd Hce Hp Hap Hda. unfold collidesWith. rewrite Hcd Hda Hce.
  assert (∀ s, s !! 0%nat ≠ Some 46 → strip_dot s = s) as Hs.
  { intros [|y s] H; [done|]. cbn in H. unfold strip_dot.
    repeat (match goal with |- context [match ?z with _ => _ end] => destruct z end; try done).
    all: by exfalso; apply H. }
  assert (streq (ai_path a) [] = false) as -> by by apply streq_neq.
  destruct d as [|d0 d]; [done|]. destruct x as [|x0 x]; [done|].
  cbn [non_empty negb app default]. rewrite andb_false_r Hp. cbn [orb negb].
  rewrite !andb_false_r. change (id (x0 :: x ++ d0 :: d)) with ((x0 :: x) ++ d0 :: d).
  rewrite (Hs (d0 :: d)) // (Hs ((x0 :: x) ++ d0 :: d)) //.
  case_if; [done|]. rewrite Hi. apply negb_true_iff, orb_false_iff.
  rewrite negb_false_iff Z.eqb_neq Z.eqb_eq length_app. lia.
Qed.

Lemma domain_match_without_dot_witness : collidesWith
  {| name := Some #"sid"; cvalue := Some #"42"; expiration_date := Never; path := #"/";
     explicit_path := false; domain := Some #"example.com"; explicit_domain := true;
     secure := false; noscript := false |} #"/" (Some #"notexample.com") = true.
Proof.
  apply (domain_match_without_dot #"example.com" #"not" _ (newAccessInfo (Some #"notexample.com") None false false));
    reflexivity || done.
Defined.

(** ** Printing and parsing *)

Lemma join_semi x l : join #"; " (x :: l) = join [59] (x :: map (cons 32) l).
Proof.
  revert x. induction l as [|y l IH]; intros x; [done|].
  rewrite (join_cons _ x (y :: l)) // IH. cbn [map].
  rewrite (join_cons _ x ((32 :: y) :: _)) //. by destruct (map (cons 32) l).
Qed.

Lemma cut_eq_app k v : 61 ∉ k → cut_eq (k ++ 61 :: v) = (k, Some v).
Proof.
  induction k as [|c k IH]; intros H; [done|]. apply not_elem_of_cons in H as [Hc H].
  cbn. replace (c =? 61) with false by (symmetry; apply Z.eqb_neq; congruence). by rewrite IH.
Qed.

Lemma match_pair_app k v : k ≠ [] → 61 ∉ k → match_pair (k ++ 61 :: v) = Some (k, Some v).
Proof.
  intros Hk H. destruct k as [|c k]; [done|]. unfold match_pair. cbn [app skip_eq].
  replace (c =? 61) with false by (symmetry; apply Z.eqb_neq; set_solver).
  by rewrite (cut_eq_app (c :: k)).
Qed.

(** A cookie that prints to an unambiguous string. *)
Definition printable (c : Cookie) : Prop :=
  ∃ n v p d, name c = Some n ∧ cvalue c = Some v ∧ path c = p ∧ domain c = Some d ∧
    n ≠ [] ∧ (61 ∉ n) ∧ (59 ∉ n) ∧ (59 ∉ v) ∧
    p ≠ [] ∧ (59 ∉ p) ∧ trim p = p ∧ d ≠ [] ∧ (59 ∉ d) ∧ trim d = d ∧
    expiration_date c = Never ∧ explicit_path c = true ∧ explicit_domain c = true.

Lemma set_domain date_parse c d :
  d ≠ [] → trim d = d →
  set_attribute date_parse c (#" domain=" ++ d)
  = Ok {| name := name c; cvalue := cvalue c; expiration_date := expiration_date c;
          path := path c; explicit_path := explicit_path c; domain := Some d;
          explicit_domain := true; secure := secure c; noscript := noscript c |}.
Proof.
  intros Hd Ht. change (#" domain=" ++ d) with (#" domain" ++ 61 :: d).
  unfold set_attribute. rewrite match_pair_app; [|done|by apply has_false].
  destruct d as [|x d]; [done|]. cbn -[trim]. by rewrite Ht.
Qed.

Lemma set_path date_parse c p :
  p ≠ [] → trim p = p →
  set_attribute date_parse c (#" path=" ++ p)
  = Ok {| name := name c; cvalue := cvalue c; expiration_date := expiration_date c;
          path := p; explicit_path := true; domain := domain c;
          explicit_domain := explicit_domain c; secure := secure c; noscript := noscript c |}.
Proof.
  intros Hd Ht. change (#" path=" ++ p) with (#" path" ++ 61 :: p).
  unfold set_attribute. rewrite match_pair_app; [|done|by apply has_false].
  destruct p as [|x p]; [done|]. cbn -[trim]. by rewrite Ht.
Qed.

Lemma not_semi k s : has 59 k = false → 59 ∉ s → 59 ∉ 32 :: k ++ s.
Proof.
  intros Hk Hs. apply has_false. cbn. rewrite -/(has 59 (k ++ s)) has_app Hk. by apply has_false.
Qed.

(** Parsing what a cookie prints gives the cookie back, in any request
    context. *)
Theorem cookie_roundtrip gmt date_parse c request_domain request_path :
  printable c →
  newCookie date_parse (inr (cookie_toString gmt c)) request_domain request_path = Ok c.
Proof.
  intros (n & v & p & d & Hn & Hv & Hp & Hd & Hne & Hn1 & Hn2 & Hv1 & Hp1 & Hp2 & Hpt & Hd1 & Hd2 & Hdt
          & Hx & Hep & Hed).
  assert (cookie_parts gmt c = (n ++ 61 :: v) :: (#"domain=" ++ d) :: (#"path=" ++ p)
    :: (if secure c then [ #"secure"] else []) ++ (if noscript c then [ #"httponly"] else [])) as Hparts.
  { unfold cookie_parts, toValueString. rewrite Hn Hv Hx Hd Hp. destruct d; [done|]. by destruct p. }
  unfold cookie_toString. rewrite Hparts join_semi.
  set (flags := (if secure c then [ #"secure"] else []) ++ (if noscript c then [ #"httponly"] else [])).
  set (parts := (n ++ 61 :: v) :: map (cons 32) ((#"domain=" ++ d) :: (#"path=" ++ p) :: flags)).
  assert (split #";" (join [59] parts) = parts) as Hsplit.
  { apply split_join; [done|]. unfold parts. constructor; [set_solver|].
    cbn [map]. constructor; [by apply not_semi|].
    constructor; [by apply not_semi|].
    unfold flags. destruct (secure c), (noscript c); repeat constructor; by apply has_false. }
  unfold newCookie. destruct (join [59] parts) as [|j0 js] eqn:Ej.
  { exfalso. unfold parts in Ej. cbn [map] in Ej. destruct n; [done|]. by rewrite join_cons in Ej. }
  unfold parse. rewrite Hsplit.
  assert (List.filter (λ p, negb (streq p [])) parts = parts) as ->.
  { unfold parts. cbn [map]. unfold flags. destruct n; [done|].
    destruct (secure c), (noscript c); reflexivity. }
  unfold parts. cbn [map]. rewrite match_pair_app //. cbn [fold_res].
  change (32 :: #"domain=" ++ d) with (#" domain=" ++ d). rewrite set_domain //.
  cbn [mbind res_bind]. change (32 :: #"path=" ++ p) with (#" path=" ++ p). rewrite set_path //.
  cbn [mbind res_bind name cvalue expiration_date path explicit_path domain explicit_domain secure noscript blank].
  destruct c as [cn cv cx cp cep cd ced cs cns]. cbn in *. subst.
  unfold flags. by destruct cs, cns.
Qed.

Lemma cookie_roundtrip_witness : newCookie (λ _, None) (inr (cookie_toString (λ _, []) {| name := Some #"sid"; cvalue := Some #"42"; expiration_date := Never; path := #"/api";
     explicit_path := true; domain := Some #"example.com"; explicit_domain := true;
     secure := true; noscript := false |}))
    None None
  = Ok {| name := Some #"sid"; cvalue := Some #"42"; expiration_date := Never; path := #"/api";
     explicit_path := true; domain := Some #"example.com"; explicit_domain := true;
     secure := true; noscript := false |}.
Proof.
  apply (cookie_roundtrip (λ _, []) (λ _, None)).
  exists #"sid", #"42", #"/api", #"example.com".
  split_and!; try reflexivity; try done; by apply not_in_check.
Defined.
