(* ===== verification/Auth.v ===== *)
(** * Authorizations

    The [auth] module: API keys in the query or a header, cookies, basic
    authentication, and [SwaggerAuthorizations], which picks the ones an
    operation asks for and applies them to the request about to be sent. *)

From S2P Require Import Prelude Int32 JsValue Base64 BufferCore BufferText Buffer Cookie.

(** ** Requests and authorizations *)

(** The kinds of authorization the module defines. *)
Inductive auth :=
  | ApiKeyAuthorization (name value type : jstr)
  | CookieAuthorization (cookie : jstr)
  | PasswordAuthorization (username password : jstr).

(** The part of a request object an authorization reads or changes. *)
Record request := {
  url : jstr;
  headers : list (jstr * value);
  cookieJar : option jar;
  clientAuthorizations : option (list (jstr * auth));
}.

Definition set_url (u : jstr) (r : request) : request :=
  {| url := u; headers := headers r; cookieJar := cookieJar r;
     clientAuthorizations := clientAuthorizations r |}.
Definition set_headers (h : list (jstr * value)) (r : request) : request :=
  {| url := url r; headers := h; cookieJar := cookieJar r;
     clientAuthorizations := clientAuthorizations r |}.
Definition set_jar (j : jar) (r : request) : request :=
  {| url := url r; headers := headers r; cookieJar := Some j;
     clientAuthorizations := clientAuthorizations r |}.

(** ** The table of authorizations *)

Abbreviation authz := (list (jstr * auth)).

(** [add] with a name, and with an object of authorizations. *)
Definition auth_add (name : jstr) (a : auth) (t : authz) : authz := pset name a t.
Definition auth_add_all (auths : authz) (t : authz) : authz :=
  fold_left (λ t '(k, a), pset k a t) (enum auths) t.
Definition auth_remove (name : jstr) (t : authz) : authz := pdel name t.

(** ** Applying one authorization *)

(** A parameter of this name is already in the query. *)
Definition query_has (name u : jstr) : bool :=
  (0 <? index_of #"?" u)
  && existsb (λ part, match split #"=" part with k :: _ => streq k name | [] => false end)
       (split #"&" (substring_from (index_of #"?" u + 1) u)).

Definition apply_api_key (name value type : jstr) (obj : request) : request * bool :=
  if streq type #"query" then
    if query_has name (url obj) then (obj, false)
    else if 0 <? index_of #"?" (url obj)
    then (set_url (url obj ++ #"&" ++ name ++ #"=" ++ value) obj, true)
    else (set_url (url obj ++ #"?" ++ name ++ #"=" ++ value) obj, true)
  else if streq type #"header" then
    if is_undef (field (headers obj) name)
    then (set_headers (pset name (VStr value) (headers obj)) obj, true)
    else (obj, true)
  else (obj, false).

Definition apply_password (username password : jstr) (obj : request) : res (request * bool) :=
  if is_undef (field (headers obj) #"Authorization") then
    token ← btoa (username ++ #":" ++ password);
    Ok (set_headers (pset #"Authorization" (VStr (#"Basic " ++ token)) (headers obj)) obj, true)
  else Ok (obj, true).

Section apply.
Context (date_parse : jstr → option Z) (now : Z).

Definition apply_cookie (cookie : jstr) (obj : request) : res (request * bool) :=
  let j := default [] (cookieJar obj) in
  c ← newCookie date_parse (inr cookie) None None;
  Ok (set_jar (setCookie now j c).1 obj, true).

(** [auth.apply(obj)]; the boolean is the truth of its result. *)
Definition auth_apply (a : auth) (obj : request) : res (request * bool) :=
  match a with
  | ApiKeyAuthorization name value type => Ok (apply_api_key name value type obj)
  | CookieAuthorization cookie => apply_cookie cookie obj
  | PasswordAuthorization username password => apply_password username password obj
  end.

(** ** Choosing and applying *)

(** The keys lodash [each] passes as strings. *)
Definition string_keys (v : value) : list jstr :=
  match v with VObj o => enum_keys o | _ => [] end.

Definition flattenedSecurities (securities : value) : list jstr :=
  match securities with
  | VObj o => concat (map (λ '(k, v), k :: string_keys v) (enum o))
  | VArr l => concat (map string_keys l)
  | _ => []
  end.

Definition selected (t : authz) (securities : value) : list (jstr * auth) :=
  List.filter (λ '(k, _), negb (truthy securities) || existsb (streq k) (flattenedSecurities securities))
              (enum t).

(** [SwaggerAuthorizations.apply] *)
Definition apply (t : authz) (obj : request) (securities : value) : res (request * bool) :=
  let table := default t (clientAuthorizations obj) in
  fold_res (λ '(obj, status) '(authName, a),
      if negb (truthy securities) || existsb (streq authName) (flattenedSecurities securities)
      then '(obj', newStatus) ← auth_apply a obj; Ok (obj', status && newStatus)
      else Ok (obj, status))
    (enum table) (obj, true).
End apply.

(** ** API keys *)

Lemma split_head (c : Z) (a b : jstr) : c ∉ a → ∃ l, split [c] (a ++ c :: b) = a :: l.
Proof. intros H. eexists. by apply split_cut. Qed.

Lemma part_has_key name value :
  61 ∉ name → 38 ∉ name →
  existsb (λ part, match split #"=" part with k :: _ => streq k name | [] => false end)
    (split #"&" (name ++ #"=" ++ value)) = true.
Proof.
  intros He Ha. destruct (unit_cases 38 (name ++ #"=" ++ value)) as [H|(a & b & E & H)].
  - rewrite split_none //. cbn [existsb]. destruct (split_head 61 name value He) as [l Hl].
    change (name ++ #"=" ++ value) with (name ++ 61 :: value).
    change #"=" with [61]. by rewrite Hl streq_refl.
  - assert (∃ v, a = name ++ 61 :: v) as [v ->].
    { change (name ++ #"=" ++ value) with (name ++ 61 :: value) in E.
      destruct (app_eq_inv _ _ _ _ E) as [(k & -> & E2)|(k & -> & E2)].
      - destruct k as [|x k]; [rewrite app_nil_r in E2 |- *|].
        + cbn in E2. congruence.
        + exfalso. cbn in E2. injection E2 as <- E2. apply Ha. set_solver.
      - destruct k as [|x k]; [by cbn in E2|]. cbn in E2. injection E2 as <- E2. by exists k. }
    rewrite E split_cut //. cbn [existsb]. change #"=" with [61].
    destruct (split_head 61 name v He) as [l Hl]. by rewrite Hl streq_refl.
Qed.

(** The query of a URL and what an appended pair does to it. *)
Lemma query_has_cut name a q :
  63 ∉ a → a ≠ [] →
  query_has name (a ++ 63 :: q)
  = existsb (λ part, match split #"=" part with k :: _ => streq k name | [] => false end) (split #"&" q).
Proof.
  intros Ha Hne. unfold query_has. change #"?" with [63]. rewrite index_of_unit //.
  replace (0 <? Z.of_nat (length a)) with true
    by (symmetry; apply Z.ltb_lt; destruct a; [done|cbn; lia]). cbn [andb].
  unfold substring_from. replace (Z.to_nat (Z.of_nat (length a) + 1)) with (S (length a)) by lia.
  change (a ++ 63 :: q) with (a ++ [63] ++ q). rewrite app_assoc.
  replace (S (length a)) with (length (a ++ [63])) by (rewrite length_app; cbn; lia).
  by rewrite drop_app_length.
Qed.

Lemma api_key_sets name value obj :
  61 ∉ name → 38 ∉ name → url obj ≠ [] → url obj !! 0%nat ≠ Some 63 →
  let '(obj', _) := apply_api_key name value #"query" obj in query_has name (url obj') = true.
Proof.
  intros He Ha Hu H0. unfold apply_api_key. rewrite streq_refl.
  destruct (query_has name (url obj)) eqn:Q; [done|].
  destruct (unit_cases 63 (url obj)) as [H|(a & b & E & H)].
  - pose proof (proj1 (index_of_none 63 (url obj)) H) as Hi. change #"?" with [63]. rewrite Hi. cbn.
    rewrite query_has_cut //. by apply part_has_key.
  - assert (a ≠ []) as Hne by (intros ->; apply H0; by rewrite E).
    assert ((0 <? index_of #"?" (url obj)) = true) as ->.
    { change #"?" with [63]. rewrite E index_of_unit //. apply Z.ltb_lt. destruct a; [done|cbn; lia]. }
    cbn [url set_url]. rewrite E -app_assoc. cbn [app]. rewrite query_has_cut //.
    change (b ++ #"&" ++ name ++ #"=" ++ value) with (b ++ 38 :: (name ++ #"=" ++ value)).
    change #"&" with [38]. rewrite split_app_unit existsb_app. apply orb_true_iff. right.
    by apply part_has_key.
Qed.

(** An API key for the query is set once: after one application the URL
    extends the old one and has the parameter, and applying the same key again
    changes nothing and reports that it did nothing. *)
Theorem api_key_query_once name value obj :
  61 ∉ name → 38 ∉ name → url obj ≠ [] → url obj !! 0%nat ≠ Some 63 →
  let '(obj', _) := apply_api_key name value #"query" obj in
  (∃ t, url obj' = url obj ++ t) ∧ headers obj' = headers obj ∧
  query_has name (url obj') = true ∧
  apply_api_key name value #"query" obj' = (obj', false).
Proof.
  intros He Ha Hu H0. pose proof (api_key_sets name value obj He Ha Hu H0) as Hs.
  destruct (apply_api_key name value #"query" obj) as [obj' b] eqn:E.
  split_and!; [| |done|unfold apply_api_key; by rewrite streq_refl Hs].
  - revert E. unfold apply_api_key. rewrite streq_refl. repeat case_if; intros [= <- <-];
      cbn [url set_url]; [exists []; by rewrite app_nil_r|eauto..].
  - revert E. unfold apply_api_key. rewrite streq_refl. by repeat case_if; intros [= <- <-].
Qed.

Lemma api_key_query_once_witness : let obj := {| url := #"http://h/x?a=1"; headers := []; cookieJar := None; clientAuthorizations := None |} in
  let '(obj', _) := apply_api_key #"key" #"s3" #"query" obj in
  (∃ t, url obj' = url obj ++ t) ∧ headers obj' = headers obj ∧
  query_has #"key" (url obj') = true ∧
  apply_api_key #"key" #"s3" #"query" obj' = (obj', false).
Proof. apply (api_key_query_once #"key" #"s3"); [by apply not_in_check..|done|done]. Defined.

(** Header authorizations never overwrite: a header that is set keeps its
    value, every other header is untouched, the URL stays, and a missing header
    gets the key's value. *)
Theorem api_key_header_frame name value obj :
  let '(obj', ok) := apply_api_key name value #"header" obj in
  ok = true ∧ url obj' = url obj ∧
  (∀ k, field (headers obj') k =
        if is_undef (field (headers obj) k) && streq name k then VStr value
        else field (headers obj) k).
Proof.
  unfold apply_api_key. cbn [streq]. change (streq #"header" #"query") with false.
  change (streq #"header" #"header") with true. cbv iota.
  destruct (is_undef (field (headers obj) name)) eqn:G; cbn [url headers set_headers].
  - split_and!; [done..|]. intros k. rewrite field_pset.
    destruct (streq name k) eqn:E; [str_eqs; subst; by rewrite G|]. by rewrite andb_false_r.
  - split_and!; [done..|]. intros k. destruct (streq name k) eqn:E; [str_eqs; subst; by rewrite G|].
    by rewrite andb_false_r.
Qed.

(** ** Basic authentication *)

(** Basic authentication sends the base64 encoding of
    [username:password], from which the server gets the two back byte by byte
    (characters beyond Latin-1 keep only their low byte). *)
Theorem password_header username password obj :
  field (headers obj) #"Authorization" = VUndef →
  Z.of_nat (length username) + Z.of_nat (length password) < 2147483647 →
  ∃ obj' token,
    apply_password username password obj = Ok (obj', true) ∧
    field (headers obj') #"Authorization" = VStr (#"Basic " ++ token) ∧
    b64ToByteArray token = Ok (map (λ c, c mod 256) (username ++ #":" ++ password)) ∧
    (∀ k, k ≠ #"Authorization" → field (headers obj') k = field (headers obj) k) ∧
    url obj' = url obj.
Proof.
  intros HA Hl. unfold apply_password. rewrite HA.
  rewrite btoa_spec; [|rewrite !length_app; change (length #":") with 1%nat; lia]. cbn [mbind res_bind].
  eexists _, _. split; [done|]. cbn [headers set_headers url].
  rewrite field_pset streq_refl. split; [done|].
  assert (asciiToBytes (username ++ #":" ++ password) = map (λ c, c mod 256) (username ++ #":" ++ password)) as Hb.
  { apply map_ext. intros c. apply jand_255. }
  split; [|split; [|done]].
  - rewrite decode_rfc4648 ?Hb //. apply Forall_forall. intros x Hx.
    apply list_elem_of_fmap in Hx as (c & -> & _). unfold is_byte. zdm.
  - intros k Hk. rewrite field_pset.
    by replace (streq _ k) with false by (symmetry; apply streq_neq; congruence).
Qed.

Lemma password_header_witness : ∃ obj' token,
    apply_password #"me" #"pw" {| url := #"http://h"; headers := []; cookieJar := None; clientAuthorizations := None |}
      = Ok (obj', true) ∧
    field (headers obj') #"Authorization" = VStr (#"Basic " ++ token) ∧
    b64ToByteArray token = Ok (map (λ c, c mod 256) (#"me" ++ #":" ++ #"pw")) ∧
    (∀ k, k ≠ #"Authorization" → field (headers obj') k = VUndef) ∧
    url obj' = #"http://h".
Proof.
  apply (password_header #"me" #"pw" {| url := #"http://h"; headers := []; cookieJar := None;
    clientAuthorizations := None |}); reflexivity.
Defined.

(** ** The chosen authorizations *)

Section apply_spec.
Context (date_parse : jstr → option Z) (now : Z).

Lemma apply_fold securities l obj status :
  fold_res (λ '(obj, status) '(authName, a),
      if negb (truthy securities) || existsb (streq authName) (flattenedSecurities securities)
      then '(obj', newStatus) ← auth_apply date_parse now a obj; Ok (obj', status && newStatus)
      else Ok (obj, status)) l (obj, status)
  = fold_res (λ '(obj, status) '(_, a),
      '(obj', newStatus) ← auth_apply date_parse now a obj; Ok (obj', status && newStatus))
      (List.filter (λ '(k, _), negb (truthy securities)
                      || existsb (streq k) (flattenedSecurities securities)) l) (obj, status).
Proof.
  revert obj status. induction l as [|[k a] l IH]; intros obj status; [done|].
  cbn [fold_res List.filter]. case_if; cbn [fold_res]; [|apply IH].
  destruct (auth_apply _ _ a obj) as [[obj' b]|e]; cbn [mbind res_bind]; [apply IH|done].
Qed.
End apply_spec.

Lemma selected_in t securities k a :
  (k, a) ∈ selected t securities ↔
  (k, a) ∈ t ∧ (truthy securities = false ∨ k ∈ flattenedSecurities securities).
Proof.
  unfold selected. rewrite list_elem_of_In filter_In -list_elem_of_In enum_perm.
  rewrite orb_true_iff negb_true_iff existsb_exists.
  assert ((∃ x, List.In x (flattenedSecurities securities) ∧ streq k x = true)
          ↔ k ∈ flattenedSecurities securities) as ->; [|done].
  setoid_rewrite <- list_elem_of_In. setoid_rewrite streq_spec. naive_solver.
Qed.

(** A security requirement written as a list of names selects nothing:
    lodash passes the positions of an array as numbers, so the test for a string
    key never holds and the request is left as it is, with a true status. *)
Theorem string_securities_ignored date_parse now t obj names :
  names ≠ [] → apply date_parse now t obj (VArr (map VStr names)) = Ok (obj, true).
Proof.
  intros Hne. unfold apply. rewrite apply_fold.
  assert (flattenedSecurities (VArr (map VStr names)) = []) as ->.
  { clear. cbn. by induction names. }
  cbn [truthy negb orb existsb].
  assert (∀ l : authz, List.filter (λ '(k, _), false) l = []) as ->; [|done].
  by induction l as [|[k a] l IH].
Qed.

Lemma string_securities_ignored_witness : apply (λ _, None) 0 [(#"k", ApiKeyAuthorization #"key" #"v" #"header")]
    {| url := #"http://h"; headers := []; cookieJar := None; clientAuthorizations := None |}
    (VArr (map VStr [ #"k"]))
  = Ok ({| url := #"http://h"; headers := []; cookieJar := None; clientAuthorizations := None |}, true).
Proof. apply (string_securities_ignored (λ _, None) 0). done. Defined.
