(* ===== verification/SpecConverter.v ===== *)
(** * Converting version 1 specifications

    [SwaggerSpecConverter]: turns a Swagger 1.x resource listing or API
    declaration into a 2.0 specification. The document under construction (the
    [swagger] object) and the table of model names are passed along; a read from
    [undefined] or a string method on another value throws. A resource listing
    leads to one request per API, whose responses arrive in any order: the last
    section is the state machine of the two response handlers. *)

From S2P Require Import Prelude Int32 JsValue Base64 BufferCore BufferText Buffer Cookie Auth.

Abbreviation obj := (list (jstr * value)).

(** ** Reading documents *)

(** What [for (k in v)] visits: strings have their positions. *)
Definition for_in (v : value) : list (jstr * value) :=
  match v with
  | VStr s => imap (λ i c, (str_of_Z (Z.of_nat i), VStr [c])) s
  | _ => entries v
  end.

(** [Object.keys(v).length] *)
Definition own_keys (v : value) : nat := length (for_in v).

(** The elements a loop up to [v.length] reads. *)
Definition array_items (v : value) : list value :=
  match v with VArr l => l | VStr s => map (λ c, VStr [c]) s | _ => [] end.

(** The properties of an object the converter itself built. *)
Definition as_obj (v : value) : obj := match v with VObj o => o | _ => [] end.

(** [if (src.k) dst.k' = src.k] *)
Definition carry (src : value) (k k' : jstr) (dst : obj) : res obj :=
  v ← get src k; Ok (if truthy v then pset k' v dst else dst).

(** ** Types *)

(** The size of a value, which bounds the recursion of [toJsonSchema]. *)
Fixpoint weight (v : value) : nat :=
  match v with
  | VStr s => S (length s)
  | VArr l => S (sum_list_with weight l)
  | VObj o => S (sum_list_with (λ p, weight p.2) o)
  | _ => 1%nat
  end.

Definition typed (t : jstr) : value := VObj [(#"type", VStr t)].
Definition formatted (t f : jstr) : value := VObj [(#"type", VStr t); (#"format", VStr f)].
Definition array_of (items : value) : value := VObj [(#"type", VStr #"array"); (#"items", items)].
Definition ref_to (r : value) : value := VObj [(#"$ref", r)].

(** One call of [toJsonSchema]; [rec] is its recursive call. *)
Definition schema_step (rec : value → res value) (modelMap : obj) (source : value) : res value :=
  if negb (truthy source) then Ok (VStr #"object") else
  t ← get source #"type"; d ← get source #"dataType"; r ← get source #"responseClass";
  detectedType ← as_str (or_else t (or_else d (or_else r (VStr []))));
  let lcType := to_lower detectedType in
  f ← get source #"format";
  format ← as_str (or_else f (VStr []));
  let format := to_lower format in
  items ← get source #"items";
  ref ← get source #"$ref";
  if starts_with #"list[" lcType then
    j ← rec (typed (substring 5 (Z.of_nat (length detectedType) - 1) detectedType));
    Ok (array_of j)
  else if streq lcType #"int" || (streq lcType #"integer" && streq format #"int32")
  then Ok (formatted #"integer" #"int32")
  else if streq lcType #"long" || (streq lcType #"integer" && streq format #"int64")
  then Ok (formatted #"integer" #"int64")
  else if streq lcType #"integer" then Ok (formatted #"integer" #"int64")
  else if streq lcType #"float" || (streq lcType #"number" && streq format #"float")
  then Ok (formatted #"number" #"float")
  else if streq lcType #"double" || (streq lcType #"number" && streq format #"double")
  then Ok (formatted #"number" #"double")
  else if (streq lcType #"string" && streq format #"date-time") || streq lcType #"date"
  then Ok (formatted #"string" #"date-time")
  else if streq lcType #"string" then Ok (typed #"string")
  else if streq lcType #"file" then Ok (typed #"file")
  else if streq lcType #"boolean" then Ok (typed #"boolean")
  else if streq lcType #"array" || streq lcType #"list" then
    if truthy items then it ← rec items; Ok (array_of it)
    else Ok (array_of (typed #"object"))
  else if truthy ref then
    let m := field modelMap (to_string ref) in
    Ok (ref_to (if truthy m then VStr (#"#/definitions/" ++ to_string m) else ref))
  else if streq lcType #"void" || streq lcType [] then Ok (VObj [])
  else
    let m := field modelMap (to_string t) in
    if truthy m then Ok (ref_to (VStr (#"#/definitions/" ++ to_string m)))
    else Ok (VObj [(#"type", t)]).

(** The call stack is bounded; [toJsonSchema_eq] shows that a depth of the size
    of the source is never exceeded. *)
Fixpoint schema_go (n : nat) (modelMap : obj) (source : value) : res value :=
  match n with
  | O => stack_overflow
  | S n => schema_step (schema_go n modelMap) modelMap source
  end.

Definition toJsonSchema (modelMap : obj) (source : value) : res value :=
  schema_go (weight source) modelMap source.

(** [dataType(source, target)]: the new target. *)
Definition dataType (modelMap : obj) (source : value) (target : obj) : res obj :=
  if negb (is_object source) then Ok target else
  target ← carry source #"minimum" #"minimum" target;
  target ← carry source #"maximum" #"maximum" target;
  target ← carry source #"format" #"format" target;
  d ← get source #"defaultValue";
  let target := if is_undef d then target else pset #"default" d target in
  jsonSchemaType ← toJsonSchema modelMap source;
  if truthy jsonSchemaType then
    target ← carry jsonSchemaType #"type" #"type" target;
    target ← carry jsonSchemaType #"format" #"format" target;
    r ← get jsonSchemaType #"$ref";
    let target := if truthy r then pset #"schema" (ref_to r) target else target in
    carry jsonSchemaType #"items" #"items" target
  else Ok target.

(** ** Models *)

Definition convert_property (modelMap : obj) (acc : obj * list value) (p : jstr * value)
    : res (obj * list value) :=
  let '(properties, required) := acc in
  let '(propertyName, existingProperty) := p in
  property ← dataType modelMap existingProperty [];
  property ← carry existingProperty #"description" #"description" property;
  property ← carry existingProperty #"enum" #"enum" property;
  r ← get existingProperty #"required";
  let required := if is_bool true r || is_str #"true" r
                  then required ++ [VStr propertyName] else required in
  Ok (pset propertyName (VObj property) properties, required).

Definition convert_model (modelMap : obj) (existingModel : value) : res obj :=
  ps ← get existingModel #"properties";
  '(properties, required) ← fold_res (convert_property modelMap) (for_in ps) ([], []);
  r ← get existingModel #"required";
  Ok (pset #"required" (match required with [] => r | _ => VArr required end)
        [(#"properties", VObj properties)]).

Definition models (modelMap : obj) (o : value) (swagger : obj) : res obj :=
  if negb (is_object o) then Ok swagger else
  definitions ← fold_res (λ defs '(name, existingModel),
      schema ← convert_model modelMap existingModel; Ok (pset name (VObj schema) defs))
    (for_in o) (as_obj (field swagger #"definitions"));
  Ok (pset #"definitions" (VObj definitions) swagger).

(** ** Operations *)

Definition last_segment (s : jstr) : jstr := default [] (last (split #"/" s)).

Definition extractTag (resourcePath : value) : res jstr :=
  pathString ← as_str (or_else resourcePath (VStr #"default"));
  let pathString := if starts_with #"http:" pathString || starts_with #"https:" pathString
                    then last_segment pathString else pathString in
  let pathString := if ends_with #".json" pathString
                    then substring 0 (Z.of_nat (length pathString) - 5) pathString else pathString in
  Ok (replace_first #"/" [] pathString).

Definition convert_parameter (modelMap : obj) (existingParameter : value) : res value :=
  name ← get existingParameter #"name";
  description ← get existingParameter #"description";
  required ← get existingParameter #"required";
  in_ ← get existingParameter #"paramType";
  let parameter :=
    [(#"name", if is_str #"body" in_ then VStr #"body" else name);
     (#"description", description); (#"required", required);
     (#"in", if is_str #"form" in_ then VStr #"formData" else in_)] in
  parameter ← carry existingParameter #"enum" #"enum" parameter;
  multiple ← get existingParameter #"allowMultiple";
  parameter ←
    (if is_bool true multiple || is_str #"true" multiple then
      innerType ← dataType modelMap existingParameter [];
      let parameter := pset #"items" (VObj innerType) (pset #"type" (VStr #"array") parameter) in
      av ← get existingParameter #"allowableValues";
      if truthy av then
        valueType ← get av #"valueType";
        values ← get av #"values";
        Ok (if is_str #"LIST" valueType then pset #"enum" values parameter else parameter)
      else Ok parameter
    else dataType modelMap existingParameter parameter);
  d ← get existingParameter #"defaultValue";
  Ok (VObj (if is_undef d then parameter else pset #"default" d parameter)).

Definition convert_parameters (modelMap : obj) (operation : obj) (o : value) : res obj :=
  match o with
  | VArr l =>
      fold_res (λ operation existingParameter,
          parameter ← convert_parameter modelMap existingParameter;
          Ok (pset #"parameters" (VArr (array_items (field operation #"parameters") ++ [parameter]))
                operation))
        l operation
  | _ => Ok operation
  end.

Definition response_entry (acc : obj * bool) (existingResponse : value) : res (obj * bool) :=
  let '(responses, has200) := acc in
  message ← get existingResponse #"message";
  code ← get existingResponse #"code";
  model ← get existingResponse #"responseModel";
  let response := [(#"description", message)] in
  let response := if truthy model
                  then pset #"schema" (ref_to (VStr (#"#/definitions/" ++ to_string model))) response
                  else response in
  Ok (pset (to_string code) (VObj response) responses, has200 || strict_eq code (VNum 200)).

Definition responseMessages (modelMap : obj) (operation : obj) (existingOperation : value) : res obj :=
  if negb (is_object existingOperation) then Ok operation else
  d ← dataType modelMap existingOperation [];
  let defaultResponse := if negb (truthy (field d #"schema")) && truthy (field d #"type")
                         then [(#"schema", VObj d)] else d in
  messages ← get existingOperation #"responseMessages";
  '(responses, has200) ←
    fold_res response_entry (match messages with VArr l => l | _ => [] end)
      (as_obj (field operation #"responses"), false);
  Ok (pset #"responses"
        (VObj (pset (if has200 then #"default" else #"200") (VObj defaultResponse) responses))
        operation).

(** The security requirements: one object per authorization. *)
Definition convert_security (auths : value) (operation : obj) : res obj :=
  fold_res (λ operation '(key, scopes),
      names ← (if truthy scopes then map_res (λ '(_, s), get s #"scope") (for_in scopes) else Ok []);
      Ok (pset #"security" (VArr (array_items (field operation #"security") ++ [VObj [(key, VArr names)]]))
            operation))
    (for_in auths) operation.

(** [existing.k], or the default of the document. *)
Definition own_or_global (existing : value) (swagger : obj) (k : jstr) (operation : obj) : res obj :=
  v ← get existing k;
  Ok (if truthy v then pset k v operation
      else if truthy (field swagger k) then pset k (field swagger k) operation else operation).

Definition convert_operation (modelMap : obj) (resourceLevelAuth : value) (swagger : obj) (tag : jstr)
    (existingOperation : value) : res (jstr * obj) :=
  m ← get existingOperation #"method"; hm ← get existingOperation #"httpMethod";
  method ← as_str (or_else m hm);
  auths ← get existingOperation #"authorizations";
  let auths := if truthy auths && (own_keys auths =? 0)%nat then resourceLevelAuth else auths in
  let operation := [(#"tags", VArr [VStr tag])] in
  operation ← (if is_undef auths then Ok operation else convert_security auths operation);
  operation ← own_or_global existingOperation swagger #"consumes" operation;
  operation ← own_or_global existingOperation swagger #"produces" operation;
  operation ← carry existingOperation #"summary" #"summary" operation;
  operation ← carry existingOperation #"notes" #"description" operation;
  operation ← carry existingOperation #"nickname" #"operationId" operation;
  operation ← carry existingOperation #"deprecated" #"deprecated" operation;
  ps ← get existingOperation #"parameters";
  operation ← convert_parameters modelMap operation ps;
  operation ← responseMessages modelMap operation existingOperation;
  Ok (to_lower method, operation).

(** The tag list with [tag] in it. *)
Definition add_tag (tag : jstr) (tags : list value) : res (list value) :=
  names ← map_res (λ t, get t #"name") tags;
  Ok (if existsb (λ n, strict_eq n (VStr tag)) names then tags
      else tags ++ [VObj [(#"name", VStr tag)]]).

Definition operations (modelMap : obj) (path resourcePath o resourceLevelAuth : value) (swagger : obj)
    : res obj :=
  match o with
  | VArr l =>
      let paths := as_obj (field swagger #"paths") in
      let pathObj := as_obj (field paths (to_string path)) in
      tag ← extractTag resourcePath;
      tags ← add_tag tag (array_items (field swagger #"tags"));
      let swagger := pset #"tags" (VArr tags) (pset #"paths" (VObj paths) swagger) in
      pathObj ← fold_res (λ pathObj existingOperation,
          '(method, operation) ← convert_operation modelMap resourceLevelAuth swagger tag existingOperation;
          Ok (pset method (VObj operation) pathObj))
        l pathObj;
      Ok (pset #"paths" (VObj (pset (to_string path) (VObj pathObj) paths)) swagger)
  | _ => Ok swagger
  end.

(** ** Declarations *)

(** The host and base path of [scheme://host/path]. *)
Definition set_host (p : jstr) (swagger : obj) : obj :=
  let pos := index_of #"/" p in
  if 0 <? pos
  then pset #"basePath" (VStr (substring_from pos p)) (pset #"host" (VStr (substring 0 pos p)) swagger)
  else pset #"basePath" (VStr #"/") (pset #"host" (VStr p) swagger).

Definition set_base (basePath : jstr) (swagger : obj) : obj :=
  if starts_with #"http://" basePath then set_host (substring_from 7 basePath) swagger
  else if starts_with #"https://" basePath then set_host (substring_from 8 basePath) swagger
  else pset #"basePath" (VStr basePath) swagger.

(** The identifiers of the models of a declaration. *)
Definition map_models (ms : value) (modelMap : obj) : res obj :=
  fold_res (λ mm '(name, existingModel),
      id ← get existingModel #"id";
      Ok (pset (to_string (or_else id (VStr name))) (VStr name) mm))
    (for_in ms) modelMap.

Definition declare_api (modelMap : obj) (o : value) (resourceLevelAuth : value) (swagger : obj) (api : value)
    : res obj :=
  path ← get api #"path";
  ops ← get api #"operations";
  resourcePath ← get o #"resourcePath";
  operations modelMap path resourcePath ops resourceLevelAuth swagger.

(** [declaration(obj, swagger)] on the converter's table of models. *)
Definition declaration (o : value) (swagger modelMap : obj) : res (obj * obj) :=
  apis ← get o #"apis";
  if negb (truthy apis) then Ok (swagger, modelMap) else
  b ← get o #"basePath";
  basePath ← as_str b;
  let swagger := set_base basePath swagger in
  auths ← get o #"authorizations";
  let resourceLevelAuth := if truthy auths then auths else VUndef in
  swagger ← carry o #"consumes" #"consumes" swagger;
  swagger ← carry o #"produces" #"produces" swagger;
  ms ← get o #"models";
  modelMap ← (if is_object o then map_models ms modelMap else Ok modelMap);
  swagger ← fold_res (declare_api modelMap o resourceLevelAuth) (array_items apis) swagger;
  swagger ← models modelMap (or_else ms (VObj [])) swagger;
  Ok (swagger, modelMap).

(** ** The rest of a listing *)

(** [apiInfo]: the new document and the warnings added. *)
Definition apiInfo (o : value) (swagger : obj) : res (obj * list jstr) :=
  info ← get o #"info";
  if truthy info then
    c ← get info #"contact";
    let i := if truthy c then [(#"contact", VObj [(#"email", c)])] else [] in
    i ← carry info #"description" #"description" i;
    i ← carry info #"title" #"title" i;
    i ← carry info #"termsOfServiceUrl" #"termsOfService" i;
    l ← get info #"license"; lu ← get info #"licenseUrl";
    let swagger := pset #"info" (VObj i) swagger in
    if truthy l || truthy lu then
      let lic := if truthy l then [(#"name", l)] else [] in
      Ok (pset #"license" (VObj (if truthy lu then lic ++ [(#"url", lu)] else lic)) swagger, [])
    else Ok (swagger, [])
  else Ok (swagger, [ #"missing info section"]).

(** [i > 0] for a key of a list of scopes. *)
Definition key_positive (i : option jstr) : bool :=
  match i with
  | Some k => match canonical_index k with Some n => 0 <? n | None => false end
  | None => false
  end.

Definition convert_scopes (i : option jstr) (existingScopes : value) : res (obj * option jstr) :=
  fold_res (λ '(scopes, _) '(k, scope),
      s ← get scope #"scope"; d ← get scope #"description";
      Ok (pset (to_string s) d scopes, Some k))
    (for_in existingScopes) ([], i).

(** One grant type of the two the converter knows; the second is used only when
    no flow is set. *)
Definition convert_grants (definition : value) (sd : obj) : res (obj * bool) :=
  g ← get definition #"grantTypes";
  if negb (truthy g) then Ok (sd, false) else
  implicit ← get g #"implicit";
  '(sd, valid) ←
    (if truthy implicit then
      u ← get implicit #"loginEndpoint";
      Ok (pset #"authorizationUrl" u (pset #"flow" (VStr #"implicit") sd), true)
     else Ok (sd, false));
  authCode ← get g #"authorization_code";
  if truthy authCode && negb (truthy (field sd #"flow")) then
    tr ← get authCode #"tokenRequestEndpoint"; u ← get tr #"url";
    te ← get authCode #"tokenEndpoint"; u' ← get te #"url";
    Ok (pset #"tokenUrl" u' (pset #"authorizationUrl" u (pset #"flow" (VStr #"accessCode") sd)), true)
  else Ok (sd, valid).

(** One authorization; [i] is the loop variable over the scopes, which the
    function declares once. *)
Definition convert_definition (name : jstr) (definition : value) (i : option jstr)
    : res (obj * bool * option jstr) :=
  t ← get definition #"type";
  let sd := [(#"vendorExtensions", VObj [])] in
  if is_str #"apiKey" t then
    p ← get definition #"passAs"; k ← get definition #"keyname";
    Ok (sd ++ [(#"type", VStr #"apiKey"); (#"in", p); (#"name", or_else k (VStr name))], true, i)
  else if is_str #"basicAuth" t then Ok (sd ++ [(#"type", VStr #"basicAuth")], true, i)
  else if is_str #"oauth2" t then
    s ← get definition #"scopes";
    '(scopes, i) ← convert_scopes i (or_else s (VArr []));
    let sd := sd ++ [(#"type", VStr #"oauth2")] in
    let sd := if key_positive i then sd ++ [(#"scopes", VObj scopes)] else sd in
    '(sd, valid) ← convert_grants definition sd;
    Ok (sd, valid, i)
  else Ok (sd, false, i).

Definition securityDefinitions (o : value) (swagger : obj) : res obj :=
  auths ← get o #"authorizations";
  if negb (truthy auths) then Ok swagger else
  '(swagger, _) ← fold_res (λ '(swagger, i) '(name, definition),
      '(sd, isValid, i) ← convert_definition name definition i;
      Ok (if isValid
          then pset #"securityDefinitions"
                 (VObj (pset name (VObj sd) (as_obj (field swagger #"securityDefinitions")))) swagger
          else swagger, i))
    (for_in auths) (swagger, None);
  Ok swagger.

(** [s.lastIndexOf('/')], or -1. *)
Definition last_slash (s : jstr) : Z := Z.of_nat (length s) - 1 - Z.of_nat (length (last_segment s)).

Definition getAbsolutePath (version docLocation : value) (path : jstr) : res jstr :=
  docLocation ←
    (if is_str #"1.0" version then
      d ← as_str docLocation;
      Ok (VStr (if ends_with #".json" d && (0 <? last_slash d) then substring 0 (last_slash d) d else d))
     else Ok docLocation);
  location ←
    (if starts_with #"http:" path || starts_with #"https:" path then Ok path
     else d ← as_str docLocation;
          Ok ((if ends_with #"/" d then substring 0 (Z.of_nat (length d) - 1) d else d) ++ path));
  Ok (replace_first #"{format}" #"json" location).

Section convert.
Context (date_parse : jstr → option Z) (now : Z).

(** One turn of the loop of [resourceListing]: the tag and the request. *)
Definition list_api (version docLocation accept : value) (t : option authz)
    (acc : obj * list request) (api : value) : res (obj * list request) :=
  let '(swagger, requests) := acc in
  p ← get api #"path";
  path ← as_str p;
  absolutePath ← getAbsolutePath version docLocation path;
  d ← get api #"description";
  swagger ← (if truthy d then
      tag ← extractTag p;
      Ok (pset #"tags" (VArr (array_items (field swagger #"tags")
                              ++ [VObj [(#"name", VStr tag); (#"description", d)]])) swagger)
    else Ok swagger);
  let http := {| url := absolutePath; headers := [(#"accept", accept)]; cookieJar := None;
                 clientAuthorizations := None |} in
  '(http, _) ← (match t with Some t => apply date_parse now t http VUndef | None => Ok (http, true) end);
  Ok (swagger, requests ++ [http]).

Definition resourceListing (o : value) (swagger : obj) (docLocation opts : value) (t : option authz)
    : res (obj * list request) :=
  apis ← get o #"apis";
  version ← get o #"swaggerVersion";
  accept ← (if truthy opts then get opts #"swaggerRequestHeaders" else Ok VUndef);
  let accept := or_else accept (VStr #"application/json") in
  fold_res (λ acc api, _ ← get opts #"timeout"; list_api version docLocation accept t acc api)
    (array_items apis) (swagger, []).

(** What [convert] does: hand a document (or nothing) to the callback, or send
    the requests of a listing. *)
Inductive outcome :=
  | Finished (swagger : option obj)
  | Fetching (swagger : obj) (requests : list request).

Definition is_single_file (apis : list value) : res bool :=
  fold_res (λ b api, ops ← get api #"operations"; Ok (b || is_array ops)) apis false.

(** [convert] on a new converter: the outcome, the table of models and the
    warnings. *)
Definition convert (docLocation0 : value) (o : value) (t : option authz) (opts : value)
    : res (outcome * obj * list jstr) :=
  if negb (truthy o) then Ok (Finished None, [], []) else
  apis ← get o #"apis";
  match apis with
  | VArr l =>
      version ← get o #"swaggerVersion";
      let swagger := [(#"swagger", VStr #"2.0"); (#"originalVersion", version)] in
      '(swagger, warnings) ← apiInfo o swagger;
      swagger ← securityDefinitions o swagger;
      b ← get o #"basePath";
      let docLocation := if truthy b then b else docLocation0 in
      single ← is_single_file l;
      if single then
        '(swagger, modelMap) ← declaration o swagger [];
        Ok (Finished (Some swagger), modelMap, warnings)
      else
        '(swagger, requests) ← resourceListing o swagger docLocation opts t;
        match l with
        | [] => Ok (Finished (Some swagger), [], warnings)
        | _ => Ok (Fetching swagger requests, [], warnings)
        end
  | _ => Ok (Finished None, [], [])
  end.
End convert.

(** ** The responses of a listing *)

(** The variables the response handlers share; [calls] holds the documents the
    callback was given. *)
Record listing := {
  expectedCount : nat;
  processedCount : nat;
  l_swagger : obj;
  l_models : obj;
  calls : list obj;
}.

Inductive event :=
  | Response (data : value)
  | Failure.

(** What the success handler does with the object of a response. *)
Definition receive (data : value) (swagger modelMap : obj) : res (obj * obj) :=
  if truthy data then declaration data swagger modelMap else Ok (swagger, modelMap).

(** The end of both handlers. *)
Definition deliver (s : listing) (swagger modelMap : obj) : listing :=
  {| expectedCount := expectedCount s; processedCount := S (processedCount s);
     l_swagger := swagger; l_models := modelMap;
     calls := if (S (processedCount s) =? expectedCount s)%nat then calls s ++ [swagger] else calls s |}.

(** One response or error. When [declaration] throws, the response has been
    counted, the document has been changed in part, and the rest of the handler
    does not run. *)
Inductive step (s : listing) : event → listing → Prop :=
  | step_response data swagger modelMap :
      receive data (l_swagger s) (l_models s) = Ok (swagger, modelMap) →
      step s (Response data) (deliver s swagger modelMap)
  | step_throw data e swagger modelMap :
      receive data (l_swagger s) (l_models s) = Throw e →
      step s (Response data)
        {| expectedCount := expectedCount s; processedCount := S (processedCount s);
           l_swagger := swagger; l_models := modelMap; calls := calls s |}
  | step_failure : step s Failure (deliver s (l_swagger s) (l_models s)).

Inductive run (s : listing) : list event → listing → Prop :=
  | run_nil : run s [] s
  | run_snoc es s1 ev s2 : run s es s1 → step s1 ev s2 → run s (es ++ [ev]) s2.

(** The handlers as [resourceListing] leaves them. *)
Definition start (n : nat) (swagger : obj) : listing :=
  {| expectedCount := n; processedCount := 0; l_swagger := swagger; l_models := []; calls := [] |}.

(** ** Types *)

Lemma field_weight o k : (weight (field o k) < weight (VObj o))%nat ∨ field o k = VUndef.
Proof.
  unfold field. destruct (pget o k) as [v|] eqn:E; cbn [default weight]; [left|by right].
  apply pget_some_in in E. apply list_elem_of_split in E as (a & b & ->).
  rewrite sum_list_with_app. cbn. lia.
Qed.

(** A property read with success is smaller than what it was read from. *)
Lemma get_weight v k x :
  get v k = Ok x → is_undef x = false → k ≠ #"length" → canonical_index k = None →
  (weight x < weight v)%nat.
Proof.
  intros H Hx Hk Hc. destruct v as [| | | | | |l|o]; cbn [get] in H; try done;
    rewrite ?(proj2 (streq_neq k _) Hk) ?Hc in H; try by injection H as <-.
  injection H as <-. destruct (field_weight o k) as [?|E]; [done|].
  change (field o k) with (default VUndef (pget o k)) in E. by rewrite E in Hx.
Qed.

Lemma weight_pos v : (1 <= weight v)%nat.
Proof. destruct v; cbn; lia. Qed.

Lemma weight_typed t : weight (typed t) = (2 + length t)%nat.
Proof. cbn. lia. Qed.

Lemma truthy_or_else a b : truthy (or_else a b) = truthy a || truthy b.
Proof. unfold or_else. by destruct (truthy a) eqn:E. Qed.

(** The text of a type is a property of the source. *)
Lemma detected_weight source t d r ty :
  get source #"type" = Ok t → get source #"dataType" = Ok d → get source #"responseClass" = Ok r →
  as_str (or_else t (or_else d (or_else r (VStr [])))) = Ok ty → ty ≠ [] →
  (S (length ty) < weight source)%nat.
Proof.
  intros Ht Hd Hr H Hne. unfold or_else in H.
  assert (∀ k x, get source k = Ok x → as_str x = Ok ty → k ≠ #"length" → canonical_index k = None →
    (S (length ty) < weight source)%nat) as Hw.
  { intros k x Hk Hx Hl Hc. destruct x; try done. injection Hx as ->.
    apply (get_weight source k (VStr ty)); done. }
  destruct (truthy t); [by apply (Hw #"type" t)|]. destruct (truthy d); [by apply (Hw #"dataType" d)|].
  destruct (truthy r); [by apply (Hw #"responseClass" r)|]. injection H as <-. done.
Qed.

(** The element type of a list is a smaller source. *)
Lemma list_inner_weight source t d r ty :
  get source #"type" = Ok t → get source #"dataType" = Ok d → get source #"responseClass" = Ok r →
  as_str (or_else t (or_else d (or_else r (VStr [])))) = Ok ty →
  starts_with #"list[" (to_lower ty) = true →
  (weight (typed (substring 5 (Z.of_nat (length ty) - 1) ty)) < weight source)%nat.
Proof.
  intros Ht Hd Hr Hty L. rewrite weight_typed.
  rewrite starts_with_prefixb in L. apply prefixb_spec in L as [u Hu].
  apply (f_equal length) in Hu. unfold to_lower in Hu. rewrite length_map length_app in Hu.
  change (length #"list[") with 5%nat in Hu.
  assert (ty ≠ []) as Hne by (intros ->; done).
  pose proof (detected_weight _ _ _ _ _ Ht Hd Hr Hty Hne).
  unfold substring. rewrite length_drop length_take. lia.
Qed.

(** The recursive calls are on smaller sources. *)
Lemma schema_step_ext f g mm source :
  (∀ v, (weight v < weight source)%nat → f v = g v) → schema_step f mm source = schema_step g mm source.
Proof.
  intros Hfg. unfold schema_step. destruct (truthy source); cbn [negb]; [|done].
  destruct (get source #"type") as [t|] eqn:Et; cbn [mbind res_bind]; [|done].
  destruct (get source #"dataType") as [d|] eqn:Ed; cbn [mbind res_bind]; [|done].
  destruct (get source #"responseClass") as [r|] eqn:Er; cbn [mbind res_bind]; [|done].
  destruct (as_str _) as [ty|] eqn:Ety; cbn [mbind res_bind]; [|done].
  destruct (get source #"format") as [fm|]; cbn [mbind res_bind]; [|done].
  destruct (as_str (or_else fm _)) as [fmt|]; cbn [mbind res_bind]; [|done].
  destruct (get source #"items") as [it|] eqn:Eit; cbn [mbind res_bind]; [|done].
  destruct (get source #"$ref"); cbn [mbind res_bind]; [|done].
  destruct (starts_with _ _) eqn:L.
  { rewrite Hfg //. exact (list_inner_weight _ _ _ _ _ Et Ed Er Ety L). }
  repeat (case_if; [done|]). case_if; [|done]. case_if; [|done].
  rewrite Hfg //. eapply get_weight; [done|by destruct it|done|done].
Qed.

Lemma schema_go_fuel n : ∀ m mm source,
  (weight source <= n)%nat → (weight source <= m)%nat → schema_go n mm source = schema_go m mm source.
Proof.
  induction n as [|n IH]; intros [|m] mm source Hn Hm; pose proof (weight_pos source); try lia.
  cbn [schema_go]. apply schema_step_ext. intros v Hv. apply IH; lia.
Qed.

(** The bound on the recursion is never reached: [toJsonSchema] satisfies the
    equation of the code. *)
Lemma toJsonSchema_eq mm source :
  toJsonSchema mm source = schema_step (toJsonSchema mm) mm source.
Proof.
  unfold toJsonSchema at 1. pose proof (weight_pos source).
  destruct (weight source) as [|n] eqn:E; [lia|]. cbn [schema_go].
  apply schema_step_ext. intros v Hv. apply schema_go_fuel; lia.
Qed.

(** Sources as the 1.x formats allow them: the type and the format are text or
    left out, and so on for the items. *)
Definition text_or_none (v : value) : Prop := truthy v = false ∨ is_string v = true.

Inductive source_ok : value → Prop :=
  | source_none v : truthy v = false → source_ok v
  | source_obj o :
      text_or_none (field o #"type") → text_or_none (field o #"dataType") →
      text_or_none (field o #"responseClass") → text_or_none (field o #"format") →
      source_ok (field o #"items") → source_ok (VObj o).

Lemma as_str_text v : text_or_none v → ∃ s, as_str (or_else v (VStr [])) = Ok s.
Proof.
  unfold or_else. intros [H|H]; [rewrite H; cbn; eauto|]. destruct v; try done.
  destruct (truthy _); cbn; eauto.
Qed.

Lemma as_str_or v w :
  text_or_none v → (∃ s, as_str w = Ok s) → ∃ s, as_str (or_else v w) = Ok s.
Proof.
  unfold or_else. intros [H|H] Hw; [by rewrite H|]. destruct v; try done.
  destruct (truthy _); cbn; eauto.
Qed.

Lemma source_typed t : source_ok (typed t).
Proof.
  apply source_obj; [by right|by left..|by apply source_none].
Qed.

Lemma schema_step_ok rec mm source :
  source_ok source → (∀ v, (weight v < weight source)%nat → source_ok v → ∃ j, rec v = Ok j) →
  ∃ j, schema_step rec mm source = Ok j.
Proof.
  intros Hs Hrec. unfold schema_step. destruct (truthy source) eqn:T; cbn [negb]; [|eauto].
  inversion Hs as [v Hv|o Ht Hd Hr Hf Hi]; subst; [congruence|]. rewrite !get_obj. cbn [mbind res_bind].
  edestruct (as_str_or (field o #"type")) as [ty Ety]; [done|apply as_str_or; [exact Hd|apply (as_str_text _ Hr)]|].
  rewrite Ety. cbn [mbind res_bind]. destruct (as_str_text _ Hf) as [fm ->]. cbn [mbind res_bind].
  destruct (starts_with _ _) eqn:L.
  { edestruct Hrec as [j ->]; [|apply source_typed|cbn; eauto].
    exact (list_inner_weight (VObj o) _ _ _ _ eq_refl eq_refl eq_refl Ety L). }
  repeat (case_if; [by eauto|]). case_if; [|repeat case_if; eauto]. case_if; [|eauto].
  destruct (Hrec (field o #"items")) as [j ->]; [|done|cbn; eauto].
  eapply (get_weight (VObj o)); [apply get_obj|by destruct (field o #"items")|done|done].
Qed.

(** [List[List[...T...]]], [k] deep. *)
Fixpoint nest (k : nat) (t : jstr) : jstr :=
  match k with O => t | S k => #"List[" ++ nest k t ++ #"]" end.

Lemma toJsonSchema_list mm t :
  toJsonSchema mm (typed (#"List[" ++ t ++ #"]")) = array_of <$> toJsonSchema mm (typed t).
Proof.
  rewrite toJsonSchema_eq. set (ty := #"List[" ++ t ++ #"]").
  unfold schema_step. cbn [truthy typed negb]. rewrite !get_obj. cbn [mbind res_bind].
  change (field [(#"type", VStr ty)] #"type") with (VStr ty).
  assert (∀ w, or_else (VStr ty) w = VStr ty) as -> by done. cbn [as_str mbind res_bind].
  change (as_str (or_else (field [(#"type", VStr ty)] #"format") (VStr []))) with (Ok (A := jstr) []).
  cbn [mbind res_bind].
  assert (starts_with #"list[" (to_lower ty) = true) as ->.
  { rewrite starts_with_prefixb. unfold ty, to_lower. rewrite map_app.
    change (map lower_unit #"List[") with #"list[". apply prefixb_app. }
  assert (substring 5 (Z.of_nat (length ty) - 1) ty = t) as ->.
  { unfold substring, ty. rewrite !length_app. change (length #"List[") with 5%nat.
    change (length #"]") with 1%nat. rewrite Z.min_l; [|lia]. rewrite Z.max_r; [|lia].
    replace (Z.to_nat (Z.of_nat _ - 1)) with (5 + length t)%nat by lia.
    change #"List[" with [76; 105; 115; 116; 91]. cbn [app plus take]. change (Z.to_nat 5) with 5%nat.
    cbn [drop]. by rewrite take_app_length. }
  by destruct (toJsonSchema mm (typed t)).
Qed.

(** The conversion of a 1.x type to a JSON schema ends without an
    exception on every source whose type and format are text, however deep its
    lists are nested; and a type [List[T]] gives an array of the schema of [T],
    at any depth. *)
Theorem toJsonSchema_total mm source k t :
  source_ok source →
  (∃ j, toJsonSchema mm source = Ok j) ∧
  toJsonSchema mm (typed (nest k t)) = Nat.iter k (fmap array_of) (toJsonSchema mm (typed t)).
Proof.
  intros Hs. split.
  - remember (weight source) as n eqn:Hn. revert source Hn Hs.
    induction (lt_wf n) as [n _ IH]. intros source -> Hs. rewrite toJsonSchema_eq.
    apply schema_step_ok; [done|]. intros v Hv Hok. by eapply IH.
  - induction k as [|k IH]; [done|]. cbn [nest]. by rewrite toJsonSchema_list IH.
Qed.

Lemma toJsonSchema_total_witness :
  (∃ j, toJsonSchema [] (typed #"Array") = Ok j) ∧
  toJsonSchema [] (typed (nest 2 #"int")) = Ok (array_of (array_of (formatted #"integer" #"int32"))).
Proof.
  destruct (toJsonSchema_total [] (typed #"Array") 2 #"int") as [H1 H2]; [apply source_typed|].
  split; [exact H1|]. rewrite H2. reflexivity.
Defined.

(** A type given as [dataType] or [responseClass] that names a model is lost:
    the table is asked for the property [type], which is not there. *)
Theorem dataType_model_lost :
  toJsonSchema [(#"Pet", VStr #"Pet")] (VObj [(#"dataType", VStr #"Pet")])
  = Ok (VObj [(#"type", VUndef)]).
Proof. reflexivity. Qed.

(** ** The responses of a listing *)

(** The documents of the responses, taken in one after the other. *)
Definition process (swagger : obj) (es : list event) : res (obj * obj) :=
  fold_res (λ '(swagger, modelMap) ev,
      match ev with
      | Response data => receive data swagger modelMap
      | Failure => Ok (swagger, modelMap)
      end) es (swagger, []).

Lemma process_snoc swagger es ev :
  process swagger (es ++ [ev])
  = '(swagger, modelMap) ← process swagger es;
    match ev with
    | Response data => receive data swagger modelMap
    | Failure => Ok (swagger, modelMap)
    end.
Proof.
  unfold process. rewrite fold_res_app. destruct (fold_res _ es _) as [[sw mm]|]; [|done].
  cbn. destruct ev; [|done]. by destruct (receive data sw mm).
Qed.

(** Before the last response the callback is not called. *)
Lemma run_counts n swagger es s :
  run (start n swagger) es s →
  expectedCount s = n ∧ processedCount s = length es ∧ ((length es < n)%nat → calls s = []).
Proof.
  induction 1 as [|es s1 ev s2 _ (He & Hp & Hc) Hstep]; [done|].
  rewrite length_app. cbn [length].
  assert (expectedCount s2 = n ∧ processedCount s2 = (length es + 1)%nat ∧
    (calls s2 = calls s1 ∨ (S (processedCount s1) = expectedCount s1))) as (He' & Hp' & Hc').
  { inversion Hstep; subst; cbn [deliver expectedCount processedCount calls]; split_and!; try lia; try by left.
    all: destruct (Nat.eqb_spec (S (processedCount s1)) (expectedCount s1)); [by right|by left]. }
  split_and!; [done|done|]. intros Hlt. destruct Hc' as [->|Hc']; [apply Hc; lia|lia].
Qed.

Lemma run_process n swagger es s : ∀ sw mm,
  run (start n swagger) es s → process swagger es = Ok (sw, mm) →
  l_swagger s = sw ∧ l_models s = mm ∧
  ((0 < n)%nat → length es = n → calls s = [sw]).
Proof.
  intros sw mm Hrun. revert sw mm.
  induction Hrun as [|es s1 ev s2 Hrun IH Hstep]; intros sw mm H.
  { injection H as <- <-. split_and!; [done|done|]. cbn. lia. }
  rewrite process_snoc in H. apply bind_Ok in H as ([sw1 mm1] & H1 & H).
  destruct (IH _ _ H1) as (<- & <- & _). apply run_counts in Hrun as (He & Hp & Hc).
  assert (s2 = deliver s1 sw mm) as ->.
  { inversion Hstep; subst; [congruence|congruence|]. by injection H as <- <-. }
  split_and!; [done|done|]. rewrite length_app. cbn [length deliver calls]. intros Hn Hl.
  rewrite Hp He. replace (S (length es) =? n)%nat with true by (symmetry; apply Nat.eqb_eq; lia).
  rewrite Hc; [done|lia].
Qed.

Lemma process_runs n swagger es : ∀ sw mm,
  process swagger es = Ok (sw, mm) → ∃ s, run (start n swagger) es s.
Proof.
  induction es as [|ev es IH] using rev_ind; intros sw mm H; [eexists; constructor|].
  rewrite process_snoc in H. apply bind_Ok in H as ([sw1 mm1] & H1 & H).
  destruct (IH _ _ H1) as [s Hs]. destruct (run_process _ _ _ _ _ _ Hs H1) as (<- & <- & _).
  destruct ev; eexists; (eapply run_snoc; [exact Hs|]); [by eapply step_response|apply step_failure].
Qed.

(** (C17) A resource listing is answered exactly once: however the responses
    and errors of its requests are ordered, when none of the documents makes the
    converter throw, the callback gets, at the last one and not before, the
    document with the declarations taken in in their order of arrival. *)
Theorem listing_finishes n swagger es sw mm :
  (0 < n)%nat → length es = n → process swagger es = Ok (sw, mm) →
  (∃ s, run (start n swagger) es s) ∧
  (∀ s, run (start n swagger) es s → calls s = [sw]) ∧
  (∀ k s, (k < n)%nat → run (start n swagger) (take k es) s → calls s = []).
Proof.
  intros Hn Hl Hp. split_and!.
  - by eapply process_runs.
  - intros s Hs. by eapply run_process.
  - intros k s Hk Hs. apply run_counts in Hs as (_ & _ & Hc). apply Hc. rewrite length_take. lia.
Qed.

Lemma listing_finishes_witness :
  let api := VObj [(#"basePath", VStr #"http://h/api"); (#"resourcePath", VStr #"/pets");
                   (#"apis", VArr [VObj [(#"path", VStr #"/pets");
                      (#"operations", VArr [VObj [(#"method", VStr #"GET"); (#"type", VStr #"void")]])]])] in
  let es := [Failure; Response api] in
  ∃ sw mm, process [] es = Ok (sw, mm) ∧
  (∃ s, run (start 2 []) es s) ∧
  (∀ s, run (start 2 []) es s → calls s = [sw]) ∧
  (∀ k s, (k < 2)%nat → run (start 2 []) (take k es) s → calls s = []).
Proof.
  intros api es. eexists _, _. split; [vm_compute; reflexivity|].
  eapply (listing_finishes 2 [] es); [lia|done|vm_compute; reflexivity].
Defined.

(** When the last document makes the converter throw, the response is counted
    but the callback is never called. *)
Theorem listing_lost n swagger es s1 data s2 e :
  run (start n swagger) es s1 → step s1 (Response data) s2 → S (length es) = n →
  receive data (l_swagger s1) (l_models s1) = Throw e → processedCount s2 = n ∧ calls s2 = [].
Proof.
  intros Hrun Hstep Hl Ht. apply run_counts in Hrun as (He & Hp & Hc).
  inversion Hstep; subst; [congruence|]. cbn. split; [lia|apply Hc; lia].
Qed.

(** ** The operations of a declaration *)

(** The operation at a path and method of a document. *)
Definition operation_at (swagger : obj) (path method : jstr) : option value :=
  pget (as_obj (field (as_obj (field swagger #"paths")) path)) method.

(** Reading a property that is there. *)
Definition peek (v : value) (k : jstr) : value := match get v k with Ok x => x | Throw _ => VUndef end.

(** The method an operation is stored under. *)
Definition method_of (e : value) : jstr :=
  match or_else (peek e #"method") (peek e #"httpMethod") with VStr s => to_lower s | _ => [] end.

(** The operations of a list of APIs with their paths, in order. *)
Definition api_operations (api : value) : list (jstr * value) :=
  match peek api #"operations" with
  | VArr l => map (pair (to_string (peek api #"path"))) l
  | _ => []
  end.

Lemma convert_operation_method mm rla sw tag e m op :
  convert_operation mm rla sw tag e = Ok (m, op) → m = method_of e.
Proof.
  unfold convert_operation, method_of, peek. intros H.
  destruct (get e #"method"); [cbn in H|done]. destruct (get e #"httpMethod"); [cbn in H|done].
  destruct (or_else _ _); cbn in H; try done. by inv_res.
Qed.

(** An operation depends on the document only through its default types. *)
Lemma convert_operation_ext mm rla sw sw' tag e :
  field sw #"consumes" = field sw' #"consumes" → field sw #"produces" = field sw' #"produces" →
  convert_operation mm rla sw tag e = convert_operation mm rla sw' tag e.
Proof. intros Hc Hp. unfold convert_operation, own_or_global. by rewrite Hc Hp. Qed.

Section writes.
Context (C : value → res (jstr * obj)).
Hypothesis C_method : ∀ e m op, C e = Ok (m, op) → m = method_of e.

(** The operations among [ops] for a path and a method. *)
Definition ops_for (p m : jstr) (ops : list (jstr * value)) : list (jstr * value) :=
  List.filter (λ '(q, e), streq q p && streq (method_of e) m) ops.

(** [sw'] is [sw] with the operations [ops] stored, later ones over earlier
    ones. *)
Definition writes (sw : obj) (ops : list (jstr * value)) (sw' : obj) : Prop :=
  ∀ p m, match last (ops_for p m ops) with
         | Some (_, e) => ∃ op, C e = Ok (m, op) ∧ operation_at sw' p m = Some (VObj op)
         | None => operation_at sw' p m = operation_at sw p m
         end.

Lemma writes_app sw o1 sw1 o2 sw2 :
  writes sw o1 sw1 → writes sw1 o2 sw2 → writes sw (o1 ++ o2) sw2.
Proof.
  intros H1 H2 p m. specialize (H1 p m). specialize (H2 p m).
  unfold ops_for in *. rewrite List.filter_app last_app.
  destruct (last (List.filter _ o2)) as [[? e]|]; [done|]. rewrite H2. exact H1.
Qed.

Lemma pathObj_writes l : ∀ po po',
  fold_res (λ po e, '(m, op) ← C e; Ok (pset m (VObj op) po)) l po = Ok po' →
  ∀ m, match last (List.filter (λ e, streq (method_of e) m) l) with
       | Some e => ∃ op, C e = Ok (m, op) ∧ pget po' m = Some (VObj op)
       | None => pget po' m = pget po m
       end.
Proof.
  induction l as [|e l IH] using rev_ind; intros po po' H m.
  { injection H as <-. done. }
  rewrite fold_res_app in H. apply bind_Ok in H as (po1 & H1 & H). cbn in H.
  destruct (C e) as [[m' op]|] eqn:He; [|done]. injection H as <-.
  rewrite List.filter_app. cbn [List.filter].
  pose proof (C_method _ _ _ He) as ->. rewrite pget_pset.
  destruct (streq (method_of e) m) eqn:E.
  - apply streq_spec in E. rewrite last_snoc. exists op. by rewrite -E.
  - rewrite app_nil_r. by apply IH.
Qed.

Lemma ops_for_pair q p m l :
  ops_for p m (map (pair q) l)
  = if streq q p then map (pair q) (List.filter (λ e, streq (method_of e) m) l) else [].
Proof.
  unfold ops_for. induction l as [|e l IH]; cbn [map List.filter]; [by destruct (streq q p)|].
  rewrite IH. destruct (streq q p); cbn [andb]; [|done]. by destruct (streq (method_of e) m).
Qed.
End writes.

(** [operations] stores the operations of one API and changes nothing else but
    the tags. *)
Lemma operations_writes mm path rp ops rla sw sw' tag :
  extractTag rp = Ok tag → operations mm path rp ops rla sw = Ok sw' →
  (∀ k, k ≠ #"paths" → k ≠ #"tags" → field sw' k = field sw k) ∧
  writes (convert_operation mm rla sw' tag) sw
    (match ops with VArr l => map (pair (to_string path)) l | _ => [] end) sw'.
Proof.
  intros Htag H. destruct ops as [| | | | | |l|]; try (injection H as <-; done).
  cbn [operations] in H. rewrite Htag in H. cbn [mbind res_bind] in H.
  apply bind_Ok in H as (tags & _ & H). set (sw1 := pset #"tags" _ _) in H.
  apply bind_Ok in H as (po & H1 & H). injection H as <-.
  assert (∀ k, k ≠ #"paths" → k ≠ #"tags" →
    field (pset #"paths" (VObj (pset (to_string path) (VObj po) (as_obj (field sw #"paths")))) sw1) k
    = field sw k) as Hk.
  { intros k Hp Ht. unfold sw1. rewrite !field_pset.
    by rewrite !(proj2 (streq_neq _ k)). }
  split; [done|]. set (C := convert_operation mm rla _ tag).
  assert (∀ e m op, C e = Ok (m, op) → m = method_of e) as HC by (intros ???; apply convert_operation_method).
  assert (∀ e, convert_operation mm rla sw1 tag e = C e) as HCs.
  { intros e. apply convert_operation_ext; unfold sw1; by rewrite !field_pset. }
  intros p m. unfold operation_at. rewrite field_pset streq_refl. cbn [as_obj]. rewrite field_pset ops_for_pair.
  destruct (streq (to_string path) p) eqn:E; [|done].
  apply streq_spec in E as <-. cbn [as_obj].
  erewrite fold_res_ext in H1; [|intros ? e; rewrite HCs; reflexivity].
  pose proof (pathObj_writes C HC l _ _ H1 m) as Hw. rewrite (fmap_last (pair (to_string path))).
  by destruct (last (List.filter _ l)).
Qed.

Lemma writes_ext C C' sw ops sw' :
  (∀ e, C e = C' e) → writes C sw ops sw' → writes C' sw ops sw'.
Proof.
  intros HC H p m. specialize (H p m). destruct (last _) as [[? e]|]; [|done]. by rewrite -HC.
Qed.

Lemma peek_ok v k x : get v k = Ok x → peek v k = x.
Proof. unfold peek. by intros ->. Qed.

Lemma declare_apis_writes mm o rla tag l : ∀ sw sw',
  extractTag (peek o #"resourcePath") = Ok tag →
  fold_res (declare_api mm o rla) l sw = Ok sw' →
  (∀ k, k ≠ #"paths" → k ≠ #"tags" → field sw' k = field sw k) ∧
  writes (convert_operation mm rla sw' tag) sw (concat (map api_operations l)) sw'.
Proof.
  induction l as [|api l IH]; intros sw sw' Htag H; cbn [fold_res] in H; [by injection H as <-|].
  apply bind_Ok in H as (sw1 & H1 & H). destruct (IH _ _ Htag H) as [Hk Hw].
  unfold declare_api in H1. apply bind_Ok in H1 as (path & Hpath & H1).
  apply bind_Ok in H1 as (ops & Hops & H1). apply bind_Ok in H1 as (rp & Hrp & H1).
  rewrite (peek_ok _ _ _ Hrp) in Htag. apply (operations_writes _ _ _ _ _ _ _ tag) in H1 as [Hk1 Hw1]; [|done].
  split; [intros k Hp Ht; by rewrite Hk // Hk1|]. cbn [map concat].
  apply (writes_app _ _ _ sw1); [|done].
  unfold api_operations. rewrite (peek_ok _ _ _ Hops) (peek_ok _ _ _ Hpath).
  eapply writes_ext; [|exact Hw1]. intros e. symmetry. apply convert_operation_ext; by apply Hk.
Qed.

(** Without a tag there can be no operations. *)
Lemma declare_apis_none mm o rla e l : ∀ sw sw',
  extractTag (peek o #"resourcePath") = Throw e →
  fold_res (declare_api mm o rla) l sw = Ok sw' →
  sw' = sw ∧ concat (map api_operations l) = [].
Proof.
  induction l as [|api l IH]; intros sw sw' Htag H; cbn [fold_res] in H; [by injection H as <-|].
  apply bind_Ok in H as (sw1 & H1 & H). destruct (IH _ _ Htag H) as [-> Hl].
  unfold declare_api in H1. apply bind_Ok in H1 as (path & _ & H1).
  apply bind_Ok in H1 as (ops & Hops & H1). apply bind_Ok in H1 as (rp & Hrp & H1).
  rewrite (peek_ok _ _ _ Hrp) in Htag. cbn [map concat]. rewrite Hl app_nil_r.
  unfold api_operations. rewrite (peek_ok _ _ _ Hops).
  destruct ops as [| | | | | |ops|]; cbn [operations] in H1; try (by injection H1 as <-).
  by rewrite Htag in H1.
Qed.

Lemma field_carry src k k' dst dst' q :
  carry src k k' dst = Ok dst' → q ≠ k' → field dst' q = field dst q.
Proof.
  unfold carry. intros H Hq. apply bind_Ok in H as (v & _ & H). injection H as <-.
  destruct (truthy v); [|done]. rewrite field_pset. by rewrite (proj2 (streq_neq k' q)).
Qed.

Lemma field_set_base b sw q :
  q ≠ #"host" → q ≠ #"basePath" → field (set_base b sw) q = field sw q.
Proof.
  intros Hh Hb. unfold set_base, set_host.
  repeat case_if; rewrite ?field_pset; by rewrite ?(proj2 (streq_neq _ q)).
Qed.

Lemma field_models mm ms sw sw' q :
  models mm ms sw = Ok sw' → q ≠ #"definitions" → field sw' q = field sw q.
Proof.
  unfold models. destruct (is_object ms); cbn [negb]; [|by intros [= <-]]. intros H Hq.
  apply bind_Ok in H as (d & _ & H). injection H as <-. rewrite field_pset.
  by rewrite (proj2 (streq_neq _ q)).
Qed.

(** The authorizations an operation inherits from its declaration. *)
Definition inherited_auth (o : value) : value :=
  if truthy (peek o #"authorizations") then peek o #"authorizations" else VUndef.

(** (C16) A declaration that converts leaves, at every path and method, the
    conversion of the last of its operations with that path and method, and the
    earlier document's operation where it has none: no operation is lost,
    invented or stored elsewhere. *)
Theorem declaration_operations o sw mm sw' mm' l :
  get o #"apis" = Ok (VArr l) → declaration o sw mm = Ok (sw', mm') →
  ∀ path method,
    match last (ops_for path method (concat (map api_operations l))) with
    | Some (_, e) => ∃ tag op,
        extractTag (peek o #"resourcePath") = Ok tag ∧
        convert_operation mm' (inherited_auth o) sw' tag e = Ok (method, op) ∧
        operation_at sw' path method = Some (VObj op)
    | None => operation_at sw' path method = operation_at sw path method
    end.
Proof.
  intros Hapis H path method. unfold declaration in H. rewrite Hapis in H. cbn [mbind res_bind truthy negb] in H.
  apply bind_Ok in H as (b & _ & H). apply bind_Ok in H as (basePath & _ & H).
  apply bind_Ok in H as (auths & Hauths & H). apply bind_Ok in H as (sw1 & H1 & H).
  apply bind_Ok in H as (sw2 & H2 & H). apply bind_Ok in H as (ms & _ & H).
  apply bind_Ok in H as (mm1 & _ & H). apply bind_Ok in H as (sw3 & H3 & H).
  apply bind_Ok in H as (sw4 & H4 & H). injection H as <- <-. cbn [array_items] in H3.
  assert (operation_at sw2 path method = operation_at sw path method) as <-.
  { unfold operation_at. rewrite (field_carry _ _ _ _ _ _ H2) // (field_carry _ _ _ _ _ _ H1) //.
    by rewrite field_set_base. }
  assert (operation_at sw4 path method = operation_at sw3 path method) as ->.
  { unfold operation_at. by rewrite (field_models _ _ _ _ _ H4). }
  unfold inherited_auth. rewrite (peek_ok _ _ _ Hauths).
  destruct (extractTag (peek o #"resourcePath")) as [tag|e] eqn:Htag.
  - destruct (declare_apis_writes _ _ _ _ _ _ _ Htag H3) as [_ Hw]. specialize (Hw path method).
    destruct (last _) as [[? e]|]; [|done]. destruct Hw as (op & Hc & Hop). exists tag, op.
    split_and!; [done| |done]. rewrite -Hc.
    apply convert_operation_ext; by rewrite (field_models _ _ _ _ _ H4).
  - by destruct (declare_apis_none _ _ _ _ _ _ _ Htag H3) as [-> ->].
Qed.

Lemma declaration_operations_witness :
  let op n := VObj [(#"method", VStr #"GET"); (#"nickname", VStr n); (#"type", VStr #"void")] in
  let l := [VObj [(#"path", VStr #"/pets"); (#"operations", VArr [op #"a"; op #"b"])]] in
  let o := VObj [(#"basePath", VStr #"/api"); (#"resourcePath", VStr #"/pets"); (#"apis", VArr l)] in
  ∃ sw', declaration o [] [] = Ok (sw', []) ∧ ∃ tag op',
    extractTag (VStr #"/pets") = Ok tag ∧
    convert_operation [] VUndef sw' tag (op #"b") = Ok (#"get", op') ∧
    operation_at sw' #"/pets" #"get" = Some (VObj op').
Proof.
  intros op l o. eexists. split; [vm_compute; reflexivity|].
  match goal with |- context [operation_at ?s _ _] =>
    apply (declaration_operations o [] [] s [] l eq_refl ltac:(vm_compute; reflexivity) #"/pets" #"get") end.
Defined.

(** ** Well-formed documents *)

(** The responses of an operation. *)
Definition responses_of (op : obj) : obj := as_obj (field op #"responses").

Lemma pget_pset_keeps {V} (k k' : jstr) (v : V) o :
  is_Some (pget o k') → is_Some (pget (pset k v o) k').
Proof. rewrite pget_pset. destruct (streq k k'); eauto. Qed.

Lemma response_entries_200 l : ∀ acc rs has200,
  fold_res response_entry l acc = Ok (rs, has200) →
  (acc.2 = true → is_Some (pget acc.1 #"200")) → has200 = true → is_Some (pget rs #"200").
Proof.
  induction l as [|e l IH]; intros [rs0 b] rs has200 H Hacc; cbn [fold_res] in H.
  { injection H as <- <-. done. }
  apply bind_Ok in H as ([rs1 b1] & H1 & H). eapply IH; [exact H|]. cbn [fst snd] in *.
  unfold response_entry in H1. inv_res.
  intros Hb. apply orb_true_iff in Hb as [Hb|Hb]; [by apply pget_pset_keeps, Hacc|].
  match type of Hb with strict_eq ?c _ = true => destruct c; try done end.
  apply Z.eqb_eq in Hb as ->. rewrite pget_pset. by rewrite streq_refl.
Qed.

(** Every converted operation has a response for 200. *)
Lemma responses_200 mm op e op' :
  is_object e = true → responseMessages mm op e = Ok op' →
  is_Some (pget (responses_of op') #"200") ∧ (∀ k, k ≠ #"responses" → field op' k = field op k).
Proof.
  intros He H. unfold responseMessages in H. rewrite He in H. cbn [negb] in H.
  apply bind_Ok in H as (d & _ & H). apply bind_Ok in H as (ms & _ & H).
  apply bind_Ok in H as ([rs b] & H1 & H). injection H as <-. split.
  - unfold responses_of. rewrite field_pset streq_refl. cbn [as_obj]. destruct b.
    + apply pget_pset_keeps. by eapply response_entries_200; [exact H1|done|].
    + rewrite pget_pset. by rewrite streq_refl.
  - intros k Hk. rewrite field_pset. by rewrite (proj2 (streq_neq _ k)).
Qed.

Lemma field_own_or_global e sw k op op' q :
  own_or_global e sw k op = Ok op' → q ≠ k → field op' q = field op q.
Proof.
  unfold own_or_global. intros H Hq. apply bind_Ok in H as (v & _ & H). injection H as <-.
  repeat case_if; rewrite ?field_pset; by rewrite ?(proj2 (streq_neq k q)).
Qed.

(** A loop that sets one property keeps the others. *)
Lemma fold_res_field {B} (f : obj → B → res obj) l op op' q :
  (∀ x b x', f x b = Ok x' → field x' q = field x q) →
  fold_res f l op = Ok op' → field op' q = field op q.
Proof.
  intros Hf. apply (fold_res_inv (λ x, field x q = field op q)); [|done].
  intros x b x' Hx H. by rewrite (Hf _ _ _ H).
Qed.

Lemma field_convert_parameters mm op o op' q :
  convert_parameters mm op o = Ok op' → q ≠ #"parameters" → field op' q = field op q.
Proof.
  intros H Hq. destruct o; try (by injection H as <-). cbn [convert_parameters] in H.
  eapply fold_res_field; [|exact H]. intros x b x' Hx. apply bind_Ok in Hx as (p & _ & Hx).
  injection Hx as <-. rewrite field_pset. by rewrite (proj2 (streq_neq _ q)).
Qed.

Lemma field_convert_security auths op op' q :
  convert_security auths op = Ok op' → q ≠ #"security" → field op' q = field op q.
Proof.
  intros H Hq. eapply fold_res_field; [|exact H]. intros x [k s] x' Hx.
  apply bind_Ok in Hx as (p & _ & Hx). injection Hx as <-. rewrite field_pset.
  by rewrite (proj2 (streq_neq _ q)).
Qed.

(** A converted operation carries the tag of its declaration and a response for
    200. *)
Lemma convert_operation_shape mm rla sw tag e m op :
  convert_operation mm rla sw tag e = Ok (m, op) →
  field op #"tags" = VArr [VStr tag] ∧ is_Some (pget (responses_of op) #"200").
Proof.
  unfold convert_operation. intros H.
  apply bind_Ok in H as (m0 & Hm0 & H). apply bind_Ok in H as (hm & Hhm & H).
  apply bind_Ok in H as (method & Hm & H). apply bind_Ok in H as (auths & _ & H).
  apply bind_Ok in H as (o1 & H1 & H). apply bind_Ok in H as (o2 & H2 & H).
  apply bind_Ok in H as (o3 & H3 & H). apply bind_Ok in H as (o4 & H4 & H).
  apply bind_Ok in H as (o5 & H5 & H). apply bind_Ok in H as (o6 & H6 & H).
  apply bind_Ok in H as (o7 & H7 & H). apply bind_Ok in H as (ps & _ & H).
  apply bind_Ok in H as (o8 & H8 & H). apply bind_Ok in H as (o9 & H9 & H). injection H as _ <-.
  assert (is_object e = true) as He.
  { destruct e; try done; cbn in Hm0, Hhm; injection Hm0 as <-; injection Hhm as <-; done. }
  apply responses_200 in H9 as [Hr Hf]; [|done]. split; [|done].
  rewrite Hf // (field_convert_parameters _ _ _ _ _ H8) // (field_carry _ _ _ _ _ _ H7) //
    (field_carry _ _ _ _ _ _ H6) // (field_carry _ _ _ _ _ _ H5) // (field_carry _ _ _ _ _ _ H4) //
    (field_own_or_global _ _ _ _ _ _ H3) // (field_own_or_global _ _ _ _ _ _ H2) //.
  destruct (is_undef _); [by injection H1 as <-|]. by rewrite (field_convert_security _ _ _ _ H1).
Qed.

Definition tag_names (sw : obj) : list value :=
  map (λ t, peek t #"name") (array_items (field sw #"tags")).

(** The tags are declared once each, and every operation has one of them and a
    response for 200. *)
Definition document_ok (sw : obj) : Prop :=
  NoDup (tag_names sw) ∧
  ∀ p m op, operation_at sw p m = Some op → ∃ op' t, op = VObj op' ∧
    field op' #"tags" = VArr [VStr t] ∧ VStr t ∈ tag_names sw ∧ is_Some (pget (responses_of op') #"200").

Lemma add_tag_names tag tags tags' :
  add_tag tag tags = Ok tags' → NoDup (map (λ t, peek t #"name") tags) →
  let names := map (λ t, peek t #"name") tags' in
  NoDup names ∧ VStr tag ∈ names ∧ (∀ n, n ∈ map (λ t, peek t #"name") tags → n ∈ names).
Proof.
  unfold add_tag. intros H Hnd. apply bind_Ok in H as (ns & Hns & H). injection H as <-.
  assert (ns = map (λ t, peek t #"name") tags) as ->.
  { clear Hnd. revert ns Hns. induction tags as [|t tags IH]; intros ns H; cbn [map_res] in H;
      [by injection H as <-|]. apply bind_Ok in H as (n & Hn & H). apply bind_Ok in H as (ns' & Hns & H).
    injection H as <-. cbn [map]. by rewrite (peek_ok _ _ _ Hn) (IH _ Hns). }
  destruct (existsb _ _) eqn:E.
  - split_and!; [done| |done]. apply existsb_exists in E as (n & Hn & E). apply list_elem_of_In in Hn.
    destruct n; try done. cbn in E. apply streq_spec in E as ->. done.
  - assert (VStr tag ∉ map (λ t, peek t #"name") tags) as Hni.
    { intros Hin. apply not_true_iff_false in E. apply E. apply existsb_exists.
      exists (VStr tag). split; [by apply list_elem_of_In|]. cbn. apply streq_refl. }
    rewrite map_app. cbn [map]. change (peek (VObj [(#"name", VStr tag)]) #"name") with (VStr tag).
    split_and!; [|set_solver..]. apply NoDup_app. split_and!; [done| |apply NoDup_singleton]. set_solver.
Qed.

Lemma operations_ok mm path rp ops rla sw sw' :
  document_ok sw → operations mm path rp ops rla sw = Ok sw' → document_ok sw'.
Proof.
  intros [Hnd Hops] H. destruct ops as [| | | | | |l|]; try (by injection H as <-).
  pose proof H as Hw. cbn [operations] in H.
  apply bind_Ok in H as (tag & Htag & H). apply bind_Ok in H as (tags & Htags & H).
  apply (operations_writes _ _ _ _ _ _ _ _ Htag) in Hw as [_ Hw].
  apply bind_Ok in H as (po & _ & H). apply add_tag_names in Htags as (Hnd' & Hin & Hsub); [|done].
  assert (tag_names sw' = map (λ t, peek t #"name") tags) as Hn.
  { injection H as <-. unfold tag_names. rewrite !field_pset. done. }
  clear H. split; [by rewrite Hn|]. intros p m op Hop. specialize (Hw p m). rewrite Hn.
  destruct (last _) as [[? e]|].
  - destruct Hw as (op' & Hc & Hop'). apply convert_operation_shape in Hc as [Ht Hr].
    exists op', tag. split_and!; [congruence|done|done|done].
  - rewrite Hw in Hop. destruct (Hops _ _ _ Hop) as (op' & t & -> & Ht & Hin' & Hr).
    exists op', t. split_and!; [done|done|by apply Hsub|done].
Qed.

Lemma document_ok_fields sw sw' :
  field sw' #"tags" = field sw #"tags" → field sw' #"paths" = field sw #"paths" →
  document_ok sw → document_ok sw'.
Proof. unfold document_ok, tag_names, operation_at. by intros -> ->. Qed.

Lemma declaration_ok o sw mm sw' mm' :
  document_ok sw → declaration o sw mm = Ok (sw', mm') → document_ok sw'.
Proof.
  intros Hok H. unfold declaration in H. apply bind_Ok in H as (apis & _ & H).
  destruct (truthy apis); cbn [negb] in H; [|by injection H as <- _].
  apply bind_Ok in H as (b & _ & H). apply bind_Ok in H as (basePath & _ & H).
  apply bind_Ok in H as (auths & _ & H). apply bind_Ok in H as (sw1 & H1 & H).
  apply bind_Ok in H as (sw2 & H2 & H). apply bind_Ok in H as (ms & _ & H).
  apply bind_Ok in H as (mm1 & _ & H). apply bind_Ok in H as (sw3 & H3 & H).
  apply bind_Ok in H as (sw4 & H4 & H). injection H as <- _.
  eapply document_ok_fields; [by eapply field_models|by eapply field_models|].
  eapply (fold_res_inv document_ok); [| |exact H3].
  - intros x api x' Hx Ha. unfold declare_api in Ha. inv_res. by eapply operations_ok.
  - eapply document_ok_fields; [by eapply field_carry|by eapply field_carry|].
    eapply document_ok_fields; [by eapply field_carry|by eapply field_carry|].
    by eapply document_ok_fields; [apply field_set_base..|].
Qed.

Lemma field_apiInfo o sw sw' w q :
  apiInfo o sw = Ok (sw', w) → q ≠ #"info" → q ≠ #"license" → field sw' q = field sw q.
Proof.
  unfold apiInfo. intros H Hi Hl. apply bind_Ok in H as (i & _ & H).
  destruct (truthy i); [|by injection H as <- _]. inv_res.
  case_if; injection H as <- _; rewrite !field_pset; by rewrite !(proj2 (streq_neq _ q)).
Qed.

Lemma field_securityDefinitions o sw sw' q :
  securityDefinitions o sw = Ok sw' → q ≠ #"securityDefinitions" → field sw' q = field sw q.
Proof.
  unfold securityDefinitions. intros H Hq. apply bind_Ok in H as (a & _ & H).
  destruct (truthy a); cbn [negb] in H; [|by injection H as <-].
  apply bind_Ok in H as ([sw1 i] & H1 & H). injection H as <-.
  apply (fold_res_inv (λ x, field x.1 q = field sw q)) in H1; [done| |done].
  intros [x j] [name d] [x' j'] Hx Hs. apply bind_Ok in Hs as ([[sd v] j1] & _ & Hs).
  injection Hs as <- _. cbn [fst] in *. destruct v; [|done]. rewrite field_pset.
  by rewrite (proj2 (streq_neq _ q)).
Qed.

Lemma resourceListing_empty date_parse now o sw docLocation opts t sw' rs :
  get o #"apis" = Ok (VArr []) →
  resourceListing date_parse now o sw docLocation opts t = Ok (sw', rs) → sw' = sw.
Proof.
  intros Ha H. unfold resourceListing in H. rewrite Ha in H. cbn [mbind res_bind] in H.
  apply bind_Ok in H as (v & _ & H). apply bind_Ok in H as (acc & _ & H). by injection H as <- _.
Qed.

(** (C18) The document handed to the callback for a single-file specification
    is well formed: each tag is declared once, and every operation carries a
    declared tag and a response for 200. *)
Theorem convert_document_ok date_parse now docLocation o t opts sw mm warnings :
  convert date_parse now docLocation o t opts = Ok (Finished (Some sw), mm, warnings) → document_ok sw.
Proof.
  unfold convert. intros H. destruct (truthy o); cbn [negb] in H; [|done].
  apply bind_Ok in H as (apis & Ha & H). destruct apis as [| | | | | |l|]; try done.
  apply bind_Ok in H as (version & _ & H). apply bind_Ok in H as ([sw1 w] & H1 & H).
  apply bind_Ok in H as (sw2 & H2 & H). apply bind_Ok in H as (b & _ & H).
  apply bind_Ok in H as (single & _ & H).
  assert (document_ok sw2) as Hok.
  { assert (∀ q, q = #"tags" ∨ q = #"paths" → field sw2 q = VUndef) as Hq.
    { intros q Hq. rewrite (field_securityDefinitions _ _ _ _ H2); [|by destruct Hq as [-> | ->]].
      rewrite (field_apiInfo _ _ _ _ _ H1); by destruct Hq as [-> | ->]. }
    unfold document_ok, tag_names, operation_at. rewrite !Hq; [|auto..]. split; [constructor|done]. }
  destruct single.
  - apply bind_Ok in H as ([sw3 mm3] & H3 & H). injection H as <- _ _. by eapply declaration_ok.
  - apply bind_Ok in H as ([sw3 rs] & H3 & H). destruct l as [|api l]; [|done].
    injection H as <- _ _. by rewrite (resourceListing_empty _ _ _ _ _ _ _ _ _ Ha H3).
Qed.

Lemma convert_document_ok_witness :
  let op := VObj [(#"method", VStr #"GET"); (#"type", VStr #"List[int]")] in
  let o := VObj [(#"basePath", VStr #"https://h/api"); (#"resourcePath", VStr #"/pets");
                 (#"apis", VArr [VObj [(#"path", VStr #"/pets"); (#"operations", VArr [op])]])] in
  ∃ sw, convert (λ _, None) 0 VUndef o None VUndef
        = Ok (Finished (Some sw), [], [ #"missing info section"]) ∧ document_ok sw.
Proof.
  intros op o. eexists. split; [vm_compute; reflexivity|].
  eapply (convert_document_ok (λ _, None) 0 VUndef o None VUndef). vm_compute. reflexivity.
Defined.

(** A list with one scope is dropped: the test that was to check for scopes
    compares the position of the last one with zero. *)
Theorem single_scope_dropped :
  let d scopes := VObj [(#"type", VStr #"oauth2"); (#"scopes", VArr scopes);
                        (#"grantTypes", VObj [(#"implicit", VObj [(#"loginEndpoint", VStr #"u")])])] in
  let s n := VObj [(#"scope", VStr n); (#"description", VStr n)] in
  (∃ sd, convert_definition #"o" (d [s #"a"]) None = Ok (sd, true, Some #"0") ∧ field sd #"scopes" = VUndef) ∧
  (∃ sd, convert_definition #"o" (d [s #"a"; s #"b"]) None = Ok (sd, true, Some #"1") ∧
     field sd #"scopes" = VObj [(#"a", VStr #"a"); (#"b", VStr #"b")]).
Proof. split; eexists; split; vm_compute; reflexivity. Qed.
