(* ===== verification/SchemaMarkup.v ===== *)
(** * Samples and signatures of schemas

    The parts of [helpers], [schema-markup] and [model] that turn a schema into
    a sample value or a type name. A schema refers to models by name and models
    may refer to each other in cycles; [schemaToJSON] carries the set of models
    it is inside of and stops at the second visit. The code recurses without a
    bound: here a bound is computed from the schema and the models, running out
    of it is the engine's stack overflow, and [schemaToJSON_eq] with
    [schemaToJSON_terminates] shows that it never happens. *)

From S2P Require Import Prelude JsValue.

(** ** Helpers *)

(** [simpleRef] of a defined name. *)
Definition simpleRef (name : value) : res jstr :=
  s ← as_str name;
  Ok (if starts_with #"#/definitions/" s then substring_from 14 s else s).

(** [resolveSchema]: follow [schema.schema] while it is an object. *)
Fixpoint nested_schema (v : value) : value :=
  match v with
  | VObj o =>
      (fix find l :=
         match l with
         | [] => v
         | (k, x) :: l =>
             if streq #"schema" k then match x with VObj _ => nested_schema x | _ => v end else find l
         end) o
  | _ => v
  end.

Definition resolveSchema (schema : value) : res value :=
  match schema with VUndef | VNull => Throw TypeError | _ => Ok (nested_schema schema) end.

(** [extractExtensions(keyname, obj, value)]: the new object. *)
Definition extractExtensions (keyname : jstr) (o : list (jstr * value)) (v : value)
    : list (jstr * value) :=
  if starts_with #"x-" keyname then
    let ext := match or_else (field o #"vendorExtensions") (VObj []) with VObj e => e | _ => [] end in
    pset #"vendorExtensions" (VObj (pset keyname (if truthy v then v else field o keyname) ext)) o
  else o.

Definition optionHtml (label v : jstr) : jstr :=
  #"<tr><td class=" ++ [34] ++ #"optionName" ++ [34] ++ #">" ++ label ++ #":</td><td>" ++ v ++ #"</td></tr>".

(** ** Type names *)

Definition typeFromJsonSchema (type format : value) : value :=
  let t s := is_str s type in
  let f s := is_str s format in
  if t #"integer" && f #"int32" then VStr #"integer"
  else if t #"integer" && f #"int64" then VStr #"long"
  else if t #"integer" && is_undef format then VStr #"long"
  else if t #"string" && f #"date-time" then VStr #"date-time"
  else if t #"string" && f #"date" then VStr #"date"
  else if t #"number" && f #"float" then VStr #"float"
  else if t #"number" && f #"double" then VStr #"double"
  else if t #"number" && is_undef format then VStr #"double"
  else if t #"boolean" then VStr #"boolean"
  else if t #"string" then VStr #"string"
  else VUndef.

(** The nesting depth of a value bounds the recursion into [items]. *)
Fixpoint depth (v : value) : nat :=
  match v with
  | VArr l => S (list_max (map depth l))
  | VObj o => S (list_max (map (λ p, depth p.2) o))
  | _ => 1%nat
  end.

(** The signature of a type that is not an array. *)
Definition scalar_signature (type format : value) : jstr :=
  let t s := is_str s type in
  let f s := is_str s format in
  if t #"integer" && f #"int32" then #"integer"
  else if t #"integer" && f #"int64" then #"long"
  else if t #"integer" && is_undef format then #"long"
  else if t #"string" && f #"date-time" then #"date-time"
  else if t #"string" && f #"date" then #"date"
  else if t #"string" && is_undef format then #"string"
  else if t #"number" && f #"float" then #"float"
  else if t #"number" && f #"double" then #"double"
  else if t #"number" && is_undef format then #"double"
  else if t #"boolean" then #"boolean"
  else to_string type.

Definition signature_step (rec : value → bool → res jstr) (o : value) (baseComponent : bool) : res jstr :=
  ref ← get o #"$ref";
  type ← get o #"type";
  if negb (is_undef ref) then simpleRef ref
  else if is_undef type then Ok #"object"
  else if is_str #"array" type then
    items ← get o #"items";
    s ← rec (or_else items (VObj [])) false;
    Ok (if baseComponent then s else #"Array[" ++ s ++ #"]")
  else format ← get o #"format"; Ok (scalar_signature type format).

Fixpoint signature_go (n : nat) (o : value) (baseComponent : bool) : res jstr :=
  match n with
  | O => stack_overflow
  | S n => signature_step (signature_go n) o baseComponent
  end.

Definition getStringSignature (o : value) (baseComponent : bool) : res jstr :=
  signature_go (S (depth o)) o baseComponent.

(** ** Models *)

(** What the markup reads of a model object: the constructor sets no [type]. *)
Record model := { m_name : jstr; m_definition : value; m_type : value }.

(** [new Model(name, definition)] *)
Definition newModel (name definition : value) : res model :=
  title ← get definition #"title";
  Ok {| m_name := to_string (or_else name (or_else title (VStr #"Inline Model")));
        m_definition := or_else definition (VObj []); m_type := VUndef |}.

(** ** Samples *)

Section sample.
(** [modelPropertyMacro], which gives a property's default, and the text of
    [new Date().toISOString()]. *)
Context (macro : value → value) (now_iso : jstr) (models : list (jstr * model)).

(** The sample of a property: a copy with the default the macro gives. Writing
    to a primitive throws; an array has no schema properties but the default. *)
Definition sample_property (rec : list jstr → value → res value) (ignore : list jstr) (property : value)
    : res value :=
  match property with
  | VObj o => rec ignore (VObj (pset #"default" (macro property) o))
  | VArr _ => Ok (if is_undef (macro property) then VObj [] else macro property)
  | _ => Throw TypeError
  end.

(** The sample of the elements of an array schema. *)
Definition sample_items (rec : list jstr → value → res value) (ignore : list jstr) (items : value)
    : res (list value) :=
  match items with
  | VArr l => map_res (rec ignore) l
  | VObj _ => v ← rec ignore items; Ok [v]
  | VUndef => Ok [VObj []]
  | _ => Ok []
  end.

Definition sample_properties (rec : list jstr → value → res value) (ignore : list jstr) (properties : value)
    : res (list (jstr * value)) :=
  fold_res (λ output '(name, property),
      v ← sample_property rec ignore property; Ok (pset name v output))
    (entries properties) [].

(** The sample of a schema without example, enumeration or reference. *)
Definition sample_typed (rec : list jstr → value → res value) (ignore : list jstr) (schema : value)
    : res value :=
  d ← get schema #"default";
  t ← get schema #"type";
  format ← get schema #"format";
  let type := or_else t (VStr #"object") in
  if negb (is_undef d) then Ok d
  else if is_str #"string" type then
    if is_str #"date-time" format then Ok (VStr now_iso)
    else if is_str #"date" format then Ok (VStr (default [] (head (split #"T" now_iso))))
    else Ok (VStr #"string")
  else if is_str #"integer" type || is_str #"number" type then Ok (VNum 0)
  else if is_str #"boolean" type then Ok (VBool true)
  else if is_str #"object" type then
    properties ← get schema #"properties";
    VObj <$> sample_properties rec ignore properties
  else if is_str #"array" type then
    items ← get schema #"items";
    VArr <$> sample_items rec ignore items
  else Ok VUndef.

Definition sample_ref (rec : list jstr → value → res value) (ignore : list jstr) (ref : value) : res value :=
  name ← simpleRef ref;
  match pget models name with
  | None => Ok VUndef
  | Some m =>
      if existsb (streq (m_name m)) ignore
      then Ok (if is_str #"array" (m_type m) then VArr [] else VObj [])
      else rec (m_name m :: ignore) (m_definition m)
  end.

(** One call of [schemaToJSON]; [ignore] holds the keys of [modelsToIgnore],
    which the recursive call for a model extends and restores. *)
Definition sample_step (rec : list jstr → value → res value) (ignore : list jstr) (schema0 : value)
    : res value :=
  schema ← resolveSchema schema0;
  example ← get schema #"example";
  items ← get schema #"items";
  enum ← get schema #"enum";
  let output :=
    if negb (is_undef example) then example
    else if is_undef items then match enum with VArr (x :: _) => x | _ => VUndef end
    else VUndef in
  if negb (is_undef output) then Ok output else
  ref ← get schema #"$ref";
  if truthy ref then sample_ref rec ignore ref else sample_typed rec ignore schema.

Fixpoint sample_go (n : nat) (ignore : list jstr) (schema : value) : res value :=
  match n with
  | O => stack_overflow
  | S n => sample_step (sample_go n) ignore schema
  end.

(** The depth of a schema but for its default, which is copied and never
    entered. *)
Definition height (v : value) : nat :=
  match v with
  | VObj o => S (list_max (map (λ p, if streq p.1 #"default" then 0%nat else depth p.2) o))
  | _ => depth v
  end.

(** The models still open to a visit, and the bound on the recursion: the schema
    at hand, and the definition of every such model once. *)
Definition open_models (ignore : list jstr) : nat :=
  length (List.filter (λ p : jstr * model, negb (existsb (streq (m_name p.2)) ignore)) models).
Definition tallest : nat := list_max (map (λ p : jstr * model, height (m_definition p.2)) models).
Definition bound (ignore : list jstr) (schema : value) : nat :=
  (height schema + open_models ignore * tallest)%nat.

Definition schemaToJSON (ignore : list jstr) (schema : value) : res value :=
  sample_go (bound ignore schema) ignore schema.

(** ** Termination *)

Lemma list_max_cons x l : list_max (x :: l) = Nat.max x (list_max l).
Proof. done. Qed.

Lemma list_max_in {A} (f : A → nat) l x : x ∈ l → (f x <= list_max (map f l))%nat.
Proof.
  induction l as [|y l IH]; intros Hx; [by apply not_elem_of_nil in Hx|].
  cbn [map]. rewrite list_max_cons. apply elem_of_cons in Hx as [->|Hx]; [lia|]. specialize (IH Hx). lia.
Qed.

Lemma depth_pos v : (1 <= depth v)%nat.
Proof. destruct v; cbn; lia. Qed.
Lemma height_pos v : (1 <= height v)%nat.
Proof. destruct v; cbn; lia. Qed.

Lemma height_depth v : (height v <= depth v)%nat.
Proof.
  destruct v as [| | | | | | |o]; try done. cbn [height depth]. apply le_n_S.
  induction o as [|[k x] o IH]; cbn [map fst snd]; [done|]. rewrite !list_max_cons.
  apply Nat.max_le_compat; [destruct (streq k _); lia|exact IH].
Qed.

(** The default is not part of the height. *)
Lemma height_default o d : height (VObj (pset #"default" d o)) = height (VObj o).
Proof.
  cbn [height]. f_equal. induction o as [|[k x] o IH]; cbn [pset]; [done|].
  destruct (streq #"default" k) eqn:E; cbn [map fst snd]; rewrite !list_max_cons.
  - apply streq_spec in E as <-. by rewrite streq_refl.
  - by rewrite IH.
Qed.

Lemma field_depth o k : k ≠ #"default" → (depth (field o k) < height (VObj o))%nat ∨ field o k = VUndef.
Proof.
  intros Hk. unfold field. destruct (pget o k) as [x|] eqn:E; [left|by right].
  apply pget_some_in in E. change (default VUndef (Some x)) with x. cbn [height].
  pose proof (list_max_in (λ p : jstr * value, if streq p.1 #"default" then 0%nat else depth p.2) o (k, x) E) as H.
  cbn [fst snd] in H. rewrite (proj2 (streq_neq k _) Hk) in H. lia.
Qed.

(** Reading [properties] or [items] goes down. *)
Lemma get_depth v k x :
  get v k = Ok x → k ≠ #"default" → k ≠ #"length" → canonical_index k = None →
  (depth x < height v)%nat ∨ x = VUndef.
Proof.
  intros H Hd Hl Hc. destruct v as [| | | | | |l|o]; cbn [get] in H; try done;
    rewrite ?(proj2 (streq_neq k _) Hl) ?Hc in H; try (injection H as <-; by right).
  injection H as <-. by apply field_depth.
Qed.

Lemma entry_depth v k x : (k, x) ∈ entries v → (depth x < depth v)%nat.
Proof.
  destruct v as [| | | | | |l|o]; cbn [entries]; intros Hin; try (by apply not_elem_of_nil in Hin).
  - apply list_elem_of_lookup in Hin as [i Hi]. rewrite list_lookup_imap in Hi.
    destruct (l !! i) as [y|] eqn:E; [|done]. injection Hi as _ <-.
    apply list_elem_of_lookup_2 in E. apply (list_max_in depth) in E. cbn. lia.
  - rewrite enum_perm in Hin. apply (list_max_in (λ p : jstr * value, depth p.2)) in Hin. cbn in *. lia.
Qed.

Lemma nested_schema_height v : (height (nested_schema v) <= height v)%nat.
Proof.
  enough (∀ v, (height (nested_schema v) <= height v)%nat ∧ (depth (nested_schema v) <= depth v)%nat)
    by naive_solver.
  clear v. intros v. induction v as [| | | | | |l _|o IH] using value_ind; try done.
  cbn [nested_schema].
  assert (∀ l, Forall (λ p, (height (nested_schema p.2) <= height p.2)%nat ∧
                            (depth (nested_schema p.2) <= depth p.2)%nat) l → l ⊆ o →
    let r := (fix find l := match l with
         | [] => VObj o
         | (k, x) :: l =>
             if streq #"schema" k then match x with VObj _ => nested_schema x | _ => VObj o end else find l
         end) l in (height r <= height (VObj o))%nat ∧ (depth r <= depth (VObj o))%nat) as Hgo.
  { clear IH. induction l as [|[k x] l IHl]; intros HF Hsub; [done|].
    apply Forall_cons in HF as [Hx HF]. cbn [snd] in Hx.
    destruct (streq #"schema" k) eqn:E; [|apply IHl; [done|set_solver]].
    apply streq_spec in E as <-. destruct x as [| | | | | | |o']; try done.
    assert ((#"schema", VObj o') ∈ o) as Hin by set_solver.
    apply (list_max_in (λ p : jstr * value, if streq p.1 #"default" then 0%nat else depth p.2)) in Hin as H1.
    apply (list_max_in (λ p : jstr * value, depth p.2)) in Hin as H2. cbn [fst snd] in H1, H2.
    change (streq #"schema" #"default") with false in H1. cbv iota in H1. destruct Hx as [Hx1 Hx2].
    pose proof (height_depth (nested_schema (VObj o'))).
    change (depth (VObj o)) with (S (list_max (map (λ p : jstr * value, depth p.2) o))).
    change (height (VObj o)) with
      (S (list_max (map (λ p : jstr * value, if streq p.1 #"default" then 0%nat else depth p.2) o))). split; lia. }
  by apply Hgo.
Qed.

Lemma open_models_visit ignore name m :
  pget models name = Some m → existsb (streq (m_name m)) ignore = false →
  (open_models (m_name m :: ignore) < open_models ignore)%nat.
Proof.
  intros Hm Hi. apply pget_some_in in Hm. unfold open_models.
  assert (∀ l : list (jstr * model),
    (length (List.filter (λ p, negb (existsb (streq (m_name p.2)) (m_name m :: ignore))) l)
     <= length (List.filter (λ p, negb (existsb (streq (m_name p.2)) ignore)) l))%nat) as Hle.
  { induction l as [|p l IH]; [done|]. cbn [List.filter existsb] in IH |- *.
    destruct (streq (m_name p.2) (m_name m)), (existsb (streq (m_name p.2)) ignore); cbn [orb negb length]; lia. }
  apply list_elem_of_split in Hm as (a & b & Hab). rewrite Hab !List.filter_app !length_app.
  cbn [List.filter snd existsb]. rewrite streq_refl Hi. cbn [orb negb length].
  pose proof (Hle a). pose proof (Hle b). cbn [existsb] in *. lia.
Qed.

(** The definition of a model that is not ignored stays within the bound. *)
Lemma ref_bound ignore name m schema :
  pget models name = Some m → existsb (streq (m_name m)) ignore = false →
  (bound (m_name m :: ignore) (m_definition m) < bound ignore schema)%nat.
Proof.
  intros Hm Hi. pose proof (open_models_visit ignore name m Hm Hi). pose proof (height_pos schema).
  apply pget_some_in in Hm.
  apply (list_max_in (λ p : jstr * model, height (m_definition p.2))) in Hm. cbn [snd] in Hm.
  unfold bound. fold tallest in Hm. nia.
Qed.

(** The recursive calls are within a smaller bound. *)
Section calls.
Context (ignore : list jstr) (schema0 schema : value).
Hypothesis Hs : resolveSchema schema0 = Ok schema.

Lemma resolved_height : (height schema <= height schema0)%nat.
Proof.
  assert (schema = nested_schema schema0) as ->; [|apply nested_schema_height].
  by destruct schema0; try done; injection Hs as <-.
Qed.

Lemma property_bound properties name o d :
  get schema #"properties" = Ok properties → (name, VObj o) ∈ entries properties →
  (bound ignore (VObj (pset #"default" d o)) < bound ignore schema0)%nat.
Proof.
  intros Hp Hin. apply entry_depth in Hin as Hd. unfold bound. rewrite height_default.
  pose proof resolved_height. pose proof (height_depth (VObj o)).
  apply get_depth in Hp as [Hp|Hp]; [lia| |done..].
  rewrite Hp in Hin. by apply not_elem_of_nil in Hin.
Qed.

Lemma item_bound items x :
  get schema #"items" = Ok items → (items = x ∧ is_plain_object x = true ∨ ∃ l, items = VArr l ∧ x ∈ l) →
  (bound ignore x < bound ignore schema0)%nat.
Proof.
  intros Hi Hx. pose proof resolved_height. pose proof (height_depth x). unfold bound.
  assert (depth x <= depth items)%nat as Hd.
  { destruct Hx as [[-> _]|(l & -> & Hl)]; [done|]. apply (list_max_in depth) in Hl. cbn. lia. }
  apply get_depth in Hi as [Hi|Hi]; [lia| |done..]. by destruct Hx as [[<- Hx]|(l & -> & _)]; [rewrite Hi in Hx|].
Qed.
End calls.

Lemma sample_step_ext f g ignore schema0 :
  (∀ ignore' v, (bound ignore' v < bound ignore schema0)%nat → f ignore' v = g ignore' v) →
  sample_step f ignore schema0 = sample_step g ignore schema0.
Proof.
  intros Hfg. unfold sample_step. destruct (resolveSchema schema0) as [schema|] eqn:Hs; [|done].
  cbn [mbind res_bind]. destruct (get schema #"example"); [|done]. cbn [mbind res_bind].
  destruct (get schema #"items") as [items|] eqn:Hi; [|done]. cbn [mbind res_bind].
  destruct (get schema #"enum"); [|done]. cbn [mbind res_bind]. case_if; [done|].
  destruct (get schema #"$ref") as [ref|]; [|done]. cbn [mbind res_bind]. destruct (truthy ref).
  - unfold sample_ref. destruct (simpleRef ref) as [name|]; [|done]. cbn [mbind res_bind].
    destruct (pget models name) as [m|] eqn:Hm; [|done]. case_if; [done|].
    apply Hfg. by eapply ref_bound.
  - unfold sample_typed. destruct (get schema #"default"); [|done]. cbn [mbind res_bind].
    destruct (get schema #"type"); [|done]. cbn [mbind res_bind].
    destruct (get schema #"format"); [|done]. cbn [mbind res_bind]. do 4 (case_if; [done|]).
    case_if; [|case_if; [|done]].
    + destruct (get schema #"properties") as [ps|] eqn:Hp; [|done]. cbn [mbind res_bind]. f_equal.
      apply fold_res_ext_in. intros x [name p] Hin. destruct p as [| | | | | | |o]; try done.
      cbn [sample_property]. rewrite Hfg; [done|]. by eapply property_bound.
    + rewrite Hi. cbn [mbind res_bind]. f_equal. destruct items as [| | | | | |l|o]; try done; cbn [sample_items].
      * apply map_res_ext_in. intros x Hx. apply Hfg. eapply item_bound; [done|done|eauto].
      * rewrite Hfg; [done|]. eapply item_bound; [done|done|by left].
Qed.

Lemma sample_go_fuel n : ∀ m ignore schema,
  (bound ignore schema <= n)%nat → (bound ignore schema <= m)%nat →
  sample_go n ignore schema = sample_go m ignore schema.
Proof.
  induction n as [|n IH]; intros [|m] ignore schema Hn Hm;
    pose proof (height_pos schema); unfold bound in Hn, Hm; try lia.
  cbn [sample_go]. apply sample_step_ext. intros ig v Hv. unfold bound in Hv. apply IH; unfold bound; lia.
Qed.

Lemma schemaToJSON_eq ignore schema :
  schemaToJSON ignore schema = sample_step schemaToJSON ignore schema.
Proof.
  unfold schemaToJSON at 1. pose proof (height_pos schema).
  destruct (bound ignore schema) as [|n] eqn:E; [unfold bound in E; lia|]. cbn [sample_go].
  apply sample_step_ext. intros ig v Hv. apply sample_go_fuel; lia.
Qed.

Lemma no_overflow_get v k : no_overflow (get v k).
Proof. destruct v; cbn; try done; repeat case_if; try done; by destruct (canonical_index k). Qed.
Lemma no_overflow_simpleRef v : no_overflow (simpleRef v).
Proof. by destruct v. Qed.
Lemma no_overflow_resolve v : no_overflow (resolveSchema v).
Proof. by destruct v. Qed.

Lemma no_overflow_step rec ignore schema0 :
  (∀ ignore' v, (bound ignore' v < bound ignore schema0)%nat → no_overflow (rec ignore' v)) →
  no_overflow (sample_step rec ignore schema0).
Proof.
  intros Hrec. unfold sample_step.
  apply no_overflow_bind; [apply no_overflow_resolve|intros schema Hs].
  apply no_overflow_bind; [apply no_overflow_get|intros example _].
  apply no_overflow_bind; [apply no_overflow_get|intros items Hi].
  apply no_overflow_bind; [apply no_overflow_get|intros en _]. case_if; [done|].
  apply no_overflow_bind; [apply no_overflow_get|intros ref _]. destruct (truthy ref).
  - apply no_overflow_bind; [apply no_overflow_simpleRef|intros name _].
    destruct (pget models name) as [m|] eqn:Hm; [|done]. case_if; [done|]. apply Hrec. by eapply ref_bound.
  - apply no_overflow_bind; [apply no_overflow_get|intros d _].
    apply no_overflow_bind; [apply no_overflow_get|intros t _].
    apply no_overflow_bind; [apply no_overflow_get|intros format _]. cbv zeta.
    destruct (negb (is_undef d)); [done|]. destruct (is_str #"string" _); [by repeat case_if|].
    destruct (_ || _); [done|]. destruct (is_str #"boolean" _); [done|].
    destruct (is_str #"object" _); [|destruct (is_str #"array" _); [|done]].
    + apply no_overflow_bind; [apply no_overflow_get|intros ps Hp]. apply no_overflow_fmap, no_overflow_fold.
      intros x [name p] Hin. apply no_overflow_bind; [|done].
      destruct p as [| | | | | | |o]; try done. apply Hrec. by eapply property_bound.
    + apply no_overflow_bind; [apply no_overflow_get|intros its Hits]. apply no_overflow_fmap.
      destruct its as [| | | | | |l|o]; try done.
      * apply no_overflow_map. intros x Hx. apply Hrec. eapply item_bound; [done|done|eauto].
      * apply no_overflow_bind; [|done]. apply Hrec. eapply item_bound; [done|done|by left].
Qed.

(** (C19) Making a sample ends for every schema and every table of models,
    however the models refer to each other: the recursion of the code is well
    founded and the stack is never exhausted. *)
Theorem schemaToJSON_terminates ignore schema :
  schemaToJSON ignore schema = sample_step schemaToJSON ignore schema ∧
  no_overflow (schemaToJSON ignore schema).
Proof.
  split; [apply schemaToJSON_eq|].
  remember (bound ignore schema) as n eqn:Hn. revert ignore schema Hn.
  induction (lt_wf n) as [n _ IH]. intros ignore schema ->. rewrite schemaToJSON_eq.
  apply no_overflow_step. intros ig v Hv. by eapply IH.
Qed.
End sample.

(** ** Samples satisfy their schema *)

(** The macro used when the client has none. *)
Definition default_macro (property : value) : value :=
  match or_else property (VObj []) with VObj o => field o #"default" | _ => VUndef end.

Definition scalar_type (t : jstr) (v : value) : Prop :=
  (t = #"string" ∧ is_string v = true) ∨ ((t = #"integer" ∨ t = #"number") ∧ ∃ n, v = VNum n) ∨
  (t = #"boolean" ∧ ∃ b, v = VBool b).

(** A schema that only speaks of types: no reference, example, enumeration or
    default. *)
Definition only_types (o : list (jstr * value)) : Prop :=
  is_plain_object (field o #"schema") = false ∧ field o #"example" = VUndef ∧
  is_array (field o #"enum") = false ∧ truthy (field o #"$ref") = false ∧ field o #"default" = VUndef.

Inductive plain : value → Prop :=
  | plain_scalar o t :
      only_types o → field o #"type" = VStr t →
      t ∈ [ #"string"; #"integer"; #"number"; #"boolean"] → plain (VObj o)
  | plain_object o ps :
      only_types o → (field o #"type" = VStr #"object" ∨ field o #"type" = VUndef) →
      field o #"properties" = VObj ps → NoDup ps.*1 →
      (∀ name p, (name, p) ∈ ps → plain p) → plain (VObj o)
  | plain_array o items :
      only_types o → field o #"type" = VStr #"array" → field o #"items" = VObj items →
      plain (VObj items) → plain (VObj o)
  | plain_tuple o l :
      only_types o → field o #"type" = VStr #"array" → field o #"items" = VArr l →
      (∀ p, p ∈ l → plain p) → plain (VObj o).

(** Validity of a value for such a schema. *)
#[local] Unset Elimination Schemes.
Inductive valid : value → value → Prop :=
  | valid_scalar o t v : field o #"type" = VStr t → scalar_type t v → valid (VObj o) v
  | valid_object o ps vs :
      field o #"properties" = VObj ps →
      (∀ name p, (name, p) ∈ ps → ∃ v, pget vs name = Some v ∧ valid p v) →
      (∀ name, name ∈ vs.*1 → name ∈ ps.*1) → valid (VObj o) (VObj vs)
  | valid_array o items vs :
      field o #"items" = VObj items → Forall (valid (VObj items)) vs → valid (VObj o) (VArr vs)
  | valid_tuple o l vs :
      field o #"items" = VArr l → Forall2 valid l vs → valid (VObj o) (VArr vs).

#[local] Set Elimination Schemes.

Lemma nested_schema_none o :
  is_plain_object (field o #"schema") = false → nested_schema (VObj o) = VObj o.
Proof.
  intros H. cbn [nested_schema]. unfold field in H. revert H. generalize (VObj o) as r.
  induction o as [|[k x] o IH]; intros r H; [done|]. cbn [pget] in H.
  destruct (streq #"schema" k); [|by apply IH]. by destruct x.
Qed.

(** What a sample is made from when there are only types. *)
Lemma sample_plain_step macro now_iso models rec ignore o :
  only_types o → sample_step macro now_iso models rec ignore (VObj o)
    = sample_typed macro now_iso rec ignore (VObj o).
Proof.
  intros (Hs & He & Hen & Hr & _). unfold sample_step. cbn [resolveSchema].
  rewrite nested_schema_none //. cbn [mbind res_bind]. rewrite !get_obj. cbn [mbind res_bind].
  rewrite He Hr. cbn [is_undef negb].
  destruct (is_undef (field o #"items")); [|done]. by destruct (field o #"enum") as [| | | | | |[|]|].
Qed.

Lemma only_types_ext o o' :
  (∀ k, field o' k = field o k) → only_types o → only_types o'.
Proof. unfold only_types. intros H. by rewrite !H. Qed.

Section valid.
Context (now_iso : jstr) (models : list (jstr * model)).

Lemma default_copy p :
  plain p → ∃ o, p = VObj o ∧ default_macro p = VUndef ∧
    ∀ k, field (pset #"default" VUndef o) k = field o k.
Proof.
  intros Hp. assert (∃ o, p = VObj o ∧ only_types o) as (o & -> & Ho) by (inversion Hp; eauto).
  destruct Ho as (_ & _ & _ & _ & Hd). exists o. split_and!; [done|done|].
  intros k. rewrite field_pset. case_if; [|done]. str_eqs. by subst.
Qed.

Lemma sample_properties_valid ignore ps : ∀ out,
  (∀ name p, (name, p) ∈ ps → ∃ v,
     sample_property default_macro (schemaToJSON default_macro now_iso models) ignore p = Ok v ∧ valid p v) →
  NoDup ps.*1 →
  ∃ out', fold_res (λ output '(name, property),
      v ← sample_property default_macro (schemaToJSON default_macro now_iso models) ignore property;
      Ok (pset name v output)) ps out = Ok out' ∧
    (∀ name p, (name, p) ∈ ps → ∃ v, pget out' name = Some v ∧ valid p v) ∧
    (∀ name, name ∉ ps.*1 → pget out' name = pget out name) ∧
    (∀ name, name ∈ out'.*1 → name ∈ out.*1 ∨ name ∈ ps.*1).
Proof.
  induction ps as [|[n p] ps IH]; intros out Hps Hnd; cbn [fold_res].
  { exists out. split_and!; [done| |done|by left]. intros ? ? H. by apply not_elem_of_nil in H. }
  cbn in Hnd. apply NoDup_cons in Hnd as [Hn Hnd].
  destruct (Hps n p) as (v & Hv & Hval); [by left|]. rewrite Hv. cbn [mbind res_bind].
  destruct (IH (pset n v out)) as (out' & -> & Hin & Hfr & Hk); [|done|].
  { intros name q Hq. apply (Hps name). by right. }
  exists out'. split_and!; [done| | |].
  - intros name q Hq. apply elem_of_cons in Hq as [[= -> ->]|Hq]; [|by apply Hin].
    exists v. rewrite Hfr // pget_pset streq_refl. done.
  - intros name Hname. cbn in Hname. apply not_elem_of_cons in Hname as [Hne Hname].
    rewrite Hfr // pget_pset. by rewrite (proj2 (streq_neq n name)).
  - intros name Hname. apply Hk in Hname. rewrite pset_in in Hname. rewrite fmap_cons. set_solver.
Qed.

(** The sample of a schema with the same fields as one that has only types. *)
Lemma schemaToJSON_plain ignore o o' :
  only_types o → (∀ k, field o' k = field o k) →
  schemaToJSON default_macro now_iso models ignore (VObj o')
  = let rec := schemaToJSON default_macro now_iso models in
    let type := or_else (field o #"type") (VStr #"object") in
    let format := field o #"format" in
    if is_str #"string" type then
      if is_str #"date-time" format then Ok (VStr now_iso)
      else if is_str #"date" format then Ok (VStr (default [] (head (split #"T" now_iso))))
      else Ok (VStr #"string")
    else if is_str #"integer" type || is_str #"number" type then Ok (VNum 0)
    else if is_str #"boolean" type then Ok (VBool true)
    else if is_str #"object" type then VObj <$> sample_properties default_macro rec ignore (field o #"properties")
    else if is_str #"array" type then VArr <$> sample_items rec ignore (field o #"items")
    else Ok VUndef.
Proof.
  intros Ho Hf. rewrite schemaToJSON_eq sample_plain_step; [|by eapply only_types_ext].
  unfold sample_typed. rewrite !get_obj. cbn [mbind res_bind]. rewrite !Hf.
  by destruct Ho as (_ & _ & _ & _ & ->).
Qed.

Lemma plain_property ignore p :
  plain p →
  (∀ o o' ignore, p = VObj o → (∀ k, field o' k = field o k) →
     ∃ v, schemaToJSON default_macro now_iso models ignore (VObj o') = Ok v ∧ valid p v) →
  ∃ v, sample_property default_macro (schemaToJSON default_macro now_iso models) ignore p = Ok v ∧ valid p v.
Proof.
  intros Hp IH. destruct (default_copy p Hp) as (o & -> & Hd & Hf). cbn [sample_property].
  rewrite Hd. by apply (IH o).
Qed.

Lemma plain_items ignore l :
  (∀ p, p ∈ l → plain p) →
  (∀ p, p ∈ l → ∀ o o' ignore, p = VObj o → (∀ k, field o' k = field o k) →
     ∃ v, schemaToJSON default_macro now_iso models ignore (VObj o') = Ok v ∧ valid p v) →
  ∃ vs, map_res (schemaToJSON default_macro now_iso models ignore) l = Ok vs ∧ Forall2 valid l vs.
Proof.
  induction l as [|p l IHl]; intros Hpl IH; [exists []; split; [done|constructor]|].
  destruct (default_copy p) as (o & -> & _ & _); [apply Hpl; by left|].
  destruct (IH (VObj o) ltac:(by left) o o ignore) as (v & Hv & Hval); [done|done|].
  destruct IHl as (vs & Hvs & HF); [intros q Hq; apply Hpl; by right|intros q Hq; apply IH; by right|].
  exists (v :: vs). cbn [map_res]. rewrite Hv. cbn [mbind res_bind]. rewrite Hvs. split; [done|by constructor].
Qed.

Lemma plain_sample p : plain p → ∀ o o' ignore, p = VObj o → (∀ k, field o' k = field o k) →
  ∃ v, schemaToJSON default_macro now_iso models ignore (VObj o') = Ok v ∧ valid p v.
Proof.
  induction 1 as [o t Ho Ht Hin|o ps Ho Ht Hps Hnd Hpl IH|o items Ho Ht Hi Hpl IH|o l Ho Ht Hi Hpl IH];
    intros o1 o' ignore Heq Hf; injection Heq as <-; rewrite (schemaToJSON_plain _ o) //; cbv zeta; clear Hf.
  - rewrite Ht. apply list_elem_of_In in Hin. destruct Hin as [<-|[<-|[<-|[<-|[]]]]]; cbn -[js].
    + destruct (is_str #"date-time" _); [|destruct (is_str #"date" _)]; eexists; (split; [reflexivity|]);
        (eapply valid_scalar; [exact Ht|by left]).
    + eexists. split; [reflexivity|]. eapply valid_scalar; [exact Ht|right; left; eauto].
    + eexists. split; [reflexivity|]. eapply valid_scalar; [exact Ht|right; left; eauto].
    + eexists. split; [reflexivity|]. eapply valid_scalar; [exact Ht|right; right; eauto].
  - assert (or_else (field o #"type") (VStr #"object") = VStr #"object") as -> by by destruct Ht as [-> | ->].
    rewrite Hps. cbn -[js sample_properties]. unfold sample_properties. cbn [entries].
    destruct (sample_properties_valid ignore (enum ps) []) as (vs & -> & Hv & _ & Hk).
    + intros name q Hq. rewrite enum_perm in Hq. apply plain_property; [by eapply Hpl|by eapply IH].
    + by rewrite enum_perm.
    + exists (VObj vs). split; [done|]. eapply valid_object; [exact Hps| |].
      * intros name q Hq. apply Hv. by rewrite enum_perm.
      * intros name Hname. apply Hk in Hname as [Hname|Hname]; [by apply not_elem_of_nil in Hname|].
        by rewrite enum_perm in Hname.
  - rewrite Ht Hi. cbn -[js schemaToJSON map_res]. destruct (IH items items ignore) as (v & -> & Hv); [done|done|].
    exists (VArr [v]). split; [done|]. eapply valid_array; [exact Hi|by constructor].
  - rewrite Ht Hi. cbn -[js schemaToJSON map_res]. destruct (plain_items ignore l Hpl IH) as (vs & -> & HF).
    exists (VArr vs). split; [done|]. by eapply valid_tuple.
Qed.

(** (C20) The sample of a schema that only speaks of types (strings, numbers,
    booleans, objects with their properties, arrays) is valid for it: it exists,
    has the type, and an object has a valid value for each property and no
    other. *)
Theorem sample_valid ignore p :
  plain p → ∃ v, schemaToJSON default_macro now_iso models ignore p = Ok v ∧ valid p v.
Proof.
  intros Hp. destruct (default_copy p Hp) as (o & -> & _ & _). by eapply plain_sample.
Qed.
End valid.

Lemma sample_valid_witness :
  let t s := VObj [(#"type", VStr s)] in
  let p := VObj [(#"type", VStr #"object");
                 (#"properties", VObj [(#"id", t #"integer"); (#"tags", VObj [(#"type", VStr #"array"); (#"items", t #"string")])])] in
  schemaToJSON default_macro [] [] [] p = Ok (VObj [(#"id", VNum 0); (#"tags", VArr [VStr #"string"])]) ∧
  ∃ v, schemaToJSON default_macro [] [] [] p = Ok v ∧ valid p v.
Proof.
  intros t p. split; [vm_compute; reflexivity|]. apply (sample_valid [] []).
  assert (∀ o, field o #"schema" = VUndef → field o #"example" = VUndef → field o #"enum" = VUndef →
    field o #"$ref" = VUndef → field o #"default" = VUndef → only_types o) as Ho.
  { unfold only_types. by intros o -> -> -> -> ->. }
  assert (∀ s, s ∈ [ #"string"; #"integer"; #"number"; #"boolean"] → plain (t s)) as Hs.
  { intros s Hs. by apply (plain_scalar _ s); [apply Ho|..]. }
  eapply plain_object; [by apply Ho|by left|reflexivity| |].
  - repeat constructor; set_solver.
  - intros name q Hq. repeat (apply elem_of_cons in Hq as [[= -> ->]|Hq]); [| |by apply not_elem_of_nil in Hq].
    + apply Hs. right. by left.
    + eapply plain_array; [by apply Ho|reflexivity|reflexivity|]. apply Hs. by left.
Defined.

(** A model that contains itself: the second visit gives an empty object even
    when the model is an array, because the code asks for a property of the model
    object the constructor does not set. *)
Theorem recursive_array_is_object :
  let m := {| m_name := #"L"; m_type := VUndef;
              m_definition := VObj [(#"type", VStr #"array"); (#"items", VObj [(#"$ref", VStr #"#/definitions/L")])] |} in
  newModel (VStr #"L") (m_definition m) = Ok m ∧
  schemaToJSON default_macro [] [(#"L", m)] [] (VObj [(#"$ref", VStr #"#/definitions/L")])
  = Ok (VArr [VObj []]).
Proof. split; vm_compute; reflexivity. Qed.

(** ** Signatures *)

Lemma signature_step_ext f g o b :
  (∀ v c, (depth v < depth o)%nat ∨ v = VObj [] → f v c = g v c) → signature_step f o b = signature_step g o b.
Proof.
  intros Hfg. unfold signature_step. destruct (get o #"$ref") as [ref|]; [|done]. cbn [mbind res_bind].
  destruct (get o #"type") as [type|]; [|done]. cbn [mbind res_bind]. do 2 (case_if; [done|]). case_if; [|done].
  destruct (get o #"items") as [items|] eqn:Hi; [|done]. cbn [mbind res_bind]. rewrite Hfg; [done|].
  unfold or_else. destruct (truthy items) eqn:T; [left|by right].
  apply get_depth in Hi as [Hi| ->]; [|done..]. pose proof (height_depth o). lia.
Qed.

Lemma signature_go_fuel n : ∀ m o b,
  (depth o < n)%nat → (depth o < m)%nat → signature_go n o b = signature_go m o b.
Proof.
  induction n as [|n IH]; intros [|m] o b Hn Hm; try lia. cbn [signature_go].
  apply signature_step_ext. pose proof (depth_pos o).
  intros v c [Hv| ->]; [apply IH; lia|].
  destruct n as [|n], m as [|m]; try lia. reflexivity.
Qed.

(** The recursion of [getStringSignature] never reaches its bound. *)
Lemma getStringSignature_eq o b :
  getStringSignature o b = signature_step getStringSignature o b.
Proof.
  unfold getStringSignature at 1. cbn [signature_go]. apply signature_step_ext.
  pose proof (depth_pos o). intros v c [Hv| ->]; [apply signature_go_fuel; lia|].
  unfold getStringSignature. by destruct (depth o); [lia|].
Qed.

(** [k] arrays around a type. *)
Fixpoint arrays (k : nat) (items : value) : value :=
  match k with
  | O => items
  | S k => VObj [(#"type", VStr #"array"); (#"items", arrays k items)]
  end.

Fixpoint brackets (k : nat) (s : jstr) : jstr :=
  match k with O => s | S k => #"Array[" ++ brackets k s ++ #"]" end.

(** The signature of [k] nested arrays of a type is the type's signature
    in [k] brackets, one less when the caller asks for the component. *)
Theorem getStringSignature_arrays k items s :
  truthy items = true → getStringSignature items false = Ok s →
  getStringSignature (arrays k items) false = Ok (brackets k s) ∧
  getStringSignature (arrays (S k) items) true = Ok (brackets k s).
Proof.
  intros Ht Hs.
  assert (truthy (arrays k items) = true) as Htk by by destruct k.
  assert (getStringSignature (arrays k items) false = Ok (brackets k s)) as H.
  { clear Htk. induction k as [|k IH]; [done|]. rewrite getStringSignature_eq.
    unfold signature_step. cbn [arrays]. rewrite !get_obj. cbn [mbind res_bind].
    change (field [(#"type", VStr #"array"); (#"items", arrays k items)] #"items") with (arrays k items).
    assert (truthy (arrays k items) = true) as T by by destruct k.
    unfold or_else. rewrite T. cbn -[js getStringSignature]. by rewrite IH. }
  split; [done|]. rewrite getStringSignature_eq. unfold signature_step. cbn [arrays].
  rewrite !get_obj. cbn [mbind res_bind].
  change (field [(#"type", VStr #"array"); (#"items", arrays k items)] #"items") with (arrays k items).
  unfold or_else. rewrite Htk. cbn -[js getStringSignature]. by rewrite H.
Qed.
