(* ===== verification/SchemaHtml.v ===== *)
(** * The HTML of schemas

    [schemaToHTML] of [schema-markup] and [Model.prototype.getMockSignature]: a
    model is rendered as text, and the models it mentions are put on a list of
    references and rendered after it, until the list is empty. The list, the
    models seen and the counter of inline models are variables of the function
    its inner functions change: they are the state of a monad here.

    The documents are those of [JsValue]; lodash iterates over an object that has
    a numeric [length] property as over an array, and such objects are not schemas
    or tables of properties. *)

From S2P Require Import Prelude JsValue SchemaMarkup.

(** HTML literals, with a backquote for the double quote. *)
Definition lit (s : string) : jstr := map (λ c, if c =? 96 then 34 else c) (js s).
Arguments lit s%_string_scope : simpl never.

Definition strongOpen : jstr := lit "<span class=`strong`>".
Definition strongClose : jstr := lit "</span>".

(** ** The state *)

Record hstate := {
  references : list (jstr * value);
  seenModels : list value;
  inlineModels : Z;
}.

Definition html_m (A : Type) : Type := hstate → res (A * hstate).
#[export] Instance html_ret : MRet html_m := λ A a st, Ok (a, st).
#[export] Instance html_bind : MBind html_m := λ A B f m st,
  match m st with Ok (a, st) => f a st | Throw e => Throw e end.
#[export] Instance html_fmap : FMap html_m := λ A B f m, a ← m; mret (f a).

(** A computation that does not touch the state. *)
Definition lift {A} (m : res A) : html_m A := λ st, match m with Ok a => Ok (a, st) | Throw e => Throw e end.
Definition hget (v : value) (k : jstr) : html_m value := lift (get v k).

(** lodash [map] *)
Fixpoint map_html {A B} (f : A → html_m B) (l : list A) : html_m (list B) :=
  match l with
  | [] => mret []
  | a :: l => b ← f a; bs ← map_html f l; mret (b :: bs)
  end.

(** lodash [indexOf(l, x) >= 0] *)
Definition index_in (l : value) (x : value) : bool :=
  match l with
  | VArr l => existsb (strict_eq x) l
  | VStr s => existsb (λ c, strict_eq x (VStr [c])) s
  | _ => false
  end.

(** [l.join(sep)] *)
Definition join_values (l : value) (sep : jstr) : res jstr :=
  match l with
  | VArr l => Ok (join sep (map (λ v, match v with VUndef | VNull => [] | _ => to_string v end) l))
  | _ => Throw TypeError
  end.

(** lodash [isEmpty] *)
Definition is_empty (v : value) : bool :=
  match v with
  | VArr [] | VObj [] | VStr [] => true
  | VArr _ | VObj _ | VStr _ => false
  | _ => true
  end.

Section html.
(** The table of models and [modelPropertyMacro]. *)
Context (models : list (jstr * model)) (macro : value → value).

(** ** The inner functions *)

(** [++inlineModels] *)
Definition next_inline : html_m Z := λ st,
  let n := inlineModels st + 1 in
  Ok (n, {| references := references st; seenModels := seenModels st; inlineModels := n |}).

(** [schema.title || 'Inline Model ' + (++inlineModels)] *)
Definition inline_name (title : value) : html_m value :=
  if truthy title then mret title
  else n ← next_inline; mret (VStr (#"Inline Model " ++ str_of_Z n)).

(** The name of a referenced model and its definition, if there is one. *)
Definition named_model (schema name : value) : html_m (value * option value) :=
  ref ← hget schema #"$ref";
  title ← hget schema #"title";
  if truthy ref then
    s ← lift (if truthy title then Ok title else VStr <$> simpleRef ref);
    mret (s, m_definition <$> pget models (to_string s))
  else if is_undef name then s ← inline_name title; mret (s, Some schema)
  else mret (name, None).

(** [references[modelName] = definition] *)
Definition refer (modelName definition : value) : html_m unit := λ st,
  Ok (tt, {| references := pset (to_string modelName) definition (references st);
             seenModels := seenModels st; inlineModels := inlineModels st |}).

(** [addReference]; no caller passes [true] for [skipRef]. *)
Definition addReference (schema name : value) : html_m value :=
  '(modelName, definition) ← named_model schema name;
  _ ← refer modelName (default (VObj []) definition);
  mret modelName.

(** The elements of an array schema in [primitiveToHTML]. lodash [map] hands
    [addReference] the position as the name. *)
Definition items_type (items : value) : html_m jstr :=
  match items with
  | VArr l =>
      names ← map_html (λ '(i, item), addReference item (VNum (Z.of_nat i))) (imap pair l);
      mret (join #"," (map to_string names))
  | VObj _ =>
      ref ← hget items #"$ref";
      type ← hget items #"type";
      if is_undef ref then
        if negb (is_undef type) && negb (is_str #"array" type || is_str #"object" type) then mret (to_string type)
        else to_string <$> addReference items VUndef
      else s ← lift (simpleRef ref); to_string <$> addReference items (VStr s)
  | _ => mret #"object"
  end.

Definition primitiveToHTML (schema : value) : html_m jstr :=
  t ← hget schema #"type";
  let type := or_else t (VStr #"object") in
  ref ← hget schema #"$ref";
  body ←
    (if truthy ref then s ← lift (simpleRef ref); to_string <$> addReference schema (VStr s)
     else if is_str #"object" type then
       properties ← hget schema #"properties";
       if negb (is_undef properties) then to_string <$> addReference schema VUndef else mret #"object"
     else if is_str #"array" type then
       items ← hget schema #"items";
       s ← items_type items; mret (#"Array[" ++ s ++ #"]")
     else mret (to_string t));
  mret (lit "<span class=`propType`>" ++ body ++ lit "</span>").

(** The rows of the table of options; a row is added when the property is
    truthy. *)
Definition option_row (schema : value) (label key : jstr) : res jstr :=
  v ← get schema key; Ok (if truthy v then optionHtml label (to_string v) else []).
Definition flag_row (schema : value) (label key : jstr) : res jstr :=
  v ← get schema key; Ok (if truthy v then optionHtml label #"true" else []).
Definition rows (l : list (res jstr)) : res jstr := (λ l, concat l) <$> map_res id l.

(** The type whose options are shown: that of the elements for an array. *)
Definition options_type (schema : value) : res value :=
  t ← get schema #"type";
  items ← get schema #"items";
  if is_str #"array" t then
    match items with
    | VObj o => Ok (if is_undef (field o #"type") then VStr #"object" else field o #"type")
    | _ => Ok (VStr #"object")
    end
  else Ok (or_else t (VStr #"object")).

Definition type_rows (schema type : value) : res jstr :=
  if is_str #"string" type then
    rows [option_row schema #"Min. Length" #"minLength"; option_row schema #"Max. Length" #"maxLength";
          option_row schema #"Reg. Exp." #"pattern"]
  else if is_str #"integer" type || is_str #"number" type then
    rows [option_row schema #"Min. Value" #"minimum"; flag_row schema #"Exclusive Min." #"exclusiveMinimum";
          option_row schema #"Max. Value" #"maximum"; flag_row schema #"Exclusive Max." #"exclusiveMaximum";
          option_row schema #"Multiple Of" #"multipleOf"]
  else Ok [].

Definition array_rows (schema : value) : res jstr :=
  rows [option_row schema #"Min. Items" #"minItems"; option_row schema #"Max. Items" #"maxItems";
        flag_row schema #"Unique Items" #"uniqueItems"; option_row schema #"Coll. Format" #"collectionFormat"].

Definition enum_row (schema type : value) : res jstr :=
  items ← get schema #"items";
  enum ← get schema #"enum";
  if is_undef items && is_array enum then
    if is_str #"number" type || is_str #"integer" type
    then s ← join_values enum #", "; Ok (optionHtml #"Enum" s)
    else s ← join_values enum (lit "`, `"); Ok (optionHtml #"Enum" ([34] ++ s ++ [34]))
  else Ok [].

Definition primitiveToOptionsHTML (schema : value) (html : jstr) : res jstr :=
  t ← get schema #"type";
  type ← options_type schema;
  d ← get schema #"default";
  options ← rows [Ok (if is_undef d then [] else optionHtml #"Default" (to_string d)); type_rows schema type;
                  (if is_str #"array" t then array_rows schema else Ok []); enum_row schema type];
  Ok (match options with
      | [] => html
      | _ => lit "<span class=`propWrap`>" ++ html
               ++ lit "<table class=`optionsWrapper`><tr><th colspan=`2`>" ++ to_string type
               ++ lit "</th></tr>" ++ options ++ lit "</table></span>"
      end).

(** ** [processModel] *)

(** The elements of a tuple ... *)
Definition tuple_item (item : value) : html_m jstr :=
  t ← hget item #"type";
  let type := or_else t (VStr #"object") in
  ref ← hget item #"$ref";
  if is_undef ref then
    if is_str #"array" type || is_str #"object" type then
      properties ← hget item #"properties";
      if is_str #"object" type && is_undef properties then mret #"object"
      else to_string <$> addReference item VUndef
    else lift (primitiveToOptionsHTML item (to_string type))
  else s ← lift (simpleRef ref); to_string <$> addReference item (VStr s).

(** ... and of a list. *)
Definition list_item (items : value) : html_m jstr :=
  ref ← hget items #"$ref";
  t ← hget items #"type";
  if is_undef ref then
    let type := or_else t (VStr #"object") in
    if is_str #"array" type || is_str #"object" type then
      properties ← hget items #"properties";
      if (is_undef t || is_str #"object" t) && is_undef properties then mret #"object"
      else to_string <$> addReference items VUndef
    else lift (primitiveToOptionsHTML items (to_string t))
  else s ← lift (simpleRef ref); to_string <$> addReference items (VStr s).

(** The copy of a property with the default the macro gives, seen through
    nested schemas. Writing to a primitive throws; of an array nothing is read
    but the default. *)
Definition copied_property (property : value) : res value :=
  match property with
  | VObj o => resolveSchema (VObj (pset #"default" (macro property) o))
  | VArr _ => Ok (VObj [(#"default", macro property)])
  | _ => Throw TypeError
  end.

(** A reference to a model that is neither an array nor an object is replaced by
    the model's definition. *)
Definition through_primitive (cProperty : value) : res value :=
  ref ← get cProperty #"$ref";
  if is_undef ref then Ok cProperty else
  name ← simpleRef ref;
  match pget models name with
  | None => Ok cProperty
  | Some m =>
      t ← get (m_definition m) #"type";
      if is_undef t || is_str #"array" t || is_str #"object" t then Ok cProperty
      else resolveSchema (m_definition m)
  end.

Definition process_property (required : value) (name : jstr) (property : value) : html_m jstr :=
  let propertyIsRequired := index_in required (VStr name) in
  c ← lift (copied_property property);
  d1 ← hget property #"description";
  d2 ← hget c #"description";
  let propDescription := or_else d1 d2 in
  cProperty ← lift (through_primitive c);
  type ← primitiveToHTML cProperty;
  readOnly ← hget property #"readOnly";
  enum ← hget cProperty #"enum";
  values ← lift (if truthy enum then s ← join_values enum #"', '";
                   Ok (lit " = <span class=`propVals`>['" ++ s ++ lit "']</span>") else Ok []);
  let html := lit "<span class=`propName " ++ (if propertyIsRequired then #"required" else [])
    ++ lit "`>" ++ name ++ #"</span> (" ++ type
    ++ (if propertyIsRequired then [] else lit ", <span class=`propOptKey`>optional</span>")
    ++ (if truthy readOnly then lit ", <span class=`propReadOnly`>read only</span>" else [])
    ++ #")"
    ++ (if is_undef propDescription then []
        else lit ": <span class=`propDesc`>" ++ to_string propDescription ++ lit "</span>")
    ++ values in
  options ← lift (primitiveToOptionsHTML cProperty html);
  mret (#"<div" ++ (if truthy readOnly then lit " class=`readOnly`" else []) ++ #">" ++ options).

Definition process_array (items : value) : html_m jstr :=
  match items with
  | VArr l => s ← map_html tuple_item l; mret (#"<div>" ++ join #",</div><div>" s)
  | VObj _ => s ← list_item items; mret (#"<div>" ++ s ++ #"</div>")
  | _ => mret #"<div>object</div>"
  end.

Definition process_object (schema name : value) : html_m jstr :=
  t ← hget schema #"type";
  let type := or_else t (VStr #"object") in
  ref ← hget schema #"$ref";
  if truthy ref then s ← addReference schema name; mret (#"<div>" ++ to_string s ++ #"</div>")
  else if is_str #"object" type then
    properties ← hget schema #"properties";
    required ← hget schema #"required";
    match properties with
    | VObj o =>
        l ← map_html (λ '(k, p), process_property required k p) (enum o);
        match join #",</div>" l with
        | [] => mret []
        | contents => mret (contents ++ #"</div>")
        end
    | _ => mret []
    end
  else s ← lift (primitiveToOptionsHTML schema (to_string type)); mret (#"<div>" ++ s ++ #"</div>").

Definition see (name : value) : html_m unit := λ st,
  Ok (tt, {| references := references st; seenModels := seenModels st ++ [name]; inlineModels := inlineModels st |}).

Definition processModel (schema name : value) : html_m jstr :=
  t ← hget schema #"type";
  let isArray := is_str #"array" t in
  _ ← (if truthy name then see name else mret tt);
  body ← (if isArray then items ← hget schema #"items"; process_array items else process_object schema name);
  mret (strongOpen ++ to_string name ++ #" " ++ (if isArray then #"[" else #"{") ++ strongClose
        ++ body ++ strongOpen ++ (if isArray then #"]" else #"}") ++ strongClose).

(** ** [schemaToHTML] *)

(** One reference: taken off the list, and rendered unless it was seen. *)
Definition visit (html name : jstr) : html_m jstr := λ st,
  let schema := default VUndef (pget (references st) name) in
  let st' := {| references := pdel name (references st); seenModels := seenModels st;
                inlineModels := inlineModels st |} in
  if existsb (strict_eq (VStr name)) (seenModels st) then Ok (html, st')
  else (_ ← see (VStr name); s ← processModel schema (VStr name);
        mret (html ++ #"<br />" ++ s)) st'.

(** The loop over the references there are at its start. *)
Fixpoint visit_all (html : jstr) (names : list jstr) : html_m jstr :=
  match names with
  | [] => mret html
  | name :: names => html ← visit html name; visit_all html names
  end.

(** The [while] loop; [None] when it still runs after [n] rounds. *)
Fixpoint render (n : nat) (html : jstr) (st : hstate) : option (res (jstr * hstate)) :=
  match references st with
  | [] => Some (Ok (html, st))
  | _ =>
      match n with
      | O => None
      | S n =>
          match visit_all html (enum_keys (references st)) st with
          | Ok (html, st) => render n html st
          | Throw e => Some (Throw e)
          end
      end
  end.

(** What is rendered: the text of an early return, or the schema and the name. *)
Definition schema_start (name schema : value) : res (jstr + value * value) :=
  schema ← resolveSchema schema;
  if is_empty schema then Ok (inl (strongOpen ++ #"Empty" ++ strongClose)) else
  ref ← get schema #"$ref";
  match ref with
  | VStr _ =>
      name ← simpleRef ref;
      match pget models name with
      | None => Ok (inl (strongOpen ++ name ++ #" is not defined!" ++ strongClose))
      | Some m => Ok (inr (m_definition m, VStr name))
      end
  | _ =>
      title ← get schema #"title";
      definition ← get schema #"definition";
      Ok (inr (or_else definition schema,
               if is_string name then name else or_else title (VStr #"Inline Model")))
  end.

(** Called with a schema first, the name is left out. *)
Definition schemaToHTML (n : nat) (name schema : value) : option (res jstr) :=
  let '(name, schema) := if is_object name then (VUndef, name) else (name, schema) in
  match schema_start name schema with
  | Throw e => Some (Throw e)
  | Ok (inl html) => Some (Ok html)
  | Ok (inr (schema, name)) =>
      match processModel schema name {| references := []; seenModels := []; inlineModels := 0 |} with
      | Throw e => Some (Throw e)
      | Ok (html, st) => option_map (fmap fst) (render n html st)
      end
  end.

(** ** Effects of the inner functions *)

(** [size] counts the nodes of a value; [hsize] leaves out the default of a
    schema, which the macro sets and nothing enters. *)
Fixpoint size (v : value) : nat :=
  match v with
  | VArr l => S (sum_list_with size l)
  | VObj o => S (sum_list_with (λ p, size p.2) o)
  | _ => 1%nat
  end.

Definition hsize (v : value) : nat :=
  match v with
  | VObj o => S (sum_list_with (λ p, if streq p.1 #"default" then 0%nat else size p.2) o)
  | _ => size v
  end.

Lemma size_pos v : (1 <= size v)%nat.
Proof. destruct v; cbn; lia. Qed.
Lemma hsize_pos v : (1 <= hsize v)%nat.
Proof. destruct v; cbn; lia. Qed.

Lemma hsize_size v : (hsize v <= size v)%nat.
Proof.
  destruct v as [| | | | | | |o]; try done. cbn [hsize size]. apply le_n_S.
  induction o as [|[k x] o IH]; cbn; [done|]. case_if; lia.
Qed.

Lemma hsize_default o d : hsize (VObj (pset #"default" d o)) = hsize (VObj o).
Proof.
  cbn [hsize]. f_equal. induction o as [|[k x] o IH]; cbn [pset]; [done|].
  destruct (streq #"default" k) eqn:E; cbn [sum_list_with fst snd].
  - apply streq_spec in E as <-. by rewrite streq_refl.
  - by rewrite IH.
Qed.

(** Reading anything but the default of an object goes down. *)
Lemma get_size v k x :
  get v k = Ok x → k ≠ #"default" → k ≠ #"length" → canonical_index k = None →
  (size x < hsize v)%nat ∨ x = VUndef.
Proof.
  intros H Hd Hl Hc. destruct v as [| | | | | |l|o]; cbn [get] in H; try done;
    rewrite ?(proj2 (streq_neq k _) Hl) ?Hc in H; try (injection H as <-; by right).
  injection H as <-. destruct (pget o k) as [y|] eqn:E; [left|by right].
  apply pget_some_in in E. change (default VUndef (Some y)) with y. cbn [hsize].
  apply (sum_list_with_in _ (λ p : jstr * value, if streq p.1 #"default" then 0%nat else size p.2)) in E.
  cbn [fst snd] in E. rewrite (proj2 (streq_neq k _) Hd) in E. lia.
Qed.

(** Following nested schemas does not grow. *)
Lemma nested_schema_size v : (hsize (nested_schema v) <= hsize v)%nat.
Proof.
  induction v as [| | | | | |l _|o IH] using value_ind; try done. cbn [nested_schema].
  assert (∀ l, Forall (λ p, (hsize (nested_schema p.2) <= hsize p.2)%nat) l → l ⊆ o →
    let r := (fix find l := match l with
         | [] => VObj o
         | (k, x) :: l =>
             if streq #"schema" k then match x with VObj _ => nested_schema x | _ => VObj o end else find l
         end) l in (hsize r <= hsize (VObj o))%nat) as Hgo; [|by apply Hgo].
  clear IH. induction l as [|[k x] l IHl]; intros HF Hsub; [done|].
  apply Forall_cons in HF as [Hx HF]. cbn [snd] in Hx.
  destruct (streq #"schema" k) eqn:E; [|apply IHl; [done|set_solver]].
  apply streq_spec in E as <-. destruct x as [| | | | | | |o']; try done.
  assert ((#"schema", VObj o') ∈ o) as Hin by set_solver.
  apply (sum_list_with_in _ (λ p : jstr * value, if streq p.1 #"default" then 0%nat else size p.2)) in Hin.
  cbn [fst snd] in Hin. change (streq #"schema" #"default") with false in Hin. cbv iota in Hin.
  pose proof (hsize_size (VObj o')).
  change (hsize (VObj o)) with
    (S (sum_list_with (λ p : jstr * value, if streq p.1 #"default" then 0%nat else size p.2) o)). cbn [size hsize] in *. lia.
Qed.

Lemma resolveSchema_size v x : resolveSchema v = Ok x → (hsize x <= hsize v)%nat.
Proof. intros H. pose proof (nested_schema_size v). destruct v; try done; by injection H as <-. Qed.

(** Adding references to the list, in order. *)
Definition refer_all (l r : list (jstr * value)) : list (jstr * value) :=
  fold_left (λ r p, pset p.1 p.2 r) l r.

(** Where the schema of a reference comes from: it is the definition of the model of
    that name; or an inline schema under its title, or under a number where it has no
    title; or the empty schema, for a name no model has, for the position of an element
    of a tuple and for the empty name. *)
Inductive origin (name : jstr) : value → Prop :=
  | from_model m : pget models name = Some m → origin name (m_definition m)
  | from_inline d ref title : get d #"$ref" = Ok ref → truthy ref = false → get d #"title" = Ok title →
      (if truthy title then name = to_string title else ∃ n, name = #"Inline Model " ++ str_of_Z n) → origin name d
  | from_nothing : pget models name = None ∨ name = [] ∨ (∃ i, name = str_of_Z i) → origin name (VObj []).

(** The names [addReference] is called with, where the schema has no reference. *)
Definition named_well (schema name : value) : Prop :=
  ∀ ref, get schema #"$ref" = Ok ref → truthy ref = false →
    is_undef name = true ∨ to_string name = [] ∨ ∃ i, to_string name = str_of_Z i.

Lemma named_well_undef schema : named_well schema VUndef.
Proof. intros ref _ _. by left. Qed.

Lemma named_well_position schema i : named_well schema (VNum i).
Proof. intros ref _ _. right; right. by exists i. Qed.

Lemma named_well_ref schema ref name : get schema #"$ref" = Ok ref → simpleRef ref = Ok name → named_well schema (VStr name).
Proof.
  intros Hr Hs ref' Hr' Ht. rewrite Hr in Hr'. injection Hr' as <-. right; left.
  destruct ref as [| | | | |[|c r]| |]; try done. by injection Hs as <-.
Qed.

Lemma named_well_truthy schema name ref : get schema #"$ref" = Ok ref → truthy ref = true → named_well schema name.
Proof. intros Hr Ht ref' Hr' Ht'. congruence. Qed.

Section effects.
(** A weight of references; [adds m k]: a run of [m] adds references of
    total weight at most [k], each with a schema that has an origin, and sees no model. *)
Context (w : jstr → value → nat).

Definition total (l : list (jstr * value)) : nat := sum_list_with (λ p, w p.1 p.2) l.

Definition adds {A} (m : html_m A) (k : nat) : Prop :=
  ∀ st a st', m st = Ok (a, st') →
    ∃ l, references st' = refer_all l (references st) ∧ seenModels st' = seenModels st ∧ (total l <= k)%nat ∧
      Forall (λ p, origin p.1 p.2) l.

Lemma adds_weaken {A} (m : html_m A) j k : adds m j → (j <= k)%nat → adds m k.
Proof. intros H Hjk st a st' Hm. destruct (H _ _ _ Hm) as (l & ? & ? & ? & ?). exists l. split_and!; [done|done|lia|done]. Qed.

Lemma adds_ret {A} (a : A) : adds (mret a) 0.
Proof. intros st b st' H. injection H as <- <-. by exists []. Qed.

Lemma adds_bind {A B} (m : html_m A) (f : A → html_m B) j k :
  adds m j → (∀ st a st', m st = Ok (a, st') → adds (f a) k) → adds (m ≫= f) (j + k).
Proof.
  intros Hm Hf st b st' H. unfold mbind, html_bind in H. destruct (m st) as [[a st1]|] eqn:E; [|done].
  destruct (Hm _ _ _ E) as (l & Hr & Hs & Hl & Ho). destruct (Hf _ _ _ E _ _ _ H) as (l' & Hr' & Hs' & Hl' & Ho').
  exists (l ++ l'). unfold refer_all, total in *. rewrite fold_left_app -Hr sum_list_with_app.
  split_and!; [done|congruence|lia|by apply Forall_app].
Qed.

Lemma adds_fmap {A B} (f : A → B) m k : adds m k → adds (f <$> m) k.
Proof. intros H. eapply adds_weaken; [apply adds_bind; [done|intros; apply adds_ret]|lia]. Qed.

(** A step that keeps the state hands on what it found. *)
Lemma adds_lift {A B} (m : res A) (f : A → html_m B) k :
  (∀ a, m = Ok a → adds (f a) k) → adds (lift m ≫= f) k.
Proof.
  intros H st b st' E. unfold mbind, html_bind, lift in E. destruct m as [a|]; [|done]. by eapply H.
Qed.

Lemma adds_pure {A} (m : res A) : adds (lift m) 0.
Proof. intros st a st' H. unfold lift in H. destruct m; [|done]. injection H as <- <-. by exists []. Qed.

Lemma adds_map {A B} (f : A → html_m B) (g : A → nat) l :
  (∀ a, a ∈ l → adds (f a) (g a)) → adds (map_html f l) (sum_list_with g l).
Proof.
  induction l as [|a l IH]; intros Hf; [apply adds_ret|]. cbn [map_html sum_list_with].
  apply adds_bind; [apply Hf; by left|]. intros _ b _ _. eapply adds_weaken.
  - apply adds_bind; [apply IH; intros c Hc; apply Hf; by right|intros; apply adds_ret].
  - lia.
Qed.

(** The weights of interest: a schema weighs at most its size, the definition
    of a model at most one, and what a property refers to is light. *)
Hypothesis Hsize : ∀ n s, (w n s <= hsize s)%nat.
Hypothesis Hdef : ∀ n m, pget models n = Some m → (w n (m_definition m) <= 1)%nat.
Hypothesis Hprim : ∀ c x, through_primitive c = Ok x →
  x = c ∨ (∀ t, get x #"type" = Ok t → is_string t = true ∧ truthy t = true ∧
                is_str #"array" t = false ∧ is_str #"object" t = false) ∨ ∀ n s, w n s = 0%nat.

Lemma refer_adds name d : origin (to_string name) d → adds (refer name d) (w (to_string name) d).
Proof.
  intros Ho st a st' H. injection H as _ <-. exists [(to_string name, d)]. split_and!; [done|done| |by apply Forall_singleton].
  unfold total. cbn. lia.
Qed.

Lemma inline_name_adds title : adds (inline_name title) 0.
Proof.
  unfold inline_name. case_if; [apply adds_ret|]. apply (adds_bind _ _ 0 0); [|intros; apply adds_ret].
  intros st a st' H. injection H as _ <-. by exists [].
Qed.

Lemma named_model_adds schema name : adds (named_model schema name) 0.
Proof.
  unfold named_model, hget. apply adds_lift. intros ref _. apply adds_lift. intros title _. case_if.
  - apply adds_lift. intros. apply adds_ret.
  - case_if; [|apply adds_ret]. apply (adds_bind _ _ 0 0); [apply inline_name_adds|intros; apply adds_ret].
Qed.

Lemma named_model_weight schema name st n d st' :
  named_model schema name st = Ok (n, d, st') →
  (w (to_string n) (default (VObj []) d) <= if is_undef name then hsize schema else 1)%nat.
Proof.
  pose proof (hsize_pos schema) as Hpos. unfold named_model, hget, mbind, html_bind, lift.
  destruct (get schema #"$ref") as [ref|]; [|done]. destruct (get schema #"title") as [title|]; [|done].
  destruct (truthy ref).
  - destruct (if truthy title then _ else _) as [s|]; [|done]. intros [= <- <- <-].
    assert (w (to_string s) (default (VObj []) (m_definition <$> pget models (to_string s))) <= 1)%nat;
      [|case_if; lia].
    destruct (pget models (to_string s)) as [m|] eqn:E; [by apply Hdef|apply Hsize].
  - destruct (is_undef name).
    + destruct (inline_name title st) as [[s st1]|]; [|done]. intros [= <- <- <-]. apply Hsize.
    + intros [= <- <- <-]. apply Hsize.
Qed.

Lemma named_model_origin schema name st n d st' :
  named_well schema name → named_model schema name st = Ok (n, d, st') → origin (to_string n) (default (VObj []) d).
Proof.
  intros Hw. unfold named_model, hget, mbind, html_bind, lift.
  destruct (get schema #"$ref") as [ref|] eqn:Hr; [|done]. destruct (get schema #"title") as [title|] eqn:Ht; [|done].
  destruct (truthy ref) eqn:Tr.
  - destruct (if truthy title then _ else _) as [s|]; [|done]. intros [= <- <- <-].
    destruct (pget models (to_string s)) as [m|] eqn:E; [by apply from_model|apply from_nothing; by left].
  - destruct (is_undef name) eqn:U.
    + unfold inline_name. destruct (truthy title) eqn:Tt; intros [= <- <- <-];
        (eapply from_inline; [exact Hr|done|exact Ht|rewrite Tt]); cbn [to_string]; eauto.
    + intros [= <- <- <-]. destruct (Hw ref Hr Tr) as [?|Hn]; [congruence|]. apply from_nothing. by right.
Qed.

Lemma addReference_adds schema name :
  named_well schema name → adds (addReference schema name) (if is_undef name then hsize schema else 1)%nat.
Proof.
  intros Hw. apply (adds_bind _ _ 0); [apply named_model_adds|]. intros st [n d] st' E.
  pose proof (named_model_origin _ _ _ _ _ _ Hw E) as Ho.
  apply named_model_weight in E. eapply adds_weaken; [|exact E]. rewrite -(Nat.add_0_r (w _ _)).
  apply adds_bind; [by apply refer_adds|intros; apply adds_ret].
Qed.

Lemma reference_adds schema name : named_well schema name → adds (to_string <$> addReference schema name) (hsize schema).
Proof.
  intros Hw. apply adds_fmap. eapply adds_weaken; [by apply addReference_adds|]. pose proof (hsize_pos schema). case_if; lia.
Qed.

Lemma sum_list_ones {A} (l : list A) : sum_list_with (λ _, 1%nat) l = length l.
Proof. induction l; cbn; lia. Qed.
Lemma length_sizes l : (length l <= sum_list_with size l)%nat.
Proof. induction l as [|x l IH]; cbn; [done|]. pose proof (size_pos x). lia. Qed.

Lemma items_type_adds items : adds (items_type items) (size items).
Proof.
  pose proof (hsize_size items). destruct items as [| | | | | |l|o]; cbn [items_type];
    try (eapply adds_weaken; [apply adds_ret|lia]).
  - eapply adds_weaken.
    + apply (adds_bind _ _ (sum_list_with (λ _, 1%nat) (imap pair l)) 0); [|intros; apply adds_ret].
      apply adds_map. intros [i x] _. apply (addReference_adds x (VNum _)), named_well_position.
    + rewrite sum_list_ones length_imap. cbn [size]. pose proof (length_sizes l). lia.
  - unfold hget. apply adds_lift. intros ref Hr. apply adds_lift. intros type _. case_if.
    + case_if; [eapply adds_weaken; [apply adds_ret|lia]|]. eapply adds_weaken; [apply reference_adds, named_well_undef|lia].
    + apply adds_lift. intros s Hs. eapply adds_weaken; [apply reference_adds; by eapply named_well_ref|lia].
Qed.

Lemma primitiveToHTML_adds schema : adds (primitiveToHTML schema) (hsize schema).
Proof.
  unfold primitiveToHTML, hget. apply adds_lift. intros t _. apply adds_lift. intros ref Hr.
  rewrite -(Nat.add_0_r (hsize schema)). apply adds_bind; [|intros; apply adds_ret].
  case_if; [apply adds_lift; intros; apply reference_adds; by eapply named_well_ref|]. case_if.
  { apply adds_lift. intros p _. case_if; [apply reference_adds, named_well_undef|eapply adds_weaken; [apply adds_ret|lia]]. }
  case_if; [|eapply adds_weaken; [apply adds_ret|lia]].
  apply adds_lift. intros items Hi. apply get_size in Hi as [Hi| ->]; [| |done..].
  - eapply adds_weaken; [apply (adds_bind _ _ (size items) 0)|lia]; [apply items_type_adds|intros; apply adds_ret].
  - eapply adds_weaken; [apply (adds_bind _ _ 0 0)|lia]; intros; apply adds_ret.
Qed.

Lemma tuple_item_adds item : adds (tuple_item item) (size item).
Proof.
  eapply adds_weaken; [|apply hsize_size]. unfold tuple_item, hget.
  apply adds_lift. intros t _. apply adds_lift. intros ref Hr. case_if.
  - case_if; [|eapply adds_weaken; [apply adds_pure|lia]]. apply adds_lift. intros p _.
    case_if; [eapply adds_weaken; [apply adds_ret|lia]|apply reference_adds, named_well_undef].
  - apply adds_lift. intros. apply reference_adds. by eapply named_well_ref.
Qed.

Lemma list_item_adds items : adds (list_item items) (size items).
Proof.
  eapply adds_weaken; [|apply hsize_size]. unfold list_item, hget.
  apply adds_lift. intros ref Hr. apply adds_lift. intros t _. case_if.
  - case_if; [|eapply adds_weaken; [apply adds_pure|lia]]. apply adds_lift. intros p _.
    case_if; [eapply adds_weaken; [apply adds_ret|lia]|apply reference_adds, named_well_undef].
  - apply adds_lift. intros. apply reference_adds. by eapply named_well_ref.
Qed.

Lemma process_array_adds items : adds (process_array items) (size items).
Proof.
  destruct items as [| | | | | |l|o]; cbn [process_array]; try (eapply adds_weaken; [apply adds_ret|lia]).
  - eapply adds_weaken; [apply (adds_bind _ _ (sum_list_with size l) 0)|cbn; lia].
    + apply adds_map. intros. apply tuple_item_adds.
    + intros. apply adds_ret.
  - eapply adds_weaken; [apply (adds_bind _ _ (size (VObj o)) 0)|lia].
    + apply list_item_adds.
    + intros. apply adds_ret.
Qed.

Lemma copied_property_size property c : copied_property property = Ok c → (hsize c <= size property)%nat.
Proof.
  destruct property as [| | | | | |l|o]; try done; cbn [copied_property].
  - intros [= <-]. cbn [hsize sum_list_with fst]. rewrite streq_refl. cbn. lia.
  - intros H. apply resolveSchema_size in H. rewrite hsize_default in H. pose proof (hsize_size (VObj o)). lia.
Qed.

(** The type of a property adds no more than the property weighs. *)
Lemma property_type_adds c x : through_primitive c = Ok x → adds (primitiveToHTML x) (hsize c).
Proof.
  intros H. pose proof (hsize_pos c) as Hpos. destruct (Hprim _ _ H) as [->|[Ht|Hz]]; [apply primitiveToHTML_adds| |].
  - unfold primitiveToHTML, hget. apply adds_lift. intros t Et. destruct (Ht t Et) as (_ & T & A & O).
    apply adds_lift. intros ref Hr. unfold or_else. rewrite T A O.
    rewrite -(Nat.add_0_r (hsize c)). apply adds_bind; [|intros; apply adds_ret].
    case_if; [|eapply adds_weaken; [apply adds_ret|lia]]. apply adds_lift. intros s Hs.
    apply adds_fmap. eapply adds_weaken; [apply (addReference_adds x (VStr s)); by eapply named_well_ref|cbn; lia].
  - intros st a st' E. apply primitiveToHTML_adds in E as (l & ? & ? & _ & ?). exists l. split_and!; [done|done| |done].
    enough (total l = 0%nat) by lia. unfold total. clear -Hz.
    induction l as [|p l IH]; [done|]. cbn. by rewrite Hz IH.
Qed.

Lemma process_property_adds required name property :
  adds (process_property required name property) (size property).
Proof.
  unfold process_property, hget. apply adds_lift. intros c Hc. apply copied_property_size in Hc.
  eapply adds_weaken; [|exact Hc]. do 2 (apply adds_lift; intros ? _). apply adds_lift. intros x Hx.
  rewrite -(Nat.add_0_r (hsize c)). apply adds_bind; [by apply property_type_adds|]. intros _ type _ _.
  do 4 (apply adds_lift; intros ? _). apply adds_ret.
Qed.

Lemma process_object_adds schema name :
  is_undef name = false → adds (process_object schema name) (hsize schema - 1).
Proof.
  intros Hn. unfold process_object, hget. apply adds_lift. intros t _. apply adds_lift. intros ref Hr. case_if.
  { pose proof (addReference_adds schema name ltac:(by eapply named_well_truthy)) as Ha. rewrite Hn in Ha.
    apply get_size in Hr as [Hr| ->]; [|done..]. pose proof (size_pos ref).
    eapply adds_weaken; [apply (adds_bind _ _ 1 0); [done|intros; apply adds_ret]|lia]. }
  case_if; [|apply adds_lift; intros ? _; eapply adds_weaken; [apply adds_ret|lia]].
  apply adds_lift. intros p Hp. apply adds_lift. intros required _.
  destruct p as [| | | | | | |o]; try (eapply adds_weaken; [apply adds_ret|lia]).
  apply get_size in Hp as [Hp|Hp]; [|done..].
  apply (adds_weaken _ (sum_list_with (λ p, size p.2) (enum o) + 0)).
  - apply adds_bind.
    + apply (adds_map _ (λ p, size p.2)). intros [k p] _. apply process_property_adds.
    + intros _ l _ _. destruct (join _ l); apply adds_ret.
  - rewrite (enum_perm o). cbn [size] in Hp. lia.
Qed.

(** A run of [processModel] sees the model and adds references that weigh less
    than its schema. *)
Lemma processModel_adds schema name st html st' :
  is_undef name = false → processModel schema name st = Ok (html, st') →
  ∃ l, references st' = refer_all l (references st) ∧
    seenModels st' = seenModels st ++ (if truthy name then [name] else []) ∧ (total l < hsize schema)%nat ∧
    Forall (λ p, origin p.1 p.2) l.
Proof.
  intros Hn H. pose proof (hsize_pos schema). unfold processModel, hget, mbind, html_bind, lift in H.
  destruct (get schema #"type") as [t|]; [|done].
  set (st1 := {| references := references st;
                 seenModels := seenModels st ++ (if truthy name then [name] else []);
                 inlineModels := inlineModels st |}).
  assert ((if truthy name then see name else mret tt) st = Ok (tt, st1)) as E.
  { unfold st1. destruct (truthy name); [done|]. rewrite app_nil_r. by destruct st. }
  rewrite E in H.
  assert (∀ m : html_m jstr, adds m (hsize schema - 1) → ∀ b st2, m st1 = Ok (b, st2) →
    ∃ l, references st2 = refer_all l (references st) ∧
      seenModels st2 = seenModels st ++ (if truthy name then [name] else []) ∧ (total l < hsize schema)%nat ∧
      Forall (λ p, origin p.1 p.2) l) as Hm.
  { intros m Hm b st2 Hb. destruct (Hm _ _ _ Hb) as (l & Hr & Hs & Hl & Ho). exists l. split_and!; [done|done|lia|done]. }
  destruct (is_str #"array" t).
  - destruct (get schema #"items") as [items|] eqn:Hi; [|done].
    destruct (process_array items st1) as [[b st2]|] eqn:Hb; [|done]. injection H as _ <-.
    eapply Hm; [|exact Hb]. apply get_size in Hi as [Hi| ->]; [| |done..].
    + eapply adds_weaken; [apply process_array_adds|lia].
    + eapply adds_weaken; [apply adds_ret|lia].
  - destruct (process_object schema name st1) as [[b st2]|] eqn:Hb; [|done]. injection H as _ <-.
    eapply Hm; [|exact Hb]. by apply process_object_adds.
Qed.
End effects.

(** ** The loop over the references *)

Definition seen (st : hstate) (name : jstr) : bool := existsb (strict_eq (VStr name)) (seenModels st).

Lemma strict_eq_str name v : strict_eq (VStr name) v = true ↔ v = VStr name.
Proof. destruct v; cbn; rewrite ?streq_spec; naive_solver. Qed.

Lemma seen_spec st name : seen st name = true ↔ VStr name ∈ seenModels st.
Proof.
  unfold seen. rewrite existsb_exists. setoid_rewrite strict_eq_str. split.
  - by intros (v & Hv & ->)%(λ H, H); apply list_elem_of_In.
  - intros H. exists (VStr name). by rewrite -list_elem_of_In.
Qed.

(** The effect of a turn of the loop on the models seen and the references. *)
Lemma visit_ok w html name st html' st' :
  (∀ n s, (w n s <= hsize s)%nat) →
  (∀ n m, pget models n = Some m → (w n (m_definition m) <= 1)%nat) →
  (∀ c x, through_primitive c = Ok x →
    x = c ∨ (∀ t, get x #"type" = Ok t → is_string t = true ∧ truthy t = true ∧
                  is_str #"array" t = false ∧ is_str #"object" t = false) ∨ ∀ n s, w n s = 0%nat) →
  visit html name st = Ok (html', st') →
  seen st name = true ∧ html' = html ∧ references st' = pdel name (references st) ∧
    seenModels st' = seenModels st ∨
  ∃ schema pre s l, seen st name = false ∧ pget (references st) name = Some schema ∧
    processModel schema (VStr name) pre = Ok (s, st') ∧ html' = html ++ #"<br />" ++ s ∧
    (∃ t, seenModels st' = seenModels st ++ VStr name :: t ∧ ∀ v, v ∈ t → v = VStr name) ∧
    references st' = refer_all l (pdel name (references st)) ∧ (total w l < hsize schema)%nat ∧ Forall (λ p, origin p.1 p.2) l.
Proof.
  intros Hs Hd Hp H. unfold visit in H. fold (seen st name) in H. destruct (seen st name).
  { injection H as <- <-. by left. }
  right. unfold mbind at 1, html_bind at 1, see at 1 in H. cbn [references seenModels inlineModels] in H.
  set (st1 := {| references := _ |}) in H. unfold mbind, html_bind in H.
  destruct (processModel _ (VStr name) st1) as [[s st2]|] eqn:E; [|done]. injection H as <- <-.
  destruct (pget (references st) name) as [schema|] eqn:Hg; [|done].
  change (default VUndef (Some schema)) with schema in E. eapply processModel_adds in E as E'; [|done..].
  destruct E' as (l & Hr & Hs' & Hl & Ho). exists schema, st1, s, l. split_and!; try done.
  exists (if truthy (VStr name) then [VStr name] else []). rewrite Hs' -app_assoc. split; [done|].
  intros v Hv. destruct (truthy _); set_solver.
Qed.

Lemma pdel_absent {V} k (o : list (jstr * V)) : k ∉ o.*1 → pdel k o = o.
Proof.
  intros H. unfold pdel. induction o as [|[a b] o IH]; [done|]. rewrite filter_cons.
  rewrite decide_True; [|set_solver]. f_equal. apply IH. set_solver.
Qed.

Lemma pdel_keys {V} k (o : list (jstr * V)) k' : k' ∈ o.*1 → k' = k ∨ k' ∈ (pdel k o).*1.
Proof.
  unfold pdel. induction o as [|[a b] o IH]; [set_solver|]. rewrite filter_cons. intros H.
  apply elem_of_cons in H as [->|H]; case_decide; set_solver.
Qed.

Lemma refer_all_keys l r k : k ∈ r.*1 → k ∈ (refer_all l r).*1.
Proof.
  revert r. induction l as [|p l IH]; intros r H; [done|]. apply (IH (pset p.1 p.2 r)). apply pset_in. by right.
Qed.

(** *** Termination *)

(** The definition of a model is a schema whose type, if any, is a name: nothing
    else makes the renderer go through a primitive into another schema. *)
Definition plain_model (m : model) : Prop :=
  nested_schema (m_definition m) = m_definition m ∧
  ∀ t, get (m_definition m) #"type" = Ok t → is_undef t = true ∨ is_string t = true ∧ truthy t = true.

Definition weight (name : jstr) (schema : value) : nat :=
  match pget models name with Some _ => 1 | None => hsize schema end.

(** The models not seen yet and the weight of the references. *)
Definition unseen (st : hstate) : nat :=
  length (List.filter (λ p : jstr * model, negb (seen st p.1)) models).
Definition pending (st : hstate) : nat := total weight (references st).

Lemma reference_weight_pos name schema : (1 <= weight name schema)%nat.
Proof. unfold weight. destruct (pget models name); [done|apply hsize_pos]. Qed.

Lemma total_pset w k v r : (total w (pset k v r) <= total w r + w k v)%nat.
Proof.
  unfold total. induction r as [|[a b] r IH]; cbn [pset]; [cbn; lia|].
  destruct (streq k a) eqn:E; cbn in *; [apply streq_spec in E as <-|]; lia.
Qed.

Lemma total_refer_all w l r : (total w (refer_all l r) <= total w r + total w l)%nat.
Proof.
  revert r. induction l as [|[k v] l IH]; intros r; [unfold total; cbn; lia|].
  change (refer_all ((k, v) :: l) r) with (refer_all l (pset k v r)).
  specialize (IH (pset k v r)). pose proof (total_pset w k v r).
  change (total w ((k, v) :: l)) with (w k v + total w l)%nat. lia.
Qed.

Lemma total_pdel w k r : (total w (pdel k r) <= total w r)%nat.
Proof.
  unfold total, pdel. induction r as [|[a b] r IH]; [done|]. rewrite filter_cons. case_decide; cbn in *; lia.
Qed.

Lemma total_pdel_in w k v r : pget r k = Some v → (total w (pdel k r) + w k v <= total w r)%nat.
Proof.
  pose proof (total_pdel w k) as Hle. unfold total, pdel in *.
  induction r as [|[a b] r IH]; [done|]. cbn [pget]. rewrite filter_cons.
  destruct (streq k a) eqn:E; intros H; case_decide as D; cbn in *; str_eqs; try done.
  - injection H as ->. subst. specialize (Hle r). lia.
  - specialize (IH H). lia.
Qed.

(** Progress of the loop: a model is seen, or none and the references get
    lighter. *)
Definition advanced (st st' : hstate) : Prop :=
  (unseen st' < unseen st)%nat ∨ unseen st' = unseen st ∧ (pending st' < pending st)%nat.

Lemma filter_le {A} (f g : A → bool) l :
  (∀ x, f x = true → g x = true) → (length (List.filter f l) <= length (List.filter g l))%nat.
Proof.
  intros H. induction l as [|x l IH]; [done|]. cbn. specialize (H x).
  destruct (f x), (g x); cbn; lia.
Qed.

Lemma unseen_mono st st' : (∀ n, seen st n = true → seen st' n = true) → (unseen st' <= unseen st)%nat.
Proof.
  intros H. apply filter_le. intros p Hp. apply negb_true_iff in Hp. apply negb_true_iff.
  destruct (seen st p.1) eqn:E; [|done]. apply H in E. congruence.
Qed.

Lemma unseen_new st st' n m :
  (∀ n, seen st n = true → seen st' n = true) → pget models n = Some m →
  seen st n = false → seen st' n = true → (unseen st' < unseen st)%nat.
Proof.
  intros H Hm Hn Hn'. apply pget_some_in in Hm. unfold unseen.
  apply list_elem_of_split in Hm as (a & b & ->). rewrite !List.filter_app !length_app.
  cbn [List.filter fst]. rewrite Hn Hn'. cbn [negb length].
  assert (∀ l : list (jstr * model), (length (List.filter (λ p, negb (seen st' p.1)) l)
    <= length (List.filter (λ p, negb (seen st p.1)) l))%nat) as Hle.
  { intros l. apply filter_le. intros p Hp. apply negb_true_iff in Hp. apply negb_true_iff.
    destruct (seen st p.1) eqn:E; [|done]. apply H in E. congruence. }
  pose proof (Hle a). pose proof (Hle b). lia.
Qed.

Section terminates.
Hypothesis Hmodels : ∀ n m, pget models n = Some m → plain_model m.

Lemma plain_primitive c x : through_primitive c = Ok x →
  x = c ∨ (∀ t, get x #"type" = Ok t → is_string t = true ∧ truthy t = true ∧
                is_str #"array" t = false ∧ is_str #"object" t = false) ∨ ∀ n s, weight n s = 0%nat.
Proof.
  unfold through_primitive. intros H. apply bind_Ok in H as (ref & _ & H). case_if; [left; by injection H|].
  apply bind_Ok in H as (name & _ & H). destruct (pget models name) as [m|] eqn:Hm; [|left; by injection H].
  apply bind_Ok in H as (t & Ht & H).
  destruct (is_undef t || is_str #"array" t || is_str #"object" t) eqn:E; [left; by injection H|].
  right. left. destruct (Hmodels _ _ Hm) as [Hn Htype].
  assert (x = m_definition m) as ->.
  { rewrite -Hn. destruct (m_definition m); try done; by injection H. }
  apply orb_false_iff in E as [E O]. apply orb_false_iff in E as [U A].
  intros t' Ht'. rewrite Ht in Ht'. injection Ht' as <-. destruct (Htype t Ht) as [HU|[S T]]; [congruence|].
  by rewrite A O.
Qed.

Lemma visit_advances html name st html' st' :
  visit html name st = Ok (html', st') →
  (st' = st ∨ advanced st st') ∧ (is_Some (pget (references st) name) → advanced st st').
Proof.
  intros H.
  assert (∀ n s, (weight n s <= hsize s)%nat) as Hs.
  { intros n s. unfold weight. destruct (pget models n); [apply hsize_pos|done]. }
  assert (∀ n m, pget models n = Some m → (weight n (m_definition m) <= 1)%nat) as Hd.
  { intros n m Hm. unfold weight. by rewrite Hm. }
  assert (is_Some (pget (references st) name) → advanced st st') as Hadv.
  { apply (visit_ok weight) in H as [(Sn & _ & Hr & Hseen)|H]; [..|done|done|apply plain_primitive].
    - intros [schema Hg]. right. split; [unfold unseen, seen; by rewrite Hseen|].
      unfold pending. rewrite Hr. apply (total_pdel_in weight) in Hg. pose proof (reference_weight_pos name schema). lia.
    - intros _. destruct H as (schema & pre & s & l & Sn & Hg & _ & _ & (t & Hseen & _) & Hr & Hl).
      assert (∀ n, seen st n = true → seen st' n = true) as Hmono.
      { intros n. rewrite !seen_spec Hseen. set_solver. }
      assert (seen st' name = true) as Sn' by (rewrite seen_spec Hseen; set_solver).
      destruct (pget models name) as [m|] eqn:Hm; [left; by eapply unseen_new|].
      pose proof (unseen_mono _ _ Hmono). destruct (decide (unseen st' = unseen st)); [right|left; lia].
      split; [done|]. unfold pending. rewrite Hr. pose proof (total_refer_all weight l (pdel name (references st))).
      apply (total_pdel_in weight) in Hg. unfold weight at 2 in Hg. rewrite Hm in Hg. lia. }
  split; [|done]. destruct (pget (references st) name) as [schema|] eqn:Hg; [right; eauto|left].
  clear -H Hg. unfold visit in H. rewrite Hg in H. fold (seen st name) in H. destruct (seen st name); [|done].
  injection H as _ <-. rewrite pdel_absent; [by destruct st|]. by apply pget_none.
Qed.

Lemma advanced_trans a b c : (b = a ∨ advanced a b) → (c = b ∨ advanced b c) → c = a ∨ advanced a c.
Proof. intros [->|H1] [->|H2]; try tauto. right. unfold advanced in *. lia. Qed.

Lemma visit_all_advances names : ∀ html st html' st',
  visit_all html names st = Ok (html', st') →
  (st' = st ∨ advanced st st') ∧
  (∀ n names', names = n :: names' → is_Some (pget (references st) n) → advanced st st').
Proof.
  induction names as [|n names IH]; intros html st html' st' H.
  - injection H as _ <-. split; [by left|done].
  - cbn [visit_all] in H. unfold mbind, html_bind in H. destruct (visit html n st) as [[h st1]|] eqn:E; [|done].
    apply visit_advances in E as [E1 E2]. apply IH in H as [H _].
    split; [by eapply advanced_trans|]. intros ? ? [= <- <-] Hg. specialize (E2 Hg).
    destruct H as [->|H]; [done|]. unfold advanced in *. lia.
Qed.

Lemma render_terminates st html : ∃ n r, render n html st = Some r.
Proof.
  remember (unseen st) as u eqn:Hu. revert st html Hu.
  induction u as [u IHu] using lt_wf_ind. intros st.
  remember (pending st) as p eqn:Hp. revert st Hp.
  induction p as [p IHp] using lt_wf_ind. intros st Hp html Hu.
  destruct (references st) as [|q r] eqn:Hr; [exists 0%nat; cbn; rewrite Hr; eauto|].
  destruct (visit_all html (enum_keys (references st)) st) as [[html' st']|e] eqn:E.
  - assert (advanced st st') as Ha.
    { destruct (enum_keys (references st)) as [|n names] eqn:En.
      - apply (f_equal length) in En. unfold enum_keys in En. rewrite length_map (enum_perm (references st)) Hr in En. done.
      - apply visit_all_advances in E as [_ E]. eapply E; [done|].
        destruct (pget (references st) n) eqn:Hn; [eauto|]. apply pget_none in Hn. exfalso. apply Hn.
        assert (n ∈ (enum (references st)).*1) as Hin by (fold (enum_keys (references st)); rewrite En; by left).
        by rewrite enum_perm in Hin. }
    destruct Ha as [Ha|[Ha Hb]].
    + destruct (IHu (unseen st') ltac:(lia) st' html' eq_refl) as (n & x & Hx).
      exists (S n), x. cbn [render]. by rewrite Hr -Hr E.
    + destruct (IHp (pending st') ltac:(lia) st' eq_refl html' ltac:(lia)) as (n & x & Hx).
      exists (S n), x. cbn [render]. by rewrite Hr -Hr E.
  - exists 1%nat, (Throw e). cbn [render]. by rewrite Hr -Hr E.
Qed.
End terminates.

Lemma render_more n m html st r : (n <= m)%nat → render n html st = Some r → render m html st = Some r.
Proof.
  revert m html st. induction n as [|n IH]; intros [|m] html st Hm H; cbn [render] in *; [done| |lia|].
  - destruct (references st); done.
  - destruct (references st) as [|q l]; [done|]. destruct (visit_all _ _ _) as [[h s]|]; [|done]. apply IH; [lia|done].
Qed.

(** (C11) The rendering of a schema ends when every model is plain, however the models
    and the inline schemas refer to each other. *)
Theorem schemaToHTML_terminates name schema :
  (∀ n m, pget models n = Some m → plain_model m) →
  ∃ k r, ∀ n, (k <= n)%nat → schemaToHTML n name schema = Some r.
Proof.
  intros Hm. unfold schemaToHTML. destruct (if is_object name then _ else _) as [name' schema'].
  destruct (schema_start name' schema') as [[html|[d t]]|e]; [by exists 0%nat, (Ok html)| |by exists 0%nat, (Throw e)].
  destruct (processModel d t _) as [[html st]|e]; [|by exists 0%nat, (Throw e)].
  destruct (render_terminates Hm st html) as (k & r & Hr). exists k, (fst <$> r).
  intros n Hn. by rewrite (render_more _ _ _ _ _ Hn Hr).
Qed.

(** *** What is rendered *)

(** A model rendered after the first one: its name, its text, and the names on
    the list of references after its rendering. *)
Record part := { part_name : jstr; part_html : jstr; part_refs : list jstr }.

(** A name is accounted for when it is on the list or seen. *)
Definition known (st : hstate) (k : jstr) : Prop := k ∈ (references st).*1 ∨ VStr k ∈ seenModels st.

(** Every reference on the list has a schema with an origin. *)
Definition sourced (l : list (jstr * value)) : Prop := Forall (λ p, origin p.1 p.2) l.

Lemma sourced_refer_all l r : sourced l → sourced r → sourced (refer_all l r).
Proof.
  intros Hl. revert r. induction Hl as [|[k d] l Hk Hl IH]; intros r Hr; [done|]. apply IH. cbn [fst snd] in *.
  induction Hr as [|[k' d'] r Hk' Hr IHr]; cbn [pset]; [by repeat constructor|]. destruct (streq k k') eqn:E; constructor; try done.
  cbn in *. by apply streq_spec in E as <-.
Qed.

Lemma sourced_pdel k r : sourced r → sourced (pdel k r).
Proof. unfold sourced. rewrite !Forall_forall. intros H p Hp. apply H. unfold pdel in Hp. by apply list_elem_of_filter in Hp as [_ Hp]. Qed.

(** A run that renders [parts]. *)
Record ran (html : jstr) (st : hstate) (html' : jstr) (st' : hstate) (parts : list part) : Prop := {
  ran_html : html' = html ++ concat (map (λ p, #"<br />" ++ part_html p) parts);
  ran_nodup : NoDup (map part_name parts);
  ran_new : ∀ p, p ∈ parts → VStr (part_name p) ∉ seenModels st;
  ran_made : ∀ p, p ∈ parts → ∃ schema pre post,
    origin (part_name p) schema ∧ processModel schema (VStr (part_name p)) pre = Ok (part_html p, post) ∧
    part_refs p = (references post).*1 ∧ ∀ k, k ∈ part_refs p → known st' k;
  ran_seen : ∀ v, v ∈ seenModels st' ↔ v ∈ seenModels st ∨ v ∈ map (λ p, VStr (part_name p)) parts;
  ran_known : ∀ k, known st k → known st' k;
  ran_sourced : sourced (references st');
}.

Lemma ran_refl html st : sourced (references st) → ran html st html st [].
Proof. intros Hs. split; try done; [by rewrite app_nil_r|constructor|set_solver..]. Qed.

Lemma ran_trans html st html1 st1 html2 st2 l1 l2 :
  ran html st html1 st1 l1 → ran html1 st1 html2 st2 l2 → ran html st html2 st2 (l1 ++ l2).
Proof.
  intros [-> N1 W1 M1 S1 K1 _] [-> N2 W2 M2 S2 K2 R2]. split; [..|done].
  - by rewrite map_app concat_app app_assoc.
  - rewrite map_app. apply NoDup_app. split_and!; [done| |done].
    intros x Hx1 Hx2. apply list_elem_of_fmap in Hx1 as (p & -> & Hp). apply list_elem_of_fmap in Hx2 as (q & E & Hq).
    apply (W2 q Hq). rewrite -E. apply S1. right. apply list_elem_of_fmap. eauto.
  - intros p Hp. apply elem_of_app in Hp as [Hp|Hp]; [by apply W1|]. intros H. apply (W2 p Hp), S1. by left.
  - intros p Hp. apply elem_of_app in Hp as [Hp|Hp]; [|by apply M2].
    destruct (M1 p Hp) as (s & a & b & H0 & H1 & H2 & H3). exists s, a, b. eauto 10.
  - intros v. rewrite S2 S1 map_app elem_of_app. tauto.
  - auto.
Qed.

Lemma visit_ran html name st html' st' :
  sourced (references st) → visit html name st = Ok (html', st') → ∃ parts, ran html st html' st' parts.
Proof.
  intros Hsrc H. apply (visit_ok (λ _ _, 0%nat)) in H as [(Sn & -> & Hr & Hs)|H]; [| |intros; lia|intros; lia|auto].
  - exists []. split; [by rewrite app_nil_r|apply NoDup_nil_2|set_solver|set_solver|rewrite Hs; set_solver| |rewrite Hr; by apply sourced_pdel].
    intros k [Hk|Hk]; [|right; by rewrite Hs]. unfold known. rewrite Hr Hs.
    destruct (pdel_keys name _ _ Hk) as [->|?]; [right; by apply seen_spec|by left].
  - destruct H as (schema & pre & s & l & Sn & Hg & Hp & -> & (t & Hs & Ht) & Hr & _ & Ho).
    exists [{| part_name := name; part_html := s; part_refs := (references st').*1 |}].
    split; [..|rewrite Hr; apply sourced_refer_all; [done|by apply sourced_pdel]].
    + cbn. by rewrite app_nil_r.
    + apply NoDup_singleton.
    + intros p Hp'. apply list_elem_of_singleton in Hp' as ->. cbn. rewrite -seen_spec. congruence.
    + intros p Hp'. apply list_elem_of_singleton in Hp' as ->. exists schema, pre, st'. cbn.
      split_and!; [|done|done|intros k Hk; by left]. apply pget_some_in in Hg. unfold sourced in Hsrc. rewrite Forall_forall in Hsrc. by apply (Hsrc (name, schema)).
    + intros v. rewrite Hs. cbn. rewrite elem_of_app elem_of_cons list_elem_of_singleton. naive_solver.
    + intros k Hk. unfold known. rewrite Hs. destruct Hk as [Hk|Hk]; [|right; set_solver].
      destruct (pdel_keys name _ _ Hk) as [->|Hk']; [right; set_solver|left]. rewrite Hr. by apply refer_all_keys.
Qed.

Lemma visit_all_ran names : ∀ html st html' st',
  sourced (references st) → visit_all html names st = Ok (html', st') → ∃ parts, ran html st html' st' parts.
Proof.
  induction names as [|n names IH]; intros html st html' st' Hs H.
  - injection H as <- <-. exists []. by apply ran_refl.
  - cbn [visit_all] in H. unfold mbind, html_bind in H. destruct (visit html n st) as [[h st1]|] eqn:E; [|done].
    apply visit_ran in E as [l1 H1]; [|done]. apply IH in H as [l2 H2]; [|apply H1]. eexists. by eapply ran_trans.
Qed.

Lemma render_ran n : ∀ html st html' st',
  sourced (references st) → render n html st = Some (Ok (html', st')) → references st' = [] ∧ ∃ parts, ran html st html' st' parts.
Proof.
  induction n as [|n IH]; intros html st html' st' Hs H; cbn [render] in H;
    destruct (references st) as [|q l] eqn:Hr; try done.
  - injection H as <- <-. split; [done|]. exists []. apply ran_refl. by rewrite Hr.
  - injection H as <- <-. split; [done|]. exists []. apply ran_refl. by rewrite Hr.
  - rewrite -Hr in H. destruct (visit_all _ _ st) as [[h st1]|] eqn:E; [|done].
    apply visit_all_ran in E as [l1 H1]; [|by rewrite Hr]. apply IH in H as [? [l2 H2]]; [|apply H1]. split; [done|]. eexists. by eapply ran_trans.
Qed.

(** (C12) The text of a named schema is the text of its model followed by one part for
    each model that is mentioned, directly or in another part: no model has two
    parts, the first one has none, and every mentioned name has its part. A part is the
    text of the schema its name stands for: the definition of the model of that name, an
    inline schema under its title or number, or, only where there is no such model, for
    the position of an element of a tuple and for the empty name, the empty schema. *)
Theorem schemaToHTML_complete n name schema d t html :
  is_object name = false → schema_start name schema = Ok (inr (d, VStr t)) → t ≠ [] →
  schemaToHTML n name schema = Some (Ok html) →
  ∃ first st parts,
    processModel d (VStr t) {| references := []; seenModels := []; inlineModels := 0 |} = Ok (first, st) ∧
    html = first ++ concat (map (λ p, #"<br />" ++ part_html p) parts) ∧
    NoDup (t :: map part_name parts) ∧
    (∀ k, k ∈ (references st).*1 → k ∈ t :: map part_name parts) ∧
    ∀ p, p ∈ parts →
      (∃ s pre post, origin (part_name p) s ∧ processModel s (VStr (part_name p)) pre = Ok (part_html p, post) ∧
                     part_refs p = (references post).*1) ∧
      ∀ k, k ∈ part_refs p → k ∈ t :: map part_name parts.
Proof.
  intros Ho Hs Ht H. unfold schemaToHTML in H. rewrite Ho Hs in H.
  destruct (processModel d (VStr t) _) as [[first st]|] eqn:E; [|done].
  destruct (render n first st) as [[[h st']|]|] eqn:Hr; try done. injection H as ->.
  apply (processModel_adds (λ _ _, 0%nat)) in E as E'; [|intros; lia|intros; lia|auto|done].
  destruct E' as (l & Hrefs & Hseen & _ & Hsrc).
  apply render_ran in Hr as (Hnil & parts & [Hh N W M S K _]); [|rewrite Hrefs; apply sourced_refer_all; [done|constructor]].
  exists first, st, parts. cbn [seenModels app] in Hseen.
  assert (seenModels st = [VStr t]) as Hst. { rewrite Hseen. by destruct t. } clear Hseen.
  assert (∀ k, known st' k → k ∈ t :: map part_name parts) as Hknown.
  { intros k [Hk|Hk]; [rewrite Hnil in Hk; by apply not_elem_of_nil in Hk|].
    apply S in Hk. rewrite Hst list_elem_of_singleton in Hk. destruct Hk as [[= ->]|Hk]; [by left|right].
    apply list_elem_of_fmap in Hk as (p & [= ->] & Hp). apply list_elem_of_fmap. eauto. }
  split_and!; [done|done| | |].
  - apply NoDup_cons. split; [|done]. intros Hin. apply list_elem_of_fmap in Hin as (p & E' & Hp).
    apply (W p Hp). rewrite Hst E'. by left.
  - intros k Hk. apply Hknown, K. by left.
  - intros p Hp. destruct (M p Hp) as (s & pre & post & H0 & H1 & H2 & H3). split; [eauto 10|]. auto.
Qed.
End html.

(** [Model.prototype.getMockSignature] *)
Definition getMockSignature (models : list (jstr * model)) (macro : value → value) (n : nat) (m : model)
    : option (res jstr) :=
  schemaToHTML models macro n (VStr (m_name m)) (m_definition m).

(** ** Examples *)

Definition pet_models : list (jstr * model) :=
  let ref s := VObj [(#"$ref", VStr s)] in
  let m name d := (name, {| m_name := name; m_definition := d; m_type := VUndef |}) in
  [m #"Pet" (VObj [(#"properties", VObj [(#"name", VObj [(#"type", VStr #"string")]);
                                         (#"tags", ref #"#/definitions/Tags");
                                         (#"owner", VObj [(#"properties", VObj [(#"pet", ref #"#/definitions/Pet")])])])]);
   m #"Tags" (VObj [(#"type", VStr #"array"); (#"items", ref #"#/definitions/Pet")])].

Definition pet_schema : value := VObj [(#"$ref", VStr #"#/definitions/Pet")].

Lemma pet_models_plain n m : pget pet_models n = Some m → plain_model m.
Proof.
  intros H. apply pget_some_in in H. unfold pet_models in H.
  repeat (apply elem_of_cons in H as [H|H]; [injection H as _ ->; split; [reflexivity|]|]);
    [| |by apply not_elem_of_nil in H]; cbn [m_definition]; intros t [= <-]; vm_compute; auto.
Qed.

Lemma schemaToHTML_terminates_witness :
  ∃ k r, ∀ n, (k <= n)%nat → schemaToHTML pet_models default_macro n VUndef pet_schema = Some r.
Proof. apply (schemaToHTML_terminates pet_models default_macro VUndef pet_schema). apply pet_models_plain. Defined.

Lemma schemaToHTML_complete_witness :
  ∃ html first st parts,
    schemaToHTML pet_models default_macro 3 VUndef pet_schema = Some (Ok html) ∧
    processModel pet_models default_macro (m_definition (default {| m_name := []; m_definition := VUndef; m_type := VUndef |}
        (pget pet_models #"Pet"))) (VStr #"Pet") {| references := []; seenModels := []; inlineModels := 0 |} = Ok (first, st) ∧
    html = first ++ concat (map (λ p, #"<br />" ++ part_html p) parts) ∧
    NoDup (#"Pet" :: map part_name parts) ∧
    (∀ k, k ∈ (references st).*1 → k ∈ #"Pet" :: map part_name parts) ∧
    ∀ p, p ∈ parts →
      (∃ s pre post, origin pet_models (part_name p) s ∧ processModel pet_models default_macro s (VStr (part_name p)) pre = Ok (part_html p, post) ∧
                     part_refs p = (references post).*1) ∧
      ∀ k, k ∈ part_refs p → k ∈ #"Pet" :: map part_name parts.
Proof.
  destruct (schemaToHTML pet_models default_macro 3 VUndef pet_schema) as [[html|]|] eqn:E;
    [|vm_compute in E; discriminate..].
  exists html.
  edestruct (schemaToHTML_complete pet_models default_macro 3 VUndef pet_schema) as (first & st & parts & H);
    [done|vm_compute; reflexivity|done|exact E|].
  exists first, st, parts. split; [done|exact H].
Defined.

(** The elements of a tuple are shown as their positions, and the references to
    them as empty models: lodash [map] passes the position where
    [addReference] expects a name. *)
Theorem tuple_shown_as_positions :
  let property := VObj [(#"type", VStr #"array"); (#"items", VArr [VObj [(#"type", VStr #"string")]])] in
  schemaToHTML [] default_macro 2 (VStr #"M") (VObj [(#"properties", VObj [(#"p", property)])])
  = Some (Ok (lit "<span class=`strong`>M {</span><div><span class=`propName `>p</span> (<span class=`propType`>Array[0]</span>, <span class=`propOptKey`>optional</span>)</div><span class=`strong`>}</span><br /><span class=`strong`>0 {</span><span class=`strong`>}</span>")).
Proof. vm_compute. reflexivity. Qed.

(** ** A model that is rendered for ever *)

(** A primitive model with a nested schema that refers back to it: each
    reference to it is a new inline model. *)
Definition nested : value :=
  VObj [(#"properties", VObj [(#"x", VObj [(#"$ref", VStr #"#/definitions/M")])])].
Definition nested_models : list (jstr * model) :=
  [(#"M", {| m_name := #"M"; m_type := VUndef;
             m_definition := VObj [(#"type", VStr #"string"); (#"schema", nested)] |})].

Definition inline (k : Z) : jstr := #"Inline Model " ++ str_of_Z k.

Lemma inline_inj j k : inline j = inline k → j = k.
Proof. unfold inline. intros H%app_inv_head. by apply str_of_Z_inj. Qed.

Definition inlined (st : hstate) : hstate :=
  {| references := pset (inline (inlineModels st + 1)) nested (references st);
     seenModels := seenModels st; inlineModels := inlineModels st + 1 |}.

Lemma nested_property st : ∃ html,
  process_property nested_models default_macro VUndef #"x" (VObj [(#"$ref", VStr #"#/definitions/M")]) st
  = Ok (html, inlined st).
Proof.
  unfold process_property, hget, mbind, html_bind, lift.
  assert (copied_property default_macro (VObj [(#"$ref", VStr #"#/definitions/M")])
    = Ok (VObj [(#"$ref", VStr #"#/definitions/M"); (#"default", VUndef)])) as -> by (vm_compute; reflexivity).
  cbn [get]. 
  assert (through_primitive nested_models (VObj [(#"$ref", VStr #"#/definitions/M"); (#"default", VUndef)])
    = Ok nested) as -> by (vm_compute; reflexivity).
  assert (primitiveToHTML nested_models nested st
    = Ok (lit "<span class=`propType`>" ++ inline (inlineModels st + 1) ++ lit "</span>", inlined st)) as ->.
  { unfold primitiveToHTML, hget, mbind, html_bind, lift.
    assert (get nested #"type" = Ok VUndef) as -> by (vm_compute; reflexivity).
    assert (get nested #"$ref" = Ok VUndef) as -> by (vm_compute; reflexivity).
    reflexivity. }
  eexists. reflexivity.
Qed.

Lemma nested_model name st : ∃ html,
  processModel nested_models default_macro nested (VStr name) st
  = Ok (html, inlined {| references := references st;
                         seenModels := seenModels st ++ (if truthy (VStr name) then [VStr name] else []);
                         inlineModels := inlineModels st |}).
Proof.
  set (st1 := {| references := _ |}).
  destruct (nested_property st1) as [h Hh].
  unfold processModel, hget, mbind, html_bind, lift.
  assert (get nested #"type" = Ok VUndef) as -> by (vm_compute; reflexivity).
  assert ((if truthy (VStr name) then see (VStr name) else mret tt) st = Ok (tt, st1)) as ->.
  { unfold st1. destruct (truthy _); [done|]. rewrite app_nil_r. by destruct st. }
  change (is_str #"array" VUndef) with false. cbv iota.
  unfold process_object, hget, mbind, html_bind, lift.
  assert (get nested #"type" = Ok VUndef) as -> by (vm_compute; reflexivity).
  assert (get nested #"$ref" = Ok VUndef) as -> by (vm_compute; reflexivity).
  assert (get nested #"properties" = Ok (VObj [(#"x", VObj [(#"$ref", VStr #"#/definitions/M")])])) as ->
    by (vm_compute; reflexivity).
  assert (get nested #"required" = Ok VUndef) as -> by (vm_compute; reflexivity).
  change (truthy VUndef) with false. change (is_str #"object" (or_else VUndef (VStr #"object"))) with true.
  cbv iota. change (enum _) with [(#"x", VObj [(#"$ref", VStr #"#/definitions/M")])].
  cbn [map_html]. unfold mbind, html_bind. rewrite Hh. cbn [mret html_ret].
  destruct (join _ _); eexists; reflexivity.
Qed.

Lemma nested_runs n : ∀ html st k,
  references st = [(inline k, nested)] → inlineModels st = k →
  (∀ j, VStr (inline j) ∈ seenModels st → j < k) →
  render nested_models default_macro n html st = None.
Proof.
  induction n as [|n IH]; intros html st k Hr Hi Hs; cbn [render]; rewrite Hr; [done|].
  assert (enum_keys [(inline k, nested)] = [inline k]) as ->.
  { apply Permutation_singleton_r. unfold enum_keys. by rewrite enum_perm. }
  cbn [visit_all]. unfold mbind, html_bind, visit. fold (seen st (inline k)).
  destruct (seen st (inline k)) eqn:S; [apply seen_spec, Hs in S; lia|].
  rewrite Hr. cbn [pget]. rewrite streq_refl. unfold mbind, html_bind, see at 1.
  assert (pdel (inline k) [(inline k, nested)] = []) as ->.
  { unfold pdel. rewrite filter_cons. rewrite decide_False; [done|]. tauto. }
  cbn [references seenModels inlineModels]. set (st1 := {| references := [] |}).
  change (default VUndef (Some nested)) with nested.
  destruct (nested_model (inline k) st1) as [h ->]. cbn [mret html_ret].
  eapply (IH _ _ (k + 1)); cbn [inlined references inlineModels seenModels st1]; [by rewrite Hi|by rewrite Hi|].
  intros j Hj. change (truthy (VStr (inline k))) with true in Hj. cbv iota in Hj.
  rewrite !elem_of_app !list_elem_of_singleton in Hj.
  destruct Hj as [[Hj|Hj]|Hj]; [apply Hs in Hj; lia| |];
    (assert (inline j = inline k) as ->%inline_inj by congruence; lia).
Qed.

(** A reference to a primitive model whose definition nests a schema that
    refers to the model makes the rendering run for ever. *)
Theorem nested_primitive_diverges n :
  schemaToHTML nested_models default_macro n (VStr #"R") nested = None.
Proof.
  unfold schemaToHTML. cbn [is_object].
  assert (schema_start nested_models (VStr #"R") nested = Ok (inr (nested, VStr #"R"))) as ->
    by (vm_compute; reflexivity).
  destruct (nested_model #"R" {| references := []; seenModels := []; inlineModels := 0 |}) as [h ->].
  rewrite (nested_runs n h _ 1); [done|done|done|].
  intros j Hj. cbn [inlined seenModels app] in Hj. apply list_elem_of_singleton in Hj. done.
Qed.
