(* ===== verification/OperationUrl.v ===== *)
(** * Operation: the request URL

    [Operation.prototype.urlify] and the encoders it calls: how the arguments of
    a call become the path and the query of the request, and how password
    parameters are masked.

    The variables [isPassword] and [qp] of [urlify] are declared inside the loop
    with [var]: they belong to the function and keep their values from one
    parameter to the next, so they are part of the loop's state. *)

From S2P Require Import Prelude JsValue Uri.

(** ** Parameters *)

(** The properties of a parameter the request builders read. [x_escape] is
    [Some true] and [Some false] for the booleans, [None] when undefined. *)
Record param := {
  p_name : jstr;
  p_in : jstr;
  p_type : jstr;
  p_format : jstr;
  p_required : bool;
  collectionFormat : option jstr;
  x_escape : option bool;
  allowEmptyValue : bool;
}.

(** The arguments of a call: [args[name]] is [field args name]. *)
Abbreviation args := (list (jstr * value)).

Definition stars : jstr := #"******".

(** ** Encoders *)

(** [encodeURIComponent] of any value. *)
Definition encode_value (v : value) : res jstr := encodeURIComponent (to_string v).

Definition mask (s : jstr) (format : value) : jstr := if is_str #"password" format then stars else s.

Definition encodeQueryKey (arg : jstr) : res jstr :=
  e ← encodeURIComponent arg;
  Ok (replace_first #"%24" #"$" (replace_first #"%5D" #"]" (replace_first #"%5B" #"[" e))).

Definition encodeQueryParam (arg maskPasswords : value) : res jstr :=
  if truthy maskPasswords then Ok stars
  else match arg with
       | VUndef | VNull => Ok []
       | _ => encode_value arg
       end.

(** The second argument is not used by [encodeURIComponent]. *)
Definition encodePathParam (pathParam maskPasswords : value) : res jstr := encode_value pathParam.

Definition encodePathCollection (type : option jstr) (name : jstr) (l : list value)
    (maskPasswords : value) : res jstr :=
  let separator :=
    match type with
    | Some t => if streq t #"ssv" then #"%20" else if streq t #"tsv" then #"%09"
                else if streq t #"pipes" then #"|" else #","
    | None => #","
    end in
  join separator <$> map_res (λ v, encodeQueryParam v maskPasswords) l.

(** [type || 'default'] *)
Definition collection_type (type : option jstr) : jstr :=
  match type with Some ((_ :: _) as t) => t | _ => #"default" end.

Definition encodeQueryCollection (type : option jstr) (name : jstr) (l : list value)
    (maskPasswords : value) : res jstr :=
  let type := collection_type type in
  let pairs (eq : jstr) :=
    join #"&" <$> map_res (λ v, k ← encodeQueryKey name; e ← encodeQueryParam v VUndef;
                                Ok (k ++ eq ++ mask e maskPasswords)) l in
  let separated (sep : jstr) :=
    match l with
    | [] => Ok []
    | _ => k ← encodeQueryKey name;
           es ← map_res (λ v, encodeQueryParam v VUndef) l;
           Ok (k ++ #"=" ++ join sep es)
    end in
  if streq type #"default" || streq type #"multi" then pairs #"="
  else if streq type #"csv" then separated #","
  else if streq type #"ssv" then separated #"%20"
  else if streq type #"tsv" then separated #"%09"
  else if streq type #"pipes" then separated #"|"
  else if streq type #"brackets" then pairs #"[]="
  else Ok [].

(** ** Path substitution *)

(** Equality of units under the [i] flag, on ASCII letters. *)
Definition unit_ci (a b : Z) : bool := lower_unit a =? lower_unit b.

Fixpoint prefix_ci (p s : jstr) : bool :=
  match p, s with
  | [], _ => true
  | a :: p, b :: s => unit_ci a b && prefix_ci p s
  | _ :: _, [] => false
  end.

(** The replacement string of [replace]: [$$], [$&], and the text before and
    after the match; other uses of [$] stand for themselves, as the pattern has
    no groups. *)
Fixpoint expand (matched before after r : jstr) : jstr :=
  match r with
  | 36 :: t =>
      match t with
      | 36 :: t' => 36 :: expand matched before after t'
      | 38 :: t' => matched ++ expand matched before after t'
      | 96 :: t' => before ++ expand matched before after t'
      | 39 :: t' => after ++ expand matched before after t'
      | _ => 36 :: expand matched before after t
      end
  | c :: t => c :: expand matched before after t
  | [] => []
  end.

(** [s.replace(new RegExp(p, 'gi'), r)] for a pattern [p] that matches itself:
    [before] is the text passed so far, reversed, [skip] the rest of a match. *)
Fixpoint replace_ci (p r before : jstr) (skip : nat) (s : jstr) : jstr :=
  match s with
  | [] => []
  | c :: t =>
      match skip with
      | S k => replace_ci p r (c :: before) k t
      | O => if prefix_ci p s
             then expand (take (length p) s) (rev before) (drop (length p) s) r
                  ++ replace_ci p r (c :: before) (length p - 1) t
             else c :: replace_ci p r (c :: before) 0 t
      end
  end.

(** A name that stands for itself in a regular expression: ASCII text without a
    character of the syntax, and not the inside of a quantifier such as [{2,3}]. *)
Definition syntax_units : jstr := #"\^$.*+?()[]{}|".
Definition literal_name (name : jstr) : bool :=
  forallb (λ c, (c <? 128) && negb (has c syntax_units)) name
  && negb (forallb (λ c, is_digit c || (c =? 44)) name).

(** [new RegExp(pattern, 'gi')], where the pattern uses the syntax: it throws, or gives
    what [replace] makes of a replacement and a text. *)
Class RegExp_gi := regexp_gi : jstr → res (jstr → jstr → jstr).

(** An engine that refuses every such pattern. *)
Definition no_syntax : RegExp_gi := λ _, Throw (JsError #"SyntaxError").

(** The expression of a path parameter: the name is not escaped. *)
Definition path_regexp {R : RegExp_gi} (name : jstr) : res (jstr → jstr → jstr) :=
  let pattern := #"{" ++ name ++ #"}" in
  if literal_name name then Ok (λ value url, replace_ci pattern value [] 0 url) else regexp_gi pattern.

(** ** [urlify] *)

Record url_state := {
  requestUrl : jstr;
  querystring : jstr;
  isPassword : bool;
  qp : value;
}.

(** [path.replace(/#.*/, '')]: from the first [#] to the end of its line. *)
Definition line_end (c : Z) : bool := (c =? 10) || (c =? 13) || (c =? 8232) || (c =? 8233).
Fixpoint drop_line (s : jstr) : jstr :=
  match s with
  | c :: t => if line_end c then s else drop_line t
  | [] => []
  end.
Fixpoint strip_fragment (s : jstr) : jstr :=
  match s with
  | c :: t => if c =? 35 then drop_line t else c :: strip_fragment t
  | [] => []
  end.

(** The separator before a query item. *)
Definition query_sep (s : url_state) : jstr :=
  if streq (querystring s) [] && negb (contains #"?" (requestUrl s)) then #"?" else #"&".

Definition flag (b : bool) : value := if b then VBool true else VUndef.

Definition urlify_step {R : RegExp_gi} (a : args) (maskPasswords : bool) (s : url_state) (p : param)
    : res url_state :=
  let v := field a (p_name p) in
  if negb (is_undef v) then
    let pw := isPassword s
              || (streq (p_type p) #"string" && streq (p_format p) #"password" && maskPasswords) in
    if streq (p_in p) #"path" then
      reg ← path_regexp (p_name p);
      r ← match v with
          | VArr l => encodePathCollection (collectionFormat p) (p_name p) l (flag pw)
          | _ => match x_escape p with
                 | None | Some true => encodePathParam v (flag pw)
                 | Some false => Ok (to_string v)
                 end
          end;
      Ok {| requestUrl := reg r (requestUrl s);
            querystring := querystring s; isPassword := pw; qp := qp s |}
    else if streq (p_in p) #"query" then
      let '(e, qp') :=
        match collectionFormat p, v with
        | Some _, VArr l => (encodeQueryCollection (collectionFormat p) (p_name p) l (flag pw), v)
        | cf, _ => (k ← encodeQueryKey (p_name p); e ← encodeQueryParam v (flag pw);
                    Ok (k ++ #"=" ++ e),
                    match cf with Some _ => v | None => qp s end)
        end in
      e ← e;
      Ok {| requestUrl := requestUrl s; querystring := querystring s ++ query_sep s ++ e;
            isPassword := pw; qp := qp' |}
    else
      Ok {| requestUrl := requestUrl s; querystring := querystring s; isPassword := pw; qp := qp s |}
  else if streq (p_in p) #"query" && allowEmptyValue p then
    e ← match collectionFormat p, streq (p_type p) #"array" with
        | None, false =>
            k ← encodeQueryKey (p_name p); e ← encodeQueryParam (VStr []) (flag (isPassword s));
            Ok (k ++ #"=" ++ e)
        | cf, _ =>
            let format := match cf with Some ((_ :: _) as f) => f | _ => #"multi" end in
            encodeQueryCollection (Some format) (p_name p)
              (match qp s with VArr l => l | v => [v] end) (flag (isPassword s))
        end;
    Ok {| requestUrl := requestUrl s; querystring := querystring s ++ query_sep s ++ e;
          isPassword := isPassword s; qp := qp s |}
  else Ok s.

(** The parts of an operation that make its URL. *)
Record endpoint := {
  scheme : jstr;
  host : jstr;
  basePath : jstr;
  op_path : jstr;
  parameters : list param;
}.

Definition url_base (o : endpoint) : jstr :=
  scheme o ++ #"://" ++ host o ++ (if streq (basePath o) #"/" then [] else basePath o).

Definition urlify {R : RegExp_gi} (o : endpoint) (a : args) (maskPasswords : bool) : res jstr :=
  s ← fold_res (urlify_step a maskPasswords) (parameters o)
        {| requestUrl := strip_fragment (op_path o); querystring := [];
           isPassword := false; qp := VUndef |};
  Ok (url_base o ++ requestUrl s ++ querystring s).

(** ** Reading a query back

    How a server takes a query apart: items at [&], the first [=] of an item
    ends its key, and both halves are percent-decoded. *)

Definition parse_item (item : jstr) : option (jstr * jstr) :=
  match split #"=" item with
  | k :: rest => k ← uri_decode k; v ← uri_decode (join #"=" rest); Some (k, v)
  | [] => None
  end.

Definition parse_query (q : jstr) : option (list (jstr * jstr)) :=
  mapM parse_item (split #"&" q).

Lemma parse_query_app q q' l l' :
  parse_query q = Some l → parse_query q' = Some l' →
  parse_query (q ++ #"&" ++ q') = Some (l ++ l').
Proof.
  unfold parse_query. change (q ++ #"&" ++ q') with (q ++ 38 :: q').
  change #"&" with [38]. rewrite split_app_unit. rewrite !mapM_Some. apply Forall2_app.
Qed.

(** ** The encoders *)

Lemma encodeQueryKey_spec name k :
  wf_jstr name → encodeQueryKey name = Ok k →
  uri_decode k = Some name ∧ 38 ∉ k ∧ 61 ∉ k.
Proof.
  intros Hwf H. unfold encodeQueryKey in H. inv_res. rename x into e.
  assert (∀ c, uri_safe c = false → c ∉ [36; 91; 93] → c ∉ replace_first #"%24" #"$"
    (replace_first #"%5D" #"]" (replace_first #"%5B" #"[" e))) as Hc.
  { intros c Hs Hn Hin. pose proof (encode_no_delim name e c Hwf H0 Hs) as He.
    apply replace_first_in in Hin as [Hin|Hin]; [change #"$" with [36] in Hin; set_solver|].
    apply replace_first_in in Hin as [Hin|Hin]; [change #"]" with [93] in Hin; set_solver|].
    apply replace_first_in in Hin as [Hin|Hin]; [change #"[" with [91] in Hin; set_solver|done]. }
  split_and!; [|apply Hc; [done|set_solver by lia]..].
  change #"%24" with (pct 36). change #"$" with [36]. apply uri_decode_unescape; [lia|lia|].
  change #"%5D" with (pct 93). change #"]" with [93]. apply uri_decode_unescape; [lia|lia|].
  change #"%5B" with (pct 91). change #"[" with [91]. apply uri_decode_unescape; [lia|lia|].
  by apply (uri_decode_encode name).
Qed.

(** What the code sends for a value: nothing for [undefined] and [null]. *)
Definition sent_value (v : value) : jstr :=
  match v with VUndef | VNull => [] | _ => to_string v end.

Lemma encodeQueryParam_spec v e :
  wf_jstr (sent_value v) → encodeQueryParam v VUndef = Ok e →
  uri_decode e = Some (sent_value v) ∧ (∀ c, uri_safe c = false → c ∉ e).
Proof.
  intros Hwf H. unfold encodeQueryParam in H. cbn [truthy] in H.
  assert (encodeURIComponent (sent_value v) = Ok e) as He by by destruct v.
  split; [by apply uri_decode_encode|]. intros c Hc. by eapply encode_no_delim.
Qed.

(** The encoders fail only on unpaired surrogates. *)
Lemma encodeQueryKey_ok name : well_paired name = true → ∃ k, encodeQueryKey name = Ok k.
Proof. intros [e He]%encode_ok. unfold encodeQueryKey. rewrite He. cbn. eauto. Qed.

Lemma encodeQueryParam_ok v :
  well_paired (sent_value v) = true → ∃ e, encodeQueryParam v VUndef = Ok e.
Proof. intros [e He]%encode_ok. exists e. by destruct v. Qed.

Lemma encodePathCollection_ok type name l :
  Forall (λ v, well_paired (sent_value v) = true) l →
  ∃ e, encodePathCollection type name l VUndef = Ok e.
Proof.
  intros Hl. unfold encodePathCollection.
  destruct (map_res_ok (λ v, encodeQueryParam v VUndef) l) as [es ->]; [|cbn; eauto].
  eapply Forall_impl; [exact Hl|]. intros v. apply encodeQueryParam_ok.
Qed.

Lemma encodeQueryCollection_ok type name l :
  well_paired name = true → Forall (λ v, well_paired (sent_value v) = true) l →
  ∃ e, encodeQueryCollection type name l VUndef = Ok e.
Proof.
  intros [k Hk]%encodeQueryKey_ok Hl. unfold encodeQueryCollection. rewrite Hk.
  assert (∀ eq, ∃ items, map_res (λ v, k ← Ok k; e ← encodeQueryParam v VUndef;
      Ok (k ++ eq ++ mask e VUndef)) l = Ok items) as Hp.
  { intros eq. apply map_res_ok. eapply Forall_impl; [exact Hl|].
    intros v [e He]%encodeQueryParam_ok. cbn [mbind res_bind]. rewrite He. cbn. eauto. }
  destruct (map_res_ok (λ v, encodeQueryParam v VUndef) l) as [es Hes].
  { eapply Forall_impl; [exact Hl|]. intros v. apply encodeQueryParam_ok. }
  destruct (Hp #"=") as [i1 ->], (Hp #"[]=") as [i2 ->].
  repeat case_if; try (cbn; eauto; fail); destruct l as [|v l]; eauto; cbn [mbind res_bind];
    rewrite Hes; eauto.
Qed.

(** An item with a key and a value of which one knows what they decode to. *)
Lemma key_value_parses k n e v : uri_decode k = Some n → 38 ∉ k → 61 ∉ k → uri_decode e = Some v → 38 ∉ e → 61 ∉ e →
  parse_query (k ++ #"=" ++ e) = Some [(n, v)].
Proof.
  intros Hk Ka Ke He Ea Ee. unfold parse_query. change #"&" with [38]. change (k ++ #"=" ++ e) with (k ++ 61 :: e). rewrite split_none.
  - cbn. unfold parse_item. change #"=" with [61]. rewrite split_cut // split_none //. cbn. rewrite Hk. cbn. by rewrite He.
  - rewrite elem_of_app elem_of_cons. intros [H|[H|H]]; done.
Qed.

Lemma item_parses name v k e :
  wf_jstr name → wf_jstr (sent_value v) → encodeQueryKey name = Ok k →
  encodeQueryParam v VUndef = Ok e →
  parse_query (k ++ #"=" ++ e) = Some [(name, sent_value v)].
Proof.
  intros Hn Hv Hk He. apply encodeQueryKey_spec in Hk as (Hd & Ha & Hq); [|done].
  apply encodeQueryParam_spec in He as [Hd' Hs]; [|done]. apply key_value_parses; [done..|by apply Hs|by apply Hs].
Qed.

Lemma parse_query_join items l :
  l ≠ [] → Forall2 (λ s p, parse_query s = Some [p]) l items →
  parse_query (join #"&" l) = Some items.
Proof.
  intros Hne HF. induction HF as [|s p l items Hs HF IH]; [done|].
  destruct l as [|s' l]; [by inversion HF; subst|].
  rewrite join_cons //. apply (parse_query_app s _ [p] items); [done|by apply IH].
Qed.

(** What a collection is sent as: one pair for each element, under the key or under
    the key followed by brackets, or the elements in one text. *)
Definition separator_of (t : jstr) : option jstr :=
  if streq t #"csv" then Some #"," else if streq t #"ssv" then Some #" "
  else if streq t #"tsv" then Some [9] else if streq t #"pipes" then Some #"|" else None.

Definition collection_pairs (type : option jstr) (name : jstr) (l : list value) : list (jstr * jstr) :=
  let t := collection_type type in
  match separator_of t with
  | Some sep => [(name, join sep (map sent_value l))]
  | None => map (λ v, (if streq t #"brackets" then name ++ #"[]" else name, sent_value v)) l
  end.

Definition known_format (type : option jstr) : bool :=
  existsb (streq (collection_type type)) [ #"default"; #"multi"; #"csv"; #"ssv"; #"tsv"; #"pipes"; #"brackets"].

Lemma join_decodes sep sep' es vs : uri_decode sep = Some sep' → Forall2 (λ e v, uri_decode e = Some v) es vs →
  uri_decode (join sep es) = Some (join sep' vs).
Proof.
  intros Hs HF. induction HF as [|e v es vs He HF IH]; [done|]. destruct HF as [|e' v' es vs He' HF]; [done|].
  rewrite (join_cons sep) // (join_cons sep') //. apply uri_decode_app; [done|]. by apply uri_decode_app.
Qed.

Lemma join_not_in sep es c : c ∉ sep → Forall (λ e, c ∉ e) es → c ∉ join sep es.
Proof.
  intros Hs HF. induction HF as [|e es He HF IH]; [apply not_elem_of_nil|].
  destruct es as [|e' es]; [done|]. rewrite join_cons //. rewrite !elem_of_app. naive_solver.
Qed.

Lemma map_res_values l es :
  Forall (λ v, wf_jstr (sent_value v)) l → map_res (λ v, encodeQueryParam v VUndef) l = Ok es →
  Forall2 (λ e v, uri_decode e = Some v) es (map sent_value l) ∧ ∀ c, uri_safe c = false → Forall (λ e, c ∉ e) es.
Proof.
  intros Hl. revert es. induction Hl as [|v l Hv Hl IH]; intros es H; cbn [map_res] in H; [injection H as <-; split; constructor|].
  inv_res. destruct (encodeQueryParam_spec v x Hv ltac:(done)) as [Hd Hs]. destruct (IH _ ltac:(done)) as [Hds Hss].
  split; [by constructor|]. intros c Hc. constructor; [by apply Hs|by apply Hss].
Qed.

(** Repeated keys, with [eq] between the key and the value. *)
Lemma pairs_parse eq suffix k name l items :
  eq = suffix ++ #"=" → uri_decode (k ++ suffix) = Some (name ++ suffix) → 38 ∉ k ++ suffix → 61 ∉ k ++ suffix →
  Forall (λ v, wf_jstr (sent_value v)) l → l ≠ [] → encodeQueryKey name = Ok k →
  map_res (λ v, k ← encodeQueryKey name; e ← encodeQueryParam v VUndef; Ok (k ++ eq ++ mask e VUndef)) l = Ok items →
  parse_query (join #"&" items) = Some (map (λ v, (name ++ suffix, sent_value v)) l) ∧ join #"&" items ≠ [].
Proof.
  intros -> Hd H38 H61 Hl Hne Hk H. split.
  - apply parse_query_join; [apply map_res_length in H; by destruct items, l|]. clear Hne. revert items H.
    induction Hl as [|v l Hv Hl IH]; intros items H; cbn [map_res] in H; [injection H as <-; constructor|].
    rewrite Hk in H. cbn [mbind res_bind] in H. inv_res. constructor; [|apply IH; by rewrite Hk].
    destruct (encodeQueryParam_spec v _ Hv ltac:(eassumption)) as [Hv' Hs]. cbn [mask is_str].
    rewrite -app_assoc app_assoc. apply key_value_parses; [done..|by apply Hs|by apply Hs].
  - destruct l as [|v l]; [done|]. cbn [map_res] in H. rewrite Hk in H. cbn [mbind res_bind] in H. inv_res.
    intros Hj. destruct x0 as [|y ys]; cbn [join] in Hj; by destruct k, suffix.
Qed.

Lemma separated_parses sep sep' k name l es :
  uri_decode sep = Some sep' → 38 ∉ sep → 61 ∉ sep → wf_jstr name → Forall (λ v, wf_jstr (sent_value v)) l →
  encodeQueryKey name = Ok k → map_res (λ v, encodeQueryParam v VUndef) l = Ok es →
  parse_query (k ++ #"=" ++ join sep es) = Some [(name, join sep' (map sent_value l))] ∧ k ++ #"=" ++ join sep es ≠ [].
Proof.
  intros Hs H38 H61 Hn Hl Hk H. apply encodeQueryKey_spec in Hk as (Hd & Ha & Hq); [|done].
  destruct (map_res_values l es Hl H) as [Hv Hc]. split; [|by destruct k].
  apply key_value_parses; [done|done|done|by apply join_decodes| |]; (apply join_not_in; [done|by apply Hc]).
Qed.

Lemma collection_parses type name l e :
  known_format type = true → wf_jstr name → Forall (λ v, wf_jstr (sent_value v)) l → l ≠ [] →
  encodeQueryCollection type name l VUndef = Ok e →
  parse_query e = Some (collection_pairs type name l) ∧ e ≠ [].
Proof.
  intros Ht Hn Hl Hne H. unfold encodeQueryCollection in H. unfold known_format in Ht. unfold collection_pairs, separator_of.
  set (t := collection_type type) in *. clearbody t.
  assert (∃ k, encodeQueryKey name = Ok k) as [k Hk].
  { destruct (encodeQueryKey name) as [k|] eqn:K; [eauto|exfalso]. destruct l as [|v l]; [done|]. cbn [map_res mbind res_bind] in H.
    apply existsb_exists in Ht as (f & Hf & ->%streq_spec). by repeat (destruct Hf as [<-|Hf]). }
  pose proof (encodeQueryKey_spec name k Hn Hk) as (Hd & Ha & Hq).
  apply existsb_exists in Ht as (f & Hf & ->%streq_spec).
  assert (∀ sep sep', uri_decode sep = Some sep' → has 38 sep = false → has 61 sep = false →
    match l with [] => Ok [] | _ => k ← encodeQueryKey name; es ← map_res (λ v, encodeQueryParam v VUndef) l; Ok (k ++ #"=" ++ join sep es) end = Ok e →
    parse_query e = Some [(name, join sep' (map sent_value l))] ∧ e ≠ []) as Hsep.
  { intros sep sep' H1 H2%not_in_check H3%not_in_check He. destruct l as [|v l]; [done|]. rewrite Hk in He. cbn [mbind res_bind] in He.
    apply bind_Ok in He as (es & Hes & He). injection He as <-. by apply separated_parses. }
  repeat (destruct Hf as [<-|Hf]); [..|done]; cbn in H |- *.
  1, 2: apply fmap_Ok in H as (items & H & ->); pose proof (pairs_parse #"=" [] k name l items) as P;
    rewrite !app_nil_r in P; by apply P.
  - by apply (Hsep #"," #",").
  - by apply (Hsep #"%20" #" ").
  - by apply (Hsep #"%09" [9]).
  - by apply (Hsep #"|" #"|").
  - apply fmap_Ok in H as (items & H & ->).
    apply (pairs_parse #"[]=" #"[]" k name l items); try done; [by apply uri_decode_app|..];
      (intros Hin; apply elem_of_app in Hin as [Hin|Hin]; [done|]; revert Hin; by apply not_in_check).
Qed.

(** ** Substituting path parameters *)

Lemma expand_id m b a r : 36 ∉ r → expand m b a r = r.
Proof.
  induction r as [|c r IH]; intros H; [done|]. apply not_elem_of_cons in H as [Hc H].
  cbn [expand]. rewrite IH //.
  destruct c as [|c|c]; [done| |done].
  do 6 (destruct c as [c|c|]; try done).
Qed.

(** A substitution brings in nothing but the replacement. *)
Lemma replace_ci_in p r s : ∀ b k c,
  36 ∉ r → c ∈ replace_ci p r b k s → c ∈ r ∨ c ∈ s.
Proof.
  induction s as [|d s IH]; intros b k c Hr Hin; [by right|]. cbn [replace_ci] in Hin.
  destruct k as [|k].
  - destruct (prefix_ci p (d :: s)).
    + rewrite expand_id // in Hin. apply elem_of_app in Hin as [Hin|Hin]; [by left|].
      apply IH in Hin; [|done]. set_solver.
    + apply elem_of_cons in Hin as [->|Hin]; [right; by left|]. apply IH in Hin; [|done]. set_solver.
  - apply IH in Hin; [|done]. set_solver.
Qed.

(** Encoded path values have no delimiter and nothing [replace] would expand. *)
Lemma encodePathCollection_safe type name l e c :
  Forall (λ v, wf_jstr (sent_value v)) l → uri_safe c = false → c ≠ 44 → c ≠ 124 →
  encodePathCollection type name l VUndef = Ok e → c ∉ e.
Proof.
  intros Hl Hc H44 H124 H. unfold encodePathCollection in H. apply fmap_Ok in H as (es & H & ->).
  assert (Forall (λ e, c ∉ e) es) as Hes.
  { revert es H. induction Hl as [|v l Hv _ IH]; intros es H; cbn [map_res] in H; inv_res; constructor.
    - eapply encodeQueryParam_spec; [exact Hv|done|done].
    - by apply IH. }
  set (sep := match type with Some t => _ | None => _ end).
  assert (c ∉ sep) as Hsep.
  { assert (c ∉ #"%20" ∧ c ∉ #"%09" ∧ c ∉ #"|" ∧ c ∉ #",") as (? & ? & ? & ?).
    { change #"%20" with [37; 50; 48]. change #"%09" with [37; 48; 57].
      change #"|" with [124]. change #"," with [44].
      assert (c ≠ 37 ∧ c ≠ 50 ∧ c ≠ 48 ∧ c ≠ 57) by (split_and!; by intros ->).
      rewrite !not_elem_of_cons. split_and!; try lia; apply not_elem_of_nil. }
    unfold sep. destruct type; [|done]. by repeat case_if. }
  clear H Hl. induction Hes as [|x es Hx Hes IH]; [apply not_elem_of_nil|].
  destruct es as [|y es]; [done|]. rewrite join_cons //. rewrite !elem_of_app. naive_solver.
Qed.

(** ** The whole URL *)

(** The pairs an operation's query carries for the given arguments. *)
Definition sent (a : args) (p : param) : list (jstr * jstr) :=
  if streq (p_in p) #"query" then
    match field a (p_name p) with
    | VUndef => if allowEmptyValue p then [(p_name p, [])] else []
    | VArr l => match collectionFormat p with
                | Some _ => collection_pairs (collectionFormat p) (p_name p) l
                | None => [(p_name p, to_string (VArr l))]
                end
    | v => [(p_name p, sent_value v)]
    end
  else [].

(** Parameters the code sends as they are declared: a collection of the query has
    elements and one of the formats of the specification, the name of a path parameter
    stands for itself in a regular expression and its value is escaped, and an empty
    value is allowed only on a scalar. *)
Definition clean_param (a : args) (p : param) : Prop :=
  wf_jstr (p_name p) ∧ (p_in p = #"path" → literal_name (p_name p) = true) ∧
  match field a (p_name p) with
  | VUndef => allowEmptyValue p = true → collectionFormat p = None ∧ p_type p ≠ #"array"
  | VArr l =>
      Forall (λ v, wf_jstr (sent_value v)) l ∧ wf_jstr (to_string (VArr l)) ∧
      (collectionFormat p ≠ None → p_in p = #"query" → l ≠ [] ∧ known_format (collectionFormat p) = true)
  | v => wf_jstr (to_string v) ∧ (p_in p = #"path" → x_escape p ≠ Some false)
  end.

Definition url_inv (items : list (jstr * jstr)) (s : url_state) : Prop :=
  63 ∉ requestUrl s ∧ isPassword s = false ∧
  (items = [] ∧ querystring s = [] ∨
   items ≠ [] ∧ ∃ q, querystring s = #"?" ++ q ∧ parse_query q = Some items).

Lemma url_inv_item items new s e qp' :
  url_inv items s → new ≠ [] → parse_query e = Some new →
  url_inv (items ++ new) {| requestUrl := requestUrl s;
    querystring := querystring s ++ query_sep s ++ e; isPassword := false; qp := qp' |}.
Proof.
  intros (Hu & Hp & Hq) Hne He. split_and!; [done|done|right]. cbn [querystring].
  split; [by destruct items|]. unfold query_sep. change #"?" with [63]. rewrite contains_unit.
  assert (has 63 (requestUrl s) = false) as -> by by apply has_false.
  destruct Hq as [[-> ->]|[Hi (q & -> & Hq)]].
  - exists e. by rewrite streq_refl.
  - exists (q ++ #"&" ++ e). split; [done|]. by apply parse_query_app.
Qed.

Lemma url_inv_path items s name r :
  url_inv items s → 36 ∉ r → 63 ∉ r →
  url_inv items {| requestUrl := replace_ci name r [] 0 (requestUrl s);
    querystring := querystring s; isPassword := false; qp := qp s |}.
Proof.
  intros (Hu & Hp & Hq) Hr Hr'. split_and!; [|done|done]. cbn [requestUrl].
  intros Hin. apply replace_ci_in in Hin as [?|?]; done.
Qed.

(** The path value of a clean parameter. *)
Lemma path_value_safe a p r c :
  clean_param a p → p_in p = #"path" → is_undef (field a (p_name p)) = false →
  uri_safe c = false → c ≠ 44 → c ≠ 124 →
  match field a (p_name p) with
  | VArr l => encodePathCollection (collectionFormat p) (p_name p) l VUndef
  | _ => match x_escape p with
         | None | Some true => encodePathParam (field a (p_name p)) VUndef
         | Some false => Ok (to_string (field a (p_name p)))
         end
  end = Ok r → c ∉ r.
Proof.
  intros (Hn & _ & Hc) Hin Hdef Hs H44 H124 H.
  destruct (field a (p_name p)) as [| | | | | |l|]; try done.
  6: by eapply encodePathCollection_safe; [apply Hc|..].
  all: destruct Hc as [Hwf Hx], (x_escape p) as [[]|]; try (by exfalso; apply Hx);
    exact (encode_no_delim _ r c Hwf H Hs).
Qed.

Lemma urlify_step_inv {R : RegExp_gi} a items s p s' :
  clean_param a p → url_inv items s → urlify_step a false s p = Ok s' →
  url_inv (items ++ sent a p) s'.
Proof.
  intros Hc Hs H. unfold urlify_step in H. rewrite andb_false_r orb_false_r in H.
  assert (isPassword s = false) as Hp by apply Hs. rewrite Hp in H. cbn [flag] in H.
  destruct (is_undef (field a (p_name p))) eqn:U; cbn [negb] in H.
  - (* undefined *)
    unfold sent. destruct (field a (p_name p)) eqn:F; try done. destruct Hc as (Hn & _ & Hc). rewrite F in Hc.
    destruct (streq (p_in p) #"query"); cbn [andb] in H; [|injection H as <-; by rewrite app_nil_r].
    destruct (allowEmptyValue p); [|injection H as <-; by rewrite app_nil_r].
    destruct (Hc eq_refl) as [Hcf Hty]. rewrite Hcf (proj2 (streq_neq _ _) Hty) in H. inv_res.
    apply url_inv_item; [done|done|]. apply (item_parses (p_name p) (VStr [])); [done|by constructor|done|done].
  - destruct (streq (p_in p) #"path") eqn:P.
    + assert (literal_name (p_name p) = true) as Hlit by (apply Hc; by str_eqs).
      unfold path_regexp in H. rewrite Hlit in H. inv_res. str_eqs. rewrite /sent P. cbn [streq]. change (streq #"path" #"query") with false.
      cbv iota. rewrite app_nil_r. apply url_inv_path; [done|..];
        (eapply (path_value_safe a p); [done|done|by rewrite U|done|lia|lia|]; by destruct (field a (p_name p))).
    + destruct (streq (p_in p) #"query") eqn:Q; [|injection H as <-; rewrite /sent Q app_nil_r;
        by destruct Hs as (? & ? & ?)].
      rewrite /sent Q. destruct Hc as (Hn & _ & Hc). str_eqs.
      destruct (field a (p_name p)) as [| | | | | |l|o] eqn:F; try done.
      6: { destruct Hc as (Hl & Hw & Hcf). destruct (collectionFormat p) as [cf|] eqn:C.
           - destruct (Hcf ltac:(done) ltac:(done)) as [Hne Ht]. inv_res.
             destruct (collection_parses (Some cf) (p_name p) l x) as [Hpar _]; [done..|].
             apply url_inv_item; [done| |done]. unfold collection_pairs. by destruct (separator_of _), l.
           - inv_res. apply url_inv_item; [done|done|]. by apply (item_parses (p_name p) (VArr l)). }
      all: destruct Hc as [Hw _]; destruct (collectionFormat p); inv_res;
        (apply url_inv_item; [done|done|]; apply item_parses; [done|first [exact Hw | exact (Forall_nil_2 _)]|done|done]).
Qed.

Lemma strip_fragment_in c s : c ∈ strip_fragment s → c ∈ s.
Proof.
  assert (∀ t, c ∈ drop_line t → c ∈ t) as Hd.
  { induction t as [|d t IH]; cbn [drop_line]; [done|]. destruct (line_end d); set_solver. }
  induction s as [|d t IH]; cbn [strip_fragment]; [done|]. destruct (d =? 35); [|set_solver].
  intros Hin. right. by apply Hd.
Qed.

(** Names and arguments whose surrogates are paired, as text that came from
    Unicode has them. *)
Definition paired_param (a : args) (p : param) : Prop :=
  well_paired (p_name p) = true ∧
  match field a (p_name p) with
  | VArr l => Forall (λ v, well_paired (sent_value v) = true) l ∧
              well_paired (to_string (VArr l)) = true
  | v => well_paired (to_string v) = true
  end.

Lemma urlify_step_ok {R : RegExp_gi} a s p :
  clean_param a p → paired_param a p → isPassword s = false →
  ∃ s', urlify_step a false s p = Ok s'.
Proof.
  intros (_ & Hlit & Hc) [Hn Hv] Hp. unfold urlify_step. rewrite andb_false_r orb_false_r Hp. cbn [flag].
  destruct (encodeQueryKey_ok _ Hn) as [k Hk]. rewrite !Hk.
  assert (streq (p_in p) #"path" = true → ∃ reg, path_regexp (p_name p) = Ok reg) as Hreg.
  { intros E. str_eqs. unfold path_regexp. rewrite Hlit //. eauto. }
  destruct (field a (p_name p)) as [| | | | | |l|o]; cbn [is_undef negb].
  1: { destruct (streq (p_in p) #"query"); cbn [andb]; [|eauto].
       destruct (allowEmptyValue p); [|eauto]. destruct (Hc eq_refl) as [-> Hty].
       rewrite (proj2 (streq_neq _ _) Hty). cbn. eauto. }
  6: { destruct Hv as [Hl [e He]%encode_ok].
       destruct (encodePathCollection_ok (collectionFormat p) (p_name p) l Hl) as [e1 ->].
       destruct (encodeQueryCollection_ok (collectionFormat p) (p_name p) l Hn Hl) as [e2 He2].
       destruct (streq (p_in p) #"path"); [destruct Hreg as [reg ->]; [done|]; cbn; eauto|]. case_if; [|cbn; eauto].
       destruct (collectionFormat p); [rewrite He2|unfold encodeQueryParam, encode_value; cbn [truthy]; rewrite He]; cbn; eauto. }
  all: destruct (encode_ok _ Hv) as [e He]; unfold encodePathParam, encodeQueryParam, encode_value;
    cbn [truthy]; rewrite ?He; destruct (x_escape p) as [[]|], (collectionFormat p);
    (destruct (streq (p_in p) #"path"); [destruct Hreg as [reg ->]; [done|]; cbn; eauto|]);
    repeat case_if; cbn; eauto.
Qed.

(** (C1) Without masking, and for text with paired surrogates, building a URL does not
    throw when collections of the query have elements and a known format, names of path
    parameters stand for themselves in a regular expression, path values are
    escaped and empty values are allowed on scalars only ([clean_param]). The URL is the
    base, a path without a question mark, and, when parameters go to the query, a query
    that a server reads back as exactly the pairs of names and values, in the order of
    the declaration; a collection is one pair for each element or, where its format has
    a separator, one pair with the elements joined. *)
Theorem urlify_query_parses {R : RegExp_gi} o a :
  63 ∉ op_path o → Forall (clean_param a) (parameters o) → Forall (paired_param a) (parameters o) →
  let items := concat (map (sent a) (parameters o)) in
  ∃ path query, urlify o a false = Ok (url_base o ++ path ++ query) ∧ 63 ∉ path ∧
    (items = [] ∧ query = [] ∨ ∃ q, query = #"?" ++ q ∧ parse_query q = Some items).
Proof.
  intros Hpath Hcl Hpa. unfold urlify.
  assert (∀ ps items s, Forall (clean_param a) ps → Forall (paired_param a) ps → url_inv items s →
    ∃ s', fold_res (urlify_step a false) ps s = Ok s' ∧
      url_inv (items ++ concat (map (sent a) ps)) s') as Hfold.
  { induction ps as [|p ps IH]; intros items s HF HG Hs; cbn [fold_res].
    - exists s. split; [done|]. cbn. by rewrite app_nil_r.
    - apply Forall_cons in HF as [Hp HF]. apply Forall_cons in HG as [Hq HG].
      destruct (urlify_step_ok a s p Hp Hq (proj1 (proj2 Hs))) as [s1 Hs1]. rewrite Hs1. cbn.
      rewrite app_assoc. apply IH; [done|done|]. by eapply urlify_step_inv. }
  edestruct (Hfold (parameters o) [] {| requestUrl := strip_fragment (op_path o); querystring := [];
           isPassword := false; qp := VUndef |}) as (s & -> & Hu & _ & Hq); [done|done| |].
  { split_and!; [|done|by left]. cbn [requestUrl]. intros Hin. by apply Hpath, strip_fragment_in. }
  exists (requestUrl s), (querystring s). split_and!; [done|done|]. cbn [app] in Hq.
  destruct Hq as [[Hi ->]|[_ Hq]]; [left; by rewrite Hi|by right].
Qed.

Lemma urlify_query_parses_witness : let R : RegExp_gi := no_syntax in
  let o := {| scheme := #"http"; host := #"h"; basePath := #"/v1"; op_path := #"/pets/{id}";
              parameters := [{| p_name := #"id"; p_in := #"path"; p_type := #"integer"; p_format := #""; p_required := true;
       collectionFormat := None; x_escape := None; allowEmptyValue := false |};
                             {| p_name := #"q"; p_in := #"query"; p_type := #"array"; p_format := #""; p_required := true;
       collectionFormat := Some #"pipes"; x_escape := None; allowEmptyValue := false |}] |} in
  let a := [(#"id", VNum 7); (#"q", VArr [VStr #"a&b=c"; VStr #"d"])] in
  let items := concat (map (sent a) (parameters o)) in
  ∃ path query, urlify o a false = Ok (url_base o ++ path ++ query) ∧ 63 ∉ path ∧
    (items = [] ∧ query = [] ∨ ∃ q, query = #"?" ++ q ∧ parse_query q = Some items).
Proof.
  intros R o a. apply (urlify_query_parses o a); [by apply not_in_check| |].
  - repeat constructor; try (by apply wf_check); done.
  - repeat constructor.
Defined.

(** ** Path templates *)








(** ** Masked passwords *)

Definition password_param (p : param) : bool :=
  streq (p_type p) #"string" && streq (p_format p) #"password".

(** (C7) With masking on, a URL does not depend on the value of a password
    sent as a scalar query parameter (or outside the URL): whatever it is, the
    result is the same. *)
Theorem masked_password_hidden {R : RegExp_gi} o a n v v' :
  is_undef v = false → is_undef v' = false → is_array v = false → is_array v' = false →
  (∀ p, p ∈ parameters o → p_name p = n →
     password_param p = true ∧ p_in p ≠ #"path" ∧ collectionFormat p = None) →
  urlify o (pset n v a) true = urlify o (pset n v' a) true.
Proof.
  intros Hv Hv' Ha Ha' Hps. unfold urlify.
  assert (∀ s p, p ∈ parameters o →
    urlify_step (pset n v a) true s p = urlify_step (pset n v' a) true s p) as Hstep.
  { intros s p Hp. destruct (decide (p_name p = n)) as [E|E].
    - destruct (Hps p Hp E) as (Hpw & Hpath & Hcf). unfold urlify_step.
      rewrite E !field_pset streq_refl Hv Hv' (proj2 (streq_neq _ _) Hpath).
      unfold password_param in Hpw. rewrite Hpw Hcf. cbn [negb andb].
      rewrite !orb_true_r. cbn [flag]. by destruct v, v'.
    - unfold urlify_step. rewrite !field_pset. by rewrite (proj2 (streq_neq n (p_name p)) ltac:(congruence)). }
  f_equal. revert Hstep. generalize {| requestUrl := strip_fragment (op_path o); querystring := [];
    isPassword := false; qp := VUndef |}. generalize (parameters o) as ps. clear.
  induction ps as [|p ps IH]; intros s H; [done|]. cbn [fold_res].
  rewrite (H s p); [|by left]. destruct (urlify_step _ _ _ _); cbn; [|done].
  apply IH. intros s' p' Hp'. apply H. by right.
Qed.

Lemma masked_password_hidden_witness : let R : RegExp_gi := no_syntax in
  let o := {| scheme := #"http"; host := #"h"; basePath := #"/"; op_path := #"/login";
              parameters := [{| p_name := #"pw"; p_in := #"query"; p_type := #"string"; p_format := #"password"; p_required := true;
       collectionFormat := None; x_escape := None; allowEmptyValue := false |}] |} in
  urlify o (pset #"pw" (VStr #"secret") []) true = urlify o (pset #"pw" (VStr #"other") []) true.
Proof.
  intros R o. apply (masked_password_hidden o [] #"pw"); try done.
  intros p Hp _. apply list_elem_of_singleton in Hp as ->. done.
Defined.

(** A password in the path is not masked: masking leaves the substituted
    path as it is, because the flag is passed to [encodeURIComponent], which
    ignores it. *)
Theorem path_password_not_masked {R : RegExp_gi} a s p :
  p_in p = #"path" → is_undef (field a (p_name p)) = false → is_array (field a (p_name p)) = false →
  requestUrl <$> urlify_step a true s p = requestUrl <$> urlify_step a false s p.
Proof.
  intros Hin Hd Ha. unfold urlify_step. rewrite Hd Hin. cbn [negb].
  change (streq #"path" #"path") with true. cbv iota. destruct (path_regexp (p_name p)) as [reg|]; [cbn [mbind res_bind]|done].
  destruct (field a (p_name p)); try done; destruct (x_escape p) as [[]|]; unfold encodePathParam; try done;
    match goal with |- context [encode_value ?v] => by destruct (encode_value v) end.
Qed.

Lemma path_password_not_masked_witness : let R : RegExp_gi := no_syntax in
  let p := {| p_name := #"pw"; p_in := #"path"; p_type := #"string"; p_format := #"password"; p_required := true;
       collectionFormat := None; x_escape := None; allowEmptyValue := false |} in
  let s := {| requestUrl := #"/u/{pw}"; querystring := []; isPassword := false; qp := VUndef |} in
  requestUrl <$> urlify_step [(#"pw", VStr #"secret")] true s p
  = requestUrl <$> urlify_step [(#"pw", VStr #"secret")] false s p.
Proof. intros R p s. apply (path_password_not_masked [(#"pw", VStr #"secret")] s p); done. Defined.

(** Masking one password masks every scalar query parameter declared
    after it: the flag is never reset. *)
Theorem mask_is_sticky {R : RegExp_gi} a s p s' :
  isPassword s = true → p_in p = #"query" → is_undef (field a (p_name p)) = false →
  is_array (field a (p_name p)) = false → urlify_step a true s p = Ok s' →
  ∃ k, encodeQueryKey (p_name p) = Ok k ∧
    querystring s' = querystring s ++ query_sep s ++ k ++ #"=" ++ stars ∧ isPassword s' = true.
Proof.
  intros Hpw Hin Hd Ha H. unfold urlify_step in H. rewrite Hd Hin Hpw in H. cbn [negb orb flag] in H.
  change (streq #"query" #"path") with false in H. change (streq #"query" #"query") with true in H.
  cbv iota in H. destruct (encodeQueryKey (p_name p)) as [k|] eqn:K; exists k || exists [];
    destruct (collectionFormat p) as [cf|]; destruct (field a (p_name p)); try done;
    cbn in H; injection H as <-; done.
Qed.

Lemma mask_is_sticky_witness : let R : RegExp_gi := no_syntax in
  let p := {| p_name := #"q"; p_in := #"query"; p_type := #"string"; p_format := #""; p_required := true;
       collectionFormat := None; x_escape := None; allowEmptyValue := false |} in
  let s := {| requestUrl := #"/u"; querystring := #"?pw=******"; isPassword := true; qp := VUndef |} in
  ∃ s', urlify_step [(#"q", VStr #"x")] true s p = Ok s' ∧
  ∃ k, encodeQueryKey #"q" = Ok k ∧
    querystring s' = #"?pw=******" ++ query_sep s ++ k ++ #"=" ++ stars ∧ isPassword s' = true.
Proof.
  intros R p s. eexists. split; [reflexivity|].
  apply (mask_is_sticky [(#"q", VStr #"x")] s p); done.
Defined.

(** An array parameter that is left empty, where that is allowed, is sent
    with the values of the previous collection parameter: the variable that
    should be undefined still holds them. *)
Theorem empty_collection_resends {R : RegExp_gi} :
  let p n :=
    {| p_name := n; p_in := #"query"; p_type := #"array"; p_format := []; p_required := false;
       collectionFormat := Some #"multi"; x_escape := None; allowEmptyValue := true |} in
  urlify {| scheme := #"http"; host := #"h"; basePath := #"/"; op_path := #"/x";
            parameters := [p #"a"; p #"b"] |} [(#"a", VArr [VNum 1; VNum 2])] false
  = Ok #"http://h/x?a=1&a=2&b=1&b=2".
Proof. reflexivity. Qed.
