(* ===== verification/Operation.v ===== *)
(** * Operation: headers, body and execution

    The rest of [Operation.prototype]: the content types and headers of a call,
    its body, [execute] up to the request object it sends, and [asCurl]. The
    request of a mock execution is what the console shows as a curl command. *)

From S2P Require Import Prelude JsValue Uri Base64 BufferCore BufferText Buffer Cookie Auth OperationUrl.

(** The properties of an operation that [execute] reads. *)
Record operation := {
  ep : endpoint;
  method : jstr;
  consumes : list jstr;
  produces : list jstr;
  security : value;
}.

Definition json_types : list jstr := [ #"application/json"; #"application/yaml"].
Definition form_type : jstr := #"application/x-www-form-urlencoded".
Definition multipart_type : jstr := #"multipart/form-data".

(** ** Content types *)

Definition in_list (x : jstr) (l : list jstr) : bool := existsb (streq x) l.
(** [l[0]] *)
Definition first (l : list jstr) : value := match l with x :: _ => VStr x | [] => VUndef end.

Definition itemByPriority (col itemPriority : list jstr) : value :=
  match List.find (λ x, in_list x col) itemPriority with
  | Some x => VStr x
  | None => first col
  end.

Definition matchesAccept (produces : list jstr) (accepts : value) : bool :=
  if negb (truthy accepts) then true
  else match accepts with
       | VStr a => in_list a produces
       | _ => false
       end || in_list #"*/*" produces.

(** What the first loop of [setContentTypes] collects. *)
Record content_scan := {
  fileParams : nat;
  formParams : nat;
  ct_headers : list (jstr * value);
  ct_body : value;
}.

Definition scan_param (a opts : args) (s : content_scan) (p : param) : content_scan :=
  if streq (p_in p) #"formData" then
    if streq (p_type p) #"file"
    then {| fileParams := S (fileParams s); formParams := formParams s;
            ct_headers := ct_headers s; ct_body := ct_body s |}
    else {| fileParams := fileParams s; formParams := S (formParams s);
            ct_headers := ct_headers s; ct_body := ct_body s |}
  else if streq (p_in p) #"header" then
    let v := field opts (p_name p) in
    {| fileParams := fileParams s; formParams := formParams s;
       ct_headers := if is_undef v then ct_headers s else pset (p_name p) v (ct_headers s);
       ct_body := ct_body s |}
  else if streq (p_in p) #"body" && negb (is_undef (field a (p_name p))) then
    {| fileParams := fileParams s; formParams := formParams s;
       ct_headers := ct_headers s; ct_body := field a (p_name p) |}
  else s.

(** The last entry of [consumes] that is a form type. *)
Definition form_consumes (l : list jstr) : value :=
  fold_left (λ acc chk, if starts_with form_type chk || starts_with multipart_type chk
                        then VStr chk else acc) l VUndef.

(** The content type of the request body. *)
Definition choose_consumes (o : operation) (a opts : args) (s : content_scan) : value :=
  let m x := streq (method o) x in
  let hasBody := truthy (ct_body s) || (0 <? fileParams s)%nat || (0 <? formParams s)%nat in
  let requested := field opts #"requestContentType" in
  if m #"post" || m #"put" || m #"patch" || ((m #"delete" || m #"get") && hasBody) then
    let c := or_else (field a #"parameterContentType") (itemByPriority (consumes o) json_types) in
    let c := if truthy requested then requested else c in
    if (0 <? formParams s)%nat then
      let c := if truthy requested then requested
               else if (0 <? fileParams s)%nat then VStr multipart_type
               else form_consumes (consumes o) in
      if is_undef c then VStr form_type else c
    else c
  else VNull.

Definition setContentTypes (o : operation) (a opts : args) : list (jstr * value) :=
  let s := fold_left (scan_param a opts) (parameters (ep o))
             {| fileParams := 0; formParams := 0; ct_headers := []; ct_body := VUndef |} in
  let c := choose_consumes o a opts s in
  let accepts := or_else (field opts #"responseContentType") (itemByPriority (produces o) json_types) in
  let h := ct_headers s in
  let h := if (truthy c && negb (is_str [] (ct_body s))) || is_str form_type c
           then pset #"Content-Type" c h
           else match consumes o with
                | x :: _ => if streq x form_type then pset #"Content-Type" (VStr x) h else h
                | [] => h
                end in
  if truthy accepts then pset #"Accept" accepts h else h.

(** ** Header parameters *)

(** The header parameters by lower-cased name; a later one replaces an earlier. *)
Definition headerParamsByLowerCase (ps : list param) : list (jstr * param) :=
  fold_left (λ t p, if streq (p_in p) #"header" then pset (to_lower (p_name p)) p t else t) ps [].

Definition header_value (v : value) : value :=
  match v with VArr _ => VStr (to_string v) | _ => v end.

Definition getHeaderParams (o : operation) (a : args) : list (jstr * value) :=
  let table := headerParamsByLowerCase (parameters (ep o)) in
  fold_left (λ h '(k, v), match pget table (to_lower k) with
                          | Some p => pset (p_name p) (header_value v) h
                          | None => h
                          end)
    (enum a) (setContentTypes o a []).

(** ** Required parameters *)

(** The variable is an empty array until a missing parameter is assigned to it. *)
Definition getMissingParams (ps : list param) (a : args) : option jstr :=
  fold_left (λ m p, if p_required p && is_undef (field a (p_name p)) then Some (p_name p) else m)
    ps None.

(** ** Body *)

Inductive body :=
  | BValue (v : value)
  | BFormData (entries : list (jstr * value)).

Record form_entry := { fe_param : param; fe_value : value; fe_password : value }.

(** The first loop of [getBody]: the body, the form parameters, the flag kept in
    [isPassword], and whether a body parameter is undefined. *)
Record body_scan := {
  bs_body : value;
  bs_form : list (jstr * form_entry);
  bs_password : value;
  bs_hasBody : bool;
  bs_last : option param;
}.

Definition body_step (a : args) (s : body_scan) (p : param) : body_scan :=
  let v := field a (p_name p) in
  if negb (is_undef v) then
    let pw := if streq (p_type p) #"string" && streq (p_format p) #"password"
              then VStr #"password" else bs_password s in
    {| bs_body := if streq (p_in p) #"body" then v else bs_body s;
       bs_form := if streq (p_in p) #"formData"
                  then pset (p_name p) {| fe_param := p; fe_value := v; fe_password := pw |} (bs_form s)
                  else bs_form s;
       bs_password := pw; bs_hasBody := bs_hasBody s; bs_last := Some p |}
  else
    {| bs_body := bs_body s; bs_form := bs_form s; bs_password := bs_password s;
       bs_hasBody := bs_hasBody s || streq (p_in p) #"body"; bs_last := Some p |}.

(** [x && x.indexOf(s) ...] on a header. *)
Definition header_str (v : value) : res jstr := if truthy v then as_str v else Ok [].

(** The url-encoded form. *)
Definition encode_entry (mask_on : bool) (k : jstr) (e : form_entry) : res jstr :=
  let password := if mask_on then fe_password e else VUndef in
  match fe_value e with
  | VArr l => encodeQueryCollection (collectionFormat (fe_param e)) k l password
  | v => k' ← encodeURIComponent k; v' ← encode_value v; Ok (k' ++ #"=" ++ mask v' password)
  end.

Definition encode_form (mask_on : bool) (form : list (jstr * form_entry)) : res jstr :=
  fold_res (λ encoded '(k, e),
      s ← encode_entry mask_on k e;
      Ok (encoded ++ (if streq encoded [] then [] else #"&") ++ s))
    (enum form) [].

(** The multipart form of a browser with [FormData]. *)
Definition form_data_entry (a : args) (entries : list (jstr * value)) (k : jstr) (e : form_entry)
    : res (list (jstr * value)) :=
  let v := field a k in
  ty ← get v #"type";
  inner ← get v #"value";
  if is_str #"file" ty && truthy inner then Ok (entries ++ [(k, inner)])
  else match v with
       | VArr l =>
           match collectionFormat (fe_param e) with
           | Some cf =>
               if streq cf #"multi"
               then Ok (pdel k entries ++ map (λ x, (k, x)) l)
               else s ← encodeQueryCollection (Some cf) k l VUndef;
                    Ok (entries ++ [(k, VStr (join #"=" (drop 1 (split #"=" s))))])
           | None =>
               s ← encodeQueryCollection None k l VUndef;
               Ok (entries ++ [(k, VStr (join #"=" (drop 1 (split #"=" s))))])
           end
       | _ => Ok (entries ++ [(k, v)])
       end.

(** The multipart object built without [FormData]; [format] is that of the last
    parameter of the operation, and [data] lives across the loop. A collection
    sent as [multi] ends the loop. *)
Fixpoint plain_multipart (format : jstr) (a : args) (keys : list jstr)
    (acc : list (jstr * value)) (data : option jstr) : list (jstr * value) :=
  match keys with
  | [] => acc
  | k :: keys =>
      match field a k with
      | VArr l =>
          if streq format #"multi" then pset k (VArr l) acc
          else
            let delimeter := if streq format #"ssv" then #" " else if streq format #"pipes" then #"|"
                             else if streq format #"tsv" then [9] else #"," in
            let data := fold_left (λ d v, Some ((match d with
                                                 | Some ((_ :: _) as d) => d ++ delimeter
                                                 | _ => [] end) ++ to_string v)) l data in
            let v := match data with Some d => VStr d | None => VUndef end in
            plain_multipart format a keys (pset k v acc) data
      | v => plain_multipart format a keys (pset k v acc) data
      end
  end.

(** [getBody]; [hasFormData] tells whether the browser has [FormData]. *)
Definition getBody (hasFormData : bool) (o : operation) (headers : list (jstr * value)) (a : args)
    (mask_on : bool) : res (body * list (jstr * value)) :=
  let s := fold_left (body_step a) (parameters (ep o))
             {| bs_body := VUndef; bs_form := []; bs_password := VUndef; bs_hasBody := false;
                bs_last := None |} in
  contentType ← header_str (field headers #"Content-Type");
  let b := if bs_hasBody s && is_undef (bs_body s) && starts_with #"application/json" contentType
           then VStr #"{}" else bs_body s in
  let isMultiPart := contains multipart_type contentType in
  let hasFormParams := match bs_form s with [] => false | _ => true end in
  if hasFormParams && negb isMultiPart then
    encoded ← encode_form mask_on (bs_form s); Ok (BValue (VStr encoded), headers)
  else if isMultiPart then
    let headers := pset #"Content-Type" (VStr multipart_type) headers in
    if hasFormData then
      entries ← fold_res (λ acc '(k, e), form_data_entry a acc k e) (enum (bs_form s)) [];
      Ok (BFormData entries, headers)
    else
      let format := match bs_last s with
                    | Some p => match collectionFormat p with
                                | Some ((_ :: _) as f) => f | _ => #"multi" end
                    | None => #"multi"
                    end in
      Ok (BValue (VObj (plain_multipart format a (enum_keys (bs_form s)) [] None)), headers)
  else Ok (BValue b, headers).

(** ** Execution *)

(** The request object; [req] holds the parts authorizations work on. *)
Record http_request := {
  req : request;
  req_method : jstr;
  req_body : body;
}.

Inductive exec_result :=
  | MissingParams (message : jstr)
  | Sent (r : http_request).

(** The headers of both sources, the content types last. *)
Definition merge_headers (h h' : list (jstr * value)) : list (jstr * value) :=
  let copy := fold_left (λ acc '(k, v), pset k v acc) in
  copy (enum h') (copy (enum h) []).

(** [.{format}] in the URL is set from the accepted type. *)
Definition set_format (h : list (jstr * value)) (url : jstr) : res jstr :=
  if 0 <? index_of #".{format}" url then
    format ← header_str (or_else (field h #"Accept") (field h #"accept"));
    if 0 <? index_of #"json" format then Ok (replace_first #".{format}" #".json" url)
    else if 0 <? index_of #"xml" format then Ok (replace_first #".{format}" #".xml" url)
    else Ok url
  else Ok url.

(** What the caller passes besides the arguments; [opts] holds the properties
    read by name, [interceptor] is the request interceptor of a mock call. *)
Record exec_opts := {
  opts : args;
  maskPasswords : bool;
  opt_auths : option (list (jstr * auth));
  interceptor : option (request → request);
}.

Section execute.
Context {R : RegExp_gi} (date_parse : jstr → option Z) (now : Z) (hasFormData : bool).

(** The request before authorization. *)
Definition prepare (o : operation) (a : args) (x : exec_opts) : res http_request :=
  let allHeaders := getHeaderParams o a in
  let contentTypeHeaders := setContentTypes o a (opts x) in
  let headers := merge_headers allHeaders contentTypeHeaders in
  '(b, _) ← getBody hasFormData o contentTypeHeaders a (maskPasswords x);
  url ← urlify (ep o) a (maskPasswords x);
  url ← set_format headers url;
  Ok {| req := {| url := url; headers := headers; cookieJar := None;
                  clientAuthorizations := opt_auths x |};
        req_method := to_upper (method o); req_body := b |}.

(** [execute] with [mock] set: the request it would send. [t] is the table of
    the operation's client authorizations. *)
Definition execute_mock (t : authz) (o : operation) (a : args) (x : exec_opts)
    : res exec_result :=
  match getMissingParams (parameters (ep o)) a with
  | Some ((_ :: _) as m) => Ok (MissingParams (#"missing required params: " ++ m))
  | _ =>
      r ← prepare o a x;
      '(q, _) ← apply date_parse now t (req r) (security o);
      let q := match interceptor x with Some f => f q | None => q end in
      Ok (Sent {| req := q; req_method := req_method r; req_body := req_body r |})
  end.
End execute.

(** ** The curl command *)

(** [mask] of a value that is not a string yet. *)
Definition mask_value (v : value) (format : jstr) : value :=
  if streq format #"password" then VStr stars else v.

(** The elements [encodeQueryCollection] reads by index: of an array, or of the
    stars that replaced it. *)
Definition elements (v : value) : list value :=
  match v with
  | VArr l => l
  | VStr s => map (λ c, VStr [c]) s
  | _ => []
  end.

Definition curl_form_value (b : body) (name : jstr) : value :=
  match b with
  | BFormData entries => VArr (map snd (List.filter (λ e, streq (fst e) name) entries))
  | BValue (VObj o) => field o name
  | BValue _ => VUndef
  end.

Definition curl_form_param (b : body) (acc : option jstr) (p : param) : res (option jstr) :=
  if negb (streq (p_in p) #"formData") then Ok acc
  else
    let acc := default [] acc in
    let v := curl_form_value b (p_name p) in
    if negb (truthy v) then Ok (Some acc)
    else if streq (p_type p) #"file" then
      file ← get v #"name";
      Ok (Some (if truthy file
                then acc ++ #"-F " ++ p_name p ++ #"=@" ++ [34] ++ to_string file ++ [34] ++ #" "
                else acc))
    else match v with
         | VArr l =>
             if match collectionFormat p with Some cf => streq cf #"multi" | None => false end then
               items ← map_res (λ x, k ← encodeQueryKey (p_name p);
                          Ok (#"-F " ++ k ++ #"=" ++ to_string (mask_value x (p_format p)) ++ #" ")) l;
               Ok (Some (acc ++ concat items))
             else
               s ← encodeQueryCollection (collectionFormat p) (p_name p)
                     (elements (mask_value v (p_format p))) VUndef;
               Ok (Some (acc ++ #"-F " ++ s ++ #" "))
         | _ =>
             k ← encodeQueryKey (p_name p);
             Ok (Some (acc ++ #"-F " ++ k ++ #"=" ++ to_string (mask_value v (p_format p)) ++ #" "))
         end.

(** [JSON.stringify] of the body; a [FormData] object has the property [type]. *)
Definition body_json (b : body) : jstr :=
  match b with
  | BFormData _ => default [] (stringify (VObj [(#"type", VStr #"formData")]))
  | BValue v => default #"undefined" (stringify v)
  end.

Definition body_truthy (b : body) : bool :=
  match b with BFormData _ => true | BValue v => truthy v end.
Definition body_is_object (b : body) : bool :=
  match b with BFormData _ => true | BValue v => is_object v end.

(** The text of the body; a string method on another primitive throws. *)
Definition curl_body (ps : list param) (b : body) (isFormData isMultipart : bool) : res jstr :=
  text ← (if body_is_object b then
            form ← (if isMultipart then fold_res (curl_form_param b) ps None else Ok None);
            Ok (match form with Some ((_ :: _) as s) => s | _ => body_json b end)
          else match b with BValue v => as_str v | BFormData _ => Throw TypeError end);
  let text := replace_all [10] (#" \ " ++ [10] ++ #" ") (replace_all #"'" #"%27" text) in
  let text := if isFormData then text else replace_all #"&" #"%26" text in
  Ok (if isMultipart then text else #"-d '" ++ replace_all #"@" #"%40" text ++ #"'").

Definition curl_header (k : jstr) (v : value) : jstr :=
  #"--header '" ++ k ++ #": "
  ++ (match v with VStr s => replace_all #"'" #"\u0027" s | _ => to_string v end) ++ #"'".

(** [asCurl]: the operation is executed as a mock with masked passwords and
    authorized a second time. Without a required argument there is no request,
    and reading its headers throws. *)
Definition asCurl {R : RegExp_gi} (date_parse : jstr → option Z) (now : Z) (hasFormData : bool)
    (t : authz) (o : operation) (a : args) (x : exec_opts) : res jstr :=
  r ← execute_mock date_parse now hasFormData t o a x;
  match r with
  | MissingParams _ => Throw TypeError
  | Sent r =>
      '(q, _) ← apply date_parse now t (req r) (security o);
      type ← header_str (field (headers q) #"Content-Type");
      let isForm := starts_with form_type type in
      let isMultipart := starts_with multipart_type type in
      body ← (if body_truthy (req_body r)
              then s ← curl_body (parameters (ep o)) (req_body r) (isForm || isMultipart) isMultipart;
                   Ok [s]
              else Ok []);
      let results := [ #"-X " ++ to_upper (method o)]
                     ++ map (λ '(k, v), curl_header k v) (enum (headers q)) ++ body in
      Ok (#"curl " ++ join #" " results ++ #" '" ++ url q ++ #"'")
  end.

(** ** Required arguments *)

(** No parameter is reported exactly when every required argument is
    there; otherwise the last missing one is, and only that one. *)
Theorem getMissingParams_spec ps a :
  let missing := List.filter (λ p, p_required p && is_undef (field a (p_name p))) ps in
  getMissingParams ps a = p_name <$> last missing.
Proof.
  cbn zeta. unfold getMissingParams. rewrite -(fold_left_rev_right (λ p m, _)).
  induction ps as [|p ps IH] using rev_ind; [done|].
  rewrite rev_app_distr List.filter_app. cbn [rev app fold_right List.filter].
  case_if; [by rewrite last_snoc|]. by rewrite app_nil_r.
Qed.

(** (C4) A call that lacks a required argument with a nonempty name sends
    nothing: the result is the error message. *)
Theorem execute_refuses_missing {R : RegExp_gi} date_parse now hasFormData t o a x p :
  Forall (λ p, p_name p ≠ []) (parameters (ep o)) →
  p ∈ parameters (ep o) → p_required p = true → field a (p_name p) = VUndef →
  ∃ m, execute_mock date_parse now hasFormData t o a x = Ok (MissingParams m).
Proof.
  intros Hne Hp Hr Hu. unfold execute_mock.
  assert (∃ n, n ≠ [] ∧ getMissingParams (parameters (ep o)) a = Some n) as (n & Hn & ->).
  2: { destruct n; [done|]. eauto. }
  unfold getMissingParams. rewrite -(fold_left_rev_right (λ p m, _)).
  rewrite Forall_forall in Hne. rewrite list_elem_of_In in_rev -list_elem_of_In in Hp.
  assert (∀ q, q ∈ rev (parameters (ep o)) → p_name q ≠ []) as Hne'.
  { intros q Hq. apply Hne. by rewrite list_elem_of_In in_rev -list_elem_of_In. }
  revert Hne' Hp.
  induction (rev (parameters (ep o))) as [|q l IH]; intros Hne' Hp; [by apply not_elem_of_nil in Hp|].
  cbn [fold_right]. case_if; [exists (p_name q); split; [apply Hne'; by left|done]|].
  assert (p_required p && is_undef (field a (p_name p)) = true) by (by rewrite Hr Hu).
  apply elem_of_cons in Hp as [Hpq|Hp]; [subst q; congruence|].
  apply IH; [|done]. intros q' Hq'. apply Hne'. by right.
Qed.

Lemma execute_refuses_missing_witness : let R : RegExp_gi := no_syntax in ∃ m, execute_mock (λ _, None) 0 true []
  {| ep := {| scheme := #"http"; host := #"h"; basePath := #"/"; op_path := #"/x";
                       parameters := [{| p_name := #"q"; p_in := #"query"; p_type := #"string"; p_format := #""; p_required := true;
       collectionFormat := None; x_escape := None; allowEmptyValue := false |}] |};
              method := #"post"; consumes := [ #"application/json"]; produces := [ #"application/json"];
              security := VUndef |} [] {| opts := []; maskPasswords := false; opt_auths := None; interceptor := None |} = Ok (MissingParams m).
Proof.
  intros R. eapply (execute_refuses_missing (λ _, None) 0 true [] _ [] _ {| p_name := #"q"; p_in := #"query"; p_type := #"string"; p_format := #""; p_required := true;
       collectionFormat := None; x_escape := None; allowEmptyValue := false |}).
  - by repeat constructor.
  - by left.
  - done.
  - done.
Defined.

(** ** Form bodies *)

(** The pairs a form entry stands for. *)
Definition entry_pairs (k : jstr) (e : form_entry) : list (jstr * jstr) :=
  match fe_value e with
  | VArr l => collection_pairs (collectionFormat (fe_param e)) k l
  | v => [(k, to_string v)]
  end.

(** Entries whose text reads back: arrays have elements and a known format. *)
Definition clean_entry (k : jstr) (e : form_entry) : Prop :=
  wf_jstr k ∧
  match fe_value e with
  | VArr l => Forall (λ v, wf_jstr (sent_value v)) l ∧ l ≠ [] ∧
              known_format (collectionFormat (fe_param e)) = true
  | v => wf_jstr (to_string v)
  end.

Lemma plain_item_parses k s k' s' :
  wf_jstr k → wf_jstr s → encodeURIComponent k = Ok k' → encodeURIComponent s = Ok s' →
  parse_query (k' ++ #"=" ++ s') = Some [(k, s)].
Proof.
  intros Hk Hs Ek Es. apply key_value_parses; try by apply uri_decode_encode.
  1, 2: by apply (encode_no_delim k k'). all: by apply (encode_no_delim s s').
Qed.

Lemma encode_entry_parses k e s :
  clean_entry k e → encode_entry false k e = Ok s → parse_query s = Some (entry_pairs k e).
Proof.
  intros [Hk Hc] H. unfold encode_entry, entry_pairs in *.
  destruct (fe_value e) as [| | | | | |l|]; inv_res; cbn [mask is_str];
    try by (eapply plain_item_parses; [..|eassumption|eassumption]).
  destruct Hc as (Hl & Hne & Ht). by eapply collection_parses.
Qed.

(** Entries the encoder does not throw on. *)
Definition paired_entry (k : jstr) (e : form_entry) : Prop :=
  well_paired k = true ∧
  match fe_value e with
  | VArr l => Forall (λ v, well_paired (sent_value v) = true) l
  | v => well_paired (to_string v) = true
  end.

Lemma encode_entry_ok k e : paired_entry k e → ∃ s, encode_entry false k e = Ok s.
Proof.
  intros [Hk Hv]. unfold encode_entry. destruct (encode_ok _ Hk) as [k' Hk'].
  destruct (fe_value e) as [| | | | | |l|]; [..|by apply encodeQueryCollection_ok|];
    destruct (encode_ok _ Hv) as [v' Hv']; unfold encode_value; rewrite Hk'; cbn [mbind res_bind];
    rewrite Hv'; cbn; eauto.
Qed.

Lemma join_nil sep x l : join sep (x :: l) = [] → x = [].
Proof. destruct l; cbn; [done|]. by intros [-> _]%app_eq_nil. Qed.

Lemma encode_entry_nonempty k e :
  clean_entry k e → encode_entry false k e ≠ Ok [].
Proof.
  intros [Hk Hc] H. unfold encode_entry in H.
  assert (∀ (x y : jstr), x ++ #"=" ++ y ≠ []) as Hcat by by destruct x.
  destruct (fe_value e) as [| | | | | |l|]; inv_res;
    try (match type of H with ?a ++ _ = _ => by destruct a end).
  destruct Hc as (Hl & Hne & Ht). by eapply collection_parses in H as [_ H].
Qed.

(** Appending one more entry to an encoded form. *)
Lemma encode_form_step k e encoded items :
  clean_entry k e → paired_entry k e →
  (encoded = [] ∧ items = [] ∨ encoded ≠ [] ∧ parse_query encoded = Some items) →
  ∃ s, encode_entry false k e = Ok s ∧
    let encoded' := encoded ++ (if streq encoded [] then [] else #"&") ++ s in
    encoded' ≠ [] ∧ parse_query encoded' = Some (items ++ entry_pairs k e).
Proof.
  intros Hc Hp Henc. destruct (encode_entry_ok k e Hp) as [s Hs]. exists s. split; [done|].
  pose proof (encode_entry_parses k e s Hc Hs) as Hparse.
  destruct Henc as [[-> ->]|[Hne Henc]].
  - rewrite streq_refl. cbn [app]. split; [|done]. intros ->. by apply (encode_entry_nonempty k e).
  - rewrite (proj2 (streq_neq encoded []) Hne). split; [by destruct encoded|].
    by apply parse_query_app.
Qed.

Lemma encode_form_parses form :
  form ≠ [] → (∀ k e, (k, e) ∈ form → clean_entry k e ∧ paired_entry k e) →
  ∃ s, encode_form false form = Ok s ∧
    parse_query s = Some (concat (map (λ '(k, e), entry_pairs k e) (enum form))).
Proof.
  intros Hne Hc. unfold encode_form.
  assert (∀ k e, (k, e) ∈ enum form → clean_entry k e ∧ paired_entry k e) as Hc'.
  { intros k e Hin. apply Hc. by rewrite enum_perm in Hin. }
  assert (enum form ≠ []) as Hne'.
  { intros E. apply Hne. apply Permutation_nil. by rewrite -E enum_perm. }
  revert Hc' Hne'. generalize (enum form) as l. clear. intros l Hc Hne.
  assert (∀ encoded items,
    (encoded = [] ∧ items = [] ∨ encoded ≠ [] ∧ parse_query encoded = Some items) →
    ∃ s, fold_res (λ encoded '(k, e), s ← encode_entry false k e;
        Ok (encoded ++ (if streq encoded [] then [] else #"&") ++ s)) l encoded = Ok s ∧
      (l = [] ∧ s = encoded ∨
       parse_query s = Some (items ++ concat (map (λ '(k, e), entry_pairs k e) l)))) as Hloop.
  { clear Hne. induction l as [|[k e] l IH]; intros encoded items Henc; cbn [fold_res]; [eauto|].
    destruct (Hc k e) as [Hk Hp]; [by left|].
    destruct (encode_form_step k e encoded items Hk Hp Henc) as (s & -> & Hn & Hs).
    cbn [mbind res_bind]. edestruct IH as (s' & -> & Hs'); [|right; split; [exact Hn|exact Hs]|].
    - intros k' e' Hin. apply Hc. by right.
    - exists s'. split; [done|]. right. cbn [map concat]. rewrite app_assoc.
      destruct Hs' as [[-> ->]|Hs']; [by rewrite app_nil_r|done]. }
  destruct (Hloop [] []) as (s & -> & Hs); [by left|]. exists s. split; [done|]. naive_solver.
Qed.

(** The pairs a form parameter stands for. *)
Definition form_sent (a : args) (p : param) : list (jstr * jstr) :=
  if streq (p_in p) #"formData" then
    match field a (p_name p) with
    | VUndef => []
    | VArr l => collection_pairs (collectionFormat p) (p_name p) l
    | v => [(p_name p, to_string v)]
    end
  else [].

(** Form parameters whose text is well formed and reads back. *)
Definition form_clean (a : args) (p : param) : Prop :=
  let e := {| fe_param := p; fe_value := field a (p_name p); fe_password := VUndef |} in
  p_in p = #"formData" → is_undef (field a (p_name p)) = false →
  clean_entry (p_name p) e ∧ paired_entry (p_name p) e.

(** The first loop collects the form parameters that have an argument, in the
    order of their declaration. *)
Definition form_params (a : args) (ps : list param) : list param :=
  List.filter (λ p, streq (p_in p) #"formData" && negb (is_undef (field a (p_name p)))) ps.

Lemma body_scan_form a ps : ∀ s,
  NoDup (map p_name ps) → (∀ p, p ∈ ps → p_name p ∉ (bs_form s).*1) →
  ∃ pws, length pws = length (form_params a ps) ∧
    bs_form (fold_left (body_step a) ps s)
    = bs_form s ++ zip_with (λ p pw, (p_name p, {| fe_param := p; fe_value := field a (p_name p);
                                                   fe_password := pw |})) (form_params a ps) pws.
Proof.
  induction ps as [|p ps IH]; intros s Hnd Hfr; cbn [fold_left form_params List.filter].
  { exists []. split; [done|]. by rewrite app_nil_r. }
  cbn [map] in Hnd. apply NoDup_cons in Hnd as [Hp Hnd].
  assert (∀ q, q ∈ ps → p_name q ≠ p_name p) as Hq.
  { intros q Hin E. apply Hp. rewrite -E. apply list_elem_of_fmap. eauto. }
  destruct (streq (p_in p) #"formData" && negb (is_undef (field a (p_name p)))) eqn:E.
  - apply andb_true_iff in E as [Ef Ed]. unfold body_step at 2. rewrite Ed Ef. cbn [bs_form].
    set (pw := if _ && _ then _ else _).
    destruct (IH {| bs_body := if streq (p_in p) #"body" then field a (p_name p) else bs_body s;
       bs_form := pset (p_name p) {| fe_param := p; fe_value := field a (p_name p); fe_password := pw |} (bs_form s);
       bs_password := pw; bs_hasBody := bs_hasBody s; bs_last := Some p |} Hnd) as (pws & Hl & ->).
    + intros q Hin. cbn [bs_form]. rewrite pset_in. intros [H|H]; [by apply (Hq q)|].
      apply (Hfr q); [by right|done].
    + exists (pw :: pws). split; [cbn; by rewrite Hl|]. cbn [bs_form].
      rewrite pset_fresh; [|apply Hfr; by left]. by rewrite -app_assoc.
  - assert (bs_form (body_step a s p) = bs_form s) as Hs.
    { unfold body_step. destruct (streq (p_in p) #"formData"), (is_undef (field a (p_name p))); done. }
    destruct (IH (body_step a s p) Hnd) as (pws & Hl & ->); [|rewrite Hs; eauto].
    intros q Hin. rewrite Hs. apply Hfr. by right.
Qed.

Lemma form_params_sent a ps pws :
  length pws = length (form_params a ps) →
  concat (map (λ '(k, e), entry_pairs k e)
    (zip_with (λ p pw, (p_name p, {| fe_param := p; fe_value := field a (p_name p); fe_password := pw |}))
       (form_params a ps) pws)) = concat (map (form_sent a) ps).
Proof.
  revert pws. induction ps as [|p ps IH]; intros pws Hl; [done|]. cbn [map concat].
  unfold form_params in *. cbn [List.filter] in *. unfold form_sent at 1.
  destruct (streq (p_in p) #"formData"); cbn [andb] in *; [|by apply IH].
  destruct (is_undef (field a (p_name p))) eqn:U; cbn [negb] in *.
  - destruct (field a (p_name p)); try done. by apply IH.
  - destruct pws as [|pw pws]; [done|]. cbn [zip_with map concat]. injection Hl as Hl.
    rewrite IH //. f_equal. unfold entry_pairs. cbn. by destruct (field a (p_name p)).
Qed.

(** (C3) An unmasked call whose form parameters have arguments gets, unless it is sent as
    multipart, a body that reads back as exactly the submitted pairs: one for a scalar; for
    an array one for each element or, where its format has a separator, one with the
    elements joined. Parameters have different names, texts have paired surrogates, and
    arrays have elements and a known format. *)
Theorem form_body_parses hasFormData o headers a ct :
  header_str (field headers #"Content-Type") = Ok ct → contains multipart_type ct = false →
  NoDup (map p_name (parameters (ep o))) → Forall (form_clean a) (parameters (ep o)) →
  concat (map (form_sent a) (parameters (ep o))) ≠ [] →
  ∃ s items, getBody hasFormData o headers a false = Ok (BValue (VStr s), headers) ∧
    parse_query s = Some items ∧ items ≡ₚ concat (map (form_sent a) (parameters (ep o))).
Proof.
  intros Hct Hmp Hnd Hcl Hne. unfold getBody. rewrite Hct. cbn [mbind res_bind]. rewrite Hmp.
  set (s0 := {| bs_body := VUndef; bs_form := []; bs_password := VUndef; bs_hasBody := false;
                bs_last := None |}).
  destruct (body_scan_form a (parameters (ep o)) s0 Hnd) as (pws & Hl & Hf);
    [intros; apply not_elem_of_nil|].
  pose proof (form_params_sent a _ pws Hl) as Hsent. cbn [s0 bs_form app] in Hf. rewrite -Hf in Hsent.
  set (form := bs_form _) in *. clearbody form.
  destruct (encode_form_parses form) as (s & Hs & Hparse).
  - intros ->. by apply Hne.
  - intros k e Hin. rewrite Hf in Hin. apply list_elem_of_lookup in Hin as [i Hi].
    apply lookup_zip_with_Some in Hi as (p & pw & [= -> ->] & Hp & _).
    apply list_elem_of_lookup_2, list_elem_of_In, filter_In in Hp as [Hp Hb]. str_eqs.
    rewrite Forall_forall in Hcl. apply Hcl; [by apply list_elem_of_In|done|done].
  - assert (form ≠ []) as Hform by (intros ->; by apply Hne).
    destruct form as [|x form]; [done|]. cbn [andb negb]. rewrite Hs. cbn.
    eexists _, _. split_and!; [done|exact Hparse|]. rewrite -Hsent. by rewrite enum_perm.
Qed.

Lemma form_body_parses_witness :
  let p := {| p_name := #"f"; p_in := #"formData"; p_type := #"string"; p_format := #""; p_required := true;
              collectionFormat := None; x_escape := None; allowEmptyValue := false |} in
  let o := {| ep := {| scheme := #"http"; host := #"h"; basePath := #"/"; op_path := #"/x";
                       parameters := [p] |};
              method := #"post"; consumes := [form_type]; produces := []; security := VUndef |} in
  ∃ s items, getBody true o [(#"Content-Type", VStr form_type)] [(#"f", VStr #"a b")] false
      = Ok (BValue (VStr s), [(#"Content-Type", VStr form_type)]) ∧
    parse_query s = Some items ∧ items ≡ₚ [(#"f", #"a b")].
Proof.
  intros p o. apply (form_body_parses true o [(#"Content-Type", VStr form_type)] [(#"f", VStr #"a b")] form_type).
  - reflexivity.
  - reflexivity.
  - apply NoDup_singleton.
  - apply Forall_singleton. intros _ _. split; split; [by apply wf_check|by apply wf_check|done|done].
  - done.
Defined.

(** ** Content types *)

Definition scan (o : operation) (a opts : args) : content_scan :=
  fold_left (scan_param a opts) (parameters (ep o))
    {| fileParams := 0; formParams := 0; ct_headers := []; ct_body := VUndef |}.

Definition form_like (c : jstr) : bool := starts_with form_type c || starts_with multipart_type c.

Lemma form_consumes_spec l :
  form_consumes l = VUndef ∨ ∃ c, form_consumes l = VStr c ∧ c ∈ l ∧ form_like c = true.
Proof.
  unfold form_consumes. induction l as [|c l IH] using rev_ind; [by left|].
  rewrite fold_left_app. cbn [fold_left]. destruct (_ || _) eqn:E.
  - right. exists c. split_and!; [done|set_solver|done].
  - destruct IH as [->|(c' & -> & Hin & Hf)]; [by left|]. right. exists c'. set_solver.
Qed.

(** The header the function sets from its choice. *)
Lemma setContentTypes_ct o a opts :
  let c := choose_consumes o a opts (scan o a opts) in
  (truthy c = true ∧ is_str [] (ct_body (scan o a opts)) = false) ∨ is_str form_type c = true →
  field (setContentTypes o a opts) #"Content-Type" = c.
Proof.
  cbn zeta. intros H. unfold setContentTypes. fold (scan o a opts).
  set (c := choose_consumes _ _ _ _) in *.
  assert ((truthy c && negb (is_str [] (ct_body (scan o a opts)))) || is_str form_type c = true) as ->.
  { destruct H as [[-> ->]| ->]; [done|apply orb_true_r]. }
  case_if; rewrite !field_pset; done.
Qed.

(** A call with form parameters and no requested type is sent with a
    form content type: multipart when a file parameter is declared, else a form
    type the operation consumes, else the url-encoded default. *)
Theorem form_content_type o a opts :
  In (method o) [ #"post"; #"put"; #"patch"; #"delete"; #"get"] →
  truthy (field opts #"requestContentType") = false →
  (0 < formParams (scan o a opts))%nat → is_str [] (ct_body (scan o a opts)) = false →
  ∃ c, field (setContentTypes o a opts) #"Content-Type" = VStr c ∧ form_like c = true ∧
    ((0 < fileParams (scan o a opts))%nat → c = multipart_type) ∧
    (fileParams (scan o a opts) = 0%nat → c ∈ consumes o ∨ c = form_type).
Proof.
  intros Hm Hreq Hform Hbody.
  assert (choose_consumes o a opts (scan o a opts)
    = if (0 <? fileParams (scan o a opts))%nat then VStr multipart_type
      else if is_undef (form_consumes (consumes o)) then VStr form_type else form_consumes (consumes o)) as Hc.
  { unfold choose_consumes. rewrite Hreq. cbv zeta.
    assert ((0 <? formParams (scan o a opts))%nat = true) as -> by by apply Nat.ltb_lt.
    rewrite orb_true_r andb_true_r.
    assert (streq (method o) #"post" || streq (method o) #"put" || streq (method o) #"patch"
      || (streq (method o) #"delete" || streq (method o) #"get") = true) as ->.
    { repeat destruct Hm as [<-|Hm]; [done..|]. destruct Hm. }
    by destruct (0 <? fileParams (scan o a opts))%nat. }
  assert (∃ c, choose_consumes o a opts (scan o a opts) = VStr c ∧ form_like c = true ∧
    ((0 < fileParams (scan o a opts))%nat → c = multipart_type) ∧
    (fileParams (scan o a opts) = 0%nat → c ∈ consumes o ∨ c = form_type)) as (c & E & Hf & H1 & H2).
  { rewrite Hc. destruct (Nat.ltb_spec 0 (fileParams (scan o a opts))).
    - exists multipart_type. split_and!; [done|done|done|lia].
    - destruct (form_consumes_spec (consumes o)) as [->|(c & -> & Hin & Hf)]; cbn [is_undef].
      + exists form_type. split_and!; [done|done|lia|by right].
      + exists c. split_and!; [done|done|lia|by left]. }
  exists c. split_and!; [|done..]. rewrite -E. apply setContentTypes_ct. left. split; [|done].
  rewrite E. cbn. apply negb_true_iff, streq_neq. by intros ->.
Qed.

Lemma form_content_type_witness : let o := {| ep := {| scheme := #"http"; host := #"h"; basePath := #"/"; op_path := #"/x";
                       parameters := [{| p_name := #"f"; p_in := #"formData"; p_type := #"string"; p_format := #""; p_required := true;
       collectionFormat := None; x_escape := None; allowEmptyValue := false |}] |};
              method := #"post"; consumes := [ #"application/json"]; produces := [ #"application/json"];
              security := VUndef |} in
  ∃ c, field (setContentTypes o [] []) #"Content-Type" = VStr c ∧ form_like c = true ∧
    ((0 < fileParams (scan o [] []))%nat → c = multipart_type) ∧
    (fileParams (scan o [] []) = 0%nat → c ∈ consumes o ∨ c = form_type).
Proof.
  intros o. apply (form_content_type o [] []); [by left|reflexivity|vm_compute; lia|reflexivity].
Defined.

(** ** Authorizing twice *)




Section twice.
Context (date_parse : jstr → option Z) (now : Z).





Abbreviation run := (fold_res (λ '(obj, status) '(_, a),
  '(obj', newStatus) ← auth_apply date_parse now a obj; Ok (obj', status && newStatus))).




End twice.



(** ** What authorizing puts into a request *)





Section placed.
Context (date_parse : jstr → option Z) (now : Z).

Abbreviation run := (fold_res (λ '(obj, status) '(_, a),
  '(obj', newStatus) ← auth_apply date_parse now a obj; Ok (obj', status && newStatus))).










End placed.



(** ** The curl command *)

(** The URL is put between single quotes as it is, and the encoding
    leaves a single quote alone: an argument with a quote ends the quoted word
    of the command. *)
Theorem curl_url_unquoted {R : RegExp_gi} :
  let p := {| p_name := #"q"; p_in := #"query"; p_type := #"string"; p_format := []; p_required := true;
              collectionFormat := None; x_escape := None; allowEmptyValue := false |} in
  let o := {| ep := {| scheme := #"http"; host := #"h"; basePath := #"/"; op_path := #"/x";
                       parameters := [p] |};
              method := #"get"; consumes := [ #"application/json"]; produces := [ #"application/json"];
              security := VUndef |} in
  asCurl (λ _, None) 0 true [] o [(#"q", VStr #"';id;'")]
    {| opts := []; maskPasswords := true; opt_auths := None; interceptor := None |}
  = Ok #"curl -X GET --header 'Accept: application/json' 'http://h/x?q='%3Bid%3B''".
Proof. reflexivity. Qed.
