(* ===== verification/OperationModel.v ===== *)
(** * Operation: construction

    The constructor [Operation] and the methods it uses: the types of the
    parameters ([getType]), inline models ([addInlineModel], [getInlineModel]),
    signatures and samples ([getModelSignature], [getModelSampleJSON]), the
    response that counts as the success of the operation, and [help].

    The constructor changes the parameter and response objects it is given; here
    it returns the changed ones. A parameter object that occurs twice in an
    operation, or in two operations, is not shared. The parameters are an
    array of objects and the responses an object. The table of models a
    parameter's [modelSignature] points to is left out of it.

    A signature is HTML that [schemaToHTML] may render for ever: [None] is a
    rendering that has not ended within the number of rounds [rounds]. *)

From S2P Require Import Prelude JsValue SchemaMarkup SchemaHtml.

Abbreviation obj := (list (jstr * value)).

(** ** [JSON.stringify(v, null, 2)] *)

Definition gap (n : nat) : jstr := concat (replicate n #"  ").

Fixpoint stringify2 (n : nat) (v : value) : option jstr :=
  let wrap (l r : jstr) (items : list jstr) :=
    match items with
    | [] => l ++ r
    | _ => l ++ [10] ++ gap (S n) ++ join (#"," ++ [10] ++ gap (S n)) items ++ [10] ++ gap n ++ r
    end in
  match v with
  | VArr l => Some (wrap #"[" #"]" (map (λ v, default #"null" (stringify2 (S n) v)) l))
  | VObj o =>
      Some (wrap #"{" #"}" (omap (λ '(k, s), s' ← s; Some (json_quote k ++ #": " ++ s'))
              (enum (map (λ '(k, v), (k, stringify2 (S n) v)) o))))
  | _ => stringify v
  end.

(** ** Inline models *)

(** The operation's inline models are state, rendering may throw or not end. *)
Definition op_m (A : Type) : Type := list model → option (res (A * list model)).
#[export] Instance op_ret : MRet op_m := λ A a st, Some (Ok (a, st)).
#[export] Instance op_bind : MBind op_m := λ A B f m st,
  match m st with
  | Some (Ok (a, st)) => f a st
  | Some (Throw e) => Some (Throw e)
  | None => None
  end.
#[export] Instance op_fmap : FMap op_m := λ A B f m, a ← m; mret (f a).

Definition op_lift {A} (m : res A) : op_m A := λ st, Some ((λ a, (a, st)) <$> m).
Definition op_try {A} (m : option (res A)) : op_m A := λ st, option_map (fmap (λ a, (a, st))) m.
Definition oget (v : value) (k : jstr) : op_m value := op_lift (get v k).

Fixpoint map_op {A B} (f : A → op_m B) (l : list A) : op_m (list B) :=
  match l with
  | [] => mret []
  | a :: l => b ← f a; bs ← map_op f l; mret (b :: bs)
  end.

(** [resolveModel(schema, definitions)] *)
Definition resolveModel (schema definitions : value) : res (option model) :=
  ref ← get schema #"$ref";
  if negb (is_undef ref) then
    s ← as_str ref;
    let name := if starts_with #"#/definitions/" s then substring_from 14 s else s in
    d ← get definitions name;
    if truthy d then Some <$> newModel (VStr name) d else Ok None
  else
    type ← get schema #"type";
    if is_object schema && (is_str #"object" type || is_undef type)
    then Some <$> newModel VUndef schema else Ok None.

Definition addInlineModel (schema : value) : op_m value := λ st,
  match resolveModel schema (VObj []) with
  | Throw e => Some (Throw e)
  | Ok None => Some (Ok (VNull, st))
  | Ok (Some m) => Some (Ok (VStr (#"Inline Model " ++ str_of_Z (Z.of_nat (length st))), st ++ [m]))
  end.

Definition getInlineModel (inlineStr : value) (st : list model) : res (option model) :=
  let s := to_string inlineStr in
  let digits := drop 13 s in
  if prefixb #"Inline Model " s && forallb is_digit digits && negb (streq digits []) then
    s ← as_str inlineStr;
    Ok (st !! Z.to_nat (digits_value (trim (drop 12 s))))
  else Ok None.

(** ** Types of parameters *)

Definition type_name (type format : value) : value :=
  let t s := is_str s type in
  let f s := is_str s format in
  if t #"integer" && f #"int32" then VStr #"integer"
  else if t #"integer" && f #"int64" then VStr #"long"
  else if t #"integer" then VStr #"integer"
  else if t #"string" then
    if f #"date-time" then VStr #"date-time" else if f #"date" then VStr #"date" else VStr #"string"
  else if t #"number" && f #"float" then VStr #"float"
  else if t #"number" then VStr #"double"
  else if t #"boolean" then VStr #"boolean"
  else if t #"file" then VStr #"file"
  else VUndef.

Definition getType_step (rec : value → op_m value) (param : value) : op_m value :=
  type ← oget param #"type";
  format ← oget param #"format";
  items ← oget param #"items";
  ref ← oget param #"$ref";
  schema ← oget param #"schema";
  let isArray := is_str #"array" type in
  let boxed (v : value) := if isArray then VArr [v] else v in
  str ← (if isArray then (if truthy items then rec items else mret VUndef) else mret (type_name type format));
  str ← (if truthy ref then VStr <$> op_lift (simpleRef ref) else mret str);
  if truthy schema then
    sref ← oget schema #"$ref";
    if truthy sref then r ← op_lift (simpleRef sref); mret (boxed (VStr r))
    else
      stype ← oget schema #"type";
      if is_str #"object" stype then addInlineModel schema else rec schema
  else mret (boxed str).

Fixpoint getType_go (n : nat) (param : value) : op_m value :=
  match n with
  | O => op_lift stack_overflow
  | S n => getType_step (getType_go n) param
  end.

(** The recursion goes into [items] or [schema]. *)
Definition getType (param : value) : op_m value := getType_go (depth param) param.

(** ** Signatures and samples *)

Section signatures.
(** The rounds a rendering may take, the table of models, the macro for the
    default of a model's property, and the text of [new Date().toISOString()]. *)
Context (rounds : nat) (models : list (jstr * model)) (macro : value → value) (now_iso : jstr).

(** The model a type stands for: one of the table or an inline one. *)
Definition model_of (type : value) : op_m (option model) := λ st,
  match pget models (to_string type) with
  | Some m => Some (Ok (Some m, st))
  | None => op_lift (getInlineModel type st) st
  end.

Definition getModelSignature (type : value) : op_m jstr :=
  let '(listType, type) := match type with VArr l => (true, default VUndef (head l)) | _ => (false, type) end in
  let listed (s : jstr) := if listType then #"Array[" ++ s ++ #"]" else s in
  if is_undef type then mret (listed #"undefined")
  else
    m ← model_of type;
    match m with
    | Some m => listed <$> op_try (getMockSignature models macro rounds m)
    | None =>
        match type with
        | VNull => if listType then mret (listed #"null") else op_lift (Throw TypeError)
        | _ => mret (listed (to_string type))
        end
    end.

(** [createJSONSample] of a model without examples, as all models of the table
    and all inline models are. A falsy example of the definition is erased (for
    this sample: the definition the other models see keeps it here). *)
Definition createJSONSample (m : model) : res value :=
  match m_definition m with
  | VObj o =>
      schemaToJSON macro now_iso models [m_name m]
        (VObj (if truthy (field o #"example") then o else pset #"example" VUndef o))
  | VArr l => schemaToJSON macro now_iso models [m_name m] (VArr l)
  | _ => Throw TypeError
  end.

(** The text of a sample. The branch for XML nodes compares [typeof t] with a
    value it never has; asking for [nodeName] throws when the first element of
    an array is [undefined] or [null]. *)
Definition sample_text (sample : value) : res value :=
  match sample with
  | VStr _ => Ok sample
  | VArr l =>
      match l with
      | (VUndef | VNull) :: _ => Throw TypeError
      | _ => Ok (VStr (default [] (stringify2 0 sample)))
      end
  | VObj _ => Ok (VStr (default [] (stringify2 0 sample)))
  | _ => Ok sample
  end.

Definition getModelSampleJSON (type : value) : op_m value :=
  let '(listType, innerType) :=
    match type with VArr l => (true, default VUndef (head l)) | _ => (false, type) end in
  m ← model_of innerType;
  match m with
  | None => mret VUndef
  | Some m =>
      sample ← op_lift (createJSONSample m);
      if truthy sample then op_lift (sample_text (if listType then VArr [sample] else sample)) else mret VUndef
  end.

(** ** Parameters *)

(** [for (key in o) extractExtensions(key, o)] *)
Definition extract_all (o : obj) : obj :=
  fold_left (λ acc k, extractExtensions k acc VUndef) (enum_keys o) o.

(** The entries of [allowableValues] for the values of an enumeration. *)
Definition descriptive (d v : value) : value :=
  VObj [(#"value", VStr (to_string v));
        (#"isDefault", VBool (strict_eq v d || strict_eq (VStr (to_string v)) d))].

Definition allowable (enumValues d : value) : res value :=
  match enumValues with
  | VNull => Throw TypeError
  | VArr l => Ok (VObj [(#"values", VArr l); (#"descriptiveValues", VArr (map (descriptive d) l))])
  | VStr s => let l := map (λ c, VStr [c]) s in
              Ok (VObj [(#"values", VArr l); (#"descriptiveValues", VArr (map (descriptive d) l))])
  | _ => Ok (VObj [(#"values", VArr []); (#"descriptiveValues", VArr [])])
  end.

(** The default of a parameter: the macro's, or that of its examples. *)
Definition example_default (o : obj) : res obj :=
  let o := if is_undef (field o #"x-example") then o else pset #"default" (field o #"x-example") o in
  if truthy (field o #"x-examples") then
    d ← get (field o #"x-examples") #"default";
    Ok (if is_undef d then o else pset #"default" d o)
  else Ok o.

(** [param.enum || (param.items && param.items.enum)] *)
Definition enum_values (o : obj) : res value :=
  if truthy (field o #"enum") then Ok (field o #"enum")
  else if truthy (field o #"items") then get (field o #"items") #"enum" else Ok (field o #"items").

Definition is_boolean_type (innerType : value) : bool :=
  truthy innerType && streq (to_lower (to_string innerType)) #"boolean".

(** The loop body of the constructor; [parameterMacro] gives the default. *)
Definition process_param (parameterMacro : value → value) (param : value) : op_m value :=
  match param with
  | VObj o0 =>
      let o := pset #"default" (parameterMacro param) o0 in
      let isArray := is_str #"array" (field o #"type") in
      let o := if isArray then pset #"allowMultiple" (VBool true) (pset #"isList" (VBool true) o) else o in
      innerType ← getType (VObj o);
      let o := if is_boolean_type innerType
               then pset #"enum" (VArr [VBool true; VBool false]) (pset #"isList" (VBool true)
                      (pset #"allowableValues" (VObj []) o))
               else o in
      o ← op_lift (example_default (extract_all o));
      enumValues ← op_lift (enum_values o);
      o ← op_lift (if is_undef enumValues then Ok o
                   else a ← allowable enumValues (field o #"default"); Ok (pset #"allowableValues" a o));
      let innerType := if isArray then VArr [innerType] else innerType in
      let o := if isArray && is_undef (field o #"allowableValues")
               then pdel #"allowMultiple" (pdel #"isList" o) else o in
      let o := pset #"modelSignature" (VObj [(#"type", innerType)]) o in
      signature ← getModelSignature innerType;
      let o := pset #"signature" (VStr signature) o in
      sampleJSON ← getModelSampleJSON innerType;
      mret (VObj (pset #"responseClassSignature" (VStr signature) (pset #"sampleJSON" sampleJSON o)))
  | _ => op_lift (Throw TypeError)
  end.
End signatures.

(** ** Responses *)

Definition success_codes : list jstr :=
  [ #"200"; #"201"; #"202"; #"203"; #"204"; #"205"; #"206"; #"default"].

(** The response that counts as success, with its code. *)
Definition success_of (responses : obj) : option (jstr * value) :=
  code ← find (λ c, truthy (field responses c)) success_codes; Some (code, field responses code).

(** The extensions of the headers of a response. *)
Definition extract_header (h : value) : value := match h with VObj o => VObj (extract_all o) | _ => h end.

Definition extract_response (r : value) : res value :=
  match r with
  | VNull => Throw TypeError
  | VObj o =>
      match field o #"headers" with
      | VObj hs => Ok (VObj (pset #"headers" (VObj (map (λ '(k, h), (k, extract_header h)) hs)) o))
      | VArr hs => Ok (VObj (pset #"headers" (VArr (map extract_header hs)) o))
      | _ => Ok r
      end
  | _ => Ok r
  end.

(** The loop over the responses, and the extensions of the successful one. *)
Definition extract_responses (responses : obj) : res obj :=
  fold_res (λ acc k,
      let acc := extractExtensions k acc VUndef in
      if contains #"x-" k then Ok acc
      else r ← extract_response (field acc k); Ok (pset k r acc))
    (enum_keys responses) responses.

Definition extract_success (responses : obj) : res obj :=
  responses ← extract_responses responses;
  match success_of responses with
  | Some (code, VObj r) => Ok (pset code (VObj (extract_all r)) responses)
  | _ => Ok responses
  end.

(** What the success response describes: a model or the schema of a primitive,
    with the properties taken over from the response. *)
Inductive success :=
  | SuccessModel (m : model) (attached : obj)
  | SuccessSchema (schema : value) (attached : obj).

Definition attached (response : obj) : obj :=
  (#"vendorExtensions", field response #"vendorExtensions")
  :: omap (λ k, if truthy (field response k) then Some (k, field response k) else None)
       [ #"description"; #"examples"; #"headers"].

Definition successResponse (definitions : value) (response : obj) : res success :=
  let schema := field response #"schema" in
  m ← resolveModel schema definitions;
  type ← get schema #"type";
  match m with
  | Some m => Ok (SuccessModel m (attached response))
  | None =>
      if negb (truthy type) || is_str #"object" type || is_str #"array" type
      then m ← newModel VUndef schema; Ok (SuccessModel m (attached response))
      else Ok (SuccessSchema schema (attached response))
  end.

(** ** The constructor *)

Record operation := {
  o_basePath : jstr;
  o_consumes : value;
  o_produces : value;
  o_deprecated : value;
  o_host : value;
  o_method : value;
  o_nickname : value;
  o_path : value;
  o_scheme : value;
  o_schemes : value;
  o_security : value;
  o_summary : value;
  o_models : list (jstr * model);
  o_inlineModels : list model;
  o_parameters : list value;
  o_responses : obj;
  o_success : option (jstr * success);
  o_type : value;
  o_errors : list jstr;
}.

Definition trim_basePath (basePath : jstr) : jstr :=
  if negb (streq basePath #"/") && ends_with #"/" basePath then removelast basePath else basePath.

(** Text is made a boolean. *)
Definition normalize_deprecated (d : value) : value :=
  match d with
  | VStr s =>
      let t := to_lower s in
      if streq t #"true" || streq t #"yes" || streq t #"1" then VBool true
      else if streq t #"false" || streq t #"no" || streq t #"0" then VBool false
      else VBool (truthy d)
  | _ => d
  end.

(** [v || errors.push(msg)]: the number of messages takes the place of a missing
    value. *)
Definition or_push (v : value) (msg : jstr) (errors : list jstr) : value * list jstr :=
  if truthy v then (v, errors) else (VNum (Z.of_nat (length errors) + 1), errors ++ [msg]).

Definition add_models (definitions : value) (models : list (jstr * model)) : res (list (jstr * model)) :=
  fold_res (λ models '(key, d), m ← newModel (VStr key) d; Ok (pset key m models)) (entries definitions) models.

(** The type and the success response, which leaves the responses. *)
Definition take_success (definitions : value) (responses : obj) : res (obj * option (jstr * success) * value) :=
  match success_of responses with
  | Some (code, VObj r) =>
      if truthy (field r #"schema") then
        s ← successResponse definitions r;
        Ok (pdel code responses, Some (code, s), VObj r)
      else Ok (responses, None, VNull)
  | _ => Ok (responses, None, VNull)
  end.

(** [new Operation(parent, scheme, operationId, httpMethod, path, args,
    definitions, models)], where the page is at [location_host]. *)
Definition newOperation (rounds : nat) (parameterMacro macro : value → value) (now_iso location_host : jstr)
    (parent : obj) (scheme operationId httpMethod path : value) (args : obj) (definitions : value)
    (models : list (jstr * model)) : option (res operation) :=
  let '(method, errors) :=
    or_push httpMethod (#"Operation " ++ to_string operationId ++ #" is missing method.") [] in
  let '(nickname, errors) := or_push operationId #"Operations must have a nickname." errors in
  let '(path, errors) := or_push path (#"Operation " ++ to_string nickname ++ #" is missing path.") errors in
  let json := VArr [VStr #"application/json"] in
  let setup :=
    basePath ← as_str (or_else (field parent #"basePath") (VStr #"/"));
    models ← (if truthy definitions then add_models definitions models else Ok models);
    Ok (basePath, models) in
  match setup with
  | Throw e => Some (Throw e)
  | Ok (basePath, models) =>
      let params := match field args #"parameters" with VArr l => l | _ => [] end in
      match map_op (process_param rounds models macro now_iso parameterMacro) params [] with
      | None => None
      | Some (Throw e) => Some (Throw e)
      | Some (Ok (parameters, inlineModels)) =>
          Some (
            responses ← extract_success (match field args #"responses" with VObj o => o | _ => [] end);
            '(responses, success, type) ←
              take_success (if truthy definitions then definitions else VObj []) responses;
            Ok {| o_basePath := trim_basePath basePath;
                  o_consumes := or_else (field args #"consumes") (or_else (field parent #"consumes") json);
                  o_produces := or_else (field args #"produces") (or_else (field parent #"produces") json);
                  o_deprecated := normalize_deprecated (field args #"deprecated");
                  o_host := or_else (field parent #"host") (VStr location_host);
                  o_method := method; o_nickname := nickname; o_path := path;
                  o_scheme := or_else scheme (or_else (field parent #"scheme") (VStr #"http"));
                  o_schemes := or_else (field args #"schemes") (field parent #"schemes");
                  o_security := or_else (field args #"security") (field parent #"security");
                  o_summary := or_else (field args #"summary") (VStr []);
                  o_models := models; o_inlineModels := inlineModels; o_parameters := parameters;
                  o_responses := responses; o_success := success; o_type := type; o_errors := errors |})
      end
  end.

(** [help] *)
Definition help (o : operation) : res jstr :=
  fold_res (λ out param,
      name ← get param #"name"; signature ← get param #"signature"; description ← get param #"description";
      Ok (out ++ [10] ++ #"  * " ++ to_string name ++ #" (" ++ to_string signature ++ #"): " ++ to_string description))
    (o_parameters o) (to_string (o_nickname o) ++ #": " ++ to_string (o_summary o) ++ [10]).

(** [isDefaultArrayItemValue] *)
Definition isDefaultArrayItemValue (v : value) (param : value) : res bool :=
  d ← get param #"default";
  match d with
  | VArr l => Ok (existsb (strict_eq v) l)
  | _ => Ok (strict_eq v d)
  end.

(** ** Inline models *)

Lemma trim_digits d : forallb is_digit d = true → trim ([32] ++ d) = d.
Proof.
  intros H. unfold trim. cbn [app trim_left]. change (is_space 32) with true. cbv iota.
  assert (∀ s, forallb is_digit s = true → trim_left s = s) as Hs.
  { intros [|c s] E; [done|]. cbn in E. apply andb_true_iff in E as [E _]. cbn [trim_left].
    destruct (is_space c) eqn:S; [|done]. unfold is_digit, is_space in *. exfalso.
    repeat (apply orb_true_iff in S as [S|S]); lia. }
  rewrite (Hs d H) Hs; [apply rev_involutive|]. rewrite forallb_forall in H. apply forallb_forall.
  intros c Hc. apply H. by apply in_rev.
Qed.

(** The name of an inline model finds the model. *)
Lemma getInlineModel_name i st :
  getInlineModel (VStr (#"Inline Model " ++ str_of_Z (Z.of_nat i))) st = Ok (st !! i).
Proof.
  destruct (str_of_Z_digits (Z.of_nat i)) as (Hd & Hv & Hne & _); [lia|].
  unfold getInlineModel. cbn [to_string]. rewrite prefixb_app.
  change (drop 13 (#"Inline Model " ++ str_of_Z (Z.of_nat i))) with (str_of_Z (Z.of_nat i)). rewrite Hd.
  destruct (streq (str_of_Z (Z.of_nat i)) []) eqn:E; [by apply streq_spec in E|].
  cbn [andb negb as_str mbind res_bind].
  change (drop 12 (#"Inline Model " ++ str_of_Z (Z.of_nat i))) with ([32] ++ str_of_Z (Z.of_nat i)).
  by rewrite trim_digits // Hv Nat2Z.id.
Qed.

(** Adding an inline model gives a name that finds it, and every name given
    before finds the same model as before. *)
Theorem inline_model_roundtrip schema st v st' :
  addInlineModel schema st = Some (Ok (v, st')) →
  v = VNull ∧ st' = st ∨
  ∃ m, st' = st ++ [m] ∧ getInlineModel v st' = Ok (Some m) ∧
    ∀ i, (i < length st)%nat →
      getInlineModel (VStr (#"Inline Model " ++ str_of_Z (Z.of_nat i))) st' = Ok (st !! i).
Proof.
  unfold addInlineModel. destruct (resolveModel schema (VObj [])) as [[m|]|]; intros [= <- <-]; [right|by left].
  exists m. rewrite getInlineModel_name list_lookup_middle //. split_and!; [done|done|].
  intros i Hi. by rewrite getInlineModel_name lookup_app_l.
Qed.

Lemma inline_model_roundtrip_witness :
  ∃ m, [m] = [] ++ [m] ∧ getInlineModel (VStr #"Inline Model 0") [m] = Ok (Some m).
Proof.
  destruct (inline_model_roundtrip (VObj [(#"type", VStr #"object")]) [] (VStr #"Inline Model 0")
    [{| m_name := #"Inline Model"; m_definition := VObj [(#"type", VStr #"object")]; m_type := VUndef |}])
    as [[? _]|(m & Hm & H & _)]; [vm_compute; reflexivity|done|].
  exists m. rewrite Hm in H. split; [done|]. exact H.
Defined.

(** ** Types *)

Lemma op_bind_ext {A B} (m m' : op_m A) (f g : A → op_m B) st :
  m st = m' st → (∀ a st, f a st = g a st) → (m ≫= f) st = (m' ≫= g) st.
Proof. intros Hm Hf. unfold mbind, op_bind. rewrite Hm. by destruct (m' st) as [[[a st']|]|]. Qed.

Lemma op_lift_ext {A B} (m : res A) (f g : A → op_m B) st :
  (∀ a, m = Ok a → f a st = g a st) → (op_lift m ≫= f) st = (op_lift m ≫= g) st.
Proof. intros H. unfold mbind, op_bind, op_lift. destruct m as [a|]; [by apply H|done]. Qed.

Lemma getType_step_ext f g param st :
  (∀ v st, (depth v < depth param)%nat → f v st = g v st) →
  getType_step f param st = getType_step g param st.
Proof.
  intros Hfg. unfold getType_step, oget.
  apply op_lift_ext. intros type _. apply op_lift_ext. intros format _. apply op_lift_ext. intros items Hi.
  apply op_lift_ext. intros ref _. apply op_lift_ext. intros schema Hs. pose proof (height_depth param) as Hh.
  apply op_bind_ext.
  - case_if; [|done]. case_if; [|done]. apply Hfg. apply get_depth in Hi as [Hi| ->]; [lia|done..].
  - intros str st1. apply op_bind_ext; [done|]. intros str' st2. case_if; [|done].
    apply op_lift_ext. intros sref _. case_if; [done|]. apply op_lift_ext. intros stype _. case_if; [done|].
    apply Hfg. apply get_depth in Hs as [Hs| ->]; [lia|done..].
Qed.

Lemma getType_go_fuel n : ∀ m param st,
  (depth param <= n)%nat → (depth param <= m)%nat → getType_go n param st = getType_go m param st.
Proof.
  induction n as [|n IH]; intros [|m] param st Hn Hm; pose proof (depth_pos param); try lia.
  cbn [getType_go]. apply getType_step_ext. intros v st' Hv. apply IH; lia.
Qed.

(** The recursion of [getType] into element types and schemas ends: [getType]
    satisfies the equation of its body without a bound. *)
Theorem getType_terminates param st : getType param st = getType_step getType param st.
Proof.
  unfold getType at 1. pose proof (depth_pos param). destruct (depth param) as [|n] eqn:E; [lia|].
  cbn [getType_go]. apply getType_step_ext. intros v st' Hv. apply getType_go_fuel; lia.
Qed.

(** ** Parameters *)

Lemma op_bind_Ok {A B} (m : op_m A) (f : A → op_m B) st b st' :
  (m ≫= f) st = Some (Ok (b, st')) → ∃ a st1, m st = Some (Ok (a, st1)) ∧ f a st1 = Some (Ok (b, st')).
Proof. unfold mbind, op_bind. destruct (m st) as [[[a st1]|]|]; naive_solver. Qed.

Lemma op_lift_Ok {A} (m : res A) st a st' : op_lift m st = Some (Ok (a, st')) → m = Ok a ∧ st' = st.
Proof. unfold op_lift. destruct m; naive_solver. Qed.

(** The properties of a parameter the constructor writes. *)
Definition written : list jstr :=
  [ #"default"; #"allowMultiple"; #"isList"; #"enum"; #"allowableValues"; #"vendorExtensions";
    #"modelSignature"; #"signature"; #"sampleJSON"; #"responseClassSignature"].

Lemma field_pdel k k' o : k' ≠ k → field (pdel k o) k' = field o k'.
Proof. intros H. unfold field. by rewrite pget_pdel_ne. Qed.

Lemma field_pset_ne k k' v o : k' ≠ k → field (pset k v o) k' = field o k'.
Proof. intros H. rewrite field_pset. by rewrite (proj2 (streq_neq _ _)). Qed.

Lemma extract_all_field o k : k ≠ #"vendorExtensions" → field (extract_all o) k = field o k.
Proof.
  intros Hk. unfold extract_all. generalize (enum_keys o) as l. intros l.
  assert (∀ acc, field (fold_left (λ acc k, extractExtensions k acc VUndef) l acc) k = field acc k) as H;
    [|apply H]. induction l as [|x l IH]; intros acc; [done|]. cbn [fold_left]. rewrite IH.
  unfold extractExtensions. case_if; [|done]. by apply field_pset_ne.
Qed.

Lemma example_default_field o o' k : example_default o = Ok o' → k ≠ #"default" → field o' k = field o k.
Proof.
  unfold example_default. intros H Hk.
  set (o1 := if is_undef (field o #"x-example") then o else pset #"default" (field o #"x-example") o) in H.
  assert (field o1 k = field o k) as <- by (unfold o1; case_if; [done|by apply field_pset_ne]).
  destruct (truthy (field o1 #"x-examples")); [|by injection H as <-].
  apply bind_Ok in H as (d & _ & H). injection H as <-. case_if; [done|]. by apply field_pset_ne.
Qed.

Ltac other_key := solve [assumption | let H := fresh in intros H; vm_compute in H; discriminate H].

(** A key that is not in a literal list differs from each of its elements. *)
Ltac not_keys H :=
  repeat (let H1 := fresh in apply not_elem_of_cons in H as [H1 H]); clear H.
Ltac fields := repeat first
  [ rewrite field_pset_ne; [|other_key] | rewrite field_pdel; [|other_key]
  | rewrite field_pset; rewrite streq_refl ].

(** The parts of [process_param] that change the object before the signature. *)
Lemma process_param_inv rounds models macro now_iso pm o0 st p st' :
  process_param rounds models macro now_iso pm (VObj o0) st = Some (Ok (p, st')) →
  ∃ o1 o2 o3 innerType enumValues signature sampleJSON,
    (∀ k, k ∉ written → field o1 k = field o0 k) ∧
    example_default (extract_all o1) = Ok o2 ∧ enum_values o2 = Ok enumValues ∧
    (if is_undef enumValues then o3 = o2
     else ∃ a, allowable enumValues (field o2 #"default") = Ok a ∧ o3 = pset #"allowableValues" a o2) ∧
    ∃ o4, (o4 = o3 ∨ o4 = pdel #"allowMultiple" (pdel #"isList" o3)) ∧
    p = VObj (pset #"responseClassSignature" (VStr signature) (pset #"sampleJSON" sampleJSON
          (pset #"signature" (VStr signature) (pset #"modelSignature" (VObj [(#"type", innerType)]) o4)))).
Proof.
  unfold process_param. set (oa := pset #"default" (pm (VObj o0)) o0).
  set (isArray := is_str #"array" (field oa #"type")).
  set (ob := if isArray then _ else oa). intros H.
  apply op_bind_Ok in H as (innerType & st1 & _ & H).
  set (oc := if is_boolean_type innerType then _ else ob) in H.
  apply op_bind_Ok in H as (o2 & st2 & H2 & H). apply op_lift_Ok in H2 as [H2 ->].
  apply op_bind_Ok in H as (enumValues & st3 & H3 & H). apply op_lift_Ok in H3 as [H3 ->].
  apply op_bind_Ok in H as (o3 & st4 & H4 & H). apply op_lift_Ok in H4 as [H4 ->].
  apply op_bind_Ok in H as (signature & st5 & _ & H).
  apply op_bind_Ok in H as (sampleJSON & st6 & _ & H). injection H as <- <-.
  exists oc, o2, o3, (if isArray then VArr [innerType] else innerType), enumValues, signature, sampleJSON.
  split_and!; [|done|done| |].
  - intros k Hk. unfold written in Hk. not_keys Hk. unfold oc, ob, oa. destruct (is_boolean_type innerType), isArray; by fields.
  - destruct (is_undef enumValues); [by injection H4|]. apply bind_Ok in H4 as (a & Ha & H4). injection H4 as <-. eauto.
  - eexists. split; [|reflexivity]. case_if; [by right|by left].
Qed.

(** The properties the constructor does not write are kept. *)
Lemma process_param_frame rounds models macro now_iso pm o0 st p st' :
  process_param rounds models macro now_iso pm (VObj o0) st = Some (Ok (p, st')) →
  ∃ o, p = VObj o ∧ ∀ k, k ∉ written → field o k = field o0 k.
Proof.
  intros H. apply process_param_inv in H
    as (o1 & o2 & o3 & innerType & enumValues & signature & sampleJSON & H1 & H2 & H3 & Ha & o4 & H4 & ->).
  eexists. split; [reflexivity|]. intros k Hk. rewrite -(H1 k Hk). unfold written in Hk. not_keys Hk. fields.
  trans (field o3 k); [by destruct H4 as [->| ->]; fields|].
  trans (field o2 k); [destruct (is_undef enumValues); [by rewrite Ha|]; destruct Ha as (a & _ & ->); by fields|].
  rewrite (example_default_field _ _ _ H2); [|done]. by rewrite extract_all_field.
Qed.

(** Preparing a parameter keeps every property the constructor does not write,
    gives it a textual signature, and lists the values of its enumeration with
    the default marked. *)
Theorem process_param_spec rounds models macro now_iso pm o0 st p st' :
  process_param rounds models macro now_iso pm (VObj o0) st = Some (Ok (p, st')) →
  ∃ o, p = VObj o ∧
    (∀ k, k ∉ written → field o k = field o0 k) ∧
    is_string (field o #"signature") = true ∧ field o #"responseClassSignature" = field o #"signature" ∧
    ∀ l, field o #"enum" = VArr l →
      field o #"allowableValues" =
        VObj [(#"values", VArr l); (#"descriptiveValues", VArr (map (descriptive (field o #"default")) l))].
Proof.
  intros H. destruct (process_param_frame _ _ _ _ _ _ _ _ _ H) as (o & -> & Hf).
  exists o. split; [done|]. split; [done|]. apply process_param_inv in H
    as (o1 & o2 & o3 & innerType & enumValues & signature & sampleJSON & H1 & H2 & H3 & Ha & o4 & H4 & [= ->]).
  split_and!; [by fields|by fields|]. intros l. fields.
  assert (∀ k, k ≠ #"allowMultiple" → k ≠ #"isList" → field o4 k = field o3 k) as E4.
  { intros k Hk1 Hk2. destruct H4 as [->| ->]; [done|]. by fields. }
  rewrite !E4; [|other_key..]. unfold enum_values in H3. destruct (is_undef enumValues) eqn:U.
  - intros Hl. rewrite Ha in Hl. rewrite Hl in H3. by injection H3 as <-.
  - destruct Ha as (a & Ha & ->). fields. intros Hl. rewrite Hl in H3. injection H3 as <-. by injection Ha as <-.
Qed.

Lemma process_param_spec_witness :
  let param := [(#"name", VStr #"sort"); (#"in", VStr #"query"); (#"type", VStr #"string");
                (#"enum", VArr [VStr #"asc"; VStr #"desc"]); (#"default", VStr #"asc")] in
  ∃ p st, process_param 1 [] default_macro [] default_macro (VObj param) [] = Some (Ok (p, st)) ∧
  ∃ o, p = VObj o ∧ (∀ k, k ∉ written → field o k = field param k) ∧
    is_string (field o #"signature") = true ∧ field o #"responseClassSignature" = field o #"signature" ∧
    ∀ l, field o #"enum" = VArr l → field o #"allowableValues" =
      VObj [(#"values", VArr l); (#"descriptiveValues", VArr (map (descriptive (field o #"default")) l))].
Proof.
  intros param.
  destruct (process_param 1 [] default_macro [] default_macro (VObj param) []) as [[[p st]|]|] eqn:E;
    [|vm_compute in E; discriminate..].
  exists p, st. split; [done|]. apply (process_param_spec 1 [] default_macro [] default_macro param [] p st E).
Defined.

(** ** The success response *)

Lemma find_first {A} (f : A → bool) l x :
  find f l = Some x → ∃ a b, l = a ++ x :: b ∧ f x = true ∧ ∀ y, y ∈ a → f y = false.
Proof.
  induction l as [|y l IH]; [done|]. cbn. destruct (f y) eqn:E.
  - intros [= <-]. exists [], l. split_and!; [done|done|]. intros z Hz. by apply not_elem_of_nil in Hz.
  - intros H. destruct (IH H) as (a & b & -> & Hx & Ha). exists (y :: a), b. split_and!; [done|done|].
    intros z Hz. apply elem_of_cons in Hz as [->|Hz]; [done|]. by apply Ha.
Qed.

(** The success response of an operation is that of the first of the codes 200
    to 206 and [default] that has one. When it has a schema it leaves the list of
    responses, which keeps every other one, and becomes the operation's type; a
    reference of the schema to a definition is resolved to the definition's
    model. Otherwise the responses are kept. *)
Theorem take_success_spec definitions responses responses' success type :
  take_success definitions responses = Ok (responses', success, type) →
  match success with
  | None => responses' = responses ∧ type = VNull
  | Some (code, s) =>
      (∃ a b, success_codes = a ++ code :: b ∧ ∀ c, c ∈ a → truthy (field responses c) = false) ∧
      (∀ k, field responses' k = if streq k code then VUndef else field responses k) ∧
      ∃ r, field responses code = VObj r ∧ type = VObj r ∧ truthy (field r #"schema") = true ∧
        ∀ name d so, field r #"schema" = VObj so → field so #"$ref" = VStr (#"#/definitions/" ++ name) →
          get definitions name = Ok d → truthy d = true → name ≠ [] →
          s = SuccessModel {| m_name := name; m_definition := d; m_type := VUndef |} (attached r)
  end.
Proof.
  unfold take_success. destruct (success_of responses) as [[code v]|] eqn:E; [|by intros [= <- <- <-]].
  unfold success_of in E. destruct (find _ _) as [c|] eqn:F; [|done]. injection E as <- Hv.
  apply find_first in F as (a & b & Hab & Ht & Ha).
  destruct v as [| | | | | | |r]; try (by intros [= <- <- <-]).
  destruct (truthy (field r #"schema")) eqn:T; [|by intros [= <- <- <-]]. intros H.
  apply bind_Ok in H as (s & Hs & H). injection H as <- <- <-. split_and!.
  - eauto.
  - intros k. unfold field. destruct (streq k c) eqn:K.
    + apply streq_spec in K as ->. by rewrite pget_pdel_eq.
    + apply streq_neq in K. by rewrite pget_pdel_ne.
  - exists r. split_and!; [done|done|done|]. intros name d so Hso Href Hd Td Hn.
    unfold successResponse, resolveModel in Hs. cbv zeta in Hs. rewrite Hso !get_obj Href in Hs. cbn [mbind res_bind is_undef negb as_str] in Hs.
    rewrite starts_with_prefixb prefixb_app in Hs.
    change (substring_from 14 (#"#/definitions/" ++ name)) with name in Hs. rewrite Hd in Hs.
    cbn [mbind res_bind] in Hs. rewrite Td in Hs.
    assert (newModel (VStr name) d = Ok {| m_name := name; m_definition := d; m_type := VUndef |}) as Em.
    { unfold newModel. destruct (get d #"title") as [t|] eqn:Et; [|by destruct d].
      cbn [mbind res_bind]. unfold or_else. rewrite Td. destruct name; done. }
    rewrite Em in Hs. cbn in Hs. by injection Hs as <-.
Qed.

Lemma take_success_spec_witness :
  let ref := VObj [(#"schema", VObj [(#"$ref", VStr #"#/definitions/Pet")])] in
  let responses := [(#"default", ref); (#"201", ref)] in
  let definitions := VObj [(#"Pet", VObj [(#"type", VStr #"object")])] in
  ∃ responses' code s type,
    take_success definitions responses = Ok (responses', Some (code, s), type) ∧
    (∃ a b, success_codes = a ++ code :: b ∧ ∀ c, c ∈ a → truthy (field responses c) = false) ∧
    (∀ k, field responses' k = if streq k code then VUndef else field responses k).
Proof.
  intros ref responses definitions.
  destruct (take_success definitions responses) as [[[responses' [[code s]|]] type]|] eqn:E;
    [|vm_compute in E; discriminate..].
  pose proof (take_success_spec definitions responses responses' (Some (code, s)) type E) as (H1 & H2 & _).
  exists responses', code, s, type. split_and!; [done|exact H1|exact H2].
Defined.

(** ** The constructed operation *)

(** A constructed operation has a name, a path and a method from its arguments
    when they are given and no error; its base path does not end in a slash
    unless a slash is all it is or it ended in two; its parameters are the
    prepared ones in order; and its models are the given ones and one for each
    definition. *)
Theorem newOperation_spec rounds pm macro now host parent scheme id method path args definitions models o :
  newOperation rounds pm macro now host parent scheme (VStr id) (VStr method) (VStr path) args definitions models
    = Some (Ok o) → id ≠ [] → method ≠ [] → path ≠ [] →
  o_nickname o = VStr id ∧ o_method o = VStr method ∧ o_path o = VStr path ∧ o_errors o = [] ∧
  (∀ b, field parent #"basePath" = VStr (b ++ #"/") → b ≠ [] → o_basePath o = b) ∧
  (field parent #"basePath" = VUndef → o_basePath o = #"/") ∧
  (∀ l, field args #"parameters" = VArr l → length (o_parameters o) = length l ∧
     ∀ i p, l !! i = Some (VObj p) → ∃ o', o_parameters o !! i = Some (VObj o') ∧ field o' #"name" = field p #"name") ∧
  (if truthy definitions then add_models definitions models = Ok (o_models o) else o_models o = models).
Proof.
  intros H Hi Hm Hp. unfold newOperation, or_push in H.
  assert (∀ s, s ≠ [] → truthy (VStr s) = true) as Ht.
  { intros s Hs. cbn. apply negb_true_iff. by apply streq_neq. }
  rewrite !Ht in H; [|done..]. 
  destruct (as_str _) as [basePath|] eqn:Hb; [|done]. cbn [mbind res_bind] in H.
  destruct (if truthy definitions then _ else _) as [models'|] eqn:Hd; [|done]. cbn [mbind res_bind] in H.
  destruct (map_op _ _ []) as [[[parameters inlineModels]|]|] eqn:Hps; [|done..].
  injection H as H. apply bind_Ok in H as (rs & _ & H). apply bind_Ok in H as ([[rs' s] t] & _ & H).
  injection H as <-. cbn [o_nickname o_method o_path o_errors o_basePath o_parameters o_models].
  split_and!; try done.
  - intros b Eb Hb'. rewrite Eb in Hb. unfold or_else in Hb. rewrite Ht in Hb; [|by destruct b].
    injection Hb as <-. unfold trim_basePath.
    assert (streq (b ++ #"/") #"/" = false) as ->.
    { apply streq_neq. intros E. apply (f_equal length) in E. rewrite length_app in E. cbn in E.
      destruct b; [done|]. cbn in E. lia. }
    assert (ends_with #"/" (b ++ #"/") = true) as ->.
    { unfold ends_with. rewrite length_app. apply andb_true_iff. split; [apply Nat.leb_le; lia|].
      rewrite Nat.add_sub. apply streq_spec. by rewrite drop_app_length. }
    apply removelast_last.
  - intros Eb. rewrite Eb in Hb. by injection Hb as <-.
  - intros l Hl. rewrite Hl in Hps. clear -Hps. revert parameters inlineModels Hps. generalize (@nil model) as st.
    induction l as [|x l IH]; intros st ps st' Hps.
    + injection Hps as <- <-. done.
    + cbn [map_op] in Hps. apply op_bind_Ok in Hps as (p & st1 & Hx & Hps).
      apply op_bind_Ok in Hps as (ps1 & st2 & Hps & H). injection H as <- <-.
      destruct (IH _ _ _ Hps) as [Hlen Hnames]. split; [cbn; lia|]. intros [|i] q Hq; [|by apply Hnames].
      injection Hq as ->. apply process_param_frame in Hx as (o' & -> & Hf). exists o'. split; [done|].
      apply Hf. by apply (bool_decide_unpack _).
  - destruct (truthy definitions); [done|by injection Hd as <-].
Qed.

Definition pet_operation : option (res operation) :=
  newOperation 3 default_macro default_macro [] #"localhost" [(#"basePath", VStr #"/v2/")] (VStr #"https")
    (VStr #"getPet") (VStr #"get") (VStr #"/pet/{id}")
    [(#"parameters", VArr [VObj [(#"name", VStr #"id"); (#"in", VStr #"path"); (#"type", VStr #"integer")]]);
     (#"responses", VObj [(#"200", VObj [(#"schema", VObj [(#"$ref", VStr #"#/definitions/Pet")])])])]
    (VObj [(#"Pet", VObj [(#"type", VStr #"object")])]) [].

Lemma newOperation_spec_witness :
  ∃ o, pet_operation = Some (Ok o) ∧ o_nickname o = VStr #"getPet" ∧ o_basePath o = #"/v2" ∧
    length (o_parameters o) = 1%nat.
Proof.
  destruct pet_operation as [[o|]|] eqn:E; [|vm_compute in E; discriminate..].
  edestruct (newOperation_spec 3 default_macro default_macro [] #"localhost" [(#"basePath", VStr #"/v2/")]
    (VStr #"https") #"getPet" #"get" #"/pet/{id}") as (H1 & _ & _ & _ & H2 & _ & H3 & _);
    [exact E|done|done|done|].
  exists o. split_and!; [done|done|by apply (H2 #"/v2")|]. by destruct (H3 _ eq_refl) as [-> _].
Defined.

(** ** Defects *)

(** A body parameter that is an array of inline objects has no readable type. *)
Theorem array_of_inline_objects :
  let schema := VObj [(#"type", VStr #"array"); (#"items", VObj [(#"type", VStr #"object")])] in
  ∃ o st, process_param 1 [] default_macro [] default_macro (VObj [(#"in", VStr #"body"); (#"schema", schema)]) []
    = Some (Ok (VObj o, st)) ∧ field o #"signature" = VStr #"Array[undefined]".
Proof. do 2 eexists. split; vm_compute; reflexivity. Qed.

(** A body parameter that refers to an array model whose elements have no sample
    makes the constructor throw: the test for XML nodes reads a property of the
    first element. *)
Theorem sample_of_unknown_elements :
  let m := {| m_name := #"A"; m_type := VUndef;
              m_definition := VObj [(#"type", VStr #"array"); (#"items", VObj [(#"type", VStr #"file")])] |} in
  process_param 1 [(#"A", m)] default_macro [] default_macro
    (VObj [(#"in", VStr #"body"); (#"schema", VObj [(#"$ref", VStr #"#/definitions/A")])]) []
  = Some (Throw TypeError).
Proof. vm_compute. reflexivity. Qed.
