(* ===== verification/Resolver.v ===== *)
(** * Resolver

    The [Resolver] module, which replaces the references of a specification: URL
    arithmetic for relative references, the entries of the resolution table, the
    walk to a referenced location, the search for unresolved references, and the
    merge of [allOf] compositions. Documents are trees; the functions that update
    a document in place return the new tree. *)

From S2P Require Import Prelude JsValue Uri.

(** ** URLs *)

Record split_url := {
  proto : option jstr;
  udomain : option jstr;
  upath : option jstr;
  fragment : option jstr;
}.

Definition is_letter (c : Z) : bool := ((65 <=? c) && (c <=? 90)) || ((97 <=? c) && (c <=? 122)).

Fixpoint letters (s : jstr) : jstr :=
  match s with
  | c :: t => if is_letter c then c :: letters t else []
  | [] => []
  end.

(** The first match of [/[a-z]+:\/\//i], without its last three units. *)
Fixpoint find_proto (s : jstr) : option jstr :=
  let w := letters s in
  if negb (streq w []) && prefixb #"://" (drop (length w) s) then Some w
  else match s with
       | _ :: t => find_proto t
       | [] => None
       end.

Definition splitUrl (url : jstr) : split_url :=
  let pr := find_proto url in
  let url := match pr with Some p => drop (length p + 1) url | None => url end in
  let dom := if prefixb #"//" url
             then match split #"/" (drop 2 url) with d :: _ => Some d | [] => None end
             else None in
  let url := match dom with Some d => drop (2 + length d) url | None => url end in
  match split #"#" url with
  | p0 :: rest =>
      {| proto := pr; udomain := dom;
         upath := match p0 with [] => None | _ => Some p0 end;
         fragment := match rest with [] => None | _ => Some (join #"#" rest) end |}
  | [] => {| proto := pr; udomain := dom; upath := None; fragment := None |}
  end.

Definition unsplitUrl (u : split_url) : jstr :=
  let result := default [] (upath u)
                ++ match fragment u with Some f => #"#" ++ f | None => [] end in
  match udomain u with
  | None => result
  | Some d =>
      let result := match result with 47 :: t => t | _ => result end in
      let result := #"//" ++ d ++ #"/" ++ result in
      match proto u with Some p => p ++ #":" ++ result | None => result end
  end.

(** The loop over leading [..] and [.]; [path] without its last segment. *)
Fixpoint climb (path relpath : list jstr) : list jstr * list jstr :=
  match relpath with
  | r :: rest =>
      if streq r #".." then climb (removelast path) rest
      else if streq r #"." then climb path rest
      else (path, relpath)
  | [] => (path, [])
  end.

Definition joinUrl (base rel : jstr) : jstr :=
  let relsp := splitUrl rel in
  match udomain relsp with
  | Some _ => rel
  | None =>
      let result := splitUrl base in
      unsplitUrl
        match upath relsp with
        | None => {| proto := proto result; udomain := udomain result; upath := upath result;
                     fragment := fragment relsp |}
        | Some rp =>
            if prefixb #"/" rp
            then {| proto := proto result; udomain := udomain result; upath := Some rp;
                    fragment := fragment relsp |}
            else
              let path := match upath result with Some p => split #"/" p | None => [] end in
              let '(path, relpath) := climb (removelast path) (split #"/" rp) in
              {| proto := proto result; udomain := udomain result;
                 upath := Some (join #"/" (path ++ relpath)); fragment := fragment relsp |}
        end
  end.

(** ** Entries of the resolution table *)

Inductive resolve_as := AsRef | AsInline.

(** [obj] is left out: the theorems here are about the target of an entry. *)
Record entry := {
  resolveAs : resolve_as;
  eroot : jstr;
  ekey : jstr;
  elocation : value;
}.

(** Everything up to and including the last slash. *)
Definition directory (root : jstr) : jstr :=
  concat (map (λ p, p ++ #"/") (removelast (split #"/" root))).

Definition is_http (s : jstr) : bool := prefixb #"http:" s || prefixb #"https:" s.

(** [s.split('#')[1]] *)
Definition after_hash (s : jstr) : value :=
  match split #"#" s with _ :: l :: _ => VStr l | _ => VUndef end.
Definition before_hash (s : jstr) : jstr :=
  match split #"#" s with b :: _ => b | [] => [] end.

(** [resolveTo] on a property with a reference. *)
Definition resolveTo_ref (root ref : jstr) (location : value) : entry :=
  if contains #"#" ref then
    let b := before_hash ref in
    let l := after_hash ref in
    if negb (streq b []) && prefixb #"/" ref then
      {| resolveAs := AsRef; eroot := root; ekey := ref; elocation := l |}
    else if negb (streq b []) && is_http b then
      {| resolveAs := AsRef; eroot := b; ekey := to_string l; elocation := l |}
    else if negb (streq b []) then
      {| resolveAs := AsRef; eroot := directory root ++ b; ekey := ref; elocation := l |}
    else {| resolveAs := AsRef; eroot := root; ekey := ref; elocation := l |}
  else if is_http ref then
    {| resolveAs := AsRef; eroot := ref; ekey := ref; elocation := VStr [] |}
  else {| resolveAs := AsRef; eroot := directory root ++ ref; ekey := ref; elocation := VStr [] |}.

(** The root and the rest of a reference that starts with [../]. *)
Definition climb_ref (root ref : jstr) : jstr * jstr :=
  let p := split #"../" ref in
  let ups := length (List.filter (λ s, streq s []) p) in
  let p2 := split #"/" root in
  (join #"/" (removelast (take (length p2 - ups) p2)), concat p).

(** [root.match(/^https?\:\/\/([^\/?#]+)(?:[\/?#]|$)/i)]: the matched text. *)
Fixpoint host_run (s : jstr) : jstr :=
  match s with
  | c :: t => if existsb (Z.eqb c) [47; 63; 35] then [] else c :: host_run t
  | [] => []
  end.
Definition match_host (root : jstr) : option jstr :=
  let lower := to_lower (take 8 root) in
  let n := if prefixb #"https://" lower then Some 8%nat
           else if prefixb #"http://" lower then Some 7%nat else None in
  n ← n;
  let h := host_run (drop n root) in
  match h with
  | [] => None
  | _ => Some (take (n + length h + 1) root)
  end.

(** [resolveInline] on a property with a reference. *)
Definition resolveInline_ref (root0 key : jstr) (location : value) : res entry :=
  let '(root, ref, trimmed) :=
    if prefixb #"../" key then let '(r, f) := climb_ref root0 key in (r, f, true)
    else (root0, key, false) in
  '(root, location) ←
    (if contains #"#" ref then
       if prefixb #"/" ref then
         match split #"//" root with
         | p0 :: p1 :: _ =>
             Ok (p0 ++ #"//" ++ (match split #"/" p1 with h :: _ => h | [] => [] end) ++ before_hash ref,
                 after_hash ref)
         | _ => Throw TypeError
         end
       else
         let b := before_hash ref in
         Ok (if streq b [] then root
             else (if trimmed then root else join #"/" (removelast (split #"/" root))) ++ #"/" ++ b,
             after_hash ref)
     else Ok (root, location));
  let entry root location :=
    {| resolveAs := AsInline; eroot := root; ekey := key; elocation := location |} in
  if is_http ref then
    Ok (if contains #"#" ref then entry (before_hash ref) (after_hash ref) else entry ref (VStr []))
  else if prefixb #"#" ref then Ok (entry root (after_hash ref))
  else if prefixb #"/" ref && negb (contains #"#" ref) then
    Ok (match match_host root with
        | Some m => entry (m ++ substring_from 1 ref) (VStr [])
        | None => entry root (VStr ref)
        end)
  else Ok (entry root location).

(** ** Walking to a location *)

(** A segment of the path, unescaped when it holds an escaped slash. *)
Definition unescape_segment (s : jstr) : jstr :=
  if contains #"~1" s then
    let s := replace_all #"~1" #"/" (replace_all #"~0" #"~" s) in
    match s with 47 :: _ => s | _ => #"/" ++ s end
  else s.

(** The loop of [resolveItem] over the segments; [many] is [parts.length > 1]. *)
Fixpoint locate (location : value) (parts : list jstr) (many : bool) : value :=
  match parts with
  | [] => location
  | s :: rest =>
      let segment := unescape_segment s in
      match location with
      | VUndef | VNull => location
      | _ =>
          if streq segment [] && match rest with [] => true | _ => false end && many then VNull
          else match segment with
               | [] => locate location rest many
               | _ => match get location segment with
                      | Ok v => locate v rest many
                      | Throw _ => VUndef
                      end
               end
      end
  end.

Definition resolve_location (spec : value) (path : jstr) : value :=
  match path with
  | [] => spec
  | _ => let parts := split #"/" path in locate spec parts (1 <? length parts)%nat
  end.

(** The name a resolved reference gets among the definitions. *)
Definition resolved_name (key : jstr) : jstr :=
  let n := List.last (split #"/" key) [] in
  if contains #"#" n then match split #"#" n with _ :: l :: _ => l | _ => [] end else n.

(** ** Unresolved references *)

Definition add_refs (output : list (jstr * unit)) (e : jstr * (value * list (jstr * unit)))
    : list (jstr * unit) :=
  let '(k, (item, refs)) := e in
  match streq k #"$ref", item with
  | true, VStr r => pset r tt output
  | _, _ => fold_left (λ out r, pset r tt out) (enum_keys refs) output
  end.

(** The references of a document, as the keys of an object. *)
Fixpoint getRefs (v : value) : list (jstr * unit) :=
  match v with
  | VObj o => fold_left add_refs (enum (map (λ '(k, x), (k, (x, getRefs x))) o)) []
  | VArr l => fold_left (λ out r, fold_left (λ out r, pset r tt out) (enum_keys r) out)
                (map getRefs l) []
  | _ => []
  end.

(** Following the parts of a local reference; [false] at a missing property. *)
Fixpoint follow (obj : value) (parts : list jstr) : res bool :=
  match parts with
  | [] => Ok true
  | [] :: rest => follow obj rest
  | key :: rest =>
      obj' ← get obj key;
      if is_undef obj' then Ok false else follow obj' rest
  end.

Definition countUnresolvedRefs (spec : value) : res nat :=
  let refs := enum_keys (getRefs spec) in
  let remote := List.filter (λ r, negb (prefixb #"#" r)) refs in
  let local := List.filter (prefixb #"#") refs in
  found ← map_res (λ r, follow spec (split #"/" (drop 1 r))) local;
  Ok (length remote + length (List.filter negb found))%nat.

(** ** Relative references of a fetched document *)

(** [retainRoot]: every [$ref] below becomes relative to [root]. *)
Fixpoint retainRoot (root : jstr) (v : value) : value :=
  match v with
  | VObj o => VObj (map (λ '(k, x), (k, match streq k #"$ref", x with
                                        | true, VStr r => VStr (joinUrl root r)
                                        | _, _ => retainRoot root x
                                        end)) o)
  | VArr l => VArr (map (retainRoot root) l)
  | _ => v
  end.

(** The call on one property of the resolved object. *)
Definition retainRoot_key (origKey root : jstr) (v : value) : value :=
  match v with
  | VStr r => if streq origKey #"$ref" then VStr (joinUrl root r) else v
  | _ => retainRoot root v
  end.

(** ** Names for inline models *)

(** [uniqueName]; [n] bounds the turns of the loop. *)
Fixpoint uniqueName_loop (n : nat) (definitions : list (jstr * value)) (base name : jstr) (count : nat)
    : option jstr :=
  match n with
  | O => None
  | S n =>
      if negb (is_object (field definitions name)) then Some name
      else uniqueName_loop n definitions base (base ++ #"_" ++ str_of_Z (Z.of_nat count)) (S count)
  end.
Definition uniqueName (definitions : list (jstr * value)) (base : jstr) : option jstr :=
  uniqueName_loop (S (length definitions)) definitions base base 0.

(** ** Composition with [allOf] *)

Definition x_resolved_from : jstr := #"x-resolved-from".

(** [v['x-resolved-from'] = source], in strict mode. *)
Definition set_from (source v : value) : res value :=
  match v with
  | VObj o => Ok (VObj (pset x_resolved_from source o))
  | VArr _ => Ok v
  | _ => Throw TypeError
  end.

(** The two loops that drop later duplicates of the merged [required] list;
    [n] bounds the outer one. *)
Fixpoint dedup_loop (n : nat) (l : list value) : list value :=
  match n, l with
  | S n, x :: t => x :: dedup_loop n (List.filter (λ y, negb (strict_eq x y)) t)
  | _, _ => []
  end.
Definition dedup (l : list value) : list value := dedup_loop (length l) l.

(** Where a component comes from. *)
Definition component_source (component : list (jstr * value)) : res value :=
  match field component x_resolved_from with
  | VUndef => Ok (VStr #"self")
  | v => get v #"0"
  end.

(** [properties] of a component when the output has none yet. *)
Definition new_properties (source v : value) : res value :=
  match v with
  | VObj ps => VObj <$> map_res (λ '(k, p), p' ← set_from source p; Ok (k, p')) ps
  | _ => Ok v
  end.

(** One property of a component merged into the properties of the output. *)
Definition merge_property (source : value) (props : list (jstr * value)) (np : jstr * value)
    : res (list (jstr * value)) :=
  let '(name, p) := np in
  rf ← get p x_resolved_from;
  let rf := if is_undef rf || is_str #"self" rf then source else rf in
  p' ← set_from rf p;
  Ok (pset name p' props).

(** One part of a component. *)
Definition merge_part (source : value) (output : list (jstr * value)) (kv : jstr * value)
    : res (list (jstr * value)) :=
  let '(part, v) := kv in
  match pget output part with
  | None =>
      if streq part #"properties"
      then v' ← new_properties source v; Ok (pset part v' output)
      else Ok (pset part v output)
  | Some old =>
      if streq part #"properties" then
        match old, v with
        | VObj ps, VObj new =>
            ps' ← fold_res (merge_property source) (enum new) ps;
            Ok (pset part (VObj ps') output)
        | _, VObj (_ :: _) => Throw TypeError
        | _, _ => Ok output
        end
      else if streq part #"required" then
        match old with
        | VArr l => Ok (pset part (VArr (dedup (l ++ match v with VArr m => m | _ => [v] end))) output)
        | _ => Throw TypeError
        end
      else if streq part x_resolved_from then
        match old with
        | VArr l => Ok (pset part (VArr (l ++ [source])) output)
        | _ => Throw TypeError
        end
      else Ok output
  end.

Definition merge_component (output : list (jstr * value)) (component : value)
    : res (list (jstr * value)) :=
  match component with
  | VObj c => source ← component_source c; fold_res (merge_part source) (enum c) output
  | VUndef | VNull => Throw TypeError
  | _ => Ok output
  end.

(** The composed form of an object with an [allOf] array. *)
Definition compose (item : value) : res value :=
  match item with
  | VObj o =>
      match field o #"allOf" with
      | VArr components =>
          let output := pset #"x-composed" (VBool true) (pdel #"allOf" o) in
          VObj <$> fold_res merge_component components output
      | _ => Ok item
      end
  | _ => Ok item
  end.

(** [resolveAllOf]: bottom up; a null anywhere is refused. *)
Fixpoint resolveAllOf (v : value) : res value :=
  let child (x : value) (r : res value) : res value :=
    match x with
    | VNull => Throw TypeError
    | VArr _ | VObj _ => y ← r; compose y
    | _ => Ok x
    end in
  match v with
  | VObj o => VObj <$> (fix go o := match o with
                         | [] => Ok []
                         | (k, x) :: o => y ← child x (resolveAllOf x); ys ← go o; Ok ((k, y) :: ys)
                         end) o
  | VArr l => VArr <$> (fix go l := match l with
                         | [] => Ok []
                         | x :: l => y ← child x (resolveAllOf x); ys ← go l; Ok (y :: ys)
                         end) l
  | _ => Ok v
  end.

(** ** References of a document *)

(** [r] is the value of a [$ref] somewhere in the document. *)
Inductive ref_in (r : jstr) : value → Prop :=
  | ref_here o : (#"$ref", VStr r) ∈ o → ref_in r (VObj o)
  | ref_obj o k x : (k, x) ∈ o → ref_in r x → ref_in r (VObj o)
  | ref_arr l x : x ∈ l → ref_in r x → ref_in r (VArr l).

Lemma add_keys_in (ks : list jstr) (out : list (jstr * unit)) r :
  r ∈ (fold_left (λ out r, pset r tt out) ks out).*1 ↔ r ∈ out.*1 ∨ r ∈ ks.
Proof.
  revert out. induction ks as [|k ks IH]; intros out; cbn [fold_left].
  - pose proof (not_elem_of_nil (A := jstr) r). tauto.
  - rewrite IH pset_in elem_of_cons. tauto.
Qed.

Lemma enum_keys_in {V} (o : list (jstr * V)) k : k ∈ enum_keys o ↔ k ∈ o.*1.
Proof. unfold enum_keys. by rewrite enum_perm. Qed.

Lemma add_refs_in out k x refs r :
  r ∈ (add_refs out (k, (x, refs))).*1 ↔
  r ∈ out.*1 ∨ (k = #"$ref" ∧ x = VStr r) ∨ (r ∈ refs.*1 ∧ (k ≠ #"$ref" ∨ is_string x = false)).
Proof.
  unfold add_refs. destruct (streq k #"$ref") eqn:E; str_eqs.
  - destruct x; rewrite ?add_keys_in ?enum_keys_in ?pset_in; cbn; naive_solver.
  - rewrite add_keys_in enum_keys_in. naive_solver.
Qed.

Lemma getRefs_string v : is_string v = true → getRefs v = [].
Proof. by destruct v. Qed.

Lemma fold_add_refs (l : list (jstr * (value * list (jstr * unit)))) : ∀ out r,
  r ∈ (fold_left add_refs l out).*1 ↔
  r ∈ out.*1 ∨ ∃ k x refs, (k, (x, refs)) ∈ l ∧
    ((k = #"$ref" ∧ x = VStr r) ∨ (r ∈ refs.*1 ∧ (k ≠ #"$ref" ∨ is_string x = false))).
Proof.
  induction l as [|[k [x refs]] l IH]; intros out r; cbn [fold_left].
  - split; [by left|]. intros [H|(k & x & refs & H & _)]; [done|by apply not_elem_of_nil in H].
  - rewrite IH add_refs_in. split.
    + intros [[H|H]|(k' & x' & refs' & Hin & H)]; [by left|right|right].
      * exists k, x, refs. split; [by left|done].
      * exists k', x', refs'. split; [by right|done].
    + intros [H|(k' & x' & refs' & Hin & H)]; [by left; left|].
      apply elem_of_cons in Hin as [[= -> -> ->]|Hin]; [by left; right|].
      right. by exists k', x', refs'.
Qed.

Lemma getRefs_in v : ∀ r, r ∈ (getRefs v).*1 ↔ ref_in r v.
Proof.
  induction v as [| |b|n|d|s|l IH|o IH] using value_ind; intros r;
    try (split; [by intros ?%not_elem_of_nil|by inversion 1]).
  - cbn [getRefs].
    assert (∀ out, r ∈ (fold_left (λ out r, fold_left (λ out r, pset r tt out) (enum_keys r) out)
      (map getRefs l) out).*1 ↔ r ∈ out.*1 ∨ ∃ x, x ∈ l ∧ ref_in r x) as H.
    { induction IH as [|x l Hx _ IHl]; intros out; cbn [map fold_left].
      - split; [by left|]. intros [?|(x & H & _)]; [done|by apply not_elem_of_nil in H].
      - rewrite IHl add_keys_in enum_keys_in Hx. set_solver. }
    rewrite H. split.
    + intros [?%not_elem_of_nil|(x & Hx & Hr)]; [done|by econstructor].
    + inversion 1; subst. right. eauto.
  - cbn [getRefs]. rewrite fold_add_refs. setoid_rewrite enum_perm.
    assert (∀ k x refs, (k, (x, refs)) ∈ map (λ '(k, x), (k, (x, getRefs x))) o
      ↔ (k, x) ∈ o ∧ refs = getRefs x) as Hm.
    { intros k x refs. rewrite list_elem_of_fmap. split.
      - intros ([k' x'] & [= -> -> ->] & Hin). done.
      - intros [Hin ->]. by exists (k, x). }
    setoid_rewrite Hm. rewrite Forall_forall in IH. split.
    + intros [?%not_elem_of_nil|(k & x & refs & [Hin ->] & [[-> ->]|[Hr _]])]; [done|by constructor|].
      eapply ref_obj; [done|]. by apply (IH (k, x) Hin).
    + inversion 1 as [o' Hin|o' k x Hin Hr|]; subst; right.
      * exists #"$ref", (VStr r), []. split; [done|by left].
      * exists k, x, (getRefs x). split; [done|]. right. split; [by apply (IH (k, x) Hin)|].
        right. destruct x; try done. inversion Hr.
Qed.

(** The count over a list of references, for any way of following them. *)
Lemma count_zero (find : jstr → res bool) (l : list jstr) :
  (found ← map_res find (List.filter (prefixb #"#") l);
   Ok (length (List.filter (λ r, negb (prefixb #"#" r)) l) + length (List.filter negb found))%nat) = Ok 0%nat ↔
  ∀ r, r ∈ l → prefixb #"#" r = true ∧ find r = Ok true.
Proof.
  induction l as [|r l IH]; cbn [List.filter map_res].
  { split; [|done]. intros _ r H. by apply not_elem_of_nil in H. }
  setoid_rewrite elem_of_cons. destruct (prefixb #"#" r) eqn:P; cbn [negb map_res].
  - destruct (find r) as [b|e] eqn:F; cbn [mbind res_bind].
    2: { split; [done|]. intros H. destruct (H r) as [_ H']; [by left|congruence]. }
    destruct (map_res _ _) as [found|e]; cbn [mbind res_bind] in *.
    + destruct b; cbn [List.filter negb length] in *.
      * rewrite IH. naive_solver.
      * split; [intros [= H]; lia|]. intros H. destruct (H r) as [_ H']; [by left|congruence].
    + split; [done|]. intros H. apply (proj2 IH). naive_solver.
  - destruct (map_res _ _) as [found|e]; cbn [mbind res_bind length] in *;
      (split; [by intros [= H]|]); intros H; destruct (H r) as [H' _]; [by left|congruence|by left|congruence].
Qed.

Lemma countUnresolvedRefs_follow spec :
  countUnresolvedRefs spec = Ok 0%nat ↔
  ∀ r, ref_in r spec → prefixb #"#" r = true ∧ follow spec (split #"/" (drop 1 r)) = Ok true.
Proof. setoid_rewrite <- getRefs_in. setoid_rewrite <- enum_keys_in. apply count_zero. Qed.

(** *** The count and the lookup

    [countUnresolvedRefs] follows the raw segments of a reference and asks whether a value
    is undefined; [resolveItem] unescapes segments and asks for a value that is neither
    undefined nor null. They agree on references without escapes in documents without
    nulls. *)

Fixpoint no_null (v : value) : bool :=
  match v with
  | VNull => false
  | VArr l => forallb no_null l
  | VObj o => forallb (λ p, no_null p.2) o
  | _ => true
  end.

(** The value [resolveItem] accepts. *)
Definition has_value (v : value) : bool := match v with VUndef | VNull => false | _ => true end.

(** A reference without an escaped slash, whose path does not end in one. *)
Definition plain_path (path : jstr) : bool :=
  let parts := split #"/" path in
  forallb (λ s, negb (contains #"~1" s)) parts &&
  match last parts with Some [] => (length parts <=? 1)%nat | _ => true end.

Lemma no_null_get v k x : no_null v = true → get v k = Ok x → no_null x = true.
Proof.
  destruct v as [| |b|n|d|s|l|o]; cbn [get no_null]; intros Hv H; try done; try (by injection H as <-).
  - destruct (streq k #"length"); [by injection H as <-|]. destruct (canonical_index k); injection H as <-; [|done]. by destruct (s !! _).
  - destruct (streq k #"length"); [by injection H as <-|]. destruct (canonical_index k) as [n|]; injection H as <-; [|done].
    destruct (l !! Z.to_nat n) as [y|] eqn:E; [|done]. cbn. apply list_elem_of_lookup_2 in E. rewrite forallb_forall in Hv. by apply Hv, list_elem_of_In.
  - injection H as <-. destruct (pget o k) as [y|] eqn:E; [|done]. cbn. apply pget_some_in in E. rewrite forallb_forall in Hv.
    by apply (Hv (k, y)), list_elem_of_In.
Qed.

Lemma follow_locate many parts : ∀ v,
  no_null v = true → is_undef v = false → forallb (λ s, negb (contains #"~1" s)) parts = true →
  (match last parts with Some [] => many = false | _ => True end) →
  follow v parts = Ok (has_value (locate v parts many)).
Proof.
  induction parts as [|s parts IH]; intros v Hn Hu He Hl; [by destruct v|].
  cbn [forallb] in He. apply andb_true_iff in He as [Hs He]. apply negb_true_iff in Hs.
  assert (match last parts with Some [] => many = false | _ => True end) as Hl' by (by destruct parts).
  cbn [locate follow]. unfold unescape_segment. rewrite Hs.
  assert (∀ x y : value, match v with VUndef | VNull => x | _ => y end = y) as -> by (by destruct v).
  destruct s as [|c s].
  - assert (streq [] [] && match parts with [] => true | _ => false end && many = false) as -> by (destruct parts; [by rewrite Hl|done]). by apply IH.
  - cbn [streq andb]. destruct (get v (c :: s)) as [x|e] eqn:G; cbn [mbind res_bind].
    2: { exfalso. destruct v; try done; cbn [get] in G; by repeat case_match. }
    pose proof (no_null_get _ _ _ Hn G) as Hx. destruct (is_undef x) eqn:U; [|by apply IH].
    destruct x; try done. by destruct parts.
Qed.

(** (C27) The count of unresolved references agrees with the lookup: in a document without
    nulls whose references have no escaped slash and do not end in a slash, the count is
    zero exactly when every [$ref] is local and [resolveItem] finds a value for its path.
    ([escaped_reference_counted] shows the disagreement where a slash is escaped.) *)
Theorem countUnresolvedRefs_zero spec :
  no_null spec = true → is_undef spec = false → (∀ r, ref_in r spec → plain_path (drop 1 r) = true) →
  countUnresolvedRefs spec = Ok 0%nat ↔
  ∀ r, ref_in r spec → ∃ path, r = #"#" ++ path ∧ has_value (resolve_location spec path) = true.
Proof.
  intros Hn Hu Hp. rewrite countUnresolvedRefs_follow.
  assert (∀ r, ref_in r spec → (follow spec (split #"/" (drop 1 r)) = Ok true ↔ has_value (resolve_location spec (drop 1 r)) = true)) as Hf.
  { intros r Hr. specialize (Hp r Hr). set (path := drop 1 r) in *. clearbody path. unfold plain_path in Hp. apply andb_true_iff in Hp as [He Hl].
    unfold resolve_location. destruct path as [|c path]; [split; [by destruct spec|done]|].
    rewrite (follow_locate (1 <? length (split #"/" (c :: path)))%nat) //.
    - destruct (has_value _); split; intros H; congruence.
    - destruct (last _) as [[|]|]; try done. apply Nat.ltb_ge. by apply Nat.leb_le. }
  assert (∀ r, prefixb #"#" r = true ↔ r = #"#" ++ drop 1 r) as Hpre.
  { intros [|c r]; [done|]. change #"#" with [35]. cbn [prefixb drop app]. rewrite andb_true_r Z.eqb_eq. split; [by intros <-|by intros [= ->]]. }
  split; intros H r Hr.
  - destruct (H r Hr) as [H1 H2]. exists (drop 1 r). split; [by apply Hpre|by apply Hf].
  - destruct (H r Hr) as (path & -> & Hv). split; [done|]. by apply Hf.
Qed.

Lemma countUnresolvedRefs_zero_witness :
  let spec := VObj [(#"a", VObj [(#"$ref", VStr #"#/b")]); (#"b", VNum 1)] in
  countUnresolvedRefs spec = Ok 0%nat ↔
  ∀ r, ref_in r spec → ∃ path, r = #"#" ++ path ∧ has_value (resolve_location spec path) = true.
Proof.
  intros spec. apply (countUnresolvedRefs_zero spec); [reflexivity|reflexivity|]. intros r Hr. apply getRefs_in in Hr.
  apply list_elem_of_singleton in Hr as ->. reflexivity.
Defined.

(** A reference to a path whose slash is escaped is found by the lookup and counted as
    unresolved. *)
Example escaped_reference_counted :
  let spec := VObj [(#"x", VObj [(#"$ref", VStr #"#/paths/~1pets")]); (#"paths", VObj [(#"/pets", VObj [])])] in
  countUnresolvedRefs spec = Ok 1%nat ∧ resolve_location spec #"/paths/~1pets" = VObj [].
Proof. split; vm_compute; reflexivity. Qed.

(** After a fetched document is made absolute, its references are
    exactly the old ones joined with the root it was fetched from. *)
Theorem retainRoot_refs root v r :
  ref_in r (retainRoot root v) ↔ ∃ r', ref_in r' v ∧ r = joinUrl root r'.
Proof.
  revert r. induction v as [| |b|n|d|s|l IH|o IH] using value_ind; intros r;
    try (split; [by inversion 1|by intros (r' & H & _); inversion H]);
    rewrite Forall_forall in IH; cbn [retainRoot].
  - split.
    + inversion 1 as [| |l' x Hin Hr]; subst. apply list_elem_of_fmap in Hin as (y & -> & Hy).
      apply (IH y Hy) in Hr as (r' & Hr' & ->). exists r'. split; [by econstructor|done].
    + intros (r' & H & ->). inversion H as [| |l' x Hin Hr]; subst.
      apply (ref_arr _ _ (retainRoot root x)); [by apply list_elem_of_fmap; eauto|].
      apply IH; [done|eauto].
  - split.
    + inversion 1 as [o' Hin|o' k x Hin Hr|]; subst;
        apply list_elem_of_fmap in Hin as ([k' y] & E & Hy); injection E as E1 E2;
        destruct (streq k' #"$ref") eqn:K; str_eqs.
      * destruct y as [| |b|n|d|s|l|o2]; try discriminate E2. injection E2 as ->. subst k'.
        exists s. split; [by constructor|done].
      * congruence.
      * assert (ref_in r (retainRoot root y)) as Hr'
          by (destruct y as [| |b|n|d|s|l|o2]; rewrite E2 in Hr; try done; inversion Hr).
        apply (IH (k', y) Hy) in Hr' as (r' & Hr' & ->). exists r'. split; [by eapply ref_obj|done].
      * rewrite E2 in Hr. apply (IH (k', y) Hy) in Hr as (r' & Hr' & ->). exists r'.
        split; [by eapply ref_obj|done].
    + intros (r' & H & ->). inversion H as [o' Hin|o' k x Hin Hr|]; subst.
      * apply ref_here. apply list_elem_of_fmap. exists (#"$ref", VStr r'). split; [done|done].
      * apply (ref_obj _ _ k (retainRoot root x)); [|by apply (IH (k, x) Hin); eauto].
        apply list_elem_of_fmap. exists (k, x). split; [|done]. f_equal.
        destruct (streq k #"$ref"); [|done]. destruct x; try done. inversion Hr.
Qed.

(** ** Names for inline models *)

Lemma uniqueName_loop_spec defs base n : ∀ k,
  (∃ j, (k <= j < k + n)%nat ∧ is_object (field defs (candidate base j)) = false) →
  ∃ j, (k <= j < k + n)%nat ∧ uniqueName_loop n defs base (candidate base k) k = Some (candidate base j) ∧
    is_object (field defs (candidate base j)) = false ∧
    ∀ i, (k <= i < j)%nat → is_object (field defs (candidate base i)) = true.
Proof.
  induction n as [|n IH]; intros k (j & Hj & Hf); [lia|]. cbn [uniqueName_loop].
  destruct (is_object (field defs (candidate base k))) eqn:E; cbn [negb].
  - destruct (IH (S k)) as (j' & Hj' & Hs & Hf' & Hall).
    { exists j. split; [|done]. destruct (decide (j = k)) as [->|]; [congruence|lia]. }
    exists j'. split_and!; [lia|lia| |done|].
    + rewrite -Hs. done.
    + intros i Hi. destruct (decide (i = k)) as [->|]; [done|]. apply Hall. lia.
  - exists k. split_and!; [lia|lia|done|done|lia].
Qed.

(** The search for a free definition name ends within one turn more
    than there are definitions and gives the first name of [base], [base_0],
    [base_1], ... that no model has. *)
Theorem uniqueName_fresh defs base :
  ∃ j, (j <= length defs)%nat ∧ uniqueName defs base = Some (candidate base j) ∧
    is_object (field defs (candidate base j)) = false ∧
    ∀ i, (i < j)%nat → is_object (field defs (candidate base i)) = true.
Proof.
  destruct (fresh_among (candidate base) (defs.*1)) as (j & Hj & Hfree); [apply candidate_inj|].
  rewrite length_map in Hj.
  destruct (uniqueName_loop_spec defs base (S (length defs)) 0) as (j' & Hj' & Hs & Hf & Hall).
  { exists j. split; [lia|]. unfold field. by rewrite (proj2 (pget_none _ _) Hfree). }
  exists j'. split_and!; [lia|exact Hs|done|]. intros i Hi. apply Hall. lia.
Qed.

(** ** Joining URLs *)

Definition hash (f : option jstr) : jstr := match f with Some f => #"#" ++ f | None => [] end.

Lemma letters_app p t :
  forallb is_letter p = true → letters (p ++ #"://" ++ t) = p.
Proof.
  induction p as [|c p IH]; intros H; [done|]. cbn in H. apply andb_true_iff in H as [Hc H].
  cbn [app letters]. rewrite Hc. by rewrite IH.
Qed.

Lemma find_proto_abs p t :
  p ≠ [] → forallb is_letter p = true → find_proto (p ++ #"://" ++ t) = Some p.
Proof.
  intros Hp Hl. destruct p as [|c p]; [done|]. cbn [app]. unfold find_proto; fold find_proto.
  change (c :: p ++ #"://" ++ t) with ((c :: p) ++ #"://" ++ t).
  rewrite letters_app // drop_app_length prefixb_app. done.
Qed.

Lemma find_proto_none s : 58 ∉ s → find_proto s = None.
Proof.
  induction s as [|c s IH]; intros H; [done|]. cbn [find_proto].
  assert (∀ t, 58 ∉ t → prefixb #"://" t = false) as Hp.
  { intros t Ht. destruct t as [|d t]; [done|].
    change (prefixb #"://" (d :: t)) with ((58 =? d) && prefixb #"//" t).
    replace (58 =? d) with false; [done|]. symmetry. apply Z.eqb_neq. set_solver. }
  rewrite Hp; [|intros Hin; apply H; rewrite -(take_drop (length (letters (c :: s))) (c :: s)); set_solver].
  rewrite andb_false_r. apply IH. set_solver.
Qed.

Lemma split_hash p f :
  35 ∉ p → split #"#" (p ++ hash f) = p :: match f with Some f => split #"#" f | None => [] end.
Proof.
  intros H. destruct f as [f|]; cbn [hash].
  - change (p ++ #"#" ++ f) with (p ++ 35 :: f). by apply split_cut.
  - rewrite app_nil_r. by apply split_none.
Qed.

Lemma hash_fragment f rest :
  rest = match f with Some f => split #"#" f | None => [] end →
  match rest with [] => None | _ :: _ => Some (join #"#" rest) end = f.
Proof.
  intros ->. destruct f as [f|]; [|done].
  destruct (split #"#" f) eqn:E; [by apply (split_go_not_nil #"#" [] 0) in E|].
  rewrite -E. f_equal. by apply join_split.
Qed.

(** An absolute URL: scheme, authority, rooted path, fragment. *)
Definition abs_url (p d path : jstr) (f : option jstr) : jstr := p ++ #"://" ++ d ++ path ++ hash f.

Lemma splitUrl_abs p d t f :
  p ≠ [] → forallb is_letter p = true → 47 ∉ d → 35 ∉ t →
  splitUrl (abs_url p d (47 :: t) f)
  = {| proto := Some p; udomain := Some d; upath := Some (47 :: t); fragment := f |}.
Proof.
  intros Hp Hl Hd Ht. unfold splitUrl, abs_url. rewrite find_proto_abs //.
  assert (drop (length p + 1) (p ++ #"://" ++ d ++ (47 :: t) ++ hash f)
          = #"//" ++ d ++ (47 :: t) ++ hash f) as ->.
  { change (p ++ #"://" ++ d ++ (47 :: t) ++ hash f) with (p ++ [58] ++ #"//" ++ d ++ (47 :: t) ++ hash f).
    rewrite app_assoc. replace (length p + 1)%nat with (length (p ++ [58%Z])) by (rewrite length_app; done).
    by rewrite drop_app_length. }
  rewrite prefixb_app. change (drop 2 (#"//" ++ d ++ (47 :: t) ++ hash f)) with (d ++ 47 :: (t ++ hash f)).
  change #"/" with [47]. rewrite split_cut //.
  assert (drop (2 + length d) (#"//" ++ d ++ (47 :: t) ++ hash f) = (47 :: t) ++ hash f) as ->.
  { change (#"//" ++ d ++ (47 :: t) ++ hash f) with (47 :: 47 :: (d ++ (47 :: t) ++ hash f)).
    cbn [Nat.add drop]. by rewrite drop_app_length. }
  rewrite split_hash; [|rewrite elem_of_cons; intros [?|?]; done]. by rewrite (hash_fragment f _ eq_refl).
Qed.

Lemma unsplitUrl_abs p d t f :
  unsplitUrl {| proto := Some p; udomain := Some d; upath := Some (47 :: t); fragment := f |}
  = abs_url p d (47 :: t) f.
Proof. unfold unsplitUrl, abs_url. cbn. by destruct f. Qed.

Lemma splitUrl_rel c r f :
  58 ∉ c :: r → c ≠ 47 → 35 ∉ c :: r → (∀ g, f = Some g → 58 ∉ g) →
  splitUrl ((c :: r) ++ hash f)
  = {| proto := None; udomain := None; upath := Some (c :: r); fragment := f |}.
Proof.
  intros H58 Hc H35 Hf. unfold splitUrl. rewrite find_proto_none.
  2: { rewrite elem_of_app. intros [?|H]; [done|]. destruct f as [g|]; cbn in H; [|by apply not_elem_of_nil in H].
       apply elem_of_cons in H as [?|H]; [done|]. by apply (Hf g). }
  assert (prefixb #"//" ((c :: r) ++ hash f) = false) as ->.
  { change (prefixb #"//" ((c :: r) ++ hash f)) with ((47 =? c) && prefixb #"/" (r ++ hash f)).
    replace (47 =? c) with false; [done|]. symmetry. apply Z.eqb_neq. congruence. }
  rewrite split_hash //. by rewrite (hash_fragment f _ eq_refl).
Qed.

Lemma climb_ups k path names :
  match names with r :: _ => r ≠ #".." ∧ r ≠ #"." | [] => True end →
  climb path (replicate k #".." ++ names) = (take (length path - k) path, names).
Proof.
  intros Hn. revert path. induction k as [|k IH]; intros path; cbn [replicate app climb].
  - rewrite Nat.sub_0_r firstn_all. destruct names as [|r names]; [done|]. destruct Hn as [H1 H2].
    cbn [climb]. by rewrite (proj2 (streq_neq _ _) H1) (proj2 (streq_neq _ _) H2).
  - rewrite streq_refl IH. f_equal. rewrite removelast_firstn_len length_take take_take. f_equal. lia.
Qed.

(** The file name of a relative reference and the directories it climbs. *)
Definition rel_ref (k : nat) (names : list jstr) : jstr := join #"/" (replicate k #".." ++ names).

Definition plain_segment (s : jstr) : Prop := 47 ∉ s ∧ 35 ∉ s ∧ 58 ∉ s.

Lemma join_no (c : Z) sep l : c ∉ sep → Forall (λ s, c ∉ s) l → c ∉ join sep l.
Proof.
  intros Hs HF. induction HF as [|x l Hx HF IH]; [apply not_elem_of_nil|].
  destruct l as [|y l]; [done|]. rewrite join_cons // !elem_of_app. naive_solver.
Qed.

(** Joining an absolute base with a relative reference: the file name of
    the base is dropped, each [..] drops one directory, the remaining segments
    are appended, and the fragment is that of the reference. *)
Theorem joinUrl_relative p d dirs file f k name names g :
  p ≠ [] → forallb is_letter p = true → 47 ∉ d → Forall plain_segment (dirs ++ [file]) →
  Forall plain_segment (name :: names) → name ≠ [] → name ≠ #".." → name ≠ #"." →
  (k <= length dirs)%nat → (∀ x, g = Some x → 58 ∉ x) →
  joinUrl (abs_url p d (join #"/" ([] :: dirs ++ [file])) f) (rel_ref k (name :: names) ++ hash g)
  = abs_url p d (join #"/" ([] :: take (length dirs - k) dirs ++ name :: names)) g.
Proof.
  intros Hp Hl Hd Hdirs Hnames Hne Hdd Hdot Hk Hg.
  set (segs := replicate k #".." ++ name :: names).
  assert (∀ c, c = 47 ∨ c = 35 ∨ c = 58 → Forall (λ s, c ∉ s) segs) as Hseg.
  { intros c Hc. apply Forall_app. split.
    - apply Forall_replicate. change #".." with [46; 46]. rewrite !not_elem_of_cons.
      split_and!; [lia|lia|apply not_elem_of_nil].
    - eapply Forall_impl; [exact Hnames|]. intros s (? & ? & ?). by destruct Hc as [->|[->| ->]]. }
  assert (∃ c r, rel_ref k (name :: names) = c :: r ∧ c ≠ 47) as (c & r & Er & Hc).
  { unfold rel_ref. fold segs. assert (∃ x t rest, segs = (x :: t) :: rest ∧ x ≠ 47) as (x & t & rest & E & Hx).
    { unfold segs. destruct k as [|k]; cbn.
      - destruct name as [|x name]; [done|]. exists x, name, names. split; [done|].
        apply Forall_cons in Hnames as [(H & _) _]. set_solver.
      - exists 46, [46]. eexists. split; [done|lia]. }
    rewrite E. destruct rest; [by exists x, t|]. rewrite join_cons //. cbn. by eexists _, _. }
  assert (∀ x, x = 35 ∨ x = 58 → x ∉ c :: r) as Hno.
  { intros x Hx. rewrite -Er. apply join_no; [change #"/" with [47]; set_solver by lia|apply Hseg; lia]. }
  unfold joinUrl. rewrite Er splitUrl_rel; [|by apply Hno; lia|done|by apply Hno; lia|done].
  cbn [udomain upath fragment].
  assert (∃ t, join #"/" ([] :: dirs ++ [file]) = 47 :: t ∧ 35 ∉ t) as (t & Et & Ht).
  { rewrite join_cons; [|by destruct dirs]. eexists. split; [done|].
    apply join_no; [change #"/" with [47]; set_solver by lia|].
    eapply Forall_impl; [exact Hdirs|]. by intros s (? & ? & ?). }
  rewrite Et splitUrl_abs //. cbn [proto udomain upath fragment].
  assert (split #"/" (47 :: t) = [] :: dirs ++ [file]) as Hsplit.
  { rewrite -Et. apply split_join; [done|]. constructor; [apply not_elem_of_nil|].
    eapply Forall_impl; [exact Hdirs|]. by intros s (? & ? & ?). }
  assert (split #"/" (c :: r) = segs) as Hsegs.
  { rewrite -Er. apply split_join; [unfold segs; by destruct k|]. apply Hseg. by left. }
  rewrite Hsplit Hsegs. change ([] :: dirs ++ [file]) with (([] :: dirs) ++ [file]).
  rewrite removelast_last. unfold segs. rewrite climb_ups //.
  assert (take (length ([] :: dirs) - k) ([] :: dirs) = [] :: take (length dirs - k) dirs) as ->.
  { cbn [length]. replace (S (length dirs) - k)%nat with (S (length dirs - k)) by lia. done. }
  assert (prefixb #"/" (c :: r) = false) as ->.
  { change (prefixb #"/" (c :: r)) with ((47 =? c) && true). rewrite andb_true_r.
    apply Z.eqb_neq. congruence. }
  assert (∃ u, join #"/" (([] :: take (length dirs - k) dirs) ++ name :: names) = 47 :: u) as [u Eu].
  { cbn [app]. rewrite join_cons; [|by destruct (take _ dirs)]. by eexists. }
  rewrite Eu.
  rewrite unsplitUrl_abs -Eu. done.
Qed.

Lemma joinUrl_relative_witness : joinUrl #"http://h/api/v1/spec.json#/x" #"../common.json#/definitions/A"
  = #"http://h/api/common.json#/definitions/A".
Proof.
  apply (joinUrl_relative #"http" #"h" [ #"api"; #"v1"] #"spec.json" (Some #"/x") 1 #"common.json" []
    (Some #"/definitions/A")); try done; try (by apply not_in_check).
  - repeat (constructor; [split_and!; by apply not_in_check|]). constructor.
  - repeat (constructor; [split_and!; by apply not_in_check|]). constructor.
  - cbn. lia.
  - intros x [= <-]. by apply not_in_check.
Defined.

(** ** Composition *)

Lemma dedup_loop_strings n : ∀ l : list jstr,
  (length l <= n)%nat →
  ∃ l', dedup_loop n (map VStr l) = map VStr l' ∧ NoDup l' ∧ (∀ x, x ∈ l' ↔ x ∈ l).
Proof.
  induction n as [|n IH]; intros [|x l] Hl; cbn [length] in Hl; try lia;
    try (exists []; split_and!; [done|constructor|done]).
  cbn [map dedup_loop].
  assert (List.filter (λ y, negb (strict_eq (VStr x) y)) (map VStr l)
          = map VStr (List.filter (λ y, negb (streq x y)) l)) as ->.
  { clear. induction l as [|y l IH]; [done|]. cbn [map List.filter strict_eq].
    destruct (streq x y); cbn [negb map]; by rewrite IH. }
  destruct (IH (List.filter (λ y, negb (streq x y)) l)) as (l' & -> & Hnd & Hin).
  { pose proof (List.filter_length_le (λ y, negb (streq x y)) l). lia. }
  assert (∀ y, y ∈ List.filter (λ y, negb (streq x y)) l ↔ y ∈ l ∧ x ≠ y) as Hf.
  { intros y. rewrite !list_elem_of_In filter_In negb_true_iff streq_neq. done. }
  exists (x :: l'). split_and!; [done| |].
  - apply NoDup_cons. split; [|done]. rewrite Hin Hf. naive_solver.
  - intros y. rewrite !elem_of_cons Hin Hf. destruct (decide (y = x)); naive_solver.
Qed.

(** Merging two [required] lists of a composition gives each name once,
    and exactly the names of either. *)
Theorem required_merged source output l m v :
  pget output #"required" = Some (VArr (map VStr l)) →
  v = VArr (map VStr m) →
  ∃ output' r, merge_part source output (#"required", v) = Ok output' ∧
    pget output' #"required" = Some (VArr (map VStr r)) ∧ NoDup r ∧
    (∀ x, x ∈ r ↔ x ∈ l ∨ x ∈ m) ∧
    (∀ k, k ≠ #"required" → pget output' k = pget output k).
Proof.
  intros Ho ->. unfold merge_part. rewrite Ho.
  change (streq #"required" #"properties") with false. change (streq #"required" #"required") with true.
  cbv iota. unfold dedup. rewrite -map_app length_map.
  destruct (dedup_loop_strings (length (l ++ m)) (l ++ m)) as (r & -> & Hnd & Hin); [done|].
  eexists _, r. split; [done|]. rewrite pget_pset_eq. split_and!; [done|done| |].
  - intros x. by rewrite Hin elem_of_app.
  - intros k Hk. apply pget_pset_ne. congruence.
Qed.

Lemma required_merged_witness : ∃ output' r,
  merge_part VNull [(#"required", VArr (map VStr [ #"a"; #"b"]))] (#"required", VArr (map VStr [ #"b"; #"c"])) = Ok output' ∧
  pget output' #"required" = Some (VArr (map VStr r)) ∧ NoDup r ∧
  (∀ x, x ∈ r ↔ x ∈ [ #"a"; #"b"] ∨ x ∈ [ #"b"; #"c"]) ∧
  (∀ k, k ≠ #"required" → pget output' k = pget [(#"required", VArr (map VStr [ #"a"; #"b"]))] k).
Proof. by apply (required_merged VNull _ [ #"a"; #"b"] [ #"b"; #"c"]). Defined.

(** The parts that are merged rather than kept from their first owner. *)
Definition merged_part (k : jstr) : bool :=
  streq k #"properties" || streq k #"required" || streq k x_resolved_from.

Lemma merge_part_other source output k v output' part :
  merge_part source output (k, v) = Ok output' → merged_part part = false →
  pget output' part = match pget output part with
                      | Some x => Some x
                      | None => if streq k part then Some v else None
                      end.
Proof.
  intros H Hp. unfold merged_part in Hp. rewrite !orb_false_iff in Hp. destruct Hp as [[H1 H2] H3].
  assert (∀ x, k ≠ part → pget (pset k x output) part = pget output part) as Hne
    by (intros; by apply pget_pset_ne).
  destruct (streq k part) eqn:E; str_eqs.
  - subst k. unfold merge_part in H. rewrite (proj2 (streq_neq _ _) H1) in H.
    rewrite (proj2 (streq_neq _ _) H2) (proj2 (streq_neq _ _) H3) in H.
    destruct (pget output part) eqn:G; injection H as <-; [done|apply pget_pset_eq].
  - assert (pget output' part = pget output part) as ->; [|by destruct (pget output part)].
    unfold merge_part in H.
    repeat (case_match; try done); inv_res; rewrite ?Hne //.
Qed.

Lemma merge_parts_other source part l : ∀ output output',
  merged_part part = false → NoDup l.*1 → fold_res (merge_part source) l output = Ok output' →
  pget output' part = match pget output part with Some x => Some x | None => pget l part end.
Proof.
  induction l as [|[k v] l IH]; intros output output' Hp Hnd H; cbn [fold_res] in H.
  - injection H as <-. by destruct (pget output part).
  - inv_res. apply NoDup_cons in Hnd as [Hk Hnd].
    rewrite (IH _ _ Hp Hnd H) (merge_part_other _ _ _ _ _ _ H0 Hp). cbn [pget].
    destruct (pget output part); [done|]. destruct (streq k part) eqn:E.
    + str_eqs. subst. by rewrite streq_refl.
    + replace (streq part k) with false; [done|]. str_eqs. symmetry. apply streq_neq. congruence.
Qed.

(** The first of several tables that has the part. *)
Fixpoint first_owner (tables : list (list (jstr * value))) (part : jstr) : option value :=
  match tables with
  | [] => None
  | t :: tables => match pget t part with Some v => Some v | None => first_owner tables part end
  end.

(** Composition keeps, for every part that is not merged, the value of
    the composing object, or else of the first component that has it. *)
Theorem compose_first_owner o components out part :
  field o #"allOf" = VArr (map VObj components) →
  Forall (λ c : list (jstr * value), NoDup c.*1) components →
  compose (VObj o) = Ok (VObj out) →
  merged_part part = false → part ≠ #"allOf" → part ≠ #"x-composed" →
  pget out part = first_owner (o :: components) part.
Proof.
  intros Ha HF H Hp H1 H2. unfold compose in H. rewrite Ha in H. apply fmap_Ok in H as (out' & H & E).
  injection E as <-. cbn [first_owner].
  assert (pget (pset #"x-composed" (VBool true) (pdel #"allOf" o)) part = pget o part) as <-.
  { rewrite pget_pset_ne; [|done]. by apply pget_pdel_ne. }
  revert H. generalize (pset #"x-composed" (VBool true) (pdel #"allOf" o)) as output. clear -HF Hp.
  induction HF as [|c components Hc HF IH]; intros output H; cbn [map fold_res first_owner] in *.
  - injection H as <-. by destruct (pget output part).
  - inv_res. rewrite (IH _ H). unfold merge_component in H0. inv_res.
    apply merge_parts_other with (part := part) in H0; [|done|].
    + rewrite H0. rewrite -(pget_perm c (enum c) part); [|done|by rewrite enum_perm].
      by destruct (pget output part).
    + by rewrite enum_perm.
Qed.

Lemma compose_first_owner_witness : ∃ out, compose (VObj [(#"type", VStr #"object"); (#"allOf", VArr [VObj [(#"type", VStr #"x"); (#"title", VStr #"T")]])])
    = Ok (VObj out) ∧
  pget out #"title" = first_owner [[(#"type", VStr #"object"); (#"allOf", VArr [VObj [(#"type", VStr #"x"); (#"title", VStr #"T")]])];
    [(#"type", VStr #"x"); (#"title", VStr #"T")]] #"title".
Proof.
  eexists. split; [reflexivity|].
  apply (compose_first_owner [(#"type", VStr #"object"); (#"allOf", VArr [VObj [(#"type", VStr #"x"); (#"title", VStr #"T")]])]
    [[(#"type", VStr #"x"); (#"title", VStr #"T")]]); try done.
  constructor; [|constructor]. apply (bool_decide_unpack _). vm_compute. exact I.
Defined.
