(* ===== verification/ResolverLoop.v ===== *)
(** * The resolver's loop

    The second half of [Resolver.prototype.resolve]: choosing the entries of the
    resolution table that have to be looked up, and looking them up, at once
    when they are local and by asynchronous requests otherwise, with a lock and
    a cache per URL, until the last one calls [finish]; and the decision of
    [finish] to go on or to stop.

    The timers and the network are the environment: they may fire in any order,
    so the loop is a transition system. Entries have a textual root and a
    textual location (an entry without a location makes [resolveItem] throw). *)

From S2P Require Import Prelude JsValue Resolver.

(** ** Choosing the entries to resolve *)

(** An entry with its location made text. *)
Record item := { i_as : resolve_as; i_root : jstr; i_key : jstr; i_location : jstr }.

Definition set_root (r : jstr) (a : item) : item :=
  {| i_as := i_as a; i_root := r; i_key := i_key a; i_location := i_location a |}.

(** Path walking: [..] drops the segment before it. *)
Definition normalize (parts : list jstr) : list jstr :=
  fold_left (λ acc p, if streq p #".." then removelast acc else acc ++ [p]) parts [].

(** Following the fragment of a key: [Some true] when a part is missing ([r] is
    set to [null]), [Some false] when all are there, [None] when there is no part
    and [r] keeps its value. *)
Fixpoint follow_fragment (s : value) (location : list jstr) (r : option bool) : res (option bool) :=
  match location with
  | [] => Ok r
  | [] :: rest => follow_fragment s rest r
  | part :: rest =>
      s ← get s part;
      if is_undef s then Ok (Some true) else follow_fragment s rest (Some false)
  end.

Definition follow_in (spec : value) (location : list jstr) : res (option bool) := follow_fragment spec location None.

(** What one turn does with the entry [a], when [find] follows a fragment in the
    document: the changed entry, whether it goes
    to [toResolve], whether [r] is [null] afterwards ([var r] belongs to the
    function and keeps its value between turns), and the value a nested loop
    leaves in [i], if it ran. *)
Definition select_entry (find : list jstr → res (option bool)) (root : jstr) (a : item) (r_null : bool)
    : res (item * bool * bool * option nat) :=
  if streq root (i_root a) then
    match i_as a with
    | AsRef =>
        if 0 <=? index_of #"../" (i_key a) then
          Ok (set_root (join #"/" (normalize (split #"/" (i_root a ++ #"/" ++ i_key a)))) a,
              true, r_null, None)
        else
          match split #"#" (i_key a) with
          | [b; l] =>
              r ← find (split #"/" l);
              let r_null := default r_null r in
              Ok (if is_http b then set_root b a else a, r_null, r_null, None)
          | _ => Ok (a, false, r_null, None)
          end
    | AsInline =>
        if negb (streq (i_key a) []) && negb (contains #"#" (i_key a)) && negb (prefixb #"/" (i_key a)) then
          let parts := split #"/" (i_root a) in
          Ok ({| i_as := AsInline; i_root := directory (i_root a) ++ i_key a; i_key := i_key a;
                 i_location := [] |}, true, r_null, Some (length parts - 1)%nat)
        else Ok (a, true, r_null, None)
    end
  else Ok (a, true, r_null, None).

(** The loop [for (i = 0; i < all.length; i++)]; a turn may change [i]. The
    table is changed in place, and [toResolve] holds positions in it. [None] is
    a loop that is still running after [n] turns. *)
Fixpoint select_loop (n : nat) (find : list jstr → res (option bool)) (root : jstr) (i : nat) (all : list item)
    (todo : list nat) (r_null : bool) : option (res (list item * list nat)) :=
  match all !! i with
  | None => Some (Ok (all, todo))
  | Some a =>
      match n with
      | O => None
      | S n =>
          match select_entry find root a r_null with
          | Throw e => Some (Throw e)
          | Ok (a', keep, r_null, j) =>
              select_loop n find root (S (default i j)) (<[i := a']> all)
                (if keep then todo ++ [i] else todo) r_null
          end
      end
  end.

(** ** Looking the entries up *)

Inductive phase := Waiting | InFlight | Done.
#[export] Instance phase_eq_dec : EqDecision phase.
Proof. solve_decision. Defined.

(** What [resolveItem] records. *)
Record resolved_ref := { r_name : jstr; r_obj : value; r_key : jstr; r_root : jstr }.

(** The variables of the loop: the stage of each entry, the lock, the cache and
    the failed URLs, the two tables, the count, and the calls of [finish] (with
    its argument [localResolve]). *)
Record loop := {
  phases : list phase;
  lock : list jstr;
  resolverCache : list (jstr * value);
  failedUrls : list jstr;
  resolvedRefs : list (jstr * resolved_ref);
  unresolvedRefs : list (jstr * (jstr * jstr));
  processedCalls : nat;
  finishes : list bool;
}.

Definition resolveItem (doc : value) (it : item) (s : loop) : loop :=
  let v := resolve_location doc (i_location it) in
  let found := negb (is_undef v) && match v with VNull => false | _ => true end in
  {| phases := phases s; lock := lock s; resolverCache := resolverCache s; failedUrls := failedUrls s;
     resolvedRefs := if found
       then pset (i_key it) {| r_name := resolved_name (i_key it); r_obj := v; r_key := i_key it;
                               r_root := i_root it |} (resolvedRefs s)
       else resolvedRefs s;
     unresolvedRefs := if found then unresolvedRefs s
       else pset (i_key it) (i_root it, i_location it) (unresolvedRefs s);
     processedCalls := processedCalls s; finishes := finishes s |}.

Definition unresolved (it : item) (s : loop) : loop :=
  {| phases := phases s; lock := lock s; resolverCache := resolverCache s; failedUrls := failedUrls s;
     resolvedRefs := resolvedRefs s;
     unresolvedRefs := pset (i_key it) (i_root it, i_location it) (unresolvedRefs s);
     processedCalls := processedCalls s; finishes := finishes s |}.

Section loop.
(** The document and its root, the entries to resolve, and the URL of the
    request for an entry: that of its root, as the client's authorizations
    change it. *)
Context (spec : value) (root : jstr) (items : list item) (req_url : item → jstr).

Definition expectedCalls : nat := length items.

(** [processedCalls += 1] and the test after it. *)
Definition count_call (j : nat) (local : bool) (s : loop) : loop :=
  {| phases := <[j := Done]> (phases s); lock := lock s; resolverCache := resolverCache s;
     failedUrls := failedUrls s; resolvedRefs := resolvedRefs s; unresolvedRefs := unresolvedRefs s;
     processedCalls := S (processedCalls s);
     finishes := if (S (processedCalls s) =? expectedCalls)%nat then finishes s ++ [local] else finishes s |}.

Definition unlock (u : jstr) (l : list jstr) : list jstr := filter (λ v, v ≠ u) l.

(** The handlers of a request. *)
Definition on_response (j : nat) (it : item) (doc : value) (s : loop) : loop :=
  let s := {| phases := phases s; lock := unlock (i_root it) (lock s);
              resolverCache := pset (i_root it) doc (resolverCache s);
              failedUrls := failedUrls s; resolvedRefs := resolvedRefs s;
              unresolvedRefs := unresolvedRefs s; processedCalls := processedCalls s;
              finishes := finishes s |} in
  count_call j false (resolveItem doc it s).

Definition on_error (j : nat) (it : item) (s : loop) : loop :=
  let s := {| phases := phases s; lock := unlock (i_root it) (lock s);
              resolverCache := resolverCache s; failedUrls := failedUrls s ++ [req_url it];
              resolvedRefs := resolvedRefs s; unresolvedRefs := unresolvedRefs s;
              processedCalls := processedCalls s; finishes := finishes s |} in
  count_call j false (unresolved it s).

(** The timer of [waitForUnlock]. *)
Definition on_timer (j : nat) (it : item) (s : loop) : loop :=
  if existsb (streq (req_url it)) (lock s) then s
  else
    let cached := default VUndef (pget (resolverCache s) (req_url it)) in
    if is_object cached then on_response j it cached s
    else
      {| phases := <[j := InFlight]> (phases s); lock := req_url it :: lock s;
         resolverCache := resolverCache s; failedUrls := failedUrls s; resolvedRefs := resolvedRefs s;
         unresolvedRefs := unresolvedRefs s; processedCalls := processedCalls s; finishes := finishes s |}.

(** The synchronous loop over [toResolve]. *)
Definition dispatch (s : loop) (j : nat) (it : item) : loop :=
  if streq (i_root it) [] || streq (i_root it) root then count_call j true (resolveItem spec it s)
  else if existsb (streq (i_root it)) (failedUrls s) then count_call j false (unresolved it s)
  else s.

Definition start_loop (failed : list jstr) (cache : list (jstr * value)) : loop :=
  let s0 := {| phases := replicate (length items) Waiting; lock := []; resolverCache := cache;
               failedUrls := failed; resolvedRefs := []; unresolvedRefs := []; processedCalls := 0;
               finishes := [] |} in
  let s := fold_left (λ s p, dispatch s p.1 p.2) (imap pair items) s0 in
  match items with
  | [] => {| phases := phases s; lock := lock s; resolverCache := resolverCache s;
             failedUrls := failedUrls s; resolvedRefs := resolvedRefs s; unresolvedRefs := unresolvedRefs s;
             processedCalls := processedCalls s; finishes := finishes s ++ [false] |}
  | _ => s
  end.

(** What can happen next: a timer fires, a response or an error arrives. *)
Inductive step (s : loop) : loop → Prop :=
  | step_timer j it :
      phases s !! j = Some Waiting → items !! j = Some it → step s (on_timer j it s)
  | step_response j it doc :
      phases s !! j = Some InFlight → items !! j = Some it → step s (on_response j it doc s)
  | step_error j it :
      phases s !! j = Some InFlight → items !! j = Some it → step s (on_error j it s).

Inductive reachable (failed : list jstr) (cache : list (jstr * value)) : loop → Prop :=
  | reach_start : reachable failed cache (start_loop failed cache)
  | reach_step s s' : reachable failed cache s → step s s' → reachable failed cache s'.

(** A step that is not a timer finding the lock taken. *)
Definition progress (s s' : loop) : Prop := step s s' ∧ s' ≠ s.
End loop.

(** ** Going on or stopping *)

(** [finish]: resolve again unless nothing is left or the sixth repetition was
    made. *)
Definition again (existingUnresolved iteration : nat) : bool :=
  negb ((existingUnresolved =? 0) || (5 <? iteration))%nat.

(** The number of rounds of resolution, for the number of references each round
    leaves. *)
Fixpoint rounds (n : nat) (left_over : nat → nat) (iteration : nat) : option nat :=
  match n with
  | O => None
  | S n => if again (left_over iteration) iteration
           then S <$> rounds n left_over (S iteration) else Some 1%nat
  end.

(** ** The loop over the table *)

(** An entry that names another file without a fragment, to be inlined. *)
Definition relative_inline (root : jstr) (a : item) : bool :=
  streq root (i_root a) && match i_as a with AsInline => true | AsRef => false end
  && negb (streq (i_key a) []) && negb (contains #"#" (i_key a)) && negb (prefixb #"/" (i_key a)).

(** Such an entry makes the loop continue at a position that has nothing to do
    with it: entries are skipped and never resolved ... *)
Theorem select_skips :
  let e k := {| i_as := AsInline; i_root := #"http://h/a.json"; i_key := k; i_location := [] |} in
  ∃ all, select_loop 10 (follow_in (VObj [])) #"http://h/a.json" 0
    [e #"b.json"; e #"#/p"; e #"#/q"; e #"#/r"; e #"#/s"] [] false
  = Some (Ok (all, [0; 4]%nat)).
Proof. eexists. vm_compute. reflexivity. Qed.

(** ... or visited again and again: a reference to the document's own file in
    the fifth place is selected for ever. *)
Theorem select_loops n :
  let e k := {| i_as := AsInline; i_root := #"http://h/a.json"; i_key := k; i_location := [] |} in
  select_loop n (follow_in (VObj [])) #"http://h/a.json" 0
    [e #"#/x"; e #"#/y"; e #"#/z"; e #"#/u"; e #"a.json"] [] false = None.
Proof.
  intros e. set (l := [_; _; _; _; _]).
  assert (∀ n todo, select_loop n (follow_in (VObj [])) #"http://h/a.json" 4 l todo false = None) as H.
  { clear n. induction n as [|n IH]; intros todo; [done|].
    cbn [select_loop l lookup list_lookup].
    assert (select_entry (follow_in (VObj [])) #"http://h/a.json" (e #"a.json") false
      = Ok (e #"a.json", true, false, Some 3%nat)) as -> by (vm_compute; reflexivity).
    apply IH. }
  assert (∀ k, contains #"#" k = true → select_entry (follow_in (VObj [])) #"http://h/a.json" (e k) false
      = Ok (e k, true, false, None)) as He.
  { intros k Hk. unfold select_entry, e. cbn [i_root i_as i_key]. rewrite streq_refl Hk. cbn [negb].
    by rewrite andb_false_r. }
  assert (∀ n i k todo, l !! i = Some (e k) → contains #"#" k = true →
    select_loop (S n) (follow_in (VObj [])) #"http://h/a.json" i l todo false
    = select_loop n (follow_in (VObj [])) #"http://h/a.json" (S i) l (todo ++ [i]) false) as Hs.
  { clear -He. intros n i k todo Hi Hk. cbn [select_loop]. rewrite Hi (He k Hk).
    by rewrite list_insert_id. }
  clearbody e. clear He.
  do 4 (destruct n as [|n]; [done|]; erewrite Hs; [|reflexivity|reflexivity]). apply H.
Qed.

(** One turn as a fold: the changed entries so far, the selection, [r]. *)
Definition visit (find : list jstr → res (option bool)) (root : jstr) (acc : list item * list nat * bool) (p : nat * item)
    : res (list item * list nat * bool) :=
  let '(all, todo, r_null) := acc in
  '(a, keep, r_null, _) ← select_entry find root p.2 r_null;
  Ok (all ++ [a], if keep then todo ++ [p.1] else todo, r_null).

Lemma select_entry_plain find root a r x :
  relative_inline root a = false → select_entry find root a r = Ok x → x.2 = None.
Proof.
  unfold relative_inline, select_entry. intros Hr H. destruct (streq root (i_root a)); [|by injection H as <-].
  destruct (i_as a); cbn [andb] in Hr.
  - case_if; [by injection H as <-|]. destruct (split _ _) as [|b [|l [|]]]; try (by injection H as <-).
    inv_res. done.
  - rewrite Hr in H. by injection H as <-.
Qed.

Lemma select_loop_visits find root suf : ∀ pre todo r,
  Forall (λ a, relative_inline root a = false) suf →
  select_loop (length suf) find root (length pre) (pre ++ suf) todo r
  = Some ('(all, todo, _) ← fold_res (visit find root) (imap (λ i a, ((length pre + i)%nat, a)) suf) (pre, todo, r);
          Ok (all, todo)).
Proof.
  induction suf as [|a suf IH]; intros pre todo r HF.
  - rewrite app_nil_r. cbn. by rewrite lookup_ge_None_2.
  - apply Forall_cons in HF as [Ha HF]. cbn [length select_loop].
    rewrite list_lookup_middle //. cbn [imap fold_res]. unfold visit at 2. cbn [fst snd].
    destruct (select_entry find root a r) as [[[[a' keep] r'] j]|e] eqn:E; [|done].
    apply select_entry_plain in E as Hj; [|done]. cbn in Hj. subst j. cbn [mbind res_bind default].
    rewrite insert_app_r_alt // Nat.sub_diag. cbn [insert list_insert].
    change (default (length pre) None) with (length pre).
    replace (S (length pre)) with (length (pre ++ [a'])) by (rewrite length_app; cbn; lia).
    replace (pre ++ a' :: suf) with ((pre ++ [a']) ++ suf) by (by rewrite -app_assoc).
    rewrite IH // Nat.add_0_r. f_equal. f_equal. f_equal. apply imap_ext. intros i x _. cbn.
    rewrite length_app. cbn. f_equal. lia.
Qed.

(** Without references to other files as a whole, the loop over the
    table ends after one turn per entry and visits each entry once, in order. *)
Theorem select_visits_once find root all :
  Forall (λ a, relative_inline root a = false) all →
  select_loop (length all) find root 0 all [] false
  = Some ('(all, todo, _) ← fold_res (visit find root) (imap pair all) ([], [], false); Ok (all, todo)).
Proof. apply (select_loop_visits find root all [] [] false). Qed.

(** ** The asynchronous loop *)

Definition count_done (l : list phase) : nat := length (filter (λ p, p = Done) l).

Lemma count_done_insert l j p :
  l !! j = Some p → p ≠ Done → count_done (<[j := Done]> l) = S (count_done l).
Proof.
  unfold count_done. revert j. induction l as [|q l IH]; intros [|j] Hj Hp; try done.
  - injection Hj as ->. cbn [insert list_insert]. rewrite !filter_cons. by destruct p.
  - cbn [insert list_insert]. rewrite !filter_cons. cbn in Hj. specialize (IH j Hj Hp).
    case_decide; cbn [length]; by rewrite IH.
Qed.

Lemma count_done_le l : (count_done l <= length l)%nat.
Proof. apply length_filter. Qed.

Lemma count_done_all l : count_done l = length l ↔ ∀ j, (j < length l)%nat → l !! j = Some Done.
Proof.
  unfold count_done. induction l as [|p l IH]; [split; [intros _ j Hj; cbn in Hj; lia|done]|].
  rewrite filter_cons. pose proof (length_filter (λ p, p = Done) l). case_decide as D; cbn [length].
  - subst p. split.
    + intros E [|j] Hj; [done|]. apply IH; cbn in Hj; lia.
    + intros Ha. f_equal. apply IH. intros j Hj. apply (Ha (S j)). cbn. lia.
  - split; [lia|]. intros Ha. specialize (Ha 0%nat ltac:(cbn; lia)). by injection Ha as ->.
Qed.

(** A reference has an outcome. *)
Definition has_key (s : loop) (k : jstr) : Prop :=
  is_Some (pget (resolvedRefs s) k) ∨ is_Some (pget (unresolvedRefs s) k).

Lemma is_Some_pset {V} (k k' : jstr) (v : V) o :
  is_Some (pget (pset k v o) k') ↔ k = k' ∨ is_Some (pget o k').
Proof.
  rewrite pget_pset. destruct (streq k k') eqn:E.
  - apply streq_spec in E. naive_solver.
  - apply streq_neq in E. naive_solver.
Qed.

Lemma resolveItem_key doc it s k :
  has_key (resolveItem doc it s) k ↔ k = i_key it ∨ has_key s k.
Proof.
  unfold has_key, resolveItem. cbn [resolvedRefs unresolvedRefs].
  destruct (negb _ && _); rewrite is_Some_pset; naive_solver.
Qed.

Lemma unresolved_key it s k : has_key (unresolved it s) k ↔ k = i_key it ∨ has_key s k.
Proof. unfold has_key, unresolved. cbn [resolvedRefs unresolvedRefs]. rewrite is_Some_pset. naive_solver. Qed.

Section invariant.
Context (spec : value) (root : jstr) (items : list item) (req_url : item → jstr).

Record inv (s : loop) : Prop := {
  inv_len : length (phases s) = length items;
  inv_count : processedCalls s = count_done (phases s);
  inv_fin : length (finishes s) = if (processedCalls s =? length items)%nat then 1%nat else 0%nat;
  inv_lock : ∀ u, u ∈ lock s ↔
    ∃ j it, phases s !! j = Some InFlight ∧ items !! j = Some it ∧ i_root it = u;
  inv_excl : ∀ j k a b, phases s !! j = Some InFlight → phases s !! k = Some InFlight →
    items !! j = Some a → items !! k = Some b → i_root a = i_root b → j = k;
  inv_keys : ∀ j it, phases s !! j = Some Done → items !! j = Some it → has_key s (i_key it);
}.

(** The end of every handler: the entry's URL is unlocked, its key has an
    outcome, and the call is counted. *)
Lemma inv_count_call j it p local s s1 :
  inv s → items !! j = Some it → phases s !! j = Some p → p ≠ Done →
  phases s1 = phases s → processedCalls s1 = processedCalls s → finishes s1 = finishes s →
  (∀ u, u ∈ lock s1 ↔ u ∈ lock s ∧ u ≠ i_root it) →
  (∀ k b, k ≠ j → phases s !! k = Some InFlight → items !! k = Some b → i_root b ≠ i_root it) →
  (∀ k, has_key s1 k ↔ k = i_key it ∨ has_key s k) →
  inv (count_call items j local s1).
Proof.
  intros [Hlen Hcount Hfin Hlock Hexcl Hkeys] Hit Hj Hp E1 E2 E3 Hl Hother Hk.
  assert (j < length (phases s))%nat as Hjl by (by eapply lookup_lt_Some).
  pose proof (count_done_insert _ _ _ Hj Hp) as Hc.
  pose proof (count_done_le (<[j := Done]> (phases s))) as Hle. rewrite length_insert in Hle.
  split; unfold count_call; cbn [phases processedCalls finishes lock resolvedRefs unresolvedRefs]; rewrite ?E1 ?E2 ?E3.
  - by rewrite length_insert.
  - by rewrite Hc Hcount.
  - unfold expectedCalls. rewrite Hcount in Hfin |- *.
    assert ((count_done (phases s) =? length items)%nat = false) as Hn by (apply Nat.eqb_neq; lia).
    rewrite Hn in Hfin. destruct (finishes s); [|done].
    by destruct (S (count_done (phases s)) =? length items)%nat.
  - intros u. rewrite Hl Hlock. split.
    + intros [(k & b & Hk1 & Hk2 & <-) Hne]. exists k, b. split_and!; [|done|done].
      rewrite list_lookup_insert_ne; [done|]. intros ->. congruence.
    + intros (k & b & Hk1 & Hk2 & <-). destruct (decide (j = k)) as [<-|Hjk].
      * by rewrite list_lookup_insert_eq in Hk1.
      * rewrite list_lookup_insert_ne // in Hk1. split; [eauto|]. by apply (Hother k b).
  - intros a b ia ib Ha Hb. destruct (decide (j = a)) as [<-|Hja]; [by rewrite list_lookup_insert_eq in Ha|].
    destruct (decide (j = b)) as [<-|Hjb]; [by rewrite list_lookup_insert_eq in Hb|].
    rewrite list_lookup_insert_ne // in Ha. rewrite list_lookup_insert_ne // in Hb. by apply Hexcl.
  - intros a ia Ha Hia. change (has_key s1 (i_key ia)). rewrite Hk.
    destruct (decide (j = a)) as [<-|Hja]; [left; congruence|].
    rewrite list_lookup_insert_ne // in Ha. right. by eapply Hkeys.
Qed.

Lemma elem_of_unlock u v l : v ∈ unlock u l ↔ v ∈ l ∧ v ≠ u.
Proof. unfold unlock. rewrite list_elem_of_filter. naive_solver. Qed.

(** No other entry is waiting for an answer from the URL of [j]. *)
Definition alone (s : loop) (j : nat) (it : item) : Prop :=
  ∀ k b, k ≠ j → phases s !! k = Some InFlight → items !! k = Some b → i_root b ≠ i_root it.

Lemma inv_response j it p doc s :
  inv s → items !! j = Some it → phases s !! j = Some p → p ≠ Done → alone s j it →
  inv (on_response items j it doc s).
Proof.
  intros Hinv Hit Hj Hp Hal. eapply (inv_count_call j it p false s); try done.
  - intros u. cbn [resolveItem lock]. apply elem_of_unlock.
  - intros k. rewrite resolveItem_key. done.
Qed.

Lemma inv_error j it s :
  inv s → items !! j = Some it → phases s !! j = Some InFlight → alone s j it →
  inv (on_error items req_url j it s).
Proof.
  intros Hinv Hit Hj Hal. eapply (inv_count_call j it InFlight false s); try done.
  - intros u. cbn [unresolved lock]. apply elem_of_unlock.
  - intros k. rewrite unresolved_key. done.
Qed.

Lemma inv_alone j it s :
  inv s → items !! j = Some it → phases s !! j = Some InFlight → alone s j it.
Proof.
  intros Hinv Hit Hj k b Hk Hf Hb E. apply Hk. by eapply (inv_excl s Hinv k j b it).
Qed.

(** Asking for a URL that is not locked. *)
Lemma inv_send j it s s1 :
  inv s → items !! j = Some it → phases s !! j = Some Waiting → i_root it ∉ lock s →
  phases s1 = <[j := InFlight]> (phases s) → lock s1 = i_root it :: lock s →
  processedCalls s1 = processedCalls s → finishes s1 = finishes s → (∀ k, has_key s1 k ↔ has_key s k) →
  inv s1.
Proof.
  intros Hinv Hit Hj Hnl E1 E2 E3 E4 Hk. pose proof Hinv as [Hlen Hcount Hfin Hlock Hexcl Hkeys].
  assert (j < length (phases s))%nat as Hjl by (by eapply lookup_lt_Some).
  assert (∀ k, phases s1 !! k = Some InFlight ↔ k = j ∨ phases s !! k = Some InFlight) as Hph.
  { intros k. rewrite E1. destruct (decide (k = j)) as [->|Hkj].
    - rewrite list_lookup_insert_eq //. naive_solver.
    - rewrite list_lookup_insert_ne //. naive_solver. }
  split; rewrite ?E2 ?E3 ?E4.
  - by rewrite E1 length_insert.
  - rewrite Hcount E1. clear -Hj. unfold count_done. revert j Hj.
    induction (phases s) as [|q l IH]; intros [|j] Hj; try done.
    + by injection Hj as ->.
    + cbn [insert list_insert]. rewrite !filter_cons. cbn in Hj. specialize (IH j Hj).
      case_decide; cbn [length]; by rewrite IH.
  - done.
  - intros u. rewrite elem_of_cons Hlock. split.
    + intros [->|(k & b & H1 & H2 & H3)]; [exists j, it|exists k, b]; rewrite Hph; auto.
    + intros (k & b & H1 & H2 & <-). rewrite Hph in H1. destruct H1 as [->|H1]; [left; congruence|right; eauto].
  - intros a b ia ib Ha Hb Hia Hib E. rewrite Hph in Ha. rewrite Hph in Hb.
    destruct Ha as [->|Ha], Hb as [->|Hb]; [done| | |by eapply Hexcl].
    + exfalso. apply Hnl. apply Hlock. exists b, ib. split_and!; [done|done|congruence].
    + exfalso. apply Hnl. apply Hlock. exists a, ia. split_and!; [done|done|congruence].
  - intros a ia Ha Hia. rewrite Hk. eapply Hkeys; [|done]. rewrite E1 in Ha.
    destruct (decide (a = j)) as [->|Haj]; [by rewrite list_lookup_insert_eq in Ha|].
    by rewrite list_lookup_insert_ne in Ha.
Qed.

Context (Hurl : ∀ j it, items !! j = Some it → req_url it = i_root it).

Lemma locked_in u l : existsb (streq u) l = false → u ∉ l.
Proof.
  intros H Hin. apply not_true_iff_false in H. apply H. apply existsb_exists. exists u.
  split; [by apply list_elem_of_In|apply streq_refl].
Qed.

Lemma inv_timer j it s :
  inv s → items !! j = Some it → phases s !! j = Some Waiting → inv (on_timer items req_url j it s).
Proof.
  intros Hinv Hit Hj. unfold on_timer. rewrite (Hurl j it Hit).
  destruct (existsb _ _) eqn:L; [done|]. apply locked_in in L.
  assert (alone s j it) as Hal.
  { intros k b Hk Hf Hb E. apply L. rewrite -E. apply (inv_lock s Hinv). eauto. }
  case_if; [by eapply inv_response|]. by eapply (inv_send j it s).
Qed.

Lemma inv_step s s' : inv s → step items req_url s s' → inv s'.
Proof.
  intros Hinv Hs. destruct Hs as [j it Hj Hit|j it doc Hj Hit|j it Hj Hit].
  - by apply inv_timer.
  - eapply inv_response; [done|done|done|done|by apply inv_alone].
  - apply inv_error; [done|done|done|by apply inv_alone].
Qed.

Lemma inv_dispatch j it s :
  inv s → lock s = [] → items !! j = Some it → phases s !! j = Some Waiting →
  let s' := dispatch spec root items s j it in
  inv s' ∧ lock s' = [] ∧ ∀ k, k ≠ j → phases s' !! k = phases s !! k.
Proof.
  intros Hinv Hl Hit Hj. unfold dispatch.
  assert (alone s j it) as Hal.
  { intros k b _ Hf Hb E. assert (i_root b ∈ lock s) as H by (apply (inv_lock s Hinv); eauto).
    rewrite Hl in H. by apply not_elem_of_nil in H. }
  assert (∀ k, k ≠ j → <[j := Done]> (phases s) !! k = phases s !! k) as Hk
    by (intros k Hk; by rewrite list_lookup_insert_ne).
  case_if; [|case_if]; [| |by split_and!].
  - split_and!; [|done|done]. eapply (inv_count_call j it Waiting true s); try done.
    + intros u. cbn [resolveItem lock]. rewrite Hl. set_solver.
    + intros k. rewrite resolveItem_key. done.
  - split_and!; [|done|done]. eapply (inv_count_call j it Waiting false s); try done.
    + intros u. cbn [unresolved lock]. rewrite Hl. set_solver.
    + intros k. rewrite unresolved_key. done.
Qed.

Lemma dispatch_all suf : ∀ pre s,
  pre ++ suf = items → inv s → lock s = [] →
  (∀ k, (length pre <= k < length items)%nat → phases s !! k = Some Waiting) →
  inv (fold_left (λ s p, dispatch spec root items s p.1 p.2) (imap (λ i it, ((length pre + i)%nat, it)) suf) s).
Proof.
  induction suf as [|it suf IH]; intros pre s Hitems Hinv Hl Hw; [done|].
  cbn [imap fold_left fst snd]. rewrite Nat.add_0_r.
  assert (length pre < length items)%nat as Hlen by (rewrite -Hitems length_app; cbn; lia).
  destruct (inv_dispatch (length pre) it s) as (Hinv' & Hl' & Hk); [done|done| |by apply Hw; lia|].
  { rewrite -Hitems. by rewrite list_lookup_middle. }
  replace (imap _ suf) with (imap (λ i x, ((length (pre ++ [it]) + i)%nat, x)) suf).
  2: { apply imap_ext. intros i x _. cbn. rewrite length_app. cbn. f_equal. lia. }
  apply IH; [by rewrite -app_assoc|done|done|]. intros k Hkl. rewrite length_app in Hkl. cbn in Hkl.
  rewrite Hk; [|lia]. apply Hw. lia.
Qed.

Lemma inv_start failed cache : items ≠ [] → inv (start_loop spec root items failed cache).
Proof.
  intros Hne. unfold start_loop. set (s := fold_left _ _ _).
  enough (inv s) as H by (clear -H Hne; by destruct items).
  apply (dispatch_all items []); [done| |done|].
  - split; cbn [phases processedCalls finishes lock].
    + apply length_replicate.
    + unfold count_done. by induction (length items).
    + by destruct items.
    + intros u. split; [intros H; by apply not_elem_of_nil in H|].
      intros (j & it & H & _). by apply lookup_replicate in H as [? _].
    + intros j k a b H. by apply lookup_replicate in H as [? _].
    + intros j it H. by apply lookup_replicate in H as [? _].
  - intros k [_ Hk]. cbn [phases]. by apply lookup_replicate.
Qed.

Lemma inv_reachable failed cache s :
  items ≠ [] → reachable spec root items req_url failed cache s → inv s.
Proof.
  intros Hne. induction 1 as [|s s' _ IH Hs]; [by apply inv_start|by eapply inv_step].
Qed.

Lemma finished_iff s :
  inv s → finishes s ≠ [] ↔ ∀ j, (j < length items)%nat → phases s !! j = Some Done.
Proof.
  intros [Hlen Hcount Hfin _ _ _].
  rewrite -Hlen -count_done_all Hlen -Hcount. rewrite -length_zero_iff_nil Hfin.
  destruct (Nat.eqb_spec (processedCalls s) (length items)); naive_solver.
Qed.

(** (C25) In every order of timers, responses and errors, [finish] is called
    at most once, and it has been called exactly when every entry was dealt
    with, each with an outcome in one of the two tables; and no URL is ever
    asked for twice at the same time. *)
Theorem resolver_loop_safe failed cache s :
  items ≠ [] → reachable spec root items req_url failed cache s →
  (length (finishes s) <= 1)%nat ∧
  (finishes s ≠ [] ↔ ∀ j, (j < length items)%nat → phases s !! j = Some Done) ∧
  (finishes s ≠ [] → ∀ it, it ∈ items → has_key s (i_key it)) ∧
  (∀ j k a b, phases s !! j = Some InFlight → phases s !! k = Some InFlight →
     items !! j = Some a → items !! k = Some b → req_url a = req_url b → j = k).
Proof.
  intros Hne Hr. pose proof (inv_reachable _ _ _ Hne Hr) as Hinv.
  pose proof (finished_iff s Hinv) as Hall. destruct Hinv as [_ _ Hfin _ Hexcl Hkeys].
  split_and!; [destruct (_ =? _)%nat; lia|done| |].
  - intros Hf it Hit. apply list_elem_of_lookup in Hit as [j Hj]. eapply Hkeys; [|done].
    apply Hall; [done|]. by eapply lookup_lt_Some.
  - intros j k a b Hj Hk Ha Hb E. rewrite (Hurl _ _ Ha) (Hurl _ _ Hb) in E. by eapply Hexcl.
Qed.

Definition phase_work (p : phase) : nat := match p with Waiting => 2 | InFlight => 1 | Done => 0 end.
(** The work left: two moves per waiting entry, one per request. *)
Definition work (s : loop) : nat := sum_list_with phase_work (phases s).

Lemma work_insert l j p q :
  l !! j = Some p → (phase_work q < phase_work p)%nat →
  (sum_list_with phase_work (<[j := q]> l) < sum_list_with phase_work l)%nat.
Proof.
  revert j. induction l as [|x l IH]; intros [|j] Hj Hq; try done.
  - injection Hj as ->. cbn. lia.
  - specialize (IH j Hj Hq). change (<[S j := q]> (x :: l)) with (x :: <[j := q]> l).
    cbn [sum_list_with]. lia.
Qed.

Lemma step_work s s' : step items req_url s s' → s' = s ∨ (work s' < work s)%nat.
Proof.
  intros Hs. destruct Hs as [j it Hj Hit|j it doc Hj Hit|j it Hj Hit].
  - unfold on_timer. case_if; [by left|right]. case_if; (eapply work_insert; [exact Hj|cbn; lia]).
  - right. eapply work_insert; [exact Hj|cbn; lia].
  - right. eapply work_insert; [exact Hj|cbn; lia].
Qed.

Lemma progress_work s s' :
  step items req_url s s' → (work s' < work s)%nat → progress items req_url s s'.
Proof. intros Hs Hw. split; [done|]. intros ->. lia. Qed.

(** An answer to a request that is out is progress. *)
Lemma response_progress s j it :
  phases s !! j = Some InFlight → items !! j = Some it → ∃ s', progress items req_url s s'.
Proof.
  intros Hj Hit. exists (on_response items j it VNull s). apply progress_work; [by constructor|].
  eapply work_insert; [exact Hj|cbn; lia].
Qed.

Lemma waiting_progress s j it :
  inv s → phases s !! j = Some Waiting → items !! j = Some it → ∃ s', progress items req_url s s'.
Proof.
  intros Hinv Hj Hit. destruct (existsb (streq (req_url it)) (lock s)) eqn:L.
  - apply existsb_exists in L as (u & Hu & E). apply streq_spec in E as <-.
    apply list_elem_of_In, (inv_lock s Hinv) in Hu as (k & b & Hk & Hb & _). by eapply response_progress.
  - exists (on_timer items req_url j it s). apply progress_work; [by constructor|].
    unfold on_timer. rewrite L. case_if; (eapply work_insert; [exact Hj|cbn; lia]).
Qed.

(** (C26) The loop ends: as long as [finish] has not been called, some timer,
    response or error makes progress, and each progress uses up some of the
    work left, which is never more than two moves per entry. *)
Theorem resolver_loop_progress failed cache s :
  items ≠ [] → reachable spec root items req_url failed cache s →
  (finishes s = [] → ∃ s', progress items req_url s s') ∧
  (∀ s', progress items req_url s s' → (work s' < work s)%nat) ∧ (work s <= 2 * length items)%nat.
Proof.
  intros Hne Hr. pose proof (inv_reachable _ _ _ Hne Hr) as Hinv. split_and!.
  - intros Hf.
    destruct (decide (Forall (λ j, phases s !! j = Some Done) (seq 0 (length items)))) as [HF|HF].
    + exfalso. apply (proj2 (finished_iff s Hinv)); [|done].
      intros j Hj. rewrite Forall_forall in HF. apply HF, elem_of_seq. lia.
    + apply not_Forall_Exists in HF; [|apply _]. apply Exists_exists in HF as (j & Hj & Hn).
      apply elem_of_seq in Hj. destruct (lookup_lt_is_Some_2 items j ltac:(lia)) as [it Hit].
      destruct (lookup_lt_is_Some_2 (phases s) j) as [[] Hp]; [rewrite (inv_len s Hinv); lia| | |done].
      * by eapply waiting_progress.
      * by eapply response_progress.
  - intros s' [Hs Hne']. by destruct (step_work s s' Hs).
  - unfold work. rewrite -(inv_len s Hinv). generalize (phases s) as l.
    induction l as [|[] l IH]; cbn; lia.
Qed.
End invariant.

Definition two_remote : list item :=
  let it k := {| i_as := AsInline; i_root := #"http://h/b.json"; i_key := k; i_location := #"/x" |} in
  [it #"b.json#/x"; it #"b.json#/y"].

Lemma resolver_loop_safe_witness :
  let s := start_loop (VObj []) #"http://h/a.json" two_remote [] [] in
  (length (finishes s) <= 1)%nat ∧
  (finishes s ≠ [] ↔ ∀ j, (j < 2)%nat → phases s !! j = Some Done) ∧
  (finishes s ≠ [] → ∀ it, it ∈ two_remote → has_key s (i_key it)) ∧
  (∀ j k a b, phases s !! j = Some InFlight → phases s !! k = Some InFlight →
     two_remote !! j = Some a → two_remote !! k = Some b → i_root a = i_root b → j = k).
Proof.
  apply (resolver_loop_safe (VObj []) #"http://h/a.json" two_remote i_root ltac:(done) [] []); [done|].
  apply reach_start.
Defined.

Lemma resolver_loop_progress_witness :
  let s := start_loop (VObj []) #"http://h/a.json" two_remote [] [] in
  (finishes s = [] → ∃ s', progress two_remote i_root s s') ∧
  (∀ s', progress two_remote i_root s s' → (work s' < work s)%nat) ∧ (work s <= 4)%nat.
Proof.
  apply (resolver_loop_progress (VObj []) #"http://h/a.json" two_remote i_root ltac:(done) [] []); [done|].
  apply reach_start.
Defined.

(** When an authorization changes the URL of the request, the lock is taken
    under the new URL and released under the old one: after the answer to the
    first of two references to one document, the second waits for ever and the
    resolution never finishes. *)
Theorem authorized_lock_stuck (doc : value) :
  let req it := i_root it ++ #"?api_key=k" in
  ∃ s, reachable (VObj []) #"http://h/a.json" two_remote req [] [] s ∧
    finishes s = [] ∧ ∀ s', step two_remote req s s' → s' = s.
Proof.
  intros req. set (s0 := start_loop (VObj []) #"http://h/a.json" two_remote [] []).
  set (a := {| i_as := AsInline; i_root := #"http://h/b.json"; i_key := #"b.json#/x"; i_location := #"/x" |}).
  set (s1 := on_timer two_remote req 0 a s0). set (s2 := on_response two_remote 0 a doc s1).
  assert (reachable (VObj []) #"http://h/a.json" two_remote req [] [] s2) as Hr.
  { eapply reach_step; [eapply reach_step; [apply reach_start|]|].
    - by apply (step_timer two_remote req s0 0 a).
    - by apply (step_response two_remote req s1 0 a doc). }
  exists s2. split_and!; [done|done|].
  assert (phases s2 = [Done; Waiting] ∧ lock s2 = [ #"http://h/b.json?api_key=k"]) as [Hp Hl] by (split; reflexivity).
  intros s' Hs. destruct Hs as [j it Hj Hit|j it d Hj Hit|j it Hj Hit]; rewrite Hp in Hj.
  - destruct j as [|[|j]]; try done. injection Hit as <-. unfold on_timer. rewrite Hl. done.
  - destruct j as [|[|j]]; done.
  - destruct j as [|[|j]]; done.
Qed.

(** However many references each round leaves, resolution stops after at
    most seven rounds. *)
Theorem resolution_rounds left_over :
  ∃ k, rounds 7 left_over 0 = Some k ∧ (1 <= k <= 7)%nat ∧
    (left_over (k - 1)%nat = 0%nat ∨ k = 7%nat) ∧ ∀ i, (i < k - 1)%nat → left_over i ≠ 0%nat.
Proof.
  assert (∀ n i, (i + n = 7)%nat → (1 <= n)%nat → ∃ k, rounds n left_over i = Some k ∧ (1 <= k <= n)%nat ∧
    (left_over (i + k - 1)%nat = 0%nat ∨ k = n) ∧ ∀ j, (i <= j < i + k - 1)%nat → left_over j ≠ 0%nat) as H.
  { induction n as [|n IH]; intros i Hi Hn; [lia|]. cbn [rounds]. unfold again.
    destruct (Nat.eqb_spec (left_over i) 0) as [E|E]; cbn [orb negb].
    { exists 1%nat. split_and!; [done|lia|lia| |lia]. left. by replace (i + 1 - 1)%nat with i by lia. }
    destruct (Nat.ltb_spec 5 i); cbn [negb].
    { exists 1%nat. split_and!; [done|lia|lia|right; lia|lia]. }
    destruct (IH (S i)) as (k & -> & Hk & Hz & Hj); [lia|lia|]. exists (S k).
    split_and!; [done|lia|lia| |].
    - replace (i + S k - 1)%nat with (S i + k - 1)%nat by lia. destruct Hz as [Hz| ->]; [by left|by right].
    - intros j Hjk. destruct (decide (j = i)) as [->|]; [done|]. apply Hj. lia. }
  destruct (H 7%nat 0%nat) as (k & Hk & H1 & H2 & H3); [done|lia|].
  exists k. split_and!; [done|lia|lia|done|]. intros i Hi. apply H3. lia.
Qed.
