(* ===== verification/Client.v ===== *)
(** * SwaggerClient: building the client from a specification

    The parts of [SwaggerClient.prototype.buildFromSpec] that give operations
    their names and groups: operation identifiers, the reserved names of the
    client, the groups of the tags with their sharing between [client[tag]] and
    [client.apis[tag]], unique names inside a group, the order of the groups, and
    the choice of the scheme. *)

From S2P Require Import Prelude JsValue.

(** ** Operation identifiers *)

(** The characters of the class in [idFromOp]. *)
Definition special (c : Z) : bool :=
  is_space c || has c #"!@#$%^&*()_+=[{]};:<>|./?,\'-" || (c =? 34).

Definition underscore : Z := 95.

(** [s.replace(/((_){2,})/g, '_')] *)
Fixpoint collapse (s : jstr) : jstr :=
  match s with
  | c :: t => if (c =? underscore) && match t with d :: _ => d =? underscore | [] => false end
              then collapse t else c :: collapse t
  | [] => []
  end.

Fixpoint strip_left (s : jstr) : jstr :=
  match s with
  | c :: t => if c =? underscore then strip_left t else s
  | [] => []
  end.
Definition strip_right (s : jstr) : jstr := rev (strip_left (rev s)).

(** [operationId] is the property of the operation, if it is a nonempty string. *)
Definition idFromOp (path httpMethod : jstr) (operationId : option jstr) : jstr :=
  let id := match operationId with
            | Some ((_ :: _) as i) => i
            | _ => httpMethod ++ #"_" ++ path
            end in
  let opId := map (λ c, if special c then underscore else c) id in
  let opId := match opId with [] => substring_from 1 path ++ #"_" ++ httpMethod | _ => opId end in
  strip_right (strip_left (collapse opId)).

(** ** Reserved names *)

Definition reservedClientTags : list jstr :=
  [ #"apis"; #"authorizationScheme"; #"authorizations"; #"basePath"; #"build"; #"buildFrom1_1Spec";
    #"buildFrom1_2Spec"; #"buildFromSpec"; #"clientAuthorizations"; #"convertInfo"; #"debug";
    #"defaultErrorCallback"; #"defaultSuccessCallback"; #"enableCookies"; #"fail"; #"failure";
    #"finish"; #"help"; #"host"; #"idFromOp"; #"info"; #"initialize"; #"isBuilt"; #"isValid";
    #"modelPropertyMacro"; #"models"; #"modelsArray"; #"options"; #"parameterMacro"; #"parseUri";
    #"progress"; #"resourceCount"; #"sampleModels"; #"selfReflect"; #"setConsolidatedModels"; #"spec";
    #"supportedSubmitMethods"; #"swaggerRequestHeaders"; #"tagFromLabel"; #"title"; #"url";
    #"useJQuery"; #"jqueryAjaxCache"].

Definition reservedApiTags : list jstr :=
  [ #"apis"; #"asCurl"; #"description"; #"externalDocs"; #"help"; #"label"; #"name"; #"operation";
    #"operations"; #"operationsArray"; #"path"; #"tag"].

Definition listed (l : list jstr) (s : jstr) : bool := existsb (streq s) l.
Definition safe_name (reserved : list jstr) (tag : jstr) : jstr :=
  if listed reserved tag then #"_" ++ tag else tag.

(** ** Groups *)

(** Operations are objects shared by several groups: a group holds their
    numbers, and [nicknames] the one property of theirs that changes. *)
Record group := {
  g_label : jstr;
  g_operations : list (jstr * nat);
}.

Record api := {
  api_tag : jstr;
  operationsArray : list nat;
}.

(** [groups] are the group objects, [client] and [apis] the properties that
    refer to them; a property of the client that holds something else is
    [None]. *)
Record state := {
  nicknames : list jstr;
  groups : list group;
  client : list (jstr * option nat);
  apis : list (jstr * nat);
  apisArray : list api;
}.

(** [makeUniqueOperationId]; [n] bounds the turns. *)
Fixpoint unique_loop (n : nat) (taken : list jstr) (operationId name : jstr) (count : nat)
    : option jstr :=
  match n with
  | O => None
  | S n =>
      if listed taken name
      then unique_loop n taken operationId (operationId ++ #"_" ++ str_of_Z (Z.of_nat count)) (S count)
      else Some name
  end.
Definition makeUniqueOperationId (operationId : jstr) (taken : list jstr) : option jstr :=
  unique_loop (S (length taken)) taken operationId operationId 0.

(** The nicknames of the operations of a group. *)
Definition group_nicknames (s : state) (g : group) : list jstr :=
  omap (λ '(_, i), nicknames s !! i) (g_operations g).

(** The operation is added to the first entry of its tag. *)
Fixpoint push_operation (tag : jstr) (op : nat) (l : list api) : list api :=
  match l with
  | [] => []
  | a :: l => if streq (api_tag a) tag
              then {| api_tag := api_tag a; operationsArray := operationsArray a ++ [op] |} :: l
              else a :: push_operation tag op l
  end.

(** One turn of the loop over the tags of an operation [op]; the identifier is a
    variable of the enclosing function and keeps its changes. *)
Definition register_tag (op : nat) (st : state * jstr) (tag : jstr) : res (state * jstr) :=
  let '(s, operationId) := st in
  let clientProperty := safe_name reservedClientTags tag in
  let apiProperty := safe_name reservedApiTags tag in
  let '(s, operationId) :=
    if listed reservedApiTags operationId then
      let i := #"_" ++ operationId in
      ({| nicknames := <[op := i]> (nicknames s); groups := groups s; client := client s;
          apis := apis s; apisArray := apisArray s |}, i)
    else (s, operationId) in
  let s :=
    match pget (client s) clientProperty with
    | Some _ => s
    | None =>
        let n := length (groups s) in
        {| nicknames := nicknames s;
           groups := groups s ++ [{| g_label := apiProperty; g_operations := [] |}];
           client := pset clientProperty (Some n) (client s); apis := pset apiProperty n (apis s);
           apisArray := apisArray s ++ [{| api_tag := tag; operationsArray := [] |}] |}
    end in
  match pget (client s) clientProperty ≫= id, pget (apis s) apiProperty with
  | Some own, Some shared =>
      match groups s !! own, groups s !! shared with
      | Some g, Some g' =>
          match makeUniqueOperationId operationId (group_nicknames s g') with
          | None => Throw TypeError
          | Some operationId =>
              Ok ({| nicknames := nicknames s;
                     groups := <[own := {| g_label := g_label g;
                                           g_operations := pset operationId op (g_operations g) |}]>
                               (groups s);
                     client := client s; apis := apis s;
                     apisArray := push_operation tag op (apisArray s) |}, operationId)
          end
      | _, _ => Throw TypeError
      end
  | _, _ => Throw TypeError
  end.

(** An operation of the specification: its path, method, identifier and tags. *)
Record spec_op := {
  so_path : jstr;
  so_method : jstr;
  so_id : option jstr;
  so_tags : list jstr;
}.

Definition register (s : state) (o : spec_op) : res state :=
  let tags := match so_tags o with [] => [ #"default"] | t => t end in
  let id := idFromOp (so_path o) (so_method o) (so_id o) in
  let op := length (nicknames s) in
  fst <$> fold_res (register_tag op) tags
    ({| nicknames := nicknames s ++ [id]; groups := groups s; client := client s; apis := apis s;
        apisArray := apisArray s |}, id).

(** The client before any operation; [own] are its properties that are defined
    and are not groups. *)
Definition fresh_client (own : list jstr) : state :=
  {| nicknames := []; groups := []; client := map (λ k, (k, None)) own; apis := []; apisArray := [] |}.

Definition register_all (own : list jstr) (ops : list spec_op) : res state :=
  fold_res register ops (fresh_client own).

(** ** The order of the groups *)

Fixpoint sort_apis (definedTags : list jstr) (l : list api) : list api :=
  match definedTags with
  | [] => l
  | tag :: tags =>
      List.filter (λ a, streq tag (api_tag a)) l
      ++ sort_apis tags (List.filter (λ a, negb (streq tag (api_tag a))) l)
  end.

(** ** The scheme *)

(** [scheme] and [schemes] are the client's, [page] the protocol of the window
    without its colon when there is a window, [url_scheme] that of the
    specification's URL. *)
Definition choose_scheme (scheme : option jstr) (schemes : list jstr) (page url_scheme : option jstr)
    : option jstr :=
  match schemes with
  | [] => match page with
          | Some p => Some p
          | None => match url_scheme with Some ((_ :: _) as u) => Some u | _ => Some #"http" end
          end
  | first :: _ =>
      match page with
      | Some p =>
          if prefixb #"chrome-extension" p then url_scheme
          else match scheme with
               | Some s => Some s
               | None =>
                   if streq p #"https" && negb (listed schemes p) then Some #"http"
                   else if listed schemes p then Some p
                   else if listed schemes #"https" then Some #"https" else Some #"http"
               end
      | None =>
          match scheme with
          | Some s => Some s
          | None => match first with [] => url_scheme | _ => Some first end
          end
      end
  end.

(** ** Identifiers *)

(** No two underscores in a row. *)
Fixpoint no_double (s : jstr) : Prop :=
  match s with
  | c :: t => match t with d :: _ => ¬ (c = underscore ∧ d = underscore) | [] => True end ∧ no_double t
  | [] => True
  end.

Lemma collapse_head s : ∀ c, head (collapse s) = Some c → head s = Some c.
Proof.
  induction s as [|x s IH]; intros c; [done|]. cbn [collapse].
  destruct (_ && _) eqn:E; [|done]. intros H. apply IH in H. destruct s as [|y s]; [done|].
  apply andb_true_iff in E as [E1 E2]. apply Z.eqb_eq in E1, E2. cbn in *. congruence.
Qed.

Lemma collapse_no_double s : no_double (collapse s).
Proof.
  induction s as [|x s IH]; [done|]. cbn [collapse]. destruct (_ && _) eqn:E; [done|].
  cbn [no_double]. split; [|done]. destruct (collapse s) as [|d t] eqn:Ec; [done|].
  intros [-> ->]. pose proof (collapse_head s underscore) as H. rewrite Ec in H.
  specialize (H eq_refl). destruct s as [|y s]; [done|]. cbn in H. injection H as ->. done.
Qed.

Lemma collapse_in s c : c ∈ collapse s → c ∈ s.
Proof.
  induction s as [|x s IH]; [done|]. cbn [collapse]. destruct (_ && _); set_solver.
Qed.

Lemma strip_left_suffix s : ∃ p, s = p ++ strip_left s.
Proof.
  induction s as [|c s IH]; [by exists []|]. cbn [strip_left].
  destruct (c =? underscore); [|by exists []]. destruct IH as [p Hp]. exists (c :: p). cbn. congruence.
Qed.

Lemma strip_left_head s : head (strip_left s) ≠ Some underscore.
Proof.
  induction s as [|c s IH]; [done|]. cbn [strip_left]. destruct (Z.eqb_spec c underscore); [done|].
  cbn. congruence.
Qed.

Lemma strip_right_prefix s : ∃ p, s = strip_right s ++ p.
Proof.
  unfold strip_right. destruct (strip_left_suffix (rev s)) as [p Hp]. exists (rev p).
  rewrite -rev_app_distr -Hp. by rewrite rev_involutive.
Qed.

Lemma no_double_suffix p s : no_double (p ++ s) → no_double s.
Proof. induction p as [|c p IH]; [done|]. cbn. intros [_ H]. auto. Qed.

Lemma no_double_prefix s p : no_double (s ++ p) → no_double s.
Proof.
  induction s as [|c s IH]; [done|]. cbn [app no_double]. intros [H1 H2]. split; [|auto].
  by destruct s.
Qed.

(** An operation's identifier has no special character but single
    underscores inside it: none at either end, no two in a row. *)
Theorem idFromOp_clean path httpMethod operationId :
  let i := idFromOp path httpMethod operationId in
  head i ≠ Some underscore ∧ last i ≠ Some underscore ∧ no_double i ∧
  (∀ c, c ∈ i → special c = true → c = underscore).
Proof.
  cbn zeta. unfold idFromOp. set (src := match operationId with Some _ => _ | None => _ end).
  set (m := map _ src). set (x := match m with [] => _ | _ => m end).
  assert (m ≠ []) as Hm by (unfold m, src; destruct operationId as [[|]|]; by destruct httpMethod).
  assert (x = m) as -> by (unfold x; by destruct m).
  destruct (strip_left_suffix (collapse m)) as [p Hp].
  destruct (strip_right_prefix (strip_left (collapse m))) as [q Hq].
  set (i := strip_right (strip_left (collapse m))) in *.
  split_and!.
  - pose proof (strip_left_head (collapse m)) as H. rewrite Hq in H.
    destruct i as [|c i]; [done|]. done.
  - unfold i, strip_right. rewrite -head_reverse. rewrite /reverse rev_append_rev app_nil_r rev_involutive.
    apply strip_left_head.
  - pose proof (collapse_no_double m) as H. rewrite Hp in H. apply no_double_suffix in H.
    rewrite Hq in H. by apply no_double_prefix in H.
  - intros c Hc Hs.
    assert (c ∈ m) as Hin.
    { apply collapse_in. rewrite Hp elem_of_app. right. rewrite Hq elem_of_app. by left. }
    apply list_elem_of_fmap in Hin as (d & -> & _). destruct (special d) eqn:E; [done|]. congruence.
Qed.

(** ** Names inside a group *)

Lemma listed_in l s : listed l s = true ↔ s ∈ l.
Proof.
  unfold listed. rewrite existsb_exists. setoid_rewrite streq_spec.
  setoid_rewrite <- list_elem_of_In. naive_solver.
Qed.
Lemma listed_false l s : listed l s = false ↔ s ∉ l.
Proof. rewrite -listed_in. destruct (listed l s); naive_solver. Qed.

Lemma unique_loop_spec taken base n : ∀ k,
  (∃ j, (k <= j < k + n)%nat ∧ candidate base j ∉ taken) →
  ∃ j, (k <= j < k + n)%nat ∧ unique_loop n taken base (candidate base k) k = Some (candidate base j) ∧
    candidate base j ∉ taken ∧ ∀ i, (k <= i < j)%nat → candidate base i ∈ taken.
Proof.
  induction n as [|n IH]; intros k (j & Hj & Hf); [lia|]. cbn [unique_loop].
  destruct (listed taken (candidate base k)) eqn:E.
  - apply listed_in in E. destruct (IH (S k)) as (j' & Hj' & Hs & Hf' & Hall).
    { exists j. split; [|done]. destruct (decide (j = k)) as [->|]; [done|lia]. }
    exists j'. split_and!; [lia|lia|by rewrite -Hs|done|].
    intros i Hi. destruct (decide (i = k)) as [->|]; [done|]. apply Hall. lia.
  - apply listed_false in E. exists k. split_and!; [lia|lia|done|done|lia].
Qed.

Lemma makeUnique_fresh operationId taken :
  ∃ j, (j <= length taken)%nat ∧ makeUniqueOperationId operationId taken = Some (candidate operationId j) ∧
    candidate operationId j ∉ taken ∧ ∀ i, (i < j)%nat → candidate operationId i ∈ taken.
Proof.
  destruct (fresh_among (candidate operationId) taken) as (j & Hj & Hfree); [apply candidate_inj|].
  destruct (unique_loop_spec taken operationId (S (length taken)) 0) as (j' & Hj' & Hs & Hf & Hall).
  { exists j. split; [lia|done]. }
  exists j'. split_and!; [lia|exact Hs|done|]. intros i Hi. apply Hall. lia.
Qed.

(** The search for a unique operation name ends and gives the first of
    [id], [id_0], [id_1], ... that is not the nickname of an operation of the
    group. *)
Theorem makeUniqueOperationId_fresh operationId taken :
  ∃ j, (j <= length taken)%nat ∧ makeUniqueOperationId operationId taken = Some (candidate operationId j) ∧
    candidate operationId j ∉ taken ∧ ∀ i, (i < j)%nat → candidate operationId i ∈ taken.
Proof. apply makeUnique_fresh. Qed.

(** The unique name is not recorded as the nickname: of three
    operations with one identifier in one group, the third takes the name of the
    second, which is lost from the group. *)
Theorem third_duplicate_lost :
  let o p := {| so_path := p; so_method := #"get"; so_id := Some #"x"; so_tags := [] |} in
  ∃ s g, register_all [] [o #"/a"; o #"/b"; o #"/c"] = Ok s ∧
    groups s = [g] ∧ g_operations g = [(#"x", 0%nat); (#"x_0", 2%nat)].
Proof. vm_compute. by eexists _, _. Qed.

(** ** Reserved names *)

(** Properties that refer to a group are not reserved names, and refer to a
    group that exists. *)
Definition client_ok (s : state) : Prop :=
  (∀ k i, pget (client s) k = Some (Some i) → k ∉ reservedClientTags ∧ (i < length (groups s))%nat) ∧
  (∀ k i, pget (apis s) k = Some i → k ∉ reservedApiTags ∧ (i < length (groups s))%nat).

Lemma safe_name_ok reserved tag :
  Forall (λ r, head r ≠ Some underscore) reserved → safe_name reserved tag ∉ reserved.
Proof.
  intros HF. unfold safe_name. destruct (listed reserved tag) eqn:E; [|by apply listed_false].
  intros Hin. rewrite Forall_forall in HF. by apply (HF _ Hin).
Qed.

Lemma reserved_plain :
  Forall (λ r, head r ≠ Some underscore) reservedClientTags ∧
  Forall (λ r, head r ≠ Some underscore) reservedApiTags.
Proof. split; repeat constructor; done. Qed.

(** However the tags of a specification are named, registering its
    operations never gives a group the name of a function or property the client
    reserves, in the client or in its [apis]. *)
Theorem register_tag_reserved op s i tag s' i' :
  client_ok s → register_tag op (s, i) tag = Ok (s', i') → client_ok s'.
Proof.
  intros Hok H. destruct reserved_plain as [Rc Ra]. unfold register_tag in H.
  set (s1 := if listed reservedApiTags i then _ else (s, i)) in H.
  assert (client_ok s1.1) as Hok1 by (unfold s1; case_if; exact Hok).
  clearbody s1. destruct s1 as [s2 i2]. cbn [fst] in Hok1.
  set (s3 := match pget (client s2) _ with Some _ => s2 | None => _ end) in H.
  assert (client_ok s3) as Hok3.
  { unfold s3. destruct (pget (client s2) (safe_name reservedClientTags tag)); [exact Hok1|]. destruct Hok1 as [H1 H2].
    split; intros k j; cbn [client apis groups]; rewrite pget_pset length_app; case_if; cbn [length].
    - intros [= <-]. str_eqs. subst k. split; [by apply safe_name_ok|lia].
    - intros Hk. destruct (H1 _ _ Hk). split; [done|lia].
    - intros [= <-]. str_eqs. subst k. split; [by apply safe_name_ok|lia].
    - intros Hk. destruct (H2 _ _ Hk). split; [done|lia]. }
  clearbody s3. repeat (case_match; try done). injection H as <- <-.
  unfold client_ok in *. cbn [client apis groups]. by rewrite length_insert.
Qed.

Lemma register_tag_reserved_witness : ∃ s' i', register_tag 0
    ({| nicknames := [ #"ping"]; groups := []; client := []; apis := []; apisArray := [] |}, #"ping") #"host"
    = Ok (s', i') ∧ client_ok s'.
Proof.
  eexists _, _. split; [reflexivity|].
  apply (register_tag_reserved 0 {| nicknames := [ #"ping"]; groups := []; client := []; apis := [];
    apisArray := [] |} #"ping" #"host" _ #"ping"); [|reflexivity]. split; intros; done.
Defined.

(** ** The order of the groups *)

Lemma filter_partition (f : api → bool) l :
  List.filter f l ++ List.filter (λ a, negb (f a)) l ≡ₚ l.
Proof.
  induction l as [|x l IH]; [done|]. cbn. destruct (f x); cbn; [by rewrite IH|].
  rewrite -Permutation_middle. by rewrite IH.
Qed.

Lemma sort_apis_permutation tags : ∀ l, sort_apis tags l ≡ₚ l.
Proof.
  induction tags as [|t tags IH]; intros l; [done|]. cbn [sort_apis]. by rewrite IH filter_partition.
Qed.

Lemma filter_tag t l x :
  x ∈ List.filter (λ a, negb (streq t (api_tag a))) l ↔ x ∈ l ∧ api_tag x ≠ t.
Proof.
  rewrite !list_elem_of_In filter_In negb_true_iff streq_neq. naive_solver.
Qed.

(** Sorting the groups by the declared tags loses and invents none, and
    puts the groups of a declared tag after those of the tags declared before it
    and before all others. *)
Theorem sort_apis_spec tags l :
  sort_apis tags l ≡ₚ l ∧
  ∀ tags1 t tags2, tags = tags1 ++ t :: tags2 → t ∉ tags1 →
    ∃ a b c, sort_apis tags l = a ++ b ++ c ∧ Forall (λ x, api_tag x ∈ tags1) a ∧
      Forall (λ x, api_tag x = t) b ∧ Forall (λ x, api_tag x ≠ t ∧ api_tag x ∉ tags1) c.
Proof.
  split; [apply sort_apis_permutation|]. intros tags1 t tags2 -> Ht. revert l.
  induction tags1 as [|t1 tags1 IH]; intros l; cbn [app sort_apis].
  - eexists [], _, _. split; [reflexivity|]. split; [by constructor|].
    split; apply Forall_forall; intros x Hx.
    + rewrite list_elem_of_In filter_In in Hx. destruct Hx as [_ Hx]. str_eqs. done.
    + rewrite sort_apis_permutation filter_tag in Hx. split; [apply Hx|apply not_elem_of_nil].
  - apply not_elem_of_cons in Ht as [H1 Ht].
    set (l1 := List.filter (λ a, negb (streq t1 (api_tag a))) l).
    destruct (IH Ht l1) as (a & b & c & E & Ha & Hb & Hc).
    exists (List.filter (λ a, streq t1 (api_tag a)) l ++ a), b, c.
    rewrite E -app_assoc. split_and!; [done| |done|].
    + apply Forall_app. split; apply Forall_forall; intros x Hx.
      * rewrite list_elem_of_In filter_In in Hx. destruct Hx as [_ Hx]. str_eqs. subst. by left.
      * rewrite Forall_forall in Ha. right. by apply Ha.
    + rewrite Forall_forall in Hc. apply Forall_forall. intros x Hx. destruct (Hc x Hx) as [H2 H3].
      split; [done|]. apply not_elem_of_cons. split; [|done].
      assert (x ∈ l1) as Hl1 by (rewrite -(sort_apis_permutation (tags1 ++ t :: tags2) l1) E; set_solver).
      by apply filter_tag in Hl1 as [_ ?].
Qed.

(** In a browser page, when the specification offers schemes and none is
    preset, the page's own scheme is used whenever it is offered, and otherwise
    the choice is [https] if offered or [http]. *)
Theorem choose_scheme_page schemes page url_scheme :
  schemes ≠ [] → prefixb #"chrome-extension" page = false →
  choose_scheme None schemes (Some page) url_scheme
  = Some (if listed schemes page then page
          else if negb (streq page #"https") && listed schemes #"https" then #"https" else #"http").
Proof.
  intros Hne Hc. destruct schemes as [|x schemes]; [done|]. cbn [choose_scheme]. rewrite Hc.
  destruct (listed (x :: schemes) page) eqn:E; cbn [negb]; [by rewrite andb_false_r|].
  rewrite andb_true_r. destruct (streq page #"https"); cbn [negb andb]; [done|]. by case_if.
Qed.

Lemma choose_scheme_page_witness : choose_scheme None [ #"http"; #"https"] (Some #"https") None = Some #"https".
Proof. apply (choose_scheme_page [ #"http"; #"https"] #"https" None); done. Defined.
