(* ===== verification/Regex.v ===== *)
(** * Regular expressions with captures, and [parseUri]

    The matching of JavaScript regular expressions: greedy repetition with
    backtracking, numbered groups, groups reset at each turn of a repetition, and
    turns that match nothing refused. [parseUri] of the client runs one of them to
    take a URL apart. *)

From S2P Require Import Prelude.

Inductive re :=
  | Eps
  | Cls (f : Z → bool)
  | Seq (a b : re)
  | Alt (a b : re)
  | Opt (a : re)
  | Star (a : re)
  | Grp (n : nat) (a : re)
  | Peek (f : jstr → bool).   (* a test of what follows *)

Abbreviation captures := (list (nat * jstr)).

Fixpoint groups_of (r : re) : list nat :=
  match r with
  | Eps | Cls _ | Peek _ => []
  | Seq a b | Alt a b => groups_of a ++ groups_of b
  | Opt a | Star a => groups_of a
  | Grp n a => n :: groups_of a
  end.

(** The groups of [r] become undefined. *)
Definition reset (r : re) (c : captures) : captures :=
  List.filter (λ p, negb (existsb (Nat.eqb p.1) (groups_of r))) c.

Definition captured (c : captures) (n : nat) : option jstr :=
  snd <$> List.find (λ p, (p.1 =? n)%nat) c.

(** The turns of a repetition of [m], which [k] follows. A turn consumes a unit, so
    [length s] turns are enough. *)
Fixpoint star_of (m : jstr → captures → (jstr → captures → option captures) → option captures) (a : re)
    (k : jstr → captures → option captures) (n : nat) (s : jstr) (c : captures) : option captures :=
  match n with
  | O => k s c
  | S n =>
      match m s (reset a c) (λ s' c', if (length s' =? length s)%nat then None else star_of m a k n s' c') with
      | Some x => Some x
      | None => k s c
      end
  end.

(** [k] matches what follows; a match of the whole is what it returns. *)
Fixpoint mt (r : re) (s : jstr) (c : captures) (k : jstr → captures → option captures) : option captures :=
  match r with
  | Eps => k s c
  | Cls f => match s with x :: t => if f x then k t c else None | [] => None end
  | Seq a b => mt a s c (λ s' c', mt b s' c' k)
  | Alt a b => match mt a s c k with Some x => Some x | None => mt b s c k end
  | Opt a =>
      match mt a s (reset a c) (λ s' c', if (length s' =? length s)%nat then None else k s' c') with
      | Some x => Some x
      | None => k s c
      end
  | Star a => star_of (mt a) a k (length s) s c
  | Grp n a => mt a s c (λ s' c', k s' ((n, take (length s - length s') s) :: c'))
  | Peek f => if f s then k s c else None
  end.

(** [re.exec(s)] of an expression that starts with [^]. *)
Definition exec (r : re) (s : jstr) : option captures := mt r s [] (λ _ c, Some c).

Definition Plus (a : re) : re := Seq a (Star a).
Definition Chr (c : Z) : re := Cls (Z.eqb c).
(** [[^...]] *)
Definition Not (l : jstr) : re := Cls (λ x, negb (has x l)).
Definition digit : re := Cls is_digit.

(** ** [parseUri] *)

Definition userinfo : re :=
  Seq (Grp 7 (Seq (Grp 8 (Plus (Not #":@/#?"))) (Opt (Seq (Chr 58) (Grp 9 (Plus (Not #":@/#?"))))))) (Chr 64).
Definition hostname : re :=
  Grp 11 (Alt (Plus (Not #":/#?]["))
              (Seq (Chr 91) (Seq (Plus (Not #"/]@#?")) (Chr 93)))).
Definition port_re : re := Opt (Seq (Chr 58) (Grp 12 (Plus digit))).
Definition authority : re := Grp 6 (Seq (Opt userinfo) (Grp 10 (Seq hostname port_re))).
Definition scheme_part : re := Grp 4 (Seq (Plus (Not #":/#?")) (Chr 58)).
Definition authority_part : re := Seq (Grp 5 (Seq (Chr 47) (Chr 47))) (Opt authority).
Definition prefix_part : re := Grp 3 (Seq (Opt scheme_part) (Opt authority_part)).
Definition path_part : re :=
  Grp 13 (Seq (Grp 14 (Seq (Opt (Chr 47)) (Star (Seq (Plus (Not #"/?#")) (Plus (Chr 47))))))
              (Grp 15 (Star (Not #"?#")))).
Definition hier_part : re := Grp 2 (Seq (Opt prefix_part) path_part).
Definition query_part : re := Opt (Grp 16 (Seq (Chr 63) (Plus (Not #"#")))).
Definition fragment_part : re :=
  Opt (Grp 17 (Seq (Chr 35) (Star (Cls (λ x, negb (has x [10; 13; 8232; 8233])))))).
Definition urlParseRE : re := Seq (Grp 1 (Seq (Opt hier_part) query_part)) fragment_part.

Record uri := { u_scheme : option jstr; u_host : option jstr; u_port : option jstr; u_path : option jstr }.

(** A group that matched the empty string is falsy. *)
Definition parseUri (s : jstr) : res uri :=
  match exec urlParseRE s with
  | None => Throw TypeError
  | Some parts =>
      Ok {| u_scheme := match captured parts 4 with Some ((_ :: _) as p) => Some (replace_first #":" [] p) | _ => None end;
            u_host := captured parts 11; u_port := captured parts 12; u_path := captured parts 15 |}
  end.

(** ** The matches of an expression *)

Fixpoint lang (r : re) (p : jstr) : Prop :=
  match r with
  | Eps => p = []
  | Cls f => ∃ x, p = [x] ∧ f x = true
  | Seq a b => ∃ p1 p2, p = p1 ++ p2 ∧ lang a p1 ∧ lang b p2
  | Alt a b => lang a p ∨ lang b p
  | Opt a => p = [] ∨ lang a p
  | Star a => ∃ l, p = concat l ∧ Forall (lang a) l
  | Grp _ a => lang a p
  | Peek _ => p = []
  end.

(** A property of captures that the groups [l] do not matter to. *)
Record stable (P : captures → Prop) (l : list nat) : Prop := {
  st_add : ∀ n t c, n ∈ l → P c → P ((n, t) :: c);
  st_reset : ∀ a c, (∀ n, n ∈ groups_of a → n ∈ l) → P c → P (reset a c);
}.

Lemma stable_sub P l l' : (∀ n, n ∈ l' → n ∈ l) → stable P l → stable P l'.
Proof. intros Hl [H1 H2]. split; [intros n t c Hn; apply H1; by apply Hl|intros a c Ha; apply H2; by eauto]. Qed.

(** [p] is matched by [r], which changes the captures from [c] to [c'] : a group
    captures the text its expression matched. *)
Fixpoint derives (r : re) (p : jstr) (c c' : captures) : Prop :=
  match r with
  | Eps => p = [] ∧ c' = c
  | Cls f => (∃ x, p = [x] ∧ f x = true) ∧ c' = c
  | Seq a b => ∃ p1 p2 c1, p = p1 ++ p2 ∧ derives a p1 c c1 ∧ derives b p2 c1 c'
  | Alt a b => derives a p c c' ∨ derives b p c c'
  | Opt a => p = [] ∧ c' = c ∨ derives a p (reset a c) c'
  | Star a => ∃ l, p = concat (map fst l) ∧
      (fix turns (l : list (jstr * captures)) (c : captures) : Prop :=
         match l with [] => c' = c | (q, d) :: l => derives a q (reset a c) d ∧ turns l d end) l c
  | Grp n a => ∃ d, derives a p c d ∧ c' = (n, p) :: d
  | Peek _ => p = [] ∧ c' = c
  end.

(** What is matched derives from the expression, and the rest is matched by what
    follows. *)
Lemma mt_derives r : ∀ s c k x,
  mt r s c k = Some x → ∃ p q c', s = p ++ q ∧ derives r p c c' ∧ k q c' = Some x.
Proof.
  induction r as [|f|a IHa b IHb|a IHa b IHb|a IHa|a IHa|n a IHa|f]; intros s c k x H; cbn [mt derives] in *.
  - by exists [], s, c.
  - destruct s as [|y t]; [done|]. destruct (f y) eqn:E; [|done]. exists [y], t, c. split_and!; [done|by exists y|done..].
  - apply IHa in H as (p1 & q1 & c1 & -> & D1 & H). apply IHb in H as (p2 & q2 & c2 & -> & D2 & H).
    exists (p1 ++ p2), q2, c2. split_and!; [by rewrite app_assoc|by exists p1, p2, c1|done].
  - destruct (mt a s c k) as [y|] eqn:E.
    + simplify_eq. apply IHa in E as (p & q & c' & ? & ? & ?). exists p, q, c'. split_and!; [done|by left|done].
    + apply IHb in H as (p & q & c' & ? & ? & ?). exists p, q, c'. split_and!; [done|by right|done].
  - destruct (mt a s (reset a c) _) as [y|] eqn:E.
    + simplify_eq. apply IHa in E as (p & q & c' & ? & ? & H1). destruct (length q =? length s)%nat; [done|].
      exists p, q, c'. split_and!; [done|by right|done].
    + exists [], s, c. split_and!; [done|by left|done].
  - assert (∀ m s c, star_of (mt a) a k m s c = Some x → ∃ p q c', s = p ++ q ∧ derives (Star a) p c c' ∧ k q c' = Some x)
      as Hgo; [|by eapply Hgo].
    clear s c H. induction m as [|m IH]; intros s c H; cbn [star_of] in H.
    + exists [], s, c. split_and!; [done|by exists []|done].
    + destruct (mt a s (reset a c) _) as [y|] eqn:E.
      * simplify_eq. apply IHa in E as (p1 & q1 & c1 & -> & D1 & H1). destruct (length q1 =? _)%nat; [done|].
        apply IH in H1 as (p2 & q2 & c2 & -> & (l & -> & Hl) & H2). exists (p1 ++ concat (map fst l)), q2, c2.
        split_and!; [by rewrite app_assoc|by exists ((p1, c1) :: l)|done].
      * exists [], s, c. split_and!; [done|by exists []|done].
  - apply IHa in H as (p & q & c' & -> & D & H1). eexists p, q, _. split_and!; [done| |exact H1]. exists c'. split; [done|].
    by rewrite length_app Nat.add_sub take_app_length.
  - destruct (f s); [|done]. by exists [], s, c.
Qed.

Lemma derives_lang r : ∀ p c c', derives r p c c' → lang r p.
Proof.
  induction r as [|f|a IHa b IHb|a IHa b IHb|a IHa|a IHa|n a IHa|f]; intros p c c' H; cbn [derives lang] in *.
  - by destruct H.
  - by destruct H.
  - destruct H as (p1 & p2 & c1 & -> & D1 & D2). exists p1, p2. eauto.
  - destruct H; eauto.
  - destruct H as [[-> _]|H]; eauto.
  - destruct H as (l & -> & H). exists (map fst l). split; [done|]. revert c H.
    induction l as [|[q d] l IH]; intros c H; [constructor|]. destruct H as [D H]. constructor; [by eapply IHa|by eapply IH].
  - destruct H as (d & D & _). by eapply IHa.
  - by destruct H.
Qed.

Lemma derives_stable r P : ∀ p c c', stable P (groups_of r) → derives r p c c' → P c → P c'.
Proof.
  induction r as [|f|a IHa b IHb|a IHa b IHb|a IHa|a IHa|n a IHa|f]; intros p c c' Hst H Hc; cbn [derives groups_of] in *.
  - by destruct H as [_ ->].
  - by destruct H as [_ ->].
  - destruct H as (p1 & p2 & c1 & -> & D1 & D2). eapply IHb; [|exact D2|].
    + eapply stable_sub; [|exact Hst]. intros. apply elem_of_app. by right.
    + eapply IHa; [|exact D1|done]. eapply stable_sub; [|exact Hst]. intros. apply elem_of_app. by left.
  - destruct H as [H|H]; [eapply IHa|eapply IHb]; try done; (eapply stable_sub; [|exact Hst]); intros; apply elem_of_app; auto.
  - destruct H as [[-> ->]|H]; [done|]. eapply IHa; [done|exact H|]. by apply (st_reset _ _ Hst).
  - destruct H as (l & -> & H). revert c H Hc. induction l as [|[q d] l IH]; intros c H Hc; [by subst|].
    destruct H as [D H]. eapply IH; [exact H|]. eapply IHa; [done|exact D|]. by apply (st_reset _ _ Hst).
  - destruct H as (d & D & ->). apply (st_add _ _ Hst); [by left|]. eapply IHa; [|exact D|done].
    eapply stable_sub; [|exact Hst]. intros. by right.
  - by destruct H as [_ ->].
Qed.

Lemma mt_sound r P s c k x :
  stable P (groups_of r) → P c → mt r s c k = Some x →
  ∃ p q c', s = p ++ q ∧ lang r p ∧ P c' ∧ k q c' = Some x.
Proof.
  intros Hst Hc H. apply mt_derives in H as (p & q & c' & -> & D & H). exists p, q, c'.
  split_and!; [done|by eapply derives_lang|by eapply derives_stable|done].
Qed.

(** Expressions that match whatever the text is. *)
Fixpoint total (r : re) : bool :=
  match r with
  | Eps | Opt _ | Star _ => true
  | Cls _ | Peek _ => false
  | Seq a b => total a && total b
  | Alt a b => total b
  | Grp _ a => total a
  end.

Lemma mt_total r : ∀ (P R : captures → Prop) s c k,
  total r = true → stable P (groups_of r) → P c →
  (∀ s' c', (length s' <= length s)%nat → P c' → ∃ x, k s' c' = Some x ∧ R x) → ∃ x, mt r s c k = Some x ∧ R x.
Proof.
  induction r as [|f|a IHa b IHb|a IHa b IHb|a IHa|a IHa|n a IHa|f]; intros P R s c k Ht Hst Hc Hk; cbn [mt total groups_of] in *.
  - by apply Hk.
  - done.
  - apply andb_true_iff in Ht as [Ha Hb]. apply (IHa P R); [done| |done|].
    { eapply stable_sub; [|exact Hst]. intros. apply elem_of_app. by left. }
    intros s' c' Hs' Hc'. apply (IHb P R); [done| |done|].
    { eapply stable_sub; [|exact Hst]. intros. apply elem_of_app. by right. }
    intros s'' c'' Hs''. apply Hk. lia.
  - destruct (mt a s c k) as [y|] eqn:E.
    + exists y. split; [done|]. destruct (mt_sound a P s c k y) as (p & q & c' & -> & _ & P1 & H1); [|done|done|].
      { eapply stable_sub; [|exact Hst]. intros. apply elem_of_app. by left. }
      destruct (Hk q c') as (x & Hx & HR); [rewrite length_app; lia|done|]. congruence.
    + apply (IHb P R); [done| |done|done]. eapply stable_sub; [|exact Hst]. intros. apply elem_of_app. by right.
  - destruct (mt a s (reset a c) _) as [y|] eqn:E; [|by apply Hk]. exists y. split; [done|].
    destruct (mt_sound a P s _ _ y Hst ltac:(by apply (st_reset _ _ Hst)) E) as (p & q & c' & -> & _ & P1 & H1).
    destruct (length q =? _)%nat; [done|]. destruct (Hk q c') as (x & Hx & HR); [rewrite length_app; lia|done|]. congruence.
  - assert (∀ m s' c, P c → (length s' <= length s)%nat → ∃ x, star_of (mt a) a k m s' c = Some x ∧ R x) as Hgo; [|by apply Hgo].
    clear c Hc. induction m as [|m IH]; intros s' c Hc Hle; cbn [star_of]; [by apply Hk|].
    destruct (mt a s' (reset a c) _) as [y|] eqn:E; [|by apply Hk]. exists y. split; [done|].
    destruct (mt_sound a P s' _ _ y Hst ltac:(by apply (st_reset _ _ Hst)) E) as (p & q & c' & -> & _ & P1 & H1).
    destruct (length q =? _)%nat; [done|]. destruct (IH q c' P1) as (x & Hx & HR); [rewrite length_app in Hle; lia|]. congruence.
  - apply (IHa P R); [done| |done|].
    { eapply stable_sub; [|exact Hst]. intros. by right. }
    intros s' c' Hs' Hc'. apply Hk; [done|]. apply (st_add _ _ Hst); [by left|done].
  - done.
Qed.

(** Greedy repetition of a class takes all it can when what follows matches then. *)
Lemma reset_none a c : groups_of a = [] → reset a c = c.
Proof. intros E. unfold reset. rewrite E. induction c as [|p c IH]; [done|]. cbn. f_equal. exact IH. Qed.

Definition stops_at (f : Z → bool) (q : jstr) : Prop := match q with x :: _ => f x = false | [] => True end.

Lemma star_class f p : ∀ q c k x n,
  forallb f p = true → stops_at f q → (length p <= n)%nat → k q c = Some x → star_of (mt (Cls f)) (Cls f) k n (p ++ q) c = Some x.
Proof.
  induction p as [|y p IH]; intros q c k x n Hp Hq Hn Hk; cbn [app].
  - destruct n as [|n]; [done|]. cbn. destruct q as [|z q]; [done|]. cbn in Hq. by rewrite Hq.
  - destruct n as [|n]; [cbn in Hn; lia|]. cbn in Hp, Hn. apply andb_true_iff in Hp as [Hy Hp]. cbn [star_of mt app].
    rewrite Hy reset_none //. assert ((length (p ++ q) =? length (y :: p ++ q))%nat = false) as ->.
    { apply Nat.eqb_neq. cbn. lia. }
    by rewrite (IH q c k x n Hp Hq ltac:(lia) Hk).
Qed.

Lemma plus_class f p q c k x :
  forallb f p = true → p ≠ [] → stops_at f q → k q c = Some x → mt (Plus (Cls f)) (p ++ q) c k = Some x.
Proof.
  intros Hp Hne Hq Hk. destruct p as [|y p]; [done|]. cbn in Hp. apply andb_true_iff in Hp as [Hy Hp].
  unfold Plus. cbn [mt app]. rewrite Hy. apply star_class; [done|done|rewrite length_app; lia|done].
Qed.

Lemma opt_match a s c k x :
  mt a s (reset a c) (λ s' c', if (length s' =? length s)%nat then None else k s' c') = Some x → mt (Opt a) s c k = Some x.
Proof. intros H. cbn [mt]. by rewrite H. Qed.
Lemma opt_skip a s c k x :
  mt a s (reset a c) (λ s' c', if (length s' =? length s)%nat then None else k s' c') = None → k s c = Some x →
  mt (Opt a) s c k = Some x.
Proof. intros H Hk. cbn [mt]. by rewrite H. Qed.

(** ** Matching with a result that has a property *)

Definition succeeds (o : option captures) (R : captures → Prop) : Prop := ∃ x, o = Some x ∧ R x.

Lemma plus_succeeds f p q c k R :
  forallb f p = true → p ≠ [] → stops_at f q → succeeds (k q c) R → succeeds (mt (Plus (Cls f)) (p ++ q) c k) R.
Proof. intros Hp Hne Hq (x & Hx & HR). exists x. split; [by apply plus_class|done]. Qed.

Lemma opt_succeeds a s c k R :
  succeeds (mt a s (reset a c) (λ s' c', if (length s' =? length s)%nat then None else k s' c')) R →
  succeeds (mt (Opt a) s c k) R.
Proof. intros (x & Hx & HR). exists x. split; [by apply opt_match|done]. Qed.

Lemma opt_absent a s c k R :
  mt a s (reset a c) (λ s' c', if (length s' =? length s)%nat then None else k s' c') = None → succeeds (k s c) R →
  succeeds (mt (Opt a) s c k) R.
Proof. intros H (x & Hx & HR). exists x. split; [by apply opt_skip|done]. Qed.

Lemma guard_succeeds (s s' : jstr) o R :
  (length s' < length s)%nat → succeeds o R → succeeds (if (length s' =? length s)%nat then None else o) R.
Proof. intros H. destruct (Nat.eqb_spec (length s') (length s)); [lia|done]. Qed.

Lemma captured_add n m t c : captured ((n, t) :: c) m = if (n =? m)%nat then Some t else captured c m.
Proof. unfold captured. cbn. by destruct (n =? m)%nat. Qed.

Lemma captured_reset a c m : existsb (Nat.eqb m) (groups_of a) = false → captured (reset a c) m = captured c m.
Proof.
  intros Hm. unfold captured, reset. induction c as [|[n t] c IH]; [done|]. cbn.
  destruct (existsb (Nat.eqb n) (groups_of a)) eqn:E; cbn; destruct (Nat.eqb_spec n m) as [->|]; try done; congruence.
Qed.

Lemma captured_reset_in a c m : existsb (Nat.eqb m) (groups_of a) = true → captured (reset a c) m = None.
Proof.
  intros Hm. unfold captured, reset. induction c as [|[n t] c IH]; [done|]. cbn.
  destruct (existsb (Nat.eqb n) (groups_of a)) eqn:E; cbn; [done|]. destruct (Nat.eqb_spec n m) as [->|]; [congruence|done].
Qed.

(** The captures of the groups the client reads. *)
Definition parts_are (scheme host port : option jstr) (c : captures) : Prop :=
  captured c 4 = scheme ∧ captured c 11 = host ∧ captured c 12 = port.

Lemma parts_stable scheme host port l :
  forallb (λ n, negb (existsb (Nat.eqb n) [4; 11; 12]%nat)) l = true → stable (parts_are scheme host port) l.
Proof.
  intros Hl. rewrite forallb_forall in Hl. split.
  - intros n t c Hn%list_elem_of_In (H1 & H2 & H3). apply Hl in Hn. unfold parts_are. rewrite !captured_add. cbn in Hn.
    destruct (n =? 4)%nat, (n =? 11)%nat, (n =? 12)%nat; done.
  - intros a c Ha (H1 & H2 & H3).
    assert (∀ m, m ∈ [4; 11; 12]%nat → existsb (Nat.eqb m) (groups_of a) = false) as Hm.
    { intros m Hm. apply not_true_is_false. intros H. apply existsb_exists in H as (n & Hn & ->%Nat.eqb_eq).
      apply list_elem_of_In, Ha, list_elem_of_In, Hl, negb_true_iff in Hn. apply list_elem_of_In in Hm.
      assert (existsb (Nat.eqb n) [4; 11; 12]%nat = true) by (apply existsb_exists; exists n; by rewrite Nat.eqb_refl).
      congruence. }
    unfold parts_are. rewrite !captured_reset; [done|apply Hm; set_solver..].
Qed.

(** There is no user information in an authority without an at sign. *)
Definition path_starts (rest : jstr) : Prop := match rest with x :: _ => x ∈ [47; 63; 35] | [] => True end.

Lemma lang_plus f p : lang (Plus (Cls f)) p → forallb f p = true.
Proof.
  intros (p1 & p2 & -> & (x & -> & Hx) & l & -> & Hl). cbn. rewrite Hx. cbn.
  induction Hl as [|q l (y & -> & Hy) _ IH]; [done|]. cbn. by rewrite Hy.
Qed.

Lemma no_userinfo auth rest c k : 64 ∉ auth → path_starts rest → mt userinfo (auth ++ rest) c k = None.
Proof.
  intros Ha Hr. destruct (mt userinfo (auth ++ rest) c k) as [x|] eqn:E; [exfalso|done].
  apply (mt_sound _ (λ _, True)) in E as (p & q & _ & Hs & HL & _); [|done|done].
  assert (∃ u, p = u ++ [64] ∧ ∀ y, y ∈ u → y ∉ [47; 63; 35]) as (u & -> & Hu).
  { destruct HL as (p1 & p2 & -> & (u1 & u2 & -> & Hu1%lang_plus & Hu2) & (y & -> & ->%Z.eqb_eq)). exists (u1 ++ u2).
    split; [done|]. assert (∀ w, forallb (λ x, negb (has x #":@/#?")) w = true → ∀ y, y ∈ w → y ∉ [47; 63; 35]) as Hw.
    { intros w Hw y' Hy. rewrite forallb_forall in Hw. apply list_elem_of_In, Hw, negb_true_iff, has_false in Hy.
      intros Hin. apply Hy. clear -Hin.
      repeat (apply elem_of_cons in Hin as [->|Hin]; [by apply has_spec|]). by apply not_elem_of_nil in Hin. }
    intros y' [Hy'|Hy']%elem_of_app; [by eapply Hw|]. destruct Hu2 as [->|(v1 & v2 & -> & (z & -> & <-%Z.eqb_eq) & Hv%lang_plus)].
    - by apply not_elem_of_nil in Hy'.
    - apply elem_of_cons in Hy' as [->|Hy']; [by apply not_in_check|by eapply Hw]. }
  rewrite -app_assoc in Hs. apply app_eq_inv in Hs as [(w & -> & Hw)|(w & -> & Hw)].
  - destruct w as [|y w]; [|].
    + cbn in Hw. subst rest. by apply has_spec in Hr.
    + cbn in Hw. simplify_eq. apply Ha. apply elem_of_app. right. by left.
  - destruct w as [|y w]; cbn in Hw.
    + subst rest. by apply has_spec in Hr.
    + subst rest. cbn in Hr. apply (Hu y); [apply elem_of_app; right; by left|done].
Qed.

(** ** URLs with a scheme and an authority *)

Definition port_part (port : option jstr) : jstr := match port with Some d => 58 :: d | None => [] end.

Section absolute.
Context (scheme host rest : jstr) (port : option jstr).
Hypothesis Hscheme : scheme ≠ [] ∧ forallb (λ x, negb (has x #":/#?")) scheme = true.
Hypothesis Hhost : host ≠ [] ∧ forallb (λ x, negb (has x #":/#?][@")) host = true.
Hypothesis Hport : match port with Some d => d ≠ [] ∧ forallb is_digit d = true | None => True end.
Hypothesis Hrest : path_starts rest.

Let P := parts_are (Some (scheme ++ [58])) (Some host) port.

Lemma rest_stops f : f 47 = false → f 63 = false → f 35 = false → stops_at f rest.
Proof.
  intros H1 H2 H3. destruct rest as [|x t]; [done|]. cbn in *.
  repeat (apply elem_of_cons in Hrest as [->|Hrest]; [done|]). by apply not_elem_of_nil in Hrest.
Qed.

(** The port, after the host. *)
Lemma port_succeeds c k :
  captured c 4 = Some (scheme ++ [58]) → captured c 11 = Some host → captured c 12 = None →
  (∀ c', P c' → succeeds (k rest c') P) →
  succeeds (mt port_re (port_part port ++ rest) c k) P.
Proof.
  intros H4 H11 H12 Hk. unfold port_re. destruct port as [d|] eqn:E; cbn [port_part app].
  - apply opt_succeeds. cbn [mt Chr]. rewrite Z.eqb_refl. apply plus_succeeds; [apply Hport..|by apply rest_stops|].
    apply guard_succeeds; [cbn; rewrite length_app; lia|]. apply Hk. unfold P, parts_are. rewrite !captured_add /=.
    rewrite !captured_reset //. split_and!; [done..|]. by rewrite length_app Nat.add_sub take_app_length.
  - apply opt_absent; [|apply Hk; done]. destruct rest as [|x t]; [done|]. cbn [mt Chr].
    destruct (Z.eqb_spec 58 x) as [<-|]; [|done]. by apply has_spec in Hrest.
Qed.

Lemma auth_no_at : 64 ∉ host ++ port_part port.
Proof.
  intros [H|H]%elem_of_app.
  - destruct Hhost as [_ Hh]. rewrite forallb_forall in Hh. apply list_elem_of_In, Hh in H. done.
  - destruct port as [d|]; [|by apply not_elem_of_nil in H]. cbn in H. apply elem_of_cons in H as [H|H]; [done|].
    destruct Hport as [_ Hd]. rewrite forallb_forall in Hd. apply list_elem_of_In, Hd in H. done.
Qed.

Lemma authority_succeeds c k :
  captured c 4 = Some (scheme ++ [58]) → captured c 12 = None →
  (∀ c', P c' → succeeds (k rest c') P) → succeeds (mt authority (host ++ port_part port ++ rest) c k) P.
Proof.
  intros H4 H12 Hk. unfold authority. cbn [mt]. apply opt_absent.
  { rewrite app_assoc. apply no_userinfo; [apply auth_no_at|done]. }
  cbn [mt hostname]. unfold hostname. cbn [mt].
  assert (∀ c' k', succeeds (k' (port_part port ++ rest) c') P →
    succeeds (match mt (Plus (Not #":/#?][")) (host ++ port_part port ++ rest) c' k' with
              | Some x => Some x
              | None => mt (Seq (Chr 91) (Seq (Plus (Not #"/]@#?")) (Chr 93))) (host ++ port_part port ++ rest) c' k' end) P) as Halt.
  { intros c' k' H. destruct (plus_succeeds (λ x, negb (has x #":/#?][")) host (port_part port ++ rest) c' k' P) as (x & Hx & HR).
    - destruct Hhost as [_ Hh]. rewrite forallb_forall in Hh. apply forallb_forall. intros y Hy%Hh.
      apply negb_true_iff, has_false. apply negb_true_iff, has_false in Hy. intros Hin. apply Hy.
      change #":/#?][@" with (#":/#?][" ++ [64]). apply elem_of_app. by left.
    - apply Hhost.
    - destruct port; [done|]. by apply rest_stops.
    - done.
    - exists x. unfold Not. by rewrite Hx. }
  apply Halt. apply port_succeeds.
  - by rewrite captured_add /=.
  - rewrite captured_add /= length_app Nat.add_sub. by rewrite take_app_length.
  - by rewrite captured_add /=.
  - intros c' Hc'. apply Hk. unfold P, parts_are. by rewrite !captured_add.
Qed.

Lemma tail_succeeds r s c k :
  total r = true → forallb (λ n, negb (existsb (Nat.eqb n) [4; 11; 12]%nat)) (groups_of r) = true → P c →
  (∀ s' c', (length s' <= length s)%nat → P c' → succeeds (k s' c') P) → succeeds (mt r s c k) P.
Proof. intros Ht Hg Hc Hk. eapply (mt_total r P P); [done|by apply parts_stable|done|exact Hk]. Qed.

Lemma P_add n t c : existsb (Nat.eqb n) [4; 11; 12]%nat = false → P c → P ((n, t) :: c).
Proof.
  intros Hn Hc. apply (st_add _ [n]); [apply parts_stable; cbn [forallb]; by rewrite Hn|by left|done].
Qed.

(** Everything after the authority. *)
Lemma end_succeeds s c k :
  P c → (∀ s' c', (length s' <= length s)%nat → P c' → succeeds (k s' c') P) → succeeds (mt path_part s c k) P.
Proof. intros Hc Hk. by apply tail_succeeds. Qed.

Definition absolute_url : jstr := scheme ++ 58 :: 47 :: 47 :: host ++ port_part port ++ rest.

Lemma absolute_parts : succeeds (exec urlParseRE absolute_url) P.
Proof.
  unfold exec, urlParseRE. cbn [mt]. apply opt_succeeds. unfold hier_part at 1. cbn [mt]. apply opt_succeeds.
  unfold prefix_part at 1. cbn [mt]. apply opt_succeeds. unfold scheme_part at 1. cbn [mt]. unfold absolute_url at 1.
  apply plus_succeeds; [apply Hscheme..|done|]. cbn [mt Chr]. rewrite Z.eqb_refl.
  apply guard_succeeds; [unfold absolute_url; rewrite length_app /=; lia|].
  apply opt_succeeds. unfold authority_part at 1. cbn [mt]. unfold Chr at 1 2. cbn [mt]. rewrite !Z.eqb_refl.
  apply opt_succeeds. apply authority_succeeds.
  - rewrite captured_reset // captured_add. change (5 =? 4)%nat with false. cbv iota.
    rewrite captured_reset // captured_add. change (4 =? 4)%nat with true. cbv iota. unfold absolute_url.
    rewrite (length_app scheme). cbn [length]. f_equal.
    replace (scheme ++ 58 :: 47 :: 47 :: host ++ port_part port ++ rest)
      with ((scheme ++ [58]) ++ 47 :: 47 :: host ++ port_part port ++ rest) by by rewrite -app_assoc.
    apply take_app_length'. rewrite !length_app /=. lia.
  - by apply captured_reset_in.
  - intros c' Hc'. destruct Hhost as [Hne _].
    assert (length rest < length (host ++ port_part port ++ rest))%nat as Hlt.
    { rewrite !length_app. destruct host; [done|]. cbn. lia. }
    apply guard_succeeds; [done|]. apply guard_succeeds; [cbn [length]; lia|].
    apply guard_succeeds; [unfold absolute_url; rewrite length_app; cbn [length]; lia|].
    apply end_succeeds; [by apply P_add|]. intros s' c'' Hle Hc''.
    apply guard_succeeds; [unfold absolute_url; rewrite length_app; cbn [length]; lia|].
    apply tail_succeeds; [done..|by apply P_add|]. intros s1 c1 _ Hc1.
    apply tail_succeeds; [done..|by apply P_add|]. intros s2 c2 _ Hc2. by exists c2.
Qed.
End absolute.

Lemma parseUri_parts scheme host rest port :
  scheme ≠ [] → forallb (λ x, negb (has x #":/#?")) scheme = true →
  host ≠ [] → forallb (λ x, negb (has x #":/#?][@")) host = true →
  match port with Some d => d ≠ [] ∧ forallb is_digit d = true | None => True end → path_starts rest →
  ∃ path, parseUri (scheme ++ #"://" ++ host ++ port_part port ++ rest) =
    Ok {| u_scheme := Some scheme; u_host := Some host; u_port := port; u_path := path |}.
Proof.
  intros Hs1 Hs2 Hh1 Hh2 Hp Hr.
  destruct (absolute_parts scheme host rest port (conj Hs1 Hs2) (conj Hh1 Hh2) Hp Hr) as (c & Hc & H4 & H11 & H12).
  unfold parseUri. change (scheme ++ #"://" ++ host ++ port_part port ++ rest) with (absolute_url scheme host rest port).
  rewrite Hc H4 H11 H12. exists (captured c 15). destruct (scheme ++ [58]) as [|y t] eqn:E; [by destruct scheme|].
  rewrite -E. f_equal. f_equal. f_equal. change #":" with [58]. unfold replace_first. rewrite find_unit.
  - rewrite take_app_length drop_ge; [by rewrite !app_nil_r|]. rewrite length_app. cbn. lia.
  - intros Hin. rewrite forallb_forall in Hs2. apply list_elem_of_In, Hs2 in Hin. done.
Qed.

(** The URL of a specification, with a scheme and an authority, is taken apart into
    its scheme, its host and its port, whatever path, query and fragment follow. *)
Theorem parseUri_absolute scheme host rest port :
  scheme ≠ [] → forallb (λ x, negb (has x #":/#?")) scheme = true →
  host ≠ [] → forallb (λ x, negb (has x #":/#?][@")) host = true →
  match port with Some d => d ≠ [] ∧ forallb is_digit d = true | None => True end → path_starts rest →
  ∃ path, parseUri (scheme ++ #"://" ++ host ++ port_part port ++ rest) =
    Ok {| u_scheme := Some scheme; u_host := Some host; u_port := port; u_path := path |}.
Proof. apply parseUri_parts. Qed.

Lemma parseUri_absolute_witness :
  parseUri #"http://petstore.io:8080/api/swagger.json?x=a@b#top" =
  Ok {| u_scheme := Some #"http"; u_host := Some #"petstore.io"; u_port := Some #"8080"; u_path := Some #"swagger.json" |} ∧
  ∃ path, parseUri (#"http" ++ #"://" ++ #"petstore.io" ++ port_part (Some #"8080") ++ #"/api/swagger.json?x=a@b#top") =
    Ok {| u_scheme := Some #"http"; u_host := Some #"petstore.io"; u_port := Some #"8080"; u_path := path |}.
Proof.
  split; [vm_compute; reflexivity|].
  apply (parseUri_absolute #"http" #"petstore.io" #"/api/swagger.json?x=a@b#top" (Some #"8080"));
    [done|reflexivity|done|reflexivity|by split|by apply has_spec].
Defined.
