(* ===== verification/ClientBuild.v ===== *)
(** * SwaggerClient: fetching and building

    How a client comes to be: the completion of its URL, the request for the
    specification and what is made of its outcome, the way of the document through
    the converter and the resolver to [buildFromSpec], the address the operations
    are called at, and the callbacks at the end.

    The network, the timer, the converter and the resolver answer later and in any
    order: a build is a transition system over the work in flight. [builds] says
    whether [buildFromSpec] gets through a document without an exception. A
    callback of the user only takes note; [failure] is given. *)

From S2P Require Import Prelude JsValue Regex Client.

(** ** The address *)

(** [initialize]: a URL without a protocol is one of the page's server; [origin] is
    that of the window, if there is one. *)
Definition complete_url (origin : option jstr) (url : jstr) : jstr :=
  match origin with
  | Some o => if negb (streq url []) && negb (contains #"http:" url) && negb (contains #"https:" url) then o ++ url else url
  | None => url
  end.

(** [host] of the specification, or else that of its URL. *)
Definition choose_host (host : jstr) (location : uri) : option jstr :=
  if streq host [] then
    match u_port location with
    | Some ((_ :: _) as p) => Some (to_string (match u_host location with Some h => VStr h | None => VUndef end) ++ #":" ++ p)
    | _ => u_host location
    end
  else Some host.

(** The scheme and the host of the client for a specification from [url]; [page]
    is the scheme of the window. *)
Definition choose_address (url : jstr) (scheme : option jstr) (schemes : list jstr) (host : jstr) (page : option jstr)
    : res (option jstr * option jstr) :=
  location ← parseUri url;
  Ok (choose_scheme scheme schemes page (u_scheme location), choose_host host location).

(** ** Fetching *)

(** The parts of a failed response the handler reads: the code and the message of
    its [errObj], if there is one, its status and status text. *)
Record fetch_error := {
  fe_err : option (jstr * jstr);
  fe_status : Z;
  fe_statusText : jstr;
}.

Definition error_message (url : jstr) (fetchSpecTimeout : value) (e : fetch_error) : jstr :=
  if negb (streq url []) && negb (streq (substring 0 4 url) #"http") then #"Please specify the protocol for " ++ url
  else if match fe_err e with
          | Some (code, message) => streq code #"ECONNABORTED" || contains #"timeout" message
          | None => false
          end
  then #"Request timed out after " ++ to_string fetchSpecTimeout ++ #"ms"
  else if fe_status e =? 0
  then #"Can't read from server.  It may not have the appropriate access-control-origin settings."
  else if fe_status e =? 404 then #"Can't read swagger JSON from " ++ url
  else str_of_Z (fe_status e) ++ #" : " ++ fe_statusText e ++ #" " ++ url.

(** [parseInt(v)]: the sign and the digits at the start, after white space. *)
Definition leading_int (v : value) : option Z :=
  let s := trim_left (to_string v) in
  let '(sign, s) := match s with c :: t => if c =? 45 then (-1, t) else if c =? 43 then (1, t) else (1, s) | [] => (1, []) end in
  let d := (fix digits (s : jstr) : jstr := match s with c :: t => if is_digit c then c :: digits t else [] | [] => [] end) s in
  match d with [] => None | _ => Some (sign * digits_value d) end.

(** The document goes to the resolver when it is of version 2 and to the converter
    otherwise. *)
Definition is_version2 (responseObj : value) : res bool :=
  swagger ← get responseObj #"swagger";
  Ok (truthy swagger && match leading_int swagger with Some n => n =? 2 | None => false end).

(** ** The life of a client *)

Inductive notice := Success | Failure (message : jstr).
Inductive promised := Kept | Broken (message : jstr).

(** Work in flight: the request, the timer of a given specification, the converter
    or the resolver at work on a document. *)
Inductive pending_work := WRequest | WTimer | WConvert | WResolve.

Record config := {
  cf_url : jstr;
  cf_spec : option value;
  cf_usePromise : bool;
  cf_success : bool;
  cf_fetchSpecTimeout : value;
}.

(** [notices] are the calls of the callbacks for success and failure, [reports] those of
    [progress]. *)
Record client_state := {
  isBuilt : bool;
  isValid : bool;
  deferredClient : option promised;
  notices : list notice;
  reports : list jstr;
  inflight : list pending_work;
}.

Definition new_client : client_state :=
  {| isBuilt := false; isValid := false; deferredClient := None; notices := []; reports := []; inflight := [] |}.

Section build.
Variable cf : config.
Variable builds : value → bool.

Definition start_work (w : pending_work) (s : client_state) : client_state :=
  {| isBuilt := isBuilt s; isValid := isValid s; deferredClient := deferredClient s; notices := notices s;
     reports := reports s; inflight := inflight s ++ [w] |}.
Definition set_valid (s : client_state) : client_state :=
  {| isBuilt := isBuilt s; isValid := true; deferredClient := deferredClient s; notices := notices s; reports := reports s; inflight := inflight s |}.
Definition without (l : list pending_work) (s : client_state) : client_state :=
  {| isBuilt := isBuilt s; isValid := isValid s; deferredClient := deferredClient s; notices := notices s; reports := reports s; inflight := l |}.

(** A deferred is settled once. *)
Definition settle (o : promised) (s : client_state) : client_state :=
  {| isBuilt := isBuilt s; isValid := isValid s;
     deferredClient := match deferredClient s with Some d => Some d | None => Some o end;
     notices := notices s; reports := reports s; inflight := inflight s |}.
Definition note (n : notice) (s : client_state) : client_state :=
  {| isBuilt := isBuilt s; isValid := isValid s; deferredClient := deferredClient s; notices := notices s ++ [n];
     reports := reports s; inflight := inflight s |}.

Definition fail (message : jstr) (s : client_state) : client_state :=
  if cf_usePromise cf then settle (Broken message) s else note (Failure message) s.

Definition is_object_value (v : value) : bool := match v with VNull | VArr _ | VObj _ => true | _ => false end.

(** [this.progress(message)] *)
Definition progress (message : jstr) (s : client_state) : client_state :=
  {| isBuilt := isBuilt s; isValid := isValid s; deferredClient := deferredClient s; notices := notices s;
     reports := reports s ++ [message]; inflight := inflight s |}.

Definition build (s : client_state) : client_state :=
  if isBuilt s then s
  else
    let spec := default VUndef (cf_spec cf) in
    let s := progress (if truthy spec then #"fetching resource list; Please wait."
                       else #"fetching resource list: " ++ cf_url cf ++ #"; Please wait.") s in
    if truthy spec && is_object_value spec then start_work WTimer s else start_work WRequest s.

Definition buildFromSpec (response : value) (s : client_state) : client_state :=
  if isBuilt s then s
  else if builds response then
    let s := {| isBuilt := true; isValid := isValid s; deferredClient := deferredClient s; notices := notices s;
                reports := reports s; inflight := inflight s |} in
    if cf_usePromise cf then settle Kept (set_valid s) else if cf_success cf then note Success s else s
  else s.

Definition on_error (e : fetch_error) (s : client_state) : client_state :=
  fail (error_message (cf_url cf) (cf_fetchSpecTimeout cf) e) s.

(** [new Resolver().resolve(...)]: the resolver calls [buildFromSpec] at once with
    [now] when it has nothing to fetch, and later otherwise. *)
Definition call_resolver (now : option value) (s : client_state) : client_state :=
  match now with Some response => buildFromSpec response s | None => start_work WResolve s end.

(** An exception of the handler changes nothing. *)
Definition on_response (responseObj : value) (now : option value) (s : client_state) : client_state :=
  if negb (truthy responseObj) then fail #"failed to parse JSON/YAML response" s
  else match is_version2 responseObj with
       | Ok true => set_valid (call_resolver now s)
       | Ok false => start_work WConvert s
       | Throw _ => s
       end.
Definition on_converted (now : option value) (s : client_state) : client_state := set_valid (call_resolver now s).

(** [inflight s] is [l1 ++ w :: l2] and the work [w] is answered. *)
Inductive step : client_state → client_state → Prop :=
  | s_build s : step s (build s)
  | s_error s l1 l2 e : inflight s = l1 ++ WRequest :: l2 → step s (on_error e (without (l1 ++ l2) s))
  | s_response s l1 l2 obj now : inflight s = l1 ++ WRequest :: l2 → step s (on_response obj now (without (l1 ++ l2) s))
  | s_timer s l1 l2 now : inflight s = l1 ++ WTimer :: l2 → step s (call_resolver now (without (l1 ++ l2) s))
  | s_converted s l1 l2 now : inflight s = l1 ++ WConvert :: l2 → step s (on_converted now (without (l1 ++ l2) s))
  | s_resolved s l1 l2 doc : inflight s = l1 ++ WResolve :: l2 → step s (buildFromSpec doc (without (l1 ++ l2) s)).
Definition reachable : client_state → Prop := rtc step new_client.

(** ** Theorems *)

Definition successes (s : client_state) : nat :=
  length (List.filter (λ n, match n with Success => true | Failure _ => false end) (notices s)).

Record build_inv (s : client_state) : Prop := {
  b_successes : successes s = if isBuilt s && negb (cf_usePromise cf) && cf_success cf then 1%nat else 0%nat;
  b_notices : cf_usePromise cf = true → notices s = [];
  b_deferred : cf_usePromise cf = false → deferredClient s = None;
  b_built : cf_usePromise cf = true → isBuilt s = true → deferredClient s ≠ None;
  b_kept : deferredClient s = Some Kept → isBuilt s = true ∧ isValid s = true;
}.

Lemma successes_snoc s n : successes (note n s) = (successes s + match n with Success => 1 | Failure _ => 0 end)%nat.
Proof. unfold successes. cbn. rewrite List.filter_app length_app. by destruct n. Qed.

Lemma fail_inv m s : build_inv s → build_inv (fail m s).
Proof.
  intros [H1 H2 H3 H4 H5]. unfold fail. destruct (cf_usePromise cf) eqn:E.
  - split; cbn; rewrite ?E; [done|done|done|by destruct (deferredClient s)|].
    destruct (deferredClient s) as [[|]|] eqn:Ed; [by intros _; apply H5|done..].
  - split; rewrite ?E; [by rewrite successes_snoc Nat.add_0_r|done|by intros _; apply H3|done|].
    cbn. by rewrite H3.
Qed.

Lemma buildFromSpec_inv doc s : build_inv s → build_inv (buildFromSpec doc s).
Proof.
  intros H. unfold buildFromSpec. destruct (isBuilt s) eqn:Eb; [done|]. destruct (builds doc); [|done].
  destruct H as [H1 H2 H3 H4 H5]. rewrite Eb /= in H1. destruct (cf_usePromise cf) eqn:E.
  - split; cbn; rewrite ?E; [done|done|done|by destruct (deferredClient s)|done].
  - rewrite Eb in H5. destruct (cf_success cf) eqn:Es; split; rewrite ?E ?Es; try done.
    + rewrite successes_snoc. change (successes _) with (successes s). by rewrite H1.
    + intros Hk. by destruct (H5 Hk).
    + intros Hk. by destruct (H5 Hk).
Qed.

Lemma set_valid_inv s : build_inv s → build_inv (set_valid s).
Proof. intros [H1 H2 H3 H4 H5]. split; try done. cbn. intros Hk. split; [by apply H5|done]. Qed.

Lemma call_resolver_inv now s : build_inv s → build_inv (call_resolver now s).
Proof. intros H. destruct now; [by apply buildFromSpec_inv|by destruct H]. Qed.

Lemma client_step_inv s s' : step s s' → build_inv s → build_inv s'.
Proof.
  intros Hs H. assert (∀ l s, build_inv s → build_inv (without l s)) as Hw by (intros l s0 H0; by destruct H0).
  destruct Hs as [s|s l1 l2 e _|s l1 l2 obj now _|s l1 l2 now _|s l1 l2 now _|s l1 l2 doc _].
  - unfold build. destruct (isBuilt s); [done|]. destruct (cf_spec cf) as [v|]; [destruct (_ && _)|]; by destruct H.
  - by apply fail_inv, Hw.
  - unfold on_response. destruct (negb _); [by apply fail_inv, Hw|].
    destruct (is_version2 obj) as [[]|]; [by apply set_valid_inv, call_resolver_inv, Hw|by destruct H..].
  - by apply call_resolver_inv, Hw.
  - by apply set_valid_inv, call_resolver_inv, Hw.
  - by apply buildFromSpec_inv, Hw.
Qed.

(** (C28) However often a client is built and in whichever order requests, timers, the
    converter and the resolver answer: the success callback is called exactly once
    when the client is built and not before, with promises neither callback, for
    success or failure, is called,
    the promise is settled when the client is built, and it is kept only for a
    client that is built and valid. *)
Theorem built_once s :
  reachable s →
  successes s = (if isBuilt s && negb (cf_usePromise cf) && cf_success cf then 1 else 0)%nat ∧
  (cf_usePromise cf = true → notices s = [] ∧ (isBuilt s = true → deferredClient s ≠ None)) ∧
  (deferredClient s = Some Kept → isBuilt s = true ∧ isValid s = true).
Proof.
  intros H. assert (build_inv s) as [H1 H2 H3 H4 H5].
  { unfold reachable in H. revert H. assert (build_inv new_client) as H0 by done. revert H0. generalize new_client.
    intros s0 H0 H. induction H as [|s1 s2 s3 H12 _ IH]; [done|]. apply IH. by eapply client_step_inv. }
  split_and!; [done|by split; [apply H2|apply H4]|done].
Qed.
End build.

(** Two builds of one client: both requests are answered, the client is built once. *)
Definition sample_config : config :=
  {| cf_url := #"http://h/spec"; cf_spec := None; cf_usePromise := false; cf_success := true; cf_fetchSpecTimeout := VNull |}.
Definition sample_doc : value := VObj [(#"swagger", VStr #"2.0")].

(** The first work in flight is answered, well. *)
Definition answer (s : client_state) : client_state :=
  match inflight s with
  | WRequest :: l => on_response sample_config (λ _, true) sample_doc None (without l s)
  | WTimer :: l => call_resolver sample_config (λ _, true) None (without l s)
  | WConvert :: l => on_converted sample_config (λ _, true) None (without l s)
  | WResolve :: l => buildFromSpec sample_config (λ _, true) sample_doc (without l s)
  | [] => s
  end.
Definition sample_client : client_state :=
  answer (answer (answer (answer (build sample_config (build sample_config new_client))))).

Lemma answer_reachable s : reachable sample_config (λ _, true) s → reachable sample_config (λ _, true) (answer s).
Proof.
  intros H. unfold answer, reachable in *. destruct (inflight s) as [|[] l] eqn:E; [done|..]; (eapply rtc_r; [exact H|]).
  - by apply (s_response _ _ s [] l sample_doc None).
  - by apply (s_timer _ _ s [] l None).
  - by apply (s_converted _ _ s [] l None).
  - by apply (s_resolved _ _ s [] l).
Qed.

Lemma built_once_witness :
  isBuilt sample_client = true ∧
  successes sample_client = (if isBuilt sample_client && negb (cf_usePromise sample_config) && cf_success sample_config
                             then 1 else 0)%nat.
Proof.
  split; [reflexivity|]. refine (proj1 (built_once sample_config (λ _, true) sample_client _)).
  unfold sample_client. do 4 apply answer_reachable. eapply rtc_r; [|apply s_build]. eapply rtc_r; [|apply s_build].
  apply rtc_refl.
Defined.

(** ** The address of a client *)

(** A specification that says nothing of its server is called where it came from:
    outside a page, and whatever the path of its URL, the scheme and the host with
    its port are those of the URL. *)
Theorem address_from_url scheme host rest port :
  scheme ≠ [] → forallb (λ x, negb (has x #":/#?")) scheme = true →
  host ≠ [] → forallb (λ x, negb (has x #":/#?][@")) host = true →
  match port with Some d => d ≠ [] ∧ forallb is_digit d = true | None => True end → path_starts rest →
  choose_address (scheme ++ #"://" ++ host ++ port_part port ++ rest) None [] [] None =
  Ok (Some scheme, Some (host ++ port_part port)).
Proof.
  intros Hs1 Hs2 Hh1 Hh2 Hp Hr. destruct (parseUri_parts scheme host rest port Hs1 Hs2 Hh1 Hh2 Hp Hr) as [path E].
  unfold choose_address. rewrite E. cbn. destruct scheme as [|x t]; [done|]. f_equal. f_equal. unfold choose_host. cbn.
  destruct port as [[|d p]|]; [by destruct Hp| |by rewrite app_nil_r]. done.
Qed.

Lemma address_from_url_witness :
  choose_address (#"https" ++ #"://" ++ #"api.example.org" ++ port_part (Some #"8443") ++ #"/v2/swagger.json") None [] [] None =
  Ok (Some #"https", Some (#"api.example.org" ++ port_part (Some #"8443"))).
Proof.
  apply (address_from_url #"https" #"api.example.org" #"/v2/swagger.json" (Some #"8443"));
    [done|reflexivity|done|reflexivity|by split|by apply has_spec].
Defined.

(** A relative URL whose query mentions another address is not completed with the
    server of the page. *)
Theorem relative_url_with_address :
  complete_url (Some #"http://h") #"/spec?from=http://other" = #"/spec?from=http://other".
Proof. reflexivity. Qed.
