(* ===== verification/Emitter.v ===== *)
(** * Event emitter

    The [Emitter] the HTTP client's requests are built on: handlers per event,
    handlers for one call only, removal, and emission to a snapshot of the
    handlers. A handler may itself use the emitter: its body is a list of
    emitter operations. The abstract emitter at the end keeps one list of
    registrations; the theorem is that the table of lists refines it. *)

From S2P Require Import Prelude.

(** ** Handlers *)

(** A function the caller registered, or the wrapper [on] that [once] made for
    it; functions are compared by identity, here a number. The wrapper knows its
    event and carries the wrapped function in [fn]. *)
Inductive callback :=
  | Plain (f : nat)
  | OnceWrapper (id : nat) (event : jstr) (f : nat).
#[export] Instance callback_eq_dec : EqDecision callback.
Proof. solve_decision. Defined.

(** [cb === fn || cb.fn === fn] *)
Definition same_handler (fn cb : callback) : bool :=
  bool_decide (cb = fn)
  || match cb, fn with OnceWrapper _ _ f, Plain g => (f =? g)%nat | _, _ => false end.

(** What a handler can do to the emitter, and the calls of the interface.
    [off] has three forms, by the number of its arguments. *)
Inductive op :=
  | On (event : jstr) (fn : callback)
  | OnceOp (event : jstr) (f : nat)
  | OffAll
  | OffEvent (event : jstr)
  | Off (event : jstr) (fn : callback)
  | Emit (event : jstr).

(** [_callbacks], and the supply of wrapper identities. *)
Record emitter := { callbacks : list (jstr * list callback); fresh : nat }.

(** ** Operations *)

Definition key (event : jstr) : jstr := #"$" ++ event.

Definition listeners (s : emitter) (event : jstr) : list callback :=
  default [] (pget (callbacks s) (key event)).

Definition hasListeners (s : emitter) (event : jstr) : bool :=
  match listeners s event with [] => false | _ => true end.

Definition on (event : jstr) (fn : callback) (s : emitter) : emitter :=
  {| callbacks := pset (key event) (listeners s event ++ [fn]) (callbacks s); fresh := fresh s |}.

Definition once (event : jstr) (f : nat) (s : emitter) : emitter :=
  on event (OnceWrapper (fresh s) event f) {| callbacks := callbacks s; fresh := S (fresh s) |}.

(** The loop of [off]: the first handler that matches is spliced out. *)
Fixpoint remove_first (fn : callback) (l : list callback) : list callback :=
  match l with
  | [] => []
  | cb :: l => if same_handler fn cb then l else cb :: remove_first fn l
  end.

Definition off_all (s : emitter) : emitter := {| callbacks := []; fresh := fresh s |}.
Definition off_event (event : jstr) (s : emitter) : emitter :=
  {| callbacks := pdel (key event) (callbacks s); fresh := fresh s |}.
Definition off (event : jstr) (fn : callback) (s : emitter) : emitter :=
  match pget (callbacks s) (key event) with
  | None => s
  | Some l => {| callbacks := pset (key event) (remove_first fn l) (callbacks s); fresh := fresh s |}
  end.

Section run.
(** The emitter operations in the body of a function. *)
Context (body : nat → list op).

(** Running an operation; the list is the functions called so far. A handler
    that emits calls handlers again: [n] bounds the nesting, and [None] is a
    nesting deeper than that. *)
Fixpoint run (n : nat) (o : op) (st : emitter * list nat) : option (emitter * list nat) :=
  let '(s, log) := st in
  match o with
  | On e fn => Some (on e fn s, log)
  | OnceOp e f => Some (once e f s, log)
  | OffAll => Some (off_all s, log)
  | OffEvent e => Some (off_event e s, log)
  | Off e fn => Some (off e fn s, log)
  | Emit e =>
      match n with
      | O => None
      | S n =>
          let call (f : nat) (st : emitter * list nat) :=
            foldl (λ st o, st ← st; run n o st) (Some (st.1, st.2 ++ [f])) (body f) in
          foldl (λ st cb, st ← st;
              match cb with
              | Plain f => call f st
              | OnceWrapper id ev f => call f (off ev (OnceWrapper id ev f) st.1, st.2)
              end)
            (Some (s, log)) (listeners s e)
      end
  end.
End run.

(** ** The abstract emitter *)

(** The registrations in the order they were made. *)
Abbreviation registry := (list (jstr * callback)).

Definition abs_listeners (r : registry) (event : jstr) : list callback :=
  omap (λ p, if streq p.1 event then Some p.2 else None) r.

Fixpoint abs_off (event : jstr) (fn : callback) (r : registry) : registry :=
  match r with
  | [] => []
  | (e, cb) :: r => if streq e event && same_handler fn cb then r else (e, cb) :: abs_off event fn r
  end.

(** The operations but emission, which only looks. *)
Definition abs_step (fresh : nat) (o : op) (r : registry) : registry :=
  match o with
  | On e fn => r ++ [(e, fn)]
  | OnceOp e f => r ++ [(e, OnceWrapper fresh e f)]
  | OffAll => []
  | OffEvent e => List.filter (λ p, negb (streq p.1 e)) r
  | Off e fn => abs_off e fn r
  | Emit _ => r
  end.

(** The table holds, for every event, the registrations of the event in
    order. *)
Definition refines (s : emitter) (r : registry) : Prop :=
  ∀ event, listeners s event = abs_listeners r event.

Lemma key_inj a b : key a = key b → a = b.
Proof. unfold key. by intros H%app_inv_head. Qed.

Lemma listeners_pset s e l e' f :
  listeners {| callbacks := pset (key e) l (callbacks s); fresh := f |} e'
  = if streq e e' then l else listeners s e'.
Proof.
  unfold listeners. cbn [callbacks]. rewrite pget_pset.
  destruct (streq e e') eqn:E.
  - apply streq_spec in E as <-. by rewrite streq_refl.
  - apply streq_neq in E. by rewrite (proj2 (streq_neq _ _)); [|intros ?%key_inj].
Qed.

Lemma abs_listeners_app r r' e : abs_listeners (r ++ r') e = abs_listeners r e ++ abs_listeners r' e.
Proof. apply omap_app. Qed.

Lemma abs_listeners_cons a cb r e :
  abs_listeners ((a, cb) :: r) e = (if streq a e then [cb] else []) ++ abs_listeners r e.
Proof. unfold abs_listeners. cbn. by destruct (streq a e). Qed.

Lemma refines_on s r e fn : refines s r → refines (on e fn s) (r ++ [(e, fn)]).
Proof.
  intros H e'. unfold on. rewrite listeners_pset abs_listeners_app H. cbn.
  destruct (streq e e') eqn:E; [by apply streq_spec in E as <-|]. by rewrite app_nil_r H.
Qed.

Lemma abs_off_listeners r e fn e' :
  abs_listeners (abs_off e fn r) e'
  = if streq e e' then remove_first fn (abs_listeners r e') else abs_listeners r e'.
Proof.
  induction r as [|[a cb] r IH]; cbn [abs_off]; [by destruct (streq e e')|].
  destruct (streq a e) eqn:A; cbn [andb].
  - apply streq_spec in A as ->. destruct (same_handler fn cb) eqn:S; rewrite !abs_listeners_cons ?IH;
      destruct (streq e e'); cbn [app remove_first]; by rewrite ?S.
  - rewrite !abs_listeners_cons IH. destruct (streq e e') eqn:E; [|done].
    apply streq_spec in E as <-. by rewrite A.
Qed.

Lemma refines_off s r e fn : refines s r → refines (off e fn s) (abs_off e fn r).
Proof.
  intros H e'. unfold off. rewrite abs_off_listeners -H.
  destruct (pget (callbacks s) (key e)) as [l|] eqn:L.
  - rewrite listeners_pset. destruct (streq e e') eqn:E; [|done]. apply streq_spec in E as <-.
    unfold listeners. by rewrite L.
  - destruct (streq e e') eqn:E; [|done]. apply streq_spec in E as <-. unfold listeners. by rewrite L.
Qed.

Lemma refines_off_event s r e :
  refines s r → refines (off_event e s) (List.filter (λ p, negb (streq p.1 e)) r).
Proof.
  intros H e'. assert (abs_listeners (List.filter (λ p, negb (streq p.1 e)) r) e'
    = if streq e e' then [] else abs_listeners r e') as ->.
  { clear H. induction r as [|[a cb] r IH]; cbn [List.filter fst]; [by destruct (streq e e')|].
    destruct (streq a e) eqn:A; cbn [negb]; rewrite !abs_listeners_cons IH.
    - apply streq_spec in A as ->. by destruct (streq e e').
    - destruct (streq e e') eqn:E; [|done]. apply streq_spec in E as <-. by rewrite A. }
  unfold listeners, off_event. cbn [callbacks]. destruct (streq e e') eqn:E.
  - apply streq_spec in E as <-. by rewrite pget_pdel_eq.
  - apply streq_neq in E. rewrite pget_pdel_ne; [apply H|]. by intros ?%key_inj.
Qed.

(** Running a sequence of operations without emission. *)
Definition run_ops (l : list op) (s : emitter) : emitter :=
  fold_left (λ s o, match o with
    | On e fn => on e fn s | OnceOp e f => once e f s | OffAll => off_all s
    | OffEvent e => off_event e s | Off e fn => off e fn s | Emit _ => s end) l s.

Fixpoint abs_run (fresh : nat) (l : list op) (r : registry) : registry :=
  match l with
  | [] => r
  | o :: l => abs_run (match o with OnceOp _ _ => S fresh | _ => fresh end) l (abs_step fresh o r)
  end.

(** (C34) After any sequence of registrations and removals, the handlers the
    emitter holds for each event are those of the abstract registry, in the order
    of registration. *)
Theorem emitter_refines l s r :
  refines s r → refines (run_ops l s) (abs_run (fresh s) l r).
Proof.
  revert s r. induction l as [|o l IH]; intros s r H; [done|]. cbn [run_ops fold_left abs_run].
  destruct o as [e fn|e f| |e|e fn|e].
  - apply (IH (on e fn s)). by apply refines_on.
  - apply (IH (once e f s)). by apply (refines_on {| callbacks := callbacks s; fresh := S (fresh s) |}).
  - by apply (IH (off_all s)).
  - apply (IH (off_event e s)). by apply refines_off_event.
  - replace (fresh s) with (fresh (off e fn s)) by (unfold off; by destruct (pget _ _)).
    apply (IH (off e fn s)). by apply refines_off.
  - by apply IH.
Qed.

Lemma emitter_refines_witness :
  let l := [On #"end" (Plain 1); OnceOp #"end" 2; On #"error" (Plain 3); Off #"end" (Plain 2)] in
  refines (run_ops l {| callbacks := []; fresh := 0 |}) [(#"end", Plain 1); (#"error", Plain 3)].
Proof.
  intros l. apply (emitter_refines l {| callbacks := []; fresh := 0 |} []). by intros e.
Defined.

(** ** Emission *)

(** The function a handler stands for. *)
Definition callee (cb : callback) : nat := match cb with Plain f => f | OnceWrapper _ _ f => f end.

(** Handlers that do not emit. *)
Definition quiet (o : op) : bool := match o with Emit _ => false | _ => true end.

Lemma run_quiet body n o s log :
  quiet o = true → ∃ s', run body n o (s, log) = Some (s', log).
Proof. destruct o, n; try done; cbn; eauto. Qed.

Lemma run_body body n l s log :
  forallb quiet l = true →
  ∃ s', foldl (λ st o, st ← st; run body n o st) (Some (s, log)) l = Some (s', log).
Proof.
  revert s. induction l as [|o l IH]; intros s H; [cbn; eauto|].
  cbn [forallb] in H. apply andb_true_iff in H as [Ho Hl]. cbn [foldl].
  destruct (run_quiet body n o s log Ho) as [s' Hs]. cbn [mbind option_bind]. rewrite Hs. by apply IH.
Qed.

(** Emitting an event calls the functions of the handlers registered when
    it starts, each once and in order, whatever the handlers register or remove
    on the way. *)
Theorem emit_snapshot body n s log e :
  (∀ f, forallb quiet (body f) = true) →
  ∃ s', run body (S n) (Emit e) (s, log) = Some (s', log ++ map callee (listeners s e)).
Proof.
  intros Hq. cbn [run]. generalize (listeners s e) as l. intros l. revert s log.
  induction l as [|cb l IH]; intros s log; [cbn; rewrite app_nil_r; eauto|].
  cbn [foldl map].
  destruct cb as [f|id ev f]; cbn [mbind option_bind callee fst snd].
  - destruct (run_body body n (body f) s (log ++ [f]) (Hq f)) as [s' ->].
    destruct (IH s' (log ++ [f])) as [s'' Hs]. exists s''. rewrite Hs. by rewrite -app_assoc.
  - destruct (run_body body n (body f) (off ev (OnceWrapper id ev f) s) (log ++ [f]) (Hq f)) as [s' ->].
    destruct (IH s' (log ++ [f])) as [s'' Hs]. exists s''. rewrite Hs. by rewrite -app_assoc.
Qed.

Lemma emit_snapshot_witness :
  let body (f : nat) := if (f =? 1)%nat then [Off #"end" (Plain 3)] else [] in
  let s := run_ops [On #"end" (Plain 1); OnceOp #"end" 2; On #"end" (Plain 3)] {| callbacks := []; fresh := 0 |} in
  ∃ s', run body 1 (Emit #"end") (s, []) = Some (s', [1; 2; 3]%nat).
Proof.
  intros body s. apply (emit_snapshot body 0 s [] #"end"). intros f. unfold body. by destruct (f =? 1)%nat.
Defined.

(** A handler for one call is called twice when a handler before it emits the
    event again: the outer emission still has the wrapper in its snapshot. *)
Theorem once_called_twice :
  let again (f : nat) := if (f =? 1)%nat then [Off #"end" (Plain 1); Emit #"end"] else [] in
  let s := run_ops [On #"end" (Plain 1); OnceOp #"end" 2] {| callbacks := []; fresh := 0 |} in
  ∃ s', run again 2 (Emit #"end") (s, []) = Some (s', [1; 2; 2]%nat) ∧ listeners s' #"end" = [].
Proof. eexists. split; vm_compute; reflexivity. Qed.
