(* ===== verification/Superagent.v ===== *)
(** * superagent: requests and responses

    The HTTP library of the client: serialization of form data and of the query,
    parsing of headers and bodies, the request builder and the life of a request
    from [end] to its callback.

    The [XMLHttpRequest] object is the environment. It reports a change to the
    final ready state once: when the response is there, when the network fails
    (status 0) or when it is aborted before. Request data are the values of
    [JsValue], so no [File], [Blob] or [FormData] is among them, and the object
    given to a first [send] is not shared with the caller. *)

From S2P Require Import Prelude JsValue Uri Base64.

(** ** Forms *)

(** [pushEncodedKeyValuePair]: the pairs it pushes. *)
Fixpoint encoded_pairs (key : jstr) (val : value) : res (list jstr) :=
  match val with
  | VUndef => Ok []
  | VNull => k ← encodeURIComponent key; Ok [k]
  | VArr l => (λ l, concat l) <$> map_res id (map (encoded_pairs key) l)
  | VObj o =>
      (λ l, concat l) <$> map_res snd
        (enum (map (λ '(k, v), (k, encoded_pairs (key ++ #"[" ++ k ++ #"]") v)) o))
  | _ => k ← encodeURIComponent key; v ← encodeURIComponent (to_string val); Ok [k ++ #"=" ++ v]
  end.

Definition serialize (data : value) : res value :=
  if is_object data then
    pairs ← map_res (λ '(k, v), encoded_pairs k v) (entries data);
    Ok (VStr (join #"&" (concat pairs)))
  else Ok data.

Definition decodeURIComponent (s : jstr) : res jstr :=
  match uri_decode s with Some t => Ok t | None => Throw URIError end.

Definition parse_pair (acc : list (jstr * jstr)) (pair : jstr) : res (list (jstr * jstr)) :=
  let pos := index_of #"=" pair in
  if pos =? -1 then k ← decodeURIComponent pair; Ok (pset k [] acc)
  else k ← decodeURIComponent (substring 0 pos pair);
       v ← decodeURIComponent (substring_from (pos + 1) pair); Ok (pset k v acc).

Definition parseString (str : jstr) : res (list (jstr * jstr)) := fold_res parse_pair (split #"&" str) [].

(** ** Headers *)

(** [str.split(/\r?\n/)] *)
Definition split_lines (str : jstr) : list jstr :=
  match rev (split [10] str) with
  | [] => []
  | last :: init =>
      rev (last :: map (λ l, if ends_with [13] l then removelast l else l) init)
  end.

(** A line without a colon loses its last character as a name. *)
Definition header_line (fields : list (jstr * jstr)) (line : jstr) : list (jstr * jstr) :=
  let index := index_of #":" line in
  let field := if index <? 0 then removelast line else substring 0 index line in
  pset (to_lower field) (trim (substring_from (index + 1) line)) fields.

Definition parseHeader (str : jstr) : list (jstr * jstr) :=
  fold_left header_line (removelast (split_lines str)) [].

(** ** Content types *)

Definition is_word (c : Z) : bool := is_alnum c || (c =? 95).

(** [/[\/+]json\b/.test(mime)] *)
Fixpoint isJSON (mime : jstr) : bool :=
  match mime with
  | [] => false
  | c :: t =>
      ((c =? 47) || (c =? 43)) && prefixb #"json" t
        && match drop 4 t with [] => true | d :: _ => negb (is_word d) end
      || isJSON t
  end.

Fixpoint strip_spaces (s : jstr) : jstr :=
  match s with 32 :: t => strip_spaces t | _ => s end.
Definition strip_spaces_right (s : jstr) : jstr := rev (strip_spaces (rev s)).

(** [str.split(/ *sep */)]: the spaces around every separator go. *)
Fixpoint strip_rest (l : list jstr) : list jstr :=
  match l with
  | [] => []
  | [x] => [strip_spaces x]
  | x :: l => strip_spaces_right (strip_spaces x) :: strip_rest l
  end.
Definition split_spaced (sep : Z) (str : jstr) : list jstr :=
  match split [sep] str with
  | [] => []
  | [x] => [x]
  | x :: l => strip_spaces_right x :: strip_rest l
  end.

(** [type(str)] and [params(str)] *)
Definition mime_type (str : jstr) : jstr := default [] (head (split_spaced 59 str)).

Definition mime_params (str : jstr) : list (jstr * jstr) :=
  fold_left (λ obj s,
      match split_spaced 61 s with
      | key :: val :: _ => if negb (streq key []) && negb (streq val []) then pset key val obj else obj
      | _ => obj
      end)
    (split_spaced 59 str) [].

(** ** Responses *)

(** A response is an object of the language: the parameters of its content type are
    assigned to its properties, whatever their names are. *)
Definition response : Type := list (jstr * value).

(** The comparisons [text < n] and [text >= n], which the language makes on the number
    the text stands for; they are needed where such a parameter replaces the status. *)
Class TextNumbers := { text_lt : jstr → Z → bool; text_ge : jstr → Z → bool }.

Definition num_lt {N : TextNumbers} (v : value) (n : Z) : bool :=
  match v with VNum m => m <? n | VStr s => text_lt s n | _ => false end.
Definition num_ge {N : TextNumbers} (v : value) (n : Z) : bool :=
  match v with VNum m => n <=? m | VStr s => text_ge s n | _ => false end.

(** [toError] *)
Definition toError (method url : jstr) (status : Z) : value :=
  VObj [(#"message", VStr (#"cannot " ++ method ++ #" " ++ url ++ #" (" ++ str_of_Z status ++ #")"));
        (#"status", VNum status); (#"method", VStr method); (#"url", VStr url)].

(** [_setStatusProperties]: the properties it assigns. *)
Definition setStatusProperties (method url : jstr) (status : Z) : list (jstr * value) :=
  let status := if status =? 1223 then 204 else status in
  let type := Z.quot status 100 in
  [(#"status", VNum status); (#"statusCode", VNum status); (#"statusType", VNum type);
   (#"info", VBool (1 =? type)); (#"ok", VBool (2 =? type)); (#"clientError", VBool (4 =? type));
   (#"serverError", VBool (5 =? type));
   (#"error", if (4 =? type) || (5 =? type) then toError method url status else VBool false);
   (#"accepted", VBool (202 =? status)); (#"noContent", VBool (204 =? status)); (#"badRequest", VBool (400 =? status));
   (#"unauthorized", VBool (401 =? status)); (#"notAcceptable", VBool (406 =? status));
   (#"notFound", VBool (404 =? status)); (#"forbidden", VBool (403 =? status))].

Section response.
(** [JSON.parse], which throws on text that is not JSON. *)
Context {N : TextNumbers} (json_parse : jstr → res value).

(** What the library reads of a finished [xhr]: the response text (the response
    type is that of text). *)
Record xhr := {
  x_status : Z;
  x_statusText : jstr;
  x_headers : jstr;
  x_contentType : option jstr;
  x_text : jstr;
}.

Definition parse_form (str : jstr) : res value :=
  o ← parseString str; Ok (VObj (map (λ '(k, v), (k, VStr v)) o)).

(** [_parseBody] with the type of the response. *)
Definition parseBody (type : jstr) (str : value) : res value :=
  match str with
  | VStr ((_ :: _) as str) =>
      if streq type #"application/x-www-form-urlencoded" then parse_form str
      else if streq type #"application/json" || isJSON type then json_parse str
      else Ok VNull
  | _ => Ok VNull
  end.

(** [_setHeaderProperties] *)
Definition setHeaderProperties (ct : jstr) (this : response) : response :=
  fold_left (λ this '(k, v), pset k (VStr v) this) (enum (mime_params ct)) (pset #"type" (VStr (mime_type ct)) this).

(** The properties the constructor assigns before those of the content type. *)
Definition bareResponse (method url : jstr) (x : xhr) : response :=
  let header := pset #"content-type" (match x_contentType x with Some c => VStr c | None => VNull end)
    (map (λ '(k, v), (k, VStr v)) (parseHeader (x_headers x))) in
  [(#"req", VObj [(#"method", VStr method); (#"url", VStr url)]);
   (#"xhr", VObj [(#"status", VNum (x_status x)); (#"statusText", VStr (x_statusText x)); (#"response", VStr (x_text x))]);
   (#"text", if streq method #"HEAD" then VNull else VStr (x_text x)); (#"statusText", VStr (x_statusText x))]
  ++ setStatusProperties method url (x_status x) ++ [(#"header", VObj header); (#"headers", VObj header)].

(** [new Response(req)]. The body is parsed with what the parameters have left of the
    object; a parameter named like the function makes the call throw. *)
Definition newResponse (method url : jstr) (x : xhr) : res response :=
  let this := bareResponse method url x in
  let this := setHeaderProperties (default [] (x_contentType x)) this in
  m ← get (field this #"req") #"method";
  body ← (if is_str #"HEAD" m then Ok VNull
          else if is_undef (field this #"_parseBody") then
            raw ← get (field this #"xhr") #"response";
            parseBody (to_string (field this #"type")) (if truthy (field this #"text") then field this #"text" else raw)
          else Throw TypeError);
  Ok (pset #"body" body this).

(** What a callback is called with. *)
Inductive outcome :=
  | ParseError (original : exn)
  | Unsuccessful (res : response)
  | Success (res : response)
  | CrossDomain
  | TimedOut (ms : Z).

(** The handler of the event [end]. *)
Definition on_end (method url : jstr) (x : xhr) : outcome :=
  match newResponse method url x with
  | Throw e => ParseError e
  | Ok r => let s := field r #"status" in
            if num_lt s 200 || num_ge s 300 then Unsuccessful r else Success r
  end.
End response.

(** ** Requests *)

Record request := {
  q_method : jstr;
  q_url : jstr;
  q_header : list (jstr * value);
  q_lower : list (jstr * value);
  q_query : list jstr;
  q_data : value;
  q_timeout : Z;
  q_credentials : bool;
  q_login : option (jstr * jstr);
}.

Definition newRequest (method url : jstr) : request :=
  {| q_method := method; q_url := url; q_header := []; q_lower := []; q_query := []; q_data := VUndef;
     q_timeout := 0; q_credentials := false; q_login := None |}.

(** [set(field, val)] for a name; the object form sets each entry. *)
Definition set_field (field : jstr) (val : value) (r : request) : request :=
  {| q_method := q_method r; q_url := q_url r; q_header := pset field val (q_header r);
     q_lower := pset (to_lower field) val (q_lower r); q_query := q_query r; q_data := q_data r;
     q_timeout := q_timeout r; q_credentials := q_credentials r; q_login := q_login r |}.
Definition set_fields (l : list (jstr * value)) (r : request) : request :=
  fold_left (λ r '(k, v), set_field k v r) (enum l) r.

Definition get_field (name : jstr) (r : request) : value := field (q_lower r) (to_lower name).
Definition unset_field (name : jstr) (r : request) : request :=
  {| q_method := q_method r; q_url := q_url r; q_header := pdel name (q_header r);
     q_lower := pdel (to_lower name) (q_lower r); q_query := q_query r; q_data := q_data r;
     q_timeout := q_timeout r; q_credentials := q_credentials r; q_login := q_login r |}.

Definition types : list (jstr * jstr) :=
  [(#"html", #"text/html"); (#"json", #"application/json"); (#"xml", #"application/xml");
   (#"urlencoded", #"application/x-www-form-urlencoded"); (#"form", #"application/x-www-form-urlencoded");
   (#"form-data", #"application/x-www-form-urlencoded")].
Definition set_type (t : jstr) (r : request) : request :=
  set_field #"Content-Type" (VStr (default t (pget types t))) r.
Definition set_accept (t : jstr) (r : request) : request :=
  set_field #"Accept" (VStr (default t (pget types t))) r.

(** [auth]: the browser's [btoa] throws on units above a byte. *)
Definition auth_basic (user pass : jstr) (r : request) : res request :=
  let s := user ++ #":" ++ pass in
  if forallb (λ c, c <? 256) s
  then Ok (set_field #"Authorization" (VStr (#"Basic " ++ uint8ToBase64 s)) r)
  else Throw (JsError #"InvalidCharacterError").
Definition auth_auto (user pass : jstr) (r : request) : request :=
  {| q_method := q_method r; q_url := q_url r; q_header := q_header r; q_lower := q_lower r;
     q_query := q_query r; q_data := q_data r; q_timeout := q_timeout r;
     q_credentials := q_credentials r; q_login := Some (user, pass) |}.

Definition set_timeout (ms : Z) (r : request) : request :=
  {| q_method := q_method r; q_url := q_url r; q_header := q_header r; q_lower := q_lower r;
     q_query := q_query r; q_data := q_data r; q_timeout := ms;
     q_credentials := q_credentials r; q_login := q_login r |}.
Definition withCredentials (r : request) : request :=
  {| q_method := q_method r; q_url := q_url r; q_header := q_header r; q_lower := q_lower r;
     q_query := q_query r; q_data := q_data r; q_timeout := q_timeout r;
     q_credentials := true; q_login := q_login r |}.

Definition query (val : value) (r : request) : res request :=
  v ← serialize val;
  Ok (if truthy v
      then {| q_method := q_method r; q_url := q_url r; q_header := q_header r; q_lower := q_lower r;
              q_query := q_query r ++ [to_string v]; q_data := q_data r; q_timeout := q_timeout r;
              q_credentials := q_credentials r; q_login := q_login r |}
      else r).

Definition set_data (d : value) (r : request) : request :=
  {| q_method := q_method r; q_url := q_url r; q_header := q_header r; q_lower := q_lower r;
     q_query := q_query r; q_data := d; q_timeout := q_timeout r;
     q_credentials := q_credentials r; q_login := q_login r |}.

(** [this._data[key] = data[key]] for every key: object into object; other
    combinations of arrays and objects are taken as objects. *)
Definition merge_data (old data : value) : value :=
  match old with
  | VObj o => VObj (fold_left (λ o '(k, v), pset k v o) (entries data) o)
  | _ => VObj (fold_left (λ o '(k, v), pset k v o) (entries data) (entries old))
  end.

Definition send (data : value) (r : request) : request :=
  let type := field (q_lower r) #"content-type" in
  match data with
  | VStr s =>
      let r := if truthy type then r else set_type #"form" r in
      let type := field (q_lower r) #"content-type" in
      set_data (VStr (if is_str #"application/x-www-form-urlencoded" type
                      then if truthy (q_data r) then to_string (q_data r) ++ #"&" ++ s else s
                      else (if truthy (q_data r) then to_string (q_data r) else []) ++ s)) r
  | _ =>
      if is_object data then
        let r := set_data (if is_object (q_data r) then merge_data (q_data r) data else data) r in
        if truthy type then r else set_type #"json" r
      else set_data data r
  end.

(** [_appendQueryString] *)
Definition full_url (r : request) : jstr :=
  match join #"&" (q_query r) with
  | [] => q_url r
  | q => q_url r ++ (if contains #"?" (q_url r) then #"&" else #"?") ++ q
  end.

(** The body [end] hands to the [xhr]: [undefined] is sent as [null]. *)
Definition body_of (r : request) : res value :=
  let data := q_data r in
  if streq (q_method r) #"GET" || streq (q_method r) #"HEAD" || is_string data then
    Ok (if is_undef data then VNull else data)
  else
    let contentType := field (q_lower r) #"content-type" in
    let mime := if truthy contentType then default [] (head (split #";" (to_string contentType))) else [] in
    d ← (if streq mime #"application/x-www-form-urlencoded" then serialize data
         else if streq mime #"application/json" || isJSON (to_string contentType)
         then Ok (match stringify data with Some s => VStr s | None => VUndef end)
         else Ok data);
    Ok (if is_undef d then VNull else d).

(** [null == v] *)
Definition is_nullish (v : value) : bool := match v with VUndef | VNull => true | _ => false end.

(** What reaches the network. *)
Record sent_request := {
  s_method : jstr;
  s_url : jstr;
  s_headers : list (jstr * value);
  s_body : value;
  s_login : option (jstr * jstr);
}.

Definition send_request (r : request) : res sent_request :=
  body ← body_of r;
  Ok {| s_method := q_method r; s_url := full_url r;
        s_headers := List.filter (λ p, negb (is_nullish p.2)) (enum (q_header r));
        s_body := body;
        s_login := '(u, p) ← q_login r; if streq u [] || streq p [] then None else Some (u, p) |}.

(** ** The life of a request *)

(** After [end]: whether the [xhr] is in its final state, the timer is armed, the
    request was timed out or aborted, and the callbacks so far. *)
Record life := {
  finished : bool;
  armed : bool;
  timedout : bool;
  aborted : bool;
  calls : list outcome;
}.

Section life.
Context {N : TextNumbers} (json_parse : jstr → res value) (method url : jstr) (timeout : Z).

Definition start_life : life :=
  {| finished := false; armed := negb (timeout =? 0); timedout := false; aborted := false; calls := [] |}.

(** [callback]: the timer is cleared. *)
Definition call (o : outcome) (l : life) : life :=
  {| finished := finished l; armed := false; timedout := timedout l; aborted := aborted l;
     calls := calls l ++ [o] |}.

(** The handler of the final ready state; [None] is status 0. *)
Definition on_ready (x : option xhr) (l : life) : life :=
  let l := {| finished := true; armed := armed l; timedout := timedout l; aborted := aborted l;
              calls := calls l |} in
  match x with
  | None => if timedout l then call (TimedOut timeout) l
            else if aborted l then l else call CrossDomain l
  | Some x => call (on_end json_parse method url x) l
  end.

(** [abort]: the [xhr] reports its final state at once unless it had. *)
Definition abort (l : life) : life :=
  if aborted l then l else
  let l := {| finished := finished l; armed := armed l; timedout := timedout l; aborted := true;
              calls := calls l |} in
  let l := if finished l then l else on_ready None l in
  {| finished := finished l; armed := false; timedout := timedout l; aborted := aborted l; calls := calls l |}.

Definition on_timeout (l : life) : life :=
  abort {| finished := finished l; armed := false; timedout := true; aborted := aborted l; calls := calls l |}.

Inductive event :=
  | Ready (x : option xhr)
  | Timer
  | Abort.

(** The events that can happen in a state. *)
Definition enabled (e : event) (l : life) : bool :=
  match e with
  | Ready (Some x) => negb (finished l) && negb (x_status x =? 0)
  | Ready None => negb (finished l)
  | Timer => armed l
  | Abort => true
  end.

Definition happen (e : event) (l : life) : life :=
  match e with Ready x => on_ready x l | Timer => on_timeout l | Abort => abort l end.

Inductive lives : list event → life → Prop :=
  | lives_start : lives [] start_life
  | lives_event es l e : lives es l → enabled e l = true → lives (es ++ [e]) (happen e l).
End life.

(** ** The callback *)

(** When the callback was called, no event calls it again. *)
Record life_inv (es : list event) (l : life) : Prop := {
  inv_once : (length (calls l) <= 1)%nat;
  inv_called : calls l ≠ [] → finished l = true ∧ armed l = false;
  inv_quiet : finished l = true → calls l = [] → aborted l = true ∧ Abort ∈ es;
  inv_aborted : aborted l = true → finished l = true ∧ armed l = false;
  inv_timed : timedout l = true → aborted l = true;
}.

Lemma life_invariant {N : TextNumbers} json_parse method url timeout es l :
  lives json_parse method url timeout es l → life_inv es l.
Proof.
  induction 1 as [|es l e Hl [I1 I2 I3 I4 I5] He]; [split; cbn; (done || lia)|].
  assert (Abort ∈ es → Abort ∈ es ++ [e]) as Hin by set_solver.
  assert (e = Abort → Abort ∈ es ++ [e]) as Hin' by (intros ->; set_solver).
  destruct l as [fin arm tim abo cs]. cbn in *.
  assert (fin = false → cs = []) as Hcs.
  { intros ->. destruct cs; [done|]. by destruct (I2 ltac:(done)). }
  destruct e as [[x|]| |]; cbn in *; unfold on_timeout, abort, on_ready, call; cbn;
    destruct fin, abo, tim, arm; cbn in *; try done; try (rewrite Hcs; [|done]);
    split; cbn; try done; try lia; naive_solver.
Qed.

Lemma on_end_kind {N : TextNumbers} json_parse method url x ms : on_end json_parse method url x ≠ TimedOut ms.
Proof. unfold on_end. destruct (newResponse _ _ _ _); [|done]. by case_if. Qed.

(** A timeout is reported only when one was set. *)
Definition timed (timeout : Z) (l : life) : Prop :=
  (armed l = true ∨ timedout l = true → timeout ≠ 0) ∧
  ∀ ms, TimedOut ms ∈ calls l → ms = timeout ∧ timeout ≠ 0.

Lemma on_ready_timed {N : TextNumbers} json_parse method url timeout x l :
  timed timeout l → timed timeout (on_ready json_parse method url timeout x l).
Proof.
  intros [H1 H2].
  assert (∀ o, (∀ ms, o = TimedOut ms → ms = timeout ∧ timeout ≠ 0) → ∀ ms,
    TimedOut ms ∈ calls l ++ [o] → ms = timeout ∧ timeout ≠ 0) as Ho.
  { intros o Ho ms Hms. apply elem_of_app in Hms as [Hms|Hms]; [by apply H2|].
    apply list_elem_of_singleton in Hms. by apply Ho. }
  assert (false = true ∨ timedout l = true → timeout ≠ 0) as H1'.
  { intros [H|H]; [done|]. apply H1. by right. }
  unfold on_ready. destruct x as [x|]; cbn.
  - split; cbn; [done|]. apply Ho. intros ms H. by apply on_end_kind in H.
  - destruct (timedout l) eqn:T; [|destruct (aborted l)]; split; cbn; rewrite ?T; try done.
    + apply Ho. intros ms [= <-]. auto.
    + by apply Ho.
Qed.

Lemma abort_timed {N : TextNumbers} json_parse method url timeout l :
  timed timeout l → timed timeout (abort json_parse method url timeout l).
Proof.
  intros H. unfold abort. destruct (aborted l); [done|]. cbn [finished]. destruct (finished l).
  - destruct H as [H1 H2]. split; cbn; naive_solver.
  - set (l1 := on_ready json_parse method url timeout None _). enough (timed timeout l1) as [H1 H2] by (split; cbn; naive_solver).
    apply on_ready_timed. destruct H as [H1 H2]. by split.
Qed.

Lemma life_timed {N : TextNumbers} json_parse method url timeout es l : lives json_parse method url timeout es l → timed timeout l.
Proof.
  induction 1 as [|es l e Hl IH He].
  - split; cbn; [|set_solver]. intros [H|H]; [|done]. by apply negb_true_iff, Z.eqb_neq in H.
  - destruct e as [x| |]; cbn in *; [by apply on_ready_timed| |by apply abort_timed].
    apply abort_timed. destruct IH as [H1 H2]. split; cbn; naive_solver.
Qed.

(** (C15) In every order of response, network failure, timeout and abort, the callback
    of a request is called at most once; once the [xhr] has finished it has been
    called, unless the request was aborted; before, the request can still finish;
    and a timeout is reported only when one was set. *)
Theorem request_callback_once {N : TextNumbers} json_parse method url timeout es l :
  lives json_parse method url timeout es l →
  (length (calls l) <= 1)%nat ∧
  (finished l = true → calls l = [] → Abort ∈ es) ∧
  (finished l = false → calls l = [] ∧ enabled (Ready None) l = true) ∧
  (∀ ms, TimedOut ms ∈ calls l → ms = timeout ∧ timeout ≠ 0).
Proof.
  intros H'. pose proof (life_timed _ _ _ _ _ _ H') as [_ Ht]. apply life_invariant in H' as [I1 I2 I3 I4 I5].
  split_and!; [done|naive_solver| |done].
  intros Hf. destruct (calls l) eqn:E; [cbn; by rewrite Hf|]. destruct I2 as [Hx _]; [done|congruence].
Qed.

(** Texts that stand for no number. *)
Definition no_numbers : TextNumbers := {| text_lt := λ _ _, false; text_ge := λ _ _, false |}.

Lemma request_callback_once_witness : let N : TextNumbers := no_numbers in
  let l := happen (λ _, Throw TypeError) #"GET" #"/x" 100 Timer (start_life 100) in
  calls l = [TimedOut 100] ∧
  (length (calls l) <= 1)%nat ∧ (finished l = true → calls l = [] → Abort ∈ [Timer]) ∧
  (finished l = false → calls l = [] ∧ enabled (Ready None) l = true) ∧
  (∀ ms, TimedOut ms ∈ calls l → ms = 100 ∧ 100 ≠ 0).
Proof.
  intros N l. split; [reflexivity|].
  apply (request_callback_once (λ _, Throw TypeError) #"GET" #"/x" 100 [Timer] l).
  apply (lives_event _ _ _ _ []); [constructor|reflexivity].
Defined.

(** ** Forms read back *)

(** A text that can be sent: of code units, with paired surrogates. *)
Definition sendable (s : jstr) : Prop := wf_jstr s ∧ well_paired s = true.

Lemma pair_parses k v acc :
  sendable k → sendable v → ∃ s,
    encoded_pairs k (VStr v) = Ok [s] ∧ 38 ∉ s ∧ parse_pair acc s = Ok (pset k v acc).
Proof.
  intros [Hk Pk] [Hv Pv]. destruct (encode_ok k Pk) as [ek Ek]. destruct (encode_ok v Pv) as [ev Ev].
  pose proof (encode_no_delim k ek 61 Hk Ek eq_refl) as Hkeq.
  exists (ek ++ #"=" ++ ev). cbn [encoded_pairs to_string]. rewrite Ek. cbn [mbind res_bind]. rewrite Ev.
  split_and!; [done| |].
  - rewrite !elem_of_app. intros [H|[H|H]].
    + by apply (encode_no_delim k ek 38 Hk Ek eq_refl).
    + by apply list_elem_of_singleton in H.
    + by apply (encode_no_delim v ev 38 Hv Ev eq_refl).
  - unfold parse_pair. change #"=" with [61]. cbn [app]. rewrite (index_of_unit 61 ek ev Hkeq).
    destruct (Z.eqb_spec (Z.of_nat (length ek)) (-1)); [lia|].
    assert (substring 0 (Z.of_nat (length ek)) (ek ++ 61 :: ev) = ek) as ->.
    { unfold substring. rewrite Z.min_l; [|lia]. rewrite Z.max_r; [|lia]. rewrite Nat2Z.id. apply take_app_length. }
    unfold decodeURIComponent. rewrite (uri_decode_encode _ _ Hk Ek). cbn [mbind res_bind].
    assert (substring_from (Z.of_nat (length ek) + 1) (ek ++ 61 :: ev) = ev) as ->.
    { unfold substring_from. replace (Z.to_nat _) with (length (ek ++ [61])) by (rewrite length_app; cbn; lia).
      change (61 :: ev) with ([61] ++ ev). rewrite app_assoc. apply drop_app_length. }
    by rewrite (uri_decode_encode _ _ Hv Ev).
Qed.

(** A form of text, serialized and parsed, is the form. *)
Theorem form_roundtrip (o : list (jstr * jstr)) :
  o ≠ [] → NoDup o.*1 → Forall (λ p, sendable p.1 ∧ sendable p.2) o →
  ∃ s r, serialize (VObj (map (λ p, (p.1, VStr p.2)) o)) = Ok (VStr s) ∧ parseString s = Ok r ∧ r ≡ₚ o.
Proof.
  intros Hne Hnd HF. unfold serialize. cbn [is_object entries].
  pose proof (enum_perm (map (λ p : jstr * jstr, (p.1, VStr p.2)) o)) as Hp.
  apply Permutation_map_inv in Hp as (l & -> & Hl).
  assert (Forall (λ p, sendable p.1 ∧ sendable p.2) l) as HF' by by rewrite -Hl.
  assert (NoDup l.*1) as Hnd' by by rewrite -Hl.
  assert (∃ pairs, map_res (λ '(k, v), encoded_pairs k v) (map (λ p : jstr * jstr, (p.1, VStr p.2)) l) = Ok (map (λ s, [s]) pairs) ∧
    Forall (λ s, 38 ∉ s) pairs ∧ length pairs = length l ∧
    ∀ acc, (∀ k, k ∈ acc.*1 → k ∉ l.*1) → fold_res parse_pair pairs acc = Ok (acc ++ l)) as (pairs & H1 & H2 & H3 & H4).
  { clear Hl HF Hnd Hne. induction l as [|[k v] l IH].
    - exists []. split_and!; [done|constructor|done|]. intros acc _. cbn. by rewrite app_nil_r.
    - apply Forall_cons in HF' as [[Hk Hv] HF']. apply NoDup_cons in Hnd' as [Hk' Hnd'].
      destruct (IH HF' Hnd') as (pairs & H1 & H2 & H3 & H4).
      destruct (pair_parses k v [] Hk Hv) as (s & Hs & Hs38 & _). exists (s :: pairs).
      split_and!; [cbn [map map_res]; cbn [fst snd]; by rewrite Hs /= H1|by constructor|cbn; lia|].
      intros acc Hacc. destruct (pair_parses k v acc Hk Hv) as (s' & Hs' & _ & Hpp). rewrite Hs in Hs'. injection Hs' as <-.
      cbn [fold_res]. rewrite Hpp. cbn [mbind res_bind].
      assert (k ∉ acc.*1) as Hka by (intros H; apply (Hacc k H); by left).
      rewrite (pset_fresh _ _ _ Hka) H4; [by rewrite -app_assoc|].
      intros k' Hk'' Hin. rewrite fmap_app elem_of_app in Hk''. destruct Hk'' as [Hk''|Hk''].
      + apply (Hacc k' Hk''). by right.
      + cbn in Hk''. apply list_elem_of_singleton in Hk''. by subst. }
  rewrite H1. cbn [mbind res_bind]. rewrite -flat_map_concat_map. exists (join #"&" pairs), l.
  assert (flat_map (λ s, [s]) pairs = pairs) as Hc by (clear; induction pairs; cbn; congruence).
  rewrite Hc. split_and!; [done| |by rewrite Hl]. unfold parseString. change #"&" with [38].
  rewrite split_join; [rewrite (H4 []); [done|set_solver]|..]; [|done].
  intros ->. destruct l; [|done]. by apply Permutation_nil_r in Hl.
Qed.

Lemma form_roundtrip_witness :
  let o := [(#"name", #"tj & co"); (#"x=y", [])] in
  ∃ s r, serialize (VObj (map (λ p, (p.1, VStr p.2)) o)) = Ok (VStr s) ∧ parseString s = Ok r ∧ r ≡ₚ o.
Proof.
  intros o. apply (form_roundtrip o); [done|..].
  - apply NoDup_cons; split; [|apply NoDup_singleton]. intros H. by apply list_elem_of_singleton in H.
  - do 2 (apply Forall_cons_2; [split; (split; [by apply wf_check|reflexivity])|]). apply Forall_nil_2.
Defined.

(** ** Headers read back *)

Lemma split_crlf lines :
  Forall (λ s, 10 ∉ s) lines →
  split [10] (concat (map (λ s, s ++ [13; 10]) lines)) = map (λ s, s ++ [13]) lines ++ [[]].
Proof.
  induction 1 as [|s lines Hs HF IH]; [done|]. cbn [map concat].
  replace ((s ++ [13; 10]) ++ concat (map (λ s, s ++ [13; 10]) lines))
    with ((s ++ [13]) ++ 10 :: concat (map (λ s, s ++ [13; 10]) lines)) by (by rewrite -!app_assoc).
  rewrite split_cut; [|by rewrite elem_of_app list_elem_of_singleton; intros [?|?]]. by rewrite IH.
Qed.

Lemma ends_with_unit c s : ends_with [c] (s ++ [c]) = true.
Proof.
  unfold ends_with. rewrite length_app. cbn [length]. rewrite Nat.add_sub drop_app_length streq_refl andb_true_r.
  apply Nat.leb_le. lia.
Qed.

Lemma split_lines_crlf lines :
  Forall (λ s, 10 ∉ s) lines → split_lines (concat (map (λ s, s ++ [13; 10]) lines)) = lines ++ [[]].
Proof.
  intros H. unfold split_lines. rewrite (split_crlf lines H) rev_app_distr. cbn [rev app].
  f_equal. rewrite -map_rev rev_involutive map_map. rewrite -{2}(map_id lines).
  apply map_ext. intros x. by rewrite ends_with_unit removelast_last.
Qed.

(** A header field as it is sent. *)
Definition header_text (p : jstr * jstr) : jstr := p.1 ++ #": " ++ p.2.

(** A name without a colon or line end, and a value without a line end that is
    trimmed. *)
Definition header_ok (p : jstr * jstr) : Prop :=
  58 ∉ p.1 ∧ 10 ∉ p.1 ∧ 10 ∉ p.2 ∧ trim p.2 = p.2.

Lemma header_line_text acc p :
  header_ok p → header_line acc (header_text p) = pset (to_lower p.1) p.2 acc.
Proof.
  destruct p as [k v]. intros (Hk & _ & _ & Hv). cbn in *. unfold header_line, header_text. cbn [fst snd].
  change (k ++ #": " ++ v) with (k ++ 58 :: 32 :: v). change #":" with [58].
  rewrite (index_of_unit 58 k (32 :: v) Hk). destruct (Z.ltb_spec (Z.of_nat (length k)) 0); [lia|].
  assert (substring 0 (Z.of_nat (length k)) (k ++ 58 :: 32 :: v) = k) as ->.
  { unfold substring. rewrite Z.min_l; [|lia]. rewrite Z.max_r; [|lia]. rewrite Nat2Z.id. apply take_app_length. }
  assert (substring_from (Z.of_nat (length k) + 1) (k ++ 58 :: 32 :: v) = 32 :: v) as ->.
  { unfold substring_from. replace (Z.to_nat _) with (length (k ++ [58])) by (rewrite length_app; cbn; lia).
    change (58 :: 32 :: v) with ([58] ++ 32 :: v). rewrite app_assoc. apply drop_app_length. }
  f_equal. unfold trim. cbn [trim_left]. change (is_space 32) with true. cbv iota. exact Hv.
Qed.

(** The headers a browser reports, one per line, are read back with their names
    in lower case. *)
Theorem header_roundtrip (l : list (jstr * jstr)) :
  Forall header_ok l → NoDup (map (λ p, to_lower p.1) l) →
  parseHeader (concat (map (λ p, header_text p ++ [13; 10]) l)) = map (λ p, (to_lower p.1, p.2)) l.
Proof.
  intros HF Hnd. unfold parseHeader.
  assert (concat (map (λ p, header_text p ++ [13; 10]) l) = concat (map (λ s, s ++ [13; 10]) (map header_text l))) as ->
    by by rewrite map_map.
  rewrite split_lines_crlf.
  - rewrite removelast_last.
    assert (∀ acc, (∀ p, p ∈ l → to_lower p.1 ∉ acc.*1) →
      fold_left header_line (map header_text l) acc = acc ++ map (λ p, (to_lower p.1, p.2)) l) as H;
      [|apply H; set_solver].
    induction HF as [|p l Hp HF IH]; intros acc Hacc; cbn [map fold_left]; [by rewrite app_nil_r|].
    cbn [map] in Hnd. apply NoDup_cons in Hnd as [Hpl Hnd]. rewrite (header_line_text _ _ Hp).
    rewrite pset_fresh; [|apply Hacc; by left]. rewrite IH; [by rewrite -app_assoc|done|].
    intros q Hq. rewrite fmap_app elem_of_app. intros [H|H].
    + apply (Hacc q); [by right|done].
    + cbn in H. apply list_elem_of_singleton in H. apply Hpl. rewrite -H. apply list_elem_of_fmap. eauto.
  - apply Forall_fmap. eapply Forall_impl; [exact HF|]. intros [k v] (_ & Hk & Hv & _). cbn in *.
    unfold header_text. cbn. rewrite elem_of_app !elem_of_cons. intros [?|[?|[?|?]]]; done.
Qed.

Lemma header_roundtrip_witness :
  let l := [(#"Content-Type", #"text/html; charset=utf-8"); (#"X-Rate", #"5")] in
  parseHeader (concat (map (λ p, header_text p ++ [13; 10]) l)) = map (λ p, (to_lower p.1, p.2)) l.
Proof.
  intros l. apply (header_roundtrip l).
  - do 2 (apply Forall_cons_2; [split_and!; [by apply not_in_check..|reflexivity]|]). apply Forall_nil_2.
  - apply NoDup_cons; split; [|apply NoDup_singleton]. intros H. by apply list_elem_of_singleton in H.
Defined.

(** ** Bodies *)

(** The body of a request that is neither GET nor HEAD: an object is sent as JSON
    when no content type was set, which sets it, and as a form when the content
    type is that of forms; every header that was set and not null is sent. *)
Theorem send_object o r :
  q_method r ≠ #"GET" → q_method r ≠ #"HEAD" → q_data r = VUndef →
  (truthy (field (q_lower r) #"content-type") = false →
   ∃ q, send_request (send (VObj o) r) = Ok q ∧ s_body q = VStr (default [] (stringify (VObj o))) ∧
     s_method q = q_method r ∧ s_url q = full_url r ∧
     (#"Content-Type", VStr #"application/json") ∈ s_headers q) ∧
  (field (q_lower r) #"content-type" = VStr #"application/x-www-form-urlencoded" →
   ∀ s, serialize (VObj o) = Ok (VStr s) →
   ∃ q, send_request (send (VObj o) r) = Ok q ∧ s_body q = VStr s ∧
     s_method q = q_method r ∧ s_url q = full_url r ∧
     ∀ k v, (k, v) ∈ q_header r → is_nullish v = false → (k, v) ∈ s_headers q).
Proof.
  intros HG HH Hd. apply streq_neq in HG, HH. split.
  - intros Ht. unfold send. cbn [is_object]. rewrite Hd Ht. cbn [is_object].
    unfold send_request, body_of, set_type, set_field, set_data. cbn [q_method q_data q_lower q_header q_query q_url q_login].
    rewrite HG HH. cbn [is_string orb]. change (to_lower #"Content-Type") with #"content-type".
    rewrite field_pset streq_refl. change (default #"json" (pget types #"json")) with #"application/json".
    cbn -[js stringify]. eexists. split; [reflexivity|]. cbn [s_body s_method s_url s_headers].
    split_and!; [done|done|done|]. apply list_elem_of_In, filter_In. split; [|done]. apply list_elem_of_In.
    rewrite enum_perm. apply pget_some_in. apply pget_pset_eq.
  - intros Ht s Hs. unfold send. cbn [is_object]. rewrite Hd Ht. cbn [is_object].
    change (truthy (VStr #"application/x-www-form-urlencoded")) with true. cbv iota.
    unfold send_request, body_of, set_data. cbn [q_method q_data q_lower q_header q_query q_url q_login].
    rewrite HG HH Ht. cbn [is_string orb].
    change (streq _ #"application/x-www-form-urlencoded") with true. cbv iota. rewrite Hs. cbn [mbind res_bind is_undef].
    eexists. split; [reflexivity|]. cbn [s_body s_method s_url s_headers]. split_and!; [done|done|done|].
    intros k v Hin Hv. apply list_elem_of_In, filter_In. cbn [snd]. rewrite Hv. split; [|done]. apply list_elem_of_In.
    by rewrite enum_perm.
Qed.

Lemma send_object_witness :
  let r := newRequest #"POST" #"/user" in
  ∃ q, send_request (send (VObj [(#"name", VStr #"tj")]) r) = Ok q ∧
    s_body q = VStr (default [] (stringify (VObj [(#"name", VStr #"tj")]))) ∧
    s_method q = q_method r ∧ s_url q = full_url r ∧
    (#"Content-Type", VStr #"application/json") ∈ s_headers q.
Proof.
  intros r. destruct (send_object [(#"name", VStr #"tj")] r) as [H _]; [done|done|done|]. by apply H.
Defined.

(** Header names are compared with their case when they are sent: removing a
    field under another spelling leaves it, although asking for it finds nothing,
    and setting it under two spellings sends both. *)
Theorem header_case_kept v w :
  is_nullish v = false → is_nullish w = false →
  let r := set_field #"content-type" v (newRequest #"POST" #"/u") in
  get_field #"Content-Type" (unset_field #"Content-Type" r) = VUndef ∧
  (∃ q, send_request (unset_field #"Content-Type" r) = Ok q ∧ s_headers q = [(#"content-type", v)]) ∧
  (∃ q, send_request (set_data (VStr #"x") (set_field #"Content-Type" w r)) = Ok q ∧
        s_headers q = [(#"content-type", v); (#"Content-Type", w)]).
Proof.
  intros Hv Hw r. split_and!; [reflexivity|..].
  - eexists. split.
    + unfold send_request, body_of. cbn -[js]. reflexivity.
    + cbn [s_headers].
      change (enum (q_header (unset_field #"Content-Type" r))) with [(#"content-type", v)]. by destruct v.
  - eexists. split; [unfold send_request, body_of; cbn -[js]; reflexivity|]. cbn [s_headers].
    change (enum _) with [(#"content-type", v); (#"Content-Type", w)]. by destruct v; try done; destruct w.
Qed.
