(* ===== verification/Http.v ===== *)
(** * The HTTP client of the Swagger client

    [http.js]: the choice of the underlying client, the interceptors around the
    callbacks, the jQuery client's reading of a response, and the superagent
    client, which builds a request of [Superagent] from the request object of an
    operation and turns its outcome into a response.

    js-yaml's [safeLoad] and [JSON.parse] are parameters; a [FormData] body and
    the connection agent are outside the model. *)

From S2P Require Import Prelude JsValue Superagent.

(** ** Choosing the client *)

(** [parseInt(s)]: [None] is [NaN]. *)
Definition parse_int (s : jstr) : option Z :=
  let s := trim_left s in
  let '(sign, s) := match s with 45 :: t => (-1, t) | 43 :: t => (1, t) | _ => (1, s) end in
  let digits := (fix go l := match l with c :: l => if is_digit c then c :: go l else [] | [] => [] end) s in
  match digits with [] => None | _ => Some (sign * digits_value digits) end.

(** [isInternetExplorer]: version 8 or older. *)
Definition isInternetExplorer (userAgent : jstr) : bool :=
  let nav := to_lower userAgent in
  if contains #"msie" nav
  then match parse_int (default [] (split #"msie" nav !! 1%nat)) with Some v => v <=? 8 | None => false end
  else false.

Inductive client := SuperagentHttpClient | JQueryHttpClient | OwnClient.

(** The client [SwaggerHttp.prototype.execute] uses. The message for OPTIONS
    requests goes to a function [log] that does not exist. *)
Definition choose_client (own hasJQuery : bool) (userAgent : jstr) (useJQuery : value) (method : jstr)
    : res client :=
  let isIE := isInternetExplorer userAgent in
  if streq (to_lower method) #"options" && negb own then Throw (JsError #"log is not defined")
  else if isIE && (is_bool false useJQuery || negb hasJQuery)
  then Throw (JsError #"Unsupported configuration! JQuery is required but not available")
  else if is_bool true useJQuery || isIE && hasJQuery
  then if hasJQuery then Ok JQueryHttpClient
       else Throw (JsError #"Unsupported configuration! JQuery is required but not available")
  else Ok (if own then OwnClient else SuperagentHttpClient).

(** ** Responses and callbacks *)

Record http_response := {
  h_status : value;
  h_statusText : value;
  h_headers : value;
  h_obj : value;
  h_data : value;
}.

Inductive called :=
  | CalledResponse (r : http_response)
  | CalledError (r : http_response).

Section callbacks.
(** [responseInterceptor], the identity when there is none. *)
Context {N : TextNumbers} (interceptor : http_response → http_response).

(** [obj.on.error] and [obj.on.response] as [execute] sets them. *)
Definition on_error (r : http_response) : called := CalledError (interceptor r).
Definition on_response (r : http_response) : called :=
  if num_ge (h_status r) 400 then CalledError (interceptor r) else CalledResponse (interceptor r).

(** ** jQuery *)

(** One line of the headers; a line without a colon is a name without a value. *)
Definition jquery_header (headers : list (jstr * value)) (line : jstr) : list (jstr * value) :=
  let toSplit := trim line in
  let separator := index_of #":" toSplit in
  if streq toSplit [] then headers
  else if separator =? -1 then pset toSplit VNull headers
  else pset (trim (substring 0 separator toSplit)) (VStr (trim (substring_from (separator + 1) toSplit))) headers.

Definition jquery_headers (text : jstr) : list (jstr * value) := fold_left jquery_header (split [10] text) [].

(** [out.obj]: the parsed content, nothing when it cannot be parsed. *)
Definition jquery_obj (safeLoad : jstr → res value) (responseJSON : value) (text : jstr) : value :=
  match (if truthy responseJSON then Ok responseJSON else safeLoad text) with
  | Ok v => let v := if is_string v then VObj [] else v in if truthy v then v else VNull
  | Throw _ => VNull
  end.

(** [obj.complete] *)
Definition jquery_complete (safeLoad : jstr → res value) (status : Z) (statusText text headers : jstr)
    (responseJSON : value) : called :=
  let out := {| h_status := VNum status; h_statusText := VStr statusText; h_headers := VObj (jquery_headers headers);
                h_obj := jquery_obj safeLoad responseJSON text; h_data := VStr text |} in
  if (200 <=? status) && (status <? 300) then on_response out
  else if (status =? 0) || ((400 <=? status) && (status <? 599)) then on_error out
  else on_response out.

(** ** superagent *)

(** The content of a successful response. *)
Definition has_keys (v : value) : bool :=
  match v with VObj (_ :: _) | VArr (_ :: _) | VStr (_ :: _) => true | _ => false end.
Definition response_obj (safeLoad : jstr → res value) (r : response) : value :=
  let possibleObj :=
    if has_keys (field r #"body") then field r #"body"
    else match safeLoad (to_string (field r #"text")) with
         | Ok v => if is_string v then VNull else v
         | Throw _ => VUndef
         end in
  match possibleObj with VNull | VArr _ | VObj _ => possibleObj | _ => VNull end.

(** The content of an error that says it is JSON. *)
Definition error_obj (json_parse : jstr → res value) (r : response) : value :=
  match get (field r #"headers") #"content-type" with
  | Ok (VStr ct) =>
      if contains #"application/json" ct then
        match json_parse (to_string (field r #"text")) with Ok v => v | Throw _ => VNull end
      else VUndef
  | _ => VUndef
  end.

(** [response.data]: the raw response, when there is one. *)
Definition raw (r : response) (statusText : value) : value :=
  match get (field r #"xhr") #"response" with Ok v => if truthy v then v else statusText | Throw _ => statusText end.

(** The two ways the callback of [r.end] takes with a response. *)
Definition end_error (json_parse : jstr → res value) (r : response) : called :=
  on_error {| h_status := field r #"status"; h_statusText := field r #"text"; h_headers := field r #"headers";
              h_obj := error_obj json_parse r; h_data := raw r (field r #"text") |}.
Definition end_response (safeLoad : jstr → res value) (r : response) : called :=
  on_response {| h_status := field r #"status"; h_statusText := field r #"text"; h_headers := field r #"headers";
                 h_obj := response_obj safeLoad r; h_data := raw r (field r #"text") |}.

(** The callback of [r.end]. A response that has an error is one, and an error without a
    response has status 0. *)
Definition superagent_end (safeLoad json_parse : jstr → res value) (o : outcome) : called :=
  match o with
  | Success r => if truthy (field r #"error") then end_error json_parse r else end_response safeLoad r
  | Unsuccessful r => end_error json_parse r
  | ParseError _ | CrossDomain | TimedOut _ =>
      on_error {| h_status := VNum 0; h_statusText := VUndef;
                  h_headers := VObj [(#"error", VStr #"no response from server")];
                  h_obj := VUndef; h_data := VUndef |}
  end.
End callbacks.

(** ** The request *)

(** What the client reads of a request object. *)
Record http_request := {
  o_method : jstr;
  o_url : jstr;
  o_headers : list (jstr * value);
  o_body : value;
  o_timeout : Z;
  o_cookies : bool;
}.

(** [binaryRequest] *)
Definition binaryRequest (accept : value) : bool :=
  match accept with
  | VStr s => prefixb #"image" (to_lower s) || prefixb #"application/pdf" s
              || prefixb #"application/octet-stream" s
  | _ => false
  end.

(** The functions of superagent by the name of the method. *)
Definition method_names : list (jstr * jstr) :=
  [(#"get", #"GET"); (#"head", #"HEAD"); (#"options", #"OPTIONS"); (#"del", #"DELETE");
   (#"patch", #"PATCH"); (#"post", #"POST"); (#"put", #"PUT")].

(** The fields of a multipart body that is an object: for an array, the code
    sends the positions. *)
Definition multipart_fields (body : value) : list (jstr * value) :=
  concat (map (λ '(k, v), match v with
      | VArr l => imap (λ i _, (k, VStr (str_of_Z (Z.of_nat i)))) l
      | _ => [(k, v)]
      end) (entries body)).

(** The request that [SuperagentHttpClient.prototype.execute] builds, and the
    fields of its form data. *)
Definition build_request (obj : http_request) : res (request * list (jstr * value)) :=
  let method := to_lower (o_method obj) in
  let method := if streq method #"delete" then #"del" else method in
  match pget method_names method with
  | None => Throw TypeError
  | Some name =>
      let r := newRequest name (o_url obj) in
      let r := if o_timeout obj =? 0 then r else set_timeout (o_timeout obj) r in
      let r := if o_cookies obj then withCredentials r else r in
      let body := o_body obj in
      let ct := to_string (or_else (field (o_headers obj) #"Content-Type") (VStr [])) in
      let '(r, headers, fields) :=
        if is_object body then
          if starts_with #"multipart/form-data" ct
          then (r, pdel #"Content-Type" (o_headers obj), multipart_fields body)
          else (send (match stringify body with Some s => VStr s | None => VUndef end) r, o_headers obj, [])
        else if truthy body then (send body r, o_headers obj, [])
        else (r, o_headers obj, []) in
      Ok (set_fields headers r, fields)
  end.

(** ** Which callback is called *)

(** No parameter of the content type replaces the status or the error of the response. *)
Definition own_status (x : xhr) : Prop :=
  let params := mime_params (default [] (x_contentType x)) in pget params #"status" = None ∧ pget params #"error" = None.

Lemma assigned_other (l : list (jstr * jstr)) k : ∀ this : list (jstr * value),
  pget l k = None → field (fold_left (λ this '(k, v), pset k (VStr v) this) l this) k = field this k.
Proof.
  induction l as [|[k' v] l IH]; intros this H; [done|]. cbn [pget] in H. cbn [fold_left].
  destruct (streq k k') eqn:E; [done|]. rewrite IH // field_pset. by rewrite (proj2 (streq_neq k' k)); [|apply streq_neq in E; congruence].
Qed.

Lemma mime_params_nodup str : NoDup (mime_params str).*1.
Proof.
  unfold mime_params. assert (∀ l (acc : list (jstr * jstr)), NoDup acc.*1 → NoDup (fold_left (λ obj s,
      match split_spaced 61 s with
      | key :: val :: _ => if negb (streq key []) && negb (streq val []) then pset key val obj else obj
      | _ => obj end) l acc).*1) as H; [|apply H; constructor].
  induction l as [|x l IH]; intros acc Hacc; [done|]. cbn [fold_left]. apply IH.
  destruct (split_spaced 61 x) as [|k [|v t]]; try done. case_if; [by apply pset_nodup|done].
Qed.

(** A property of a response that no parameter of the content type replaces. *)
Lemma newResponse_field {N : TextNumbers} json_parse method url x r k :
  newResponse json_parse method url x = Ok r → pget (mime_params (default [] (x_contentType x))) k = None →
  streq #"body" k = false → streq #"type" k = false → field r k = field (bareResponse method url x) k.
Proof.
  intros H Hp Hb Ht. unfold newResponse in H. apply bind_Ok in H as (m & _ & H). apply bind_Ok in H as (b & _ & H). injection H as <-.
  rewrite field_pset Hb. unfold setHeaderProperties. rewrite assigned_other; [by rewrite field_pset Ht|].
  rewrite (pget_perm _ (mime_params (default [] (x_contentType x)))); [done| |apply enum_perm]. rewrite enum_perm. apply mime_params_nodup.
Qed.

(** (C14) Which callback a finished request reaches, and with which status. With superagent:
    when the response can be read and no parameter of its content type is named status or
    error (the code lets parameters replace properties of the response), the callback for
    responses gets the statuses of success and the one for errors all others, the status
    being that of the response (204 for the 1223 of Internet Explorer); a response that
    cannot be read reaches the one for errors with status 0. With jQuery the callback for
    errors gets status 0 and those from 400 on, the one for responses all others. *)
Theorem http_dispatch {N : TextNumbers} interceptor safeLoad json_parse method url x :
  own_status x →
  (let status := if x_status x =? 1223 then 204 else x_status x in
   let answer := superagent_end interceptor safeLoad json_parse (on_end json_parse method url x) in
   match newResponse json_parse method url x with
   | Throw _ => ∃ r, h_status r = VNum 0 ∧ answer = CalledError (interceptor r)
   | Ok _ => ∃ r, h_status r = VNum status ∧
       answer = if (200 <=? status) && (status <? 300) then CalledResponse (interceptor r) else CalledError (interceptor r)
   end) ∧
  ∀ status statusText text headers responseJSON, ∃ r, h_status r = VNum status ∧
    jquery_complete interceptor safeLoad status statusText text headers responseJSON
    = if (status =? 0) || (400 <=? status) then CalledError (interceptor r) else CalledResponse (interceptor r).
Proof.
  intros [Hs He]. split.
  - cbv zeta. unfold on_end. destruct (newResponse json_parse method url x) as [r|e] eqn:E; [|eexists; split; [|reflexivity]; reflexivity].
    assert (field r #"status" = VNum (if x_status x =? 1223 then 204 else x_status x)) as Fs by (by rewrite (newResponse_field _ _ _ _ _ _ E Hs)).
    pose proof (newResponse_field _ _ _ _ _ _ E He eq_refl eq_refl) as Fe.
    set (status := if x_status x =? 1223 then 204 else x_status x) in *. rewrite Fs. cbn [num_lt num_ge].
    destruct (Z.ltb_spec status 200), (Z.leb_spec 300 status), (Z.leb_spec 200 status), (Z.ltb_spec status 300); try lia; cbn [orb andb];
      cbn [superagent_end]; try (eexists; split; [|reflexivity]; exact Fs).
    assert (field r #"error" = VBool false) as ->.
    { rewrite Fe. unfold bareResponse, setStatusProperties. fold status. assert (Z.quot status 100 = 2) as -> by (Z.to_euclidean_division_equations; lia). reflexivity. }
    cbn [truthy]. unfold end_response, on_response. cbn [h_status]. rewrite Fs. cbn [num_ge].
    destruct (Z.leb_spec 400 status); [lia|]. by eexists; split; [|reflexivity].
  - intros status statusText text headers responseJSON. unfold jquery_complete, on_response, on_error. cbn [h_status num_ge].
    eexists. split; [|destruct ((200 <=? status) && (status <? 300)) eqn:A; [|destruct ((status =? 0) || (400 <=? status) && (status <? 599)) eqn:B]].
    2: { destruct (Z.leb_spec 400 status), (Z.eqb_spec status 0); try lia. reflexivity. }
    2: { destruct (Z.leb_spec 400 status), (Z.eqb_spec status 0); try lia; reflexivity. }
    2: { destruct (Z.leb_spec 400 status), (Z.eqb_spec status 0); try lia; reflexivity. }
    reflexivity.
Qed.

Lemma http_dispatch_witness : let N : TextNumbers := no_numbers in
  let x := {| x_status := 404; x_statusText := #"Not Found"; x_headers := []; x_text := #"no";
              x_contentType := Some #"text/plain; charset=utf-8" |} in
  let ok := λ _ : jstr, Ok VNull : res value in
  (let status := if x_status x =? 1223 then 204 else x_status x in
   let answer := superagent_end id ok ok (on_end ok #"GET" #"/x" x) in
   match newResponse ok #"GET" #"/x" x with
   | Throw _ => ∃ r, h_status r = VNum 0 ∧ answer = CalledError (id r)
   | Ok _ => ∃ r, h_status r = VNum status ∧
       answer = if (200 <=? status) && (status <? 300) then CalledResponse (id r) else CalledError (id r)
   end) ∧
  ∀ status statusText text headers responseJSON, ∃ r, h_status r = VNum status ∧
    jquery_complete id ok status statusText text headers responseJSON
    = if (status =? 0) || (400 <=? status) then CalledError (id r) else CalledResponse (id r).
Proof. intros N x ok. apply (http_dispatch id ok ok #"GET" #"/x" x). split; vm_compute; reflexivity. Defined.

(** ** What is sent *)

Lemma set_fields_header l r k :
  NoDup l.*1 → pget (q_header (set_fields l r)) k = match pget l k with Some v => Some v | None => pget (q_header r) k end.
Proof.
  intros Hnd. unfold set_fields. rewrite (pget_perm _ _ k Hnd (symmetry (enum_perm l))).
  assert (NoDup (enum l).*1) as Hnd' by by rewrite enum_perm. revert r. induction (enum l) as [|[k' v] l' IH]; intros r; [done|].
  cbn [fmap list_fmap fst] in Hnd'. apply NoDup_cons in Hnd' as [Hk Hnd']. cbn [fold_left pget]. rewrite IH; [|done].
  cbn [set_field q_header]. rewrite pget_pset. destruct (streq k k') eqn:E.
  - apply streq_spec in E as ->. rewrite streq_refl. by rewrite (proj2 (pget_none _ _) Hk).
  - destruct (pget l' k); [done|]. by rewrite (proj2 (streq_neq k' k)); [|apply streq_neq in E; congruence].
Qed.

Lemma set_fields_rest l r :
  q_method (set_fields l r) = q_method r ∧ q_url (set_fields l r) = q_url r ∧
  q_query (set_fields l r) = q_query r ∧ q_data (set_fields l r) = q_data r.
Proof.
  unfold set_fields. revert r. induction (enum l) as [|[k v] l' IH]; intros r; [done|].
  cbn [fold_left]. by destruct (IH (set_field k v r)) as (-> & -> & -> & ->).
Qed.

Lemma set_fields_nodup l r : NoDup (q_header r).*1 → NoDup (q_header (set_fields l r)).*1.
Proof.
  unfold set_fields. revert r. induction (enum l) as [|[k v] l' IH]; intros r H; [done|].
  cbn [fold_left]. apply IH. cbn [set_field q_header]. by apply pset_nodup.
Qed.

(** The name of superagent's function for a method. *)
Definition superagent_method (method : jstr) : option jstr :=
  let m := to_lower method in pget method_names (if streq m #"delete" then #"del" else m).

(** (C13) A request with an object as its body and no multipart content type is sent with
    the object's JSON text, to its URL, under its method, and with its own headers that are
    not null; there is one more header only when the request has no content type: superagent
    then sends the text as a form. *)
Theorem http_request_sent obj name o :
  superagent_method (o_method obj) = Some name → NoDup (o_headers obj).*1 →
  match pget (o_headers obj) #"Content-Type" with
  | Some (VStr ct) => starts_with #"multipart/form-data" ct = false
  | Some _ => False
  | None => True
  end →
  o_body obj = VObj o →
  ∃ r q, build_request obj = Ok (r, []) ∧ send_request r = Ok q ∧
    s_method q = name ∧ s_url q = o_url obj ∧ s_body q = VStr (default [] (stringify (VObj o))) ∧
    ∀ k v, (k, v) ∈ s_headers q ↔ (k, v) ∈ o_headers obj ∧ is_nullish v = false ∨
      pget (o_headers obj) #"Content-Type" = None ∧ k = #"Content-Type" ∧ v = VStr #"application/x-www-form-urlencoded".
Proof.
  intros Hm Hnd Hct Hb. unfold superagent_method in Hm. unfold build_request. rewrite Hm Hb.
  set (r0 := if o_cookies obj then _ else _).
  assert (q_method r0 = name ∧ q_url r0 = o_url obj ∧ q_query r0 = [] ∧ q_data r0 = VUndef ∧
          q_header r0 = [] ∧ q_lower r0 = []) as (R1 & R2 & R3 & R4 & R5 & R6).
  { unfold r0. destruct (o_cookies obj), (o_timeout obj =? 0); done. }
  clearbody r0. cbn [is_object].
  assert (starts_with #"multipart/form-data" (to_string (or_else (field (o_headers obj) #"Content-Type") (VStr []))) = false) as ->.
  { unfold field, or_else. destruct (pget (o_headers obj) #"Content-Type") as [[| | | | |ct| |]|]; try done.
    change (default VUndef (Some (VStr ct))) with (VStr ct). destruct (truthy (VStr ct)); done. }
  destruct (stringify (VObj o)) as [s|] eqn:Es; [|done]. change (default [] (Some s)) with s.
  set (r1 := send (VStr s) r0).
  assert (q_method r1 = name ∧ q_url r1 = o_url obj ∧ q_query r1 = [] ∧ q_data r1 = VStr s ∧
    q_header r1 = [(#"Content-Type", VStr #"application/x-www-form-urlencoded")]) as (S1 & S2 & S3 & S4 & S5).
  { unfold r1, send. rewrite R6. change (truthy (field [] #"content-type")) with false. cbv iota.
    unfold set_type, set_field, set_data. cbn [q_lower q_header q_method q_url q_query q_data]. rewrite R4 R5 R6.
    split_and!; try done. }
  clearbody r1. exists (set_fields (o_headers obj) r1). destruct (set_fields_rest (o_headers obj) r1) as (T1 & T2 & T3 & T4).
  unfold send_request, body_of. rewrite T1 T4 S1 S4. cbn [is_string]. rewrite orb_true_r. cbn [is_undef mbind res_bind].
  eexists. split; [done|]. split; [reflexivity|]. cbn [s_method s_url s_body s_headers].
  split_and!; [done| |done|].
  - unfold full_url. by rewrite T2 T3 S2 S3.
  - intros k v. rewrite list_elem_of_In filter_In -list_elem_of_In enum_perm. cbn [snd]. rewrite negb_true_iff.
    assert (NoDup (q_header r1).*1) as Hnd1 by (rewrite S5; apply NoDup_singleton).
    pose proof (set_fields_nodup (o_headers obj) r1 Hnd1) as Hnd2.
    assert (∀ l : list (jstr * value), NoDup l.*1 → (k, v) ∈ l ↔ pget l k = Some v) as Hp.
    { intros l Hl. split; [by apply pget_in|by apply pget_some_in]. }
    rewrite !Hp; [|done..]. rewrite set_fields_header; [|done]. destruct (pget (o_headers obj) k) as [v'|] eqn:E.
    + split; [tauto|]. intros [H|(H & -> & _)]; [done|congruence].
    + rewrite S5. cbn [pget]. destruct (streq k #"Content-Type") eqn:K.
      * apply streq_spec in K as ->. split; [intros [[= <-] _]; by right|]. by intros [[? _]|(_ & _ & ->)].
      * apply streq_neq in K. split; [by intros [? _]|]. by intros [[? _]|(_ & ? & _)].
Qed.

Lemma http_request_sent_witness :
  let obj := {| o_method := #"Post"; o_url := #"http://h/pets"; o_timeout := 0; o_cookies := false;
                o_headers := [(#"Accept", VStr #"application/json"); (#"Content-Type", VStr #"application/json")];
                o_body := VObj [(#"id", VNum 1)] |} in
  ∃ r q, build_request obj = Ok (r, []) ∧ send_request r = Ok q ∧
    s_method q = #"POST" ∧ s_url q = #"http://h/pets" ∧
    s_body q = VStr (default [] (stringify (VObj [(#"id", VNum 1)]))) ∧
    ∀ k v, (k, v) ∈ s_headers q ↔ (k, v) ∈ o_headers obj ∧ is_nullish v = false ∨
      pget (o_headers obj) #"Content-Type" = None ∧ k = #"Content-Type" ∧ v = VStr #"application/x-www-form-urlencoded".
Proof.
  intros obj. apply (http_request_sent obj #"POST" [(#"id", VNum 1)]); [reflexivity| |reflexivity|reflexivity].
  apply NoDup_cons; split; [|apply NoDup_singleton]. intros H. by apply list_elem_of_singleton in H.
Defined.

(** ** Defects *)

(** A field with several values is sent as its positions. *)
Theorem multipart_sends_positions :
  multipart_fields (VObj [(#"tags", VArr [VStr #"red"; VStr #"blue"])])
  = [(#"tags", VStr #"0"); (#"tags", VStr #"1")].
Proof. reflexivity. Qed.

(** Every OPTIONS request fails before it is sent. *)
Theorem options_never_sent hasJQuery userAgent useJQuery :
  choose_client false hasJQuery userAgent useJQuery #"options" = Throw (JsError #"log is not defined").
Proof. reflexivity. Qed.

(** A response of status 200 whose JSON text is broken is reported with status 0,
    like a failure of the network. *)
Theorem broken_json_has_status_0 {N : TextNumbers} :
  let broken := λ _ : jstr, Throw (JsError #"SyntaxError") : res value in
  let x := {| x_status := 200; x_statusText := #"OK"; x_headers := []; x_text := #"{";
              x_contentType := Some #"application/json" |} in
  ∃ r, superagent_end id broken broken (on_end broken #"GET" #"/x" x) = CalledError r ∧ h_status r = VNum 0.
Proof. eexists. split; vm_compute; reflexivity. Qed.

(** A parameter of the content type named error makes an error of a response of status
    200: it replaces the property of the response the client looks at. *)
Theorem parameter_is_error {N : TextNumbers} safeLoad json_parse :
  let x := {| x_status := 200; x_statusText := #"OK"; x_headers := []; x_text := [];
              x_contentType := Some #"text/plain; error=no" |} in
  ∃ r, superagent_end id safeLoad json_parse (on_end json_parse #"GET" #"/x" x) = CalledError r ∧ h_status r = VNum 200.
Proof. eexists. split; vm_compute; reflexivity. Qed.
