(* ===== verification/YamlTypes.v ===== *)
(** * js-yaml: scalar types

    The scalar types null, bool, int, binary and merge: which text each resolves,
    the value it constructs and the text it represents a value with. The data of a
    scalar is text or [null]; a constructor is called on text its type resolved.
    Integers are those a JavaScript number holds exactly, without a negative zero.
    Floats and timestamps, which need doubles and dates, are not modelled. *)

From S2P Require Import Prelude JsValue Int32 Base64.

(** ** null and bool *)

Definition resolveYamlNull (data : option jstr) : bool :=
  match data with
  | None => true
  | Some s => streq s #"~" || streq s #"null" || streq s #"Null" || streq s #"NULL"
  end.

Inductive style := Canonical | Lowercase | Uppercase | Camelcase.

Definition representYamlNull (st : style) : jstr :=
  match st with Canonical => #"~" | Lowercase => #"null" | Uppercase => #"NULL" | Camelcase => #"Null" end.

Definition resolveYamlBoolean (data : option jstr) : bool :=
  match data with
  | None => false
  | Some s => (length s =? 4)%nat && (streq s #"true" || streq s #"True" || streq s #"TRUE")
              || (length s =? 5)%nat && (streq s #"false" || streq s #"False" || streq s #"FALSE")
  end.
Definition constructYamlBoolean (s : jstr) : bool := streq s #"true" || streq s #"True" || streq s #"TRUE".
Definition representYamlBoolean (st : style) (b : bool) : option jstr :=
  match st with
  | Canonical => None
  | Lowercase => Some (if b then #"true" else #"false")
  | Uppercase => Some (if b then #"TRUE" else #"FALSE")
  | Camelcase => Some (if b then #"True" else #"False")
  end.

Definition resolveYamlMerge (data : option jstr) : bool :=
  match data with None => true | Some s => streq s #"<<" end.

(** ** int *)

Definition isHexCode (c : Z) : bool :=
  (48 <=? c) && (c <=? 57) || (65 <=? c) && (c <=? 70) || (97 <=? c) && (c <=? 102).
Definition isOctCode (c : Z) : bool := (48 <=? c) && (c <=? 55).
Definition isDecCode (c : Z) : bool := (48 <=? c) && (c <=? 57).

(** The loops over the digits of one base: all units are digits or underscores
    and there is a digit. *)
Definition digits_ok (ok : Z → bool) (s : jstr) : bool :=
  forallb (λ c, (c =? 95) || ok c) s && existsb (λ c, negb (c =? 95)) s.

(** The loop for base 10 up to a colon: the rest from the colon, or nothing when
    there is none; [None] on an illegal unit. *)
Fixpoint decimal_part (s : jstr) (hasDigits : bool) : option (bool * option jstr) :=
  match s with
  | [] => Some (hasDigits, None)
  | c :: t =>
      if c =? 95 then decimal_part t hasDigits
      else if c =? 58 then Some (hasDigits, Some s)
      else if isDecCode c then decimal_part t true else None
  end.

(** [/^(:[0-5]?[0-9])+$/] *)
Definition base60_part (p : jstr) : bool :=
  match p with
  | [a] => isDecCode a
  | [a; b] => (48 <=? a) && (a <=? 53) && isDecCode b
  | _ => false
  end.
Definition base60_ok (s : jstr) : bool :=
  match split #":" s with
  | [] :: ((_ :: _) as parts) => forallb base60_part parts
  | _ => false
  end.

Definition strip_sign (s : jstr) : jstr :=
  match s with c :: t => if (c =? 45) || (c =? 43) then t else s | [] => [] end.

(** The number of the first unit. *)
Definition starts (c : Z) (s : jstr) : bool := match s with d :: _ => d =? c | [] => false end.

Definition resolveYamlInteger (data : option jstr) : bool :=
  match data with
  | None | Some [] => false
  | Some s =>
      let s := strip_sign s in
      if starts 48 s then
        let t := tail s in
        if starts 98 t then digits_ok (λ c, (c =? 48) || (c =? 49)) (tail t)
        else if starts 120 t then digits_ok isHexCode (tail t)
        else match t with [] => true | _ => digits_ok isOctCode t end
      else
        match decimal_part s false with
        | Some (true, None) => true
        | Some (true, Some rest) => base60_ok rest
        | _ => false
        end
  end.

(** The value of a unit as a digit. *)
Definition digit_of (c : Z) : Z :=
  if (48 <=? c) && (c <=? 57) then c - 48
  else if (97 <=? c) && (c <=? 122) then c - 87
  else if (65 <=? c) && (c <=? 90) then c - 55 else 99.

(** [parseInt(s, base)] on text without space or sign: the digits of the base at
    its start, [None] for [NaN]. *)
Fixpoint parse_digits (base : Z) (s : jstr) (acc : option Z) : option Z :=
  match s with
  | [] => acc
  | c :: t => if digit_of c <? base then parse_digits base t (Some (default 0 acc * base + digit_of c)) else acc
  end.
Definition parseInt (s : jstr) (base : Z) : option Z :=
  if (base =? 16) && starts 48 s && (starts 120 (tail s) || starts 88 (tail s))
  then parse_digits 16 (drop 2 s) None else parse_digits base s None.

(** The parts of a number in base 60, the last one first. *)
Definition base60 (parts : list (option Z)) : option Z :=
  fst <$> fold_left (λ acc d, '(value, base) ← acc; d ← d; Some (value + d * base, base * 60)) parts (Some (0, 1)).

Definition constructYamlInteger (data : jstr) : option Z :=
  let value := List.filter (λ c, negb (c =? 95)) data in
  let sign := if starts 45 value then -1 else 1 in
  let value := strip_sign value in
  if streq value #"0" then Some 0
  else
    let v :=
      if starts 48 value then
        if starts 98 (tail value) then parseInt (drop 2 value) 2
        else if starts 120 (tail value) then parseInt value 16
        else parseInt value 8
      else if contains #":" value then base60 (rev (map (λ p, parseInt p 10) (split #":" value)))
      else parseInt value 10 in
    v ← v; Some (sign * v).

(** [n.toString(base)] of a number that is not negative; every division by the
    base takes a bit at least. *)
Definition digit_unit (d : Z) : Z := if d <? 10 then 48 + d else 87 + d.
Fixpoint radix_go (fuel : nat) (base n : Z) (acc : jstr) : jstr :=
  match fuel with
  | O => acc
  | S f => if n <? base then digit_unit n :: acc
           else radix_go f base (n / base) (digit_unit (n mod base) :: acc)
  end.
Definition to_radix (base n : Z) : jstr :=
  if n <? 0 then 45 :: radix_go (S (Z.to_nat (Z.log2 (- n)))) base (- n) []
  else radix_go (S (Z.to_nat (Z.log2 n))) base n [].

Inductive int_style := Binary | Octal | Decimal | Hexadecimal.
#[export] Instance int_style_eq_dec : EqDecision int_style.
Proof. solve_decision. Defined.

Definition representYamlInteger (st : int_style) (n : Z) : jstr :=
  match st with
  | Binary => #"0b" ++ to_radix 2 n
  | Octal => #"0" ++ to_radix 8 n
  | Decimal => str_of_Z n
  | Hexadecimal => #"0x" ++ to_upper (to_radix 16 n)
  end.

(** ** binary *)

Definition BASE64_MAP : jstr := lookup ++ [61; 10; 13].
Definition map_index (c : Z) : Z := index_of [c] BASE64_MAP.

Fixpoint bit_length (s : jstr) (bitlen : Z) : option Z :=
  match s with
  | [] => Some bitlen
  | c :: t =>
      let code := map_index c in
      if 64 <? code then bit_length t bitlen
      else if code <? 0 then None else bit_length t (bitlen + 6)
  end.
Definition resolveYamlBinary (data : option jstr) : bool :=
  match data with
  | None => false
  | Some s => match bit_length s 0 with Some n => n mod 8 =? 0 | None => false end
  end.

(** Three bytes of [bits]. *)
Definition bytes3 (bits : Z) : list Z := [jand (jshr bits 16) 255; jand (jshr bits 8) 255; jand bits 255].

(** The loop over the units: the bytes pushed on the way and the last [bits]. *)
Fixpoint binary_units (idx : nat) (bits : Z) (input : jstr) : list Z * Z :=
  match input with
  | [] => ([], bits)
  | c :: t =>
      let pushed := if (idx mod 4 =? 0)%nat && negb (idx =? 0)%nat then bytes3 bits else [] in
      let '(rest, last) := binary_units (S idx) (jor (jshl bits 6) (map_index c)) t in
      (pushed ++ rest, last)
  end.

Definition binary_tail (max : nat) (bits : Z) : list Z :=
  match (max mod 4)%nat with
  | 0%nat => bytes3 bits
  | 3%nat => [jand (jshr bits 10) 255; jand (jshr bits 2) 255]
  | 2%nat => [jand (jshr bits 4) 255]
  | _ => []
  end.

Definition constructYamlBinary (data : jstr) : list Z :=
  let input := List.filter (λ c, negb ((c =? 13) || (c =? 10) || (c =? 61))) data in
  let '(pushed, bits) := binary_units 0 0 input in pushed ++ binary_tail (length input) bits.

(** [map[i]] *)
Definition map_unit (i : Z) : Z := default 0 (BASE64_MAP !! Z.to_nat i).
Definition units4 (bits : Z) : jstr :=
  [map_unit (jand (jshr bits 18) 63); map_unit (jand (jshr bits 12) 63);
   map_unit (jand (jshr bits 6) 63); map_unit (jand bits 63)].

Fixpoint binary_bytes (idx : nat) (bits : Z) (object : list Z) : jstr * Z :=
  match object with
  | [] => ([], bits)
  | b :: t =>
      let text := if (idx mod 3 =? 0)%nat && negb (idx =? 0)%nat then units4 bits else [] in
      let '(rest, last) := binary_bytes (S idx) (jshl bits 8 + b) t in
      (text ++ rest, last)
  end.

Definition units_tail (max : nat) (bits : Z) : jstr :=
  match (max mod 3)%nat with
  | 0%nat => units4 bits
  | 2%nat => [map_unit (jand (jshr bits 10) 63); map_unit (jand (jshr bits 4) 63);
              map_unit (jand (jshl bits 2) 63); map_unit 64]
  | _ => [map_unit (jand (jshr bits 2) 63); map_unit (jand (jshl bits 4) 63); map_unit 64; map_unit 64]
  end.

Definition representYamlBinary (object : list Z) : jstr :=
  let '(text, bits) := binary_bytes 0 0 object in text ++ units_tail (length object) bits.

(** ** Integers read back *)

Definition radix_value (base : Z) (s : jstr) (acc : Z) : Z := fold_left (λ a c, a * base + digit_of c) s acc.

Lemma digit_of_unit d : 0 <= d < 16 → digit_of (digit_unit d) = d ∧ digit_of (upper_unit (digit_unit d)) = d.
Proof.
  intros Hd. pose proof (range_check (λ d, (digit_of (digit_unit d) =? d) && (digit_of (upper_unit (digit_unit d)) =? d))
    0 16 eq_refl d Hd) as H. apply andb_true_iff in H as [H1 H2]. split; by apply Z.eqb_eq.
Qed.

Lemma radix_go_S f base n acc :
  radix_go (S f) base n acc = if n <? base then digit_unit n :: acc
    else radix_go f base (n / base) (digit_unit (n mod base) :: acc).
Proof. done. Qed.

(** The digits [toString] writes. *)
Lemma radix_go_spec base fuel : ∀ n acc,
  2 <= base → 0 <= n < 2 ^ Z.of_nat (S fuel) →
  ∃ d, radix_go (S fuel) base n acc = map digit_unit d ++ acc ∧ d ≠ [] ∧ Forall (λ x, 0 <= x < base) d ∧
    fold_left (λ a x, a * base + x) d 0 = n.
Proof.
  induction fuel as [|fuel IH]; intros n acc Hb Hn; rewrite radix_go_S;
    destruct (Z.ltb_spec n base) as [H|H];
    try (exists [n]; split_and!; [done|done|apply Forall_singleton; lia|cbn; lia]).
  { change (2 ^ Z.of_nat 1) with 2 in Hn. lia. }
  assert (0 <= n / base < 2 ^ Z.of_nat (S fuel)) as Hdiv.
  { split; [apply Z.div_pos; lia|]. rewrite (Nat2Z.inj_succ (S fuel)) Z.pow_succ_r in Hn; [|lia].
    apply Z.div_lt_upper_bound; nia. }
  destruct (IH (n / base) (digit_unit (n mod base) :: acc) Hb Hdiv) as (d & Hd & Hne & HF & Hv).
  exists (d ++ [n mod base]). rewrite Hd map_app -app_assoc. split_and!; [done|by destruct d| |].
  - apply Forall_app. split; [done|]. apply Forall_singleton. apply Z.mod_pos_bound. lia.
  - rewrite fold_left_app Hv. cbn. pose proof (Z.div_mod n base ltac:(lia)). lia.
Qed.

Lemma to_radix_spec base n :
  2 <= base → 0 <= n →
  ∃ d, to_radix base n = map digit_unit d ∧ d ≠ [] ∧ Forall (λ x, 0 <= x < base) d ∧
    fold_left (λ a x, a * base + x) d 0 = n.
Proof.
  intros Hb Hn. unfold to_radix. destruct (Z.ltb_spec n 0); [lia|].
  destruct (radix_go_spec base (Z.to_nat (Z.log2 n)) n []) as (d & Hd & H1 & H2 & H3); [done| |].
  - split; [done|]. rewrite Nat2Z.inj_succ Z2Nat.id; [|apply Z.log2_nonneg].
    destruct (Z.eq_dec n 0) as [->|]; [done|]. apply Z.log2_spec. lia.
  - exists d. by rewrite Hd app_nil_r.
Qed.

(** Digits parse to the number they make up. *)
Lemma parse_digits_spec base f d : ∀ acc,
  (∀ x, 0 <= x < base → digit_of (f x) = x) → Forall (λ x, 0 <= x < base) d → d ≠ [] →
  parse_digits base (map f d) acc = Some (fold_left (λ a x, a * base + x) d (default 0 acc)).
Proof.
  intros acc Hf HF Hne. destruct d as [|x d]; [done|]. clear Hne.
  apply Forall_cons in HF as [Hx HF]. cbn [map parse_digits fold_left]. rewrite (Hf x Hx).
  destruct (Z.ltb_spec x base); [|lia]. generalize (default 0 acc * base + x) as a. clear Hx.
  induction HF as [|y d Hy HF IH]; intros a; [done|]. cbn [map parse_digits fold_left]. rewrite (Hf y Hy).
  destruct (Z.ltb_spec y base); [|lia]. apply IH.
Qed.

Lemma filter_all {A} (f : A → bool) l : forallb f l = true → List.filter f l = l.
Proof.
  induction l as [|x l IH]; [done|]. cbn. intros H. apply andb_true_iff in H as [-> H]. by rewrite IH.
Qed.

(** A range check of a unit made from a digit. *)
Lemma digits_all (P : Z → bool) base f d :
  0 <= base → forallb (λ x, P (f x)) (range 0 (Z.to_nat base)) = true → Forall (λ x, 0 <= x < base) d →
  forallb P (map f d) = true.
Proof.
  intros Hb HP HF. apply forallb_forall. intros c Hc. apply in_map_iff in Hc as (x & <- & Hx).
  rewrite Forall_forall in HF. apply list_elem_of_In, HF in Hx.
  apply (range_check (λ x, P (f x)) 0 (Z.to_nat base) HP). lia.
Qed.

Lemma digits_ok_all ok base f d :
  0 <= base → forallb (λ x, ok (f x) && negb (f x =? 95)) (range 0 (Z.to_nat base)) = true →
  Forall (λ x, 0 <= x < base) d → d ≠ [] → digits_ok ok (map f d) = true.
Proof.
  intros Hb HP HF Hne. unfold digits_ok. apply andb_true_iff. split.
  - apply (digits_all _ base); [done| |done]. apply forallb_forall. intros x Hx. rewrite forallb_forall in HP.
    apply HP, andb_true_iff in Hx as [-> _]. apply orb_true_r.
  - destruct d as [|x d]; [done|]. cbn [map existsb]. apply orb_true_iff. left.
    apply Forall_cons in HF as [Hx _].
    pose proof (range_check _ 0 (Z.to_nat base) HP x ltac:(lia)) as H. by apply andb_true_iff in H as [_ H].
Qed.

Lemma parseInt_plain base s : base ≠ 16 → parseInt s base = parse_digits base s None.
Proof.
  intros Hb. unfold parseInt. by destruct (Z.eqb_spec base 16).
Qed.

Lemma parse_decimal s : ∀ acc,
  forallb is_digit s = true → s ≠ [] →
  parse_digits 10 s acc = Some (fold_left (λ a d, a * 10 + (d - 48)) s (default 0 acc)).
Proof.
  assert (∀ c, is_digit c = true → digit_of c = c - 48 ∧ c - 48 < 10) as Hc.
  { intros c. unfold is_digit, digit_of. intros H. rewrite H. apply andb_true_iff in H as [H1 H2].
    apply Z.leb_le in H1, H2. split; [done|lia]. }
  intros acc H Hne. destruct s as [|c s]; [done|]. clear Hne. cbn [forallb] in H. apply andb_true_iff in H as [H0 H].
  destruct (Hc c H0) as [E L]. cbn [parse_digits fold_left]. rewrite E. destruct (Z.ltb_spec (c - 48) 10); [|lia].
  generalize (default 0 acc * 10 + (c - 48)) as a. clear -H Hc.
  induction s as [|c s IH]; intros a; [done|]. cbn [forallb] in H. apply andb_true_iff in H as [H0 H].
  destruct (Hc c H0) as [E L]. cbn [parse_digits fold_left]. rewrite E. destruct (Z.ltb_spec (c - 48) 10); [|lia]. by apply IH.
Qed.

Lemma decimal_part_digits s b : forallb is_digit s = true → s ≠ [] → decimal_part s b = Some (true, None).
Proof.
  intros H Hne. destruct s as [|c s]; [done|]. clear Hne. revert c b H. induction s as [|d s IH]; intros c b H.
  - cbn in *. rewrite andb_true_r in H. unfold is_digit in H.
    destruct (Z.eqb_spec c 95); [lia|]. destruct (Z.eqb_spec c 58); [lia|]. unfold isDecCode. by rewrite H.
  - cbn [forallb] in H. apply andb_true_iff in H as [H0 H]. unfold is_digit in H0. cbn [decimal_part].
    destruct (Z.eqb_spec c 95); [lia|]. destruct (Z.eqb_spec c 58); [lia|]. unfold isDecCode. rewrite H0. by apply IH.
Qed.

(** Digits that do not start with 0 are a decimal number to both functions. *)
Lemma decimal_text s sign :
  forallb is_digit s = true → s ≠ [] → head s ≠ Some 48 → sign ∈ [[]; [45]] →
  resolveYamlInteger (Some (sign ++ s)) = true ∧
  constructYamlInteger (sign ++ s) = Some ((if streq sign [] then 1 else -1) * digits_value s).
Proof.
  intros Hd Hne Hh Hs.
  assert (∀ c, c ∈ s → 48 <= c <= 57) as Hc.
  { intros c Hc. rewrite forallb_forall in Hd. apply list_elem_of_In, Hd in Hc. unfold is_digit in Hc. lia. }
  assert (∃ c t, s = c :: t ∧ 49 <= c <= 57) as (c & t & -> & Hc0).
  { destruct s as [|c t]; [done|]. exists c, t. split; [done|]. specialize (Hc c ltac:(by left)).
    assert (c ≠ 48) by (intros ->; by apply Hh). lia. }
  assert (strip_sign (c :: t) = c :: t) as E.
  { cbn. destruct (Z.eqb_spec c 45), (Z.eqb_spec c 43); try lia. done. }
  assert (strip_sign (sign ++ c :: t) = c :: t) as E1.
  { repeat (apply elem_of_cons in Hs as [->|Hs]; [done|]). by apply not_elem_of_nil in Hs. }
  assert (starts 48 (c :: t) = false) as E2 by (cbn; apply Z.eqb_neq; lia).
  split.
  - unfold resolveYamlInteger. destruct (sign ++ c :: t) eqn:En; [by destruct sign|]. rewrite E1 E2.
    by rewrite decimal_part_digits.
  - unfold constructYamlInteger.
    assert (List.filter (λ c, negb (c =? 95)) (sign ++ c :: t) = sign ++ c :: t) as ->.
    { apply filter_all, forallb_forall. intros x Hx. apply list_elem_of_In, elem_of_app in Hx as [Hx|Hx].
      - repeat (apply elem_of_cons in Hs as [->|Hs]; [set_solver|]). by apply not_elem_of_nil in Hs.
      - apply Hc in Hx. apply negb_true_iff, Z.eqb_neq. lia. }
    rewrite E1. assert (streq (c :: t) #"0" = false) as -> by (apply streq_neq; intros [= H]; lia).
    rewrite E2. assert (contains #":" (c :: t) = false) as ->.
    { change #":" with [58]. rewrite contains_unit. apply has_false. intros H. apply Hc in H. lia. }
    rewrite parseInt_plain // (parse_decimal _ _ Hd Hne). cbn [mbind option_bind default]. f_equal. f_equal.
    repeat (apply elem_of_cons in Hs as [->|Hs]; [cbn [app starts]|]); [..|by apply not_elem_of_nil in Hs].
    + destruct (Z.eqb_spec c 45); [lia|done].
    + done.
Qed.

(** Text that starts with 0 has no sign. *)
Lemma sign_free t v : (v0 ← Some v; Some ((if starts 45 (48 :: t) then -1 else 1) * v0)) = Some v.
Proof. change (Some (1 * v) = Some v). by rewrite Z.mul_1_l. Qed.

(** A number written in base 2, 8 or 16 after its prefix. *)
Lemma prefixed_text p ok base f d :
  (p, base) ∈ [(#"0b", 2); (#"0", 8); (#"0x", 16)] → Forall (λ x, 0 <= x < base) d → d ≠ [] →
  (∀ x, 0 <= x < base → digit_of (f x) = x) →
  forallb (λ x, ok (f x) && negb (f x =? 95) && negb (f x =? 98) && negb (f x =? 120)) (range 0 (Z.to_nat base)) = true →
  (if streq p #"0b" then ok = (λ c, (c =? 48) || (c =? 49))
   else if streq p #"0x" then ok = isHexCode else ok = isOctCode) →
  resolveYamlInteger (Some (p ++ map f d)) = true ∧
  constructYamlInteger (p ++ map f d) = Some (fold_left (λ a x, a * base + x) d 0).
Proof.
  intros Hp HF Hne Hf Hchk Hok.
  assert (0 <= base) as Hb by (repeat (apply elem_of_cons in Hp as [[= -> ->]|Hp]; [done|]); by apply not_elem_of_nil in Hp).
  assert (∀ x, 0 <= x < base → ok (f x) = true ∧ f x ≠ 95 ∧ f x ≠ 98 ∧ f x ≠ 120) as Hx.
  { intros x Hx. pose proof (range_check _ 0 (Z.to_nat base) Hchk x ltac:(lia)) as H. cbv beta in H.
    rewrite !andb_true_iff !negb_true_iff !Z.eqb_neq in H. tauto. }
  assert (digits_ok ok (map f d) = true) as Hdig.
  { apply (digits_ok_all ok base); [done| |done|done]. apply forallb_forall. intros x Hin.
    rewrite forallb_forall in Hchk. apply Hchk in Hin. rewrite !andb_true_iff in Hin |- *. tauto. }
  assert (List.filter (λ c, negb (c =? 95)) (map f d) = map f d) as Hfil.
  { apply filter_all, forallb_forall. intros c Hc. apply in_map_iff in Hc as (x & <- & Hin).
    rewrite Forall_forall in HF. apply list_elem_of_In, HF, Hx in Hin. apply negb_true_iff, Z.eqb_neq. tauto. }
  destruct d as [|x d]; [done|]. apply Forall_cons in HF as [H0 HF]. pose proof (Hx x H0) as (_ & _ & N98 & N120).
  assert (Forall (λ x, 0 <= x < base) (x :: d)) as HF' by by constructor.
  pose proof (parse_digits_spec base f (x :: d) None Hf HF' Hne) as Hparse.
  cbn [map] in *.
  assert (starts 98 (f x :: map f d) = false ∧ starts 120 (f x :: map f d) = false) as [S98 S120].
  { cbn. split; by apply Z.eqb_neq. }
  repeat (apply elem_of_cons in Hp as [[= -> ->]|Hp]); [| | |by apply not_elem_of_nil in Hp].
  - change #"0b" with [48; 98] in *. change (streq [48; 98] [48; 98]) with true in Hok. cbv iota in Hok. subst ok.
    unfold resolveYamlInteger, constructYamlInteger. rewrite List.filter_app Hfil.
    change (List.filter _ [48; 98]) with [48; 98].
    change (strip_sign ([48; 98] ++ f x :: map f d)) with (48 :: 98 :: f x :: map f d). split; [exact Hdig|].
    change (streq (48 :: 98 :: f x :: map f d) #"0") with false. cbn [starts Z.eqb Pos.eqb tail drop].
    rewrite parseInt_plain // Hparse. apply sign_free.
  - change #"0" with [48] in *. change (streq [48] #"0b") with false in Hok. change (streq [48] #"0x") with false in Hok.
    cbv iota in Hok. subst ok. unfold resolveYamlInteger, constructYamlInteger. rewrite List.filter_app Hfil.
    change (List.filter _ [48]) with [48].
    change (strip_sign ([48] ++ f x :: map f d)) with (48 :: f x :: map f d).
    assert (streq (48 :: f x :: map f d) #"0" = false) as -> by by apply streq_neq.
    change (starts 48 (48 :: f x :: map f d)) with true. cbn [tail]. rewrite S98 S120. split; [exact Hdig|].
    rewrite parseInt_plain //.
    change (parse_digits 8 (48 :: f x :: map f d) None) with (parse_digits 8 (f x :: map f d) (Some 0)).
    rewrite (parse_digits_spec 8 f (x :: d) (Some 0) Hf HF' Hne). apply sign_free.
  - change #"0x" with [48; 120] in *. change (streq [48; 120] #"0b") with false in Hok.
    change (streq [48; 120] [48; 120]) with true in Hok. cbv iota in Hok. subst ok.
    unfold resolveYamlInteger, constructYamlInteger. rewrite List.filter_app Hfil.
    change (List.filter _ [48; 120]) with [48; 120].
    change (strip_sign ([48; 120] ++ f x :: map f d)) with (48 :: 120 :: f x :: map f d). split; [exact Hdig|].
    change (streq (48 :: 120 :: f x :: map f d) #"0") with false. cbn [starts Z.eqb Pos.eqb tail drop].
    unfold parseInt. cbn [starts tail drop Z.eqb Pos.eqb andb orb]. rewrite Hparse.
    apply sign_free.
Qed.

(** A number written in any style is resolved as an integer and read back; the
    styles other than the decimal one need a number that is not negative. *)
Theorem int_roundtrip st n :
  st = Decimal ∨ 0 <= n →
  resolveYamlInteger (Some (representYamlInteger st n)) = true ∧
  constructYamlInteger (representYamlInteger st n) = Some n.
Proof.
  intros Hst. destruct (decide (st = Decimal)) as [->|Hd].
  - clear Hst. cbn [representYamlInteger]. destruct (Z.lt_trichotomy n 0) as [Hn|[->|Hn]]; [|done|].
    + rewrite str_of_Z_neg //. destruct (str_of_Z_digits (- n)) as (H1 & H2 & H3 & H4); [lia|].
      destruct (decimal_text (str_of_Z (- n)) [45] H1 H3 (H4 ltac:(lia))) as [R C]; [set_solver|].
      split; [exact R|]. change (45 :: str_of_Z (- n)) with ([45] ++ str_of_Z (- n)). rewrite C H2.
      change (streq [45] []) with false. f_equal. lia.
    + destruct (str_of_Z_digits n) as (H1 & H2 & H3 & H4); [lia|].
      destruct (decimal_text (str_of_Z n) [] H1 H3 (H4 ltac:(lia))) as [R C]; [set_solver|].
      split; [exact R|]. change (str_of_Z n) with ([] ++ str_of_Z n). rewrite C H2. change (streq [] []) with true. f_equal. lia.
  - destruct Hst as [?|Hn]; [done|].
    assert (∀ x, 0 <= x < 16 → digit_of (digit_unit x) = x ∧ digit_of (upper_unit (digit_unit x)) = x) as Hdig
      by apply digit_of_unit.
    destruct st; [| |done|]; cbn [representYamlInteger].
    + destruct (to_radix_spec 2 n) as (d & -> & Hne & HF & <-); [lia|done|].
      eapply (prefixed_text _ (λ c, (c =? 48) || (c =? 49))); [set_solver|done|done| |reflexivity|reflexivity].
      intros x Hx. apply Hdig. lia.
    + destruct (to_radix_spec 8 n) as (d & -> & Hne & HF & <-); [lia|done|].
      eapply (prefixed_text _ isOctCode); [set_solver|done|done| |reflexivity|reflexivity].
      intros x Hx. apply Hdig. lia.
    + destruct (to_radix_spec 16 n) as (d & -> & Hne & HF & <-); [lia|done|].
      unfold to_upper. rewrite map_map.
      eapply (prefixed_text _ isHexCode); [set_solver|done|done| |reflexivity|reflexivity].
      intros x Hx. by apply Hdig.
Qed.

Lemma int_roundtrip_witness :
  representYamlInteger Hexadecimal 255 = #"0xFF" ∧
  resolveYamlInteger (Some (representYamlInteger Hexadecimal 255)) = true ∧
  constructYamlInteger (representYamlInteger Hexadecimal 255) = Some 255.
Proof. split; [reflexivity|]. apply (int_roundtrip Hexadecimal 255). right. lia. Defined.

(** A negative number in another style is written in a form that is not read as
    an integer. *)
Theorem negative_hex_lost :
  representYamlInteger Hexadecimal (-255) = #"0x-FF" ∧
  resolveYamlInteger (Some (representYamlInteger Hexadecimal (-255))) = false.
Proof. split; reflexivity. Qed.

(** ** Binary data read back *)

(** A field of the 24 bits that count. *)
Lemma field_of_bits v n k :
  0 <= n → 0 <= k <= 31 → n + k <= 32 → jand (jshr v n) (2 ^ k - 1) = v mod 2 ^ (n + k) / 2 ^ n.
Proof.
  intros Hn Hk Hnk. rewrite jand_ones //. unfold jshr. rewrite Z.shiftr_div_pow2 //.
  rewrite -(to_int32_mod_pow v (n + k)); [|lia]. rewrite Z.pow_add_r; [|lia..].
  assert (0 < 2 ^ n) by (apply Z.pow_pos_nonneg; lia). assert (0 < 2 ^ k) by (apply Z.pow_pos_nonneg; lia).
  rewrite Z.rem_mul_r; [|lia|lia]. rewrite (Z.mul_comm (2 ^ n)) Z.div_add; [|lia].
  rewrite (Z.div_small (_ mod 2 ^ n)); [lia|]. by apply Z.mod_pos_bound.
Qed.

Lemma jshl_mod v n k : 0 <= n → 0 <= k <= 32 → jshl v n mod 2 ^ k = v * 2 ^ n mod 2 ^ k.
Proof.
  intros Hn Hk. unfold jshl. rewrite to_int32_mod_pow // Z.shiftl_mul_pow2 //.
  assert (0 < 2 ^ k) by (apply Z.pow_pos_nonneg; lia).
  rewrite -Z.mul_mod_idemp_l; [|lia]. rewrite to_int32_mod_pow // Z.mul_mod_idemp_l; [done|lia].
Qed.

Lemma push_byte v b x : v mod 16777216 = x mod 16777216 → (jshl v 8 + b) mod 16777216 = (x * 256 + b) mod 16777216.
Proof.
  intros H. rewrite -Z.add_mod_idemp_l // (jshl_mod v 8 24); [|lia..]. change (2 ^ 24) with 16777216.
  change (2 ^ 8) with 256. rewrite Z.add_mod_idemp_l //. zdm.
Qed.

(** Four units of a group, from the bits of three bytes. *)
Lemma map_unit_sextet n : 0 <= n < 64 → map_unit n = b64_unit n.
Proof.
  intros Hn. apply Z.eqb_eq. by apply (sextet_check (λ n, map_unit n =? b64_unit n)).
Qed.
Lemma map_index_unit n : 0 <= n < 64 → map_index (b64_unit n) = n.
Proof.
  intros Hn. apply Z.eqb_eq. by apply (sextet_check (λ n, map_index (b64_unit n) =? n)).
Qed.

Ltac unit_eqs :=
  repeat (apply (f_equal2 cons); [first [done | apply (f_equal b64_unit); zdm | zdm]|]); try done.

Lemma units4_spec bits a b c :
  is_byte a → is_byte b → is_byte c → bits mod 16777216 = a * 65536 + b * 256 + c →
  units4 bits = map b64_unit (sextets3 a b c).
Proof.
  unfold is_byte. intros Ha Hb Hc H. unfold units4, sextets3. cbn [map].
  rewrite (field_of_bits bits 18 6) // (field_of_bits bits 12 6) // (field_of_bits bits 6 6) // jand_63.
  change (2 ^ (18 + 6)) with 16777216. change (2 ^ (12 + 6)) with 262144. change (2 ^ (6 + 6)) with 4096.
  change (2 ^ 18) with 262144. change (2 ^ 12) with 4096. change (2 ^ 6) with 64.
  rewrite !map_unit_sextet; [|zdm..]. unit_eqs.
Qed.

Lemma bytes3_spec bits a b c :
  is_byte a → is_byte b → is_byte c → bits mod 16777216 = a * 65536 + b * 256 + c → bytes3 bits = [a; b; c].
Proof.
  unfold is_byte. intros Ha Hb Hc H. unfold bytes3.
  rewrite (field_of_bits bits 16 8) // (field_of_bits bits 8 8) // jand_255.
  change (2 ^ (16 + 8)) with 16777216. change (2 ^ (8 + 8)) with 65536. change (2 ^ 16) with 65536. change (2 ^ 8) with 256.
  unit_eqs.
Qed.

(** What the loop writes before the byte at [idx]. *)
Definition flush {A} (m idx : nat) (out : list A) : list A :=
  if (idx mod m =? 0)%nat && negb (idx =? 0)%nat then out else [].

Lemma flush_inside {A} m k idx (out : list A) :
  (0 < k < m)%nat → (idx mod m)%nat = 0%nat → flush m (k + idx) out = [].
Proof.
  intros Hk Hi. unfold flush. rewrite -Nat.Div0.add_mod_idemp_r Hi Nat.add_0_r Nat.mod_small; [|lia]. by destruct k; [lia|].
Qed.

Lemma binary_bytes_cons idx bits b t :
  binary_bytes idx bits (b :: t) =
  (flush 3 idx (units4 bits) ++ (binary_bytes (S idx) (jshl bits 8 + b) t).1, (binary_bytes (S idx) (jshl bits 8 + b) t).2).
Proof. cbn [binary_bytes]. unfold flush. by destruct (binary_bytes _ _ t). Qed.

Definition bytes3_bits (bits a b c : Z) : Z := jshl (jshl (jshl bits 8 + a) 8 + b) 8 + c.

Lemma binary_bytes_group idx bits a b c rest :
  (idx mod 3)%nat = 0%nat →
  binary_bytes idx bits (a :: b :: c :: rest) =
  (flush 3 idx (units4 bits) ++ (binary_bytes (3 + idx) (bytes3_bits bits a b c) rest).1,
   (binary_bytes (3 + idx) (bytes3_bits bits a b c) rest).2).
Proof.
  intros Hi. rewrite !binary_bytes_cons. cbn [fst snd].
  change (S (S idx)) with (2 + idx)%nat. change (S idx) with (1 + idx)%nat.
  by rewrite !flush_inside; [|lia|done|lia|done].
Qed.

Lemma push_bytes bits a b c :
  is_byte a → is_byte b → is_byte c → bytes3_bits bits a b c mod 16777216 = a * 65536 + b * 256 + c.
Proof.
  unfold is_byte. intros Ha Hb Hc. unfold bytes3_bits.
  rewrite (push_byte _ c ((bits * 256 + a) * 256 + b)); [zdm|].
  rewrite (push_byte _ b (bits * 256 + a)); [done|]. by apply push_byte.
Qed.

Lemma units_tail3 n bits : units_tail (3 + n) bits = units_tail n bits.
Proof.
  unfold units_tail. replace ((3 + n) mod 3)%nat with (n mod 3)%nat; [done|].
  replace (3 + n)%nat with (n + 1 * 3)%nat by lia. by rewrite Nat.Div0.mod_add.
Qed.

Lemma units_tail1 bits a : is_byte a → bits mod 256 = a → units_tail 1 bits = map b64_unit [a / 4; a mod 4 * 16] ++ [61; 61].
Proof.
  unfold is_byte. intros Ha H. unfold units_tail. change (1 mod 3)%nat with 1%nat. cbv iota.
  rewrite (field_of_bits bits 2 6) // jand_63. change (2 ^ (2 + 6)) with 256. change (2 ^ 2) with 4.
  assert (jshl bits 4 mod 64 = a mod 4 * 16) as ->.
  { rewrite (jshl_mod bits 4 6) //. change (2 ^ 6) with 64. change (2 ^ 4) with 16. zdm. }
  rewrite H. change (map_unit 64) with 61. rewrite !map_unit_sextet; [done|zdm..].
Qed.

Lemma units_tail2 bits a b :
  is_byte a → is_byte b → bits mod 65536 = a * 256 + b →
  units_tail 2 bits = map b64_unit [a / 4; a mod 4 * 16 + b / 16; b mod 16 * 4] ++ [61].
Proof.
  unfold is_byte. intros Ha Hb H. unfold units_tail. change (2 mod 3)%nat with 2%nat. cbv iota.
  rewrite (field_of_bits bits 10 6) // (field_of_bits bits 4 6) // jand_63.
  change (2 ^ (10 + 6)) with 65536. change (2 ^ (4 + 6)) with 1024. change (2 ^ 10) with 1024. change (2 ^ 4) with 16.
  assert (jshl bits 2 mod 64 = b mod 16 * 4) as ->.
  { rewrite (jshl_mod bits 2 6) //. change (2 ^ 6) with 64. change (2 ^ 2) with 4. zdm. }
  change (map_unit 64) with 61. rewrite !map_unit_sextet; [|zdm..]. cbn [map app]. unit_eqs.
Qed.

(** The text from a group on. *)
Lemma represent_from bs : ∀ idx bits,
  Forall is_byte bs → (idx mod 3)%nat = 0%nat → (idx = 0%nat → bs ≠ []) →
  (binary_bytes idx bits bs).1 ++ units_tail (length bs) (binary_bytes idx bits bs).2 =
  (if (idx =? 0)%nat then [] else units4 bits) ++ rfc4648 bs.
Proof.
  induction bs as [|a|a b|a b c rest IH] using triple_ind; intros idx bits HF Hi H0.
  - cbn. rewrite app_nil_r. destruct idx; [by destruct H0|done].
  - rewrite binary_bytes_cons. cbn [binary_bytes fst snd length]. rewrite app_nil_r. f_equal.
    + unfold flush. rewrite Hi. by destruct idx.
    + rewrite Forall_singleton in HF. apply units_tail1; [done|]. unfold is_byte in HF.
      rewrite -Z.add_mod_idemp_l // (jshl_mod bits 8 8) //. change (2 ^ 8) with 256. zdm.
  - rewrite !binary_bytes_cons. cbn [binary_bytes fst snd length]. rewrite app_nil_r.
    change (S idx) with (1 + idx)%nat. rewrite flush_inside; [|lia|done]. rewrite app_nil_r. f_equal.
    + unfold flush. rewrite Hi. by destruct idx.
    + apply Forall_cons in HF as [Ha HF]. rewrite Forall_singleton in HF. rename HF into Hb. apply units_tail2; [done..|].
      unfold is_byte in *. pose proof (push_byte (jshl bits 8 + a) b (bits * 256 + a)
        ltac:(by apply push_byte)). zdm.
  - apply Forall_cons in HF as [Ha HF]. apply Forall_cons in HF as [Hb HF]. apply Forall_cons in HF as [Hc HF].
    rewrite binary_bytes_group //. cbn [fst snd]. change (length (a :: b :: c :: rest)) with (3 + length rest)%nat.
    rewrite units_tail3 -app_assoc IH //.
    + cbn [rfc4648]. rewrite (units4_spec (bytes3_bits bits a b c) a b c) //; [|by apply push_bytes].
      f_equal. unfold flush. rewrite Hi. by destruct idx.
    + by rewrite -Nat.Div0.add_mod_idemp_r Hi.
Qed.

(** The units of a text without its padding, as sextets. *)
Fixpoint sextets (bs : list Z) : list Z :=
  match bs with
  | a :: b :: c :: rest => sextets3 a b c ++ sextets rest
  | [a; b] => [a / 4; a mod 4 * 16 + b / 16; b mod 16 * 4]
  | [a] => [a / 4; a mod 4 * 16]
  | [] => []
  end.

Lemma sextets_range bs : Forall is_byte bs → Forall (λ n, 0 <= n < 64) (sextets bs).
Proof.
  induction bs as [|a|a b|a b c rest IH] using triple_ind; intros HF; rewrite ?Forall_cons in HF; unfold is_byte in HF;
    cbn [sextets sextets3 app]; rewrite ?Forall_cons; [done|split_and!; try done; zdm..|].
  destruct HF as (Ha & Hb & Hc & HF). split_and!; [zdm..|by apply IH].
Qed.

Definition keep_unit (c : Z) : bool := negb ((c =? 13) || (c =? 10) || (c =? 61)).

Lemma filter_units l : Forall (λ n, 0 <= n < 64) l → List.filter keep_unit (map b64_unit l) = map b64_unit l.
Proof.
  intros HF. apply filter_all, forallb_forall. intros c Hc. apply in_map_iff in Hc as (x & <- & Hx).
  rewrite Forall_forall in HF. apply list_elem_of_In, HF in Hx. revert x Hx. by apply sextet_check.
Qed.

Lemma rfc4648_units bs : Forall is_byte bs → List.filter keep_unit (rfc4648 bs) = map b64_unit (sextets bs).
Proof.
  induction bs as [|a|a b|a b c rest IH] using triple_ind; intros HF; [done| | |]; cbn [rfc4648 sextets];
    rewrite List.filter_app.
  - rewrite filter_units; [by rewrite app_nil_r|]. exact (sextets_range [a] HF).
  - rewrite filter_units; [by rewrite app_nil_r|]. exact (sextets_range [a; b] HF).
  - apply Forall_cons in HF as [Ha HF]. apply Forall_cons in HF as [Hb HF]. apply Forall_cons in HF as [Hc HF].
    rewrite map_app IH // filter_units //. apply (sextets_range [a; b; c]). by rewrite !Forall_cons.
Qed.

Lemma binary_units_cons idx bits c t :
  binary_units idx bits (c :: t) =
  (flush 4 idx (bytes3 bits) ++ (binary_units (S idx) (jor (jshl bits 6) (map_index c)) t).1,
   (binary_units (S idx) (jor (jshl bits 6) (map_index c)) t).2).
Proof. cbn [binary_units]. unfold flush. by destruct (binary_units _ _ t). Qed.

Lemma push_sextet v n x :
  0 <= n < 64 → v mod 16777216 = x mod 16777216 →
  jor (jshl v 6) (map_index (b64_unit n)) mod 16777216 = (x * 64 + n) mod 16777216.
Proof.
  intros Hn H. rewrite map_index_unit //.
  assert (∃ y, jshl v 6 = y * 2 ^ 6) as [y Hy].
  { assert (jshl v 6 mod 2 ^ 6 = 0) as E by (rewrite (jshl_mod v 6 6) //; apply Z.mod_mul; done).
    exists (jshl v 6 / 2 ^ 6). pose proof (Z.div_mod (jshl v 6) (2 ^ 6) ltac:(done)). lia. }
  pose proof (jshl_mod v 6 24 ltac:(done) ltac:(lia)) as Hm. rewrite Hy in Hm.
  assert (-2147483648 <= y * 2 ^ 6 < 2147483648) by (rewrite -Hy; apply to_int32_range).
  rewrite Hy jor_add //; [|lia]. change (2 ^ 24) with 16777216 in Hm. change (2 ^ 6) with 64 in *. zdm.
Qed.

(** The bits after the units of some sextets. *)
Definition units_bits (bits : Z) (l : list Z) : Z :=
  fold_left (λ bits n, jor (jshl bits 6) (map_index (b64_unit n))) l bits.

Lemma units_bits_mod l : ∀ bits x,
  Forall (λ n, 0 <= n < 64) l → bits mod 16777216 = x mod 16777216 →
  units_bits bits l mod 16777216 = fold_left (λ x n, x * 64 + n) l x mod 16777216.
Proof.
  induction l as [|n l IH]; intros bits x HF H; [done|]. apply Forall_cons in HF as [Hn HF]. cbn.
  apply IH; [done|]. by apply push_sextet.
Qed.

Lemma binary_tail4 n bits : binary_tail (4 + n) bits = binary_tail n bits.
Proof.
  unfold binary_tail. replace ((4 + n) mod 4)%nat with (n mod 4)%nat; [done|].
  replace (4 + n)%nat with (n + 1 * 4)%nat by lia. by rewrite Nat.Div0.mod_add.
Qed.

(** The units of a group or of a shorter tail. *)
Lemma binary_units_inside l rest : ∀ k idx bits,
  (idx mod 4)%nat = 0%nat → (0 < k)%nat → (k + length l <= 4)%nat →
  binary_units (k + idx) bits (map b64_unit l ++ rest) = binary_units (k + length l + idx) (units_bits bits l) rest.
Proof.
  induction l as [|n l IH]; intros k idx bits Hi Hk Hlen; cbn [length] in Hlen.
  - cbn [map app length]. by rewrite Nat.add_0_r.
  - cbn [map app]. rewrite binary_units_cons flush_inside; [|lia|done].
    change (S (k + idx)) with (S k + idx)%nat. rewrite IH; [|done|lia|lia]. cbn [length].
    replace (S k + length l + idx)%nat with (k + S (length l) + idx)%nat by lia.
    cbn [app]. by rewrite -surjective_pairing.
Qed.

Lemma binary_units_group n l rest idx bits :
  (idx mod 4)%nat = 0%nat → (length l <= 3)%nat →
  binary_units idx bits (map b64_unit (n :: l) ++ rest) =
  (flush 4 idx (bytes3 bits) ++ (binary_units (S (length l) + idx) (units_bits bits (n :: l)) rest).1,
   (binary_units (S (length l) + idx) (units_bits bits (n :: l)) rest).2).
Proof.
  intros Hi Hlen. cbn [map app]. rewrite binary_units_cons. change (S idx) with (1 + idx)%nat.
  by rewrite binary_units_inside; [|done|lia|lia].
Qed.

(** The bytes from a group on. *)
Lemma construct_from bs : ∀ idx bits,
  Forall is_byte bs → (idx mod 4)%nat = 0%nat → (idx = 0%nat → bs ≠ []) →
  (binary_units idx bits (map b64_unit (sextets bs))).1
  ++ binary_tail (length (sextets bs)) (binary_units idx bits (map b64_unit (sextets bs))).2 =
  (if (idx =? 0)%nat then [] else bytes3 bits) ++ bs.
Proof.
  induction bs as [|a|a b|a b c rest IH] using triple_ind; intros idx bits HF Hi H0;
    assert (∀ A (out : list A), flush 4 idx out = if (idx =? 0)%nat then [] else out) as Hflush
      by (intros A out; unfold flush; rewrite Hi; by destruct idx).
  - cbn. rewrite app_nil_r. destruct idx; [by destruct H0|done].
  - pose proof (sextets_range [a] HF) as HR. rewrite Forall_singleton in HF. unfold is_byte in HF. cbn [sextets] in *.
    rewrite -(app_nil_r (map b64_unit _)) binary_units_group; [|done|cbn; lia]. cbn [binary_units fst snd length]. rewrite app_nil_r Hflush. f_equal.
    unfold binary_tail. change (2 mod 4)%nat with 2%nat. cbv iota. rewrite (field_of_bits _ 4 8) //.
    pose proof (units_bits_mod [a / 4; a mod 4 * 16] bits bits HR eq_refl) as H. cbn [fold_left] in H.
    change (2 ^ (4 + 8)) with 4096. change (2 ^ 4) with 16. f_equal. zdm.
  - pose proof (sextets_range [a; b] HF) as HR. rewrite !Forall_cons in HF. unfold is_byte in HF. destruct HF as (Ha & Hb & _).
    cbn [sextets] in *. rewrite -(app_nil_r (map b64_unit _)) binary_units_group; [|done|cbn; lia]. cbn [binary_units fst snd length]. rewrite app_nil_r Hflush. f_equal.
    unfold binary_tail. change (3 mod 4)%nat with 3%nat. cbv iota. rewrite (field_of_bits _ 10 8) // (field_of_bits _ 2 8) //.
    pose proof (units_bits_mod _ bits bits HR eq_refl) as H. cbn [fold_left] in H.
    change (2 ^ (10 + 8)) with 262144. change (2 ^ 10) with 1024. change (2 ^ (2 + 8)) with 1024. change (2 ^ 2) with 4.
    unit_eqs.
  - apply Forall_cons in HF as [Ha HF]. apply Forall_cons in HF as [Hb HF]. apply Forall_cons in HF as [Hc HF].
    assert (Forall (λ n, 0 <= n < 64) (sextets3 a b c)) as HR.
    { apply (sextets_range [a; b; c]). by rewrite !Forall_cons. }
    cbn [sextets]. rewrite map_app. unfold sextets3 at 1 3. rewrite binary_units_group; [|done|cbn; lia]. cbn [fst snd].
    change (length (sextets3 a b c ++ sextets rest)) with (4 + length (sextets rest))%nat. rewrite binary_tail4.
    fold (sextets3 a b c). cbn [length]. rewrite -app_assoc IH //; [|by rewrite -Nat.Div0.add_mod_idemp_r Hi].
    rewrite Hflush. f_equal. change ((4 + idx =? 0)%nat) with false. cbv iota.
    rewrite (bytes3_spec _ a b c) //. pose proof (units_bits_mod _ bits bits HR eq_refl) as H.
    rewrite H. unfold sextets3. cbn [fold_left]. unfold is_byte in *. zdm.
Qed.

Lemma bit_length_all s : ∀ n,
  forallb (λ c, (0 <=? map_index c) && (map_index c <=? 64)) s = true →
  bit_length s n = Some (n + 6 * Z.of_nat (length s)).
Proof.
  induction s as [|c s IH]; intros n H; [cbn; f_equal; lia|].
  cbn [forallb] in H. apply andb_true_iff in H as [H0 H]. cbn [bit_length length].
  destruct (Z.ltb_spec 64 (map_index c)); [lia|]. destruct (Z.ltb_spec (map_index c) 0); [lia|].
  rewrite IH //. f_equal. lia.
Qed.

Lemma units_indexed l :
  Forall (λ n, 0 <= n < 64) l → forallb (λ c, (0 <=? map_index c) && (map_index c <=? 64)) (map b64_unit l) = true.
Proof.
  intros HF. apply forallb_forall. intros c Hc. apply in_map_iff in Hc as (x & <- & Hx).
  rewrite Forall_forall in HF. apply list_elem_of_In, HF in Hx. rewrite map_index_unit //. lia.
Qed.

Lemma rfc4648_indexed bs :
  Forall is_byte bs → forallb (λ c, (0 <=? map_index c) && (map_index c <=? 64)) (rfc4648 bs) = true.
Proof.
  induction bs as [|a|a b|a b c rest IH] using triple_ind; intros HF; [done| | |]; cbn [rfc4648]; rewrite forallb_app.
  - by rewrite (units_indexed _ (sextets_range [a] HF)).
  - by rewrite (units_indexed _ (sextets_range [a; b] HF)).
  - apply Forall_cons in HF as [Ha HF]. apply Forall_cons in HF as [Hb HF]. apply Forall_cons in HF as [Hc HF].
    rewrite IH // units_indexed //. apply (sextets_range [a; b; c]). by rewrite !Forall_cons.
Qed.

Lemma represent_rfc4648 bs : Forall is_byte bs → bs ≠ [] → representYamlBinary bs = rfc4648 bs.
Proof.
  intros HF Hne. unfold representYamlBinary. pose proof (represent_from bs 0 0 HF eq_refl (λ _, Hne)) as H.
  by destruct (binary_bytes 0 0 bs).
Qed.

Lemma construct_rfc4648 bs : Forall is_byte bs → bs ≠ [] → constructYamlBinary (rfc4648 bs) = bs.
Proof.
  intros HF Hne. unfold constructYamlBinary. fold keep_unit. rewrite rfc4648_units //.
  pose proof (construct_from bs 0 0 HF eq_refl (λ _, Hne)) as H. rewrite length_map.
  by destruct (binary_units 0 0 _).
Qed.

(** Bytes are written as the standard Base64, which the 32-bit register the loop
    shifts through without ever clearing it does not disturb; the text is
    accepted and read back as the same bytes. *)
Theorem binary_roundtrip bs :
  Forall is_byte bs → bs ≠ [] →
  representYamlBinary bs = rfc4648 bs ∧
  resolveYamlBinary (Some (representYamlBinary bs)) = true ∧
  constructYamlBinary (representYamlBinary bs) = bs.
Proof.
  intros HF Hne. rewrite represent_rfc4648 //. split_and!; [done| |by apply construct_rfc4648].
  unfold resolveYamlBinary. rewrite bit_length_all; [|by apply rfc4648_indexed]. apply Z.eqb_eq.
  rewrite rfc4648_length. zdm.
Qed.

Lemma binary_roundtrip_witness :
  representYamlBinary [255; 254; 253; 0] = #"//79AA==" ∧
  representYamlBinary [255; 254; 253; 0] = rfc4648 [255; 254; 253; 0] ∧
  resolveYamlBinary (Some (representYamlBinary [255; 254; 253; 0])) = true ∧
  constructYamlBinary (representYamlBinary [255; 254; 253; 0]) = [255; 254; 253; 0].
Proof.
  split; [reflexivity|]. apply (binary_roundtrip [255; 254; 253; 0]); [apply byte_check; reflexivity|done].
Defined.

(** No bytes at all become three zero bytes on the way out and on the way in. *)
Theorem empty_binary :
  representYamlBinary [] = #"AAAA" ∧ constructYamlBinary [] = [0; 0; 0] ∧ resolveYamlBinary (Some []) = true.
Proof. split_and!; reflexivity. Qed.

(** ** null, bool, int and merge together *)

(** The texts of the types with finitely many. *)
Lemma null_texts s : resolveYamlNull (Some s) = true → s ∈ [ #"~"; #"null"; #"Null"; #"NULL"].
Proof. cbn. rewrite !orb_true_iff !streq_spec. set_solver. Qed.
Lemma bool_texts s :
  resolveYamlBoolean (Some s) = true → s ∈ [ #"true"; #"True"; #"TRUE"; #"false"; #"False"; #"FALSE"].
Proof. cbn. rewrite !orb_true_iff !andb_true_iff !orb_true_iff !streq_spec. set_solver. Qed.

(** Plain text is resolved by at most one of these types, so the order in which a
    schema tries them does not matter; a truth value or null in any style is read
    back. *)
Theorem plain_scalars s :
  (resolveYamlNull (Some s) = true →
    resolveYamlBoolean (Some s) = false ∧ resolveYamlInteger (Some s) = false ∧ resolveYamlMerge (Some s) = false) ∧
  (resolveYamlBoolean (Some s) = true → resolveYamlInteger (Some s) = false ∧ resolveYamlMerge (Some s) = false) ∧
  (resolveYamlMerge (Some s) = true → resolveYamlInteger (Some s) = false) ∧
  (∀ st, resolveYamlNull (Some (representYamlNull st)) = true) ∧
  (∀ st b, representYamlBoolean st b = Some s → resolveYamlBoolean (Some s) = true ∧ constructYamlBoolean s = b).
Proof.
  split_and!.
  - intros H%null_texts. repeat (apply elem_of_cons in H as [->|H]; [done|]). by apply not_elem_of_nil in H.
  - intros H%bool_texts. repeat (apply elem_of_cons in H as [->|H]; [done|]). by apply not_elem_of_nil in H.
  - cbn. by intros ->%streq_spec.
  - by intros [].
  - by intros [] [] [= <-].
Qed.
