(* ===== verification/YamlSchema.v ===== *)
(** * js-yaml: collection types and schemas

    The types whose nodes are collections (omap, pairs, set), the constructor of
    types, the compilation of a schema from the schemas it includes, and the
    built-in schemas. What a type does with a node is opaque to the schema code:
    its functions are values of a type variable. *)

From S2P Require Import Prelude JsValue.

(** ** omap, pairs and set *)

(** One turn of the loop over the pairs: the keys seen so far. *)
Definition omap_pair (objectKeys : option (list jstr)) (pair : value) : option (list jstr) :=
  keys ← objectKeys;
  match pair with
  | VObj o =>
      match enum_keys o with
      | [k] => if bool_decide (k ∈ keys) then None else Some (keys ++ [k])
      | _ => None
      end
  | _ => None
  end.
Definition resolveYamlOmap (data : option (list value)) : bool :=
  match data with
  | None => true
  | Some l => match fold_left omap_pair l (Some []) with Some _ => true | None => false end
  end.
Definition constructYamlOmap (data : option (list value)) : list value := default [] data.

Definition one_key (pair : value) : bool :=
  match pair with VObj o => (length (enum_keys o) =? 1)%nat | _ => false end.
Definition resolveYamlPairs (data : option (list value)) : bool :=
  match data with None => true | Some l => forallb one_key l end.
Definition construct_pair (pair : value) : res value :=
  match pair with
  | VUndef | VNull => Throw TypeError
  | _ =>
      match (entries pair).*1 with
      | k :: _ => v ← get pair k; Ok (VArr [VStr k; v])
      | [] => v ← get pair #"undefined"; Ok (VArr [VUndef; v])
      end
  end.
Definition constructYamlPairs (data : option (list value)) : res (list value) :=
  match data with None => Ok [] | Some l => map_res construct_pair l end.

Definition is_null (v : value) : bool := match v with VNull => true | _ => false end.
Definition resolveYamlSet (data : option (list (jstr * value))) : bool :=
  match data with None => true | Some o => forallb is_null (enum o).*2 end.
Definition constructYamlSet (data : option (list (jstr * value))) : list (jstr * value) := default [] data.

(** ** Types *)

Section types.
Context {F : Type}.

(** An option of a type: a function (or a table of functions), or data. *)
Inductive option_value := OFun (f : F) | OVal (v : value).

Definition TYPE_CONSTRUCTOR_OPTIONS : list jstr :=
  [ #"kind"; #"resolve"; #"construct"; #"instanceOf"; #"predicate"; #"represent"; #"defaultStyle"; #"styleAliases"].
Definition YAML_NODE_KINDS : list jstr := [ #"scalar"; #"sequence"; #"mapping"].

(** [None] stands for the default: [resolve] accepts, [construct] is the
    identity, the others are [null]. No type has a [loadKind]. *)
Record ytype := {
  tag : jstr;
  kind : jstr;
  resolve : option option_value;
  construct : option option_value;
  instanceOf : option option_value;
  predicate : option option_value;
  represent : option option_value;
  defaultStyle : option option_value;
  styleAliases : list (jstr * jstr);
}.

(** [options[name] || null] *)
Definition opt (options : list (jstr * option_value)) (name : jstr) : option option_value :=
  v ← pget options name;
  match v with OFun _ => Some v | OVal d => if truthy d then Some v else None end.

(** One style of the map: [map[style].forEach]. *)
Definition add_aliases (result : list (jstr * jstr)) (entry : jstr * value) : res (list (jstr * jstr)) :=
  match entry.2 with
  | VArr l => Ok (fold_left (λ r alias, pset (to_string alias) entry.1 r) l result)
  | _ => Throw TypeError
  end.
Definition compileStyleAliases (map : option option_value) : res (list (jstr * jstr)) :=
  match map with
  | None => Ok []
  | Some (OVal v) => if is_object v then fold_res add_aliases (entries v) [] else Throw TypeError
  | Some (OFun _) => Ok []
  end.

(** What the message shows for a kind; how a function prints depends on the
    engine. *)
Variable source : F → jstr.
Definition kind_text (k : option option_value) : jstr :=
  match k with None => #"null" | Some (OVal v) => to_string v | Some (OFun f) => source f end.

Definition quoted (s : jstr) : jstr := [34] ++ s ++ [34].

Definition newType (t : jstr) (options : list (jstr * option_value)) : res ytype :=
  match List.find (λ name, negb (bool_decide (name ∈ TYPE_CONSTRUCTOR_OPTIONS))) (enum_keys options) with
  | Some name =>
      Throw (JsError (#"Unknown option " ++ quoted name ++ #" is met in definition of " ++ quoted t ++ #" YAML type."))
  | None =>
      aliases ← compileStyleAliases (opt options #"styleAliases");
      let unknown := Throw (JsError (#"Unknown kind " ++ quoted (kind_text (opt options #"kind"))
                                     ++ #" is specified for " ++ quoted t ++ #" YAML type.")) in
      match opt options #"kind" with
      | Some (OVal (VStr k)) =>
          if bool_decide (k ∈ YAML_NODE_KINDS)
          then Ok {| tag := t; kind := k; resolve := opt options #"resolve"; construct := opt options #"construct";
                     instanceOf := opt options #"instanceOf"; predicate := opt options #"predicate";
                     represent := opt options #"represent"; defaultStyle := opt options #"defaultStyle";
                     styleAliases := aliases |}
          else unknown
      | _ => unknown
      end
  end.

(** ** Schemas *)

#[local] Unset Elimination Schemes.
Inductive schema := MkSchema (include : list schema) (implicit explicit : list ytype).
#[local] Set Elimination Schemes.

Fixpoint schema_ind (P : schema → Prop)
    (H : ∀ include i e, Forall P include → P (MkSchema include i e)) (s : schema) : P s :=
  match s with
  | MkSchema include i e => H include i e ((fix go l : Forall P l :=
      match l with [] => Forall_nil_2 P | s :: l => Forall_cons_2 P s l (schema_ind P H s) (go l) end) include)
  end.

Inductive list_name := Implicit | Explicit.
Definition own (name : list_name) (s : schema) : list ytype :=
  match s, name with MkSchema _ i _, Implicit => i | MkSchema _ _ e, Explicit => e end.

(** The indices [result.forEach] pushes for a type. *)
Definition same_tag (t : jstr) (result : list ytype) : list nat :=
  omap (λ '(i, p), if streq (tag p) t then Some i else None) (imap pair result).
Definition collect (st : list ytype * list nat) (currentType : ytype) : list ytype * list nat :=
  let '(result, exclude) := st in
  (result ++ [currentType], exclude ++ same_tag (tag currentType) result).
Definition not_excluded (exclude : list nat) (result : list ytype) : list ytype :=
  omap (λ '(i, p), if bool_decide (i ∈ exclude) then None else Some p) (imap pair result).

Fixpoint compileList (s : schema) (name : list_name) (result : list ytype) : list ytype :=
  match s with
  | MkSchema include _ _ =>
      let result := fold_left (λ r included, compileList included name r) include result in
      let '(result, exclude) := fold_left collect (own name s) (result, []) in
      not_excluded exclude result
  end.

Definition compileMap (lists : list (list ytype)) : list (jstr * ytype) :=
  fold_left (λ result types, fold_left (λ r t, pset (tag t) t r) types result) lists [].

Record compiled := {
  compiledImplicit : list ytype;
  compiledExplicit : list ytype;
  compiledTypeMap : list (jstr * ytype);
}.

(** [type.loadKind]: a type has a [kind] and no [loadKind]. *)
Definition loadKind (t : ytype) : value := VUndef.

Definition Schema (include : list schema) (implicit explicit : list ytype) : res (schema * compiled) :=
  if existsb (λ t, truthy (loadKind t) && negb (strict_eq (loadKind t) (VStr #"scalar"))) implicit
  then Throw (JsError #"There is a non-scalar type in the implicit list of a schema. Implicit resolving of such types is not supported.")
  else
    let s := MkSchema include implicit explicit in
    let i := compileList s Implicit [] in
    let e := compileList s Explicit [] in
    Ok (s, {| compiledImplicit := i; compiledExplicit := e; compiledTypeMap := compileMap [i; e] |}).

(** The built-in schemas, of the types the modules under [type/] make. *)
Record builtin_types := {
  t_str : ytype; t_seq : ytype; t_map : ytype;
  t_null : ytype; t_bool : ytype; t_int : ytype; t_float : ytype;
  t_timestamp : ytype; t_merge : ytype;
  t_binary : ytype; t_omap : ytype; t_pairs : ytype; t_set : ytype;
  t_undefined : ytype; t_regexp : ytype; t_function : ytype;
}.
Definition failsafe (t : builtin_types) : schema := MkSchema [] [] [t_str t; t_seq t; t_map t].
Definition json (t : builtin_types) : schema := MkSchema [failsafe t] [t_null t; t_bool t; t_int t; t_float t] [].
Definition core (t : builtin_types) : schema := MkSchema [json t] [] [].
Definition default_safe (t : builtin_types) : schema :=
  MkSchema [core t] [t_timestamp t; t_merge t] [t_binary t; t_omap t; t_pairs t; t_set t].
Definition default_full (t : builtin_types) : schema :=
  MkSchema [default_safe t] [] [t_undefined t; t_regexp t; t_function t].

(** *** Theorems *)

(** The types of a schema, those of the included schemas first. *)
Fixpoint all_types (name : list_name) (s : schema) : list ytype :=
  match s with MkSchema include _ _ => concat (map (all_types name) include) ++ own name s end.

(** A type counts when no later one has its tag. *)
Fixpoint keep_last (l : list ytype) : list ytype :=
  match l with
  | [] => []
  | t :: l => if bool_decide (tag t ∈ map tag l) then keep_last l else t :: keep_last l
  end.

Definition other_tag (t : jstr) (p : ytype) : bool := negb (streq (tag p) t).

Lemma keep_last_snoc l x : keep_last (l ++ [x]) = List.filter (other_tag (tag x)) (keep_last l) ++ [x].
Proof.
  induction l as [|t l IH]; cbn.
  { done. }
  rewrite map_app IH. cbn [map].
  destruct (decide (tag t ∈ map tag l)) as [Hin|Hin].
  { rewrite !bool_decide_eq_true_2 //. apply elem_of_app. by left. }
  rewrite (bool_decide_eq_false_2 (tag t ∈ map tag l)) //. cbn [List.filter]. change (other_tag (tag x) t) with (negb (streq (tag t) (tag x))).
  destruct (streq (tag t) (tag x)) eqn:E.
  - apply streq_spec in E. rewrite bool_decide_eq_true_2; [done|]. apply elem_of_app. right. rewrite E. by left.
  - apply streq_neq in E. rewrite bool_decide_eq_false_2 //. rewrite elem_of_app. intros [H|H]; [done|].
    by apply list_elem_of_singleton in H.
Qed.

(** Dropping earlier types of a tag before or after more are appended. *)
Lemma keep_last_app a b : keep_last (keep_last a ++ b) = keep_last (a ++ b).
Proof.
  induction b as [|x b IH] using rev_ind.
  - rewrite !app_nil_r. induction a as [|t a IH]; [done|]. cbn.
    destruct (bool_decide _) eqn:E; [done|]. cbn. rewrite IH.
    apply bool_decide_eq_false in E. rewrite bool_decide_eq_false_2; [done|]. intros H. apply E.
    clear -H. induction a as [|u a IH]; [done|]. cbn in *. destruct (bool_decide _) eqn:E; [right; by apply IH|].
    cbn in H. apply elem_of_cons in H as [->|H]; [by left|]. right. by apply IH.
  - by rewrite !app_assoc !keep_last_snoc IH.
Qed.

Lemma keep_last_tags l : NoDup (map tag (keep_last l)) ∧ ∀ t, t ∈ map tag (keep_last l) ↔ t ∈ map tag l.
Proof.
  induction l as [|x l [IH1 IH2]]; [split; [constructor|done]|]. cbn.
  destruct (decide (tag x ∈ map tag l)) as [Hin|Hin].
  - rewrite bool_decide_eq_true_2 //. split; [done|]. intros t. rewrite IH2 elem_of_cons. naive_solver.
  - rewrite bool_decide_eq_false_2 //. cbn. split; [constructor; [by rewrite IH2|done]|].
    intros t. by rewrite !elem_of_cons IH2.
Qed.

(** The excluded indices. *)
Lemma elem_of_indexed i p (l : list ytype) : (i, p) ∈ imap pair l ↔ l !! i = Some p.
Proof.
  rewrite list_elem_of_lookup. split.
  - intros [j Hj]. rewrite list_lookup_imap in Hj. destruct (l !! j) eqn:E; cbn in Hj; by simplify_eq.
  - intros H. exists i. by rewrite list_lookup_imap H.
Qed.

Lemma same_tag_in t i l : i ∈ same_tag t l ↔ ∃ p, l !! i = Some p ∧ tag p = t.
Proof.
  unfold same_tag. rewrite list_elem_of_omap. split.
  - intros ([j p] & Hin & H). destruct (streq (tag p) t) eqn:E; [|done]. apply streq_spec in E. simplify_eq.
    exists p. split; [|done]. by apply elem_of_indexed.
  - intros (p & Hp & <-). exists (i, p). split; [by apply elem_of_indexed|]. by rewrite streq_refl.
Qed.

Lemma not_excluded_cases (t : jstr) (f g : nat * ytype → option ytype) L :
  (∀ i p, (i, p) ∈ L → f (i, p) = if streq (tag p) t then None else g (i, p)) →
  (∀ i p q, (i, p) ∈ L → g (i, p) = Some q → q = p) →
  omap f L = List.filter (other_tag t) (omap g L).
Proof.
  induction L as [|[i p] L IH]; intros Hf Hg; [done|]. cbn.
  rewrite (Hf i p); [|by left]. rewrite IH; [|intros; apply Hf; by right|intros; eapply Hg; [by right|done]].
  destruct (g (i, p)) as [q|] eqn:E.
  - apply Hg in E as ->; [|by left]. cbn. change (other_tag t p) with (negb (streq (tag p) t)). by destruct (streq (tag p) t).
  - by destruct (streq (tag p) t).
Qed.

Lemma not_excluded_snoc ex l x :
  (∀ i, i ∈ ex → (i < length l)%nat) →
  not_excluded (ex ++ same_tag (tag x) l) (l ++ [x]) =
  List.filter (other_tag (tag x)) (not_excluded ex l) ++ [x].
Proof.
  intros Hex. unfold not_excluded. rewrite imap_app omap_app. f_equal.
  - apply not_excluded_cases.
    + intros i p Hin. apply elem_of_indexed in Hin. destruct (streq (tag p) (tag x)) eqn:E.
      * apply streq_spec in E. rewrite bool_decide_eq_true_2; [done|]. apply elem_of_app. right.
        apply same_tag_in. eauto.
      * apply streq_neq in E. rewrite (bool_decide_ext (i ∈ ex ++ _) (i ∈ ex)); [done|].
        rewrite elem_of_app same_tag_in. split; [|by left]. intros [H|(q & Hq & Ht)]; [done|].
        rewrite Hq in Hin. by simplify_eq.
    + intros i p q _ H. destruct (bool_decide _); by simplify_eq.
  - cbn. rewrite Nat.add_0_r bool_decide_eq_false_2; [done|]. rewrite elem_of_app. intros [H|H].
    + apply Hex in H. lia.
    + apply same_tag_in in H as (p & Hp & _). apply lookup_lt_Some in Hp. lia.
Qed.

Lemma collect_spec l r :
  keep_last r = r →
  let '(result, exclude) := fold_left collect l (r, []) in
  result = r ++ l ∧ (∀ i, i ∈ exclude → (i < length result)%nat) ∧ not_excluded exclude result = keep_last (r ++ l).
Proof.
  intros Hr. induction l as [|x l IH] using rev_ind.
  - cbn. rewrite app_nil_r. split_and!; [done|by intros i ?%not_elem_of_nil|]. rewrite Hr.
    unfold not_excluded. clear. apply list_eq. intros i. revert i.
    assert (∀ k, omap (λ '(i, p), if bool_decide (i ∈ []) then None else Some p) (imap (λ i p, (k + i, p)%nat) r) = r) as H.
    { induction r as [|x r IH]; intros k; [done|]. cbn. f_equal. specialize (IH (S k)).
      etrans; [|exact IH]. f_equal. apply imap_ext. intros i y _. cbn. f_equal. lia. }
    intros i. by rewrite (H 0%nat).
  - rewrite fold_left_app. destruct (fold_left collect l (r, [])) as [result exclude].
    destruct IH as (-> & Hex & IH). cbn. rewrite app_assoc not_excluded_snoc // keep_last_snoc IH.
    split_and!; [done| |done]. intros i Hi. rewrite length_app. cbn. apply elem_of_app in Hi as [Hi|Hi].
    + apply Hex in Hi. lia.
    + apply same_tag_in in Hi as (p & Hp & _). apply lookup_lt_Some in Hp. lia.
Qed.

Lemma keep_last_idem l : keep_last (keep_last l) = keep_last l.
Proof. pose proof (keep_last_app l []) as H. by rewrite !app_nil_r in H. Qed.

Lemma compileList_spec s name : ∀ r, keep_last r = r → compileList s name r = keep_last (r ++ all_types name s).
Proof.
  induction s as [include i e IH] using schema_ind. intros r Hr. cbn [compileList all_types].
  assert (fold_left (λ r included, compileList included name r) include r
          = keep_last (r ++ concat (map (all_types name) include))) as ->.
  { revert r Hr. induction IH as [|s l Hs _ IHl]; intros r Hr; cbn; [by rewrite app_nil_r|].
    rewrite Hs // IHl; [|apply keep_last_idem]. by rewrite keep_last_app app_assoc. }
  pose proof (collect_spec (own name (MkSchema include i e))
    (keep_last (r ++ concat (map (all_types name) include))) (keep_last_idem _)) as H.
  destruct (fold_left collect _ _) as [result exclude]. destruct H as (_ & _ & ->).
  by rewrite keep_last_app app_assoc.
Qed.

(** The last type of a tag. *)
Definition last_with (k : jstr) (l : list ytype) : option ytype :=
  fold_left (λ r t, if streq (tag t) k then Some t else r) l None.

Lemma last_with_snoc k l x : last_with k (l ++ [x]) = if streq (tag x) k then Some x else last_with k l.
Proof. unfold last_with. by rewrite fold_left_app. Qed.

Lemma last_with_filter k l u : u ≠ k → last_with k (List.filter (other_tag u) l) = last_with k l.
Proof.
  intros Hu. induction l as [|x l IH] using rev_ind; [done|]. rewrite List.filter_app last_with_snoc. cbn.
  change (other_tag u x) with (negb (streq (tag x) u)).
  destruct (streq (tag x) u) eqn:E; cbn.
  - apply streq_spec in E. rewrite app_nil_r IH. rewrite (proj2 (streq_neq (tag x) k)) //. by rewrite E.
  - by rewrite last_with_snoc IH.
Qed.

Lemma last_with_keep_last k l : last_with k (keep_last l) = last_with k l.
Proof.
  induction l as [|x l IH] using rev_ind; [done|]. rewrite keep_last_snoc !last_with_snoc.
  destruct (streq (tag x) k) eqn:E; [done|]. rewrite last_with_filter; [done|]. by apply streq_neq.
Qed.

Lemma compileMap_list l : ∀ r k,
  pget (fold_left (λ r t, pset (tag t) t r) l r) k = match last_with k l with Some t => Some t | None => pget r k end.
Proof.
  induction l as [|x l IH] using rev_ind; intros r k; [done|]. rewrite fold_left_app last_with_snoc. cbn.
  rewrite pget_pset IH. by destruct (streq (tag x) k).
Qed.

Lemma keep_last_Forall P l : Forall P l → Forall P (keep_last l).
Proof. induction 1 as [|t l Ht Hl IH]; [done|]. cbn. destruct (bool_decide _); [done|]. by constructor. Qed.

(** (C38) Compiling a schema whose implicit types, its own and those of the
    schemas it includes, are of the kind [scalar] succeeds, and its compiled
    implicit types are all of that kind. Each of its compiled lists is that of
    its types, those of the included schemas first, without the types a later one
    of the same tag replaces; the map has for a tag the last explicit type, or
    else the last implicit one. A schema with another kind among its implicit types is meant
    to be refused and is not ([non_scalar_implicit]). *)
Theorem schema_compiled include implicit explicit :
  Forall (λ t, kind t = #"scalar") (all_types Implicit (MkSchema include implicit explicit)) →
  ∃ s c, Schema include implicit explicit = Ok (s, c) ∧
    Forall (λ t, kind t = #"scalar") (compiledImplicit c) ∧
    compiledImplicit c = keep_last (all_types Implicit s) ∧
    compiledExplicit c = keep_last (all_types Explicit s) ∧
    NoDup (map tag (compiledImplicit c)) ∧ NoDup (map tag (compiledExplicit c)) ∧
    ∀ k, pget (compiledTypeMap c) k =
      match last_with k (all_types Explicit s) with
      | Some t => Some t
      | None => last_with k (all_types Implicit s)
      end.
Proof.
  set (s := MkSchema include implicit explicit). intros Hk. unfold Schema.
  assert (existsb (λ t, truthy (loadKind t) && negb (strict_eq (loadKind t) (VStr #"scalar"))) implicit = false) as ->.
  { apply not_true_is_false. intros H. apply existsb_exists in H as (t & _ & H). done. }
  eexists s, _. split; [done|]. cbn [compiledImplicit compiledExplicit compiledTypeMap].
  rewrite !(compileList_spec s _ [] eq_refl). cbn [app].
  split_and!; [by apply keep_last_Forall|done|done|apply keep_last_tags..|].
  intros k. cbn [compileMap fold_left]. rewrite !compileMap_list !last_with_keep_last.
  cbn [pget]. by destruct (last_with k (all_types Implicit s)).
Qed.

Lemma keep_last_nodup l : NoDup (map tag l) → keep_last l = l.
Proof.
  induction l as [|t l IH]; [done|]. cbn. intros H. inversion H; subst. rewrite bool_decide_eq_false_2 //. by rewrite IH.
Qed.

(** With distinct tags the default schemas resolve plain scalars in the order of
    the included schemas: null, bool, int, float, timestamp, merge. *)
Lemma default_lists (t : builtin_types) :
  NoDup (map tag (all_types Implicit (default_full t) ++ all_types Explicit (default_full t))) →
  compileList (default_full t) Implicit [] = [t_null t; t_bool t; t_int t; t_float t; t_timestamp t; t_merge t] ∧
  compileList (default_full t) Explicit [] =
    [t_str t; t_seq t; t_map t; t_binary t; t_omap t; t_pairs t; t_set t; t_undefined t; t_regexp t; t_function t] ∧
  compileList (default_safe t) Implicit [] = compileList (default_full t) Implicit [].
Proof.
  intros H. rewrite map_app in H. apply NoDup_app in H as (Hi & _ & He). rewrite !compileList_spec //. cbn [app].
  change (all_types Implicit (default_safe t)) with (all_types Implicit (default_full t)).
  by rewrite !keep_last_nodup.
Qed.

(** ** Constructing a type *)

(** A type is made exactly when all option names are known, the aliases are
    lists and the kind is one of the three. *)
Theorem newType_spec t options ty :
  newType t options = Ok ty ↔
  (∀ name, name ∈ options.*1 → name ∈ TYPE_CONSTRUCTOR_OPTIONS) ∧
  ∃ k aliases, opt options #"kind" = Some (OVal (VStr k)) ∧ k ∈ YAML_NODE_KINDS ∧
    compileStyleAliases (opt options #"styleAliases") = Ok aliases ∧
    ty = {| tag := t; kind := k; resolve := opt options #"resolve"; construct := opt options #"construct";
            instanceOf := opt options #"instanceOf"; predicate := opt options #"predicate";
            represent := opt options #"represent"; defaultStyle := opt options #"defaultStyle";
            styleAliases := aliases |}.
Proof.
  unfold newType. destruct (List.find _ _) as [name|] eqn:E.
  - split; [done|]. intros [H _]. apply find_some in E as [Hin Hn]. apply negb_true_iff, bool_decide_eq_false in Hn.
    destruct Hn. apply H. apply list_elem_of_In in Hin. unfold enum_keys in Hin. by rewrite enum_perm in Hin.
  - assert (∀ name, name ∈ options.*1 → name ∈ TYPE_CONSTRUCTOR_OPTIONS) as Hknown.
    { intros name Hin. rewrite -(enum_perm options) in Hin. apply list_elem_of_In in Hin.
      apply (find_none _ _ E), negb_false_iff, bool_decide_eq_true in Hin. done. }
    destruct (compileStyleAliases _) as [aliases|ex]; cbn.
    + destruct (opt options #"kind") as [[f|[]]|] eqn:Ek; cbn; try (split; [done|naive_solver]).
      destruct (bool_decide (s ∈ YAML_NODE_KINDS)) eqn:Ed.
      * apply bool_decide_eq_true in Ed. split; [intros [= <-]; eauto 10|].
        intros (_ & k & al & [= <-] & _ & [= <-] & ->). done.
      * apply bool_decide_eq_false in Ed. split; [done|]. naive_solver.
    + split; [done|]. naive_solver.
Qed.
End types.

Lemma schema_compiled_witness :
  let ty (t k : jstr) : ytype (F:=unit) :=
    {| tag := t; kind := k; resolve := None; construct := None; instanceOf := None; predicate := None;
       represent := None; defaultStyle := None; styleAliases := [] |} in
  let base := MkSchema [] [ty #"!int" #"scalar"] [ty #"!map" #"mapping"] in
  ∃ s c, Schema [base] [ty #"!int" #"scalar"; ty #"!bool" #"scalar"] [ty #"!map" #"mapping"] = Ok (s, c) ∧
    Forall (λ t, kind t = #"scalar") (compiledImplicit c) ∧
    compiledImplicit c = keep_last (all_types Implicit s) ∧
    compiledExplicit c = keep_last (all_types Explicit s) ∧
    NoDup (map tag (compiledImplicit c)) ∧ NoDup (map tag (compiledExplicit c)) ∧
    ∀ k, pget (compiledTypeMap c) k =
      match last_with k (all_types Explicit s) with
      | Some t => Some t
      | None => last_with k (all_types Implicit s)
      end.
Proof. intros ty base. apply (schema_compiled (F:=unit)). by repeat constructor. Defined.

(** A type of another kind is accepted in the implicit list: the guard reads
    [loadKind], which no type has. *)
Theorem non_scalar_implicit (f : unit) :
  ∃ ty, newType (F:=unit) (λ _, []) #"!list" [(#"kind", OVal (VStr #"sequence"))] = Ok ty ∧
    kind ty = #"sequence" ∧ is_ok (Schema [] [ty] []) = true.
Proof. eexists. split_and!; reflexivity. Qed.

(** ** Collections *)

(** The nodes of one key. *)
Definition singleton_obj (p : jstr * value) : value := VObj [p].

Lemma enum_singleton {V} (o : list (jstr * V)) k : enum_keys o = [k] ↔ ∃ v, o = [(k, v)].
Proof.
  unfold enum_keys. split.
  - intros H. pose proof (enum_perm o) as Hp. destruct (enum o) as [|p [|]]; [done| |done].
    apply Permutation_singleton_l in Hp. destruct p as [k' v]. cbn in H. simplify_eq. eauto.
  - intros [v ->]. pose proof (enum_perm [(k, v)]) as Hp. apply Permutation_singleton_r in Hp. by rewrite Hp.
Qed.

Lemma omap_loop l : ∀ keys ks,
  fold_left omap_pair l (Some keys) = Some ks ↔
  ∃ kvs, l = map singleton_obj kvs ∧ ks = keys ++ kvs.*1 ∧ NoDup kvs.*1 ∧ ∀ k, k ∈ kvs.*1 → k ∉ keys.
Proof.
  assert (∀ l, fold_left omap_pair l None = None) as HN by (clear; by induction l).
  induction l as [|p l IH]; intros keys ks; cbn [fold_left].
  { split.
    - intros [= <-]. exists []. cbn. rewrite app_nil_r. split_and!; [done|done|constructor|by intros k ?%not_elem_of_nil].
    - intros ([|] & [=] & -> & _). cbn. by rewrite app_nil_r. }
  assert (omap_pair (Some keys) p = None → (∀ k v, p = singleton_obj (k, v) → k ∈ keys) →
    fold_left omap_pair l (omap_pair (Some keys) p) = Some ks ↔
    ∃ kvs, p :: l = map singleton_obj kvs ∧ ks = keys ++ kvs.*1 ∧ NoDup kvs.*1 ∧ ∀ k, k ∈ kvs.*1 → k ∉ keys) as Hfail.
  { intros -> Hk. rewrite HN. split; [done|]. intros ([|[k v] kvs] & [= Hp _] & _ & _ & Hnot).
    destruct (Hnot k ltac:(by left)). by apply (Hk k v). }
  destruct p; try (by apply Hfail; [|intros k v [=]]).
  destruct (enum_keys o) as [|k [|]] eqn:E;
    try (apply Hfail; [cbn; by rewrite E|intros k0 v0 [= ->];
      by rewrite (proj2 (enum_singleton [(k0, v0)] k0) ltac:(eauto)) in E]).
  destruct (decide (k ∈ keys)) as [Hin|Hin].
  { apply Hfail; [cbn; by rewrite E bool_decide_eq_true_2|]. intros k0 v0 [= ->].
    apply enum_singleton in E as [v [= -> ->]]. done. }
  cbn [omap_pair]. cbn. rewrite E bool_decide_eq_false_2 // IH. apply enum_singleton in E as [v ->].
  split.
  - intros (kvs & -> & -> & Hnd & Hnot). exists ((k, v) :: kvs). cbn. split_and!; [done|by rewrite -app_assoc| |].
    + constructor; [|done]. intros H. apply (Hnot k H). apply elem_of_app. right. by left.
    + intros k' [->|H]%elem_of_cons; [done|]. intros H'. apply (Hnot k' H). apply elem_of_app. by left.
  - intros ([|[k0 v0] kvs] & [= <- <- ->] & -> & Hnd & Hnot). cbn in Hnd, Hnot. inversion Hnd as [|? ? Hk0 Hnd']; subst.
    exists kvs. cbn. rewrite -app_assoc. split_and!; [done..|]. intros k' Hk' [H|H]%elem_of_app.
    + apply (Hnot k'); [by right|done].
    + apply list_elem_of_singleton in H. by subst.
Qed.

(** A sequence is an ordered map when it is a list of one-key mappings with
    different keys, and pairs when it is one of one-key mappings; pairs become
    lists of key and value. *)
Theorem omap_pairs_spec (l : list value) :
  (resolveYamlOmap (Some l) = true ↔ ∃ kvs, l = map singleton_obj kvs ∧ NoDup kvs.*1) ∧
  (resolveYamlPairs (Some l) = true ↔ ∃ kvs, l = map singleton_obj kvs) ∧
  (resolveYamlOmap (Some l) = true → resolveYamlPairs (Some l) = true) ∧
  (∀ kvs, l = map singleton_obj kvs →
    constructYamlPairs (Some l) = Ok (map (λ '(k, v), VArr [VStr k; v]) kvs)).
Proof.
  assert (resolveYamlOmap (Some l) = true ↔ ∃ kvs, l = map singleton_obj kvs ∧ NoDup kvs.*1) as Homap.
  { unfold resolveYamlOmap. destruct (fold_left omap_pair l (Some [])) as [ks|] eqn:E.
    - apply omap_loop in E as (kvs & -> & _ & Hnd & _). split; [|done]. intros _. eauto.
    - split; [done|]. intros (kvs & Hl & Hnd). exfalso.
      assert (fold_left omap_pair l (Some []) = Some ([] ++ kvs.*1)) as H; [|congruence].
      apply omap_loop. exists kvs. split_and!; [done..|]. intros k _. apply not_elem_of_nil. }
  assert (resolveYamlPairs (Some l) = true ↔ ∃ kvs, l = map singleton_obj kvs) as Hpairs.
  { cbn. clear. induction l as [|p l IH]; cbn; [split; [by exists []|done]|]. rewrite andb_true_iff IH. split.
    - intros [Hp [kvs ->]]. destruct p; try done. cbn in Hp. apply Nat.eqb_eq in Hp.
      destruct (enum_keys o) as [|k [|]] eqn:E; try done. apply enum_singleton in E as [v ->]. by exists ((k, v) :: kvs).
    - intros ([|[k v] kvs] & [= -> ->]). split; [|eauto]. unfold one_key, singleton_obj.
      by rewrite (proj2 (enum_singleton [(k, v)] k) ltac:(eauto)). }
  split_and!; [done|done|rewrite Homap Hpairs; naive_solver|].
  clear. intros kvs ->. cbn. induction kvs as [|[k v] kvs IH]; [done|]. cbn [map map_res].
  assert (construct_pair (singleton_obj (k, v)) = Ok (VArr [VStr k; v])) as ->.
  { unfold construct_pair, singleton_obj. change (entries (VObj [(k, v)])).*1 with (enum_keys [(k, v)]).
    rewrite (proj2 (enum_singleton [(k, v)] k) ltac:(eauto)). cbn. by rewrite streq_refl. }
  cbn. by rewrite IH.
Qed.
