(* ===== verification/YamlMark.v ===== *)
(** * js-yaml: marks

    [Mark], the place in the source an error is about, and the excerpt its message
    shows: the line of the place, cut on both sides when it is long, with a caret
    below the place. Lengths are exact: the source halves [maxLength], an odd one
    gives a half-integral bound, so the tests are doubled here. *)

From S2P Require Import Prelude.

Record Mark := {
  name : jstr;
  buffer : jstr;
  position : nat;
  line : Z;
  column : Z;
}.

(** [repeat(' ', count)] *)
Definition spaces (count : Z) : jstr := replicate (Z.to_nat count) 32.

Definition is_break (c : Z) : bool := has c [0; 13; 10; 133; 8232; 8233].
(** ['...'.indexOf(buffer.charAt(i)) !== -1]: the empty string is found as well. *)
Definition stops (buffer : jstr) (i : nat) : bool :=
  match buffer !! i with Some c => is_break c | None => true end.

Definition dots : jstr := #" ... ".

(** The first loop, from [start] on: [head] and the last [start]. *)
Fixpoint head_loop (buffer : jstr) (position : nat) (maxLength : Z) (start : nat) : jstr * Z :=
  match start with
  | O => ([], 0)
  | S s =>
      if stops buffer s then ([], Z.of_nat start)
      else if maxLength <? 2 * (Z.of_nat position - Z.of_nat s) + 2 then (dots, Z.of_nat s + 5)
      else head_loop buffer position maxLength s
  end.

(** The second loop; [more] counts the units left. *)
Fixpoint tail_loop (buffer : jstr) (position : nat) (maxLength : Z) (more fin : nat) : jstr * Z :=
  match more with
  | O => ([], Z.of_nat fin)
  | S more =>
      if stops buffer fin then ([], Z.of_nat fin)
      else if maxLength <? 2 * (Z.of_nat (S fin) - Z.of_nat position) + 2 then (dots, Z.of_nat (S fin) - 5)
      else tail_loop buffer position maxLength more (S fin)
  end.

(** [s.slice(a, b)] *)
Definition slice_index (len a : Z) : Z := if a <? 0 then Z.max 0 (len + a) else Z.min a len.
Definition str_slice (s : jstr) (a b : Z) : jstr :=
  let len := Z.of_nat (length s) in
  let from := Z.to_nat (slice_index len a) in
  take (Z.to_nat (slice_index len b) - from) (drop from s).

Definition getSnippet (m : Mark) (indent maxLength : Z) : option jstr :=
  if streq (buffer m) [] then None
  else
    let indent := if indent =? 0 then 4 else indent in
    let maxLength := if maxLength =? 0 then 75 else maxLength in
    let '(head, start) := head_loop (buffer m) (position m) maxLength (position m) in
    let '(tail, fin) := tail_loop (buffer m) (position m) maxLength (length (buffer m) - position m) (position m) in
    Some (spaces indent ++ head ++ str_slice (buffer m) start fin ++ tail ++ [10]
          ++ spaces (indent + Z.of_nat (position m) - start + Z.of_nat (length head)) ++ #"^").

(** [undefined] arguments, as [toString] leaves them, count as 0. *)
Definition Mark_toString (m : Mark) (compact : bool) : jstr :=
  (if streq (name m) [] then [] else #"in " ++ [34] ++ name m ++ [34] ++ #" ")
  ++ #"at line " ++ str_of_Z (line m + 1) ++ #", column " ++ str_of_Z (column m + 1)
  ++ (if compact then [] else match getSnippet m 0 0 with Some s => #":" ++ [10] ++ s | None => [] end).

(** ** Theorems *)

(** The units from [a] to [b] are on one line. *)
Definition one_line (s : jstr) (a b : Z) : Prop :=
  ∀ i, a <= Z.of_nat i < b → ∃ c, s !! i = Some c ∧ is_break c = false.

Lemma stops_false s i : stops s i = false → ∃ c, s !! i = Some c ∧ is_break c = false.
Proof. unfold stops. destruct (s !! i); [eauto|done]. Qed.

Lemma head_loop_spec s pos maxLength start :
  (start <= pos)%nat → 10 <= maxLength → 2 * (Z.of_nat pos - Z.of_nat start) + 2 <= maxLength →
  one_line s (Z.of_nat start) (Z.of_nat pos) →
  ∀ h st, head_loop s pos maxLength start = (h, st) →
  (h = [] ∨ h = dots) ∧ 0 <= st <= Z.of_nat pos ∧ one_line s st (Z.of_nat pos) ∧
  2 * (Z.of_nat (length h) + (Z.of_nat pos - st)) <= maxLength.
Proof.
  induction start as [|k IH]; intros Hle Hmax Hd Hline h st; cbn [head_loop].
  { intros [= <- <-]. cbn. split_and!; [by left|lia..|done|lia]. }
  destruct (stops s k) eqn:Hs.
  { intros [= <- <-]. cbn [length]. split_and!; [by left|lia..|done|lia]. }
  assert (one_line s (Z.of_nat k) (Z.of_nat pos)) as Hline'.
  { intros i Hi. destruct (decide (i = k)) as [->|]; [by apply stops_false|]. apply Hline. lia. }
  case_if.
  - intros [= <- <-]. change (Z.of_nat (length dots)) with 5. split_and!; [by right|lia..| |lia].
    intros i Hi. apply Hline'. lia.
  - apply IH; [lia|done|lia|done].
Qed.

Lemma tail_loop_spec s pos maxLength more : ∀ fin,
  (pos <= fin)%nat → (fin + more = length s)%nat → 12 <= maxLength →
  2 * (Z.of_nat fin - Z.of_nat pos) + 2 <= maxLength → one_line s (Z.of_nat pos) (Z.of_nat fin) →
  ∀ t e, tail_loop s pos maxLength more fin = (t, e) →
  (t = [] ∨ t = dots) ∧ Z.of_nat pos <= e <= Z.of_nat (length s) ∧ one_line s (Z.of_nat pos) e ∧
  2 * (Z.of_nat (length t) + (e - Z.of_nat pos)) <= maxLength ∧
  (Z.of_nat pos = e → t = [] ∧ stops s pos = true).
Proof.
  induction more as [|more IH]; intros fin Hle Hlen Hmax Hd Hline t e; cbn [tail_loop].
  { intros [= <- <-]. cbn. split_and!; [by left|lia..|done|lia|]. intros He. split; [done|]. unfold stops.
    rewrite lookup_ge_None_2; [done|lia]. }
  destruct (stops s fin) eqn:Hs.
  { intros [= <- <-]. cbn [length]. split_and!; [by left|lia..|done|lia|]. intros He. split; [done|].
    by replace pos with fin by lia. }
  assert (one_line s (Z.of_nat pos) (Z.of_nat (S fin))) as Hline'.
  { intros i Hi. destruct (decide (i = fin)) as [->|]; [by apply stops_false|]. apply Hline. lia. }
  case_if.
  - intros [= <- <-]. change (Z.of_nat (length dots)) with 5. apply Z.ltb_lt in Heqb. split_and!; [by right|lia|cbn in Hlen; lia| |lia|intros ?; exfalso; lia].
    intros i Hi. apply Hline'. lia.
  - apply Z.ltb_ge in Heqb. apply IH; [lia|lia|done|lia|done].
Qed.

Lemma str_slice_spec s a b :
  0 <= a <= b → b <= Z.of_nat (length s) →
  str_slice s a b = take (Z.to_nat b - Z.to_nat a) (drop (Z.to_nat a) s) ∧ Z.of_nat (length (str_slice s a b)) = b - a.
Proof.
  intros Ha Hb. unfold str_slice, slice_index. destruct (Z.ltb_spec a 0); [lia|]. destruct (Z.ltb_spec b 0); [lia|].
  rewrite !Z.min_l; [|lia..]. split; [done|]. rewrite length_take length_drop. lia.
Qed.

Lemma slice_lookup s a b i :
  0 <= a <= b → b <= Z.of_nat (length s) → (Z.of_nat i < b - a) → str_slice s a b !! i = s !! (Z.to_nat a + i)%nat.
Proof.
  intros Ha Hb Hi. destruct (str_slice_spec s a b Ha Hb) as [-> _]. rewrite lookup_take_lt; [|lia]. by rewrite lookup_drop.
Qed.

(** (C39) The message shows one line that is no longer than asked for, and a caret in
    the column of the place: below its unit, or past the end of the line when the
    place is a line break or the end of the source. *)
Theorem snippet_spec m indent maxLength :
  buffer m ≠ [] → (position m <= length (buffer m))%nat → 0 < indent → 12 <= maxLength →
  ∃ text col, getSnippet m indent maxLength = Some (text ++ [10] ++ replicate col 32 ++ #"^") ∧
    Forall (λ c, is_break c = false) text ∧ Z.of_nat (length text) <= indent + maxLength ∧
    if stops (buffer m) (position m) then col = length text else text !! col = buffer m !! position m.
Proof.
  intros Hne Hpos Hin Hmax. unfold getSnippet. rewrite (proj2 (streq_neq _ _) Hne).
  destruct (Z.eqb_spec indent 0); [lia|]. destruct (Z.eqb_spec maxLength 0); [lia|].
  assert (one_line (buffer m) (Z.of_nat (position m)) (Z.of_nat (position m))) as H0 by (intros i Hi; lia).
  destruct (head_loop _ _ _ _) as [h st] eqn:Eh.
  apply head_loop_spec in Eh as (Hh & Hst & Hl & Hhl); [|lia..|done].
  destruct (tail_loop _ _ _ _ _) as [t e] eqn:Et.
  apply tail_loop_spec in Et as (Ht & He & Hr & Htl & Hend); [|lia..|done].
  destruct (str_slice_spec (buffer m) st e ltac:(lia) ltac:(lia)) as [_ Hlen].
  set (sn := str_slice (buffer m) st e) in *.
  exists (spaces indent ++ h ++ sn ++ t), (Z.to_nat (indent + Z.of_nat (position m) - st + Z.of_nat (length h))).
  assert (length (spaces indent) = Z.to_nat indent) as Hsp by apply length_replicate.
  split_and!.
  - by rewrite -!app_assoc.
  - assert (Forall (λ c, is_break c = false) h ∧ Forall (λ c, is_break c = false) t) as [Fh Ft].
    { split; [destruct Hh as [->| ->]|destruct Ht as [->| ->]]; by repeat constructor. }
    rewrite !Forall_app. split_and!; [|done| |done].
    + apply Forall_replicate. done.
    + apply Forall_lookup_2. intros i c Hi. assert (Z.of_nat i < e - st) as Hie.
      { apply lookup_lt_Some in Hi. lia. }
      unfold sn in Hi. rewrite slice_lookup in Hi; [|lia..].
      destruct (decide (Z.of_nat (Z.to_nat st + i) < Z.of_nat (position m))).
      * destruct (Hl (Z.to_nat st + i)%nat) as (c' & Hc & Hb); [lia|]. rewrite Hi in Hc. by simplify_eq.
      * destruct (Hr (Z.to_nat st + i)%nat) as (c' & Hc & Hb); [lia|]. rewrite Hi in Hc. by simplify_eq.
  - rewrite !length_app Hsp. lia.
  - destruct (Z.eq_dec (Z.of_nat (position m)) e) as [E|E].
    + destruct (Hend E) as [-> ->]. rewrite !length_app Hsp. cbn. lia.
    + destruct (Hr (position m)) as (c & Hc & Hb); [lia|]. unfold stops. rewrite Hc Hb.
      rewrite lookup_app_r; [|lia]. rewrite lookup_app_r; [|lia]. rewrite lookup_app_l; [|lia].
      unfold sn. rewrite slice_lookup; [|lia..]. rewrite -Hc. f_equal. lia.
Qed.

Definition sample_mark : Mark :=
  {| name := []; buffer := #"a: b" ++ [10] ++ #"c: [d" ++ [0]; position := 8; line := 1; column := 3 |}.

Lemma snippet_spec_witness :
  getSnippet sample_mark 4 75 = Some (#"    c: [d" ++ [10] ++ #"       ^") ∧
  ∃ text col, getSnippet sample_mark 4 75 = Some (text ++ [10] ++ replicate col 32 ++ #"^") ∧
    Forall (λ c, is_break c = false) text ∧ Z.of_nat (length text) <= 4 + 75 ∧
    if stops (buffer sample_mark) (position sample_mark) then col = length text
    else text !! col = buffer sample_mark !! position sample_mark.
Proof.
  split; [reflexivity|]. apply (snippet_spec sample_mark 4 75); [done|vm_compute; lia|lia|lia].
Defined.
