(* ===== verification/Promise.v ===== *)
(** * Q: promises

    The core of the bundled promise library: deferred, fulfilled and rejected
    promises, [then], progress, the tracking of unhandled rejections, and the
    queue of tasks [nextTick] fills and [flush] empties.

    Promises are numbers, indices of the heap. The closures [then] creates are
    named by the number of the call, so a message, a task or a listener is a piece
    of data. User code is a parameter, [handler]: given everything that was called
    before, the number of a handler and its argument, it says what the handler does
    with promises and how it ends; it reaches a promise only by the operations of
    the library. Foreign thenables and the messages other than "when" are not
    modelled, nor are long stack traces and the reports to [process]. *)

From S2P Require Import Prelude JsValue.

Inductive val := VProm (p : nat) | VData (d : value).

(** A message a promise is sent with the operation "when": from the first or the
    second call of [promiseDispatch] in the [then] of that number. *)
Inductive msg := MWhen (t : nat) | MProgress (t : nat).

Inductive pcell :=
  | Pending (messages : list msg) (progressListeners : list nat)
  | Resolved (resolvedPromise : nat)
  | Fulfilled (v : val)
  | Rejected (reason : val).

Inductive task :=
  | TThen (t : nat)
  | TDispatch (p : nat) (m : msg)
  | TProgress (t : nat) (v : val).

(** A call of [then]: its receiver, the deferred it makes, the three callbacks
    and the variable [done]. *)
Record then_call := {
  t_self : nat;
  t_deferred : nat;
  t_fulfilled : option nat;
  t_rejected : option nat;
  t_progressed : option nat;
  t_done : bool;
}.

Inductive kind := KFulfilled | KRejected | KProgressed.
Inductive ending := Return (v : val) | Raise (e : val).

(** A call of a handler of [then]. *)
Record handler_call := { c_then : nat; c_kind : kind; c_handler : nat; c_arg : val; c_out : ending }.

(** What user code does: make a deferred, use one (by its number among those it
    made), make a settled promise, observe a promise. *)
Inductive action :=
  | ADefer
  | AResolve (i : nat) (v : val)
  | AFulfill (i : nat) (v : val)
  | AReject (i : nat) (v : val)
  | ANotify (i : nat) (v : val)
  | AMake (v : val)
  | AMakeRejected (v : val)
  | AThen (p : nat) (fulfilled rejected progressed : option nat).

Record state := {
  heap : list pcell;
  thens : list then_call;
  queue : list task;
  flushing : bool;
  defers : list nat;
  unhandledRejections : list nat;
  log : list handler_call;
}.

Definition init : state :=
  {| heap := []; thens := []; queue := []; flushing := false; defers := []; unhandledRejections := []; log := [] |}.

Definition with_heap (h : list pcell) (s : state) : state :=
  {| heap := h; thens := thens s; queue := queue s; flushing := flushing s; defers := defers s;
     unhandledRejections := unhandledRejections s; log := log s |}.
Definition with_thens (l : list then_call) (s : state) : state :=
  {| heap := heap s; thens := l; queue := queue s; flushing := flushing s; defers := defers s;
     unhandledRejections := unhandledRejections s; log := log s |}.
Definition with_unhandled (l : list nat) (s : state) : state :=
  {| heap := heap s; thens := thens s; queue := queue s; flushing := flushing s; defers := defers s;
     unhandledRejections := l; log := log s |}.
Definition with_defers (l : list nat) (s : state) : state :=
  {| heap := heap s; thens := thens s; queue := queue s; flushing := flushing s; defers := l;
     unhandledRejections := unhandledRejections s; log := log s |}.
Definition with_log (l : list handler_call) (s : state) : state :=
  {| heap := heap s; thens := thens s; queue := queue s; flushing := flushing s; defers := defers s;
     unhandledRejections := unhandledRejections s; log := l |}.
Definition with_queue (q : list task) (fl : bool) (s : state) : state :=
  {| heap := heap s; thens := thens s; queue := q; flushing := fl; defers := defers s;
     unhandledRejections := unhandledRejections s; log := log s |}.

Definition nextTick (t : task) (s : state) : state := with_queue (queue s ++ [t]) true s.

Definition set_cell (p : nat) (c : pcell) (s : state) : state := with_heap (<[p := c]> (heap s)) s.
Definition alloc (c : pcell) (s : state) : nat * state := (length (heap s), with_heap (heap s ++ [c]) s).

(** A number that names no promise stands for [undefined]. *)
Definition clean (s : state) (v : val) : val :=
  match v with VProm p => if (p <? length (heap s))%nat then v else VData VUndef | VData _ => v end.

(** ** Making promises *)

Definition fulfill (v : val) (s : state) : nat * state := alloc (Fulfilled v) s.
Definition reject (reason : val) (s : state) : nat * state :=
  let '(p, s) := alloc (Rejected reason) s in (p, with_unhandled (unhandledRejections s ++ [p]) s).
Definition Q (v : val) (s : state) : nat * state :=
  match v with VProm p => (p, s) | VData _ => fulfill v s end.

(** [unhandledRejections.splice(at, 1)] at the first occurrence. *)
Fixpoint untrack (p : nat) (l : list nat) : list nat :=
  match l with [] => [] | q :: l => if (q =? p)%nat then l else q :: untrack p l end.
Definition untrackRejection (p : nat) (s : state) : state := with_unhandled (untrack p (unhandledRejections s)) s.

(** ** Deferreds *)

Definition defer (s : state) : nat * state := alloc (Pending [] []) s.

Definition become (d p : nat) (messages : list msg) (s : state) : state :=
  fold_left (λ s m, nextTick (TDispatch p m) s) messages (set_cell d (Resolved p) s).

(** The methods of the deferred whose promise is [d]. *)
Definition resolve (d : nat) (v : val) (s : state) : state :=
  match heap s !! d with
  | Some (Pending messages _) => let '(p, s) := Q v s in become d p messages s
  | _ => s
  end.
Definition fulfill_deferred (d : nat) (v : val) (s : state) : state :=
  match heap s !! d with
  | Some (Pending messages _) => let '(p, s) := fulfill v s in become d p messages s
  | _ => s
  end.
Definition reject_deferred (d : nat) (v : val) (s : state) : state :=
  match heap s !! d with
  | Some (Pending messages _) => let '(p, s) := reject v s in become d p messages s
  | _ => s
  end.
Definition notify (d : nat) (v : val) (s : state) : state :=
  match heap s !! d with
  | Some (Pending _ listeners) => fold_left (λ s t, nextTick (TProgress t v) s) listeners s
  | _ => s
  end.

(** [promiseDispatch] of the promise of a deferred that is not resolved. *)
Definition listen (m : msg) (messages : list msg) (listeners : list nat) : pcell :=
  Pending (messages ++ [m]) (match m with MWhen _ => listeners | MProgress t => listeners ++ [t] end).

Definition add_then (p : nat) (f r g : option nat) (s : state) : nat * state :=
  let '(d, s) := defer s in
  let t := length (thens s) in
  let s := with_thens (thens s ++ [{| t_self := p; t_deferred := d; t_fulfilled := f; t_rejected := r;
                                      t_progressed := g; t_done := false |}]) s in
  (t, s).

(** The second dispatch of [then], which no promise answers at once. *)
Definition dispatch_progress (p t : nat) (s : state) : state :=
  match heap s !! p with
  | Some (Pending messages listeners) => set_cell p (listen (MProgress t) messages listeners) s
  | Some (Resolved q) => nextTick (TDispatch q (MProgress t)) s
  | _ => s
  end.

Definition then_ (p : nat) (f r g : option nat) (s : state) : state :=
  let '(t, s) := add_then p f r g s in
  dispatch_progress p t (nextTick (TThen t) s).

(** ** User code *)

Section user.
Variable handler : list handler_call → nat → val → list action * ending.

Definition exec_action (s : state) (a : action) : state :=
  match a with
  | ADefer => let '(d, s) := defer s in with_defers (defers s ++ [d]) s
  | AResolve i v => match defers s !! i with Some d => resolve d (clean s v) s | None => s end
  | AFulfill i v => match defers s !! i with Some d => fulfill_deferred d (clean s v) s | None => s end
  | AReject i v => match defers s !! i with Some d => reject_deferred d (clean s v) s | None => s end
  | ANotify i v => match defers s !! i with Some d => notify d (clean s v) s | None => s end
  | AMake v => (Q (clean s v) s).2
  | AMakeRejected v => (reject (clean s v) s).2
  | AThen p f r g => if (p <? length (heap s))%nat then then_ p f r g s else s
  end.

(** A call of a user function: its effects, the entry in the log, its ending. *)
Definition call_handler (t : nat) (k : kind) (h : nat) (v : val) (s : state) : ending * state :=
  let '(actions, out) := handler (log s) h v in
  let s := fold_left exec_action actions s in
  let out := match out with Return w => Return (clean s w) | Raise e => Raise (clean s e) end in
  (out, with_log (log s ++ [{| c_then := t; c_kind := k; c_handler := h; c_arg := v; c_out := out |}]) s).

(** What a callback gives [deferred.resolve]: an exception becomes a rejection. *)
Definition returned (out : ending) (s : state) : val * state :=
  match out with Return w => (w, s) | Raise e => let '(p, s) := reject e s in (VProm p, s) end.

Definition _fulfilled (t : nat) (r : then_call) (v : val) (s : state) : val * state :=
  match t_fulfilled r with
  | Some h => let '(out, s) := call_handler t KFulfilled h v s in returned out s
  | None => (v, s)
  end.
Definition _rejected (t : nat) (r : then_call) (e : val) (s : state) : val * state :=
  match t_rejected r with
  | Some h => let '(out, s) := call_handler t KRejected h e s in returned out s
  | None => let '(p, s) := reject e s in (VProm p, s)
  end.

Definition set_done (t : nat) (r : then_call) (s : state) : state :=
  with_thens (<[t := {| t_self := t_self r; t_deferred := t_deferred r; t_fulfilled := t_fulfilled r;
                       t_rejected := t_rejected r; t_progressed := t_progressed r; t_done := true |}]> (thens s)) s.

(** The two functions [then] hands to [promiseDispatch]. *)
Definition on_fulfilled (t : nat) (v : val) (s : state) : state :=
  match thens s !! t with
  | Some r =>
      if t_done r then s
      else let '(w, s) := _fulfilled t r v (set_done t r s) in resolve (t_deferred r) w s
  | None => s
  end.
Definition on_rejected (t : nat) (e : val) (s : state) : state :=
  match thens s !! t with
  | Some r =>
      if t_done r then s
      else let '(w, s) := _rejected t r e (set_done t r s) in resolve (t_deferred r) w s
  | None => s
  end.

(** [promiseDispatch]. A rejected promise calls the second function and passes
    its result, [undefined], to the first. *)
Definition promiseDispatch (p : nat) (m : msg) (s : state) : state :=
  match heap s !! p with
  | Some (Pending messages listeners) => set_cell p (listen m messages listeners) s
  | Some (Resolved q) => nextTick (TDispatch q m) s
  | Some (Fulfilled v) => match m with MWhen t => on_fulfilled t v s | MProgress _ => s end
  | Some (Rejected e) =>
      match m with
      | MWhen t => on_fulfilled t (VData VUndef) (on_rejected t e (untrackRejection p s))
      | MProgress _ => s
      end
  | None => s
  end.

(** The progress listener of [then]. An exception is thrown again later. *)
Definition on_progress (t : nat) (v : val) (s : state) : state :=
  match thens s !! t with
  | Some r =>
      match t_progressed r with
      | Some h =>
          let '(out, s) := call_handler t KProgressed h v s in
          match out with Return w => notify (t_deferred r) w s | Raise _ => s end
      | None => notify (t_deferred r) v s
      end
  | None => s
  end.

Definition run (tk : task) (s : state) : state :=
  match tk with
  | TThen t => match thens s !! t with Some r => promiseDispatch (t_self r) (MWhen t) s | None => s end
  | TDispatch p m => promiseDispatch p m s
  | TProgress t v => on_progress t v s
  end.

(** Code outside the library runs, the next task runs, or [flush] ends. *)
Inductive step : state → state → Prop :=
  | step_code s a : step s (exec_action s a)
  | step_task s tk q : queue s = tk :: q → flushing s = true → step s (run tk (with_queue q true s))
  | step_flushed s : queue s = [] → flushing s = true → step s (with_queue [] false s).

Definition reachable : state → Prop := rtc step init.

(** ** The heap evolves *)

(** A settled promise stays as it is, a resolved one keeps its resolution, and a
    pending one is at most resolved. *)
Definition advances (c c' : pcell) : Prop :=
  match c, c' with
  | Pending _ _, Pending _ _ | Pending _ _, Resolved _ => True
  | Pending _ _, _ => False
  | _, _ => c' = c
  end.
Definition evolves (h h' : list pcell) : Prop := ∀ p c, h !! p = Some c → ∃ c', h' !! p = Some c' ∧ advances c c'.

Lemma advances_refl c : advances c c.
Proof. by destruct c. Qed.
Lemma advances_trans a b c : advances a b → advances b c → advances a c.
Proof. destruct a, b, c; cbn; try done; congruence. Qed.

#[export] Instance evolves_preorder : PreOrder evolves.
Proof.
  split.
  - intros h p c H. exists c. split; [done|apply advances_refl].
  - intros h1 h2 h3 H12 H23 p c H. destruct (H12 p c H) as (c' & H' & A). destruct (H23 p c' H') as (c'' & H'' & A').
    exists c''. split; [done|by eapply advances_trans].
Qed.

Lemma evolves_alloc h c : evolves h (h ++ [c]).
Proof. intros p d H. exists d. split; [by apply lookup_app_l_Some|apply advances_refl]. Qed.

Lemma evolves_set h p c c' : h !! p = Some c → advances c c' → evolves h (<[p := c']> h).
Proof.
  intros Hp Ha q d Hq. destruct (decide (q = p)) as [->|Hne].
  - rewrite Hp in Hq. simplify_eq. exists c'. split; [|done]. apply list_lookup_insert_eq. by eapply lookup_lt_Some.
  - exists d. split; [by rewrite list_lookup_insert_ne|apply advances_refl].
Qed.

Lemma evolves_length h h' : evolves h h' → (length h <= length h')%nat.
Proof.
  intros H. destruct (length h) as [|n] eqn:E; [lia|]. destruct (lookup_lt_is_Some_2 h n ltac:(lia)) as [c Hc].
  destruct (H n c Hc) as (c' & Hc' & _). apply lookup_lt_Some in Hc'. lia.
Qed.

(** The promises a promise is resolved to, one after the other. *)
Definition edge (h : list pcell) (p q : nat) : Prop := h !! p = Some (Resolved q).
Definition reach (h : list pcell) : nat → nat → Prop := rtc (edge h).

Lemma reach_evolves h h' p q : evolves h h' → reach h p q → reach h' p q.
Proof.
  intros He H. induction H as [|p q r Hpq _ IH]; [apply rtc_refl|]. apply rtc_l with q; [|done].
  destruct (He p _ Hpq) as (c & Hc & ->). done.
Qed.

(** Where the chain ends is determined. *)
Lemma reach_end h p q q' c c' :
  reach h p q → reach h p q' → h !! q = Some c → h !! q' = Some c' →
  (∀ r, c ≠ Resolved r) → (∀ r, c' ≠ Resolved r) → q = q' ∧ c = c'.
Proof.
  intros H H' Hq Hq' Hn Hn'. assert (q = q') as ->; [|split; congruence].
  induction H as [p|p r q Hpr _ IH].
  - inversion H' as [|? r ? Hr _]; [done|]. subst. unfold edge in Hr. rewrite Hq in Hr. simplify_eq. by destruct (Hn r).
  - inversion H' as [|? r' ? Hr Hrest]; subst.
    + unfold edge in Hpr. rewrite Hq' in Hpr. simplify_eq. by destruct (Hn' r).
    + apply IH; [|done]. unfold edge in Hpr, Hr. rewrite Hpr in Hr. injection Hr as <-. exact Hrest.
Qed.

(** ** What holds of every state *)

(** The calls of [then] a message, a task, a promise is to settle. *)
Definition msg_ids (m : msg) : list nat := match m with MWhen t => [t] | MProgress _ => [] end.
Definition task_ids (tk : task) : list nat :=
  match tk with TThen t => [t] | TDispatch _ m => msg_ids m | TProgress _ _ => [] end.
Definition cell_ids (c : pcell) : list nat := match c with Pending ms _ => concat (map msg_ids ms) | _ => [] end.
Definition held (s : state) : list nat := concat (map task_ids (queue s)) ++ concat (map cell_ids (heap s)).
Definition undone (l : list then_call) : list nat := concat (imap (λ t r, if t_done r then [] else [t]) l).

(** The promise a deferred was resolved to, after a callback ended. *)
Definition became (h : list pcell) (p : nat) (out : ending) : Prop :=
  match out with
  | Return (VProm q) => p = q
  | Return v => h !! p = Some (Fulfilled v)
  | Raise e => h !! p = Some (Rejected e)
  end.

(** The end of a chain and what the [then] of number [t] made of it. *)
Definition answered (s : state) (t : nat) (r : then_call) (c : pcell) (p : nat) : Prop :=
  match c with
  | Fulfilled v =>
      match t_fulfilled r with
      | Some h => ∃ out, {| c_then := t; c_kind := KFulfilled; c_handler := h; c_arg := v; c_out := out |} ∈ log s ∧ became (heap s) p out
      | None => became (heap s) p (Return v)
      end
  | Rejected e =>
      match t_rejected r with
      | Some h => ∃ out, {| c_then := t; c_kind := KRejected; c_handler := h; c_arg := e; c_out := out |} ∈ log s ∧ became (heap s) p out
      | None => became (heap s) p (Raise e)
      end
  | _ => False
  end.
Definition settled (s : state) (t : nat) (r : then_call) : Prop :=
  ∃ q c p, reach (heap s) (t_self r) q ∧ heap s !! q = Some c ∧ heap s !! t_deferred r = Some (Resolved p) ∧
    answered s t r c p.

Definition settles (c : handler_call) : bool := match c_kind c with KProgressed => false | _ => true end.
Definition settle_log (l : list handler_call) : list nat := map c_then (List.filter settles l).

(** A logged call was of a handler of its [then], with what the promise led to. *)
Definition call_end (c : handler_call) : pcell :=
  match c_kind c with KRejected => Rejected (c_arg c) | _ => Fulfilled (c_arg c) end.
Definition call_sound (s : state) (c : handler_call) : Prop :=
  settles c = true → ∃ r q, thens s !! c_then c = Some r ∧ t_done r = true ∧ reach (heap s) (t_self r) q ∧
    heap s !! q = Some (call_end c) ∧
    (if c_kind c is KRejected then t_rejected r else t_fulfilled r) = Some (c_handler c).

(** Promises point to promises. *)
Definition valid (h : list pcell) (v : val) : Prop := match v with VProm p => (p < length h)%nat | VData _ => True end.
Definition cell_ok (h : list pcell) (c : pcell) : Prop :=
  match c with Resolved q => (q < length h)%nat | Fulfilled v => valid h v | _ => True end.

(** [X] are messages being delivered, [B] is the [then] whose callback runs. *)
Record inv (s : state) (X : list nat) (B : option nat) : Prop := {
  i_tokens : held s ++ X ≡ₚ undone (thens s);
  i_queued : ∀ q t, TDispatch q (MWhen t) ∈ queue s → ∃ r, thens s !! t = Some r ∧ reach (heap s) (t_self r) q;
  i_kept : ∀ q ms ls t, heap s !! q = Some (Pending ms ls) → MWhen t ∈ ms →
    ∃ r, thens s !! t = Some r ∧ reach (heap s) (t_self r) q;
  i_distinct : NoDup (map t_deferred (thens s) ++ defers s);
  i_range : ∀ d, d ∈ map t_deferred (thens s) ++ defers s → (d < length (heap s))%nat;
  i_open : ∀ t r, thens s !! t = Some r → t_done r = false ∨ B = Some t →
    ∃ ms ls, heap s !! t_deferred r = Some (Pending ms ls);
  i_done : ∀ t r, thens s !! t = Some r → t_done r = true → B ≠ Some t → settled s t r;
  i_log : NoDup (settle_log (log s));
  i_logged : ∀ c, c ∈ log s → call_sound s c;
  i_flush : queue s ≠ [] → flushing s = true;
  i_self : ∀ t r, thens s !! t = Some r → (t_self r < length (heap s))%nat;
  i_cells : ∀ p c, heap s !! p = Some c → cell_ok (heap s) c;
}.

(** *** Lists of indexed parts *)

Lemma concat_imap_insert {A C} (l : list A) : ∀ (f : nat → A → list C) i x y,
  l !! i = Some x →
  ∃ R, concat (imap f l) ≡ₚ f i x ++ R ∧ concat (imap f (<[i := y]> l)) ≡ₚ f i y ++ R.
Proof.
  induction l as [|a l IH]; intros f i x y Hi; [done|]. destruct i as [|i]; cbn in Hi.
  - simplify_eq. cbn. eauto.
  - destruct (IH (f ∘ S) i x y Hi) as (R & H1 & H2). exists (f 0%nat a ++ R). cbn. rewrite H1 H2.
    split; solve_Permutation.
Qed.

Lemma concat_map_insert {A C} (f : A → list C) (l : list A) i x y :
  l !! i = Some x → ∃ R, concat (map f l) ≡ₚ f x ++ R ∧ concat (map f (<[i := y]> l)) ≡ₚ f y ++ R.
Proof.
  intros Hi. assert (∀ l : list A, map f l = imap (λ _, f) l) as E.
  { intros k. induction k as [|a k IH]; cbn; [done|]. f_equal. done. }
  rewrite !E. by apply (concat_imap_insert l (λ _, f)).
Qed.

Lemma undone_snoc l r : undone (l ++ [r]) = undone l ++ if t_done r then [] else [length l].
Proof. unfold undone. rewrite imap_app concat_app. cbn. rewrite app_nil_r Nat.add_0_r. by destruct (t_done r). Qed.

Lemma undone_in l t : t ∈ undone l ↔ ∃ r, l !! t = Some r ∧ t_done r = false.
Proof.
  unfold undone. rewrite list_elem_of_In in_concat. split.
  - intros (x & Hx & Ht). apply list_elem_of_In, list_elem_of_lookup in Hx as [i Hi]. rewrite list_lookup_imap in Hi.
    destruct (l !! i) as [r|] eqn:E; [|done]. cbn in Hi. destruct (t_done r) eqn:D; simplify_eq; [done|].
    destruct Ht as [<-|[]]. eauto.
  - intros (r & Hr & D). exists [t]. split; [|by left]. apply list_elem_of_In, list_elem_of_lookup. exists t.
    by rewrite list_lookup_imap Hr /= D.
Qed.

(** *** Facts that survive *)

Lemma became_evolves h h' p out : evolves h h' → became h p out → became h' p out.
Proof.
  intros He. destruct out as [[q|d]|e]; cbn; [done| |]; intros H; destruct (He p _ H) as (c & Hc & ->); done.
Qed.

Lemma settled_evolves s s' t r :
  evolves (heap s) (heap s') → (∀ c, c ∈ log s → c ∈ log s') → settled s t r → settled s' t r.
Proof.
  intros He Hlog (q & c & p & Hr & Hq & Hp & Ha). exists q, c, p.
  assert (heap s' !! q = Some c) as Hq'.
  { destruct (He q c Hq) as (c' & Hc' & Hadv). by destruct c; try done; cbn in Hadv; simplify_eq. }
  assert (heap s' !! t_deferred r = Some (Resolved p)) as Hp'.
  { destruct (He _ _ Hp) as (c' & Hc' & ->). done. }
  split_and!; [by eapply reach_evolves|done..|].
  destruct c as [| |v|v]; [done..| |]; unfold answered in *; [destruct (t_fulfilled r)|destruct (t_rejected r)];
    first [destruct Ha as (out & Hin & Hb); exists out; split; [by apply Hlog|by eapply became_evolves]
          |by eapply became_evolves].
Qed.

Lemma end_evolves h h' q c : evolves h h' → settles c = true → h !! q = Some (call_end c) → h' !! q = Some (call_end c).
Proof.
  intros He Hs Hq. destruct (He q _ Hq) as (c' & Hc' & Ha). unfold call_end in *. by destruct (c_kind c); cbn in Ha; subst.
Qed.

Lemma call_sound_evolves s s' c :
  evolves (heap s) (heap s') → (∀ t r, thens s !! t = Some r → t_done r = true → thens s' !! t = Some r) →
  call_sound s c → call_sound s' c.
Proof.
  intros He Ht H Hs. destruct (H Hs) as (r & q & Hr & D & Hreach & Hq & Hh). exists r, q.
  split_and!; [by apply Ht|done|by eapply reach_evolves|by eapply end_evolves|done].
Qed.

Lemma settle_log_in t l : t ∈ settle_log l ↔ ∃ c, c ∈ l ∧ settles c = true ∧ c_then c = t.
Proof.
  unfold settle_log. rewrite list_elem_of_In in_map_iff. split.
  - intros (c & <- & Hc). apply filter_In in Hc as [Hc Hs]. exists c. by rewrite list_elem_of_In.
  - intros (c & Hc & Hs & <-). exists c. split; [done|]. apply filter_In. by rewrite -list_elem_of_In.
Qed.

Lemma logged_done s X B t : inv s X B → t ∈ settle_log (log s) → ∃ r, thens s !! t = Some r ∧ t_done r = true.
Proof.
  intros H (c & Hc & Hs & <-)%settle_log_in. destruct (i_logged _ _ _ H c Hc Hs) as (r & q & Hr & D & _). eauto.
Qed.

Lemma cell_ok_evolves h h' c : evolves h h' → cell_ok h c → cell_ok h' c.
Proof. intros He%evolves_length. destruct c as [|q|[|]|]; cbn; try done; lia. Qed.

(** A change of the heap, the queue and the log around the same calls of [then]. *)
Lemma inv_change s s' X X' B B' :
  inv s X B → thens s' = thens s → defers s' = defers s → evolves (heap s) (heap s') →
  log s' = log s →
  held s' ++ X' ≡ₚ held s ++ X →
  (∀ q t, TDispatch q (MWhen t) ∈ queue s' → ∃ r, thens s !! t = Some r ∧ reach (heap s') (t_self r) q) →
  (∀ q ms ls t, heap s' !! q = Some (Pending ms ls) → MWhen t ∈ ms →
    ∃ r, thens s !! t = Some r ∧ reach (heap s') (t_self r) q) →
  (∀ t r, thens s !! t = Some r → t_done r = false ∨ B' = Some t → ∃ ms ls, heap s' !! t_deferred r = Some (Pending ms ls)) →
  (∀ t r, thens s !! t = Some r → B = Some t → B' ≠ Some t → settled s' t r) →
  (queue s' ≠ [] → flushing s' = true) →
  (∀ p c, heap s' !! p = Some c → heap s !! p = Some c ∨ cell_ok (heap s') c) →
  inv s' X' B'.
Proof.
  intros H Ht Hd He Hl Hheld Hq Hk Ho HB' Hf Hc. pose proof (evolves_length _ _ He) as Hlen.
  constructor; rewrite ?Ht ?Hd ?Hl; [by rewrite Hheld; apply H|done|done|apply H| |done| |apply H| |done| |].
  - intros d Hin. apply (i_range _ _ _ H) in Hin. lia.
  - intros t r Htr Hdone HB. destruct (decide (B = Some t)) as [E|E]; [by apply HB'|].
    eapply (settled_evolves s); [done|by rewrite Hl|]. by apply (i_done _ _ _ H).
  - intros c Hin. eapply call_sound_evolves; [exact He|by rewrite Ht|]. by apply (i_logged _ _ _ H).
  - intros t r Htr. apply (i_self _ _ _ H) in Htr. lia.
  - intros p c Hp. destruct (Hc p c Hp) as [Hp'|]; [|done]. eapply cell_ok_evolves; [done|]. by eapply (i_cells _ _ _ H).
Qed.

(** What a step leaves of the location of the messages. *)
Lemma located_evolves (s : state) h' q t :
  evolves (heap s) h' → (∃ r, thens s !! t = Some r ∧ reach (heap s) (t_self r) q) →
  ∃ r, thens s !! t = Some r ∧ reach h' (t_self r) q.
Proof. intros He (r & Hr & H). exists r. split; [done|by eapply reach_evolves]. Qed.

Definition located (s : state) (m : msg) (q : nat) : Prop :=
  ∀ t, m = MWhen t → ∃ r, thens s !! t = Some r ∧ reach (heap s) (t_self r) q.

Lemma held_nextTick s tk : held (nextTick tk s) ≡ₚ task_ids tk ++ held s.
Proof. unfold held, nextTick. cbn. rewrite map_app concat_app /= app_nil_r. solve_Permutation. Qed.

Lemma nextTick_inv s X B q m :
  inv s (msg_ids m ++ X) B → located s m q → inv (nextTick (TDispatch q m) s) X B.
Proof.
  intros H Hm. eapply inv_change; [exact H|try done..].
  - rewrite held_nextTick. cbn. solve_Permutation.
  - intros q' t Hin. cbn in Hin. apply elem_of_app in Hin as [Hin|Hin]; [by apply (i_queued _ _ _ H)|].
    apply list_elem_of_singleton in Hin. simplify_eq. by apply Hm.
  - apply (i_kept _ _ _ H).
  - apply (i_open _ _ _ H).
  - by left.
Qed.

Lemma nextTick_messages ms : ∀ s X B q,
  inv s (concat (map msg_ids ms) ++ X) B → (∀ m, m ∈ ms → located s m q) →
  inv (fold_left (λ s m, nextTick (TDispatch q m) s) ms s) X B.
Proof.
  induction ms as [|m ms IH]; intros s X B q H Hm; [done|]. cbn in *. apply IH.
  - apply nextTick_inv; [by rewrite app_assoc|]. apply Hm. by left.
  - intros m' Hin t ->. apply (Hm (MWhen t)); [by right|done].
Qed.

Lemma nextTick_progress_inv s X B t v : inv s X B → inv (nextTick (TProgress t v) s) X B.
Proof.
  intros H. eapply inv_change; [exact H|try done..].
  - by rewrite held_nextTick.
  - intros q' t' Hin. cbn in Hin. apply elem_of_app in Hin as [Hin|Hin]; [by apply (i_queued _ _ _ H)|].
    by apply list_elem_of_singleton in Hin.
  - apply (i_kept _ _ _ H).
  - apply (i_open _ _ _ H).
  - by left.
Qed.

Lemma notify_inv s X B d v : inv s X B → inv (notify d v s) X B.
Proof.
  intros H. unfold notify. destruct (heap s !! d) as [[ms ls| | |]|]; try done. revert s H.
  induction ls as [|t ls IH]; intros s H; [done|]. cbn. by apply IH, nextTick_progress_inv.
Qed.

Lemma alloc_inv s X B c : cell_ids c = [] → cell_ok (heap s) c → inv s X B → inv (alloc c s).2 X B.
Proof.
  intros Hc Hok H. pose proof (evolves_alloc (heap s) c) as He. eapply inv_change; [exact H|try done..].
  - unfold held. cbn. by rewrite map_app concat_app /= Hc !app_nil_r.
  - intros q t Hin. eapply located_evolves; [exact He|]. by apply (i_queued _ _ _ H).
  - intros q ms ls t Hq Hin. eapply located_evolves; [exact He|]. cbn in Hq.
    apply lookup_app_Some in Hq as [Hq|[_ Hq]]; [by eapply (i_kept _ _ _ H)|].
    apply list_lookup_singleton_Some in Hq as [_ ->]. exfalso. clear -Hc Hin. cbn in Hc.
    induction ms as [|m ms IH]; [by apply not_elem_of_nil in Hin|]. apply elem_of_cons in Hin as [<-|Hin]; [done|].
    destruct m as [u|u]; [done|]. by apply IH.
  - intros t r Ht Hor. destruct (i_open _ _ _ H t r Ht Hor) as (ms & ls & Hp). exists ms, ls. by apply lookup_app_l_Some.
  - apply (i_flush _ _ _ H).
  - intros p d Hp. cbn in Hp. apply lookup_app_Some in Hp as [Hp|[_ Hp]]; [by left|right].
    apply list_lookup_singleton_Some in Hp as [_ ->]. by eapply cell_ok_evolves.
Qed.

Lemma unhandled_inv s X B l : inv s X B → inv (with_unhandled l s) X B.
Proof. intros H. eapply inv_change; [exact H|try done..]; try apply H. by left. Qed.

Lemma reject_inv s X B e : inv s X B → inv (reject e s).2 X B.
Proof. intros H. cbn. by apply unhandled_inv, (alloc_inv s X B (Rejected e)). Qed.
Lemma fulfill_inv s X B v : valid (heap s) v → inv s X B → inv (fulfill v s).2 X B.
Proof. intros Hv H. by apply alloc_inv. Qed.
Lemma Q_inv s X B v : inv s X B → inv (Q v s).2 X B.
Proof. intros H. destruct v; [done|]. by apply fulfill_inv. Qed.

(** A promise that waits takes the message. *)
Lemma listen_inv s X B p m ms ls :
  heap s !! p = Some (Pending ms ls) → inv s (msg_ids m ++ X) B → located s m p →
  inv (set_cell p (listen m ms ls) s) X B.
Proof.
  intros Hp H Hm. assert (evolves (heap s) (heap (set_cell p (listen m ms ls) s))) as He by by eapply evolves_set.
  eapply inv_change; [exact H|try done..].
  - unfold held. cbn.
    destruct (concat_map_insert cell_ids (heap s) p (Pending ms ls) (listen m ms ls) Hp) as (R & H1 & H2).
    rewrite H1 H2. cbn. rewrite map_app concat_app /= app_nil_r. solve_Permutation.
  - intros q t Hin. eapply located_evolves; [exact He|]. by apply (i_queued _ _ _ H).
  - intros q ms' ls' t Hq Hin. eapply located_evolves; [exact He|]. cbn in Hq.
    destruct (decide (q = p)) as [->|Hne].
    + rewrite list_lookup_insert_eq in Hq; [|by eapply lookup_lt_Some]. unfold listen in Hq. simplify_eq.
      apply elem_of_app in Hin as [Hin|Hin]; [by eapply (i_kept _ _ _ H)|].
      apply list_elem_of_singleton in Hin. by apply Hm.
    + rewrite list_lookup_insert_ne // in Hq. by eapply (i_kept _ _ _ H).
  - intros t r Ht Hor. destruct (i_open _ _ _ H t r Ht Hor) as (ms' & ls' & Hd).
    destruct (He _ _ Hd) as ([ms'' ls''|q| |] & Hc & Ha); [eauto| |done..]. exfalso.
    cbn in Hc. destruct (decide (t_deferred r = p)) as [E|Hne].
    + rewrite E list_lookup_insert_eq in Hc; [done|by eapply lookup_lt_Some].
    + rewrite list_lookup_insert_ne // Hd in Hc. done.
  - apply (i_flush _ _ _ H).
  - intros q c Hq. cbn in Hq. destruct (decide (q = p)) as [->|Hne].
    + rewrite list_lookup_insert_eq in Hq; [|by eapply lookup_lt_Some]. simplify_eq. by right.
    + rewrite list_lookup_insert_ne // in Hq. by left.
Qed.

(** A deferred is resolved; its messages go on to the promise it became. *)
Lemma become_heap d p ms s :
  heap (become d p ms s) = <[d := Resolved p]> (heap s) ∧ log (become d p ms s) = log s ∧
  thens (become d p ms s) = thens s ∧ defers (become d p ms s) = defers s.
Proof.
  unfold become.
  assert (∀ s', heap (fold_left (λ s m, nextTick (TDispatch p m) s) ms s') = heap s' ∧
    log (fold_left (λ s m, nextTick (TDispatch p m) s) ms s') = log s' ∧
    thens (fold_left (λ s m, nextTick (TDispatch p m) s) ms s') = thens s' ∧
    defers (fold_left (λ s m, nextTick (TDispatch p m) s) ms s') = defers s') as H.
  { induction ms as [|m ms IH]; intros s'; [done|]. cbn. apply (IH (nextTick (TDispatch p m) s')). }
  apply (H (set_cell d (Resolved p) s)).
Qed.

Lemma become_inv s X B B' d p ms ls :
  heap s !! d = Some (Pending ms ls) → (p < length (heap s))%nat → inv s X B →
  (∀ t, B' = Some t → B = Some t) →
  (∀ t r, thens s !! t = Some r → t_deferred r = d → t_done r = true ∧ B' ≠ Some t) →
  (∀ t r, thens s !! t = Some r → B = Some t → B' ≠ Some t → settled (become d p ms s) t r) →
  inv (become d p ms s) X B'.
Proof.
  intros Hd Hp H HB Hfree Hset. unfold become.
  assert (evolves (heap s) (heap (set_cell d (Resolved p) s))) as He by by eapply evolves_set.
  assert (heap (set_cell d (Resolved p) s) !! d = Some (Resolved p)) as Hd'.
  { apply list_lookup_insert_eq. by eapply lookup_lt_Some. }
  apply nextTick_messages.
  - eapply inv_change; [exact H|try done..].
    + unfold held. cbn.
      destruct (concat_map_insert cell_ids (heap s) d (Pending ms ls) (Resolved p) Hd) as (R & H1 & H2).
      rewrite H1 H2. cbn. solve_Permutation.
    + intros q t Hin. eapply located_evolves; [exact He|]. by apply (i_queued _ _ _ H).
    + intros q ms' ls' t Hq Hin. eapply located_evolves; [exact He|]. cbn in Hq.
      destruct (decide (q = d)) as [->|Hne]; [by rewrite Hd' in Hq|].
      rewrite list_lookup_insert_ne // in Hq. by eapply (i_kept _ _ _ H).
    + intros t r Ht Hor. destruct (decide (t_deferred r = d)) as [E|Hne].
      { destruct (Hfree t r Ht E) as [E1 E2]. destruct Hor; congruence. }
      destruct (i_open _ _ _ H t r Ht ltac:(naive_solver)) as (ms' & ls' & Hc). cbn. rewrite list_lookup_insert_ne //. eauto.
    + intros t r Ht E1 E2. eapply settled_evolves; [| |by apply Hset].
      * by destruct (become_heap d p ms s) as (-> & _).
      * by destruct (become_heap d p ms s) as (_ & -> & _).
    + apply (i_flush _ _ _ H).
    + intros q c Hq. destruct (decide (q = d)) as [->|Hne].
      * rewrite Hd' in Hq. simplify_eq. right. cbn. by rewrite length_insert.
      * cbn in Hq. rewrite list_lookup_insert_ne // in Hq. by left.
  - intros m Hin t ->. destruct (i_kept _ _ _ H d ms ls t Hd Hin) as (r & Hr & Hreach). exists r. split; [done|].
    eapply rtc_r; [by eapply reach_evolves|]. done.
Qed.

Lemma not_user_deferred s X B d t r : inv s X B → d ∈ defers s → thens s !! t = Some r → t_deferred r ≠ d.
Proof.
  intros H Hd Ht <-. pose proof (i_distinct _ _ _ H) as Hnd. apply NoDup_app in Hnd as (_ & Hnd & _).
  apply (Hnd (t_deferred r)); [|done]. apply list_elem_of_In, in_map_iff. exists r. split; [done|].
  apply list_elem_of_In. by eapply list_elem_of_lookup_2.
Qed.

Lemma become_user s X B d p ms ls :
  heap s !! d = Some (Pending ms ls) → (p < length (heap s))%nat → d ∈ defers s → inv s X B → inv (become d p ms s) X B.
Proof.
  intros Hd Hp Hu H. eapply become_inv; [done|done|exact H|done| |done].
  intros t r Ht E. by destruct (not_user_deferred s X B d t r H Hu Ht).
Qed.

Lemma resolve_user s X B d v : valid (heap s) v → d ∈ defers s → inv s X B → inv (resolve d v s) X B.
Proof.
  intros Hv Hd H. unfold resolve. destruct (heap s !! d) as [[ms ls| | |]|] eqn:E; try done.
  destruct v as [p|w]; cbn; [by eapply become_user|].
  eapply become_user; [by apply lookup_app_l_Some|cbn; rewrite length_app /=; lia|done|].
  by apply (fulfill_inv s X B (VData w)).
Qed.
Lemma fulfill_user s X B d v : valid (heap s) v → d ∈ defers s → inv s X B → inv (fulfill_deferred d v s) X B.
Proof.
  intros Hv Hd H. unfold fulfill_deferred. destruct (heap s !! d) as [[ms ls| | |]|] eqn:E; try done. cbn.
  eapply become_user; [by apply lookup_app_l_Some|cbn; rewrite length_app /=; lia|done|].
  by apply (fulfill_inv s X B v).
Qed.
Lemma reject_user s X B d v : d ∈ defers s → inv s X B → inv (reject_deferred d v s) X B.
Proof.
  intros Hd H. unfold reject_deferred. destruct (heap s !! d) as [[ms ls| | |]|] eqn:E; try done. cbn.
  eapply become_user; [by apply lookup_app_l_Some|cbn; rewrite length_app /=; lia|done|].
  by apply (reject_inv s X B v).
Qed.

(** *** Calling [then] *)

Lemma add_then_inv s X B p f r g :
  (p < length (heap s))%nat → inv s X B → inv (add_then p f r g s).2 ([length (thens s)] ++ X) B.
Proof.
  intros Hp H. set (r0 := {| t_self := p; t_deferred := length (heap s); t_fulfilled := f; t_rejected := r;
    t_progressed := g; t_done := false |}). set (s' := (add_then p f r g s).2).
  assert (heap s' = heap s ++ [Pending [] []]) as Eh by done. assert (thens s' = thens s ++ [r0]) as Et by done.
  pose proof (evolves_alloc (heap s) (Pending [] [])) as He. rewrite -Eh in He.
  assert (∀ t r, thens s' !! t = Some r → thens s !! t = Some r ∨ t = length (thens s) ∧ r = r0) as Hcase.
  { intros t r' Ht. rewrite Et in Ht. apply lookup_app_Some in Ht as [Ht|[Hle Ht]]; [by left|].
    apply list_lookup_singleton_Some in Ht as [E ->]. right. split; [lia|done]. }
  assert (∀ q t, (∃ r, thens s !! t = Some r ∧ reach (heap s) (t_self r) q) →
    ∃ r, thens s' !! t = Some r ∧ reach (heap s') (t_self r) q) as Hloc.
  { intros q t (r' & Hr' & Hreach). exists r'. split; [rewrite Et; by apply lookup_app_l_Some|by eapply reach_evolves]. }
  constructor.
  - rewrite Et undone_snoc. cbn [t_done r0]. rewrite -(i_tokens _ _ _ H). unfold held. rewrite Eh map_app concat_app /=.
    rewrite app_nil_r. solve_Permutation.
  - intros q t Hin. by apply Hloc, (i_queued _ _ _ H).
  - intros q ms ls t Hq Hin. apply Hloc. rewrite Eh in Hq. apply lookup_app_Some in Hq as [Hq|[_ Hq]]; [by eapply (i_kept _ _ _ H)|].
    apply list_lookup_singleton_Some in Hq as [_ [= <- <-]]. by apply not_elem_of_nil in Hin.
  - rewrite Et map_app -app_assoc /=. change (defers s') with (defers s).
    rewrite -Permutation_middle. constructor; [|apply (i_distinct _ _ _ H)]. intros Hin.
    apply (i_range _ _ _ H) in Hin. lia.
  - intros d Hin. rewrite Et map_app -app_assoc /= in Hin. change (defers s') with (defers s) in Hin.
    rewrite Eh length_app /=. rewrite -Permutation_middle in Hin. apply elem_of_cons in Hin as [->|Hin]; [lia|].
    apply (i_range _ _ _ H) in Hin. lia.
  - intros t r' Ht Hor. destruct (Hcase t r' Ht) as [Ht'|[-> ->]].
    + destruct (i_open _ _ _ H t r' Ht' Hor) as (ms & ls & Hc). exists ms, ls. rewrite Eh. by apply lookup_app_l_Some.
    + exists [], []. rewrite Eh. cbn. by rewrite lookup_app_r // Nat.sub_diag.
  - intros t r' Ht Hdone HB. destruct (Hcase t r' Ht) as [Ht'|[-> ->]]; [|done].
    eapply settled_evolves; [exact He|done|]. by apply (i_done _ _ _ H).
  - apply (i_log _ _ _ H).
  - intros c Hin. eapply call_sound_evolves; [exact He| |by apply (i_logged _ _ _ H)]. intros t r' Ht _.
    rewrite Et. by apply lookup_app_l_Some.
  - apply (i_flush _ _ _ H).
  - intros t r' Ht. rewrite Eh length_app /=. destruct (Hcase t r' Ht) as [Ht'|[-> ->]]; [|cbn; lia].
    apply (i_self _ _ _ H) in Ht'. lia.
  - intros q c Hq. eapply cell_ok_evolves; [exact He|]. rewrite Eh in Hq.
    apply lookup_app_Some in Hq as [Hq|[_ Hq]]; [by eapply (i_cells _ _ _ H)|].
    by apply list_lookup_singleton_Some in Hq as [_ <-].
Qed.

Lemma nextTick_then_inv s X B t : inv s ([t] ++ X) B → inv (nextTick (TThen t) s) X B.
Proof.
  intros H. eapply inv_change; [exact H|try done..].
  - rewrite held_nextTick. cbn. solve_Permutation.
  - intros q' t' Hin. cbn in Hin. apply elem_of_app in Hin as [Hin|Hin]; [by apply (i_queued _ _ _ H)|].
    by apply list_elem_of_singleton in Hin.
  - apply (i_kept _ _ _ H).
  - apply (i_open _ _ _ H).
  - by left.
Qed.

Lemma dispatch_progress_inv s X B p t : inv s X B → inv (dispatch_progress p t s) X B.
Proof.
  intros H. unfold dispatch_progress. destruct (heap s !! p) as [[ms ls|q| |]|] eqn:E; try done.
  - by eapply (listen_inv s X B p (MProgress t)).
  - by apply (nextTick_inv s X B q (MProgress t)).
Qed.

Lemma then_inv s X B p f r g : (p < length (heap s))%nat → inv s X B → inv (then_ p f r g s) X B.
Proof.
  intros Hp H. pose proof (add_then_inv s X B p f r g Hp H) as H1. unfold then_.
  change (add_then p f r g s) with (length (thens s), (add_then p f r g s).2).
  by apply dispatch_progress_inv, nextTick_then_inv.
Qed.

Lemma clean_valid s v : valid (heap s) (clean s v).
Proof. destruct v as [p|d]; [|done]. unfold clean. destruct (Nat.ltb_spec p (length (heap s))); done. Qed.

Lemma defer_inv s X B : inv s X B → inv (exec_action s ADefer) X B.
Proof.
  intros H. pose proof (alloc_inv s X B (Pending [] []) eq_refl I H) as H1. cbn.
  destruct H1 as [Q1 Q2 Q3 Q4 Q5 Q6 Q7 Q8 Q9 Q10 Q11 Q12]. constructor; try done; cbn in *.
  - rewrite app_assoc NoDup_app. split_and!; [done| |apply NoDup_singleton].
    intros d Hin E. apply list_elem_of_singleton in E as ->. apply (i_range _ _ _ H) in Hin. lia.
  - intros d Hin. rewrite app_assoc in Hin. apply elem_of_app in Hin as [Hin|Hin]; [by apply Q5|].
    apply list_elem_of_singleton in Hin as ->. rewrite length_app /=. lia.
Qed.

Lemma exec_action_inv s X B a : inv s X B → inv (exec_action s a) X B.
Proof.
  intros H. destruct a as [|i v|i v|i v|i v|v|v|p f r g]; cbn [exec_action].
  - by apply defer_inv.
  - destruct (defers s !! i) as [d|] eqn:E; [|done]. apply list_elem_of_lookup_2 in E.
    apply resolve_user; [apply clean_valid|done..].
  - destruct (defers s !! i) as [d|] eqn:E; [|done]. apply list_elem_of_lookup_2 in E.
    apply fulfill_user; [apply clean_valid|done..].
  - destruct (defers s !! i) as [d|] eqn:E; [|done]. apply list_elem_of_lookup_2 in E. by apply reject_user.
  - destruct (defers s !! i) as [d|] eqn:E; [|done]. by apply notify_inv.
  - by apply Q_inv.
  - by apply reject_inv.
  - destruct (Nat.ltb_spec p (length (heap s))); [by apply then_inv|done].
Qed.

(** *** What code leaves alone *)

Record extends (s s' : state) : Prop := {
  e_heap : evolves (heap s) (heap s');
  e_log : log s' = log s;
  e_thens : ∀ t r, thens s !! t = Some r → thens s' !! t = Some r;
}.
#[local] Instance extends_preorder : PreOrder extends.
Proof.
  split; [by intros s|]. intros s1 s2 s3 [A1 A2 A3] [B1 B2 B3].
  split; [by etrans|congruence|intros t r H; by apply B3, A3].
Qed.

Lemma nextTick_extends s tk : extends s (nextTick tk s).
Proof. by split. Qed.
Lemma alloc_extends s c : extends s (alloc c s).2.
Proof. split; [apply evolves_alloc|done|done]. Qed.
Lemma reject_extends s e : extends s (reject e s).2.
Proof. split; [apply evolves_alloc|done|done]. Qed.
Lemma set_cell_extends s p c c' : heap s !! p = Some c → advances c c' → extends s (set_cell p c' s).
Proof. intros H1 H2. split; [by eapply evolves_set|done|done]. Qed.

Lemma become_extends s d p ms ls : heap s !! d = Some (Pending ms ls) → extends s (become d p ms s).
Proof.
  intros Hd. destruct (become_heap d p ms s) as (H1 & H2 & H3 & _). split; [|done|by rewrite H3].
  rewrite H1. by eapply evolves_set.
Qed.
Lemma Q_extends s v : extends s (Q v s).2.
Proof. destruct v; [done|apply alloc_extends]. Qed.

(** The three ways a deferred is resolved. *)
Lemma after_alloc_extends s c d p ms ls :
  heap s !! d = Some (Pending ms ls) → extends s (become d p ms (alloc c s).2).
Proof.
  intros Hd. etrans; [apply (alloc_extends s c)|]. eapply become_extends. by apply lookup_app_l_Some.
Qed.
Lemma resolve_extends s d v : extends s (resolve d v s).
Proof.
  unfold resolve. destruct (heap s !! d) as [[ms ls| | |]|] eqn:E; try done.
  destruct v as [p|w]; cbn; [by eapply become_extends|]. by eapply (after_alloc_extends s (Fulfilled (VData w))).
Qed.
Lemma fulfill_extends s d v : extends s (fulfill_deferred d v s).
Proof.
  unfold fulfill_deferred. destruct (heap s !! d) as [[ms ls| | |]|] eqn:E; try done.
  by eapply (after_alloc_extends s (Fulfilled v)).
Qed.
Lemma reject_deferred_extends s d v : extends s (reject_deferred d v s).
Proof.
  unfold reject_deferred. destruct (heap s !! d) as [[ms ls| | |]|] eqn:E; try done. cbn.
  etrans; [apply (reject_extends s v)|]. eapply become_extends. by apply lookup_app_l_Some.
Qed.
Lemma notify_extends s d v : extends s (notify d v s).
Proof.
  unfold notify. destruct (heap s !! d) as [[ms ls| | |]|]; try done. clear. revert s.
  induction ls as [|t ls IH]; intros s; [done|]. cbn. etrans; [apply nextTick_extends|apply IH].
Qed.
Lemma then_extends s p f r g : extends s (then_ p f r g s).
Proof.
  unfold then_. etrans; [|].
  { instantiate (1 := nextTick (TThen (length (thens s))) (add_then p f r g s).2). split; [apply evolves_alloc|done|].
    intros t r' Ht. cbn. by apply lookup_app_l_Some. }
  cbn. unfold dispatch_progress.
  match goal with |- extends _ (match ?h !! p with _ => _ end) => destruct (h !! p) as [[ms ls|q| |]|] eqn:E end; try done.
  by eapply set_cell_extends.
Qed.

Lemma exec_action_extends s a : extends s (exec_action s a).
Proof.
  destruct a as [|i v|i v|i v|i v|v|v|p f r g]; cbn [exec_action]; try (destruct (defers s !! i); [|done]).
  - split; [apply evolves_alloc|done|done].
  - apply resolve_extends.
  - apply fulfill_extends.
  - apply reject_deferred_extends.
  - apply notify_extends.
  - apply Q_extends.
  - apply reject_extends.
  - destruct (p <? length (heap s))%nat; [apply then_extends|done].
Qed.

Lemma exec_actions l : ∀ s X B, inv s X B → inv (fold_left exec_action l s) X B ∧ extends s (fold_left exec_action l s).
Proof.
  induction l as [|a l IH]; intros s X B H; [done|]. cbn. destruct (IH _ X B (exec_action_inv s X B a H)) as [H1 H2].
  split; [done|]. etrans; [apply exec_action_extends|done].
Qed.

(** *** Calling handlers *)

Lemma settle_log_snoc l c : settle_log (l ++ [c]) = settle_log l ++ if settles c then [c_then c] else [].
Proof. unfold settle_log. rewrite List.filter_app map_app. cbn. by destruct (settles c). Qed.

Lemma with_log_inv s X B c :
  inv s X B → (settles c = true → c_then c ∉ settle_log (log s)) → call_sound s c →
  inv (with_log (log s ++ [c]) s) X B.
Proof.
  intros H Hn Hc. pose proof H as [Q1 Q2 Q3 Q4 Q5 Q6 Q7 Q8 Q9 Q10 Q11 Q12].
  constructor; try done; cbn [log with_log]; rewrite ?settle_log_snoc.
  - intros t r Ht D HB. eapply (settled_evolves s); [done| |by apply Q7]. intros c' Hin. cbn. apply elem_of_app. by left.
  - destruct (settles c); [|by rewrite app_nil_r]. specialize (Hn eq_refl). apply NoDup_app.
    split_and!; [done| |apply NoDup_singleton]. intros t Hin E. apply list_elem_of_singleton in E as ->. done.
  - intros c' Hin. apply elem_of_app in Hin as [Hin|Hin]; [by apply Q9|]. apply list_elem_of_singleton in Hin as ->. exact Hc.
Qed.

Lemma call_handler_inv s X B t k h v out s' :
  inv s X B → call_handler t k h v s = (out, s') → (k ≠ KProgressed → t ∉ settle_log (log s)) →
  (∀ out, call_sound s {| c_then := t; c_kind := k; c_handler := h; c_arg := v; c_out := out |}) →
  inv s' X B ∧ evolves (heap s) (heap s') ∧ (∀ t r, thens s !! t = Some r → thens s' !! t = Some r) ∧
  log s' = log s ++ [{| c_then := t; c_kind := k; c_handler := h; c_arg := v; c_out := out |}] ∧
  match out with Return w => valid (heap s') w | Raise _ => True end.
Proof.
  intros H Hcall Hk Hs. unfold call_handler in Hcall. destruct (handler (log s) h v) as [actions o].
  destruct (exec_actions actions s X B H) as [H1 [E1 E2 E3]]. cbn in Hcall. simplify_eq. split_and!.
  - apply with_log_inv; [done| |].
    + cbn. rewrite E2. intros Hset. apply Hk. by intros ->.
    + eapply call_sound_evolves; [exact E1|by eauto|apply Hs].
  - done.
  - done.
  - cbn. by rewrite E2.
  - destruct o; [apply (clean_valid (fold_left exec_action actions s))|done].
Qed.

(** *** Answering a call of [then] *)

Definition done_call (r : then_call) : then_call :=
  {| t_self := t_self r; t_deferred := t_deferred r; t_fulfilled := t_fulfilled r;
     t_rejected := t_rejected r; t_progressed := t_progressed r; t_done := true |}.

Lemma set_done_inv s X t r :
  thens s !! t = Some r → t_done r = false → inv s (t :: X) None → inv (set_done t r s) X (Some t).
Proof.
  intros Ht D H. pose proof H as [Q1 Q2 Q3 Q4 Q5 Q6 Q7 Q8 Q9 Q10 Q11 Q12].
  assert (thens (set_done t r s) = <[t := done_call r]> (thens s)) as Et by done.
  assert (∀ u ru, thens s !! u = Some ru → ∃ ru', thens (set_done t r s) !! u = Some ru' ∧ t_self ru' = t_self ru) as Hself.
  { intros u ru Hu. rewrite Et. destruct (decide (u = t)) as [->|Hne].
    - rewrite Ht in Hu. simplify_eq. exists (done_call ru). split; [|done]. apply list_lookup_insert_eq. by eapply lookup_lt_Some.
    - exists ru. by rewrite list_lookup_insert_ne. }
  assert (∀ u ru, thens (set_done t r s) !! u = Some ru → u = t ∧ ru = done_call r ∨ u ≠ t ∧ thens s !! u = Some ru) as Hcase.
  { intros u ru Hu. rewrite Et in Hu. destruct (decide (u = t)) as [->|Hne].
    - rewrite list_lookup_insert_eq in Hu; [|by eapply lookup_lt_Some]. simplify_eq. by left.
    - rewrite list_lookup_insert_ne // in Hu. by right. }
  assert (map t_deferred (thens (set_done t r s)) = map t_deferred (thens s)) as Ed.
  { rewrite Et. change (map t_deferred (<[t := done_call r]> (thens s))) with (t_deferred <$> <[t := done_call r]> (thens s)).
    rewrite list_fmap_insert. apply list_insert_id. rewrite list_lookup_fmap Ht. done. }
  constructor; rewrite ?Ed; try done.
  - rewrite Et. destruct (concat_imap_insert (thens s) (λ t r, if t_done r then [] else [t]) t r (done_call r) Ht) as (R & H1 & H2).
    unfold undone. rewrite H2. unfold undone in Q1. rewrite H1 D in Q1. cbn in *.
    change (held (set_done t r s)) with (held s). apply (Permutation_cons_inv (a := t)). rewrite -Q1. solve_Permutation.
  - intros q u Hin. destruct (Q2 q u Hin) as (ru & Hu & Hr). destruct (Hself u ru Hu) as (ru' & Hu' & E). exists ru'. by rewrite E.
  - intros q ms ls u Hq Hin. destruct (Q3 q ms ls u Hq Hin) as (ru & Hu & Hr). destruct (Hself u ru Hu) as (ru' & Hu' & E).
    exists ru'. by rewrite E.
  - intros u ru Hu Hor. destruct (Hcase u ru Hu) as [[-> ->]|[Hne Hu']]; [by apply (Q6 t r Ht); left|].
    apply (Q6 u ru Hu'). left. destruct Hor as [?|[= ->]]; done.
  - intros u ru Hu Dn HB. destruct (Hcase u ru Hu) as [[-> ->]|[Hne Hu']]; [done|].
    by apply (Q7 u ru Hu' Dn).
  - intros c Hin. eapply (call_sound_evolves s); [done| |by apply Q9]. intros u ru Hu Du.
    rewrite Et list_lookup_insert_ne //. intros ->. congruence.
  - intros u ru Hu. destruct (Hcase u ru Hu) as [[-> ->]|[_ Hu']]; [by apply (Q11 t r)|by apply (Q11 u ru)].
Qed.

Lemma deferred_inj s X B t t' r r' :
  inv s X B → thens s !! t = Some r → thens s !! t' = Some r' → t_deferred r = t_deferred r' → t = t'.
Proof.
  intros H Ht Ht' E. pose proof (i_distinct _ _ _ H) as Hnd. apply NoDup_app in Hnd as (Hnd & _ & _).
  eapply (NoDup_lookup (t_deferred <$> thens s)); [exact Hnd| |].
  - by rewrite list_lookup_fmap Ht.
  - rewrite list_lookup_fmap Ht' E. done.
Qed.

(** The deferred of the call whose callback ended is resolved. *)
Lemma finish_inv s X t r q c w :
  inv s X (Some t) → thens s !! t = Some r → t_done r = true → valid (heap s) w →
  reach (heap s) (t_self r) q → heap s !! q = Some c →
  (∀ s' p, evolves (heap s) (heap s') → log s' = log s → became (heap s') p (Return w) → answered s' t r c p) →
  inv (resolve (t_deferred r) w s) X None.
Proof.
  intros H Ht D Hw Hr Hq Ha. destruct (i_open _ _ _ H t r Ht) as (ms & ls & Hd); [by right|].
  pose proof (resolve_extends s (t_deferred r) w) as [He Hl Hthens].
  assert (∀ s1 p, inv s1 X (Some t) → extends s s1 → (p < length (heap s1))%nat → thens s1 = thens s →
    heap s1 !! t_deferred r = Some (Pending ms ls) → became (heap s1) p (Return w) →
    inv (become (t_deferred r) p ms s1) X None) as Hgo.
  { intros s1 p H1 [E1 E2 E3] Hp Et1 Hd1 Hb. pose proof (become_extends s1 (t_deferred r) p ms ls Hd1) as [F1 F2 F3].
    eapply become_inv; [exact Hd1|done|exact H1|done| |].
    - intros u ru Hu Eu. rewrite Et1 in Hu. assert (u = t) as -> by by eapply (deferred_inj s). by simplify_eq.
    - intros u ru Hu [= <-] _. rewrite Et1 Ht in Hu. simplify_eq. exists q, c, p.
      assert (evolves (heap s) (heap (become (t_deferred ru) p ms s1))) as He' by by etrans.
      split_and!.
      + by eapply reach_evolves.
      + destruct (He' q c Hq) as (c' & Hc' & Hadv). pose proof (Ha s1 p E1 E2 Hb) as Hans.
        destruct c; try done; cbn in Hadv; by simplify_eq.
      + destruct (become_heap (t_deferred ru) p ms s1) as (-> & _). apply list_lookup_insert_eq. by eapply lookup_lt_Some.
      + apply Ha; [done|congruence|exact (became_evolves _ _ _ _ F1 Hb)]. }
  unfold resolve. rewrite Hd. destruct w as [p|d]; cbn.
  - by apply Hgo.
  - apply Hgo; [by apply (fulfill_inv s X (Some t) (VData d))|apply (alloc_extends s (Fulfilled (VData d)))| |done| |].
    + cbn. rewrite length_app /=. lia.
    + by apply lookup_app_l_Some.
    + cbn. by rewrite lookup_app_r // Nat.sub_diag.
Qed.

(** An exception becomes a rejected promise. *)
Lemma returned_spec s X B out w s1 :
  inv s X B → returned out s = (w, s1) → match out with Return w => valid (heap s) w | Raise _ => True end →
  inv s1 X B ∧ extends s s1 ∧ valid (heap s1) w ∧
  (∀ h p, evolves (heap s1) h → became h p (Return w) → became h p out).
Proof.
  intros H Hret Hv. destruct out as [v|e]; cbn in Hret; simplify_eq.
  - by split_and!.
  - split_and!.
    + by apply (reject_inv s X B e).
    + apply (reject_extends s e).
    + cbn. rewrite length_app /=. lia.
    + intros h p He. cbn. intros ->. destruct (He (length (heap s)) (Rejected e)) as (c & Hc & ->); [|done].
      cbn. by rewrite lookup_app_r // Nat.sub_diag.
Qed.

(** A handler is called, and what it made of its argument is in the log. *)
Lemma handler_result s X t k h v w s1 :
  inv s X (Some t) → t ∉ settle_log (log s) →
  (∀ out, call_sound s {| c_then := t; c_kind := k; c_handler := h; c_arg := v; c_out := out |}) →
  (let '(out, s) := call_handler t k h v s in returned out s) = (w, s1) →
  inv s1 X (Some t) ∧ evolves (heap s) (heap s1) ∧ (∀ u ru, thens s !! u = Some ru → thens s1 !! u = Some ru) ∧
  valid (heap s1) w ∧
  ∀ h' p, evolves (heap s1) h' → became h' p (Return w) →
    ∃ out, {| c_then := t; c_kind := k; c_handler := h; c_arg := v; c_out := out |} ∈ log s1 ∧ became h' p out.
Proof.
  intros H Hlog Hs Hcall. destruct (call_handler t k h v s) as [out s0] eqn:E.
  destruct (call_handler_inv s X (Some t) t k h v out s0 H E) as (H0 & He & Hth & Hl & Hv); [done|done|].
  destruct (returned_spec s0 X (Some t) out w s1 H0 Hcall Hv) as (H1 & [E1 E2 E3] & Hv1 & Hb).
  split_and!; [done|by etrans|by eauto|done|].
  intros h' p He' Hw. exists out. split; [|by apply Hb]. rewrite E2 Hl. apply elem_of_app. right. by left.
Qed.

(** The message for the call [t] reaches the end of the chain. *)
Lemma token_undone s X B t : inv s (t :: X) B → ∃ r, thens s !! t = Some r ∧ t_done r = false ∧ t ∉ settle_log (log s).
Proof.
  intros H. assert (t ∈ undone (thens s)) as Hin.
  { rewrite -(i_tokens _ _ _ H). apply elem_of_app. right. by left. }
  apply undone_in in Hin as (r & Hr & D). exists r. split_and!; [done..|]. intros Hl.
  destruct (logged_done _ _ _ _ H Hl) as (r' & Hr' & D'). congruence.
Qed.

Lemma set_done_lookup s t r : thens s !! t = Some r → thens (set_done t r s) !! t = Some (done_call r).
Proof. intros H. cbn. apply list_lookup_insert_eq. by eapply lookup_lt_Some. Qed.

Lemma on_fulfilled_inv s X t q v :
  inv s (t :: X) None → (∃ r, thens s !! t = Some r ∧ reach (heap s) (t_self r) q) → heap s !! q = Some (Fulfilled v) →
  inv (on_fulfilled t v s) X None.
Proof.
  intros H (r & Hr & Hreach) Hq. destruct (token_undone _ _ _ _ H) as (r' & Hr' & D & Hlog). simplify_eq.
  pose proof (set_done_inv s X t r Hr D H) as H1. pose proof (set_done_lookup s t r Hr) as Hr1.
  unfold on_fulfilled. rewrite Hr D. destruct (_fulfilled t r v (set_done t r s)) as [w s1] eqn:E. unfold _fulfilled in E.
  change (t_deferred r) with (t_deferred (done_call r)). destruct (t_fulfilled r) as [h|] eqn:Ef.
  - destruct (handler_result _ X t KFulfilled h v w s1 H1 Hlog) as (H2 & He & Hth & Hv & Hb); [|done|].
    { intros out _. by exists (done_call r), q. }
    apply (finish_inv s1 X t (done_call r) q (Fulfilled v)); [done|by apply Hth|done|done|by eapply reach_evolves| |].
    + destruct (He q _ Hq) as (c & Hc & ->). done.
    + intros s' p He' Hl' Hbec. cbn. rewrite Ef Hl'. by apply Hb.
  - simplify_eq. apply (finish_inv _ X t (done_call r) q (Fulfilled w)); [done|done|done| |done|done|].
    + exact (i_cells _ _ _ H q _ Hq).
    + intros s' p _ _ Hb. unfold answered. cbn [done_call t_fulfilled]. by rewrite Ef.
Qed.

Lemma on_rejected_inv s X t q e :
  inv s (t :: X) None → (∃ r, thens s !! t = Some r ∧ reach (heap s) (t_self r) q) → heap s !! q = Some (Rejected e) →
  inv (on_rejected t e s) X None ∧ ∃ r, thens (on_rejected t e s) !! t = Some r ∧ t_done r = true.
Proof.
  intros H (r & Hr & Hreach) Hq. destruct (token_undone _ _ _ _ H) as (r' & Hr' & D & Hlog). simplify_eq.
  pose proof (set_done_inv s X t r Hr D H) as H1. pose proof (set_done_lookup s t r Hr) as Hr1.
  unfold on_rejected. rewrite Hr D. destruct (_rejected t r e (set_done t r s)) as [w s1] eqn:E. unfold _rejected in E.
  change (t_deferred r) with (t_deferred (done_call r)).
  assert (inv s1 X (Some t) ∧ evolves (heap s) (heap s1) ∧ thens s1 !! t = Some (done_call r) ∧ valid (heap s1) w ∧
    ∀ s' p, evolves (heap s1) (heap s') → log s' = log s1 → became (heap s') p (Return w) →
      answered s' t (done_call r) (Rejected e) p) as (H2 & He & Hth & Hv & Hb).
  { destruct (t_rejected r) as [h|] eqn:Ef.
    - destruct (handler_result _ X t KRejected h e w s1 H1 Hlog) as (H2 & He & Hth & Hv & Hb); [|done|].
      { intros out _. by exists (done_call r), q. }
      split_and!; [done|done|by apply Hth|done|]. intros s' p He' Hl' Hbec. cbn. rewrite Ef Hl'. by apply Hb.
    - destruct (returned_spec (set_done t r s) X (Some t) (Raise e) w s1 H1 E I) as (H2 & [E1 E2 E3] & Hv & Hb).
      split_and!; [done|done|by apply E3|done|]. intros s' p He' _ Hbec. unfold answered. cbn [done_call t_rejected].
      rewrite Ef. by apply Hb. }
  split.
  - apply (finish_inv s1 X t (done_call r) q (Rejected e)); [done..|by eapply reach_evolves| |done].
    destruct (He q _ Hq) as (c & Hc & ->). done.
  - exists (done_call r). split; [|done]. by apply (e_thens _ _ (resolve_extends s1 _ w)).
Qed.

Lemma reach_range s X B p q : inv s X B → (p < length (heap s))%nat → reach (heap s) p q → (q < length (heap s))%nat.
Proof.
  intros H Hp Hr. induction Hr as [|p r q Hpr _ IH]; [done|]. apply IH. exact (i_cells _ _ _ H p _ Hpr).
Qed.

Lemma dispatch_inv s X q m :
  inv s (msg_ids m ++ X) None → located s m q → inv (promiseDispatch q m s) X None.
Proof.
  intros H Hm. unfold promiseDispatch. destruct (heap s !! q) as [[ms ls|p|v|e]|] eqn:E.
  - by eapply listen_inv.
  - apply nextTick_inv; [done|]. intros t ->. destruct (Hm t eq_refl) as (r & Hr & Hreach). exists r.
    split; [done|]. by eapply rtc_r.
  - destruct m as [t|t]; [|done]. apply (on_fulfilled_inv s X t q v); [done|by apply Hm|done].
  - destruct m as [t|t]; [|done].
    destruct (on_rejected_inv (untrackRejection q s) X t q e) as [H1 (r & Hr & D)]; [by apply unhandled_inv|by apply Hm|done|].
    unfold on_fulfilled. by rewrite Hr D.
  - destruct m as [t|t]; [|done]. destruct (Hm t eq_refl) as (r & Hr & Hreach). apply lookup_ge_None in E.
    pose proof (i_self _ _ _ H t r Hr) as Hself. pose proof (reach_range _ _ _ _ _ H Hself Hreach). lia.
Qed.

Lemma pop_inv s tk q : queue s = tk :: q → inv s [] None → inv (with_queue q true s) (task_ids tk) None.
Proof.
  intros Hq H. eapply inv_change; [exact H|try done..].
  - unfold held. rewrite Hq. cbn. solve_Permutation.
  - intros p t Hin. apply (i_queued _ _ _ H). rewrite Hq. by right.
  - apply (i_kept _ _ _ H).
  - apply (i_open _ _ _ H).
  - by left.
Qed.

Lemma run_inv s tk : inv s (task_ids tk) None → (∀ p m, tk = TDispatch p m → located s m p) → inv (run tk s) [] None.
Proof.
  intros H Hm. destruct tk as [t|p m|t v]; cbn [run task_ids] in *.
  - destruct (token_undone s [] None t H) as (r & Hr & _). rewrite Hr.
    apply dispatch_inv; [done|]. intros u [= <-]. exists r. split; [done|apply rtc_refl].
  - apply dispatch_inv; [by rewrite app_nil_r|by apply Hm].
  - unfold on_progress. destruct (thens s !! t) as [r|]; [|done]. destruct (t_progressed r) as [h|]; [|by apply notify_inv].
    destruct (call_handler t KProgressed h v s) as [out s'] eqn:E.
    destruct (call_handler_inv s [] None t KProgressed h v out s' H E) as (H1 & _); [done|done|].
    destruct out; [by apply notify_inv|done].
Qed.

Lemma init_inv : inv init [] None.
Proof.
  constructor; cbn; try done; try apply NoDup_nil_2.
  - intros q t Hin. by apply not_elem_of_nil in Hin.
  - intros d Hin. by apply not_elem_of_nil in Hin.
  - intros c Hin. by apply not_elem_of_nil in Hin.
Qed.

Lemma step_inv s s' : inv s [] None → step s s' → inv s' [] None.
Proof.
  intros H Hs. destruct Hs as [s a|s tk q Hq _|s Hq _].
  - by apply exec_action_inv.
  - apply run_inv; [by apply pop_inv|]. intros p m -> t ->. apply (i_queued _ _ _ H). rewrite Hq. by left.
  - eapply inv_change; [exact H|try done..].
    + unfold held. by rewrite Hq.
    + intros p t Hin. by apply not_elem_of_nil in Hin.
    + apply (i_kept _ _ _ H).
    + apply (i_open _ _ _ H).
    + by left.
Qed.

Lemma reachable_inv s : reachable s → inv s [] None.
Proof.
  unfold reachable. intros H. revert H. generalize init_inv. generalize init as s0.
  intros s0 H0 H. induction H as [|s1 s2 s3 H12 _ IH]; [done|]. apply IH. by eapply step_inv.
Qed.

(** A call that is not answered is waited for: its message is on its way. *)
Lemma waiting s t r q c :
  inv s [] None → queue s = [] → thens s !! t = Some r → reach (heap s) (t_self r) q → heap s !! q = Some c →
  (∀ p, c ≠ Resolved p) → (∀ ms ls, c ≠ Pending ms ls) → t_done r = true.
Proof.
  intros H Hq Hr Hreach Hc Hn Hp. destruct (t_done r) eqn:D; [done|]. exfalso.
  assert (t ∈ held s ++ []) as Hin by (rewrite (i_tokens _ _ _ H); apply undone_in; eauto).
  unfold held in Hin. rewrite Hq app_nil_r /= in Hin. apply list_elem_of_In, in_concat in Hin as (l & Hl & Ht).
  apply in_map_iff in Hl as (c' & <- & Hc'). apply list_elem_of_In, list_elem_of_lookup in Hc' as [q' Hq'].
  destruct c' as [ms ls| | |]; try done. cbn in Ht. apply in_concat in Ht as (ids & Hids & Ht).
  apply in_map_iff in Hids as ([u|u] & <- & Hm); [|done]. destruct Ht as [->|[]].
  destruct (i_kept _ _ _ H q' ms ls t Hq' ltac:(by apply list_elem_of_In)) as (r' & Hr' & Hreach'). simplify_eq.
  destruct (reach_end (heap s) (t_self r) q q' c (Pending ms ls)) as [_ E]; try done. by apply (Hp ms ls).
Qed.

(** (C40) The contract of [then], in every state the library can be in. A call of [then]
    has at most one of its two callbacks called, at most once, never inside the call
    of an operation, and with the value or the reason the promise was settled to at
    the end of its chain of resolutions. While the chain ends in a pending promise
    nothing is called. When no task is left and the chain ends in a settled promise,
    the call was answered: its callback was called if there is one, and the promise
    [then] returned is resolved to what it returned, is rejected with what it threw,
    or without a callback is settled like the receiver. *)
Theorem then_contract s t r :
  reachable s → thens s !! t = Some r →
  NoDup (settle_log (log s)) ∧
  (∀ a, log (exec_action s a) = log s) ∧
  (∀ c, c ∈ log s → settles c = true → c_then c = t →
    ∃ q, reach (heap s) (t_self r) q ∧ heap s !! q = Some (call_end c) ∧
      (if c_kind c is KRejected then t_rejected r else t_fulfilled r) = Some (c_handler c)) ∧
  (∀ q c, reach (heap s) (t_self r) q → heap s !! q = Some c →
    match c with
    | Resolved _ => True
    | Pending _ _ => t ∉ settle_log (log s)
    | Fulfilled _ | Rejected _ =>
        queue s = [] → ∃ p, heap s !! t_deferred r = Some (Resolved p) ∧ answered s t r c p
    end).
Proof.
  intros H%reachable_inv Hr. split_and!.
  - apply H.
  - intros a. apply exec_action_extends.
  - intros c Hc Hs <-. destruct (i_logged _ _ _ H c Hc Hs) as (r' & q & Hr' & _ & H1 & H2 & H3). simplify_eq. eauto.
  - intros q c Hreach Hc.
    assert (t_done r = true → ∃ q c p, reach (heap s) (t_self r) q ∧ heap s !! q = Some c ∧
      heap s !! t_deferred r = Some (Resolved p) ∧ answered s t r c p) as Hdone.
    { intros D. by apply (i_done _ _ _ H t r). }
    destruct c as [ms ls|p|v|e]; [|done| |].
    + intros Hin. destruct (logged_done _ _ _ _ H Hin) as (r' & Hr' & D). simplify_eq.
      destruct (Hdone D) as (q' & c' & p & H1 & H2 & _ & H3).
      destruct (reach_end (heap s) (t_self r) q q' (Pending ms ls) c') as [_ <-]; try done. by intros u ->.
    + intros Hq. assert (t_done r = true) as D by by eapply (waiting s t r q (Fulfilled v)).
      destruct (Hdone D) as (q' & c' & p & H1 & H2 & H3 & H4).
      destruct (reach_end (heap s) (t_self r) q q' (Fulfilled v) c') as [_ <-]; try done; [by intros u ->|eauto].
    + intros Hq. assert (t_done r = true) as D by by eapply (waiting s t r q (Rejected e)).
      destruct (Hdone D) as (q' & c' & p & H1 & H2 & H3 & H4).
      destruct (reach_end (heap s) (t_self r) q q' (Rejected e) c') as [_ <-]; try done; [by intros u ->|eauto].
Qed.

(** ** Settling once *)

Lemma exec_actions_evolve l : ∀ s, evolves (heap s) (heap (fold_left exec_action l s)).
Proof. induction l as [|a l IH]; intros s; [done|]. cbn. etrans; [apply exec_action_extends|apply IH]. Qed.

Lemma call_handler_evolves t k h v s : evolves (heap s) (heap (call_handler t k h v s).2).
Proof. unfold call_handler. destruct (handler (log s) h v) as [l o]. apply exec_actions_evolve. Qed.

Lemma returned_evolves out s : evolves (heap s) (heap (returned out s).2).
Proof. destruct out; [done|apply evolves_alloc]. Qed.

Lemma handled_evolves t k h v s :
  evolves (heap s) (heap (let '(out, s) := call_handler t k h v s in returned out s).2).
Proof.
  pose proof (call_handler_evolves t k h v s) as H. destruct (call_handler t k h v s) as [out s'].
  etrans; [exact H|apply returned_evolves].
Qed.

Lemma resolve_evolves s d w h : evolves h (heap s) → evolves h (heap (resolve d w s)).
Proof. intros H. etrans; [exact H|]. apply resolve_extends. Qed.

Lemma on_fulfilled_evolves t v s : evolves (heap s) (heap (on_fulfilled t v s)).
Proof.
  unfold on_fulfilled. destruct (thens s !! t) as [r|]; [|done]. destruct (t_done r); [done|]. unfold _fulfilled.
  destruct (t_fulfilled r) as [h|]; [|by apply resolve_evolves].
  pose proof (handled_evolves t KFulfilled h v (set_done t r s)) as H.
  destruct (let '(out, s) := _ in _) as [w s1]. by apply resolve_evolves.
Qed.
Lemma on_rejected_evolves t v s : evolves (heap s) (heap (on_rejected t v s)).
Proof.
  unfold on_rejected. destruct (thens s !! t) as [r|]; [|done]. destruct (t_done r); [done|]. unfold _rejected.
  destruct (t_rejected r) as [h|].
  - pose proof (handled_evolves t KRejected h v (set_done t r s)) as H.
    destruct (let '(out, s) := _ in _) as [w s1]. by apply resolve_evolves.
  - apply resolve_evolves, evolves_alloc.
Qed.

Lemma dispatch_evolves q m s : evolves (heap s) (heap (promiseDispatch q m s)).
Proof.
  unfold promiseDispatch. destruct (heap s !! q) as [[ms ls|p|v|e]|] eqn:E; [|done| | |done].
  - by eapply evolves_set.
  - destruct m; [apply on_fulfilled_evolves|done].
  - destruct m; [|done]. etrans; [apply (on_rejected_evolves t e (untrackRejection q s))|apply on_fulfilled_evolves].
Qed.

Lemma run_evolves tk s : evolves (heap s) (heap (run tk s)).
Proof.
  destruct tk as [t|p m|t v]; cbn [run].
  - destruct (thens s !! t); [apply dispatch_evolves|done].
  - apply dispatch_evolves.
  - unfold on_progress. destruct (thens s !! t) as [r|]; [|done].
    destruct (t_progressed r) as [h|]; [|apply notify_extends].
    pose proof (call_handler_evolves t KProgressed h v s) as H. destruct (call_handler _ _ _ _ s) as [[w|w] s']; [|done].
    etrans; [exact H|apply notify_extends].
Qed.

(** However the library goes on, a settled promise stays as it is and a resolved
    one keeps what it was resolved to. *)
Theorem settled_for_good s s' p c :
  rtc step s s' → heap s !! p = Some c → (∀ ms ls, c ≠ Pending ms ls) → heap s' !! p = Some c.
Proof.
  intros H Hp Hc. assert (evolves (heap s) (heap s')) as He.
  { clear -H. induction H as [|s1 s2 s3 H12 _ IH]; [done|]. etrans; [|apply IH].
    destruct H12 as [s a|s tk q _ _|s _ _]; [apply exec_action_extends| |done].
    apply (run_evolves tk (with_queue q true s)). }
  destruct (He p c Hp) as (c' & Hc' & Ha). destruct c; cbn in Ha; subst; try done. by destruct (Hc messages progressListeners).
Qed.

(** ** Executions *)

(** A step by a function: code, or else the next task or the end of [flush]. *)
Definition move (s : state) (m : option action) : state :=
  match m with
  | Some a => exec_action s a
  | None =>
      if flushing s then match queue s with tk :: q => run tk (with_queue q true s) | [] => with_queue [] false s end
      else s
  end.

Lemma moves_reachable l : ∀ s, reachable s → reachable (fold_left move l s).
Proof.
  induction l as [|m l IH]; intros s H; [done|]. cbn. apply IH. unfold reachable in *.
  destruct m as [a|]; cbn; [by eapply rtc_r; [|constructor]|]. destruct (flushing s) eqn:Ef; [|done].
  destruct (queue s) as [|tk q] eqn:Eq; eapply rtc_r; try done; by constructor.
Qed.
End user.

(** Handler 0 returns its argument, handler 1 throws it. *)
Definition sample_handler (l : list handler_call) (h : nat) (v : val) : list action * ending :=
  ([], if (h =? 0)%nat then Return v else Raise v).

(** A deferred observed by a call that throws and by one on its result, then
    resolved with 7, and all tasks run. *)
Definition sample_run : list (option action) :=
  [Some ADefer; Some (AThen 0 (Some 1%nat) None None); Some (AThen 1 None (Some 0%nat) None); Some (AResolve 0 (VData (VNum 7)))]
  ++ replicate 12 None.
Definition sample_state : state := fold_left (move sample_handler) sample_run init.

Definition sample_call : then_call :=
  {| t_self := 1; t_deferred := 2; t_fulfilled := None; t_rejected := Some 0%nat; t_progressed := None; t_done := true |}.

Lemma then_contract_witness :
  queue sample_state = [] ∧
  log sample_state = [{| c_then := 0; c_kind := KFulfilled; c_handler := 1; c_arg := VData (VNum 7); c_out := Raise (VData (VNum 7)) |};
                      {| c_then := 1; c_kind := KRejected; c_handler := 0; c_arg := VData (VNum 7); c_out := Return (VData (VNum 7)) |}] ∧
  ∃ r, thens sample_state !! 1%nat = Some r ∧ NoDup (settle_log (log sample_state)) ∧
    ∀ q c, reach (heap sample_state) (t_self r) q → heap sample_state !! q = Some c →
      match c with
      | Resolved _ => True
      | Pending _ _ => 1%nat ∉ settle_log (log sample_state)
      | Fulfilled _ | Rejected _ =>
          queue sample_state = [] → ∃ p, heap sample_state !! t_deferred r = Some (Resolved p) ∧ answered sample_state 1 r c p
      end.
Proof.
  assert (thens sample_state !! 1%nat = Some sample_call) as Hr by reflexivity.
  split_and!; [reflexivity|reflexivity|]. exists sample_call. split; [exact Hr|].
  destruct (then_contract sample_handler sample_state 1 sample_call) as (H1 & _ & _ & H2); [|exact Hr|by split].
  apply moves_reachable. apply rtc_refl.
Defined.

Lemma settled_for_good_witness :
  heap sample_state !! 3%nat = Some (Fulfilled (VData (VNum 7))) ∧
  heap (move sample_handler sample_state (Some (AReject 0 (VData VNull)))) !! 3%nat = Some (Fulfilled (VData (VNum 7))).
Proof.
  split; [reflexivity|].
  apply (settled_for_good sample_handler sample_state _ 3 (Fulfilled (VData (VNum 7)))); [|reflexivity|done].
  apply rtc_once. constructor.
Defined.

Definition cycle_run : list (option action) :=
  [Some ADefer; Some (AThen 0 (Some 0%nat) (Some 0%nat) None); Some (AResolve 0 (VProm 0))].

(** The message and the progress listener follow each other. *)
Definition cycling (s : state) : Prop :=
  heap s = [Resolved 0; Pending [] []] ∧ flushing s = true ∧ log s = [] ∧ (∃ r, thens s = [r] ∧ t_self r = 0%nat) ∧
  ((∃ tk, queue s = [tk; TDispatch 0 (MProgress 0)] ∧ (tk = TThen 0 ∨ tk = TDispatch 0 (MWhen 0))) ∨
   queue s = [TDispatch 0 (MProgress 0); TDispatch 0 (MWhen 0)]).

Lemma cycling_move handler s : cycling s → cycling (move handler s None).
Proof.
  intros (Hh & Hf & Hl & (r & Hr & Hs) & Hq). unfold move. rewrite Hf.
  destruct Hq as [(tk & -> & [-> | ->])| ->]; cbn [run].
  - cbn [thens with_queue]. rewrite Hr. cbn [lookup list_lookup]. rewrite Hs. unfold promiseDispatch. cbn [heap with_queue]. rewrite Hh.
    split_and!; try done; [by exists r|by right].
  - unfold promiseDispatch. cbn [heap with_queue]. rewrite Hh. split_and!; try done; [by exists r|by right].
  - unfold promiseDispatch. cbn [heap with_queue]. rewrite Hh. split_and!; try done; [by exists r|]. left. eexists. split; [done|by right].
Qed.

(** A deferred resolved with its own promise: the message of a [then] goes round
    for ever, so the flush never ends and no callback is called. *)
Theorem cycle_never_settles handler n :
  let s := fold_left (move handler) (cycle_run ++ replicate n None) init in
  queue s ≠ [] ∧ log s = [].
Proof.
  rewrite fold_left_app. cbn zeta.
  assert (∀ n s, cycling s → cycling (fold_left (move handler) (replicate n None) s)) as Hgo.
  { clear n. induction n as [|n IH]; intros s Hs; [done|]. by apply IH, cycling_move. }
  destruct (Hgo n (fold_left (move handler) cycle_run init)) as (_ & _ & Hl & _ & Hq).
  - split_and!; try reflexivity; [eexists; by split|]. left. eexists. split; [reflexivity|by left].
  - split; [|done]. by destruct Hq as [(tk & -> & _)| ->].
Qed.
