(* ===== verification/XmlFormat.v ===== *)
(** * Formatting XML

    [formatXml], with which the console lays out XML responses and samples: line
    breaks are put between tags by three replacements, then each line is indented by
    what kind of tag it holds and what kind the line before held. The theorem is
    that it changes nothing but blanks. *)

From S2P Require Import Prelude Regex.

(** ** Replacing all matches *)

(** The match of an expression at the start of [s]; group 0 is its text. *)
Definition match_here (r : re) (s : jstr) : option captures := mt (Grp 0 r) s [] (λ _ c, Some c).

(** [s.replace(r, f)] for a global expression. After an empty match the next unit is
    copied; every turn consumes a unit. *)
Fixpoint replace_from (r : re) (f : captures → jstr) (n : nat) (s : jstr) : jstr :=
  match n with
  | O => s
  | S n =>
      let copy := match s with [] => [] | x :: t => x :: replace_from r f n t end in
      match match_here r s with
      | Some c =>
          match default [] (captured c 0) with
          | [] => f c ++ copy
          | p => f c ++ replace_from r f n (drop (length p) s)
          end
      | None => copy
      end
  end.
Definition replace_matches (r : re) (f : captures → jstr) (s : jstr) : jstr := replace_from r f (S (length s)) s.

(** [s.match(r)] is not [null] *)
Fixpoint found (r : re) (s : jstr) : bool :=
  match match_here r s with Some _ => true | None => match s with [] => false | _ :: t => found r t end end.

(** ** [formatXml] *)

(** [.] *)
Definition any : re := Cls (λ x, negb (has x [10; 13; 8232; 8233])).
Definition group (c : captures) (n : nat) : jstr := default [] (captured c n).

Definition reg : re := Seq (Grp 1 (Chr 62)) (Seq (Grp 2 (Chr 60)) (Grp 3 (Star (Chr 47)))).
Definition wsexp : re := Seq (Star (Chr 32)) (Seq (Grp 1 (Star any)) (Seq (Plus (Chr 32)) (Chr 10))).
Definition contexp : re :=
  Seq (Grp 1 (Seq (Chr 60) (Seq (Plus any) (Chr 62)))) (Grp 2 (Seq (Plus any) (Chr 10))).

Definition break_lines (xml : jstr) : jstr :=
  replace_matches contexp (λ c, group c 1 ++ [10] ++ group c 2)
    (replace_matches wsexp (λ c, group c 1 ++ [10])
      (replace_matches reg (λ c, group c 1 ++ [10] ++ group c 2 ++ group c 3) xml)).

Inductive line_type := Single | Closing | Opening | Other.

Definition type_of (ln : jstr) : line_type :=
  if found (Seq (Chr 60) (Seq (Plus any) (Seq (Chr 47) (Chr 62)))) ln then Single
  else if found (Seq (Chr 60) (Seq (Chr 47) (Seq (Plus any) (Chr 62)))) ln then Closing
  else if found (Seq (Chr 60) (Seq (Not #"!?") (Seq (Star any) (Chr 62)))) ln then Opening
  else Other.

Definition transitions (from to : line_type) : Z :=
  match from, to with
  | Opening, Closing => 0
  | Opening, _ => 1
  | _, Closing => -1
  | _, _ => 0
  end.

(** The loop over [indent] counts down for a negative one. *)
Definition padding (indent : Z) : jstr := replicate (2 * Z.abs_nat indent) 32.

Record layout := { indent : Z; lastType : line_type; formatted : jstr }.

Definition format_line (st : layout) (ln : jstr) : layout :=
  let type := type_of ln in
  let i := indent st + transitions (lastType st) type in
  {| indent := i; lastType := type;
     formatted := match lastType st, type with
                  | Opening, Closing => take (length (formatted st) - 1) (formatted st) ++ ln ++ [10]
                  | _, _ => formatted st ++ padding i ++ ln ++ [10]
                  end |}.

Definition format_lines (xml : jstr) : jstr :=
  formatted (fold_left format_line (split [10] xml) {| indent := 0; lastType := Other; formatted := [] |}).

(** The version of the signature partial, and the one of the operation view. *)
Definition formatXml (xml : jstr) : jstr := format_lines (break_lines xml).
Definition formatXml_response (xml : jstr) : jstr := formatXml (replace_all [13; 10] [10] xml).

(** ** Only blanks change *)

Definition visible (c : Z) : bool := negb ((c =? 32) || (c =? 10) || (c =? 13)).
Definition ink (s : jstr) : jstr := List.filter visible s.

Lemma ink_app s t : ink (s ++ t) = ink s ++ ink t.
Proof. apply List.filter_app. Qed.

Lemma ink_spaces n : ink (replicate n 32) = [].
Proof. induction n; [done|]. cbn. done. Qed.

(** Replacements that keep the ink of each match keep that of the text. *)
Lemma replace_ink r f :
  (∀ p c, derives r p [] c → ink (f ((0%nat, p) :: c)) = ink p) → ∀ n s, ink (replace_from r f n s) = ink s.
Proof.
  intros Hf. induction n as [|n IH]; intros s; [done|]. cbn [replace_from].
  assert (ink (match s with [] => [] | x :: t => x :: replace_from r f n t end) = ink s) as Hcopy.
  { destruct s as [|x t]; [done|]. unfold ink. cbn. by rewrite -/(ink _) IH. }
  destruct (match_here r s) as [c|] eqn:E; [|done]. unfold match_here in E. apply mt_derives in E as (p & q & c' & -> & D & [= <-]).
  cbn [derives] in D. destruct D as (d & D & ->). specialize (Hf p d D). rewrite captured_add /=.
  destruct p as [|x p]; cbn [default]; unfold id; cbn iota beta.
  - rewrite ink_app Hf. exact Hcopy.
  - rewrite ink_app Hf IH (drop_app_length (x :: p) q). by rewrite -ink_app.
Qed.

(** Expressions without groups leave the captures. *)
Lemma derives_no_groups r p c c' : groups_of r = [] → derives r p c c' → c' = c.
Proof.
  intros E D. apply (derives_stable r (λ d, d = c) p c c'); [|done|done]. rewrite E. split.
  - intros n t d H. by apply not_elem_of_nil in H.
  - intros a d Ha ->. apply reset_none. destruct (groups_of a) as [|n l] eqn:En; [done|].
    specialize (Ha n ltac:(by left)). by apply not_elem_of_nil in Ha.
Qed.

Lemma derives_chr x p c c' : derives (Chr x) p c c' → p = [x] ∧ c' = c.
Proof. by intros [(y & -> & ->%Z.eqb_eq) ->]. Qed.

Lemma derives_spaces p c c' : derives (Star (Chr 32)) p c c' → ink p = [].
Proof.
  intros D%derives_lang. destruct D as (l & -> & Hl). induction Hl as [|q l (x & -> & <-%Z.eqb_eq) _ IH]; [done|]. exact IH.
Qed.

Ltac inv_derives := repeat match goal with
  | H : derives (Seq _ _) _ _ _ |- _ => destruct H as (? & ? & ? & -> & ? & ?)
  | H : derives (Grp _ _) _ _ _ |- _ => destruct H as (? & ? & ->)
  | H : derives (Chr _) _ _ _ |- _ => apply derives_chr in H as [-> ->]
  end.

Lemma reg_ink p c : derives reg p [] c →
  ink (group ((0%nat, p) :: c) 1 ++ [10] ++ group ((0%nat, p) :: c) 2 ++ group ((0%nat, p) :: c) 3) = ink p.
Proof.
  intros D. unfold reg in D. inv_derives.
  match goal with H : derives (Star _) _ _ _ |- _ => apply derives_no_groups in H as ->; [|done] end. done.
Qed.

Lemma wsexp_ink p c : derives wsexp p [] c → ink (group ((0%nat, p) :: c) 1 ++ [10]) = ink p.
Proof.
  intros D. unfold wsexp, Plus in D. inv_derives.
  repeat match goal with H : derives (Star (Chr 32)) ?p _ _ |- _ =>
    pose proof (derives_spaces _ _ _ H); apply derives_no_groups in H as ->; [|done] end.
  match goal with H : derives (Star any) _ _ _ |- _ => apply derives_no_groups in H as ->; [|done] end.
  unfold group. rewrite !captured_add. cbn [Nat.eqb default]. unfold id.
  rewrite !ink_app. repeat match goal with H : ink _ = [] |- _ => rewrite H; clear H end. cbn. by rewrite app_nil_r.
Qed.

Lemma contexp_ink p c : derives contexp p [] c →
  ink (group ((0%nat, p) :: c) 1 ++ [10] ++ group ((0%nat, p) :: c) 2) = ink p.
Proof.
  intros D. unfold contexp in D. inv_derives.
  repeat match goal with H : derives (Plus any) _ _ _ |- _ => apply derives_no_groups in H as ->; [|done] end.
  unfold group. rewrite !captured_add. cbn [Nat.eqb default]. unfold id. by rewrite !ink_app.
Qed.

Lemma break_lines_ink xml : ink (break_lines xml) = ink xml.
Proof.
  unfold break_lines, replace_matches. rewrite (replace_ink contexp); [|apply contexp_ink].
  rewrite (replace_ink wsexp); [|apply wsexp_ink]. apply replace_ink, reg_ink.
Qed.

(** The text so far is empty or ends with a line break. *)
Definition whole_lines (s : jstr) : Prop := s = [] ∨ ∃ t, s = t ++ [10].

Lemma format_line_ink st ln :
  whole_lines (formatted st) →
  whole_lines (formatted (format_line st ln)) ∧ ink (formatted (format_line st ln)) = ink (formatted st) ++ ink ln.
Proof.
  intros Hw. unfold format_line. cbn [formatted].
  assert (∀ i, whole_lines (formatted st ++ padding i ++ ln ++ [10]) ∧
    ink (formatted st ++ padding i ++ ln ++ [10]) = ink (formatted st) ++ ink ln) as Hplain.
  { intros i. split; [right; eexists; by rewrite !app_assoc|]. rewrite !ink_app. unfold padding. rewrite ink_spaces.
    cbn. by rewrite app_nil_r. }
  destruct (lastType st), (type_of ln); try apply Hplain.
  split; [right; eexists; by rewrite app_assoc|]. rewrite !ink_app /= app_nil_r. f_equal.
  destruct Hw as [->|[t ->]]; [done|]. rewrite length_app Nat.add_sub take_app_length ink_app. cbn. by rewrite app_nil_r.
Qed.

Lemma format_lines_ink xml : ink (format_lines xml) = ink xml.
Proof.
  unfold format_lines.
  assert (∀ l st, whole_lines (formatted st) →
    ink (formatted (fold_left format_line l st)) = ink (formatted st) ++ ink (join [10] l)) as H.
  { induction l as [|ln l IH]; intros st Hw; cbn [fold_left]; [by rewrite app_nil_r|].
    destruct (format_line_ink st ln Hw) as [Hw' E]. rewrite IH // E -app_assoc. f_equal.
    destruct l as [|ln' l]; [by rewrite app_nil_r|]. rewrite (join_cons [10] ln) // !ink_app. done. }
  rewrite H; [|by left]. cbn. by rewrite join_split.
Qed.

Lemma formatXml_ink xml : ink (formatXml xml) = ink xml.
Proof. unfold formatXml. by rewrite format_lines_ink break_lines_ink. Qed.

Lemma formatXml_response_ink xml : ink (formatXml_response xml) = ink xml.
Proof.
  unfold formatXml_response. rewrite formatXml_ink. unfold replace_all.
  rewrite -{2}(join_split [13; 10] xml) //. generalize (split [13; 10] xml) as l. induction l as [|x l IH]; [done|].
  destruct l as [|y l]; [done|]. rewrite !(join_cons _ x) // !ink_app IH. done.
Qed.

(** Formatting changes blanks only: without spaces and line breaks, the result is
    the text. *)
Theorem formatXml_blanks xml :
  ink (formatXml xml) = ink xml ∧ ink (formatXml_response xml) = ink xml.
Proof. split; [apply formatXml_ink|apply formatXml_response_ink]. Qed.

Example format_sample :
  formatXml #"<?xml version='1.0'?><pet><id>1</id><name>doggie</name></pet>" =
  join [10] [ #"<?xml version='1.0'?>"; #"<pet>"; #"  <id>1</id>"; #"  <name>doggie</name>"; #"</pet>"; []].
Proof. vm_compute. reflexivity. Qed.
