(* ===== verification/XmlSample.v ===== *)
(** * XML samples

    The part of the signature partial that makes an XML sample of a schema: the tags
    of its objects, arrays and scalars, with the names, prefixes and namespaces of
    the [xml] objects. The references on the way are kept in one list that all the
    calls of a sample share and change. *)

From S2P Require Import Prelude JsValue SchemaMarkup Regex XmlFormat.

(** ** Tags *)

Definition getErrorMessage (details : jstr) : jstr :=
  #"<!-- invalid XML" ++ (if streq details [] then [] else #": " ++ details) ++ #" -->".

Definition attribute_text (attr : value) : res jstr :=
  name ← get attr #"name";
  v ← get attr #"value";
  Ok (#" " ++ to_string name ++ [61; 34] ++ to_string v ++ [34]).

Definition wrapTag (name content : value) (attrs : list value) : res jstr :=
  attributes ← map_res attribute_text attrs;
  Ok (if truthy name
      then #"<" ++ joined name ++ concat attributes ++ #">" ++ joined content ++ #"</" ++ joined name ++ #">"
      else getErrorMessage #"Node name is not provided").

(** [v.k] for a value that is [undefined] or an object; [xml = xml || {}]. *)
Definition xml_field (xml : value) (k : jstr) : res value := get (or_else xml (VObj [])) k.

Definition getPrefix (name xml : value) : res value :=
  prefix ← xml_field xml #"prefix";
  let result := or_else name (VStr []) in
  Ok (if truthy prefix then VStr (to_string prefix ++ #":" ++ to_string result) else result).

(** The empty list where the code returns the empty string. *)
Definition getNamespace (xml : value) : res (list value) :=
  namespace ← xml_field xml #"namespace";
  if truthy namespace then
    prefix ← xml_field xml #"prefix";
    let name := if truthy prefix then #"xmlns" ++ #":" ++ to_string prefix else #"xmlns" in
    Ok [VObj [(#"name", VStr name); (#"value", namespace)]]
  else Ok [].

(** ** The state of a sample *)

(** The object [config]. *)
Record xml_config := { modelsToIgnore : list jstr; loopTo : value }.

Definition ignore_model (r : jstr) (c : xml_config) : xml_config :=
  {| modelsToIgnore := modelsToIgnore c ++ [r]; loopTo := loopTo c |}.

(** Delete the first occurrence. *)
Fixpoint splice_first (r : jstr) (l : list jstr) : list jstr :=
  match l with [] => [] | x :: l => if streq r x then l else x :: splice_first r l end.

Definition release_model (r : jstr) (c : xml_config) : xml_config :=
  {| modelsToIgnore := splice_first r (modelsToIgnore c); loopTo := loopTo c |}.

Definition ignored (r : jstr) (c : xml_config) : bool := existsb (streq r) (modelsToIgnore c).

Record Descriptor := { d_name : value; d_type : value; d_definition : value }.

Definition newDescriptor (name type definition : value) : res Descriptor :=
  xml ← get definition #"xml";
  n ← getPrefix name xml;
  Ok {| d_name := n; d_type := type; d_definition := definition |}.

Definition getDescriptor (name definition : value) : res Descriptor :=
  t ← get definition #"type";
  xml ← get definition #"xml";
  xname ← xml_field xml #"name";
  newDescriptor (or_else xname name) (or_else t (VStr #"object")) definition.

(** The members of an array or object as lodash's [map] hands them out: an object
    with a numeric length counts as an array. *)
Definition members (v : value) : list (value * value) :=
  match v with
  | VArr l => imap (λ i x, (VNum (Z.of_nat i), x)) l
  | VStr s => imap (λ i x, (VNum (Z.of_nat i), VStr [x])) s
  | VObj o =>
      match field o #"length" with
      | VNum n => if 0 <=? n then map (λ i, (VNum i, field o (str_of_Z i))) (range 0 (Z.to_nat n))
                  else map (λ '(k, x), (VStr k, x)) (enum o)
      | _ => map (λ '(k, x), (VStr k, x)) (enum o)
      end
  | _ => []
  end.

(** ** Scalars *)

(** The texts of [new Date(1)]. *)
Definition epoch_date : jstr := #"1970-01-01".
Definition epoch_time : jstr := #"1970-01-01T00:00:00.001Z".

Definition primitivesMap : list (jstr * list (jstr * value)) :=
  [ (#"string", [ (#"date", VStr epoch_date); (#"date-time", VStr epoch_time); (#"default", VStr #"string")]);
    (#"integer", [ (#"default", VNum 1)]);
    (#"number", [ (#"default", VDbl #"1.1")]);
    (#"boolean", [ (#"default", VBool true)])].

Definition primitive_formats (type : value) : option (list (jstr * value)) :=
  match type with VStr t => pget primitivesMap t | _ => None end.

Definition primitive_value (definition : value) (formats : list (jstr * value)) : res value :=
  enum ← get definition #"enum";
  match enum with
  | VArr l => Ok (default VUndef (head l))
  | _ =>
      example ← get definition #"example";
      format ← get definition #"format";
      Ok (or_else example (or_else (field formats (to_string format)) (field formats #"default")))
  end.

(** A scalar marked as an attribute is an object with a name and a value. *)
Definition createPrimitiveXML (d : Descriptor) : res value :=
  type ← get (d_definition d) #"type";
  xml ← get (d_definition d) #"xml";
  attributes ← getNamespace xml;
  match primitive_formats type with
  | None => Ok (VStr (getErrorMessage []))
  | Some formats =>
      v ← primitive_value (d_definition d) formats;
      attribute ← xml_field xml #"attribute";
      if truthy attribute then Ok (VObj [(#"name", d_name d); (#"value", v)])
      else VStr <$> wrapTag (d_name d) v attributes
  end.

Definition getInfiniteLoopMessage (name loopTo : value) : res jstr :=
  wrapTag name (VStr (#"<!-- Infinite loop $ref:" ++ to_string loopTo ++ #" -->")) [].

Section createSchemaXML.
Context (models : list (jstr * model)) (isParam : bool).

Definition enter_model (ref modelType : jstr) (c : xml_config) : xml_config :=
  if ignored ref c then {| modelsToIgnore := modelsToIgnore c; loopTo := VStr modelType |} else ignore_model ref c.

(** The [null] descriptor of a missing model is [None]. *)
Definition model_descriptor (modelType : jstr) (name : value) (loop : bool) : res (option Descriptor) :=
  match pget models modelType with
  | Some m =>
      if truthy (m_definition m) then
        t ← get (m_definition m) #"type";
        xml ← get (m_definition m) #"xml";
        xname ← xml_field xml #"name";
        let type := if loop then VStr #"loop" else or_else t (VStr #"object") in
        d ← newDescriptor (or_else name (or_else xname (VStr (m_name m)))) type (m_definition m);
        Ok (Some d)
      else Ok None
  | None => Ok None
  end.

Definition getDescriptorByRef (ref : jstr) (name : value) (c : xml_config) : res (option Descriptor * xml_config) :=
  modelType ← simpleRef (VStr ref);
  od ← model_descriptor modelType name (ignored ref c);
  Ok (od, enter_model ref modelType c).

(** ** Arrays and objects *)

Abbreviation maker := (xml_config → value → value → res (value * xml_config)).

Definition createArrayXML (rec : maker) (d : Descriptor) (c : xml_config) : res (value * xml_config) :=
  items ← get (d_definition d) #"items";
  xml ← get (d_definition d) #"xml";
  attributes ← getNamespace xml;
  if truthy items then
    ixml ← get items #"xml";
    iname ← xml_field ixml #"name";
    '(v, c) ← rec c (if truthy iname then iname else d_name d) items;
    wrapped ← xml_field xml #"wrapped";
    if truthy wrapped then t ← wrapTag (d_name d) v attributes; Ok (VStr t, c)
    else Ok (v, c)
  else Ok (VStr (getErrorMessage []), c).

(** The loop over the properties: attributes, texts, state. *)
Definition property_xml (rec : maker) (acc : list value * list jstr * xml_config) (member : value * value)
    : res (list value * list jstr * xml_config) :=
  let '(attrs, texts, c) := acc in
  let '(key, prop) := member in
  readOnly ← (if isParam then get prop #"readOnly" else Ok VUndef);
  if truthy readOnly then Ok (attrs, texts ++ [ []], c)
  else
    xml ← get prop #"xml";
    attribute ← xml_field xml #"attribute";
    '(result, c) ← rec c key prop;
    Ok (if truthy attribute then (attrs ++ [result], texts ++ [ []], c) else (attrs, texts ++ [joined result], c)).

Definition createObjectXML (rec : maker) (d : Descriptor) (c : xml_config) : res (value * xml_config) :=
  properties ← get (d_definition d) #"properties";
  additionalProperties ← get (d_definition d) #"additionalProperties";
  xml ← get (d_definition d) #"xml";
  attrs ← getNamespace xml;
  if truthy properties || truthy additionalProperties then
    '(attrs, texts, c) ← fold_res (property_xml rec) (members (or_else properties (VObj []))) (attrs, [], c);
    t ← wrapTag (d_name d)
          (VStr (concat texts ++ if truthy additionalProperties then #"<!-- additional elements allowed -->" else []))
          attrs;
    Ok (VStr t, c)
  else Ok (VStr (getErrorMessage []), c).

(** The part of [createSchemaXML] after the descriptor is known. *)
Definition described_xml (rec : maker) (d : Descriptor) (c : xml_config) : res (value * xml_config) :=
  if is_str #"array" (d_type d) then createArrayXML rec d c
  else if is_str #"object" (d_type d) then createObjectXML rec d c
  else if is_str #"loop" (d_type d) then t ← getInfiniteLoopMessage (d_name d) (loopTo c); Ok (VStr t, c)
  else v ← createPrimitiveXML d; Ok (v, c).

Definition schema_xml_step (rec : maker) (c : xml_config) (name definition : value) : res (value * xml_config) :=
  ref ← (if is_object definition then get definition #"$ref" else Ok VNull);
  match ref with
  | VStr r =>
      '(od, c) ← getDescriptorByRef r name c;
      match od with
      | None => Ok (VStr (getErrorMessage []), c)
      | Some d =>
          '(output, c) ← described_xml rec d c;
          Ok (output, if negb (streq r []) && negb (is_str #"loop" (d_type d)) then release_model r c else c)
      end
  | _ =>
      d ← getDescriptor name definition;
      described_xml rec d c
  end.

Fixpoint schema_xml_go (n : nat) : maker := λ c name definition,
  match n with
  | O => stack_overflow
  | S n => schema_xml_step (schema_xml_go n) c name definition
  end.

(** ** Bounds

    A reference that leads to a model is its name or its pointer. A call visits only
    references that are not on the list, so the schema is at most as deep as the
    definition and all the models behind references not yet on the list. *)

Definition references : list jstr := concat (map (λ p, [p.1; #"#/definitions/" ++ p.1]) models).
Definition open_references (c : xml_config) : nat :=
  length (List.filter (λ r, negb (ignored r c)) references).
Definition deepest : nat := list_max (map (λ p : jstr * model, depth (m_definition p.2)) models).
Definition xml_bound (c : xml_config) (definition : value) : nat :=
  (depth definition + open_references c * deepest)%nat.

Definition createSchemaXML (c : xml_config) (name definition : value) : res (value * xml_config) :=
  schema_xml_go (xml_bound c definition) c name definition.

Definition no_references : xml_config := {| modelsToIgnore := []; loopTo := VUndef |}.

Definition prolog : jstr := #"<?xml version=" ++ [34] ++ #"1.0" ++ [34] ++ #"?>".

Definition createXMLSample (name definition : value) : res jstr :=
  '(v, _) ← createSchemaXML no_references name definition;
  Ok (formatXml (prolog ++ to_string v)).

(** ** Comparing two runs *)

(** Two runs end alike: with results in [P], or with the same exception, which is
    not the overflow of the stack. *)
Definition agree {A B} (P : A → B → Prop) (r1 : res A) (r2 : res B) : Prop :=
  match r1, r2 with
  | Ok a, Ok b => P a b
  | Throw e, Throw f => e = f ∧ no_overflow (@Throw A e)
  | _, _ => False
  end.

Lemma agree_bind {A B C D} (P : A → B → Prop) (Q : C → D → Prop) m1 m2 f g :
  agree P m1 m2 → (∀ a b, P a b → m1 = Ok a → m2 = Ok b → agree Q (f a) (g b)) → agree Q (m1 ≫= f) (m2 ≫= g).
Proof.
  destruct m1, m2; cbn; try done; [eauto|]. intros [-> H] _. split; [done|]. intros [= ->]. by apply H.
Qed.

Lemma agree_same {A C D} (Q : C → D → Prop) (m : res A) f g :
  no_overflow m → (∀ a, m = Ok a → agree Q (f a) (g a)) → agree Q (m ≫= f) (m ≫= g).
Proof.
  intros Hm Hf. apply (agree_bind (λ a b, a = b)); [|intros a b -> H _; by apply Hf]. destruct m; [done|]. split; done.
Qed.

Lemma agree_fold {A B C} (P : A → B → Prop) (f : A → C → res A) (g : B → C → res B) l :
  (∀ a b x, x ∈ l → P a b → agree P (f a x) (g b x)) → ∀ a b, P a b → agree P (fold_res f l a) (fold_res g l b).
Proof.
  induction l as [|x l IH]; intros H a b Hab; cbn; [done|].
  apply (agree_bind P); [apply H; [by left|done]|]. intros a' b' Hab' _ _. apply IH; [|done].
  intros u v y Hy. apply H. by right.
Qed.

Lemma agree_weaken {A B} (P Q : A → B → Prop) r1 r2 : (∀ a b, P a b → Q a b) → agree P r1 r2 → agree Q r1 r2.
Proof. intros H. destruct r1, r2; cbn; auto. Qed.

Lemma no_overflow_xml_field v k : no_overflow (xml_field v k).
Proof. apply no_overflow_get. Qed.
Lemma no_overflow_namespace v : no_overflow (getNamespace v).
Proof.
  apply no_overflow_bind; [apply no_overflow_xml_field|]. intros x _. case_if; [|done].
  apply no_overflow_bind; [apply no_overflow_xml_field|done].
Qed.
Lemma no_overflow_wrapTag n v l : no_overflow (wrapTag n v l).
Proof.
  apply no_overflow_bind; [|done]. apply no_overflow_map. intros a _.
  apply no_overflow_bind; [apply no_overflow_get|intros x _]. apply no_overflow_bind; [apply no_overflow_get|done].
Qed.
Lemma no_overflow_descriptor n t d : no_overflow (newDescriptor n t d).
Proof.
  apply no_overflow_bind; [apply no_overflow_get|intros x _]. apply no_overflow_bind; [|done].
  apply no_overflow_bind; [apply no_overflow_xml_field|done].
Qed.
Lemma no_overflow_primitive d : no_overflow (createPrimitiveXML d).
Proof.
  do 2 (apply no_overflow_bind; [apply no_overflow_get|intros ? _]).
  apply no_overflow_bind; [apply no_overflow_namespace|intros ? _].
  destruct (primitive_formats _); [|done]. apply no_overflow_bind.
  - apply no_overflow_bind; [apply no_overflow_get|intros en _].
    destruct en; try done; (apply no_overflow_bind; [apply no_overflow_get|intros ? _]);
      (apply no_overflow_bind; [apply no_overflow_get|done]).
  - intros ? _. apply no_overflow_bind; [apply no_overflow_xml_field|intros ? _].
    case_if; [done|]. apply no_overflow_fmap, no_overflow_wrapTag.
Qed.

Create HintDb overflow.
#[local] Hint Resolve no_overflow_get no_overflow_xml_field no_overflow_namespace no_overflow_wrapTag
  no_overflow_descriptor no_overflow_primitive no_overflow_simpleRef : overflow.
Ltac same := apply agree_same; [solve [auto with overflow]|let H := fresh "Hget" in intros ? H].

Definition grows (c c' : xml_config) : Prop := modelsToIgnore c ⊆ modelsToIgnore c'.

#[local] Instance grows_preorder : PreOrder grows.
Proof. split; [by intros c x|]. intros a b c Hab Hbc x Hx. by apply Hbc, Hab. Qed.

(** The schemas a definition hands to recursive calls. *)
Definition child (definition x : value) : Prop :=
  get definition #"items" = Ok x ∧ truthy x = true ∨
  ∃ ps key, get definition #"properties" = Ok ps ∧ (key, x) ∈ members (or_else ps (VObj [])).

Section related.
Context (E : xml_config → xml_config → Prop) (small : xml_config → value → Prop) (rec1 rec2 : maker).

Definition alike (c : xml_config) (p q : value * xml_config) : Prop := p.1 = q.1 ∧ E p.2 q.2 ∧ grows c p.2.

Hypothesis small_grows : ∀ c c' v, grows c c' → small c v → small c' v.
Hypothesis rec_alike : ∀ c1 c2 name v, E c1 c2 → small c1 v → agree (alike c1) (rec1 c1 name v) (rec2 c2 name v).

Lemma array_alike d c1 c2 :
  E c1 c2 → (∀ x, child (d_definition d) x → small c1 x) →
  agree (alike c1) (createArrayXML rec1 d c1) (createArrayXML rec2 d c2).
Proof.
  intros HE Hc. unfold createArrayXML. same. same. same. destruct (truthy _) eqn:Ht; [|done]. same. same.
  apply (agree_bind (alike c1)); [apply rec_alike; [done|]; apply Hc; by left|].
  intros [v1 d1] [v2 d2] (Hv & HE' & Hg) _ _. cbn in Hv, HE', Hg. subst v2. same. case_if; [|done]. same. done.
Qed.

Lemma property_alike c member a1 a2 :
  (∀ c', grows c c' → small c' member.2) →
  a1.1 = a2.1 ∧ E a1.2 a2.2 ∧ grows c a1.2 →
  agree (λ a b, a.1 = b.1 ∧ E a.2 b.2 ∧ grows c a.2) (property_xml rec1 a1 member) (property_xml rec2 a2 member).
Proof.
  destruct a1 as [[attrs texts] c1], a2 as [[attrs' texts'] c2], member as [key prop]. cbn [fst snd].
  intros Hs ([= <- <-] & HE & Hg). unfold property_xml. apply agree_same; [destruct isParam; [auto with overflow|done]|].
  intros ro _. case_if; [done|]. same. same.
  apply (agree_bind (alike c1)); [apply rec_alike; [done|by apply Hs]|].
  intros [v1 d1] [v2 d2] (Hv & HE' & Hg') _ _. cbn in Hv, HE', Hg'. subst v2. cbn. case_if; repeat split; try done; by etrans.
Qed.

Lemma object_alike d c1 c2 :
  E c1 c2 → (∀ x, child (d_definition d) x → small c1 x) →
  agree (alike c1) (createObjectXML rec1 d c1) (createObjectXML rec2 d c2).
Proof.
  intros HE Hc. unfold createObjectXML. same. same. same. same. case_if; [|done].
  apply (agree_bind (λ a b : list value * list jstr * xml_config, a.1 = b.1 ∧ E a.2 b.2 ∧ grows c1 a.2)).
  - apply agree_fold; [|done]. intros u w [key x] Hx Huw. apply property_alike; [|done].
    intros c' Hg. apply (small_grows c1); [done|]. apply Hc. right. eauto.
  - intros [[as1 t1] e1] [[as2 t2] e2] (Heq & HE' & Hg) _ _. cbn in Heq, HE', Hg. injection Heq as <- <-. same. done.
Qed.

Lemma described_alike d c1 c2 :
  E c1 c2 → (∀ x, child (d_definition d) x → is_str #"loop" (d_type d) = false → small c1 x) →
  (is_str #"loop" (d_type d) = true → loopTo c1 = loopTo c2) →
  agree (alike c1) (described_xml rec1 d c1) (described_xml rec2 d c2).
Proof.
  intros HE Hc Hl. unfold described_xml. destruct (is_str #"array" (d_type d)) eqn:Ea.
  { apply array_alike; [done|]. intros x Hx. apply Hc; [done|]. destruct (d_type d); try done. by apply streq_spec in Ea as ->. }
  destruct (is_str #"object" (d_type d)) eqn:Eo.
  { apply object_alike; [done|]. intros x Hx. apply Hc; [done|]. destruct (d_type d); try done. by apply streq_spec in Eo as ->. }
  destruct (is_str #"loop" (d_type d)).
  - rewrite -(Hl eq_refl). unfold getInfiniteLoopMessage. same. done.
  - same. done.
Qed.
End related.

(** ** The recursion is bounded *)

Definition ref_name (r : jstr) : jstr := if starts_with #"#/definitions/" r then substring_from 14 r else r.

Lemma ref_in_references r m : pget models (ref_name r) = Some m → r ∈ references.
Proof.
  intros H%pget_some_in. unfold references. apply list_elem_of_In, in_concat. eexists. split; [by apply in_map, list_elem_of_In|].
  unfold ref_name. destruct (starts_with #"#/definitions/" r) eqn:E; [right; left|by left].
  rewrite starts_with_prefixb in E. by apply prefixb_spec in E as [t ->].
Qed.

Lemma ignored_spec r c : ignored r c = true ↔ r ∈ modelsToIgnore c.
Proof.
  unfold ignored. rewrite existsb_exists. split.
  - intros (x & Hx & ->%streq_spec). by apply list_elem_of_In.
  - intros H. exists r. by rewrite -list_elem_of_In streq_refl.
Qed.

Lemma ignored_grows r c c' : grows c c' → ignored r c = true → ignored r c' = true.
Proof. rewrite !ignored_spec. auto. Qed.

Lemma filter_length_le {A} (f g : A → bool) l :
  (∀ x, f x = true → g x = true) → (length (List.filter f l) <= length (List.filter g l))%nat.
Proof.
  intros H. induction l as [|x l IH]; [done|]. cbn. specialize (H x).
  destruct (f x), (g x); cbn; lia.
Qed.

Lemma open_references_grows c c' : grows c c' → (open_references c' <= open_references c)%nat.
Proof.
  intros Hg. apply filter_length_le. intros r. destruct (ignored r c) eqn:E; [|done]. by rewrite (ignored_grows r c c').
Qed.

Lemma ignore_grows r c : grows c (ignore_model r c).
Proof. intros x Hx. apply elem_of_app. by left. Qed.

Lemma open_references_visit r m c :
  pget models (ref_name r) = Some m → ignored r c = false →
  (open_references (ignore_model r c) < open_references c)%nat.
Proof.
  intros Hm Hr. apply ref_in_references, list_elem_of_split in Hm as (a & b & Hab).
  assert (ignored r (ignore_model r c) = true) as Hr'.
  { apply ignored_spec. cbn. apply elem_of_app. right. by left. }
  assert (∀ l, (length (List.filter (λ x, negb (ignored x (ignore_model r c))) l)
                <= length (List.filter (λ x, negb (ignored x c)) l))%nat) as Hle.
  { intros l. apply filter_length_le. intros x. destruct (ignored x c) eqn:E; [|done].
    by rewrite (ignored_grows x c _ (ignore_grows r c)). }
  unfold open_references. rewrite Hab !List.filter_app !length_app. cbn [List.filter]. rewrite Hr Hr' /=.
  pose proof (Hle a). pose proof (Hle b). lia.
Qed.

Lemma members_depth v key x : (key, x) ∈ members v → (depth x <= depth v)%nat.
Proof.
  destruct v as [| | | | |s|l|o]; cbn [members]; intros Hin; try (by apply not_elem_of_nil in Hin).
  - apply list_elem_of_lookup in Hin as [i Hi]. rewrite list_lookup_imap in Hi.
    destruct (s !! i); [|done]. by injection Hi as _ <-.
  - apply list_elem_of_lookup in Hin as [i Hi]. rewrite list_lookup_imap in Hi.
    destruct (l !! i) as [y|] eqn:E; [|done]. injection Hi as _ <-.
    apply list_elem_of_lookup_2 in E. apply (list_max_in depth) in E. cbn. lia.
  - assert (∀ l : list (jstr * value), (key, x) ∈ map (λ '(k, x), (VStr k, x)) l → l ≡ₚ o → (depth x <= depth (VObj o))%nat) as Hplain.
    { intros l Hl Hp. apply list_elem_of_fmap in Hl as ([k y] & [= -> ->] & Hl). rewrite Hp in Hl.
      apply (list_max_in (λ p : jstr * value, depth p.2)) in Hl. cbn in *. lia. }
    destruct (field o #"length") as [| | |n| | | |]; try (by apply (Hplain (enum o)); [|apply enum_perm]).
    case_if; [|by apply (Hplain (enum o)); [|apply enum_perm]].
    apply list_elem_of_fmap in Hin as (i & [= -> ->] & _). unfold field.
    destruct (pget o (str_of_Z i)) as [y|] eqn:E; [|cbn; lia].
    apply pget_some_in, (list_max_in (λ p : jstr * value, depth p.2)) in E. cbn in *. unfold id. lia.
Qed.

Lemma child_depth definition x : child definition x → (depth x < depth definition)%nat.
Proof.
  pose proof (height_depth definition).
  intros [[Hx Ht]|(ps & key & Hps & Hx)].
  - apply get_depth in Hx as [Hx| ->]; [lia|done..].
  - apply get_depth in Hps as [Hps| ->]; [|by apply not_elem_of_nil in Hx|done..].
    apply members_depth in Hx. unfold or_else in Hx. pose proof (depth_pos ps). destruct (truthy ps); cbn in Hx; lia.
Qed.

Lemma child_bound c c' definition x : grows c c' → child definition x → (xml_bound c' x < xml_bound c definition)%nat.
Proof. intros Hg Hx%child_depth. apply open_references_grows in Hg. unfold xml_bound. nia. Qed.

Lemma model_bound r m c c' x definition :
  pget models (ref_name r) = Some m → ignored r c = false → grows (ignore_model r c) c' → child (m_definition m) x →
  (xml_bound c' x < xml_bound c definition)%nat.
Proof.
  intros Hm Hr Hg Hx. apply (open_references_visit r m c) in Hr; [|done]. apply open_references_grows in Hg.
  apply child_depth in Hx. apply pget_some_in, (list_max_in (λ p : jstr * model, depth (m_definition p.2))) in Hm.
  fold deepest in Hm. cbn in Hm. pose proof (depth_pos definition). unfold xml_bound. nia.
Qed.

Lemma splice_other r x l : x ≠ r → x ∈ l → x ∈ splice_first r l.
Proof.
  intros Hx. induction l as [|y l IH]; intros Hin; [done|]. cbn. destruct (streq r y) eqn:E.
  - apply streq_spec in E as <-. by apply elem_of_cons in Hin as [->|].
  - apply elem_of_cons in Hin as [->|Hin]; [by left|right; auto].
Qed.

Lemma release_grows r c c' : ignored r c = false → grows (ignore_model r c) c' → grows c (release_model r c').
Proof.
  intros Hr Hg x Hx. apply splice_other; [|apply Hg, ignore_grows, Hx].
  intros ->. apply ignored_spec in Hx. congruence.
Qed.

(** The descriptor of a model. *)
Lemma model_descriptor_some n name loop d :
  model_descriptor n name loop = Ok (Some d) →
  ∃ m t, pget models n = Some m ∧ truthy (m_definition m) = true ∧ d_definition d = m_definition m ∧
    get (m_definition m) #"type" = Ok t ∧ d_type d = if loop then VStr #"loop" else or_else t (VStr #"object").
Proof.
  unfold model_descriptor, newDescriptor. intros H. destruct (pget models n) as [m|]; [|done].
  destruct (truthy (m_definition m)) eqn:Ht; [|done]. inv_res. subst. do 2 eexists. by repeat split.
Qed.

Lemma no_overflow_model n name loop : no_overflow (model_descriptor n name loop).
Proof.
  unfold model_descriptor. destruct (pget models n); [|done]. case_if; [|done].
  do 4 (apply no_overflow_bind; [auto with overflow|intros ? _]). done.
Qed.

Lemma by_ref_eq r name c :
  getDescriptorByRef r name c = od ← model_descriptor (ref_name r) name (ignored r c); Ok (od, enter_model r (ref_name r) c).
Proof. done. Qed.

Lemma enter_grows r n c : grows c (enter_model r n c).
Proof. unfold enter_model. destruct (ignored r c); [by intros x|apply ignore_grows]. Qed.

Lemma descriptor_definition name definition d : getDescriptor name definition = Ok d → d_definition d = definition.
Proof.
  unfold getDescriptor, newDescriptor. intros H. inv_res. by subst.
Qed.

Lemma no_overflow_getDescriptor name definition : no_overflow (getDescriptor name definition).
Proof. do 3 (apply no_overflow_bind; [auto with overflow|intros ? _]). auto with overflow. Qed.

Lemma schema_xml_step_ext rec1 rec2 c name definition :
  (∀ c' k v, (xml_bound c' v < xml_bound c definition)%nat → agree (alike eq c') (rec1 c' k v) (rec2 c' k v)) →
  agree (alike eq c) (schema_xml_step rec1 c name definition) (schema_xml_step rec2 c name definition).
Proof.
  intros Hrec. set (N := xml_bound c definition) in *.
  assert (∀ d c', (∀ x, child (d_definition d) x → is_str #"loop" (d_type d) = false → (xml_bound c' x < N)%nat) →
    agree (alike eq c') (described_xml rec1 d c') (described_xml rec2 d c')) as Hd.
  { intros d c' Hx. apply described_alike with (small := λ c v, (xml_bound c v < N)%nat); try done.
    - intros c1 c2 v Hg%open_references_grows. unfold xml_bound. nia.
    - intros c1 c2 k v ->. apply Hrec. }
  unfold schema_xml_step. apply agree_same; [destruct (is_object definition); [auto with overflow|done]|]. intros ref _.
  assert (agree (alike eq c) (d ← getDescriptor name definition; described_xml rec1 d c)
    (d ← getDescriptor name definition; described_xml rec2 d c)) as Hown.
  { apply agree_same; [apply no_overflow_getDescriptor|]. intros d E%descriptor_definition. apply Hd.
    rewrite E. intros x Hx _. by apply child_bound. }
  destruct ref as [| | | | |r| |]; try exact Hown. clear Hown.
  rewrite by_ref_eq. unfold enter_model. destruct (ignored r c) eqn:Hr.
  - apply (agree_bind (λ p q, p = q ∧ p.2 = {| modelsToIgnore := modelsToIgnore c; loopTo := VStr (ref_name r) |} ∧
      match p.1 with Some d => d_type d = VStr #"loop" | None => True end)).
    { apply agree_same; [apply no_overflow_model|]. intros [d|] E; [|done]. 
      apply model_descriptor_some in E as (m & t & _ & _ & _ & _ & Ht). by repeat split. }
    intros [od c'] ? (<- & Hc' & Ht) _ _. cbn in Hc', Ht. subst c'. destruct od as [d|]; [|repeat split; by intros x]. rewrite Ht andb_false_r.
    apply (agree_bind (alike eq c)); [|by intros [v1 d1] [v2 d2] H _ _].
    apply (agree_weaken (alike eq {| modelsToIgnore := modelsToIgnore c; loopTo := VStr (ref_name r) |})); [done|].
    apply Hd. by rewrite Ht.
  - apply (agree_bind (λ p q, p = q ∧ p.2 = ignore_model r c ∧ match p.1 with Some d =>
        ∀ x, child (d_definition d) x → (xml_bound (ignore_model r c) x < N)%nat | None => True end)).
    { apply agree_same; [apply no_overflow_model|]. intros [d|] E; [|done].
      apply model_descriptor_some in E as (m & t & Hm & _ & Ed & _). repeat split. cbn. rewrite Ed. intros x Hx. by apply (model_bound r m). }
    intros [od c'] ? (<- & Hc' & Hx) _ _. cbn in Hc', Hx. subst c'. destruct od as [d|]; [|repeat split; apply ignore_grows].
    apply (agree_bind (alike eq (ignore_model r c))).
    + apply Hd. intros x Hxc _. by apply Hx.
    + intros [v1 d1] [v2 d2] (Hv & HE & Hg) _ _. cbn in Hv, HE, Hg. subst. repeat split; cbn. case_if.
      * by apply release_grows.
      * etrans; [apply ignore_grows|done].
Qed.

Lemma schema_xml_go_fuel n : ∀ m c name definition,
  (xml_bound c definition <= n)%nat → (xml_bound c definition <= m)%nat →
  agree (alike eq c) (schema_xml_go n c name definition) (schema_xml_go m c name definition).
Proof.
  induction n as [|n IH]; intros [|m] c name definition Hn Hm; pose proof (depth_pos definition);
    try (unfold xml_bound in Hn, Hm; lia).
  cbn [schema_xml_go]. apply schema_xml_step_ext. intros c' k v Hv. apply IH; lia.
Qed.

Lemma agree_eq c r1 r2 : agree (alike eq c) r1 r2 → r1 = r2 ∧ no_overflow r1.
Proof.
  destruct r1 as [[v1 d1]|e], r2 as [[v2 d2]|f]; cbn; try done.
  - intros (Hv & Hd & _). cbn in Hv, Hd. by subst.
  - by intros [-> H].
Qed.

Lemma createSchemaXML_eq c name definition :
  createSchemaXML c name definition = schema_xml_step createSchemaXML c name definition.
Proof.
  unfold createSchemaXML at 1. pose proof (depth_pos definition).
  destruct (xml_bound c definition) as [|n] eqn:E; [unfold xml_bound in E; lia|]. cbn [schema_xml_go].
  apply (agree_eq c). apply schema_xml_step_ext. intros c' k v Hv. apply schema_xml_go_fuel; lia.
Qed.

Lemma createSchemaXML_grows c name definition : agree (alike eq c) (createSchemaXML c name definition) (createSchemaXML c name definition).
Proof. by apply schema_xml_go_fuel. Qed.

(** Making an XML sample ends for every schema and every table of models, however
    the models refer to each other: the recursion of the code is well founded and
    the stack is never exhausted. *)
Theorem createSchemaXML_terminates c name definition :
  createSchemaXML c name definition = schema_xml_step createSchemaXML c name definition ∧
  no_overflow (createSchemaXML c name definition).
Proof. split; [apply createSchemaXML_eq|]. eapply proj2, (agree_eq c), createSchemaXML_grows. Qed.

(** ** The shared list acts like a copy per call *)

(** The reference: every call leaves its caller's [config] as it was, so that the
    list a schema sees holds exactly the references it is nested in. *)
Fixpoint copied_xml (n : nat) : maker := λ c name definition,
  match n with
  | O => stack_overflow
  | S n => '(v, _) ← schema_xml_step (copied_xml n) c name definition; Ok (v, c)
  end.

Definition has_model (r : jstr) : bool :=
  match pget models (ref_name r) with Some m => truthy (m_definition m) | None => false end.

(** No schema in [v] declares the type by which the code marks its loops. *)
Fixpoint no_loop (v : value) : bool :=
  match v with
  | VArr l => forallb no_loop l
  | VObj o => negb (is_str #"loop" (field o #"type")) && forallb (λ p, no_loop p.2) o
  | _ => true
  end.

(** The shared list [d1] has the references to models that the list [L] has, each
    once. *)
Definition follows (L : list jstr) (d1 d2 : xml_config) : Prop :=
  NoDup (modelsToIgnore d1) ∧ (∀ r, has_model r = true → r ∈ modelsToIgnore d1 ↔ r ∈ L) ∧ modelsToIgnore d2 = L.

Lemma no_loop_type v t : no_loop v = true → get v #"type" = Ok t → is_str #"loop" (or_else t (VStr #"object")) = false.
Proof.
  intros Hv Ht. destruct v as [| | | | | | |o]; try done; try (by injection Ht as <-).
  injection Ht as <-. cbn in Hv. apply andb_true_iff in Hv as [Hv _]. apply negb_true_iff in Hv.
  unfold or_else. by destruct (truthy _).
Qed.

Lemma no_loop_in o k x : no_loop (VObj o) = true → (k, x) ∈ o → no_loop x = true.
Proof.
  cbn. rewrite andb_true_iff forallb_forall. intros [_ H] Hin%list_elem_of_In. by apply (H (k, x)).
Qed.

Lemma no_loop_get v k x : no_loop v = true → k ≠ #"length" → canonical_index k = None → get v k = Ok x → no_loop x = true.
Proof.
  intros Hv Hl Hc Hx. destruct v as [| | | | | | |o]; try done; cbn [get] in Hx;
    rewrite ?(proj2 (streq_neq k _) Hl) ?Hc in Hx; injection Hx as <-; try done.
  destruct (pget o k) as [y|] eqn:E; [|done]. apply pget_some_in in E. by apply (no_loop_in o k).
Qed.

Lemma no_loop_members v k x : no_loop v = true → (k, x) ∈ members v → no_loop x = true.
Proof.
  intros Hv. destruct v as [| | | | |s|l|o]; cbn [members]; intros Hin; try (by apply not_elem_of_nil in Hin).
  - apply list_elem_of_lookup in Hin as [i Hi]. rewrite list_lookup_imap in Hi.
    destruct (s !! i); [|done]. by injection Hi as _ <-.
  - apply list_elem_of_lookup in Hin as [i Hi]. rewrite list_lookup_imap in Hi.
    destruct (l !! i) as [y|] eqn:E; [|done]. injection Hi as _ <-.
    apply list_elem_of_lookup_2, list_elem_of_In in E. cbn in Hv. rewrite forallb_forall in Hv. auto.
  - assert ((k, x) ∈ map (λ '(k, x), (VStr k, x)) (enum o) → no_loop x = true) as Hplain.
    { intros H. apply list_elem_of_fmap in H as ([k' y] & [= -> ->] & H). rewrite enum_perm in H. by apply (no_loop_in o k'). }
    destruct (field o #"length") as [| | |n| | | |]; auto. destruct (0 <=? n); auto.
    apply list_elem_of_fmap in Hin as (i & [= -> ->] & _). unfold field. destruct (pget o _) as [y|] eqn:E; [|done].
    apply pget_some_in in E. by apply (no_loop_in o (str_of_Z i)).
Qed.

Lemma no_loop_child v x : no_loop v = true → child v x → no_loop x = true.
Proof.
  intros Hv [[Hx _]|(ps & k & Hps & Hx)]; [by apply (no_loop_get v #"items")|].
  apply (no_loop_members (or_else ps (VObj [])) k); [|done]. unfold or_else. case_if; [|done]. by apply (no_loop_get v #"properties").
Qed.

Lemma splice_in r x l : NoDup l → x ∈ splice_first r l ↔ x ∈ l ∧ x ≠ r.
Proof.
  induction 1 as [|y l Hy _ IH]; cbn; [set_solver|]. destruct (streq r y) eqn:E.
  - apply streq_spec in E as <-. rewrite elem_of_cons. split; [intros Hx; split; [by right|by intros ->]|].
    by intros [[->|Hx] Hne].
  - apply streq_neq in E. rewrite !elem_of_cons IH. naive_solver.
Qed.

Lemma splice_nodup r l : NoDup l → NoDup (splice_first r l).
Proof.
  induction 1 as [|y l Hy Hl IH]; cbn; [constructor|]. destruct (streq r y); [done|].
  constructor; [|done]. rewrite splice_in //. by intros [? _].
Qed.

Lemma follows_ignored L r d1 d2 : follows L d1 d2 → has_model r = true → ignored r d1 = ignored r d2.
Proof.
  intros (_ & H & HL) Hr. apply eq_iff_eq_true. rewrite !ignored_spec HL. auto.
Qed.

Lemma follows_push L r d1 d2 :
  follows L d1 d2 → ignored r d1 = false → follows (L ++ [r]) (ignore_model r d1) (ignore_model r d2).
Proof.
  intros (Hn & H & HL) Hr. assert (r ∉ modelsToIgnore d1) as Hr' by (rewrite -ignored_spec; congruence). split; [|split].
  - cbn. apply NoDup_app. split; [done|]. split; [|apply NoDup_singleton].
    intros x Hx ->%list_elem_of_singleton. done.
  - intros x Hx. cbn. rewrite !elem_of_app H //.
  - cbn. by rewrite HL.
Qed.

(** References without a model may stay on the list. *)
Lemma follows_dangling L r n d1 d2 : follows L d1 d2 → has_model r = false → follows L (enter_model r n d1) d2.
Proof.
  intros HF Hr. unfold enter_model. destruct (ignored r d1) eqn:Hi; [done|].
  destruct (follows_push L r d1 d2 HF Hi) as (Hn & H & _). split; [done|]. split; [|apply HF].
  intros x Hx. rewrite H // elem_of_app list_elem_of_singleton. split; [|by left]. intros [|Heq]; [done|congruence].
Qed.

Lemma follows_release L r d1 d2 c2 :
  follows (L ++ [r]) d1 d2 → r ∉ L → modelsToIgnore c2 = L → follows L (release_model r d1) c2.
Proof.
  intros (Hn & H & _) Hr HL. split; [by apply splice_nodup|]. split; [|done].
  intros x Hx. cbn. rewrite splice_in // H // elem_of_app list_elem_of_singleton. split; [naive_solver|].
  intros HxL. split; [by left|]. congruence.
Qed.

Definition loop_free : Prop :=
  has_model [] = false ∧ Forall (λ p : jstr * model, no_loop (m_definition p.2) = true) models.

Lemma has_model_none r name loop : has_model r = false → model_descriptor (ref_name r) name loop = Ok None.
Proof. unfold has_model, model_descriptor. destruct (pget models _); [|done]. by intros ->. Qed.

Section copied.
Hypothesis models_loop_free : loop_free.
Context (rec1 rec2 : maker) (c1 c2 : xml_config) (N : nat).
Hypothesis rec_copied : ∀ c c' k v,
  follows (modelsToIgnore c') c c' → (xml_bound c v < N)%nat → no_loop v = true →
  agree (alike (follows (modelsToIgnore c')) c) (rec1 c k v) (rec2 c' k v).

(** Under the same list, described schemas come out alike. *)
Lemma described_copied L d c c' :
  follows L c c' → (∀ x, child (d_definition d) x → is_str #"loop" (d_type d) = false → (xml_bound c x < N)%nat ∧ no_loop x = true) →
  (is_str #"loop" (d_type d) = true → loopTo c = loopTo c') →
  agree (alike (follows L) c) (described_xml rec1 d c) (described_xml rec2 d c').
Proof.
  intros HF Hx Hl. apply described_alike with (small := λ c v, (xml_bound c v < N)%nat ∧ no_loop v = true); try done.
  - intros e1 e2 v Hg%open_references_grows [Hb Hn]. split; [|done]. unfold xml_bound in *. nia.
  - intros e1 e2 k v HF' [Hb Hn]. destruct (HF') as (_ & _ & <-). by apply rec_copied.
Qed.

Lemma loop_free_model r m name loop d :
  pget models (ref_name r) = Some m → model_descriptor (ref_name r) name loop = Ok (Some d) →
  no_loop (m_definition m) = true ∧ (loop = false → is_str #"loop" (d_type d) = false) ∧ d_definition d = m_definition m.
Proof.
  intros Hm Hd. apply model_descriptor_some in Hd as (m' & t & Hm' & _ & Hd & Ht & Htype).
  assert (m' = m) as -> by congruence. apply pget_some_in in Hm. destruct models_loop_free as [_ HF].
  rewrite Forall_forall in HF. specialize (HF _ Hm). cbn in HF. split; [done|]. split; [|done].
  intros ->. rewrite Htype. by apply (no_loop_type (m_definition m)).
Qed.

Lemma step_copied name definition :
  follows (modelsToIgnore c2) c1 c2 → N = xml_bound c1 definition → no_loop definition = true →
  agree (alike (follows (modelsToIgnore c2)) c1) (schema_xml_step rec1 c1 name definition)
    ('(v, _) ← schema_xml_step rec2 c2 name definition; Ok (v, c2)).
Proof.
  intros HF HN Hn. set (L := modelsToIgnore c2) in *.
  assert (∀ r1 r2, agree (alike (follows L) c1) r1 r2 → agree (alike (follows L) c1) r1 ('(v, _) ← r2; Ok (v, c2))) as Hrestore.
  { intros [[v1 d1]|e] [[v2 d2]|f] H; try done. destruct H as (Hv & (H1 & H2 & _) & Hg). exact (conj Hv (conj (conj H1 (conj H2 eq_refl)) Hg)). }
  unfold schema_xml_step. destruct (if is_object definition then _ else _) as [ref|e] eqn:Er; cbn [mbind res_bind].
  2: { by destruct definition. }
  assert (agree (alike (follows L) c1) (d ← getDescriptor name definition; described_xml rec1 d c1)
    (d ← getDescriptor name definition; described_xml rec2 d c2)) as Hown.
  { apply agree_same; [apply no_overflow_getDescriptor|]. intros d E. apply descriptor_definition in E as Ed.
    apply described_copied; [done| |].
    - rewrite Ed HN. intros x Hx _. split; [by apply child_bound|by apply (no_loop_child definition)].
    - unfold getDescriptor, newDescriptor in E. inv_res. cbn [d_type].
      intros Hl. erewrite no_loop_type in Hl; [done|exact Hn|done]. }
  destruct ref as [| | | | |r| |]; try by apply Hrestore. clear Hown Er.
  rewrite !by_ref_eq. destruct (has_model r) eqn:Hr.
  2: { rewrite !has_model_none //. cbn. split; [done|]. split; [by apply follows_dangling|apply enter_grows]. }
  rewrite (follows_ignored L r c1 c2 HF Hr). unfold enter_model. rewrite (follows_ignored L r c1 c2 HF Hr).
  pose proof (no_overflow_model (ref_name r) name (ignored r c2)) as Hno.
  destruct (model_descriptor (ref_name r) name (ignored r c2)) as [[d|]|e] eqn:Ed; cbn [mbind res_bind]; [| |split; [done|]; intros [= ->]; by apply Hno].
  2: { unfold has_model in Hr. unfold model_descriptor in Ed. destruct (pget models (ref_name r)); [|done].
       rewrite Hr in Ed. by inv_res. }
  apply model_descriptor_some in Ed as Hd. destruct Hd as (m & t & Hm & _ & Hdef & _ & Htype).
  destruct (loop_free_model r m name _ d Hm Ed) as (Hnm & Hnl & _). destruct (ignored r c2) eqn:Hi.
  - rewrite Htype andb_false_r. apply Hrestore. apply (agree_bind (alike (follows L) c1)); [|by intros [v1 d1] [v2 d2] H _ _].
    apply (agree_weaken (alike (follows L) {| modelsToIgnore := modelsToIgnore c1; loopTo := VStr (ref_name r) |})); [done|].
    apply described_copied; [exact HF| |done]. by rewrite Htype.
  - assert (ignored r c1 = false) as Hi1 by (by rewrite (follows_ignored L r c1 c2)).
    assert (streq r [] = false) as Hne by (apply streq_neq; intros ->; destruct models_loop_free; congruence).
    rewrite Hne (Hnl eq_refl). cbn [negb andb].
    assert (agree (alike (follows (L ++ [r])) (ignore_model r c1)) (described_xml rec1 d (ignore_model r c1))
              (described_xml rec2 d (ignore_model r c2))) as H.
    { apply described_copied; [by apply follows_push| |by rewrite Hnl].
      intros x Hx _. rewrite Hdef in Hx. split; [rewrite HN; by apply (model_bound r m)|by apply (no_loop_child (m_definition m))]. }
    destruct (described_xml rec1 d _) as [[v1 d1]|e], (described_xml rec2 d _) as [[v2 d2]|f]; try done.
    destruct H as (Hv & HF' & Hg). cbn in Hv, HF', Hg. subst v2. split; [done|]. split; cbn.
    + apply (follows_release L r d1 d2); [done| |done]. fold L in HF. intros Hin. apply not_true_iff_false in Hi. by apply Hi, ignored_spec.
    + by apply release_grows.
Qed.
End copied.

Lemma go_copied : loop_free → ∀ n c1 c2 name definition,
  follows (modelsToIgnore c2) c1 c2 → (xml_bound c1 definition <= n)%nat → no_loop definition = true →
  agree (alike (follows (modelsToIgnore c2)) c1) (schema_xml_go n c1 name definition) (copied_xml n c2 name definition).
Proof.
  intros Hlf. induction n as [|n IH]; intros c1 c2 name definition HF Hn Hl; pose proof (depth_pos definition).
  { unfold xml_bound in Hn. lia. }
  cbn [schema_xml_go copied_xml]. apply (step_copied Hlf _ _ _ _ (xml_bound c1 definition)); [|done..].
  intros c c' k v HF' Hb Hv. apply IH; [done|lia|done].
Qed.

(** (C22) The calls of a sample share one list of the references they are inside of and
    each undoes its own change, even though references without a model stay on the
    list. When no schema uses the type name the code reserves, the outcome is that of
    handing every call its own copy of the list, and no reference to a model is
    added to the caller's. *)
Theorem createSchemaXML_copies c name definition :
  loop_free → NoDup (modelsToIgnore c) → no_loop definition = true →
  fst <$> createSchemaXML c name definition = fst <$> copied_xml (xml_bound c definition) c name definition ∧
  ∀ v c' r, createSchemaXML c name definition = Ok (v, c') → has_model r = true →
    r ∈ modelsToIgnore c' ↔ r ∈ modelsToIgnore c.
Proof.
  intros Hlf Hnd Hl. pose proof (go_copied Hlf (xml_bound c definition) c c name definition) as H.
  specialize (H ltac:(done) ltac:(done) Hl). unfold createSchemaXML.
  destruct (schema_xml_go _ _ _ _) as [[v1 d1]|e], (copied_xml _ _ _ _) as [[v2 d2]|f]; try done.
  - destruct H as (Hv & (_ & Hr & _) & _). cbn in Hv, Hr |- *. subst v2. split; [done|]. intros v c' r [= <- <-]. apply Hr.
  - by destruct H as [<- _].
Qed.
End createSchemaXML.

(** ** A sample *)

Definition schema_ref (r : jstr) : value := VObj [(#"$ref", VStr r)].
Definition schema_type (t : jstr) : value := VObj [(#"type", VStr t)].

(** A model that contains itself, a list of itself, an attribute and a reference
    that leads nowhere. *)
Definition node_model : value :=
  VObj [(#"type", VStr #"object");
        (#"properties", VObj [
           (#"id", VObj [(#"type", VStr #"integer"); (#"xml", VObj [(#"attribute", VBool true)])]);
           (#"label", schema_type #"string");
           (#"next", schema_ref #"#/definitions/Node");
           (#"gone", schema_ref #"#/definitions/Gone");
           (#"others", VObj [(#"type", VStr #"array"); (#"items", schema_ref #"#/definitions/Node");
                             (#"xml", VObj [(#"wrapped", VBool true)])])])].
Definition node_models : list (jstr * model) :=
  [ (#"Node", {| m_name := #"Node"; m_definition := node_model; m_type := VUndef |})].

Lemma createSchemaXML_copies_witness :
  fst <$> createSchemaXML node_models false no_references (VStr []) (schema_ref #"#/definitions/Node") =
  fst <$> copied_xml node_models false (xml_bound node_models no_references (schema_ref #"#/definitions/Node"))
            no_references (VStr []) (schema_ref #"#/definitions/Node").
Proof.
  apply (createSchemaXML_copies node_models false no_references (VStr []) (schema_ref #"#/definitions/Node"));
    [|constructor|reflexivity].
  split; [reflexivity|]. repeat constructor.
Defined.

Example node_sample :
  createXMLSample node_models false (VStr []) (schema_ref #"#/definitions/Node") =
  Ok (join [10] [
    prolog; #"<Node id=" ++ [34; 49; 34; 62]; #"  <label>string</label>";
    #"  <next>"; #"    <!-- Infinite loop $ref:Node -->"; #"  </next>"; #"  <!-- invalid XML -->";
    #"  <others>"; #"    <others>"; #"      <!-- Infinite loop $ref:Node -->"; #"    </others>"; #"  </others>"; #"</Node>"; []]).
Proof. vm_compute. reflexivity. Qed.
