(* ===== verification/XmlWellFormed.v ===== *)
(** * XML samples are well formed

    Every tag of a sample is closed in order, attributes are quoted and comments end,
    for documents whose names and texts need no escaping. *)

From S2P Require Import Prelude JsValue SchemaMarkup Regex XmlFormat XmlSample.

(** ** Well-formed content *)

Definition text_unit (x : Z) : bool := negb (has x [60; 62; 38; 34]).
Definition name_unit (x : Z) : bool := negb (has x [60; 62; 38; 34; 39; 47; 61; 32; 9; 10; 13]).
Definition text_like (s : jstr) : bool := forallb text_unit s.
Definition name_like (s : jstr) : bool := forallb name_unit s && negb (streq s []).

(** Two dashes in a row. *)
Fixpoint dashes (s : jstr) : bool :=
  match s with x :: ((y :: _) as t) => (x =? 45) && (y =? 45) || dashes t | _ => false end.

Definition attribute (a : jstr) : Prop :=
  ∃ n v, name_like n = true ∧ text_like v = true ∧ a = #" " ++ n ++ [61; 34] ++ v ++ [34].

(** Texts, comments and elements in sequence; a comment has no two dashes inside and
    does not end in one. *)
Inductive content : jstr → Prop :=
  | content_text t : text_like t = true → content t
  | content_comment b : dashes (b ++ [45]) = false → content (#"<!--" ++ b ++ #"-->")
  | content_element n attrs body :
      name_like n = true → Forall attribute attrs → content body →
      content (#"<" ++ n ++ concat attrs ++ #">" ++ body ++ #"</" ++ n ++ #">")
  | content_app a b : content a → content b → content (a ++ b).

Lemma content_nil : content [].
Proof. by apply content_text. Qed.

Lemma content_concat l : Forall content l → content (concat l).
Proof. induction 1; cbn; [apply content_nil|by apply content_app]. Qed.

(** ** Documents that need no escaping *)

Definition tidy_name (v : value) : bool := match v with VUndef => true | VStr s => name_like s | _ => false end.
Definition tidy_xml (v : value) : bool :=
  match v with
  | VUndef => true
  | VObj x => tidy_name (field x #"name") && tidy_name (field x #"prefix")
  | _ => false
  end.

(** No [null], no markup in texts, names as keys; [xml] objects, properties and types
    as the specification has them. *)
Fixpoint tidy (v : value) : bool :=
  match v with
  | VUndef | VNull => false
  | VBool _ | VNum _ => true
  | VDbl s | VStr s => text_like s
  | VArr l => forallb tidy l
  | VObj o =>
      forallb (λ p, name_like p.1 && tidy p.2) o && tidy_xml (field o #"xml") &&
      negb (is_str #"loop" (field o #"type")) &&
      match field o #"length" with VNum _ => false | _ => true end &&
      match field o #"properties" with VUndef | VObj _ => true | _ => false end
  end.

Definition tidy_model (p : jstr * model) : bool :=
  negb (dashes p.1) && text_like p.1 && name_like (m_name p.2) && tidy (m_definition p.2).

Lemma text_like_app a b : text_like (a ++ b) = text_like a && text_like b.
Proof. apply forallb_app. Qed.

Lemma digits_text n : text_like (str_of_Z n) = true.
Proof.
  assert (∀ m, 0 <= m → text_like (str_of_Z m) = true) as Hpos.
  { intros m Hm. destruct (str_of_Z_digits m Hm) as (H & _). rewrite forallb_forall in H. apply forallb_forall.
    intros x Hx%H. unfold is_digit in Hx. unfold text_unit. apply negb_true_iff, has_false.
    rewrite !elem_of_cons. intros Hin. assert (x ∉ ([] : jstr)) by apply not_elem_of_nil. naive_solver lia. }
  destruct (Z.le_gt_cases 0 n) as [Hn|Hn]; [by apply Hpos|]. rewrite str_of_Z_neg //. cbn. apply Hpos. lia.
Qed.

Lemma join_text l : Forall (λ s, text_like s = true) l → text_like (join #"," l) = true.
Proof.
  induction 1 as [|s l Hs Hl IH]; [done|]. destruct l as [|s' l]; [done|].
  rewrite join_cons // !text_like_app Hs IH. done.
Qed.

Lemma tidy_text v : tidy v = true → text_like (to_string v) = true.
Proof.
  induction v as [| |[]|n|r|s|l IH|o _] using value_ind; try done.
  - intros _. apply digits_text.
  - cbn [tidy to_string]. intros Hl. apply join_text. rewrite Forall_map. rewrite Forall_forall in IH. apply Forall_forall.
    rewrite forallb_forall in Hl. intros x Hx. specialize (IH x Hx). apply list_elem_of_In, Hl in Hx.
    destruct x; auto.
Qed.

(** A value read from a tidy one. *)
Definition read_from (v : value) : Prop := v = VUndef ∨ tidy v = true.

Lemma read_text v : read_from v → text_like (to_string v) = true.
Proof. intros [->|H]; [done|by apply tidy_text]. Qed.
Lemma read_joined v : read_from v → text_like (joined v) = true.
Proof. intros H. apply read_text in H. by destruct v. Qed.
Lemma read_or v w : read_from v → read_from w → read_from (or_else v w).
Proof. unfold or_else. by destruct (truthy v). Qed.

Lemma tidy_in o k x : tidy (VObj o) = true → (k, x) ∈ o → name_like k = true ∧ tidy x = true.
Proof.
  intros Ho Hin%list_elem_of_In. cbn [tidy] in Ho. rewrite !andb_true_iff forallb_forall in Ho. destruct Ho as [[[[H _] _] _] _].
  apply H, andb_true_iff in Hin. exact Hin.
Qed.

Lemma read_field o k : tidy (VObj o) = true → read_from (field o k).
Proof.
  intros Ho. unfold field. destruct (pget o k) as [y|] eqn:E; [right|by left].
  apply pget_some_in in E. by apply (tidy_in o k).
Qed.

Lemma tidy_get v k :
  tidy v = true → k ≠ #"length" → canonical_index k = None → ∃ x, get v k = Ok x ∧ read_from x.
Proof.
  intros Hv Hl Hc. destruct v as [| | | | | | |o]; try done; cbn [get];
    rewrite ?(proj2 (streq_neq k _) Hl) ?Hc; eexists; (split; [done|]); try (by left). by apply read_field.
Qed.

Lemma tidy_get_xml v : tidy v = true → ∃ xml, get v #"xml" = Ok xml ∧ tidy_xml xml = true ∧ read_from xml.
Proof.
  intros Hv. destruct (tidy_get v #"xml" Hv) as (xml & E & Hx); [done..|]. exists xml. split; [done|]. split; [|done].
  destruct v as [| | | | | | |o]; try done; try (by injection E as <-).
  injection E as <-. cbn in Hv. rewrite !andb_true_iff in Hv. naive_solver.
Qed.

Lemma tidy_xml_field xml k :
  tidy_xml xml = true → read_from xml → ∃ x, xml_field xml k = Ok x ∧ read_from x ∧
    (k = #"name" ∨ k = #"prefix" → tidy_name x = true).
Proof.
  intros Hx Hr. destruct xml as [| | | | | | |o]; try done.
  - exists VUndef. split; [done|]. split; [by left|done].
  - unfold xml_field. cbn [or_else truthy get]. eexists. split; [done|]. destruct Hr as [|Hr]; [done|].
    split; [by apply read_field|]. cbn in Hx. apply andb_true_iff in Hx as [H1 H2]. by intros [->| ->].
Qed.

(** ** Tags *)

Definition good_name (v : value) : Prop := ∃ s, v = VStr s ∧ forallb name_unit s = true.
Definition good_attr (v : value) : Prop := ∃ a, attribute_text v = Ok a ∧ attribute a.

(** The text of a schema, or an attribute, which has a name if its schema has one. *)
Definition good_result (named : bool) (v : value) : Prop :=
  (∃ s, v = VStr s ∧ content s) ∨
  ∃ n x, v = VObj [(#"name", n); (#"value", x)] ∧ good_name n ∧ read_from x ∧ (named = true → truthy n = true).

Lemma good_result_content b v : good_result b v → content (joined v).
Proof. intros [(s & -> & H)|(n & x & -> & _)]; [done|]. by apply content_text. Qed.

Lemma undefined_attr : good_attr (VStr []).
Proof. eexists. split; [done|]. by exists #"undefined", #"undefined". Qed.

Lemma named_attr s x : forallb name_unit s = true → s ≠ [] → read_from x → good_attr (VObj [(#"name", VStr s); (#"value", x)]).
Proof.
  intros Hs Hne Hx. eexists. split; [done|]. exists s, (to_string x). split; [|split; [by apply read_text|done]].
  unfold name_like. by rewrite Hs (proj2 (streq_neq s []) Hne).
Qed.

Lemma good_result_attr v : good_result true v → good_attr v.
Proof.
  intros [(s & -> & H)|(n & x & -> & (s & -> & Hs) & Hx & Hn)]; [exact undefined_attr|].
  apply named_attr; [done| |done]. specialize (Hn eq_refl). cbn in Hn. by apply negb_true_iff, streq_neq in Hn.
Qed.

Lemma error_content : content (getErrorMessage []).
Proof. exact (content_comment #" invalid XML " eq_refl). Qed.
Lemma unnamed_content : content (getErrorMessage #"Node name is not provided").
Proof. exact (content_comment #" invalid XML: Node name is not provided " eq_refl). Qed.

Lemma error_result b : good_result b (VStr (getErrorMessage [])).
Proof. left. eexists. split; [done|]. exact error_content. Qed.

Lemma wrapTag_good n c attrs :
  good_name n → Forall good_attr attrs → content (joined c) → ∃ t, wrapTag n c attrs = Ok t ∧ content t.
Proof.
  intros (s & -> & Hs) Ha Hc. unfold wrapTag.
  assert (∃ l, map_res attribute_text attrs = Ok l ∧ Forall attribute l) as (l & -> & Hl).
  { induction Ha as [|x attrs (a & Ex & Hx) _ (l & El & Hl)]; [by exists []|].
    exists (a :: l). cbn. rewrite Ex /= El. split; [done|by constructor]. }
  cbn [mbind res_bind truthy joined to_string]. eexists. split; [done|]. destruct (streq s []) eqn:E; cbn [negb].
  - exact unnamed_content.
  - apply content_element; [|done..]. unfold name_like. by rewrite Hs E.
Qed.

Lemma good_name_or a b : tidy_name a = true → good_name b → good_name (or_else a b) ∧ (truthy b = true → truthy (or_else a b) = true).
Proof.
  intros Ha Hb. unfold or_else. destruct (truthy a) eqn:E; [|done]. split; [|done].
  destruct a as [| | | | |s| |]; try done. exists s. split; [done|]. by apply andb_true_iff in Ha as [? _].
Qed.

Lemma getPrefix_good name xml :
  good_name name → tidy_xml xml = true → read_from xml →
  ∃ n, getPrefix name xml = Ok n ∧ good_name n ∧ (truthy name = true → truthy n = true).
Proof.
  intros (s & -> & Hs) Hx Hr. unfold getPrefix. destruct (tidy_xml_field xml #"prefix" Hx Hr) as (p & -> & _ & Hp).
  specialize (Hp (or_intror eq_refl)). cbn [mbind res_bind]. eexists. split; [done|].
  assert (or_else (VStr s) (VStr []) = VStr s) as ->.
  { unfold or_else. cbn. destruct (streq s []) eqn:E; [|done]. by apply streq_spec in E as ->. }
  destruct (truthy p) eqn:Et; [|split; [by exists s|done]].
  destruct p as [| | | | |q| |]; try done. split; [|by destruct q].
  eexists. split; [done|]. cbn [to_string]. apply andb_true_iff in Hp as [Hq _]. rewrite !forallb_app Hq Hs. done.
Qed.

Lemma getNamespace_good xml :
  tidy_xml xml = true → read_from xml → ∃ l, getNamespace xml = Ok l ∧ Forall good_attr l.
Proof.
  intros Hx Hr. unfold getNamespace. destruct (tidy_xml_field xml #"namespace" Hx Hr) as (ns & -> & Hns & _).
  cbn [mbind res_bind]. destruct (truthy ns); [|by exists []].
  destruct (tidy_xml_field xml #"prefix" Hx Hr) as (p & -> & _ & Hp). specialize (Hp (or_intror eq_refl)).
  cbn [mbind res_bind]. eexists. split; [done|]. rewrite Forall_singleton. destruct (truthy p) eqn:Et.
  - destruct p as [| | | | |q| |]; try done. apply andb_true_iff in Hp as [Hq _].
    apply named_attr; [|done..]. cbn [to_string]. rewrite !forallb_app Hq. done.
  - by apply named_attr.
Qed.

Record good_descriptor (named : bool) (d : Descriptor) : Prop := {
  gd_name : good_name (d_name d);
  gd_named : named = true → truthy (d_name d) = true;
  gd_definition : tidy (d_definition d) = true }.

Lemma newDescriptor_good name type definition :
  good_name name → tidy definition = true →
  ∃ d, newDescriptor name type definition = Ok d ∧ d_type d = type ∧ d_definition d = definition ∧ good_descriptor (truthy name) d.
Proof.
  intros Hn Hd. unfold newDescriptor. destruct (tidy_get_xml definition Hd) as (xml & -> & Hx & Hr). cbn [mbind res_bind].
  destruct (getPrefix_good name xml Hn Hx Hr) as (n & -> & Hgn & Ht). cbn [mbind res_bind]. eexists. by repeat split.
Qed.

Lemma read_field_formats type formats k : primitive_formats type = Some formats → read_from (field formats k).
Proof.
  unfold primitive_formats. destruct type as [| | | | |s| |]; try done. unfold primitivesMap, field.
  cbn [pget]. repeat case_if; intros [= <-]; cbn [pget]; repeat case_if; try (by left); by right.
Qed.

Lemma primitive_good b d : good_descriptor b d → ∃ v, createPrimitiveXML d = Ok v ∧ good_result b v.
Proof.
  intros [Hn Hb Hd]. unfold createPrimitiveXML.
  destruct (tidy_get (d_definition d) #"type" Hd) as (type & -> & _); [done..|]. cbn [mbind res_bind].
  destruct (tidy_get_xml (d_definition d) Hd) as (xml & -> & Hx & Hr). cbn [mbind res_bind].
  destruct (getNamespace_good xml Hx Hr) as (attrs & -> & Ha). cbn [mbind res_bind].
  destruct (primitive_formats type) as [formats|] eqn:Ef; [|by eexists; split; [|apply error_result]].
  assert (∃ v, primitive_value (d_definition d) formats = Ok v ∧ read_from v) as (v & -> & Hv).
  { assert (∀ k, read_from (field formats k)) as Hf.
    { intros k. by apply (read_field_formats type). }
    unfold primitive_value. destruct (tidy_get (d_definition d) #"enum" Hd) as (en & -> & Hen); [done..|]. cbn [mbind res_bind].
    destruct (tidy_get (d_definition d) #"example" Hd) as (ex & -> & Hex); [done..|].
    destruct (tidy_get (d_definition d) #"format" Hd) as (fo & -> & Hfo); [done..|]. cbn [mbind res_bind].
    destruct en as [| | | | | |l|]; try (eexists; split; [done|]; auto using read_or).
    destruct l as [|x l]; [by left|]. right. destruct Hen as [|Hen]; [done|]. cbn in Hen. by apply andb_true_iff in Hen as [? _]. }
  cbn [mbind res_bind]. destruct (tidy_xml_field xml #"attribute" Hx Hr) as (at_ & -> & _). cbn [mbind res_bind].
  destruct (truthy at_).
  - eexists. split; [done|]. right. by exists (d_name d), v.
  - destruct (wrapTag_good (d_name d) v attrs Hn Ha) as (t & -> & Ht); [by apply content_text, read_joined|].
    eexists. split; [done|]. left. eauto.
Qed.

(** ** Schemas *)

Lemma good_result_weaken b b' v : (b = true → b' = true) → good_result b' v → good_result b v.
Proof. intros H [?|(n & x & ? & ? & ? & Hn)]; [by left|]. right. exists n, x. split_and!; auto. Qed.

Lemma error_out b c :
  ∃ out c', Ok (VStr (getErrorMessage []), c) = Ok (out, c') ∧ good_result b out ∧ grows c c'.
Proof. eexists _, c. split; [done|]. split; [apply error_result|by intros x]. Qed.

Lemma tidy_properties v ps key x :
  tidy v = true → get v #"properties" = Ok ps → (key, x) ∈ members (or_else ps (VObj [])) →
  tidy x = true ∧ good_name key ∧ truthy key = true.
Proof.
  intros Hv Hps Hin. destruct (tidy_get v #"properties" Hv) as (ps' & E & Hr); [done..|].
  assert (ps' = ps) as -> by congruence. clear E.
  assert (ps = VUndef ∨ ∃ o, ps = VObj o) as [->|[o ->]].
  { destruct v as [| | | | | | |o]; try done; try (injection Hps as <-; by left). injection Hps as <-.
    cbn in Hv. rewrite !andb_true_iff in Hv. destruct Hv as [_ Hv].
    change (default VUndef (pget o #"properties")) with (field o #"properties"). destruct (field o #"properties"); eauto; done. }
  { by apply not_elem_of_nil in Hin. }
  destruct Hr as [|Hr]; [done|]. assert ((key, x) ∈ map (λ '(k, x), (VStr k, x)) (enum o)) as H.
  { cbn [or_else truthy members] in Hin. cbn in Hr. rewrite !andb_true_iff in Hr. destruct Hr as [[_ Hr] _].
    by destruct (field o #"length"). }
  apply list_elem_of_fmap in H as ([k y] & [= -> ->] & H). rewrite enum_perm in H.
  destruct (tidy_in o k y Hr H) as [Hk Hy]. apply andb_true_iff in Hk as [Hk Hne]. split; [done|]. split; [by exists k|done].
Qed.

Lemma dashes_app a b : last a ≠ Some 45 → dashes (a ++ b) = dashes a || dashes b.
Proof.
  induction a as [|x a IH]; intros Ha; [done|]. destruct a as [|y a].
  - cbn in *. destruct b as [|z b]; [done|]. destruct (x =? 45) eqn:E; [|done].
    apply Z.eqb_eq in E as ->. by destruct Ha.
  - change ((x =? 45) && (y =? 45) || dashes ((y :: a) ++ b) = (x =? 45) && (y =? 45) || dashes (y :: a) || dashes b).
    rewrite IH; [by rewrite orb_assoc|]. exact Ha.
Qed.

Lemma dashes_space a b : dashes (a ++ 32 :: b) = dashes a || dashes b.
Proof.
  induction a as [|x a IH].
  - cbn. by destruct b.
  - destruct a as [|y a]; [cbn; destruct b; rewrite ?andb_false_r //|].
    change ((x =? 45) && (y =? 45) || dashes ((y :: a) ++ 32 :: b) = (x =? 45) && (y =? 45) || dashes (y :: a) || dashes b).
    by rewrite IH orb_assoc.
Qed.

Lemma loop_content k : dashes k = false → content (#"<!-- Infinite loop $ref:" ++ k ++ #" -->").
Proof.
  intros Hk. assert (dashes ((#" Infinite loop $ref:" ++ k ++ [32]) ++ [45]) = false) as H.
  { rewrite -!app_assoc dashes_app; [|done]. cbn [app]. rewrite dashes_space Hk. done. }
  apply content_comment in H. rewrite -!app_assoc in H. exact H.
Qed.

Section well_formed.
Context (models : list (jstr * model)) (isParam : bool).

Section calls.
Context (rec : xml_config → value → value → res (value * xml_config)) (N : nat).
Hypothesis rec_good : ∀ c k v, (xml_bound models c v < N)%nat → tidy v = true → good_name k →
  ∃ out c', rec c k v = Ok (out, c') ∧ good_result (truthy k) out ∧ grows c c'.

Lemma array_good b d c :
  good_descriptor b d → (∀ x, child (d_definition d) x → (xml_bound models c x < N)%nat) →
  ∃ out c', createArrayXML rec d c = Ok (out, c') ∧ good_result b out ∧ grows c c'.
Proof.
  intros [Hn Hb Hd] Hc. unfold createArrayXML.
  destruct (tidy_get (d_definition d) #"items" Hd) as (items & Ei & Hi); [done..|]. rewrite Ei. cbn [mbind res_bind].
  destruct (tidy_get_xml (d_definition d) Hd) as (xml & -> & Hx & Hr). cbn [mbind res_bind].
  destruct (getNamespace_good xml Hx Hr) as (attrs & -> & Ha). cbn [mbind res_bind].
  destruct (truthy items) eqn:Et; [|apply error_out].
  destruct Hi as [->|Hi]; [done|]. destruct (tidy_get_xml items Hi) as (ixml & -> & Hix & Hir). cbn [mbind res_bind].
  destruct (tidy_xml_field ixml #"name" Hix Hir) as (iname & -> & _ & Hin). cbn [mbind res_bind].
  destruct (good_name_or iname (d_name d) (Hin (or_introl eq_refl)) Hn) as [Hk Hkt]. fold (or_else iname (d_name d)).
  destruct (rec_good c (or_else iname (d_name d)) items) as (v & c' & -> & Hv & Hg); [apply Hc; by left|done..|].
  cbn [mbind res_bind]. destruct (tidy_xml_field xml #"wrapped" Hx Hr) as (w & -> & _). cbn [mbind res_bind].
  destruct (truthy w).
  - destruct (wrapTag_good (d_name d) v attrs Hn Ha) as (t & -> & Ht); [by eapply good_result_content|].
    cbn [mbind res_bind]. eexists _, c'. split; [done|]. split; [|done]. left. eauto.
  - eexists _, c'. split; [done|]. split; [|done]. eapply good_result_weaken; [|done]. auto.
Qed.

Definition good_acc (c : xml_config) (acc : list value * list jstr * xml_config) : Prop :=
  Forall good_attr acc.1.1 ∧ Forall content acc.1.2 ∧ grows c acc.2.

Lemma property_good c acc key x :
  good_acc c acc → tidy x = true → good_name key → truthy key = true →
  (∀ c', grows c c' → (xml_bound models c' x < N)%nat) →
  ∃ acc', property_xml isParam rec acc (key, x) = Ok acc' ∧ good_acc c acc'.
Proof.
  destruct acc as [[attrs texts] c1]. intros (Ha & Ht & Hg) Hx Hk Hkt Hb. cbn in Ha, Ht, Hg. unfold property_xml.
  assert (∀ t, content t → Forall content (texts ++ [t])) as Htexts.
  { intros t H. apply Forall_app. by rewrite Forall_singleton. }
  assert (∃ ro, (if isParam then get x #"readOnly" else Ok VUndef) = Ok ro) as [ro ->].
  { destruct isParam; [|eauto]. destruct (tidy_get x #"readOnly" Hx) as (ro & -> & _); [done..|eauto]. }
  cbn [mbind res_bind]. destruct (truthy ro).
  { eexists. split; [done|]. repeat split; try done. apply Htexts, content_nil. }
  destruct (tidy_get_xml x Hx) as (xml & -> & Hxx & Hr). cbn [mbind res_bind].
  destruct (tidy_xml_field xml #"attribute" Hxx Hr) as (at_ & -> & _). cbn [mbind res_bind].
  destruct (rec_good c1 key x) as (v & c2 & -> & Hv & Hg2); [by apply Hb|done..|]. cbn [mbind res_bind].
  eexists. split; [done|]. rewrite Hkt in Hv. destruct (truthy at_); (split; [|split]); cbn; try done; try (intros y Hy; by apply Hg2, Hg).
  - apply Forall_app. rewrite Forall_singleton. split; [done|by apply good_result_attr].
  - apply Htexts, content_nil.
  - eapply Htexts, good_result_content, Hv.
Qed.

Lemma object_good b d c :
  good_descriptor b d → (∀ x, child (d_definition d) x → (xml_bound models c x < N)%nat) →
  ∃ out c', createObjectXML isParam rec d c = Ok (out, c') ∧ good_result b out ∧ grows c c'.
Proof.
  intros [Hn Hb Hd] Hc. unfold createObjectXML.
  destruct (tidy_get (d_definition d) #"properties" Hd) as (ps & Eps & Hps); [done..|]. rewrite Eps. cbn [mbind res_bind].
  destruct (tidy_get (d_definition d) #"additionalProperties" Hd) as (ap & -> & _); [done..|]. cbn [mbind res_bind].
  destruct (tidy_get_xml (d_definition d) Hd) as (xml & -> & Hx & Hr). cbn [mbind res_bind].
  destruct (getNamespace_good xml Hx Hr) as (attrs & -> & Ha). cbn [mbind res_bind].
  destruct (truthy ps || truthy ap); [|apply error_out].
  destruct (fold_res_ok (good_acc c) (property_xml isParam rec) (members (or_else ps (VObj []))) (attrs, [], c))
    as ([[attrs' texts] c'] & -> & Ha' & Ht & Hg).
  - intros acc [key x] Hacc Hin. destruct (tidy_properties _ _ _ _ Hd Eps Hin) as (Hx' & Hk & Hkt).
    apply property_good; try done. intros c' Hg. apply open_references_grows with (models := models) in Hg.
    assert (xml_bound models c x < N)%nat as H by (apply Hc; right; eauto). unfold xml_bound in *. nia.
  - split; [done|]. split; [constructor|by intros y].
  - cbn in Ha', Ht, Hg. cbn [mbind res_bind]. set (body := concat texts ++ _).
    destruct (wrapTag_good (d_name d) (VStr body) attrs' Hn Ha') as (t & -> & Hcontent).
    { apply content_app; [by apply content_concat|]. destruct (truthy ap); [|apply content_nil].
      exact (content_comment #" additional elements allowed " eq_refl). }
    cbn [mbind res_bind]. eexists _, c'. split; [done|]. split; [|done]. left. eauto.
Qed.

(** A loop is reached only through a reference, which has just named it. *)
Lemma described_good b d c :
  good_descriptor b d → (is_str #"loop" (d_type d) = false → ∀ x, child (d_definition d) x → (xml_bound models c x < N)%nat) →
  (is_str #"loop" (d_type d) = true → ∃ k, loopTo c = VStr k ∧ dashes k = false) →
  ∃ out c', described_xml isParam rec d c = Ok (out, c') ∧ good_result b out ∧ grows c c'.
Proof.
  intros Hd Hc Hl. assert (∀ s, is_str s (d_type d) = true → d_type d = VStr s) as Htype.
  { intros s. destruct (d_type d); try done. by intros ->%streq_spec. }
  unfold described_xml. destruct (is_str #"array" (d_type d)) eqn:Ea.
  { apply array_good; [done|]. apply Hc. by rewrite (Htype _ Ea). }
  destruct (is_str #"object" (d_type d)) eqn:Eo.
  { apply object_good; [done|]. apply Hc. by rewrite (Htype _ Eo). }
  destruct (is_str #"loop" (d_type d)).
  - destruct (Hl eq_refl) as (k & -> & Hk). unfold getInfiniteLoopMessage.
    edestruct (wrapTag_good (d_name d)) as (t & -> & Ht); [apply Hd|constructor| |].
    { cbn [joined to_string]. apply loop_content. exact Hk. }
    eexists _, c. split; [done|]. split; [left; eauto|by intros y].
  - destruct (primitive_good b d Hd) as (v & -> & Hv). eexists _, c. split; [done|]. split; [done|by intros y].
Qed.
End calls.

Hypothesis models_tidy : forallb tidy_model models = true.

Lemma tidy_type v t : tidy v = true → get v #"type" = Ok t → is_str #"loop" (or_else t (VStr #"object")) = false.
Proof.
  intros Hv Ht. destruct v as [| | | | | | |o]; try done; try (by injection Ht as <-).
  injection Ht as <-. cbn in Hv. rewrite !andb_true_iff negb_true_iff in Hv. destruct Hv as [[[_ Hv] _] _].
  unfold or_else. by destruct (truthy _).
Qed.

Lemma model_tidy r m : pget models r = Some m →
  dashes r = false ∧ name_like (m_name m) = true ∧ tidy (m_definition m) = true.
Proof.
  intros Hm%pget_some_in%list_elem_of_In. pose proof models_tidy as H. rewrite forallb_forall in H. apply H in Hm.
  apply andb_true_iff in Hm as [Hm H3]. apply andb_true_iff in Hm as [Hm H2]. apply andb_true_iff in Hm as [Hm _].
  by apply negb_true_iff in Hm.
Qed.

(** The descriptor of a model, if there is one. *)
Lemma model_descriptor_good n name loop :
  good_name name →
  model_descriptor models n name loop = Ok None ∨
  ∃ d m, model_descriptor models n name loop = Ok (Some d) ∧ pget models n = Some m ∧ d_definition d = m_definition m ∧
    good_descriptor (truthy name) d ∧ is_str #"loop" (d_type d) = loop.
Proof.
  intros Hn. unfold model_descriptor. destruct (pget models n) as [m|] eqn:Em; [|by left].
  destruct (model_tidy n m Em) as (_ & Hname & Hd). destruct (truthy (m_definition m)); [right|by left].
  destruct (tidy_get (m_definition m) #"type" Hd) as (t & Et & _); [done..|]. rewrite Et. cbn [mbind res_bind].
  destruct (tidy_get_xml (m_definition m) Hd) as (xml & -> & Hx & Hr). cbn [mbind res_bind].
  destruct (tidy_xml_field xml #"name" Hx Hr) as (xn & -> & _ & Hxn). cbn [mbind res_bind].
  assert (good_name (VStr (m_name m))) as Hmn by (exists (m_name m); apply andb_true_iff in Hname as [? _]; done).
  destruct (good_name_or xn _ (Hxn (or_introl eq_refl)) Hmn) as [Hg _].
  assert (good_name (or_else name (or_else xn (VStr (m_name m))))) as Hg'.
  { unfold or_else at 1. by destruct (truthy name). }
  destruct (newDescriptor_good _ (if loop then VStr #"loop" else or_else t (VStr #"object")) _ Hg' Hd)
    as (d & -> & Htype & Hdef & [Hdn Hdt Hdd]). cbn [mbind res_bind].
  exists d, m. split_and!; try done.
  - split; [done| |done]. intros Ht. apply Hdt. unfold or_else at 1. by rewrite Ht.
  - rewrite Htype. destruct loop; [done|]. by apply (tidy_type (m_definition m)).
Qed.

Lemma step_good rec c name definition :
  (∀ c' k v, (xml_bound models c' v < xml_bound models c definition)%nat → tidy v = true → good_name k →
    ∃ out c'', rec c' k v = Ok (out, c'') ∧ good_result (truthy k) out ∧ grows c' c'') →
  tidy definition = true → good_name name →
  ∃ out c', schema_xml_step models isParam rec c name definition = Ok (out, c') ∧ good_result (truthy name) out ∧ grows c c'.
Proof.
  intros Hrec Hd Hn. unfold schema_xml_step.
  assert (∃ ref, (if is_object definition then get definition #"$ref" else Ok VNull) = Ok ref) as [ref ->].
  { destruct (is_object definition); [|eauto]. destruct (tidy_get definition #"$ref" Hd) as (ref & -> & _); [done..|eauto]. }
  cbn [mbind res_bind].
  assert (∃ out c', (d ← getDescriptor name definition; described_xml isParam rec d c) = Ok (out, c') ∧
    good_result (truthy name) out ∧ grows c c') as Hown.
  { unfold getDescriptor. destruct (tidy_get definition #"type" Hd) as (t & Et & _); [done..|]. rewrite Et. cbn [mbind res_bind].
    destruct (tidy_get_xml definition Hd) as (xml & -> & Hx & Hr). cbn [mbind res_bind].
    destruct (tidy_xml_field xml #"name" Hx Hr) as (xn & -> & _ & Hxn). cbn [mbind res_bind].
    destruct (good_name_or xn name (Hxn (or_introl eq_refl)) Hn) as [Hg Hgt].
    destruct (newDescriptor_good _ (or_else t (VStr #"object")) _ Hg Hd) as (d & -> & Htype & Hdef & [Hdn Hdt Hdd]).
    cbn [mbind res_bind]. apply (described_good rec (xml_bound models c definition)); [done|by split; auto| |].
    - intros _ x Hc. rewrite Hdef in Hc. by apply child_bound; [intros y|].
    - by rewrite Htype (tidy_type definition t Hd Et). }
  destruct ref as [| | | | |r| |]; try exact Hown. clear Hown. rewrite by_ref_eq.
  destruct (model_descriptor_good (ref_name r) name (ignored r c) Hn) as [-> | (d & m & -> & Hm & Hdef & Hgd & Hl)]; cbn [mbind res_bind].
  { eexists _, _. split; [done|]. split; [apply error_result|apply enter_grows]. }
  destruct (described_good rec (xml_bound models c definition) Hrec (truthy name) d (enter_model r (ref_name r) c))
    as (out & c' & -> & Hout & Hg); [done|..].
  - rewrite Hl Hdef. intros Hi x Hc. unfold enter_model. rewrite Hi. by apply (model_bound models r m); [..|intros y|].
  - rewrite Hl. intros Hi. unfold enter_model. rewrite Hi. cbn. eexists. split; [done|]. by apply (model_tidy _ m).
  - cbn [mbind res_bind]. eexists _, _. split; [done|]. split; [done|]. rewrite Hl.
    unfold enter_model in Hg. destruct (ignored r c) eqn:Hi; [by rewrite andb_false_r|]. case_if.
    + by apply release_grows.
    + intros x Hx. by apply Hg, ignore_grows.
Qed.

Lemma go_good n : ∀ c name definition,
  (xml_bound models c definition <= n)%nat → tidy definition = true → good_name name →
  ∃ out c', schema_xml_go models isParam n c name definition = Ok (out, c') ∧ good_result (truthy name) out ∧ grows c c'.
Proof.
  induction n as [|n IH]; intros c name definition Hb Hd Hn; pose proof (depth_pos definition).
  { unfold xml_bound in Hb. lia. }
  cbn [schema_xml_go]. apply step_good; [|done..]. intros c' k v Hv. apply IH. lia.
Qed.
End well_formed.

(** (C21) A document whose names and texts need no escaping has an XML sample, and apart
    from blanks it is the prolog and well-formed content: every tag is closed in
    order, however the models refer to each other. *)
Theorem createXMLSample_well_formed models isParam name definition :
  forallb tidy_model models = true → tidy definition = true → forallb name_unit name = true →
  ∃ s t, createXMLSample models isParam (VStr name) definition = Ok s ∧ ink s = ink (prolog ++ t) ∧ content t.
Proof.
  intros Hm Hd Hn. destruct (go_good models isParam Hm (xml_bound models no_references definition) no_references (VStr name) definition)
    as (out & c' & E & Hout & _); [done|done|by exists name|].
  unfold createXMLSample, createSchemaXML. rewrite E. eexists _, (to_string out). split; [done|]. split; [apply formatXml_ink|].
  apply good_result_content in Hout as Hc. by destruct Hout as [(s & -> & _)|(n & x & -> & _)].
Qed.

Lemma createXMLSample_well_formed_witness :
  ∃ s t, createXMLSample node_models true (VStr []) (schema_ref #"#/definitions/Node") = Ok s ∧
    ink s = ink (prolog ++ t) ∧ content t.
Proof.
  apply (createXMLSample_well_formed node_models true [] (schema_ref #"#/definitions/Node")); vm_compute; reflexivity.
Defined.

(** Texts are not escaped. *)
Example unescaped_example :
  createXMLSample [] false (VStr #"sign") (VObj [(#"type", VStr #"string"); (#"example", VStr #"a<b")]) =
  Ok (prolog ++ [10] ++ #"  <sign>a<b</sign>" ++ [10]).
Proof. vm_compute. reflexivity. Qed.

(** A property that is marked as an attribute but is not a scalar is printed without
    its name. *)
Example nameless_attribute :
  createXMLSample [] false (VStr #"pet")
    (VObj [(#"properties", VObj [(#"tags", VObj [(#"type", VStr #"array"); (#"items", schema_type #"string");
                                                 (#"xml", VObj [(#"attribute", VBool true)])])])]) =
  Ok (prolog ++ [10] ++ #"<pet undefined=" ++ [34] ++ #"undefined" ++ [34] ++ #"></pet>" ++ [10]).
Proof. vm_compute. reflexivity. Qed.
