(* ===== verification/UiAuth.v ===== *)
(** * Authorization in the console

    The part of the console between the security definitions of a document and the
    client's table of authorizations ([Auth]): which schemes a dialog offers, the
    models behind its fields, what its buttons put into the table or take out, and
    the requests of the OAuth2 flows. Attributes of Backbone models are property
    lists; reading a missing one gives [undefined]. *)

From S2P Require Import Prelude JsValue Uri Cookie Auth OperationUrl Operation.

Abbreviation attrs := (list (jstr * value)).

(** ** Security definitions *)

(** The properties [Object.assign({}, v)] and [for (k in v)] see. *)
Definition assigned (v : value) : attrs :=
  match v with VStr s => imap (λ i x, (str_of_Z (Z.of_nat i), VStr [x])) s | _ => entries v end.

Definition scope_entry (p : jstr * value) : value := VObj [(#"scope", VStr p.1); (#"description", p.2)].
Definition parseOauth2Scopes (data : value) : list value := map scope_entry (assigned data).

(** lodash [merge]: the value of a property that held [dest] once [src] is merged in;
    arrays merge by position. *)
Fixpoint merge_value (dest src : value) : value :=
  match src with
  | VUndef => dest
  | VArr l =>
      VArr ((fix go l d :=
               match l with
               | [] => d
               | x :: l => merge_value (default VUndef (head d)) x :: go l (tail d)
               end) l (match dest with VArr d => d | VStr s => map (λ x, VStr [x]) s | _ => [] end))
  | VObj o =>
      VObj (fold_left (λ d '(k, (u, f)), if is_undef u then d else pset k (f (field d k)) d)
              (enum (map (λ '(k, x), (k, (x, λ d, merge_value d x))) o))
              (match dest with VObj d => d | _ => [] end))
  | _ => src
  end.
Definition merge_lists (dest src : list value) : list value :=
  match merge_value (VArr dest) (VArr src) with VArr l => l | _ => [] end.

Record parsed_security := { auths : list attrs; oauth2 : list attrs; scopes : list value }.

(** The two objects of one requirement and the scopes collected so far. *)
Record requirement := { singleSecurity : attrs; singleOauth2Security : attrs; collected : list value }.

Definition add_single (key : jstr) (v : value) (r : requirement) : requirement :=
  {| singleSecurity := pset key v (singleSecurity r); singleOauth2Security := singleOauth2Security r;
     collected := collected r |}.
Definition add_oauth2 (key : jstr) (o : attrs) (parsed : list value) (r : requirement) : requirement :=
  {| singleSecurity := singleSecurity r;
     singleOauth2Security := pset key (VObj (pset #"scopes" (VArr parsed) o)) (singleOauth2Security r);
     collected := merge_lists (collected r) parsed |}.

(** The scopes of a definition that a requirement names. *)
Definition required_scopes (required : list value) (declared : value) : attrs :=
  List.filter (λ p, existsb (strict_eq (VStr p.1)) required) (assigned declared).

Definition security_key (defs : attrs) (r : requirement) (entry : jstr * value) : res requirement :=
  let '(key, v) := entry in
  match v with
  | VArr required =>
      let def := field defs key in
      if truthy def then
        type ← get def #"type";
        if is_str #"oauth2" type then
          declared ← get def #"scopes";
          Ok (add_oauth2 key (assigned def) (parseOauth2Scopes (VObj (required_scopes required declared))) r)
        else Ok (add_single key (VObj (assigned def)) r)
      else Ok r
  | _ =>
      type ← get v #"type";
      if is_str #"oauth2" type
      then Ok (add_oauth2 key (assigned v) (parseOauth2Scopes (field (assigned v) #"scopes")) r)
      else Ok (add_single key v r)
  end.

Definition push_some (o : attrs) (l : list attrs) : list attrs := match o with [] => l | _ => l ++ [o] end.

Definition security_item (defs : attrs) (p : parsed_security) (item : value) : res parsed_security :=
  r ← fold_res (security_key defs) (assigned item)
        {| singleSecurity := []; singleOauth2Security := []; collected := scopes p |};
  Ok {| auths := push_some (singleSecurity r) (auths p); oauth2 := push_some (singleOauth2Security r) (oauth2 p);
        scopes := collected r |}.

(** [None] is [null]. *)
Definition parseSecurityDefinitions (security securityDefinitions : value) : res (option parsed_security) :=
  match security with
  | VArr items =>
      p ← fold_res (security_item (assigned securityDefinitions)) items {| auths := []; oauth2 := []; scopes := [] |};
      Ok (Some p)
  | _ => Ok None
  end.

(** ** The models behind the dialog *)

Inductive auth_kind := Oauth2Model | BasicAuthModel | ApiKeyAuthModel | PlainModel.
Record auth_model := { kind : auth_kind; attributes : attrs }.

Definition attr (m : auth_model) (k : jstr) : value := field (attributes m) k.
Definition set_attr (k : jstr) (v : value) (m : auth_model) : auth_model :=
  {| kind := kind m; attributes := pset k v (attributes m) |}.

(** [_.defaults({}, attrs, defaults)] *)
Definition with_defaults (defaults a : attrs) : attrs :=
  fold_left (λ a '(k, d), if is_undef (field a k) then pset k d a else a) defaults a.

Definition apikey_defaults : attrs := [ (#"in", VStr []); (#"name", VStr []); (#"title", VStr []); (#"value", VStr [])].
Definition basic_defaults : attrs := [ (#"username", VStr []); (#"password", VStr []); (#"title", VStr #"basic")].
Definition oauth2_defaults : attrs :=
  [ (#"scopes", VObj []); (#"isPasswordFlow", VBool false); (#"clientAuthenticationType", VStr #"none")].

(** The scopes with a description; the others are dropped. *)
Definition described_scopes (l : attrs) : res (list value) :=
  fold_res (λ acc '(_, scope), d ← get scope #"description"; Ok (if is_string d then acc ++ [scope] else acc)) l [].

(** [Oauth2Model.initialize] *)
Definition init_oauth2 (a : attrs) : res attrs :=
  let declared := field a #"scopes" in
  a ← (if truthy declared then l ← described_scopes (assigned declared); Ok (pset #"scopes" (VArr l) a) else Ok a);
  let flow := field a #"flow" in
  let flow_is s := is_str s flow in
  Ok (if truthy flow
      then pset #"clientAuthentication" (VBool (flow_is #"password" || flow_is #"application"))
             (pset #"requireClientAuthentication" (VBool (flow_is #"application"))
               (pset #"isPasswordFlow" (VBool (flow_is #"password")) a))
      else a).

Definition handleOne (a : attrs) : res auth_model :=
  let type := field a #"type" in
  if is_str #"oauth2" type then
    a ← init_oauth2 (with_defaults oauth2_defaults a); Ok {| kind := Oauth2Model; attributes := a |}
  else if is_str #"basic" type then Ok {| kind := BasicAuthModel; attributes := with_defaults basic_defaults a |}
  else if is_str #"apiKey" type then Ok {| kind := ApiKeyAuthModel; attributes := with_defaults apikey_defaults a |}
  else Ok {| kind := PlainModel; attributes := a |}.

(** [v in ['basic', 'request-body']]: the keys of the array. *)
Definition in_methods (v : value) : bool := existsb (streq (to_string v)) [ #"0"; #"1"; #"length"].

Definition scope_checked (scope : value) : res bool := c ← get scope #"checked"; Ok (is_bool true c).

(** [_.findIndex(scp, checked) >= 0] *)
Fixpoint any_checked (l : list value) : res bool :=
  match l with [] => Ok false | s :: l => b ← scope_checked s; if b then Ok true else any_checked l end.

Definition scopes_chosen (scp : value) : res bool :=
  match scp with
  | VArr [] => Ok true
  | VArr l => any_checked l
  | VUndef | VNull => Throw TypeError
  | _ => Ok false
  end.

(** [validate] of the models; Backbone's own models have no such method. *)
Definition validate (m : auth_model) : res (auth_model * bool) :=
  let conclude b := Ok (set_attr #"valid" (VBool b) m, b) in
  match kind m with
  | ApiKeyAuthModel => conclude (truthy (attr m #"value"))
  | BasicAuthModel => conclude (truthy (attr m #"password") && truthy (attr m #"username"))
  | Oauth2Model =>
      if truthy (attr m #"isPasswordFlow") && negb (truthy (attr m #"username")) then Ok (m, false)
      else if in_methods (attr m #"clientAuthenticationType") && negb (truthy (attr m #"clientId")) then Ok (m, false)
      else b ← scopes_chosen (attr m #"scopes"); conclude b
  | PlainModel => Throw TypeError
  end.

(** [setScopes(name, val)] *)
Fixpoint set_scope (name val : value) (l : list value) : res (list value) :=
  match l with
  | [] => Throw TypeError
  | s :: l =>
      n ← get s #"scope";
      if strict_eq n name then Ok (match s with VObj o => VObj (pset #"checked" val o) | _ => s end :: l)
      else l' ← set_scope name val l; Ok (s :: l')
  end.
Definition setScopes (name val : value) (m : auth_model) : res (auth_model * bool) :=
  match attr m #"scopes" with
  | VArr l => l' ← set_scope name val l; validate (set_attr #"scopes" (VArr l') m)
  | _ => Throw TypeError
  end.

(** ** The collection *)

(** What the collection reads of an authorization. *)
Definition auth_attr (a : auth) (k : jstr) : value :=
  match a with
  | ApiKeyAuthorization name v type =>
      if streq k #"name" then VStr name else if streq k #"value" then VStr v
      else if streq k #"type" then VStr type else VUndef
  | CookieAuthorization c => if streq k #"cookie" then VStr c else VUndef
  | PasswordAuthorization u p => if streq k #"username" then VStr u else if streq k #"password" then VStr p else VUndef
  end.

(** [AuthsCollection.parse] on one definition *)
Definition parse_auth (table : authz) (p : jstr * attrs) : attrs :=
  let '(name, a) := p in
  let titled := pset #"title" (VStr name) a in
  match pget table name with
  | None => titled
  | Some z =>
      let isBasic := is_str #"basic" (field a #"type") && truthy (auth_attr z #"username") && truthy (auth_attr z #"password") in
      let only_basic k := if isBasic then auth_attr z k else VUndef in
      pset #"valid" (VBool true)
        (pset #"password" (only_basic #"password")
          (pset #"username" (only_basic #"username")
            (pset #"value" (if isBasic then VUndef else auth_attr z #"value")
              (pset #"isLogout" (VBool true) titled))))
  end.

(** [new AuthsCollection(data)] *)
Definition newAuthsCollection (table : authz) (data : list (jstr * attrs)) : res (list auth_model) :=
  map_res handleOne (map (parse_auth table) (enum data)).

Definition logged_in (m : auth_model) : bool := is_bool true (attr m #"isLogout").
Definition isAuthorized (c : list auth_model) : bool := (length c =? length (List.filter logged_in c))%nat.
Definition isPartiallyAuthorized (c : list auth_model) : bool := (0 <? length (List.filter logged_in c))%nat.

(** Every model is validated, also after one that is not valid. *)
Definition collection_isValid (c : list auth_model) : res (list auth_model * bool) :=
  rs ← map_res validate c;
  Ok (rs.*1, forallb snd rs).

(** ** OAuth2 logins *)

(** What a login reads of the window: location and settings of the page. *)
Record page := {
  protocol : jstr; page_host : jstr; pathname : jstr; oAuthRedirectUrl : value;
  realm : value; clientId : value; scopeSeparator : value; additionalQueryStringParams : value }.

(** What it leaves in the window for the page that receives the token. *)
Record oauth_state := {
  OAuthSchemeKey : value; tokenName : value; tokenUrl : value; enabledScopes : list value; redirect_uri : value }.

(** A window is opened, or a token is requested. *)
Inductive effect :=
  | OpenWindow (url : jstr)
  | TokenRequest (url : value) (data headers : attrs) (schemeKey : value).

Definition getTokenName (dets : value) : res value :=
  ve ← get dets #"vendorExtensions";
  x ← get ve #"x-tokenName";
  t ← get dets #"tokenName";
  Ok (or_else x t).

(** A scope that is not checked is [undefined]. *)
Definition chosen_scope (scope : value) : res value :=
  c ← get scope #"checked";
  if truthy c then get scope #"scope" else Ok VUndef.

Definition joined_scopes (sep : value) (l : list value) : jstr :=
  join (match sep with VUndef => #"," | _ => to_string sep end) (map joined l).

(** [$.extend] leaves out what is [undefined]. *)
Definition extend_defined (o src : attrs) : attrs :=
  fold_left (λ o '(k, v), if is_undef v then o else pset k v o) (enum src) o.

(** [location.pathname.substring(0, location.pathname.lastIndexOf('/'))] *)
Definition page_directory (path : jstr) : jstr :=
  match rev (split #"/" path) with _ :: l => join #"/" (rev l) | [] => [] end.

Definition redirectUrl (w : page) : value :=
  or_else (oAuthRedirectUrl w)
    (VStr (protocol w ++ #"//" ++ page_host w ++ page_directory (pathname w) ++ #"/o2c.html")).

Definition query_item (key : jstr) (v : value) : res jstr := e ← encode_value v; Ok (#"&" ++ key ++ #"=" ++ e).

Definition extra_items (params : value) : res jstr :=
  fold_res (λ s '(k, v), i ← query_item k v; Ok (s ++ i)) (assigned params) [].

(** The address of the login page from its beginning [url] on. *)
Definition login_url (w : page) (url : value) (chosen : list value) (state : value) : res jstr :=
  a ← query_item #"redirect_uri" (redirectUrl w);
  b ← query_item #"realm" (realm w);
  c ← query_item #"client_id" (clientId w);
  d ← query_item #"scope" (VStr (joined_scopes (scopeSeparator w) chosen));
  e ← query_item #"state" state;
  f ← extra_items (additionalQueryStringParams w);
  Ok (to_string url ++ a ++ b ++ c ++ d ++ e ++ f).

(** The loop over the grant types of a 1.2 document: address and token name. *)
Definition grant_type (acc : value * value) (p : jstr * value) : res (value * value) :=
  let '(t, dets) := p in
  let from endpoint response :=
    ep ← get dets endpoint; u ← get ep #"url"; n ← getTokenName dets;
    Ok (VStr (to_string u ++ #"?response_type=" ++ response), n) in
  if streq t #"implicit" then from #"loginEndpoint" #"token"
  else if streq t #"accessCode" then from #"tokenRequestEndpoint" #"code"
  else Ok acc.

Section login.
(** The browser's [btoa]. *)
Context (btoa : jstr → res jstr).

Definition accessTokenRequest (chosen : list value) (oauth : attrs) (schemeKey : value) (grantType : jstr)
    (params : attrs) : res effect :=
  let data := extend_defined [ (#"scope", VStr (joined_scopes (VStr #" ") chosen)); (#"grant_type", VStr grantType)] params in
  let type := field oauth #"clientAuthenticationType" in
  if is_str #"basic" type then
    t ← btoa (to_string (field oauth #"clientId") ++ #":" ++ to_string (field oauth #"clientSecret"));
    Ok (TokenRequest (field oauth #"tokenUrl") data [ (#"Authorization", VStr (#"Basic " ++ t))] schemeKey)
  else if is_str #"request-body" type then
    Ok (TokenRequest (field oauth #"tokenUrl")
          (pset #"client_secret" (field oauth #"clientSecret") (pset #"client_id" (field oauth #"clientId") data)) [] schemeKey)
  else Ok (TokenRequest (field oauth #"tokenUrl") data [] schemeKey).

Definition handleOauth2Login (w : page) (m : auth_model) (st : oauth_state) : res (oauth_state * effect) :=
  chosen ← map_res chosen_scope (assigned (attr m #"scopes")).*2;
  let dets := VObj (attributes m) in
  let key := attr m #"title" in
  let flow := attr m #"flow" in
  let flow_is s := is_str #"oauth2" (attr m #"type") && is_str s flow in
  let left_in name url := {| OAuthSchemeKey := key; tokenName := name; tokenUrl := url; enabledScopes := chosen;
                             redirect_uri := redirect_uri st |} in
  let default_name := n ← getTokenName dets; Ok (or_else n (VStr #"access_token")) in
  let open url state st' :=
    u ← login_url w url chosen state;
    Ok ({| OAuthSchemeKey := OAuthSchemeKey st'; tokenName := tokenName st'; tokenUrl := tokenUrl st';
           enabledScopes := chosen; redirect_uri := redirectUrl w |}, OpenWindow u) in
  if flow_is #"implicit" || flow_is #"accessCode" then
    n ← default_name;
    open (VStr (to_string (attr m #"authorizationUrl") ++ #"?response_type=" ++
                (if is_str #"implicit" flow then #"token" else #"code")))
      key (left_in n (if is_str #"accessCode" flow then attr m #"tokenUrl" else VNull))
  else if flow_is #"application" then
    n ← default_name;
    e ← accessTokenRequest chosen (attributes m) key #"client_credentials" [];
    Ok (left_in n (tokenUrl st), e)
  else if flow_is #"password" then
    n ← default_name;
    e ← accessTokenRequest chosen (attributes m) key #"password"
          [ (#"username", attr m #"username"); (#"password", attr m #"password")];
    Ok (left_in n (tokenUrl st), e)
  else if truthy (attr m #"grantTypes") then
    '(url, n) ← fold_res grant_type (assigned (attr m #"grantTypes")) (VNull, tokenName st);
    open url VUndef (left_in n (tokenUrl st))
  else open VNull VUndef (left_in (tokenName st) (tokenUrl st)).

(** ** The buttons of the dialog *)

(** Names, places and credentials are texts: they come from the specification and
    from input fields. *)
Definition text_attr (m : auth_model) (k : jstr) : jstr := to_string (attr m k).

Record session := { table : authz; window : oauth_state; opened : list effect }.

Definition authorize_one (w : page) (s : session) (m : auth_model) : res session :=
  let type := attr m #"type" in
  let add a := Ok {| table := auth_add (text_attr m #"title") a (table s); window := window s; opened := opened s |} in
  if is_str #"apiKey" type then add (ApiKeyAuthorization (text_attr m #"name") (text_attr m #"value") (text_attr m #"in"))
  else if is_str #"basic" type then add (PasswordAuthorization (text_attr m #"username") (text_attr m #"password"))
  else if is_str #"oauth2" type then
    '(st, e) ← handleOauth2Login w m (window s);
    Ok {| table := table s; window := st; opened := opened s ++ [e] |}
  else Ok s.

Definition authorize (w : page) (c : list auth_model) (s : session) : res session := fold_res (authorize_one w) c s.

(** [authorizeClick]: the collection as validated, and the new session. *)
Definition authorizeClick (w : page) (c : list auth_model) (s : session) : res (list auth_model * session) :=
  '(c, valid) ← collection_isValid c;
  if (valid : bool) then s ← authorize w c s; Ok (c, s) else Ok (c, s).

Definition logoutClick (c : list auth_model) (s : session) : session :=
  {| table := fold_left (λ t m, auth_remove (text_attr m #"title") t) c (table s); window := window s; opened := opened s |}.
End login.

(** ** The address of a login page *)

Definition sendable (v : value) : Prop := wf_jstr (to_string v) ∧ well_paired (to_string v) = true.

(** Keys that need no escape, as the names of query parameters the code writes. *)
Definition plain_key (k : jstr) : Prop := wf_jstr k ∧ encodeURIComponent k = Ok k.

(** What a server reads from an address: the pairs between the first question mark and
    the fragment. *)
Fixpoint up_to (c : Z) (s : jstr) : jstr :=
  match s with x :: t => if x =? c then [] else x :: up_to c t | [] => [] end.
Fixpoint after (c : Z) (s : jstr) : option jstr :=
  match s with x :: t => if x =? c then Some t else after c t | [] => None end.
Definition query_of (address : jstr) : option (list (jstr * jstr)) :=
  q ← after 63 (up_to 35 address); parse_query q.

Lemma query_of_cut a q : 63 ∉ a → 35 ∉ a → 35 ∉ q → query_of (a ++ #"?" ++ q) = parse_query q.
Proof.
  intros Ha Hb Hq. unfold query_of. change (#"?" ++ q) with (63 :: q).
  assert (∀ s, 35 ∉ s → up_to 35 s = s) as Hup.
  { induction s as [|x s IH]; intros H; [done|]. apply not_elem_of_cons in H as [Hx H]. cbn [up_to].
    by rewrite (proj2 (Z.eqb_neq x 35) ltac:(congruence)) IH. }
  rewrite Hup; [|rewrite elem_of_app elem_of_cons; intros [?|[?|?]]; done]. clear Hup Hb.
  induction a as [|x a IH]; cbn [app after]; [done|]. apply not_elem_of_cons in Ha as [Hx Ha].
  by rewrite (proj2 (Z.eqb_neq x 63) ltac:(congruence)) IH.
Qed.

Lemma not_in_app (c : Z) (a b : jstr) : c ∉ a → c ∉ b → c ∉ a ++ b.
Proof. rewrite elem_of_app. naive_solver. Qed.

Lemma query_item_parses k v :
  plain_key k → sendable v →
  ∃ e, query_item k v = Ok (#"&" ++ e) ∧ parse_query e = Some [(k, to_string v)] ∧ 35 ∉ #"&" ++ e.
Proof.
  intros [Hk Ek] [Hv Hp]. destruct (encode_ok _ Hp) as [e He]. exists (k ++ #"=" ++ e). split_and!.
  - unfold query_item, encode_value. rewrite He. done.
  - by apply plain_item_parses.
  - repeat apply not_in_app; try by apply not_in_check.
    + by apply (encode_no_delim k k).
    + by apply (encode_no_delim (to_string v) e).
Qed.

Lemma extra_items_parse (l : attrs) q items s :
  Forall (λ p, plain_key p.1 ∧ sendable p.2) l → parse_query q = Some items →
  ∃ e, fold_res (λ s '(k, v), i ← query_item k v; Ok (s ++ i)) l s = Ok (s ++ e) ∧
    parse_query (q ++ e) = Some (items ++ map (λ p, (p.1, to_string p.2)) l) ∧ 35 ∉ e.
Proof.
  intros HF. revert q items s. induction HF as [|[k v] l [Hk Hv] _ IH]; intros q items s Hq; cbn [fold_res].
  - exists []. rewrite !app_nil_r. split_and!; [done|done|apply not_elem_of_nil].
  - destruct (query_item_parses k v Hk Hv) as (e & -> & He & Hf). cbn [mbind res_bind].
    destruct (IH (q ++ #"&" ++ e) (items ++ [(k, to_string v)]) (s ++ #"&" ++ e)) as (e' & -> & H & Hf').
    { by apply parse_query_app. }
    exists ((#"&" ++ e) ++ e'). split_and!; [by rewrite -!app_assoc| |by apply not_in_app]. rewrite -!app_assoc in H |- *. exact H.
Qed.

Lemma plain_names : Forall plain_key [ #"response_type"; #"redirect_uri"; #"realm"; #"client_id"; #"scope"; #"state"].
Proof. rewrite !Forall_cons. repeat (split; [split; [apply wf_check|]; vm_compute; reflexivity|]). constructor. Qed.

Lemma login_url_parses w base query items chosen state :
  parse_query query = Some items → 35 ∉ query → sendable (redirectUrl w) → sendable (realm w) → sendable (clientId w) → sendable state →
  sendable (VStr (joined_scopes (scopeSeparator w) chosen)) →
  Forall (λ p, plain_key p.1 ∧ sendable p.2) (assigned (additionalQueryStringParams w)) →
  ∃ query', login_url w (VStr (base ++ query)) chosen state = Ok (base ++ query') ∧ 35 ∉ query' ∧
    parse_query query' = Some (items ++
      [ (#"redirect_uri", to_string (redirectUrl w)); (#"realm", to_string (realm w)); (#"client_id", to_string (clientId w));
        (#"scope", joined_scopes (scopeSeparator w) chosen); (#"state", to_string state)] ++
      map (λ p, (p.1, to_string p.2)) (assigned (additionalQueryStringParams w))).
Proof.
  intros Hq Hf H1 H2 H3 H4 H5 Hex. pose proof plain_names as HN. rewrite !Forall_cons in HN.
  destruct HN as (_ & K1 & K2 & K3 & K5 & K4 & _). unfold login_url.
  destruct (query_item_parses _ _ K1 H1) as (e1 & -> & P1 & F1). cbn [mbind res_bind].
  destruct (query_item_parses _ _ K2 H2) as (e2 & -> & P2 & F2). cbn [mbind res_bind].
  destruct (query_item_parses _ _ K3 H3) as (e3 & -> & P3 & F3). cbn [mbind res_bind].
  destruct (query_item_parses _ _ K5 H5) as (e5 & -> & P5 & F5). cbn [mbind res_bind].
  destruct (query_item_parses _ _ K4 H4) as (e4 & -> & P4 & F4). cbn [mbind res_bind].
  pose proof (parse_query_app _ _ _ _ (parse_query_app _ _ _ _ (parse_query_app _ _ _ _
    (parse_query_app _ _ _ _ (parse_query_app _ _ _ _ Hq P1) P2) P3) P5) P4) as P.
  destruct (extra_items_parse _ _ _ [] Hex P) as (e & E & P' & F). unfold extra_items. rewrite E. cbn [mbind res_bind].
  exists (query ++ #"&" ++ e1 ++ #"&" ++ e2 ++ #"&" ++ e3 ++ #"&" ++ e5 ++ #"&" ++ e4 ++ e). split.
  { cbn [app to_string]. by rewrite -!app_assoc. }
  split; [|rewrite -!app_assoc in P'; exact P'].
  change (35 ∉ query ++ (#"&" ++ e1) ++ (#"&" ++ e2) ++ (#"&" ++ e3) ++ (#"&" ++ e5) ++ (#"&" ++ e4) ++ e).
  do 6 (apply not_in_app; [done|]). done.
Qed.

(** (C10) Starting an implicit or access-code login at an address without a query or a
    fragment opens one window, whose address has a query that a server reads back as the
    response type, the place to return to, the realm, the client, the chosen scopes joined
    by the separator, the scheme as the state, and the additional parameters, whose keys
    (which the code does not encode) need no escape. *)
Theorem oauth_login_url btoa w m st chosen name :
  attr m #"type" = VStr #"oauth2" →
  (attr m #"flow" = VStr #"implicit" ∨ attr m #"flow" = VStr #"accessCode") →
  map_res chosen_scope (assigned (attr m #"scopes")).*2 = Ok chosen →
  getTokenName (VObj (attributes m)) = Ok name →
  63 ∉ to_string (attr m #"authorizationUrl") → 35 ∉ to_string (attr m #"authorizationUrl") →
  sendable (redirectUrl w) → sendable (realm w) → sendable (clientId w) → sendable (attr m #"title") →
  sendable (VStr (joined_scopes (scopeSeparator w) chosen)) →
  Forall (λ p, plain_key p.1 ∧ sendable p.2) (assigned (additionalQueryStringParams w)) →
  ∃ st' query, let address := to_string (attr m #"authorizationUrl") ++ #"?" ++ query in
    handleOauth2Login btoa w m st = Ok (st', OpenWindow address) ∧
    query_of address = Some (
      [ (#"response_type", if is_str #"implicit" (attr m #"flow") then #"token" else #"code");
        (#"redirect_uri", to_string (redirectUrl w)); (#"realm", to_string (realm w)); (#"client_id", to_string (clientId w));
        (#"scope", joined_scopes (scopeSeparator w) chosen); (#"state", to_string (attr m #"title"))] ++
      map (λ p, (p.1, to_string p.2)) (assigned (additionalQueryStringParams w))).
Proof.
  intros Ht Hf Hc Hn Hu Hu' H1 H2 H3 H4 H5 Hex.
  set (response := if is_str #"implicit" (attr m #"flow") then #"token" else #"code").
  assert (parse_query (#"response_type=" ++ response) = Some [(#"response_type", response)]) as Hq.
  { unfold response. by destruct (is_str _ _). }
  assert (35 ∉ #"response_type=" ++ response) as Hq35 by (unfold response; destruct (is_str _ _); by apply not_in_check).
  destruct (login_url_parses w (to_string (attr m #"authorizationUrl") ++ #"?") (#"response_type=" ++ response) _ chosen
    (attr m #"title") Hq Hq35 H1 H2 H3 H4 H5 Hex) as (query & E & H35 & Hp). rewrite -app_assoc in E.
  assert (is_str #"implicit" (attr m #"flow") || is_str #"accessCode" (attr m #"flow") = true) as Hflow
    by (by destruct Hf as [-> | ->]).
  eexists _, query. cbv zeta. unfold handleOauth2Login. rewrite Hc Hn Ht. cbn [mbind res_bind]. fold response.
  change (is_str #"oauth2" (VStr #"oauth2")) with true. rewrite !andb_true_l Hflow E. cbn [mbind res_bind].
  rewrite -app_assoc. split; [done|]. by rewrite query_of_cut.
Qed.

(** ** Logging in and out *)

(** A scheme the dialog handles without leaving the page. *)
Definition simple_scheme (a : attrs) : bool :=
  (is_str #"apiKey" (field a #"type") || is_str #"basic" (field a #"type")) && is_undef (field a #"isLogout").

(** A model shows a scheme: its title, its type, and whether the table has it. *)
Definition shows (t : authz) (p : jstr * attrs) (m : auth_model) : Prop :=
  attr m #"title" = VStr p.1 ∧ attr m #"type" = field p.2 #"type" ∧
  logged_in m = match pget t p.1 with Some _ => true | None => false end.

Lemma field_with_defaults d a k :
  is_undef (field a k) = false ∨ existsb (streq k) d.*1 = false → field (with_defaults d a) k = field a k.
Proof.
  unfold with_defaults. revert a. induction d as [|[k' v] d IH]; intros a Ha; [done|]. cbn [fold_left].
  assert (is_undef (field a k) = false ∨ existsb (streq k) d.*1 = false) as Ha'.
  { destruct Ha as [|Ha]; [by left|right]. cbn in Ha. by apply orb_false_iff in Ha as [_ ?]. }
  destruct (is_undef (field a k')) eqn:E; [|by apply IH].
  assert (field (pset k' v a) k = field a k) as Hk.
  { rewrite field_pset. destruct (streq k' k) eqn:Ek; [|done]. apply streq_spec in Ek as ->.
    destruct Ha as [Ha|Ha]; [congruence|]. cbn in Ha. by rewrite streq_refl in Ha. }
  rewrite IH; [done|]. by rewrite Hk.
Qed.

Lemma parse_auth_fields t name a :
  field (parse_auth t (name, a)) #"title" = VStr name ∧ field (parse_auth t (name, a)) #"type" = field a #"type" ∧
  field (parse_auth t (name, a)) #"isLogout" =
    match pget t name with Some _ => VBool true | None => field a #"isLogout" end.
Proof.
  unfold parse_auth. destruct (pget t name); rewrite !field_pset; done.
Qed.

Lemma handleOne_shows t name a :
  simple_scheme a = true → ∃ m, handleOne (parse_auth t (name, a)) = Ok m ∧ shows t (name, a) m.
Proof.
  unfold simple_scheme. rewrite andb_true_iff orb_true_iff. intros [Htype Hl].
  destruct (parse_auth_fields t name a) as (Ht & Hty & Hlo). set (b := parse_auth t (name, a)) in *.
  assert (is_undef (field a #"type") = false) as Hdef by (by destruct (field a #"type"); destruct Htype).
  assert (∀ d k, (k = #"title" ∨ k = #"type") ∨ existsb (streq k) d.*1 = false → field (with_defaults d b) k = field b k) as Hk.
  { intros d k H. apply field_with_defaults. destruct H as [[->| ->]|]; [left; by rewrite Ht|left; by rewrite Hty|by right]. }
  assert (∀ kd d, existsb (streq #"isLogout") d.*1 = false → shows t (name, a) {| kind := kd; attributes := with_defaults d b |}) as Hsh.
  { intros kd d Hnl. unfold shows, logged_in, attr. cbn [attributes fst snd].
    rewrite (Hk d #"title") ?(Hk d #"type") ?(Hk d #"isLogout"); auto. rewrite Ht Hty Hlo. split; [done|]. split; [done|].
    destruct (pget t name); [done|]. by destruct (field a #"isLogout"). }
  unfold handleOne. rewrite Hty.
  assert (is_str #"oauth2" (field a #"type") = false) as ->.
  { destruct (field a #"type") as [| | | | |s| |]; try done. cbn in Htype |- *.
    destruct Htype as [H|H]; by apply streq_spec in H as ->. }
  destruct (is_str #"basic" (field a #"type")); [eexists; split; [done|]; by apply Hsh|].
  destruct Htype as [->|]; [|done]. eexists. split; [done|]. by apply Hsh.
Qed.

Lemma collection_shows t data :
  Forall (λ p, simple_scheme p.2 = true) data →
  ∃ c, newAuthsCollection t data = Ok c ∧ Forall2 (shows t) (enum data) c.
Proof.
  intros HF. assert (Forall (λ p, simple_scheme p.2 = true) (enum data)) as HF' by (by rewrite enum_perm). clear HF.
  unfold newAuthsCollection. induction HF' as [|[name a] l Ha _ (c & Hc & HF2)]; [by exists []|].
  destruct (handleOne_shows t name a Ha) as (m & Hm & Hs). exists (m :: c). cbn [map map_res].
  rewrite Hm. cbn [mbind res_bind]. rewrite Hc. split; [done|by constructor].
Qed.

(** The titles and types of a collection are fixed; the rest is edited by the user. *)
Definition same_schemes (c c' : list auth_model) : Prop :=
  Forall2 (λ m m', attr m' #"title" = attr m #"title" ∧ attr m' #"type" = attr m #"type") c c'.

(** What a click stores for a model. *)
Definition stored (m : auth_model) : auth :=
  if is_str #"apiKey" (attr m #"type")
  then ApiKeyAuthorization (text_attr m #"name") (text_attr m #"value") (text_attr m #"in")
  else PasswordAuthorization (text_attr m #"username") (text_attr m #"password").

Lemma authorize_simple btoa w c s :
  Forall (λ m, is_str #"apiKey" (attr m #"type") || is_str #"basic" (attr m #"type") = true) c →
  authorize btoa w c s = Ok {| table := fold_left (λ t m, pset (text_attr m #"title") (stored m) t) c (table s);
                               window := window s; opened := opened s |}.
Proof.
  intros HF. revert s. induction HF as [|m c Hm _ IH]; intros s; [by destruct s|]. unfold authorize in *. cbn [fold_res fold_left].
  assert (authorize_one btoa w s m = Ok {| table := pset (text_attr m #"title") (stored m) (table s);
                                           window := window s; opened := opened s |}) as ->.
  { unfold authorize_one, stored. destruct (is_str #"apiKey" (attr m #"type")); [done|]. cbn in Hm. by rewrite Hm. }
  cbn [mbind res_bind]. by rewrite IH.
Qed.

Lemma fold_pset_titles (f : auth_model → jstr) (g : auth_model → auth) c t k :
  (k ∉ map f c → pget (fold_left (λ t m, pset (f m) (g m) t) c t) k = pget t k) ∧
  (NoDup (map f c) → ∀ m, m ∈ c → pget (fold_left (λ t m, pset (f m) (g m) t) c t) (f m) = Some (g m)).
Proof.
  revert t k. induction c as [|m c IH]; intros t k; (split; [|intros Hn x Hx]); cbn [fold_left map] in *.
  - done.
  - by apply not_elem_of_nil in Hx.
  - intros [Hk Hc]%not_elem_of_cons. rewrite (proj1 (IH _ k)) //. by apply pget_pset_ne.
  - apply NoDup_cons in Hn as [Hm Hn]. apply elem_of_cons in Hx as [->|Hx]; [|by apply IH].
    rewrite (proj1 (IH _ (f m))) //. apply pget_pset_eq.
Qed.

Lemma fold_remove_titles (f : auth_model → jstr) c (t : authz) k :
  pget (fold_left (λ t m, auth_remove (f m) t) c t) k = if bool_decide (k ∈ map f c) then None else pget t k.
Proof.
  revert t. induction c as [|m c IH]; intros t; [by rewrite bool_decide_false; [|apply not_elem_of_nil]|].
  cbn [fold_left map]. rewrite IH. unfold auth_remove. destruct (decide (k = f m)) as [->|Hk].
  - rewrite (bool_decide_true (f m ∈ f m :: _)); [|by left]. case_bool_decide; [done|]. apply pget_pdel_eq.
  - rewrite pget_pdel_ne //. erewrite (bool_decide_ext (k ∈ f m :: map f c)); [done|]. rewrite elem_of_cons. naive_solver.
Qed.

Lemma shows_authorized t l c : Forall2 (shows t) l c → Forall (λ p, is_Some (pget t p.1)) l → isAuthorized c = true.
Proof.
  intros H HF. unfold isAuthorized. apply Nat.eqb_eq. induction H as [|p m l c (_ & _ & Hm) _ IH]; [done|].
  apply Forall_cons in HF as [[z Hz] HF]. rewrite Hz in Hm. cbn [List.filter]. rewrite Hm. cbn [length]. by rewrite -(IH HF).
Qed.

Lemma shows_anonymous t l c : Forall2 (shows t) l c → Forall (λ p, pget t p.1 = None) l → isPartiallyAuthorized c = false.
Proof.
  intros H HF. unfold isPartiallyAuthorized. induction H as [|p m l c (_ & _ & Hm) _ IH]; [done|].
  apply Forall_cons in HF as [Hz HF]. rewrite Hz in Hm. cbn [List.filter]. rewrite Hm. by apply IH.
Qed.

Lemma same_titles t l c c' : Forall2 (shows t) l c → same_schemes c c' → map (λ m, text_attr m #"title") c' = l.*1.
Proof.
  intros H. revert c'. induction H as [|p m l c (Hm & _) _ IH]; intros c' Hs; inversion Hs as [|? m' ? c'' [Ht _]]; subst; [done|].
  cbn. rewrite IH //. f_equal. unfold text_attr. by rewrite Ht Hm.
Qed.

Lemma same_simple t l c c' : Forall2 (shows t) l c → Forall (λ p, simple_scheme p.2 = true) l → same_schemes c c' →
  Forall (λ m, is_str #"apiKey" (attr m #"type") || is_str #"basic" (attr m #"type") = true) c'.
Proof.
  intros H. revert c'. induction H as [|p m l c (_ & Hm & _) _ IH]; intros c' HF Hs;
    inversion Hs as [|? m' ? c'' [_ Ht]]; subst; constructor.
  - apply Forall_cons in HF as [Hp _]. rewrite Ht Hm. by apply andb_true_iff in Hp as [? _].
  - apply IH; [|done]. by apply Forall_cons in HF as [_ ?].
Qed.

(** (C9) The dialog of API keys and passwords, whatever the user enters: authorizing puts
    one entry per scheme into the table, after which the dialog built anew shows all
    schemes as authorized; logging out takes them out and it shows none. The entries
    of other schemes stay through both. *)
Theorem dialog_login btoa w data s c c' :
  Forall (λ p, simple_scheme p.2 = true) data → NoDup data.*1 →
  newAuthsCollection (table s) data = Ok c → same_schemes c c' →
  ∃ s' c1 c2, authorize btoa w c' s = Ok s' ∧
    (∀ m, m ∈ c' → pget (table s') (text_attr m #"title") = Some (stored m)) ∧
    newAuthsCollection (table s') data = Ok c1 ∧ isAuthorized c1 = true ∧
    newAuthsCollection (table (logoutClick c' s')) data = Ok c2 ∧ isPartiallyAuthorized c2 = false ∧
    ∀ k, k ∉ data.*1 → pget (table s') k = pget (table s) k ∧ pget (table (logoutClick c' s')) k = pget (table s) k.
Proof.
  intros HF Hn Hc Hs. destruct (collection_shows (table s) data HF) as (c0 & Hc0 & Hsh).
  assert (c0 = c) as -> by congruence. clear Hc0.
  assert (Forall (λ p, simple_scheme p.2 = true) (enum data)) as HFe by (by rewrite enum_perm).
  pose proof (same_titles _ _ _ _ Hsh Hs) as Htitles. rewrite (authorize_simple btoa w c' s (same_simple _ _ _ _ Hsh HFe Hs)).
  set (s' := {| table := _ |}). destruct (collection_shows (table s') data HF) as (c1 & Hc1 & Hsh1).
  destruct (collection_shows (table (logoutClick c' s')) data HF) as (c2 & Hc2 & Hsh2).
  assert ((enum data).*1 ≡ₚ data.*1) as Hperm by (by rewrite enum_perm).
  assert (NoDup (map (λ m, text_attr m #"title") c')) as Hnt by (by rewrite Htitles Hperm).
  pose proof (fold_pset_titles (λ m, text_attr m #"title") stored c' (table s)) as Hset.
  assert (∀ m, m ∈ c' → pget (table s') (text_attr m #"title") = Some (stored m)) as Hin.
  { intros m Hm. by apply (proj2 (Hset []) Hnt). }
  assert (∀ p, p ∈ enum data → ∃ m, m ∈ c' ∧ text_attr m #"title" = p.1) as Htitle.
  { intros p Hp. assert (p.1 ∈ map (λ m, text_attr m #"title") c') as H by (rewrite Htitles; by apply list_elem_of_fmap_2).
    apply list_elem_of_fmap in H as (m & E & Hm). eauto. }
  exists s', c1, c2. split; [done|]. split; [done|]. split; [done|]. split.
  { apply (shows_authorized _ _ _ Hsh1). apply Forall_forall. intros p Hp. destruct (Htitle p Hp) as (m & Hm & <-).
    rewrite (Hin m Hm). eauto. }
  split; [done|]. cbn [logoutClick table]. split.
  { apply (shows_anonymous _ _ _ Hsh2). apply Forall_forall. intros p Hp. cbn [logoutClick table].
    rewrite fold_remove_titles Htitles bool_decide_true //. by apply list_elem_of_fmap_2. }
  intros k Hk. assert (k ∉ map (λ m, text_attr m #"title") c') as Hk' by (by rewrite Htitles Hperm).
  assert (pget (table s') k = pget (table s) k) as Hs' by (by apply (Hset k)). split; [done|].
  rewrite fold_remove_titles bool_decide_false //.
Qed.

(** ** What a dialog offers *)

(** A requirement of an operation: schemes with lists of scopes. *)
Definition requirement_ok (item : value) : Prop :=
  ∃ o, item = VObj o ∧ NoDup o.*1 ∧ Forall (λ p : jstr * value, ∃ req, p.2 = VArr req) o.

(** An OAuth2 definition restricted to the scopes a requirement names. *)
Definition offered_scopes (dd : attrs) (req : list value) : list value :=
  parseOauth2Scopes (VObj (required_scopes req (field dd #"scopes"))).
Definition offered (dd : attrs) (req : list value) : value :=
  VObj (pset #"scopes" (VArr (offered_scopes dd req)) (enum dd)).

Definition is_oauth2 (dd : attrs) : bool := is_str #"oauth2" (field dd #"type").

Section offers.
Context (d : attrs).
Hypothesis d_nodup : NoDup d.*1.
Hypothesis d_objects : Forall (λ p : jstr * value, is_plain_object p.2 = true) d.

Lemma defined_object k : field (assigned (VObj d)) k = VUndef ∧ pget d k = None ∨
  ∃ dd, field (assigned (VObj d)) k = VObj dd ∧ pget d k = Some (VObj dd).
Proof.
  unfold field. cbn [assigned entries]. rewrite -(pget_perm d (enum d) k) //; [|by rewrite enum_perm].
  destruct (pget d k) as [v|] eqn:E; [right|by left]. apply pget_some_in in E.
  apply (proj1 (Forall_forall _ _) d_objects) in E. destruct v as [| | | | | | |dd]; try done. by exists dd.
Qed.

(** One entry of a requirement. *)
Lemma security_key_spec r k req :
  security_key (assigned (VObj d)) r (k, VArr req) = Ok
    match pget d k with
    | Some (VObj dd) => if is_oauth2 dd then add_oauth2 k (enum dd) (offered_scopes dd req) r else add_single k (VObj (enum dd)) r
    | _ => r
    end.
Proof.
  unfold security_key. destruct (defined_object k) as [[-> ->]|(dd & -> & ->)]; [done|].
  cbn [truthy get mbind res_bind]. unfold is_oauth2, offered_scopes. fold (field dd #"type"). fold (field dd #"scopes").
  by destruct (is_str _ _).
Qed.

(** The schemes the entries [l] offer of each sort. *)
Definition offer (flag : bool) (l : attrs) (k : jstr) (x : value) : Prop :=
  ∃ req dd, (k, VArr req) ∈ l ∧ pget d k = Some (VObj dd) ∧ is_oauth2 dd = flag ∧
    x = if flag then offered dd req else VObj (enum dd).

Lemma offer_nil flag k x : ¬ offer flag [] k x.
Proof. intros (req & dd & H & _). by apply not_elem_of_nil in H. Qed.

Lemma offer_cons flag k0 req0 l k x :
  offer flag ((k0, VArr req0) :: l) k x ↔
  (k = k0 ∧ ∃ dd, pget d k0 = Some (VObj dd) ∧ is_oauth2 dd = flag ∧ x = if flag then offered dd req0 else VObj (enum dd)) ∨
  offer flag l k x.
Proof.
  unfold offer. setoid_rewrite elem_of_cons. split.
  - intros (req & dd & [[= -> ->]|H] & H1 & H2 & H3); [left; eauto|right; eauto 10].
  - intros [(-> & dd & H1 & H2 & H3)|(req & dd & H & H1 & H2 & H3)]; eauto 10.
Qed.

Lemma offer_skip flag k0 req0 l k x :
  (∀ dd, pget d k0 = Some (VObj dd) → is_oauth2 dd ≠ flag) → offer flag ((k0, VArr req0) :: l) k x ↔ offer flag l k x.
Proof.
  intros H. rewrite offer_cons. split; [|by right]. intros [(_ & dd & Hd & Ho & _)|]; [by destruct (H dd Hd)|done].
Qed.

Lemma offer_head k0 req0 dd l k x :
  pget d k0 = Some (VObj dd) →
  offer (is_oauth2 dd) ((k0, VArr req0) :: l) k x ↔
  (k, x) = (k0, if is_oauth2 dd then offered dd req0 else VObj (enum dd)) ∨ offer (is_oauth2 dd) l k x.
Proof.
  intros Hd. rewrite offer_cons Hd. split.
  - intros [(-> & dd' & [= <-] & _ & ->)|]; auto.
  - intros [[= -> ->]|]; [left; split; [done|]; by exists dd|by right].
Qed.

Lemma offer_perm flag l l' k x : l ≡ₚ l' → offer flag l k x ↔ offer flag l' k x.
Proof. intros H. unfold offer. by setoid_rewrite H. Qed.

(** The entries of a requirement go to the two objects by their type. *)
Lemma security_keys_spec l : Forall (λ p : jstr * value, ∃ req, p.2 = VArr req) l → NoDup l.*1 →
  ∀ r, (∀ k, k ∈ l.*1 → k ∉ (singleSecurity r).*1 ∧ k ∉ (singleOauth2Security r).*1) →
  ∃ r', fold_res (security_key (assigned (VObj d))) l r = Ok r' ∧
    (∀ k x, (k, x) ∈ singleSecurity r' ↔ (k, x) ∈ singleSecurity r ∨ offer false l k x) ∧
    (∀ k x, (k, x) ∈ singleOauth2Security r' ↔ (k, x) ∈ singleOauth2Security r ∨ offer true l k x).
Proof.
  induction 1 as [|[k v] l [req Hv] _ IH]; intros Hn r Hfresh.
  { exists r. split; [done|]. split; intros k x; (split; [by left|]); intros [|[]%offer_nil]; done. }
  cbn in Hv. subst v. cbn [fst fmap list_fmap] in Hn. apply NoDup_cons in Hn as [Hk Hn].
  cbn [fold_res]. rewrite security_key_spec. cbn [mbind res_bind].
  destruct (Hfresh k) as [Hk1 Hk2]; [by left|].
  assert (∀ k', k' ∈ l.*1 → k' ≠ k ∧ k' ∉ (singleSecurity r).*1 ∧ k' ∉ (singleOauth2Security r).*1) as Hfresh'.
  { intros k' Hk'. split; [by intros ->|]. apply Hfresh. by right. }
  destruct (defined_object k) as [[_ Hd]|(dd & _ & Hd)]; rewrite Hd; [|destruct (is_oauth2 dd) eqn:Ho].
  - destruct (IH Hn r) as (r' & -> & H1 & H2); [intros k' Hk'; by apply Hfresh'|]. exists r'. split; [done|].
    split; intros k' x; rewrite offer_skip //; intros dd; by rewrite Hd.
  - destruct (IH Hn (add_oauth2 k (enum dd) (offered_scopes dd req) r)) as (r' & -> & H1 & H2).
    { intros k' (Hne & Ha & Hb)%Hfresh'. split; [done|]. cbn. rewrite pset_in. by intros [|]. }
    exists r'. split; [done|]. cbn [singleSecurity singleOauth2Security add_oauth2] in H1, H2. rewrite pset_fresh // in H2.
    split; intros k' x.
    + rewrite offer_skip //. rewrite Hd. by intros ? [= <-]; rewrite Ho.
    + rewrite -Ho offer_head // Ho H2 elem_of_app list_elem_of_singleton. by rewrite or_assoc.
  - destruct (IH Hn (add_single k (VObj (enum dd)) r)) as (r' & -> & H1 & H2).
    { intros k' (Hne & Ha & Hb)%Hfresh'. split; [|done]. cbn. rewrite pset_in. by intros [|]. }
    exists r'. split; [done|]. cbn [singleSecurity singleOauth2Security add_single] in H1, H2. rewrite pset_fresh // in H1.
    split; intros k' x.
    + rewrite -Ho offer_head // Ho H1 elem_of_app list_elem_of_singleton. by rewrite or_assoc.
    + rewrite offer_skip //. rewrite Hd. by intros ? [= <-]; rewrite Ho.
Qed.

Lemma push_some_in o l k x : (∃ g, g ∈ push_some o l ∧ (k, x) ∈ g) ↔ (∃ g, g ∈ l ∧ (k, x) ∈ g) ∨ (k, x) ∈ o.
Proof.
  unfold push_some. destruct o as [|p o].
  - split; [by left|]. intros [|H]; [done|]. by apply not_elem_of_nil in H.
  - setoid_rewrite elem_of_app. setoid_rewrite list_elem_of_singleton. naive_solver.
Qed.

Lemma security_items_spec items : Forall requirement_ok items → ∀ p,
  ∃ p', fold_res (security_item (assigned (VObj d))) items p = Ok p' ∧
    (∀ k x, (∃ g, g ∈ auths p' ∧ (k, x) ∈ g) ↔
      (∃ g, g ∈ auths p ∧ (k, x) ∈ g) ∨ ∃ o, VObj o ∈ items ∧ offer false o k x) ∧
    (∀ k x, (∃ g, g ∈ oauth2 p' ∧ (k, x) ∈ g) ↔
      (∃ g, g ∈ oauth2 p ∧ (k, x) ∈ g) ∨ ∃ o, VObj o ∈ items ∧ offer true o k x).
Proof.
  induction 1 as [|item items (o & -> & Hn & Ho) _ IH]; intros p.
  { exists p. split; [done|]. split; intros k x; (split; [by left|]); intros [|(o & H & _)]; try done; by apply not_elem_of_nil in H. }
  cbn [fold_res]. unfold security_item at 2.
  destruct (security_keys_spec (enum o)) with (r := {| singleSecurity := []; singleOauth2Security := []; collected := scopes p |})
    as (r & E & H1 & H2).
  { by rewrite enum_perm. } { by rewrite enum_perm. } { intros k _. split; apply not_elem_of_nil. }
  change (assigned (VObj o)) with (enum o). rewrite E. cbn [mbind res_bind].
  destruct (IH {| auths := push_some (singleSecurity r) (auths p); oauth2 := push_some (singleOauth2Security r) (oauth2 p);
                  scopes := collected r |}) as (p' & -> & G1 & G2).
  exists p'. split; [done|]. cbn in H1, H2.
  split; intros k x; rewrite ?G1 ?G2 push_some_in ?H1 ?H2 (offer_perm _ _ _ k x (enum_perm o)); setoid_rewrite elem_of_cons;
    (split; [intros [[?|[H|?]]|(o' & ? & ?)]; eauto; by apply not_elem_of_nil in H|]);
    (intros [?|(o' & [[= ->]|?] & ?)]; eauto 8).
Qed.
End offers.

(** The dialog of an operation offers exactly the schemes that one of its
    requirements names and the document defines: OAuth2 schemes apart from the others,
    each with the scopes the definition declares and the requirement names. *)
Theorem security_offers items d :
  Forall requirement_ok items → NoDup d.*1 → Forall (λ p : jstr * value, is_plain_object p.2 = true) d →
  ∃ p, parseSecurityDefinitions (VArr items) (VObj d) = Ok (Some p) ∧
    (∀ k x, (∃ g, g ∈ auths p ∧ (k, x) ∈ g) ↔ ∃ o req dd, VObj o ∈ items ∧ (k, VArr req) ∈ o ∧
      pget d k = Some (VObj dd) ∧ is_oauth2 dd = false ∧ x = VObj (enum dd)) ∧
    (∀ k x, (∃ g, g ∈ oauth2 p ∧ (k, x) ∈ g) ↔ ∃ o req dd, VObj o ∈ items ∧ (k, VArr req) ∈ o ∧
      pget d k = Some (VObj dd) ∧ is_oauth2 dd = true ∧ x = offered dd req) ∧
    (∀ dd req v, v ∈ offered_scopes dd req ↔
      ∃ s desc, v = scope_entry (s, desc) ∧ (s, desc) ∈ assigned (field dd #"scopes") ∧ VStr s ∈ req).
Proof.
  intros Hi Hn Hd. destruct (security_items_spec d Hn Hd items Hi {| auths := []; oauth2 := []; scopes := [] |})
    as (p & E & H1 & H2).
  exists p. unfold parseSecurityDefinitions. rewrite E. split; [done|]. cbn [auths oauth2] in H1, H2.
  assert (∀ (P : Prop) k x, (∃ g : attrs, g ∈ [] ∧ (k, x) ∈ g) ∨ P ↔ P) as Hno.
  { intros P k x. split; [|by right]. intros [(g & H & _)|]; [by apply not_elem_of_nil in H|done]. }
  unfold offer in H1, H2. split; [|split].
  - intros k x. rewrite H1 Hno. naive_solver.
  - intros k x. rewrite H2 Hno. naive_solver.
  - intros dd req v. unfold offered_scopes, parseOauth2Scopes. cbn [assigned entries]. rewrite list_elem_of_fmap.
    setoid_rewrite enum_perm. unfold required_scopes. setoid_rewrite list_elem_of_In at 1. setoid_rewrite filter_In.
    split.
    + intros ([s desc] & -> & [Hs Hr]). exists s, desc. split; [done|]. split; [by apply list_elem_of_In|].
      cbn [fst] in Hr. apply existsb_exists in Hr as (u & Hu & Heq). destruct u; try done. apply streq_spec in Heq as <-. by apply list_elem_of_In.
    + intros (s & desc & -> & Hs & Hr). exists (s, desc). split; [done|]. split; [by apply list_elem_of_In|].
      apply existsb_exists. exists (VStr s). split; [by apply list_elem_of_In|]. cbn. apply streq_refl.
Qed.

(** ** Examples *)

Definition petstore_defs : attrs :=
  [ (#"api_key", VObj [(#"type", VStr #"apiKey"); (#"name", VStr #"api_key"); (#"in", VStr #"header")]);
    (#"login", VObj [(#"type", VStr #"basic")]);
    (#"store", VObj [(#"type", VStr #"oauth2"); (#"flow", VStr #"implicit"); (#"authorizationUrl", VStr #"http://x.io/auth");
                     (#"scopes", VObj [(#"read", VStr #"read pets"); (#"write", VStr #"write pets")]);
                     (#"vendorExtensions", VObj [])])].
Definition petstore_security : list value :=
  [VObj [(#"api_key", VArr []); (#"store", VArr [VStr #"write"])]; VObj [(#"unknown", VArr [])]].

Lemma security_offers_witness :
  ∃ p, parseSecurityDefinitions (VArr petstore_security) (VObj petstore_defs) = Ok (Some p) ∧
    ∀ k x, (∃ g, g ∈ oauth2 p ∧ (k, x) ∈ g) ↔ ∃ o req dd, VObj o ∈ petstore_security ∧ (k, VArr req) ∈ o ∧
      pget petstore_defs k = Some (VObj dd) ∧ is_oauth2 dd = true ∧ x = offered dd req.
Proof.
  destruct (security_offers petstore_security petstore_defs) as (p & E & _ & H & _).
  - constructor; [|constructor; [|constructor]]; eexists; (split; [reflexivity|]); split.
    + apply (bool_decide_unpack _). vm_compute. exact I.
    + constructor; [eexists; reflexivity|]. constructor; [eexists; reflexivity|constructor].
    + apply (bool_decide_unpack _). vm_compute. exact I.
    + constructor; [eexists; reflexivity|constructor].
  - apply (bool_decide_unpack _). vm_compute. exact I.
  - repeat constructor.
  - exists p. split; [exact E|exact H].
Defined.

(** The dialog of a key and a password, and what a user typed into it. *)
Definition simple_data : list (jstr * attrs) :=
  [ (#"api_key", [ (#"type", VStr #"apiKey"); (#"name", VStr #"api_key"); (#"in", VStr #"header")]);
    (#"login", [ (#"type", VStr #"basic")])].
Definition no_oauth : oauth_state :=
  {| OAuthSchemeKey := VUndef; tokenName := VUndef; tokenUrl := VUndef; enabledScopes := []; redirect_uri := VUndef |}.
Definition fresh_session : session :=
  {| table := [ (#"cookie", CookieAuthorization #"a=b")]; window := no_oauth; opened := [] |}.
Definition simple_dialog : list auth_model :=
  match newAuthsCollection (table fresh_session) simple_data with Ok c => c | Throw _ => [] end.
Definition filled_dialog : list auth_model :=
  map (λ m, set_attr #"value" (VStr #"secret") (set_attr #"username" (VStr #"ann") (set_attr #"password" (VStr #"pw") m))) simple_dialog.
Definition example_page : page :=
  {| protocol := #"https:"; page_host := #"x.io"; pathname := #"/ui/index.html"; oAuthRedirectUrl := VUndef;
     realm := VStr #"r"; clientId := VStr #"me"; scopeSeparator := VStr #" "; additionalQueryStringParams := VObj [] |}.

Lemma dialog_login_witness :
  ∃ s' c1, authorize (λ s, Ok s) example_page filled_dialog fresh_session = Ok s' ∧
    newAuthsCollection (table s') simple_data = Ok c1 ∧ isAuthorized c1 = true.
Proof.
  destruct (dialog_login (λ s, Ok s) example_page simple_data fresh_session simple_dialog filled_dialog)
    as (s' & c1 & c2 & H1 & _ & H2 & H3 & _).
  - repeat constructor.
  - apply (bool_decide_unpack _). vm_compute. exact I.
  - vm_compute. reflexivity.
  - repeat constructor.
  - exists s', c1. split; [exact H1|]. split; [exact H2|exact H3].
Defined.

Example table_after_login :
  (λ s, table s) <$> authorize (λ s, Ok s) example_page filled_dialog fresh_session =
  Ok [ (#"cookie", CookieAuthorization #"a=b"); (#"api_key", ApiKeyAuthorization #"api_key" #"secret" #"header");
       (#"login", PasswordAuthorization #"ann" #"pw")].
Proof. vm_compute. reflexivity. Qed.

(** The model of the OAuth2 scheme with one of its scopes chosen. *)
Definition store_model : auth_model :=
  {| kind := Oauth2Model;
     attributes := [ (#"type", VStr #"oauth2"); (#"flow", VStr #"implicit"); (#"title", VStr #"store");
       (#"authorizationUrl", VStr #"http://x.io/auth"); (#"vendorExtensions", VObj []);
       (#"scopes", VArr [VObj [(#"scope", VStr #"read"); (#"description", VStr #"read pets")];
                         VObj [(#"scope", VStr #"write"); (#"description", VStr #"write pets"); (#"checked", VBool true)]])] |}.

Lemma oauth_login_url_witness :
  ∃ st' query, let address := to_string (attr store_model #"authorizationUrl") ++ #"?" ++ query in
    handleOauth2Login (λ s, Ok s) example_page store_model no_oauth = Ok (st', OpenWindow address) ∧
    query_of address = Some (
      [ (#"response_type", if is_str #"implicit" (attr store_model #"flow") then #"token" else #"code");
        (#"redirect_uri", to_string (redirectUrl example_page)); (#"realm", to_string (realm example_page));
        (#"client_id", to_string (clientId example_page));
        (#"scope", joined_scopes (scopeSeparator example_page) [VUndef; VStr #"write"]);
        (#"state", to_string (attr store_model #"title"))] ++
      map (λ p, (p.1, to_string p.2)) (assigned (additionalQueryStringParams example_page))).
Proof.
  assert (∀ v, forallb (λ c, (0 <=? c) && (c <? 65536)) (to_string v) && well_paired (to_string v) = true → sendable v) as H.
  { intros v [H1 H2]%andb_true_iff. split; [exact (wf_check _ H1)|exact H2]. }
  apply (oauth_login_url (λ s, Ok s) example_page store_model no_oauth [VUndef; VStr #"write"] VUndef).
  - vm_compute. reflexivity.
  - left. vm_compute. reflexivity.
  - vm_compute. reflexivity.
  - vm_compute. reflexivity.
  - apply not_in_check. vm_compute. reflexivity.
  - apply not_in_check. vm_compute. reflexivity.
  - apply H. vm_compute. reflexivity.
  - apply H. vm_compute. reflexivity.
  - apply H. vm_compute. reflexivity.
  - apply H. vm_compute. reflexivity.
  - apply H. vm_compute. reflexivity.
  - constructor.
Defined.

(** A login page whose address has a query gets a second question mark: the server reads
    the response type as part of the value before it. *)
Example login_page_with_query :
  let m := {| kind := Oauth2Model; attributes := pset #"authorizationUrl" (VStr #"http://x.io/auth?p=1") (attributes store_model) |} in
  match handleOauth2Login (λ s, Ok s) example_page m no_oauth with
  | Ok (_, OpenWindow u) => take 1 <$> query_of u
  | _ => None
  end = Some [(#"p", #"1?response_type=token")].
Proof. vm_compute. reflexivity. Qed.

(** A scope that is not chosen leaves its separator: the list starts with a blank. *)
Example unchosen_scope_leaves_separator :
  snd <$> handleOauth2Login (λ s, Ok s) example_page store_model no_oauth =
  Ok (OpenWindow (#"http://x.io/auth?response_type=token&redirect_uri=https%3A%2F%2Fx.io%2Fui%2Fo2c.html&realm=r&client_id=me" ++
                  #"&scope=%20write&state=store")).
Proof. vm_compute. reflexivity. Qed.

(** A client that must authenticate is not asked for its identifier: the test looks
    for the method among the positions of the array. *)
Example missing_client_accepted :
  snd <$> validate (set_attr #"clientAuthenticationType" (VStr #"basic") store_model) = Ok true.
Proof. vm_compute. reflexivity. Qed.

(** The scopes of two OAuth2 schemes are merged by position, which loses one. *)
Example scopes_overwritten :
  (option_map scopes) <$> parseSecurityDefinitions
    (VArr [VObj [(#"a", VArr [VStr #"read"]); (#"b", VArr [VStr #"admin"])]])
    (VObj [(#"a", VObj [(#"type", VStr #"oauth2"); (#"scopes", VObj [(#"read", VStr #"r")])]);
           (#"b", VObj [(#"type", VStr #"oauth2"); (#"scopes", VObj [(#"admin", VStr #"x")])])]) =
  Ok (Some [scope_entry (#"admin", VStr #"x")]).
Proof. vm_compute. reflexivity. Qed.
