(* ===== verification/UiForm.v ===== *)
(** * The form of an operation

    [OperationView]: the check of the required fields, the reading of the fields into
    the arguments of the call, and what is handed to [Operation.execute]. The controls
    of the form are records of what the code reads of the DOM. *)

From S2P Require Import Prelude JsValue OperationUrl Operation.

(** ** Controls *)

Record input := { i_name : jstr; i_value : jstr; i_required : bool; i_file : bool; i_files0 : value }.
Record textarea := { t_name : jstr; t_value : jstr; t_required : bool; t_visible : bool }.
(** [s_value] is the value of a single choice; the options are what a multiple choice
    reads. *)
Record select := { s_name : jstr; s_value : jstr; s_required : bool; s_multiple : bool; s_selectedIndex : Z;
                   s_options : list (bool * jstr) }.
Record form := { inputs : list input; textareas : list textarea; selects : list select }.

(** [jQuery.trim(v) === ''] *)
Definition is_blank (v : value) : bool :=
  match v with VUndef | VNull => true | _ => streq (trim (to_string v)) [] end.

(** ** [submitOperation]: the check *)

Definition input_ok (o : input) : bool := negb (i_required o && is_blank (VStr (i_value o))).
Definition textarea_ok (o : textarea) : bool := negb (t_required o && t_visible o && is_blank (VStr (t_value o))).
Definition select_ok (o : select) : bool := negb (s_required o && (s_selectedIndex o =? -1)).
Definition error_free (f : form) : bool :=
  forallb input_ok (inputs f) && forallb textarea_ok (textareas f) && forallb select_ok (selects f).

(** ** Reading the fields *)

Definition getParamByName (ps : list param) (name : jstr) : option param := List.find (λ p, streq (p_name p) name) ps.

Definition getTextAreaValue (ps : list param) (o : textarea) : value :=
  if is_blank (VStr (t_value o)) then VNull
  else match getParamByName ps (t_name o) with
       | Some p =>
           if streq (to_lower (p_type p)) #"array" then
             match List.filter (λ s, negb (is_blank (VStr s))) (split [10] (t_value o)) with
             | [] => VNull
             | result => VArr (map VStr result)
             end
           else VStr (t_value o)
       | None => VStr (t_value o)
       end.

Definition getSelectedValue (o : select) : value :=
  if s_multiple o then
    match List.filter fst (s_options o) with
    | [] => VNull
    | chosen => VArr (map (λ p, VStr p.2) chosen)
    end
  else VStr (s_value o).

Definition put (name : jstr) (v : value) (m : args) : args := if is_blank v then m else pset name v m.

Definition put_input (m : args) (o : input) : args :=
  let m := put (i_name o) (VStr (i_value o)) m in
  if i_file o then pset (i_name o) (i_files0 o) m else m.

Definition getInputMap (ps : list param) (f : form) : args :=
  fold_left (λ m o, put (s_name o) (getSelectedValue o) m) (selects f)
    (fold_left (λ m o, put (t_name o) (getTextAreaValue ps o) m) (textareas f)
      (fold_left put_input (inputs f) [])).

Definition isFileUpload (f : form) : bool := existsb i_file (inputs f).

(** ** [submitOperation]: the call *)

(** [editors] are the texts of the enabled JSON editors; [None] is a form with errors. *)
Definition submitOperation (ps : list param) (editors : list (jstr * jstr)) (f : form) : option args :=
  if error_free f then
    let m := fold_left (λ m '(name, json), pset name (VStr json) m) editors (getInputMap ps f) in
    Some (if isFileUpload f then pset #"parameterContentType" (VStr #"multipart/form-data") m else m)
  else None.

(** ** What was entered is sent *)

Lemma put_field name v m k : field (put name v m) k = if negb (is_blank v) && streq name k then v else field m k.
Proof. unfold put. destruct (is_blank v); [done|]. rewrite field_pset. by destruct (streq name k). Qed.

Lemma blank_defined v : is_blank v = false → is_undef v = false.
Proof. by destruct v. Qed.

(** A later field may overwrite an entry but does not take it away. *)
Lemma fold_put_keeps {A} (name : A → jstr) (v : A → value) l m k :
  is_undef (field m k) = false → is_undef (field (fold_left (λ m o, put (name o) (v o) m) l m) k) = false.
Proof.
  revert m. induction l as [|o l IH]; intros m Hm; [done|]. cbn. apply IH. rewrite put_field.
  destruct (is_blank (v o)) eqn:E; [done|]. cbn. destruct (streq (name o) k); [by apply blank_defined|done].
Qed.

Lemma fold_put_sets {A} (name : A → jstr) (v : A → value) l m o :
  o ∈ l → is_blank (v o) = false → is_undef (field (fold_left (λ m o, put (name o) (v o) m) l m) (name o)) = false.
Proof.
  intros Hin Hv. revert m. apply list_elem_of_split in Hin as (l1 & l2 & ->). intros m. rewrite fold_left_app. cbn.
  apply fold_put_keeps. rewrite put_field Hv streq_refl. by apply blank_defined.
Qed.

(** Unless a file field of the name is without a file. *)
Lemma fold_inputs_keeps l m k :
  (∀ o, o ∈ l → i_name o = k → i_file o = true → is_undef (i_files0 o) = false) →
  is_undef (field m k) = false → is_undef (field (fold_left put_input l m) k) = false.
Proof.
  revert m. induction l as [|o l IH]; intros m Hl Hm; [done|]. cbn [fold_left]. apply IH; [intros o' Ho'; apply Hl; by right|].
  unfold put_input. destruct (i_file o) eqn:Ef; [rewrite field_pset|]; [destruct (streq (i_name o) k) eqn:E|].
  - apply streq_spec in E. by apply (Hl o); [left| |].
  - apply (fold_put_keeps i_name (λ o, VStr (i_value o)) [o]). done.
  - apply (fold_put_keeps i_name (λ o, VStr (i_value o)) [o]). done.
Qed.

Lemma trim_left_spaces s : trim_left s = [] ↔ forallb is_space s = true.
Proof. induction s as [|c s IH]; [done|]. cbn. by destruct (is_space c). Qed.

Lemma trim_left_suffix s : ∃ p, s = p ++ trim_left s ∧ forallb is_space p = true.
Proof.
  induction s as [|c s (p & E & Hp)]; [by exists []|]. cbn. destruct (is_space c) eqn:Ec; [|by exists []].
  exists (c :: p). cbn. by rewrite Ec -E.
Qed.

Lemma forallb_rev {A} (f : A → bool) l : forallb f (rev l) = forallb f l.
Proof. induction l as [|x l IH]; [done|]. cbn. rewrite forallb_app IH /= andb_true_r. apply andb_comm. Qed.

Lemma blank_spaces s : is_blank (VStr s) = forallb is_space s.
Proof.
  cbn. apply eq_iff_eq_true. rewrite streq_spec. unfold trim. destruct (trim_left_suffix s) as (p & E & Hp). split.
  - intros H. apply (f_equal (@rev _)) in H. rewrite rev_involutive in H. apply trim_left_spaces in H.
    rewrite forallb_rev in H. rewrite E forallb_app Hp H. done.
  - intros H. rewrite E forallb_app andb_true_iff in H. destruct H as [_ H].
    assert (trim_left (rev (trim_left s)) = []) as ->; [|done]. apply trim_left_spaces. by rewrite forallb_rev.
Qed.

Lemma join_spaces l : forallb (forallb is_space) l = true → forallb is_space (join [10] l) = true.
Proof.
  induction l as [|s l IH]; [done|]. cbn [forallb]. rewrite andb_true_iff. intros [Hs Hl].
  destruct l as [|s' l]; [done|]. rewrite join_cons // !forallb_app Hs IH //.
Qed.

(** A text area with text gives a value, also when its lines become a list. *)
Lemma textarea_value ps o : is_blank (VStr (t_value o)) = false → is_blank (getTextAreaValue ps o) = false.
Proof.
  intros Hb. unfold getTextAreaValue. rewrite Hb. destruct (getParamByName ps (t_name o)) as [p|]; [|done].
  destruct (streq _ _); [|done]. destruct (List.filter _ _) as [|s l] eqn:E.
  - exfalso. assert (forallb is_space (t_value o) = true) as H; [|rewrite -blank_spaces in H; congruence].
    rewrite -(join_split [10] (t_value o)) //. apply join_spaces. apply forallb_forall. intros s Hs.
    destruct (forallb is_space s) eqn:Es; [done|]. rewrite -blank_spaces in Es.
    assert (s ∈ List.filter (λ s, negb (is_blank (VStr s))) (split [10] (t_value o))) as Hin
      by (apply list_elem_of_In, filter_In; by rewrite Es). rewrite E in Hin. by apply not_elem_of_nil in Hin.
  - assert (is_blank (VStr s) = false) as Hs.
    { assert (In s (s :: l)) as Hin by (by left). rewrite -E in Hin. apply filter_In in Hin as [_ Hin]. by apply negb_true_iff in Hin. }
    rewrite blank_spaces in Hs.
    assert (∀ l', is_blank (VStr (join #"," (s :: l'))) = false) as H; [|apply H].
    intros l'. rewrite blank_spaces. destruct l' as [|s' l']; [done|]. rewrite join_cons // !forallb_app Hs. done.
Qed.

(** A parameter the form asks for: a required field of its name. A choice made is one
    of a value. *)
Definition asked (f : form) (p : param) : Prop :=
  (∃ o, o ∈ inputs f ∧ i_name o = p_name p ∧ i_required o = true) ∨
  (∃ o, o ∈ textareas f ∧ t_name o = p_name p ∧ t_required o = true ∧ t_visible o = true) ∨
  (∃ o, o ∈ selects f ∧ s_name o = p_name p ∧ s_required o = true ∧
     (s_selectedIndex o ≠ -1 → is_blank (getSelectedValue o) = false)).

(** What browsers do: a file field with a value has a file, and fields of one form
    differ in name. *)
Definition form_ok (f : form) : Prop :=
  NoDup (map i_name (inputs f)) ∧
  Forall (λ o, i_file o = true → is_blank (VStr (i_value o)) = false → is_undef (i_files0 o) = false) (inputs f).

Lemma getInputMap_asked ps f p :
  form_ok f → error_free f = true → asked f p → is_undef (field (getInputMap ps f) (p_name p)) = false.
Proof.
  intros [Hn Hfile] He Ha. unfold error_free in He. rewrite !andb_true_iff !forallb_forall in He. destruct He as [[Hi Ht] Hs].
  unfold getInputMap. destruct Ha as [(o & Ho & <- & Hr)|[(o & Ho & <- & Hr & Hv)|(o & Ho & <- & Hr & Hv)]].
  - apply (fold_put_keeps s_name getSelectedValue), (fold_put_keeps t_name (getTextAreaValue ps)).
    assert (is_blank (VStr (i_value o)) = false) as Hb.
    { apply list_elem_of_In, Hi in Ho. unfold input_ok in Ho. rewrite Hr in Ho. by apply negb_true_iff in Ho. }
    apply list_elem_of_split in Ho as (l1 & l2 & El). rewrite El fold_left_app. cbn [fold_left]. rewrite El in Hn Hfile.
    rewrite map_app /= in Hn. apply NoDup_app in Hn as (_ & _ & [Hn _]%NoDup_cons).
    apply Forall_app in Hfile as [_ [Hfo _]%Forall_cons]. apply fold_inputs_keeps.
    + intros o' Ho' E. exfalso. apply Hn. rewrite -E. by apply list_elem_of_fmap_2.
    + unfold put_input. destruct (i_file o); [rewrite field_pset streq_refl; auto|].
      rewrite put_field Hb streq_refl. done.
  - apply (fold_put_keeps s_name getSelectedValue), (fold_put_sets t_name (getTextAreaValue ps)); [done|]. apply textarea_value.
    apply list_elem_of_In, Ht in Ho. unfold textarea_ok in Ho. rewrite Hr Hv in Ho. by apply negb_true_iff in Ho.
  - apply (fold_put_sets s_name getSelectedValue); [done|]. apply Hv. apply list_elem_of_In, Hs in Ho.
    unfold select_ok in Ho. rewrite Hr in Ho. apply negb_true_iff in Ho. cbn in Ho. lia.
Qed.

Lemma missing_none ps a :
  (∀ p, p ∈ ps → p_required p = true → is_undef (field a (p_name p)) = false) → getMissingParams ps a = None.
Proof.
  unfold getMissingParams. induction ps as [|p ps IH]; intros H; [done|]. cbn [fold_left].
  assert (p_required p && is_undef (field a (p_name p)) = false) as ->.
  { destruct (p_required p) eqn:E; [|done]. apply H; [by left|done]. }
  apply IH. intros q Hq. apply H. by right.
Qed.

(** (C8) A form that is submitted misses no argument: when it asks for every required
    parameter and its fields are those of a browser, the call it makes passes the
    check of the operation. *)
Theorem submitted_form_complete ps editors f m :
  form_ok f → (∀ p, p ∈ ps → p_required p = true → asked f p) →
  submitOperation ps editors f = Some m → getMissingParams ps m = None.
Proof.
  intros Hf Ha H. unfold submitOperation in H. destruct (error_free f) eqn:He; [|done]. injection H as <-.
  assert (∀ p, p ∈ ps → p_required p = true → is_undef (field (getInputMap ps f) (p_name p)) = false) as Hm.
  { intros p Hp Hr. apply getInputMap_asked; auto. }
  set (m1 := fold_left _ editors _).
  assert (∀ k, is_undef (field (getInputMap ps f) k) = false → is_undef (field m1 k) = false) as H1.
  { intros k. unfold m1. generalize (getInputMap ps f) as a. induction editors as [|[n j] l IH]; intros a Hk; [done|].
    cbn. apply IH. rewrite field_pset. by destruct (streq n k). }
  apply missing_none. intros p Hp Hr. specialize (H1 _ (Hm p Hp Hr)). destruct (isFileUpload f); [|done].
  rewrite field_pset. by destruct (streq _ _).
Qed.

Definition id_param : param :=
  {| p_name := #"petId"; p_in := #"path"; p_type := #"integer"; p_format := []; p_required := true;
     collectionFormat := None; x_escape := None; allowEmptyValue := false |}.
Definition tags_param : param :=
  {| p_name := #"tags"; p_in := #"query"; p_type := #"Array"; p_format := []; p_required := true;
     collectionFormat := None; x_escape := None; allowEmptyValue := false |}.
Definition pet_form : form :=
  {| inputs := [{| i_name := #"petId"; i_value := #" 7"; i_required := true; i_file := false; i_files0 := VUndef |}];
     textareas := [{| t_name := #"tags"; t_value := #"red" ++ [10; 10] ++ #"small"; t_required := true; t_visible := true |}];
     selects := [] |}.

Lemma submitted_form_complete_witness :
  getMissingParams [id_param; tags_param] [ (#"petId", VStr #" 7"); (#"tags", VArr [VStr #"red"; VStr #"small"])] = None.
Proof.
  apply (submitted_form_complete [id_param; tags_param] [] pet_form).
  - split; [apply (bool_decide_unpack _); vm_compute; exact I|]. constructor; [intros H; discriminate H|constructor].
  - intros p Hp _. apply elem_of_cons in Hp as [->|Hp]; [left|right; left].
    + eexists. split; [left; reflexivity|]. split; reflexivity.
    + apply list_elem_of_singleton in Hp as ->. eexists. split; [left; reflexivity|]. repeat split.
  - vm_compute. reflexivity.
Defined.
