(* ===== verification/UiViews.v ===== *)
(** * Texts and names of the views

    What the views compute apart from manipulating the DOM: the address of the
    specification ([SwaggerUi.load]), the unique nicknames of the operations of a
    resource ([ResourceView]), the headers of a response, the choice of how a response
    is shown, and the texts written into the page ([OperationView]). *)

From S2P Require Import Prelude JsValue SchemaMarkup Regex XmlFormat.

(** ** The address of the specification *)

(** Text up to the first occurrence of a unit. *)
Fixpoint before (c : Z) (s : jstr) : jstr :=
  match s with [] => [] | x :: t => if x =? c then [] else x :: before c t end.

Definition buildUrl (base url : jstr) : jstr :=
  if starts_with #"/" url then
    let parts := split #"/" base in
    default [] (head parts) ++ #"//" ++
    to_string (default VUndef (VStr <$> parts !! 2%nat)) ++ url
  else
    let base := before 35 (before 63 base) in
    if ends_with #"/" base then base ++ url else base ++ #"/" ++ url.

Definition load_url (href url : jstr) : jstr :=
  if negb (streq url []) && negb (starts_with #"http" url) then buildUrl href url else url.

(** ** Nicknames of operations *)

(** The loop that looks for an identifier no operation has; [n] bounds its turns. *)
Fixpoint free_id (taken : list jstr) (n counter : nat) (id : jstr) : option jstr :=
  if existsb (streq id) taken then
    match n with
    | O => None
    | S n => free_id taken n (S counter) (id ++ #"_" ++ str_of_Z (Z.of_nat counter))
    end
  else Some id.

(** The nicknames given so far, in the order of the operations. *)
Definition name_operation (methods : list jstr) (nickname : jstr) : list jstr :=
  methods ++ [default nickname (free_id methods (length methods) 0 nickname)].
Definition name_operations (nicknames : list jstr) : list jstr := fold_left name_operation nicknames [].

(** ** Response headers *)

(** The two groups of the expression of [wrap]: up to the first colon, and the rest of
    a text that has no line break after it. *)
Definition header_match (i : jstr) : option (jstr * jstr) :=
  match find_sub #":" i with
  | Some n =>
      let rest := drop (S n) i in
      if existsb (λ x, has x [10; 13; 8232; 8233]) rest then None else Some (take n i, rest)
  | None => None
  end.

(** The headers of [wrap] *)
Definition wrap_headers (text : jstr) : list (jstr * jstr) :=
  fold_left (λ headers i, match header_match i with
                          | Some (k, v) => pset (trim k) (trim v) headers
                          | None => headers
                          end) (split [13] text) [].

(** ** Descriptions of headers *)

(** [parseHeadersType]: dates get a type of their own. *)
Definition header_type (header : value) : value :=
  match header with
  | VObj o =>
      if streq (to_string (field o #"type")) #"string" then
        if streq (to_string (field o #"format")) #"date-time" then VObj (pset #"type" (VStr #"dateTime") o)
        else if streq (to_string (field o #"format")) #"date" then VObj (pset #"type" (VStr #"date") o)
        else header
      else header
  | _ => header
  end.
Definition parseHeadersType (headers : list (jstr * value)) : list (jstr * value) :=
  map (λ '(k, h), (k, header_type h)) headers.

(** [parseResponseHeaders]: the list of the other properties; the text joined of it is
    dropped. *)
Definition other_properties (o : list (jstr * value)) : list value :=
  map (λ '(k, v), VStr (k ++ #": " ++ to_string v))
    (List.filter (λ '(k, _), negb (existsb (streq (to_lower k)) [ #"type"; #"description"])) (enum o)).
Definition parseResponseHeaders (headers : list (jstr * list (jstr * value))) : list (jstr * list (jstr * value)) :=
  map (λ '(k, o), (k, pset #"other" (VArr (other_properties o)) o)) headers.

(** [contains(produces, type)], a number used as a truth value *)
Definition contains_type (types : list jstr) (type : jstr) : bool :=
  negb (length (List.filter (contains type) types) =? 0)%nat.

(** [isXML] and [isJSON] of [render] *)
Definition sample_kinds (produces : list jstr) : bool * bool :=
  let isXML := contains_type produces #"xml" in
  (isXML, if isXML then contains_type produces #"json" else true).

(** The rows of the table of responses: the name of the model a response refers to is
    what follows the last [#/definitions/] of its reference. *)
Record response_message := { r_code : jstr; r_message : value; r_model : value; r_headers : value; r_schema : value }.

Definition literal (s : jstr) : re := fold_right (λ c r, Seq (Chr c) r) Eps s.
Definition model_name (ref : jstr) : jstr :=
  if contains #"#/definitions/" ref then
    match match_here (Seq (Star any) (literal #"#/definitions/")) ref with
    | Some c => drop (length (default [] (captured c 0))) ref
    | None => ref
    end
  else ref.

Definition response_row (p : jstr * value) : res response_message :=
  let '(code, v) := p in
  schemaObj ← get v #"schema";
  message ← get v #"description";
  headers ← get v #"headers";
  ref ← (if truthy schemaObj then get schemaObj #"$ref" else Ok VUndef);
  model ← (if truthy ref then r ← as_str ref; Ok (VStr (model_name r)) else Ok VNull);
  Ok {| r_code := code; r_message := message; r_model := model; r_headers := headers; r_schema := schemaObj |}.

Definition responseMessages_of (responses : list (jstr * value)) : res (list response_message) :=
  map_res response_row (enum responses).

(** ** Showing a response *)

Inductive payload := Text (s : jstr) | Blob.

Inductive shown :=
  | NoContent
  | DownloadLink (type name : jstr)
  | NoDownload
  | ShowJson (text : jstr)
  | ShowXml (text : jstr)
  | ShowHtml (text : jstr)
  | ShowPlain (text : jstr)
  | ShowImage
  | ShowAudio
  | Redirect
  | ShowText (text : jstr).

Definition payload_text (p : payload) : jstr := match p with Text s => s | Blob => #"[object Blob]" end.

(** [headers[a] || headers[b]]; a missing header is the empty text. *)
Definition header (headers : list (jstr * jstr)) (a b : jstr) : jstr :=
  match pget headers a with
  | Some ((_ :: _) as v) => v
  | _ => default [] (pget headers b)
  end.

Definition content_type (headers : list (jstr * jstr)) : jstr :=
  match header headers #"Content-Type" #"content-type" with
  | [] => []
  | t => trim (before 59 t)
  end.

Definition mentions (headers : list (jstr * jstr)) (word a b : jstr) : bool :=
  contains word (default [] (pget headers a)) || contains word (default [] (pget headers b)).

(** The text between [filename=] and the next semicolon. *)
Definition response_filename (disposition : jstr) : option jstr :=
  match find_sub #"filename=" disposition with
  | Some n => Some (before 59 (drop (n + 9) disposition))
  | None => None
  end.

Definition file_of_url (url : jstr) : jstr := default [] (last (split #"/" url)).

Section show.
(** [JSON.stringify(JSON.parse(s), null, '  ')], undefined where it throws, and the
    browser: support of [Blob] and of audio types. *)
Context (reformat : jstr → option jstr) (has_blob : bool) (plays : jstr → bool).

(** The content of [response_body]; no headers is [None]. *)
Definition showStatus (headers : option (list (jstr * jstr))) (content : option payload) (url : jstr) : res shown :=
  let content := match content with Some (Text s) => Some (Text (trim s)) | c => c end in
  match content with
  | None | Some (Text []) => Ok NoContent
  | Some c =>
      match headers with
      | None => Throw TypeError
      | Some h =>
          let type := content_type h in
          if streq type #"application/octet-stream" ||
             mentions h #"attachment" #"Content-Disposition" #"content-disposition" ||
             mentions h #"File Transfer" #"Content-Description" #"content-description" then
            Ok (if has_blob
                then DownloadLink (match type with [] => #"text/html" | _ => type end)
                       (default (file_of_url url)
                          (response_filename (header h #"content-disposition" #"Content-Disposition")))
                else NoDownload)
          else if streq type #"application/json" || ends_with #"+json" type then
            Ok (ShowJson (default (#"can't parse JSON.  Raw result:" ++ [10; 10] ++ payload_text c) (reformat (payload_text c))))
          else if streq type #"application/xml" || ends_with #"+xml" type then
            match c with Text s => Ok (ShowXml (formatXml_response s)) | Blob => Throw TypeError end
          else if streq type #"text/html" then Ok (ShowHtml (payload_text c))
          else if contains #"text/plain" type then Ok (ShowPlain (payload_text c))
          else if prefixb #"image/" type then Ok ShowImage
          else if prefixb #"audio/" type && plays type then Ok ShowAudio
          else if negb (streq (header h #"location" #"Location") []) then Ok Redirect
          else Ok (ShowText (payload_text c))
      end
  end.
End show.

(** ** Texts in the page *)

(** lodash [escape] *)
Definition escape_unit (c : Z) : jstr :=
  if c =? 38 then #"&amp;" else if c =? 60 then #"&lt;" else if c =? 62 then #"&gt;"
  else if c =? 34 then #"&quot;" else if c =? 39 then #"&#39;" else if c =? 96 then #"&#96;" else [c].
Definition escape_html (s : jstr) : jstr := concat (map escape_unit s).

(** The curl command as it is put into the page. *)
Definition curl_html (command : jstr) : jstr := #"<pre>" ++ escape_html (replace_first #"!" #"&#33;" command) ++ #"</pre>".

(** [Docs.escapeResourceName] *)
Definition escapeResourceName (resource : jstr) : jstr :=
  concat (map (λ c, if has c (33 :: 34 :: #"#$%&'()*+,./:;<=>?@[\]^`{|}~") then [92; c] else [c]) resource).

(** ** Nicknames are unique *)

(** The identifiers the loop tries. *)
Fixpoint tried (counter : nat) (id : jstr) (j : nat) : jstr :=
  match j with O => id | S j => tried (S counter) (id ++ #"_" ++ str_of_Z (Z.of_nat counter)) j end.

Lemma tried_longer j : ∀ counter id, (length id + j <= length (tried counter id j))%nat.
Proof.
  induction j as [|j IH]; intros counter id; cbn [tried]; [lia|].
  specialize (IH (S counter) (id ++ #"_" ++ str_of_Z (Z.of_nat counter))). rewrite length_app in IH.
  change (length (#"_" ++ str_of_Z (Z.of_nat counter))) with (S (length (str_of_Z (Z.of_nat counter)))) in IH. lia.
Qed.

Lemma tried_add j k : ∀ counter id, tried counter id (j + k) = tried (counter + j) (tried counter id j) k.
Proof.
  induction j as [|j IH]; intros counter id; cbn [tried Nat.add]; [by rewrite Nat.add_0_r|].
  rewrite IH. f_equal. lia.
Qed.

Lemma tried_inj counter id j k : tried counter id j = tried counter id k → j = k.
Proof.
  assert (∀ i d, tried counter id i ≠ tried counter id (i + S d)) as H.
  { intros i d E. rewrite tried_add in E. pose proof (tried_longer (S d) (counter + i) (tried counter id i)). rewrite -E in H. lia. }
  intros E. destruct (Nat.lt_total j k) as [Hlt|[Heq|Hlt]]; [|done|].
  - destruct (H j (k - j - 1)%nat). by replace (j + S (k - j - 1))%nat with k by lia.
  - destruct (H k (j - k - 1)%nat). by replace (k + S (j - k - 1))%nat with j by lia.
Qed.

Lemma free_id_spec taken n : ∀ counter id,
  (∃ j, (j <= n)%nat ∧ tried counter id j ∉ taken) → ∃ id', free_id taken n counter id = Some id' ∧ id' ∉ taken.
Proof.
  induction n as [|n IH]; intros counter id (j & Hj & Hf); cbn [free_id]; destruct (existsb (streq id) taken) eqn:E.
  - assert (j = 0)%nat as -> by lia. exfalso. apply existsb_exists in E as (x & Hx & ->%streq_spec).
    by apply Hf, list_elem_of_In.
  - exists id. split; [done|]. intros Hin. apply not_true_iff_false in E. apply E, existsb_exists.
    exists id. by rewrite -list_elem_of_In streq_refl.
  - apply IH. destruct j as [|j].
    + exfalso. apply existsb_exists in E as (x & Hx & ->%streq_spec). by apply Hf, list_elem_of_In.
    + exists j. split; [lia|done].
  - exists id. split; [done|]. intros Hin. apply not_true_iff_false in E. apply E, existsb_exists.
    exists id. by rewrite -list_elem_of_In streq_refl.
Qed.

Lemma free_id_found taken id : ∃ id', free_id taken (length taken) 0 id = Some id' ∧ id' ∉ taken.
Proof.
  apply free_id_spec. apply (fresh_among (tried 0 id)). intros m n. apply tried_inj.
Qed.

Lemma free_id_keeps taken n counter id : id ∉ taken → free_id taken n counter id = Some id.
Proof.
  intros H. assert (existsb (streq id) taken = false) as E.
  { apply not_true_iff_false. intros (x & Hx & ->%streq_spec)%existsb_exists. by apply H, list_elem_of_In. }
  destruct n; cbn; by rewrite E.
Qed.

(** The loop that makes nicknames unique ends within as many turns as there are
    operations before, every operation of a resource gets a nickname of its own, and
    one whose nickname is still free keeps it. *)
Theorem nicknames_unique nicknames :
  NoDup (name_operations nicknames) ∧ length (name_operations nicknames) = length nicknames ∧
  (∀ taken id, ∃ id', free_id taken (length taken) 0 id = Some id' ∧ id' ∉ taken) ∧
  (∀ l id, l ++ [id] `prefix_of` nicknames → id ∉ name_operations l →
    name_operations nicknames !! length l = Some id).
Proof.
  assert (∀ l m, NoDup m → NoDup (fold_left name_operation l m) ∧
    length (fold_left name_operation l m) = (length m + length l)%nat ∧ m `prefix_of` fold_left name_operation l m) as H.
  { induction l as [|nick l IH]; intros m Hm; cbn [fold_left]; [by rewrite Nat.add_0_r|].
    destruct (free_id_found m nick) as (id' & E & Hf).
    assert (name_operation m nick = m ++ [id']) as -> by (unfold name_operation; by rewrite E).
    destruct (IH (m ++ [id'])) as (H1 & H2 & H3).
    { apply NoDup_app. split; [done|]. split; [|apply NoDup_singleton]. intros x Hx ->%list_elem_of_singleton. done. }
    split; [done|]. rewrite H2 length_app. split; [cbn; lia|]. by apply prefix_app_l in H3. }
  destruct (H nicknames [] ltac:(constructor)) as (H1 & H2 & _). split; [done|]. split; [done|]. split; [apply free_id_found|].
  intros l id [r ->] Hid. unfold name_operations. rewrite !fold_left_app. cbn [fold_left].
  destruct (H l [] ltac:(constructor)) as (Hn & Hl & _). cbn in Hl. fold (name_operations l) in Hn, Hl |- *.
  assert (name_operation (name_operations l) id = name_operations l ++ [id]) as E.
  { unfold name_operation. by rewrite free_id_keeps. }
  rewrite E. destruct (H r (name_operations l ++ [id])) as (_ & _ & [t ->]).
  { apply NoDup_app. split; [done|]. split; [|apply NoDup_singleton]. intros x Hx ->%list_elem_of_singleton. done. }
  rewrite -app_assoc lookup_app_r; [|lia]. by rewrite Hl Nat.sub_diag.
Qed.

Lemma nicknames_unique_witness : NoDup (name_operations [ #"get"; #"get"; #"get_0"; #"get"]).
Proof. apply (nicknames_unique [ #"get"; #"get"; #"get_0"; #"get"]). Defined.

Example nicknames_example :
  name_operations [ #"get"; #"get"; #"get_0"; #"get"] = [ #"get"; #"get_0"; #"get_0_0"; #"get_0_1"].
Proof. vm_compute. reflexivity. Qed.

(** ** Headers read back *)

(** The text [getAllResponseHeaders] gives. *)
Definition header_lines (l : list (jstr * jstr)) : jstr := concat (map (λ '(k, v), k ++ #": " ++ v ++ [13; 10]) l).

Definition header_ok (p : jstr * jstr) : Prop :=
  58 ∉ p.1 ∧ 13 ∉ p.1 ∧ trim p.1 = p.1 ∧ trim p.2 = p.2 ∧ Forall (λ x, has x [10; 13; 8232; 8233] = false) p.2.

Lemma trim_space c s : is_space c = true → trim (c :: s) = trim s.
Proof. intros H. unfold trim. cbn. by rewrite H. Qed.

Lemma header_match_line a k v :
  header_ok (k, v) → 58 ∉ a → header_match (a ++ k ++ #": " ++ v) = Some (a ++ k, 32 :: v).
Proof.
  intros (H1 & _ & _ & _ & H5) Ha. cbn [fst snd] in *. unfold header_match. change #":" with [58].
  change (#": " ++ v) with (58 :: 32 :: v). rewrite app_assoc find_unit; [|rewrite elem_of_app; by intros [|]].
  rewrite take_app_length. assert (drop (S (length (a ++ k))) ((a ++ k) ++ 58 :: 32 :: v) = 32 :: v) as ->.
  { change (58 :: 32 :: v) with ([58] ++ 32 :: v). rewrite app_assoc. apply drop_app_length'. rewrite !length_app /=. lia. }
  assert (existsb (λ x, has x [10; 13; 8232; 8233]) (32 :: v) = false) as ->; [|done].
  apply not_true_iff_false. intros (x & Hx & Hh)%existsb_exists. destruct Hx as [<-|Hx]; [done|].
  rewrite Forall_forall in H5. apply list_elem_of_In, H5 in Hx. congruence.
Qed.

Lemma wrap_lines l : ∀ a acc,
  Forall header_ok l → (a = [] ∨ a = [10]) → NoDup (acc.*1 ++ l.*1) →
  fold_left (λ headers i, match header_match i with Some (k, v) => pset (trim k) (trim v) headers | None => headers end)
    (split [13] (a ++ header_lines l)) acc = acc ++ l.
Proof.
  induction l as [|[k v] l IH]; intros a acc HF Ha Hn.
  { unfold header_lines. cbn [map concat]. rewrite !app_nil_r. by destruct Ha as [->| ->]. }
  apply Forall_cons in HF as [Hkv HF]. pose proof Hkv as (H1 & H2 & H3 & H4 & H5). cbn [fst snd] in *.
  assert (a ++ header_lines ((k, v) :: l) = (a ++ k ++ #": " ++ v) ++ 13 :: [10] ++ header_lines l) as ->.
  { unfold header_lines. cbn [map concat]. rewrite -!app_assoc. done. }
  rewrite split_cut.
  2: { rewrite !elem_of_app. intros [H|[H|[H|H]]]; [destruct Ha as [->| ->]; by apply has_spec in H|done|by apply has_spec in H|].
       rewrite Forall_forall in H5. by apply H5 in H. }
  cbn [fold_left]. rewrite header_match_line //; [|by destruct Ha as [->| ->]; apply not_in_check].
  assert (trim (a ++ k) = k) as ->.
  { destruct Ha as [->| ->]; [done|]. cbn [app]. by rewrite trim_space. }
  rewrite trim_space // H4 IH; [|done|by right|].
  - rewrite pset_fresh; [by rewrite -app_assoc|]. intros Hin. apply NoDup_app in Hn as (_ & Hd & _). apply (Hd _ Hin). by left.
  - rewrite pset_fresh; [rewrite fmap_app -app_assoc; exact Hn|]. intros Hin. apply NoDup_app in Hn as (_ & Hd & _). apply (Hd _ Hin). by left.
Qed.

(** The headers of a jQuery response are read back from the text of the browser:
    names and values as they were. *)
Theorem wrap_headers_roundtrip l :
  Forall header_ok l → NoDup l.*1 → wrap_headers (header_lines l) = l.
Proof. intros HF Hn. exact (wrap_lines l [] [] HF (or_introl eq_refl) Hn). Qed.

Lemma wrap_headers_roundtrip_witness :
  wrap_headers (header_lines [ (#"content-type", #"text/html; charset=utf-8"); (#"x-time", #"12:30")]) =
  [ (#"content-type", #"text/html; charset=utf-8"); (#"x-time", #"12:30")].
Proof.
  apply (wrap_headers_roundtrip [ (#"content-type", #"text/html; charset=utf-8"); (#"x-time", #"12:30")]).
  - constructor; [|constructor; [|constructor]];
      (split; [apply not_in_check; reflexivity|]; split; [apply not_in_check; reflexivity|]; split; [reflexivity|]; split; [reflexivity|];
       cbn [snd]; repeat constructor).
  - apply (bool_decide_unpack _). vm_compute. exact I.
Defined.

(** ** Responses are shown *)

(** A text response with headers is always shown, whatever they say; where it is shown
    as text, the text is that of the response but for blanks at its ends, for the
    layout of XML, and for JSON, where it is kept when it does not parse. *)
Theorem response_shown reformat has_blob plays headers s url :
  ∃ r, showStatus reformat has_blob plays (Some headers) (Some (Text s)) url = Ok r ∧
    match r with
    | NoContent => trim s = []
    | ShowPlain t | ShowHtml t | ShowText t => t = trim s
    | ShowXml t => ink t = ink (trim s)
    | ShowJson t => reformat (trim s) = Some t ∨ reformat (trim s) = None ∧ ∃ note, t = note ++ trim s
    | _ => True
    end.
Proof.
  unfold showStatus. destruct (trim s) as [|c t] eqn:E; [by exists NoContent|]. rewrite -E.
  cbn [payload_text]. destruct (_ || _ || _); [destruct has_blob; by eexists|].
  destruct (_ || _).
  { destruct (reformat (trim s)) eqn:Er; eexists; (split; [done|]); cbn [default]; [by left|right].
    split; [done|]. eexists. by rewrite app_assoc. }
  destruct (_ || _); [eexists; split; [done|]; apply formatXml_response_ink|].
  destruct (streq _ _); [by eexists|]. destruct (contains _ _); [by eexists|]. destruct (prefixb _ _); [by eexists|].
  destruct (_ && _); [by eexists|]. destruct (negb _); by eexists.
Qed.

(** ** Escaped texts read back *)

(** How a browser reads the references of [escape], and that of the exclamation mark. *)
Definition references_html : list (jstr * Z) :=
  [ (#"&amp;", 38); (#"&lt;", 60); (#"&gt;", 62); (#"&quot;", 34); (#"&#39;", 39); (#"&#96;", 96); (#"&#33;", 33)].

Fixpoint read_html (n : nat) (s : jstr) : jstr :=
  match n, s with
  | S n, x :: t =>
      match List.find (λ p, prefixb p.1 s) references_html with
      | Some (r, c) => c :: read_html n (drop (length r) s)
      | None => x :: read_html n t
      end
  | _, _ => []
  end.

Lemma read_escape_unit c n s : read_html (S n) (escape_unit c ++ s) = c :: read_html n s.
Proof.
  unfold escape_unit. repeat match goal with
  | |- context [if c =? ?x then _ else _] => destruct (Z.eqb_spec c x) as [->|]; [reflexivity|]
  end.
  cbn [app read_html]. assert (List.find (λ p, prefixb p.1 (c :: s)) references_html = None) as ->; [|done].
  unfold references_html. cbn [List.find fst].
  assert (∀ r, prefixb (38 :: r) (c :: s) = false) as H by (intros r; cbn [prefixb]; by replace (38 =? c) with false by lia).
  repeat match goal with |- context [prefixb #?x _] =>
    change (prefixb #x (c :: s)) with (prefixb (38 :: tail #x) (c :: s)); rewrite H end. done.
Qed.

Lemma read_escape s : ∀ n, (length s <= n)%nat → read_html n (escape_html s) = s.
Proof.
  induction s as [|c s IH]; intros n Hn; [by destruct n|]. cbn in Hn. destruct n as [|n]; [lia|].
  unfold escape_html. cbn [map concat]. rewrite read_escape_unit. f_equal. apply IH. lia.
Qed.

Lemma escape_no_markup s : 60 ∉ escape_html s ∧ 62 ∉ escape_html s ∧ 34 ∉ escape_html s.
Proof.
  assert (∀ x, x ∈ [60; 62; 34] → x ∉ escape_html s) as H.
  { intros x Hx Hin. unfold escape_html in Hin. apply list_elem_of_In, in_concat in Hin as (u & Hu & Hin).
    apply in_map_iff in Hu as (c & <- & _). apply list_elem_of_In, has_spec in Hin. revert Hin. unfold escape_unit.
    rewrite !elem_of_cons in Hx. pose proof (not_elem_of_nil x) as Hnil.
    repeat match goal with
    | |- context [if c =? ?y then _ else _] => destruct (Z.eqb_spec c y) as [->|]; [by destruct Hx as [->|[->|[->|Hx]]]|]
    end.
    intros ->%has_spec%list_elem_of_singleton. destruct Hx as [->|[->|[->|Hx]]]; done. }
  split_and!; apply H; rewrite !elem_of_cons; auto.
Qed.

(** The curl command in the page has no markup of its own, and a command without
    exclamation marks is read from it as it is. *)
Theorem curl_shown command :
  33 ∉ command → ∃ text, curl_html command = #"<pre>" ++ text ++ #"</pre>" ∧ 60 ∉ text ∧
    read_html (length command) text = command.
Proof.
  intros H. exists (escape_html command). unfold curl_html, replace_first.
  assert (find_sub #"!" command = None) as ->.
  { apply index_of_none in H. unfold index_of in H. change #"!" with [33]. by destruct (find_sub [33] command); [lia|]. }
  split; [done|]. split; [apply escape_no_markup|by apply read_escape].
Qed.

Lemma curl_shown_witness :
  ∃ text, curl_html #"curl -d 'a<b' url" = #"<pre>" ++ text ++ #"</pre>" ∧ 60 ∉ text ∧
    read_html (length #"curl -d 'a<b' url") text = #"curl -d 'a<b' url".
Proof. apply (curl_shown #"curl -d 'a<b' url"). apply not_in_check. reflexivity. Defined.

(** An exclamation mark becomes a reference before the text is escaped, so that the
    reader sees the reference. *)
Example exclamation_mark_garbled :
  curl_html #"curl -d 'hi!'" = #"<pre>curl -d &#39;hi&amp;#33;&#39;</pre>".
Proof. vm_compute. reflexivity. Qed.

(** ** Addresses *)

(** A path is joined to the origin of the page; anything else is appended to the
    page's address without its query and fragment, after a single slash. *)
Theorem buildUrl_spec protocol host rest url :
  47 ∉ protocol → 47 ∉ host →
  buildUrl (protocol ++ #"//" ++ host ++ #"/" ++ rest) (#"/" ++ url) = protocol ++ #"//" ++ host ++ #"/" ++ url ∧
  (starts_with #"/" url = false →
   let base := before 35 (before 63 (protocol ++ #"//" ++ host ++ #"/" ++ rest)) in
   buildUrl (protocol ++ #"//" ++ host ++ #"/" ++ rest) url = base ++ url ∧ ends_with #"/" base = true ∨
   buildUrl (protocol ++ #"//" ++ host ++ #"/" ++ rest) url = base ++ #"/" ++ url ∧ ends_with #"/" base = false).
Proof.
  intros Hp Hh. split.
  - unfold buildUrl. rewrite starts_with_prefixb prefixb_app. change #"//" with [47; 47]. change #"/" with [47].
    change (protocol ++ [47; 47] ++ host ++ [47] ++ rest) with (protocol ++ 47 :: [] ++ 47 :: host ++ 47 :: rest).
    rewrite split_cut // split_cut; [|apply not_elem_of_nil]. by rewrite split_cut.
  - intros Hu base. unfold buildUrl. rewrite Hu. fold base. destruct (ends_with #"/" base); auto.
Qed.

Lemma buildUrl_spec_witness :
  buildUrl (#"https:" ++ #"//" ++ #"x.io" ++ #"/" ++ #"ui?a=b") (#"/" ++ #"swagger.json") =
  #"https:" ++ #"//" ++ #"x.io" ++ #"/" ++ #"swagger.json".
Proof. apply (buildUrl_spec #"https:" #"x.io" #"ui?a=b" #"swagger.json"); apply not_in_check; reflexivity. Defined.

(** The file of the page is taken for a directory. *)
Example relative_to_a_file :
  load_url #"http://x.io/ui/index.html" #"swagger.json" = #"http://x.io/ui/index.html/swagger.json".
Proof. vm_compute. reflexivity. Qed.

(** ** [SwaggerUi.utils.sanitize] *)

Definition word_unit (c : Z) : bool := is_digit c || (65 <=? c) && (c <=? 90) || (97 <=? c) && (c <=? 122) || (c =? 95).
(** A text in either case. *)
Definition ci (s : jstr) : re := fold_right (λ c r, Seq (Cls (λ x, lower_unit x =? lower_unit c)) r) Eps s.
Definition follows_with (s : jstr) (r : jstr) : bool := streq (to_lower (take (length s) r)) (to_lower s).
(** The boundary after a letter. *)
Definition boundary : re := Peek (λ r, match r with x :: _ => negb (word_unit x) | [] => true end).

Definition script_re : re :=
  Seq (ci #"<script") (Seq boundary (Seq (Star (Not #"<"))
    (Seq (Star (Seq (Peek (λ r, negb (follows_with #"</script>" r))) (Seq (Chr 60) (Star (Not #"<"))))) (ci #"</script>")))).

Definition handler_name : re := Seq (ci #"on") (Seq (Plus (Cls word_unit)) (Chr 61)).
Definition quoted_text (q : Z) : re := Seq (Chr q) (Seq (Star (Not [q])) (Chr q)).
Definition handler_re : re :=
  Seq (Star (Grp 1 (Seq handler_name (quoted_text 34))))
    (Seq (Star (Grp 2 (Seq handler_name (quoted_text 39))))
      (Star (Grp 3 (Seq handler_name (Seq (Star (Cls word_unit)) (Seq (Chr 40) (Seq (Star (Cls word_unit)) (Chr 41)))))))).

Definition sanitize (html : jstr) : jstr :=
  replace_matches handler_re (λ _, []) (replace_matches script_re (λ _, []) html).

(** Sanitizing only deletes. *)
Theorem sanitize_deletes html : sanitize html `sublist_of` html.
Proof.
  assert (∀ r n s, replace_from r (λ _, []) n s `sublist_of` s) as H.
  { intros r. induction n as [|n IH]; intros s; [done|]. cbn [replace_from].
    assert (match s with [] => [] | x :: t => x :: replace_from r (λ _, []) n t end `sublist_of` s) as Hcopy.
    { destruct s; [done|]. by apply sublist_skip. }
    destruct (match_here r s) as [c|]; [|done]. destruct (default [] (captured c 0)); [done|].
    cbn [app]. etrans; [apply IH|]. apply sublist_drop. }
  unfold sanitize, replace_matches. etrans; [apply H|apply H].
Qed.

(** What is left of a deleted element can be one itself. *)
Example sanitize_leaves_script :
  sanitize #"<scr<script></script>ipt>alert(1)</scr<script></script>ipt>" = #"<script>alert(1)</script>".
Proof. vm_compute. reflexivity. Qed.

Example sanitize_example :
  sanitize #"a<SCRIPT src=x>b<c</script>d<i onclick='e()'>f" = #"ad<i >f".
Proof. vm_compute. reflexivity. Qed.

(** ** The field of a parameter *)

(** Handlebars' [escapeExpression] *)
Definition attribute_unit (c : Z) : jstr :=
  if c =? 39 then #"&#x27;" else if c =? 96 then #"&#x60;" else if c =? 61 then #"&#x3D;" else escape_unit c.
Definition escapeExpression (v : value) : jstr := concat (map attribute_unit (joined v)).

(** [X-data-] properties become attributes. *)
Definition data_attributes (param : list (jstr * value)) : jstr :=
  concat (map (λ '(k, v), #" " ++ drop 2 k ++ #"='" ++ to_string v ++ #"'")
            (List.filter (λ '(k, _), prefixb #"x-data-" (to_lower k)) (enum param))).

Definition param_type (param : list (jstr * value)) : res jstr :=
  let schema := field param #"schema" in
  t ← (if truthy schema then st ← get schema #"type"; Ok (or_else (field param #"type") (or_else st (VStr [])))
       else Ok (or_else (field param #"type") (VStr [])));
  as_str t.

Section field.
(** The sanitize-html library. *)
Context (sanitizeHtml : value → jstr).

Definition renderTextParam (param : list (jstr * value)) : res jstr :=
  paramType ← param_type param;
  let isArray := streq (to_lower paramType) #"array" || truthy (field param #"allowMultiple") in
  let def := match field param #"default" with
             | VArr l => if isArray then VStr (join [10] (map joined l)) else VArr l
             | v => v
             end in
  let name := escapeExpression (field param #"name") in
  let valueId := escapeExpression (field param #"valueId") in
  let idAtt := if streq valueId [] then [] else #" id='" ++ valueId ++ #"'" in
  let required := truthy (field param #"required") in
  let defaultValue := if truthy def then sanitizeHtml def else [] in
  let type := if is_str #"password" (field param #"format") then #"password" else #"text" in
  Ok (if isArray
      then #"<textarea class='body-textarea" ++ (if required then #" required" else []) ++ #"' name='" ++ name ++ #"'" ++ idAtt ++
           data_attributes param ++ #" placeholder='Provide multiple values in new lines" ++
           (if required then #" (at least one required)." else #".") ++ #"'>" ++ defaultValue ++ #"</textarea>"
      else #"<input class='parameter" ++ (if required then #" required" else []) ++ #"' minlength='" ++ (if required then #"1" else #"0") ++ #"'" ++
           #" name='" ++ name ++ #"' placeholder='" ++ (if required then #"(required)" else []) ++ #"'" ++ idAtt ++
           data_attributes param ++ #" type='" ++ type ++ #"' value='" ++ defaultValue ++ #"'/>").
End field.

(** A value of an [X-data-] property is not escaped: it can end its attribute. *)
Example data_attribute_injected :
  renderTextParam to_string [ (#"name", VStr #"id"); (#"X-data-hint", VStr #"' onfocus='alert(1)")] =
  Ok #"<input class='parameter' minlength='0' name='id' placeholder='' data-hint='' onfocus='alert(1)' type='text' value=''/>".
Proof. vm_compute. reflexivity. Qed.
