(* ===== verification/ClientSpec.v ===== *)
(** * The client's copy of a specification

    What [buildFromSpec] copies from the specification before it registers the
    operations, with the vendor extensions of security definitions and tags collected;
    the setters that change the address of all operations; [help]. The last theorem
    follows the scopes of an OAuth2 definition from the specification through the
    client to the console's dialog. *)

From S2P Require Import Prelude JsValue SchemaMarkup OperationUrl Cookie Auth UiAuth.

(** ** Vendor extensions *)

(** The extensions of a scopes object are moved out of it. *)
Definition move_extension (o : attrs) (s : jstr) : attrs :=
  let o := extractExtensions s o VUndef in
  if starts_with #"x-" s then pdel s o else o.

Definition annotate_scopes (o : attrs) : attrs :=
  let o := pset #"vendorExtensions" (VObj []) o in fold_left move_extension (enum_keys o) o.

(** One property of a security definition. A list of scopes is left as it is here: its
    extra property is not an element. *)
Definition annotate_property (d : attrs) (ext : jstr) : res attrs :=
  let d := extractExtensions ext d VUndef in
  if streq ext #"scopes" then
    match field d #"scopes" with
    | VObj o => Ok (pset #"scopes" (VObj (annotate_scopes o)) d)
    | VNull => Throw TypeError
    | _ => Ok d
    end
  else Ok d.

Definition annotate_definition (d : attrs) : res attrs :=
  let d := pset #"vendorExtensions" (VObj []) d in fold_res annotate_property (enum_keys d) d.

Definition annotate_definitions (defs : list (jstr * attrs)) : res (list (jstr * attrs)) :=
  map_res (λ '(k, d), d' ← annotate_definition d; Ok (k, d')) defs.

(** [extractExtensions] on every property *)
Definition extract_each (o : attrs) : attrs := fold_left (λ o i, extractExtensions i o VUndef) (enum_keys o) o.

(** A tag, with the extensions of its documentation link and its own. *)
Definition annotate_tag (t : attrs) : attrs :=
  fold_left (λ t i, extractExtensions i
      (if streq i #"externalDocs" then
         match field t i with VObj e => pset i (VObj (extract_each e)) t | _ => t end
       else t) VUndef) (enum_keys t) t.

(** ** The fields *)

Record client_fields := {
  c_basePath : value; c_consumes : value; c_host : value; c_info : value; c_produces : value; c_schemes : value;
  c_security : value; c_title : value; c_externalDocs : value }.

Definition copy_fields (response : attrs) (externalDocs : value) : client_fields :=
  let f k := field response k in
  {| c_basePath := or_else (f #"basePath") (VStr []); c_consumes := f #"consumes"; c_host := or_else (f #"host") (VStr []);
     c_info := or_else (f #"info") (VObj []); c_produces := f #"produces"; c_schemes := or_else (f #"schemes") (VArr []);
     c_security := f #"security"; c_title := or_else (f #"title") (VStr []);
     c_externalDocs := or_else (f #"externalDocs") externalDocs |}.

(** ** Setters *)

(** The groups of the client with their operations. *)
Abbreviation groups := (list (jstr * list (jstr * endpoint))).

Definition on_operations (f : endpoint → endpoint) (apis : groups) : groups :=
  map (λ '(tag, ops), (tag, map (λ '(k, o), (k, f o)) ops)) apis.

Definition setHost (h : jstr) : groups → groups :=
  on_operations (λ o, {| scheme := scheme o; host := h; basePath := basePath o; op_path := op_path o; parameters := parameters o |}).
Definition setBasePath (b : jstr) : groups → groups :=
  on_operations (λ o, {| scheme := scheme o; host := host o; basePath := b; op_path := op_path o; parameters := parameters o |}).
Definition setSchemes (schemes : list jstr) (apis : groups) : groups :=
  match schemes with
  | [] => apis
  | s :: _ =>
      on_operations (λ o, {| scheme := s; host := host o; basePath := basePath o; op_path := op_path o; parameters := parameters o |}) apis
  end.

(** ** [help] *)

(** The operations of a group by name and summary. *)
Definition help_group (label : jstr) (ops : list (jstr * value)) : jstr :=
  #"operations for the '" ++ label ++ #"' tag" ++ [10] ++
  concat (map (λ '(name, summary), #"  * " ++ name ++ #": " ++ to_string summary ++ [10]) ops).
Definition help_client (apis : list (jstr * list (jstr * value))) : jstr :=
  concat (map (λ '(name, ops), help_group name ops) apis).

(** ** Addresses after the setters *)

Lemma on_operations_in f apis tag ops k o :
  (tag, ops) ∈ on_operations f apis → (k, o) ∈ ops → ∃ ops' o', (tag, ops') ∈ apis ∧ (k, o') ∈ ops' ∧ o = f o'.
Proof.
  intros H Ho. apply list_elem_of_fmap in H as ([tag' ops'] & [= -> ->] & H).
  apply list_elem_of_fmap in Ho as ([k' o'] & [= -> ->] & Ho). eauto.
Qed.

(** After the three setters every operation is called at the new scheme, host and base
    path, and the rest of its URLs is as before. *)
Theorem setters_redirect {R : RegExp_gi} h b s rest apis tag ops k o a mask u :
  (tag, ops) ∈ setSchemes (s :: rest) (setBasePath b (setHost h apis)) → (k, o) ∈ ops →
  urlify o a mask = Ok u →
  ∃ ops' o' tail, (tag, ops') ∈ apis ∧ (k, o') ∈ ops' ∧
    u = s ++ #"://" ++ h ++ (if streq b #"/" then [] else b) ++ tail ∧
    urlify o' a mask = Ok (url_base o' ++ tail).
Proof.
  intros H Ho Hu. apply on_operations_in with (k := k) (o := o) in H as (ops1 & o1 & H & Ho1 & ->); [|done].
  apply on_operations_in with (k := k) (o := o1) in H as (ops2 & o2 & H & Ho2 & ->); [|done].
  apply on_operations_in with (k := k) (o := o2) in H as (ops3 & o3 & H & Ho3 & ->); [|done].
  unfold urlify in Hu. cbn [parameters op_path] in Hu. apply bind_Ok in Hu as (st & Est & Hu). injection Hu as <-.
  exists ops3, o3, (requestUrl st ++ querystring st). split; [done|]. split; [done|]. split.
  - unfold url_base. cbn [scheme host basePath]. by rewrite -!app_assoc.
  - unfold urlify. by rewrite Est.
Qed.

(** ** Scopes from the specification to the dialog *)

Definition is_extension (k : jstr) : bool := starts_with #"x-" k.

Lemma move_extension_get o s k :
  k ≠ #"vendorExtensions" →
  pget (move_extension o s) k = if is_extension s && streq s k then None else pget o k.
Proof.
  intros Hk. unfold move_extension, extractExtensions, is_extension. destruct (starts_with #"x-" s); [|done].
  cbn [andb]. set (o' := pset _ _ _).
  assert (pget o' k = pget o k) as Ho' by (unfold o'; rewrite pget_pset_ne //; congruence).
  destruct (streq s k) eqn:E; [apply streq_spec in E as ->; apply pget_pdel_eq|].
  rewrite pget_pdel_ne //. by apply streq_neq.
Qed.

Lemma move_extension_nodup o s : NoDup o.*1 → NoDup (move_extension o s).*1.
Proof.
  intros H. unfold move_extension, extractExtensions. case_if; [|done]. by apply pdel_nodup, pset_nodup.
Qed.

(** The object of extensions stays one. *)
Lemma move_extension_own o s :
  is_plain_object (field o #"vendorExtensions") = true → is_plain_object (field (move_extension o s) #"vendorExtensions") = true.
Proof.
  intros H. unfold move_extension, extractExtensions. case_if; [|done]. unfold field. rewrite pget_pdel_ne; [by rewrite pget_pset_eq|].
  intros ->. done.
Qed.

Lemma annotate_scopes_spec o : NoDup o.*1 →
  NoDup (annotate_scopes o).*1 ∧ is_plain_object (field (annotate_scopes o) #"vendorExtensions") = true ∧
  ∀ k v, k ≠ #"vendorExtensions" → (k, v) ∈ annotate_scopes o ↔ (k, v) ∈ o ∧ is_extension k = false.
Proof.
  intros Hn. unfold annotate_scopes. set (o1 := pset #"vendorExtensions" (VObj []) o).
  assert (NoDup o1.*1) as Hn1 by (by apply pset_nodup).
  assert (∀ l p, NoDup p.*1 → is_plain_object (field p #"vendorExtensions") = true →
    let q := fold_left move_extension l p in
    NoDup q.*1 ∧ is_plain_object (field q #"vendorExtensions") = true ∧
    ∀ k, k ≠ #"vendorExtensions" → pget q k = if is_extension k && existsb (streq k) l then None else pget p k) as H.
  { induction l as [|s l IH]; intros p Hp Hv; cbn [fold_left existsb].
    - split; [done|]. split; [done|]. intros k _. by rewrite andb_false_r.
    - destruct (IH (move_extension p s)) as (H1 & H2 & H3); [by apply move_extension_nodup|by apply move_extension_own|].
      split; [done|]. split; [done|]. intros k Hk. rewrite H3 // move_extension_get //.
      destruct (streq s k) eqn:E.
      + apply streq_spec in E as ->. rewrite streq_refl. cbn [orb]. rewrite andb_true_r. destruct (is_extension k); [|done]. by destruct (existsb _ _).
      + rewrite andb_false_r. assert (streq k s = false) as -> by (apply streq_neq; apply streq_neq in E; congruence). done. }
  destruct (H (enum_keys o1) o1 Hn1) as (H1 & H2 & H3); [by unfold field, o1; rewrite pget_pset_eq|].
  split; [done|]. split; [done|]. intros k v Hk.
  assert (∀ p : attrs, NoDup p.*1 → (k, v) ∈ p ↔ pget p k = Some v) as Hin.
  { intros p Hp. split; [by apply pget_in|apply pget_some_in]. }
  rewrite (Hin _ H1) (Hin _ Hn) H3 //. unfold o1 at 2. rewrite pget_pset_ne; [|congruence].
  destruct (is_extension k) eqn:Ex; cbn [andb]; [|naive_solver].
  destruct (existsb (streq k) (enum_keys o1)) eqn:Em; [naive_solver|]. split; [|by intros [_ ?]]. intros Hp. exfalso.
  apply not_true_iff_false in Em. apply Em, existsb_exists. exists k. split; [|apply streq_refl]. apply list_elem_of_In.
  unfold enum_keys. rewrite enum_perm. apply pset_in. right. apply pget_some_in in Hp. by apply (list_elem_of_fmap_2 fst) in Hp.
Qed.

(** The scopes of a definition are annotated once, the rest keeps its scopes. *)
Lemma annotate_definition_scopes d o : NoDup d.*1 → field d #"scopes" = VObj o →
  ∃ d', annotate_definition d = Ok d' ∧ field d' #"scopes" = VObj (annotate_scopes o).
Proof.
  intros Hn Ho. unfold annotate_definition. set (d1 := pset #"vendorExtensions" (VObj []) d).
  assert (NoDup d1.*1) as Hn1 by (by apply pset_nodup).
  assert (field d1 #"scopes" = VObj o) as Ho1 by (unfold d1; rewrite field_pset; exact Ho).
  assert (NoDup (enum_keys d1)) as Hne by (unfold enum_keys; by rewrite enum_perm).
  assert (#"scopes" ∈ enum_keys d1) as Hin.
  { unfold enum_keys. rewrite enum_perm. unfold field in Ho1. destruct (pget d1 #"scopes") as [x|] eqn:E; [|done].
    apply pget_some_in in E. by apply (list_elem_of_fmap_2 fst) in E. }
  assert (∀ ext p, field (extractExtensions ext p VUndef) #"scopes" = field p #"scopes") as Hext.
  { intros ext p. unfold extractExtensions. case_if; [|done]. by rewrite field_pset. }
  assert (∀ l p x, #"scopes" ∉ l → field p #"scopes" = x → ∃ p', fold_res annotate_property l p = Ok p' ∧ field p' #"scopes" = x) as Hskip.
  { induction l as [|ext l IH]; intros p x Hl Hp; cbn [fold_res]; [eauto|]. apply not_elem_of_cons in Hl as [He Hl].
    assert (annotate_property p ext = Ok (extractExtensions ext p VUndef)) as ->.
    { unfold annotate_property. assert (streq ext #"scopes" = false) as -> by (apply streq_neq; congruence). done. }
    cbn [mbind res_bind]. apply IH; [done|]. by rewrite Hext. }
  apply list_elem_of_split in Hin as (l1 & l2 & El). rewrite El in Hne |- *.
  apply NoDup_app in Hne as (_ & Hd & [Hl2 _]%NoDup_cons). rewrite fold_res_app.
  destruct (Hskip l1 d1 (VObj o)) as (p & -> & Hp); [intros H; apply (Hd _ H); by left|done|]. cbn [mbind res_bind fold_res].
  assert (annotate_property p #"scopes" = Ok (pset #"scopes" (VObj (annotate_scopes o)) (extractExtensions #"scopes" p VUndef))) as ->.
  { unfold annotate_property. rewrite streq_refl Hext Hp. done. }
  cbn [mbind res_bind].
  destruct (Hskip l2 (pset #"scopes" (VObj (annotate_scopes o)) (extractExtensions #"scopes" p VUndef)) (VObj (annotate_scopes o)))
    as (p' & E & Hp'); [done|by rewrite field_pset|]. exists p'. split; [exact E|done].
Qed.

Lemma described_scopes_spec (l : attrs) :
  described_scopes (assigned (VArr (map scope_entry l))) = Ok (map scope_entry (List.filter (λ p, is_string p.2) l)).
Proof.
  assert (∀ (l : attrs) n acc,
    fold_res (λ acc '(_, scope), d ← get scope #"description"; Ok (if is_string d then acc ++ [scope] else acc))
      (imap (λ i v, (str_of_Z (Z.of_nat (n + i)), v)) (map scope_entry l)) acc =
    Ok (acc ++ map scope_entry (List.filter (λ p, is_string p.2) l))) as H.
  { clear l. induction l as [|[k v] l IH]; intros n acc; [by rewrite app_nil_r|]. cbn [map imap fold_res].
    change (get (scope_entry (k, v)) #"description") with (Ok v). cbn [mbind res_bind List.filter snd].
    assert (∀ L : list value, imap ((λ i v, (str_of_Z (Z.of_nat (n + i)), v)) ∘ S) L =
      imap (λ i v, (str_of_Z (Z.of_nat (S n + i)), v)) L) as ->.
    { intros L. apply imap_ext. intros i x _. cbn. by rewrite Nat.add_succ_r. }
    rewrite (IH (S n)). destruct (is_string v); [|done]. cbn [map]. by rewrite -app_assoc. }
  exact (H l 0%nat []).
Qed.

(** The dialog of an OAuth2 scheme lists exactly the scopes its definition declares with
    a text: the client keeps extensions out of them, and the place where it keeps the
    extensions does not show up as a scope. *)
Theorem dialog_scopes d o :
  NoDup d.*1 → NoDup o.*1 → field d #"scopes" = VObj o →
  ∃ d' l, annotate_definition d = Ok d' ∧
    described_scopes (assigned (VArr (parseOauth2Scopes (field d' #"scopes")))) = Ok l ∧
    ∀ v, v ∈ l ↔ ∃ k s, v = scope_entry (k, VStr s) ∧ (k, VStr s) ∈ o ∧ is_extension k = false ∧ k ≠ #"vendorExtensions".
Proof.
  intros Hd Ho Hs. destruct (annotate_definition_scopes d o Hd Hs) as (d' & E & Hs').
  destruct (annotate_scopes_spec o Ho) as (Hn & Hv & Hin). exists d'. rewrite Hs'. unfold parseOauth2Scopes.
  rewrite described_scopes_spec. eexists. split; [done|]. split; [done|]. intros v. rewrite list_elem_of_fmap. split.
  - intros ([k x] & -> & H). apply list_elem_of_In, filter_In in H as [H Hx]. destruct x; try done.
    apply list_elem_of_In in H. cbn [assigned entries] in H. rewrite enum_perm in H.
    assert (k ≠ #"vendorExtensions") as Hk.
    { intros ->. unfold field in Hv. rewrite (pget_in _ _ _ Hn H) in Hv. done. }
    apply Hin in H as [H He]; [|done]. eauto 8.
  - intros (k & s & -> & H & He & Hk). exists (k, VStr s). split; [done|]. apply list_elem_of_In, filter_In. split; [|done].
    apply list_elem_of_In. cbn [assigned entries]. rewrite enum_perm. by apply Hin.
Qed.

Lemma dialog_scopes_witness :
  ∃ d' l, annotate_definition [ (#"type", VStr #"oauth2"); (#"scopes", VObj [(#"read", VStr #"read pets"); (#"x-note", VStr #"n")])] = Ok d' ∧
    described_scopes (assigned (VArr (parseOauth2Scopes (field d' #"scopes")))) = Ok l ∧
    ∀ v, v ∈ l ↔ ∃ k s, v = scope_entry (k, VStr s) ∧ (k, VStr s) ∈ [ (#"read", VStr #"read pets"); (#"x-note", VStr #"n")] ∧
      is_extension k = false ∧ k ≠ #"vendorExtensions".
Proof.
  apply (dialog_scopes [ (#"type", VStr #"oauth2"); (#"scopes", VObj [(#"read", VStr #"read pets"); (#"x-note", VStr #"n")])]).
  - apply (bool_decide_unpack _). vm_compute. exact I.
  - apply (bool_decide_unpack _). vm_compute. exact I.
  - reflexivity.
Defined.

Lemma setters_redirect_witness : let R : RegExp_gi := no_syntax in
  ∃ ops' o' tail, (#"pet", ops') ∈ [ (#"pet", [ (#"list", {| scheme := #"http"; host := #"a"; basePath := #"/"; op_path := #"/pets"; parameters := [] |})])] ∧
    (#"list", o') ∈ ops' ∧ #"https://b/v2/pets" = #"https" ++ #"://" ++ #"b" ++ (if streq #"/v2" #"/" then [] else #"/v2") ++ tail ∧
    urlify o' [] false = Ok (url_base o' ++ tail).
Proof.
  intros R. apply (setters_redirect #"b" #"/v2" #"https" []
    [ (#"pet", [ (#"list", {| scheme := #"http"; host := #"a"; basePath := #"/"; op_path := #"/pets"; parameters := [] |})])]
    #"pet" [ (#"list", {| scheme := #"https"; host := #"b"; basePath := #"/v2"; op_path := #"/pets"; parameters := [] |})]
    #"list" {| scheme := #"https"; host := #"b"; basePath := #"/v2"; op_path := #"/pets"; parameters := [] |}).
  - left.
  - left.
  - vm_compute. reflexivity.
Defined.
