(* ===== verification/JsHeap.v ===== *)
(** * Objects that are shared and changed

    Where code changes objects that are reachable in several ways, a document is a
    graph. A heap holds the objects and arrays; values are scalars or locations.
    Operations on objects are a state monad over the heap with exceptions. *)

From S2P Require Import Prelude JsValue.

(** ** Values, objects, heaps *)

Definition loc := nat.

(** [HV] holds scalars only. *)
Inductive hval := HV (v : value) | HL (l : loc).

(** An array may have properties beside its elements. *)
Inductive hobj :=
  | HObj (o : list (jstr * hval))
  | HArr (l : list hval) (o : list (jstr * hval)).

Definition heap := list hobj.

Definition hm (A : Type) := heap → res (A * heap).
#[export] Instance hm_ret : MRet hm := fun A a h => Ok (a, h).
#[export] Instance hm_bind : MBind hm := fun A B f m h =>
  match m h with Ok (a, h') => f a h' | Throw e => Throw e end.

Definition hthrow {A} (e : exn) : hm A := λ _, Throw e.
Definition lift {A} (r : res A) : hm A := λ h, a ← r; Ok (a, h).
(** A read of the heap. *)
Definition reads {A} (f : heap → res A) : hm A := λ h, a ← f h; Ok (a, h).

Fixpoint hfold {A B} (f : A → B → hm A) (l : list B) (a : A) : hm A :=
  match l with
  | [] => mret a
  | b :: l => a' ← f a b; hfold f l a'
  end.

Fixpoint hmap {A B} (f : A → hm B) (l : list A) : hm (list B) :=
  match l with
  | [] => mret []
  | x :: l => y ← f x; ys ← hmap f l; mret (y :: ys)
  end.

(** ** Reading *)

Definition undefined : hval := HV VUndef.
Definition h_truthy (x : hval) : bool := match x with HV v => truthy v | HL _ => true end.
(** [_.isObject]; there are no functions among the values. *)
Definition h_object (x : hval) : bool := match x with HL _ => true | HV _ => false end.
Definition h_undef (x : hval) : bool := match x with HV VUndef => true | _ => false end.
Definition h_is (s : jstr) (x : hval) : bool := match x with HV v => is_str s v | HL _ => false end.
Definition h_array (x : hval) (h : heap) : bool :=
  match x with
  | HL l => match h !! l with Some (HArr _ _) => true | _ => false end
  | HV _ => false
  end.

Definition obj_get (b : hobj) (k : jstr) : hval :=
  match b with
  | HObj o => default undefined (pget o k)
  | HArr l o =>
      if streq k #"length" then HV (VNum (Z.of_nat (length l)))
      else match canonical_index k with
           | Some n => default undefined (l !! Z.to_nat n)
           | None => default undefined (pget o k)
           end
  end.

(** [x[k]] *)
Definition look (x : hval) (k : jstr) (h : heap) : res hval :=
  match x with
  | HV v => w ← get v k; Ok (HV w)
  | HL l => Ok (match h !! l with Some b => obj_get b k | None => undefined end)
  end.
Definition hget (x : hval) (k : jstr) : hm hval := reads (look x k).

Definition indices {A} (l : list A) : list jstr := imap (λ i _, str_of_Z (Z.of_nat i)) l.

(** The keys of [for (k in x)], taken when the loop starts: properties that a body
    adds are not visited. *)
Definition keys_in (x : hval) (h : heap) : list jstr :=
  match x with
  | HL l => match h !! l with
            | Some (HObj o) => enum_keys o
            | Some (HArr l o) => indices l ++ enum_keys o
            | None => []
            end
  | HV (VStr s) => indices s
  | HV _ => []
  end.
Definition hkeys (x : hval) : hm (list jstr) := reads (λ h, Ok (keys_in x h)).

(** The elements of an array; a method of arrays called on another value throws. *)
Definition elements (x : hval) : hm (list hval) :=
  reads (λ h, match x with
              | HL l => match h !! l with Some (HArr l _) => Ok l | _ => Throw TypeError end
              | HV _ => Throw TypeError
              end).

(** The receiver of a method of strings. *)
Definition h_str (x : hval) : hm jstr :=
  match x with HV (VStr s) => mret s | _ => hthrow TypeError end.

(** ** Writing *)

Definition halloc (b : hobj) : hm hval := λ h, Ok (HL (length h), h ++ [b]).

(** Assignment to an element beyond the end fills up with [undefined]. *)
Definition obj_set (k : jstr) (y : hval) (b : hobj) : hobj :=
  match b with
  | HObj o => HObj (pset k y o)
  | HArr l o =>
      match canonical_index k with
      | Some n =>
          if (Z.to_nat n <? length l)%nat then HArr (<[Z.to_nat n := y]> l) o
          else HArr (l ++ replicate (Z.to_nat n - length l) undefined ++ [y]) o
      | None => HArr l (pset k y o)
      end
  end.

Definition obj_del (k : jstr) (b : hobj) : hobj :=
  match b with
  | HObj o => HObj (pdel k o)
  | HArr l o =>
      match canonical_index k with
      | Some n => HArr (<[Z.to_nat n := undefined]> l) o
      | None => HArr l (pdel k o)
      end
  end.

(** [x[k] = y], in strict mode. *)
Definition hset (x : hval) (k : jstr) (y : hval) : hm unit :=
  match x with
  | HL l => λ h, Ok (tt, alter (obj_set k y) l h)
  | HV _ => hthrow TypeError
  end.

(** [delete x[k]] *)
Definition hdel (x : hval) (k : jstr) : hm unit :=
  match x with
  | HL l => λ h, Ok (tt, alter (obj_del k) l h)
  | HV (VUndef | VNull) => hthrow TypeError
  | HV _ => mret tt
  end.

(** The elements of an array replaced, as methods that change arrays do. *)
Definition set_elements (x : hval) (l : list hval) : hm unit :=
  match x with
  | HL a => λ h, Ok (tt, alter (λ b, match b with HArr _ o => HArr l o | HObj _ => b end) a h)
  | HV _ => hthrow TypeError
  end.

(** ** [_.cloneDeep]

    The clone of an object is entered in the table of clones before its children
    are cloned, so that shared and circular structure is kept. An object is entered
    once: the depth is at most the number of objects. Properties an array has beside
    its elements are not cloned. *)
Fixpoint clone (n : nat) (x : hval) (clones : list (loc * hval)) : hm (hval * list (loc * hval)) :=
  match n, x with
  | _, HV _ => mret (x, clones)
  | O, _ => lift stack_overflow
  | S n, HL l =>
      match List.find (λ p, (p.1 =? l)%nat) clones with
      | Some p => mret (p.2, clones)
      | None =>
          b ← reads (λ h, Ok (h !! l));
          match b with
          | None => mret (undefined, clones)
          | Some (HObj o) =>
              y ← halloc (HObj []);
              cs ← hfold (λ cs p, '(z, cs) ← clone n p.2 cs; _ ← hset y p.1 z; mret cs) (enum o) ((l, y) :: clones);
              mret (y, cs)
          | Some (HArr es _) =>
              y ← halloc (HArr (replicate (length es) undefined) []);
              cs ← hfold (λ cs p, '(z, cs) ← clone n p.2 cs; _ ← hset y p.1 z; mret cs)
                     (zip (indices es) es) ((l, y) :: clones);
              mret (y, cs)
          end
      end
  end.
Definition cloneDeep (x : hval) : hm hval := λ h, (p ← clone (S (length h)) x []; mret p.1) h.

(** ** Documents as trees *)

(** A document as [JSON.parse] makes it: every object is new. *)
Fixpoint build (v : value) : hm hval :=
  match v with
  | VArr l =>
      xs ← (fix go l : hm (list hval) := match l with
              | [] => mret []
              | v :: l => x ← build v; xs ← go l; mret (x :: xs)
              end) l;
      halloc (HArr xs [])
  | VObj o =>
      xs ← (fix go o : hm (list (jstr * hval)) := match o with
              | [] => mret []
              | (k, v) :: o => x ← build v; xs ← go o; mret ((k, x) :: xs)
              end) o;
      halloc (HObj xs)
  | _ => mret (HV v)
  end.

(** The tree below a value, when it is at most [n] deep and its arrays have nothing
    but elements. *)
Fixpoint tree (n : nat) (h : heap) (x : hval) : option value :=
  match x, n with
  | HV v, _ => if is_object v then None else Some v
  | HL _, O => None
  | HL l, S n =>
      match h !! l with
      | Some (HObj o) => VObj <$> mapM (λ p, pair p.1 <$> tree n h p.2) o
      | Some (HArr l []) => VArr <$> mapM (tree n h) l
      | _ => None
      end
  end.

(** [String(x)] *)
Definition h_text (x : hval) : hm jstr :=
  reads (λ h, match tree (S (length h)) h x with Some v => Ok (to_string v) | None => stack_overflow end).

(** ** Runs *)

Lemma hbind_Ok {A B} (m : hm A) (f : A → hm B) h b h' :
  (m ≫= f) h = Ok (b, h') → ∃ a h1, m h = Ok (a, h1) ∧ f a h1 = Ok (b, h').
Proof. unfold mbind, hm_bind. destruct (m h) as [[a h1]|e]; [eauto|done]. Qed.

Lemma reads_Ok {A} (f : heap → res A) h a h' : reads f h = Ok (a, h') → f h = Ok a ∧ h' = h.
Proof. unfold reads. intros H. inv_res. done. Qed.

Lemma hbind_run {A B} (m : hm A) (f : A → hm B) h a h1 :
  m h = Ok (a, h1) → (m ≫= f) h = f a h1.
Proof. unfold mbind, hm_bind. by intros ->. Qed.

Lemma hbind_ext {A B} (m : hm A) (f g : A → hm B) h :
  (∀ a h1, m h = Ok (a, h1) → f a h1 = g a h1) → (m ≫= f) h = (m ≫= g) h.
Proof. unfold mbind, hm_bind. destruct (m h) as [[a h1]|e]; [|done]. by intros ->. Qed.

Ltac inv_hm :=
  repeat match goal with
  | H : mbind _ _ _ = Ok (_, _) |- _ => apply hbind_Ok in H as (? & ? & ? & H)
  | H : reads _ _ = Ok (_, _) |- _ => apply reads_Ok in H as [? ->]
  | H : hget _ _ _ = Ok (_, _) |- _ => apply reads_Ok in H as [? ->]
  | H : hkeys _ _ = Ok (_, _) |- _ => apply reads_Ok in H as [? ->]
  | H : elements _ _ = Ok (_, _) |- _ => unfold elements in H; apply reads_Ok in H as [? ->]
  | H : mret _ _ = Ok (_, _) |- _ => injection H as H; try subst
  | H : hthrow _ _ = Ok _ |- _ => discriminate H
  end.

(** ** A property of every change

    [mono R m]: whenever [m] succeeds, the heaps before and after are in [R]. A
    preorder that holds of the elementary changes of a program holds of the
    program. *)
Section mono.
Context (R : relation heap) `{!PreOrder R}.

Definition mono {A} (m : hm A) : Prop := ∀ h a h', m h = Ok (a, h') → R h h'.

Lemma mono_ret {A} (a : A) : mono (mret a).
Proof. intros h b h' [= <- <-]. reflexivity. Qed.

Lemma mono_throw {A} e : mono (hthrow e : hm A).
Proof. done. Qed.

Lemma mono_reads {A} (f : heap → res A) : mono (reads f).
Proof. intros h a h' [_ ->]%reads_Ok. reflexivity. Qed.

Lemma mono_get x k : mono (hget x k).
Proof. apply mono_reads. Qed.

Lemma mono_keys x : mono (hkeys x).
Proof. apply mono_reads. Qed.

Lemma mono_elements x : mono (elements x).
Proof. apply mono_reads. Qed.

Lemma mono_lift {A} (r : res A) : mono (lift r).
Proof. intros h a h' H. unfold lift in H. inv_res. reflexivity. Qed.

Lemma mono_str x : mono (h_str x).
Proof. destruct x as [[]|]; try apply mono_throw. apply mono_ret. Qed.

Lemma mono_bind {A B} (m : hm A) (f : A → hm B) : mono m → (∀ a, mono (f a)) → mono (m ≫= f).
Proof. intros Hm Hf h b h' (a & h1 & H1 & H2)%hbind_Ok. etrans; [by eapply Hm|by eapply Hf]. Qed.

Lemma mono_fold {A B} (f : A → B → hm A) l : ∀ a, (∀ a b, mono (f a b)) → mono (hfold f l a).
Proof. induction l as [|b l IH]; intros a Hf; cbn [hfold]; [apply mono_ret|]. apply mono_bind; [done|]. intros a'. by apply IH. Qed.

Lemma mono_map {A B} (f : A → hm B) l : (∀ a, mono (f a)) → mono (hmap f l).
Proof.
  intros Hf. induction l as [|a l IH]; cbn [hmap]; [apply mono_ret|]. apply mono_bind; [done|]. intros y.
  apply mono_bind; [done|]. intros ys. apply mono_ret.
Qed.

Context (mono_alloc : ∀ b, mono (halloc b)).

Lemma mono_build v : mono (build v).
Proof.
  induction v as [| |b|n|d|s|l IH|o IH] using value_ind; try apply mono_ret.
  - cbn [build]. apply mono_bind; [|intros; apply mono_alloc].
    induction IH as [|v l Hv _ IHl]; [apply mono_ret|]. apply mono_bind; [done|]. intros x.
    apply mono_bind; [done|]. intros xs. apply mono_ret.
  - cbn [build]. apply mono_bind; [|intros; apply mono_alloc].
    induction IH as [|[k v] o Hv _ IHo]; [apply mono_ret|]. apply mono_bind; [apply Hv|]. intros x.
    apply mono_bind; [done|]. intros xs. apply mono_ret.
Qed.

Context (mono_set : ∀ x k y, mono (hset x k y)).

Lemma mono_clone n : ∀ x cs, mono (clone n x cs).
Proof.
  induction n as [|n IH]; intros [v|l] cs; cbn [clone]; [apply mono_ret|apply mono_lift|apply mono_ret|].
  destruct (List.find _ _) as [p|]; [apply mono_ret|].
  apply mono_bind; [apply mono_reads|]. intros [[o|es o]|]; [| |apply mono_ret];
    (apply mono_bind; [apply mono_alloc|]; intros y; apply mono_bind; [|intros; apply mono_ret];
     apply mono_fold; intros cs' p; apply mono_bind; [apply IH|]; intros [z cs'']; apply mono_bind; [apply mono_set|];
     intros; apply mono_ret).
Qed.

Lemma mono_cloneDeep x : mono (cloneDeep x).
Proof.
  intros h a h' H. unfold cloneDeep in H. revert H. generalize (S (length h)). intros n H.
  eapply (mono_bind (clone n x [])); [apply mono_clone| |exact H]. intros p. apply mono_ret.
Qed.
End mono.
Arguments mono R {A} m.

Create HintDb mono.
#[export] Hint Resolve mono_ret mono_throw mono_reads mono_get mono_keys mono_elements mono_lift mono_str : mono.

(** Decompose a program whose elementary changes are in the hint database. *)
Ltac mono_step :=
  first
  [ progress intros
  | solve [eauto with mono typeclass_instances]
  | apply mono_bind; [typeclasses eauto| |]
  | apply mono_fold; [typeclasses eauto|]
  | apply mono_map; [typeclasses eauto|]
  | case_match ].
Ltac mono := repeat mono_step.

(** ** Trees in a heap *)

Fixpoint height (v : value) : nat :=
  match v with
  | VArr l => S (max_list (map height l))
  | VObj o => S (max_list (map (λ p, height p.2) o))
  | _ => 0
  end.

Lemma tree_scalar n h v : is_object v = false → tree n h (HV v) = Some v.
Proof. intros Hv. destruct n; cbn [tree]; by rewrite Hv. Qed.

Lemma mapM_Some_mono {A B} (f g : A → option B) l k :
  (∀ x y, x ∈ l → f x = Some y → g x = Some y) → mapM f l = Some k → mapM g l = Some k.
Proof.
  intros Hfg H. apply mapM_Some in H. apply mapM_Some. revert Hfg. induction H as [|x y l k Hxy _ IH]; intros Hfg; [done|].
  constructor; [apply Hfg; [by left|done]|]. apply IH. intros x' y' Hx'. apply Hfg. by right.
Qed.

(** Trees are found again in a heap that has the same objects and more, and deeper. *)
Lemma tree_weaken n : ∀ m h h' x v,
  (n <= m)%nat → (∀ l b, h !! l = Some b → h' !! l = Some b) → tree n h x = Some v → tree m h' x = Some v.
Proof.
  induction n as [|n IH]; intros m h h' [w|l] v Hm Hh H; [by destruct m|done|by destruct m|].
  destruct m as [|m]; [lia|]. cbn [tree] in *. destruct (h !! l) as [b|] eqn:E; [|done]. rewrite (Hh _ _ E).
  destruct b as [o|es [|]]; [| |done].
  - apply fmap_Some in H as (vs & H & ->). apply fmap_Some. exists vs. split; [|done].
    eapply mapM_Some_mono; [|exact H]. intros p y _ Hp. apply fmap_Some in Hp as (w & Hw & ->).
    apply fmap_Some. exists w. split; [|done]. eapply IH; [|done|done]. lia.
  - apply fmap_Some in H as (vs & H & ->). apply fmap_Some. exists vs. split; [|done].
    eapply mapM_Some_mono; [|exact H]. intros p y _ Hp. eapply IH; [|done|done]. lia.
Qed.

Lemma tree_unique n m h x v w : tree n h x = Some v → tree m h x = Some w → v = w.
Proof.
  intros Hv Hw. apply (tree_weaken n (n + m) h h) in Hv; [|lia|done]. apply (tree_weaken m (n + m) h h) in Hw; [|lia|done].
  congruence.
Qed.

(** The children of a tree. *)
Lemma tree_obj n h l v : tree n h (HL l) = Some v → ∃ m, n = S m ∧
  ((∃ o vs, h !! l = Some (HObj o) ∧ v = VObj vs ∧ mapM (λ p, pair p.1 <$> tree m h p.2) o = Some vs) ∨
   (∃ es vs, h !! l = Some (HArr es []) ∧ v = VArr vs ∧ mapM (tree m h) es = Some vs)).
Proof.
  destruct n as [|m]; [done|]. cbn [tree]. intros H. exists m. split; [done|].
  destruct (h !! l) as [[o|es [|]]|] eqn:E; try done; apply fmap_Some in H as (vs & H & ->); [left|right]; eauto.
Qed.

Lemma max_list_pick {A} (f : A → nat) l : l ≠ [] → ∃ x, x ∈ l ∧ max_list (map f l) = f x.
Proof.
  intros Hl. assert (map f l ≠ []) as Hm by (by destruct l).
  apply max_list_elem_of, list_elem_of_fmap in Hm as (x & E & Hx). eauto.
Qed.

(** A tree that is not a scalar has a child that is one less high. *)
Lemma tree_child n h l v : tree n h (HL l) = Some v → ∃ m x w,
  n = S m ∧ tree m h x = Some w ∧ height v = S (height w) ∧ (l < length h)%nat ∨ n = S m ∧ height v = 1%nat ∧ (l < length h)%nat.
Proof.
  intros (m & -> & [(o & vs & E & -> & H)|(es & vs & E & -> & H)])%tree_obj; exists m; apply lookup_lt_Some in E as Hl;
    cbn [height]; (destruct (decide (vs = [])) as [->|Hvs]; [by exists undefined, VUndef; right|]).
  - destruct (max_list_pick (λ p, height p.2) vs Hvs) as ([k w] & Hin & ->). apply list_elem_of_lookup in Hin as [i Hi].
    apply mapM_Some in H. destruct (Forall2_lookup_r _ _ _ _ _ H Hi) as (p & _ & (w' & Hw & [= ? <-])%fmap_Some).
    exists p.2, w. by left.
  - destruct (max_list_pick height vs Hvs) as (w & Hin & ->). apply list_elem_of_lookup in Hin as [i Hi].
    apply mapM_Some in H. destruct (Forall2_lookup_r _ _ _ _ _ H Hi) as (x & _ & Hx). exists x, w. by left.
Qed.

(** The objects on a way down from a tree's root are different ones. *)
Lemma tree_chain n : ∀ h x v, tree n h x = Some v → ∃ ls, NoDup ls ∧ length ls = height v ∧
  Forall (λ l, (l < length h)%nat ∧ ∃ m w, tree m h (HL l) = Some w ∧ (height w <= height v)%nat) ls.
Proof.
  induction n as [|n IH]; intros h [u|l] v H.
  - cbn [tree] in H. destruct (is_object u) eqn:E; [done|]. injection H as ->. exists []. split_and!; [constructor|by destruct v|done].
  - done.
  - cbn [tree] in H. destruct (is_object u) eqn:E; [done|]. injection H as ->. exists []. split_and!; [constructor|by destruct v|done].
  - destruct (tree_child _ _ _ _ H) as (m & x & w & [([= <-] & Hw & Hh & Hl)|([= <-] & Hh & Hl)]).
    + destruct (IH h x w Hw) as (ls & Hnd & Hlen & Hf). exists (l :: ls). split_and!.
      * constructor; [|done]. intros Hin. rewrite Forall_forall in Hf. destruct (Hf l Hin) as (_ & m' & w' & Hw' & Hle).
        pose proof (tree_unique _ _ _ _ _ _ H Hw'). subst w'. lia.
      * cbn. lia.
      * constructor; [eauto|]. eapply Forall_impl; [exact Hf|]. intros a (Ha & m' & w' & Hw' & Hle).
        split; [done|]. exists m', w'. split; [done|]. lia.
    + exists [l]. split_and!; [apply NoDup_singleton|done|]. constructor; [|done]. split; [done|]. exists (S n), v. split; [done|lia].
Qed.

Lemma tree_height n : ∀ h x v, tree n h x = Some v → tree (height v) h x = Some v.
Proof.
  induction n as [|n IH]; intros h [u|l] v H; [|done| |].
  - cbn [tree] in H. destruct (is_object u) eqn:E; [done|]. injection H as ->. by apply tree_scalar.
  - cbn [tree] in H. destruct (is_object u) eqn:E; [done|]. injection H as ->. by apply tree_scalar.
  - apply tree_obj in H as (m & [= <-] & [(o & vs & E & -> & H)|(es & vs & E & -> & H)]); cbn [height tree]; rewrite E;
      apply fmap_Some; exists vs; (split; [|done]); apply mapM_Some in H; apply mapM_Some.
    + apply Forall2_same_length_lookup. split; [by eapply Forall2_length|]. intros i p q Hp Hq.
      pose proof (Forall2_lookup_lr _ _ _ _ _ _ H Hp Hq) as (w & Hw & ->)%fmap_Some. apply fmap_Some. exists w. split; [|done].
      eapply tree_weaken; [|done|by eapply IH].
      apply list_elem_of_lookup_2 in Hq. apply (list_elem_of_fmap_2 (λ p, height p.2)) in Hq. by apply max_list_elem_of_le in Hq.
    + apply Forall2_same_length_lookup. split; [by eapply Forall2_length|]. intros i p q Hp Hq.
      pose proof (Forall2_lookup_lr _ _ _ _ _ _ H Hp Hq) as Hw. eapply tree_weaken; [|done|by eapply IH].
      apply list_elem_of_lookup_2 in Hq. apply (list_elem_of_fmap_2 height) in Hq. by apply max_list_elem_of_le in Hq.
Qed.

Lemma tree_depth n : ∀ h x v, tree n h x = Some v → (height v <= n)%nat.
Proof.
  induction n as [|n IH]; intros h [u|l] v H.
  1,3: cbn [tree] in H; destruct (is_object u) eqn:E; [done|]; injection H as ->; destruct v; cbn in *; done || lia.
  - done.
  - destruct (tree_child _ _ _ _ H) as (m & x & w & [([= <-] & Hw & -> & _)|(_ & -> & _)]); [|lia]. apply IH in Hw. lia.
Qed.

(** A tree is at most as deep as there are objects. *)
Lemma tree_bound n h x v : tree n h x = Some v → tree (length h) h x = Some v.
Proof.
  intros H. destruct (tree_chain _ _ _ _ H) as (ls & Hnd & Hlen & Hf). apply tree_height in H.
  eapply tree_weaken; [|done|exact H]. rewrite -Hlen -(length_seq (length h) 0).
  apply submseteq_length, NoDup_submseteq; [done|]. intros l Hl. rewrite Forall_forall in Hf.
  apply elem_of_seq. pose proof (proj1 (Hf l Hl)). lia.
Qed.

Lemma mapM_pget {A B} (f : A → option B) (o : list (jstr * A)) vs k :
  mapM (λ p, pair p.1 <$> f p.2) o = Some vs →
  match pget o k, pget vs k with
  | Some x, Some w => f x = Some w
  | None, None => True
  | _, _ => False
  end.
Proof.
  intros H. apply mapM_Some in H. induction H as [|[k1 x] [k2 w] o vs Hxw _ IH]; [done|].
  apply fmap_Some in Hxw as (w' & Hw & [= -> ->]). cbn. by destruct (streq k k1).
Qed.

(** Reading a property of a tree. *)
Lemma tree_look n h x v k w : tree n h x = Some v → get v k = Ok w →
  ∃ y, look x k h = Ok y ∧ tree (pred n) h y = Some w.
Proof.
  intros H Hg. destruct x as [u|l].
  - assert (u = v ∧ is_object v = false) as [-> Hv].
    { destruct n; cbn [tree] in H; by destruct (is_object u) eqn:E; [|injection H as <-]. }
    exists (HV w). cbn [look]. rewrite Hg. split; [done|]. apply tree_scalar.
    destruct v; try done; cbn in Hg; repeat case_match; by simplify_eq.
  - apply tree_obj in H as (m & -> & [(o & vs & E & -> & H)|(es & vs & E & -> & H)]); cbn [look pred]; rewrite E;
      (eexists; split; [done|]); cbn [obj_get get] in *.
    + injection Hg as <-. pose proof (mapM_pget _ _ _ k H). destruct (pget o k), (pget vs k); try done. by apply tree_scalar.
    + apply mapM_Some in H. destruct (streq k #"length").
      { injection Hg as <-. rewrite (Forall2_length _ _ _ H). by apply tree_scalar. }
      destruct (canonical_index k) as [i|]; injection Hg as <-; [|by apply tree_scalar].
      destruct (es !! Z.to_nat i) as [x|] eqn:Ex.
      * destruct (Forall2_lookup_l _ _ _ _ _ H Ex) as (w & -> & Hw). done.
      * assert (vs !! Z.to_nat i = None) as ->; [|by apply tree_scalar].
        apply lookup_ge_None. apply lookup_ge_None in Ex. by rewrite -(Forall2_length _ _ _ H).
Qed.

(** The classification of a value is that of its tree. *)
Lemma tree_class n h x v : tree n h x = Some v →
  h_truthy x = truthy v ∧ h_object x = is_object v ∧ h_undef x = is_undef v ∧ (∀ s, h_is s x = is_str s v) ∧
  h_array x h = is_array v.
Proof.
  destruct x as [u|l]; intros H.
  - assert (u = v ∧ is_object v = false) as [-> Hv].
    { destruct n; cbn [tree] in H; by destruct (is_object u) eqn:E; [|injection H as <-]. }
    by destruct v.
  - apply tree_obj in H as (m & -> & [(o & vs & E & -> & H)|(es & vs & E & -> & H)]); cbn; by rewrite E.
Qed.

Definition vkeys (v : value) : list jstr :=
  match v with VObj o => o.*1 | VArr l => indices l | VStr s => indices s | _ => [] end.

Lemma indices_length {A B} (l : list A) (k : list B) : length l = length k → indices l = indices k.
Proof.
  unfold indices. intros H. apply list_eq. intros i. rewrite !list_lookup_imap.
  destruct (l !! i) eqn:E1, (k !! i) eqn:E2; try done; [apply lookup_ge_None in E2; apply lookup_lt_Some in E1; lia|
    apply lookup_ge_None in E1; apply lookup_lt_Some in E2; lia].
Qed.

Lemma mapM_keys {A B} (f : A → option B) (o : list (jstr * A)) vs :
  mapM (λ p, pair p.1 <$> f p.2) o = Some vs → o.*1 = vs.*1.
Proof.
  intros H. apply mapM_Some in H. induction H as [|[k1 x] [k2 w] o vs Hxw _ IH]; [done|].
  apply fmap_Some in Hxw as (w' & Hw & [= -> ->]). cbn. by rewrite IH.
Qed.

Lemma tree_keys n h x v k : tree n h x = Some v → k ∈ keys_in x h → k ∈ vkeys v.
Proof.
  destruct x as [u|l]; intros H Hk.
  - assert (u = v ∧ is_object v = false) as [-> Hv].
    { destruct n; cbn [tree] in H; by destruct (is_object u) eqn:E; [|injection H as <-]. }
    by destruct v.
  - apply tree_obj in H as (m & -> & [(o & vs & E & -> & H)|(es & vs & E & -> & H)]); cbn [keys_in vkeys] in *;
      rewrite E in Hk.
    + rewrite -(mapM_keys _ _ _ H). unfold enum_keys in Hk. by rewrite enum_perm in Hk.
    + apply mapM_Some, Forall2_length in H. rewrite -(indices_length es vs H). cbn in Hk. by rewrite app_nil_r in Hk.
Qed.

(** ** Changes that leave every tree as it is *)

Definition same (h h' : heap) : Prop := ∀ n x v, tree n h x = Some v → tree n h' x = Some v.

#[export] Instance same_preorder : PreOrder same.
Proof. split; [by intros h n x v|]. intros h1 h2 h3 H12 H23 n x v H. by apply H23, H12. Qed.

Lemma same_alloc h b : same h (h ++ [b]).
Proof. intros n x v. apply tree_weaken; [done|]. intros l c Hc. apply lookup_app_l_Some, Hc. Qed.

(** A property is replaced by a value with the same tree. *)
Lemma same_set h l o k y y' :
  h !! l = Some (HObj o) → pget o k = Some y → (∀ n v, tree n h y = Some v → tree n h y' = Some v) →
  same h (alter (obj_set k y') l h).
Proof.
  intros Hl Hk Hy n. induction n as [|n IH]; intros [u|m] v H; [done|done|done|].
  apply tree_obj in H as (n' & [= <-] & [(o1 & vs & E & -> & H)|(es & vs & E & -> & H)]); cbn [tree].
  - destruct (decide (l = m)) as [<-|Hm].
    + rewrite list_lookup_alter_eq E. cbn [fmap option_fmap option_map obj_set]. rewrite Hl in E. injection E as <-.
      apply fmap_Some. exists vs. split; [|done]. clear Hl.
      apply mapM_Some in H. apply mapM_Some. revert Hk. induction H as [|[k1 x] [k2 w] o vs Hxw H IHo]; intros Hk; [done|].
      cbn in Hk |- *. apply fmap_Some in Hxw as (w' & Hw & [= -> ->]). destruct (streq k k1).
      * injection Hk as ->. constructor; [cbn; by rewrite (IH _ _ (Hy _ _ Hw))|]. eapply Forall2_impl; [exact H|].
        intros p q (w2 & Hw2 & ->)%fmap_Some. by rewrite (IH _ _ Hw2).
      * constructor; [cbn; by rewrite (IH _ _ Hw)|]. by apply IHo.
    + rewrite list_lookup_alter_ne // E. apply fmap_Some. exists vs. split; [|done]. eapply mapM_Some_mono; [|exact H].
      intros p q _ (w & Hw & ->)%fmap_Some. by rewrite (IH _ _ Hw).
  - destruct (decide (l = m)) as [<-|Hm]; [rewrite Hl in E; discriminate E|]. rewrite list_lookup_alter_ne // E. apply fmap_Some. exists vs.
    split; [|done]. eapply mapM_Some_mono; [|exact H]. intros p q _ Hw. by apply IH.
Qed.

(** [calm h m Q]: from [h], [m] succeeds, leaves every tree as it is, and has a result
    in [Q]. *)
Definition calm {A} (h : heap) (m : hm A) (Q : A → Prop) : Prop :=
  ∃ a h', m h = Ok (a, h') ∧ same h h' ∧ Q a.

Lemma calm_ret {A} h (a : A) (Q : A → Prop) : Q a → calm h (mret a) Q.
Proof. intros H. exists a, h. split_and!; [done|reflexivity|done]. Qed.

Lemma calm_bind {A B} h (m : hm A) (f : A → hm B) P Q :
  calm h m P → (∀ a h1, same h h1 → P a → calm h1 (f a) Q) → calm h (m ≫= f) Q.
Proof.
  intros (a & h1 & H1 & S1 & Pa) Hf. destruct (Hf a h1 S1 Pa) as (b & h2 & H2 & S2 & Qb).
  exists b, h2. split_and!; [by rewrite (hbind_run _ _ _ _ _ H1)|by etrans|done].
Qed.

Lemma calm_reads {A B} h (g : heap → res A) (f : A → hm B) a Q :
  g h = Ok a → calm h (f a) Q → calm h (reads g ≫= f) Q.
Proof.
  intros Hg (b & h2 & H2 & S2 & Qb). exists b, h2. split_and!; [|done|done].
  rewrite (hbind_run _ _ _ a h); [done|]. unfold reads. by rewrite Hg.
Qed.

Lemma calm_get {B} h n x v k w (f : hval → hm B) Q :
  tree n h x = Some v → get v k = Ok w →
  (∀ y, tree (pred n) h y = Some w → calm h (f y) Q) → calm h (hget x k ≫= f) Q.
Proof.
  intros Hx Hg Hf. destruct (tree_look _ _ _ _ _ _ Hx Hg) as (y & Hy & Ty). eapply calm_reads; [exact Hy|]. by apply Hf.
Qed.

Lemma calm_fold {A B} (I : A → Prop) (f : A → B → hm A) l : ∀ h a,
  (∀ h1 a b, same h h1 → I a → b ∈ l → calm h1 (f a b) I) → I a → calm h (hfold f l a) I.
Proof.
  induction l as [|b l IH]; intros h a Hf Ha; cbn [hfold]; [by apply calm_ret|].
  eapply calm_bind; [apply Hf; [reflexivity|done|by left]|]. intros a' h1 S1 Ha'. apply IH; [|done].
  intros h2 a2 b2 S2 Ha2 Hb2. apply Hf; [by etrans|done|by right].
Qed.
