(* ===== verification/ResolverWalk.v ===== *)
(** * The resolver on a mutable document

    [Resolver.prototype.resolve] and [finish] work through aliases: the entries of
    the resolution table hold objects of the document, which [finish] changes, and
    objects of fetched documents become part of it. Here the document is in a
    [JsHeap], so that this sharing is that of the code: the walk that fills the
    table, the choice of the entries, their lookup, the writing back, the counting
    of references, the composition with [allOf], and the rounds of all this.

    The lookups of a round may be answered in any order; that [finish] comes once,
    after the last of them, is shown in [ResolverLoop]. A document has a URL, and
    the authorizations of the client do not change the URLs of requests. An exception
    in a response handler ends the resolution without a callback. *)

From S2P Require Import Prelude JsValue Resolver ResolverLoop JsHeap.

(** An entry of the resolution table with the object that holds the reference. Of a
    location that is an object only that it is not text matters. *)
Record hentry := { e_obj : hval; e_as : resolve_as; e_root : jstr; e_key : jstr; e_location : value }.

Definition to_entry (property : hval) (e : entry) : hentry :=
  {| e_obj := property; e_as := resolveAs e; e_root := eroot e; e_key := ekey e; e_location := elocation e |}.

Definition text (s : jstr) : hval := HV (VStr s).
Definition local_ref (name : jstr) : hval := text (#"#/definitions/" ++ name).
Definition or_empty (x : hval) : hm (list hval) := if h_truthy x then elements x else mret [].

Section walk.
(** [sort_order] is what [Array.prototype.sort] makes of the comparator of
    [processAllOf], which is not an order: the positions of the sorted elements, for
    the elements that have a reference. [spec] is the document, [root] its URL. *)
Context (sort_order : list bool → list nat) (root : jstr) (spec : hval).

Definition definitions : hm hval := hget spec #"definitions".

(** The loops that look for a free name: [base], [base_0], [base_1], ... They try
    one name more than there are definitions. *)
Fixpoint free_loop (free : hval → bool) (n : nat) (base name : jstr) (count : nat) : hm jstr :=
  match n with
  | O => lift stack_overflow
  | S n =>
      defs ← definitions;
      d ← hget defs name;
      if free d then mret name
      else free_loop free n base (base ++ #"_" ++ str_of_Z (Z.of_nat count)) (S count)
  end.
Definition free_name (free : hval → bool) (base : jstr) : hm jstr :=
  defs ← definitions;
  ks ← hkeys defs;
  free_loop free (S (length ks)) base base 0.
Definition unique_name : jstr → hm jstr := free_name (λ d, negb (h_object d)).

(** ** Properties *)

(** An inline object becomes a definition, and the property a reference to it. *)
Definition inline_model (property : hval) : hm unit :=
  name ← unique_name #"inline_model";
  title ← hget property #"title";
  name ← (if h_truthy title then t ← h_text title; unique_name t else mret name);
  _ ← hdel property #"title";
  c ← cloneDeep property;
  defs ← definitions;
  _ ← hset defs name c;
  _ ← hset property #"$ref" (local_ref name);
  _ ← hdel property #"type";
  hdel property #"properties".

(** [resolveTo]; a chain of [items] longer than there are objects is circular. *)
Fixpoint resolve_to (n : nat) (property : hval) (table : list hentry) (location : value) : hm (list hentry) :=
  match n with
  | O => lift stack_overflow
  | S n =>
      ref ← hget property #"$ref";
      match ref with
      | HV (VUndef | VNull) =>
          type ← hget property #"type";
          if h_is #"array" type then
            items ← hget property #"items";
            resolve_to n items table location
          else
            ps ← hget property #"properties";
            ap ← (if h_truthy ps then mret ps else hget property #"additionalProperties");
            if h_truthy ap then _ ← inline_model property; mret table else mret table
      | _ =>
          r ← h_str ref;
          mret (table ++ [to_entry property (resolveTo_ref root r location)])
      end
  end.
Definition resolveTo (property : hval) (table : list hentry) (location : value) : hm (list hentry) :=
  λ h, resolve_to (S (length h)) property table location h.

Definition resolveInline (property : hval) (table : list hentry) (location : value) : hm (list hentry) :=
  ref ← hget property #"$ref";
  if h_truthy ref then
    r ← h_str ref;
    e ← lift (resolveInline_ref root r location);
    mret (table ++ [to_entry property e])
  else
    type ← hget property #"type";
    if h_is #"array" type then items ← hget property #"items"; resolveTo items table location
    else mret table.

(** [allOf.sort(...)]: the comparator is called when there are two elements. *)
Definition sort_refs (l : list hval) : hm (list hval) :=
  match l with
  | [] | [_] => mret l
  | _ =>
      flags ← hmap (λ x, r ← hget x #"$ref"; mret (h_truthy r)) l;
      mret (omap (λ i, l !! i) (sort_order flags))
  end.

Definition sort_array (x : hval) : hm (list hval) :=
  l ← elements x;
  l ← sort_refs l;
  _ ← set_elements x l;
  mret l.

Definition processAllOf (name : jstr) (definition : hval) (table : list hentry) : hm (list hentry) :=
  from ← halloc (HArr [local_ref name] []);
  _ ← hset definition x_resolved_from from;
  allOf ← hget definition #"allOf";
  l ← sort_array allOf;
  hfold (λ table property, resolveInline property table (VStr (#"/definitions/" ++ name ++ #"/allOf"))) l table.

(** A composition inside a parameter or a response moves to a definition. *)
Definition move_allOf (schema allOf : hval) (with_type : bool) (table : list hentry) : hm (jstr * list hentry) :=
  name ← free_name h_undef #"inline_model";
  d ← halloc (HObj [(#"allOf", allOf)]);
  defs ← definitions;
  _ ← hset defs name d;
  _ ← hdel schema #"allOf";
  _ ← (if with_type then hdel schema #"type" else mret tt);
  _ ← hset schema #"$ref" (local_ref name);
  table ← processAllOf name d table;
  mret (name, table).

(** ** Definitions *)

Definition walk_property (name : jstr) (definition : hval) (table : list hentry) (propertyName : jstr)
    : hm (list hentry) :=
  ps ← hget definition #"properties";
  property ← hget ps propertyName;
  allOf ← hget property #"allOf";
  composed ← reads (λ h, Ok (h_array allOf h));
  if composed : bool then processAllOf name property table
  else resolveTo property table (VStr #"/definitions").

Definition walk_definition (table : list hentry) (name : jstr) : hm (list hentry) :=
  defs ← definitions;
  definition ← hget defs name;
  ref ← hget definition #"$ref";
  if h_truthy ref then resolveInline definition table (VObj [])
  else
    ps ← hget definition #"properties";
    ks ← hkeys ps;
    table ← hfold (walk_property name definition) ks table;
    allOf ← hget definition #"allOf";
    if h_truthy allOf then processAllOf name definition table else mret table.

(** [spec[k] = spec[k] || {}] *)
Definition ensure (k : jstr) : hm unit :=
  x ← hget spec k;
  x ← (if h_truthy x then mret x else halloc (HObj []));
  hset spec k x.

(** ** Parameters *)

(** A parameter, shared or of an operation; the result has the name of the new
    definition, if there is one. *)
Definition walk_parameter (parameter : hval) (name : jstr) (table : list hentry) (location : value)
    : hm (jstr * list hentry) :=
  pin ← hget parameter #"in";
  schema ← (if h_is #"body" pin then hget parameter #"schema" else mret undefined);
  '(name, table) ←
    (if h_truthy schema then
       allOf ← hget schema #"allOf";
       composed ← reads (λ h, Ok (h_array allOf h));
       if composed : bool then move_allOf schema allOf false table
       else table ← resolveTo schema table location; mret (name, table)
     else mret (name, table));
  ref ← hget parameter #"$ref";
  if h_truthy ref then
    loc ← lift (match ref with HV v => Ok v | HL _ => Ok (VObj []) end);
    table ← resolveInline parameter table loc;
    mret (name, table)
  else mret (name, table).

Definition walk_shared_parameter (table : list hentry) (name : jstr) : hm (list hentry) :=
  ps ← hget spec #"parameters";
  parameter ← hget ps name;
  '(_, table) ← walk_parameter parameter name table VUndef;
  mret table.

(** ** Paths *)

(** The state of the loop over a path: the table, and the variable [name], which the
    code reuses for the names of new definitions. *)
Definition walk_operation_parameter (method : jstr) (parameters : hval) (acc : jstr * list hentry) (i : jstr)
    : hm (jstr * list hentry) :=
  let '(name, table) := acc in
  parameter ← hget parameters i;
  walk_parameter parameter name table (VStr (#"/paths" ++ name ++ #"/" ++ method ++ #"/parameters")).

Definition walk_response (method : jstr) (responses : hval) (acc : jstr * list hentry) (code : jstr)
    : hm (jstr * list hentry) :=
  let '(name, table) := acc in
  response ← hget responses code;
  let location := VStr (#"/paths" ++ name ++ #"/" ++ method ++ #"/responses/" ++ code) in
  if negb (h_object response) then mret (name, table)
  else
    ref ← hget response #"$ref";
    table ← (if h_truthy ref then resolveInline response table location else mret table);
    schema ← hget response #"schema";
    if negb (h_truthy schema) then mret (name, table)
    else
      allOf ← hget schema #"allOf";
      composed ← reads (λ h, Ok (h_array allOf h));
      if composed : bool then move_allOf schema allOf true table
      else
        type ← hget schema #"type";
        if h_is #"array" type then
          items ← hget schema #"items";
          r ← (if h_truthy items then hget items #"$ref" else mret items);
          if h_truthy r then table ← resolveInline items table location; mret (name, table)
          else mret (name, table)
        else table ← resolveTo schema table location; mret (name, table).

Definition walk_method (path : hval) (acc : jstr * list hentry) (method : jstr) : hm (jstr * list hentry) :=
  let '(name, table) := acc in
  if streq method #"$ref" then
    table ← resolveInline path table (VStr (#"/paths" ++ name));
    mret (name, table)
  else
    operation ← hget path method;
    shared ← hget path #"parameters";
    ps ← hget operation #"parameters";
    parameters ← (if h_truthy ps then mret ps else halloc (HArr [] []));
    shared ← or_empty shared;
    _ ← hfold (λ _ p, l ← elements parameters; set_elements parameters (p :: l)) shared tt;
    _ ← (if negb (streq method #"parameters") && h_object operation
         then ps ← hget operation #"parameters";
              hset operation #"parameters" (if h_truthy ps then ps else parameters)
         else mret tt);
    ks ← hkeys parameters;
    acc ← hfold (walk_operation_parameter method parameters) ks (name, table);
    responses ← hget operation #"responses";
    ks ← hkeys responses;
    hfold (walk_response method responses) ks acc.

Definition walk_path (table : list hentry) (name : jstr) : hm (list hentry) :=
  paths ← hget spec #"paths";
  path ← hget paths name;
  match path with
  | HL _ | HV VNull =>
      ks ← hkeys path;
      '(_, table) ← hfold (walk_method path) ks (name, table);
      empty ← halloc (HArr [] []);
      _ ← hset path #"parameters" empty;
      mret table
  | _ => mret table
  end.

(** The first half of [resolve]: the resolution table. *)
Definition walk : hm (list hentry) :=
  _ ← ensure #"definitions";
  defs ← definitions;
  ks ← hkeys defs;
  table ← hfold walk_definition ks [];
  _ ← ensure #"parameters";
  ps ← hget spec #"parameters";
  ks ← hkeys ps;
  table ← hfold walk_shared_parameter ks table;
  paths ← hget spec #"paths";
  ks ← hkeys paths;
  hfold walk_path ks table.
End walk.

(** ** Choosing the entries to look up *)

Fixpoint follow_fragment_h (h : heap) (s : hval) (location : list jstr) (r : option bool) : res (option bool) :=
  match location with
  | [] => Ok r
  | [] :: rest => follow_fragment_h h s rest r
  | part :: rest =>
      s ← look s part h;
      if h_undef s then Ok (Some true) else follow_fragment_h h s rest (Some false)
  end.

Definition to_item (e : hentry) : item :=
  {| i_as := e_as e; i_root := e_root e; i_key := e_key e;
     i_location := match e_location e with VStr s => s | _ => [] end |}.

(** One turn changes the root, and the location when it runs its nested loop. *)
Definition update (e : hentry) (a : item) (nested : option nat) : hentry :=
  {| e_obj := e_obj e; e_as := e_as e; e_root := i_root a; e_key := e_key e;
     e_location := match nested with Some _ => VStr [] | None => e_location e end |}.

Fixpoint select_h (n : nat) (find : list jstr → res (option bool)) (root : jstr) (i : nat) (all : list hentry)
    (todo : list nat) (r_null : bool) : res (option (list hentry * list nat)) :=
  match all !! i with
  | None => Ok (Some (all, todo))
  | Some e =>
      match n with
      | O => Ok None
      | S n =>
          '(a, keep, r_null, j) ← select_entry find root (to_item e) r_null;
          select_h n find root (S (default i j)) (<[i := update e a j]> all)
            (if keep : bool then todo ++ [i] else todo) r_null
      end
  end.

(** ** Looking entries up *)

Fixpoint locate_h (h : heap) (location : hval) (parts : list jstr) (many : bool) : hval :=
  match parts with
  | [] => location
  | s :: rest =>
      let segment := unescape_segment s in
      match location with
      | HV (VUndef | VNull) => location
      | _ =>
          if streq segment [] && match rest with [] => true | _ => false end && many then HV VNull
          else match segment with
               | [] => locate_h h location rest many
               | _ => match look location segment h with
                      | Ok v => locate_h h v rest many
                      | Throw _ => undefined
                      end
               end
      end
  end.

Definition resolve_location_h (h : heap) (doc : hval) (path : jstr) : hval :=
  match path with
  | [] => doc
  | _ => let parts := split #"/" path in locate_h h doc parts (1 <? length parts)%nat
  end.

Record hresolved := { hr_name : jstr; hr_obj : hval; hr_key : jstr; hr_root : jstr }.

Record lookups := {
  lk_resolved : list (jstr * hresolved);
  lk_unresolved : list (jstr * (jstr * value));
  lk_failed : list jstr;
  lk_cache : list (jstr * hval);
}.

Definition note_unresolved (e : hentry) (s : lookups) : lookups :=
  {| lk_resolved := lk_resolved s; lk_unresolved := pset (e_key e) (e_root e, e_location e) (lk_unresolved s);
     lk_failed := lk_failed s; lk_cache := lk_cache s |}.

Definition resolve_item (doc : hval) (e : hentry) (s : lookups) : hm lookups :=
  path ← h_str (match e_location e with VStr p => text p | _ => undefined end);
  v ← reads (λ h, Ok (resolve_location_h h doc path));
  match v with
  | HV (VUndef | VNull) => mret (note_unresolved e s)
  | _ =>
      mret {| lk_resolved := pset (e_key e) {| hr_name := resolved_name (e_key e); hr_obj := v;
                                               hr_key := e_key e; hr_root := e_root e |} (lk_resolved s);
              lk_unresolved := lk_unresolved s; lk_failed := lk_failed s; lk_cache := lk_cache s |}
  end.

Section resolve.
(** [fetch] is the document at a URL, [None] for an error; [order] the order in which
    the requests of a round are answered. *)
Context (sort_order : list bool → list nat) (root : jstr) (spec : hval).
Context (fetch : jstr → option value) (order : nat → list hentry → list hentry).

Definition is_local (e : hentry) : bool := streq (e_root e) [] || streq (e_root e) root.

(** The synchronous part: local entries and known failures. The flag is the
    argument [localResolve] of [finish] if the entry is the last one. *)
Definition look_up_now (acc : lookups * bool * list hentry) (e : hentry) : hm (lookups * bool * list hentry) :=
  let '(s, local, pending) := acc in
  if is_local e then s ← resolve_item spec e s; mret (s, true, pending)
  else if existsb (streq (e_root e)) (lk_failed s) then mret (note_unresolved e s, false, pending)
  else mret (s, local, pending ++ [e]).

(** An answer. A document that was fetched before comes from the cache: entries with
    one root share its objects. *)
Definition look_up_later (s : lookups) (e : hentry) : hm lookups :=
  match pget (lk_cache s) (e_root e) with
  | Some (HL l) => resolve_item (HL l) e s
  | _ =>
      match fetch (e_root e) with
      | Some doc =>
          d ← build doc;
          resolve_item d e {| lk_resolved := lk_resolved s; lk_unresolved := lk_unresolved s;
                              lk_failed := lk_failed s; lk_cache := pset (e_root e) d (lk_cache s) |}
      | None =>
          mret (note_unresolved e {| lk_resolved := lk_resolved s; lk_unresolved := lk_unresolved s;
                                     lk_failed := lk_failed s ++ [e_root e]; lk_cache := lk_cache s |})
      end
  end.

Definition look_up (iteration : nat) (todo : list hentry) (failed : list jstr) (cache : list (jstr * hval))
    : hm (lookups * bool) :=
  '(s, local, pending) ← hfold look_up_now todo
    ({| lk_resolved := []; lk_unresolved := []; lk_failed := failed; lk_cache := cache |}, false, []);
  s ← hfold look_up_later (order iteration pending) s;
  mret (s, local && match pending with [] => true | _ => false end).

(** ** Writing back *)

(** [retainRoot] on an object. *)
Fixpoint retain_root (n : nat) (r : jstr) (obj : hval) : hm unit :=
  match n with
  | O => lift stack_overflow
  | S n =>
      ks ← hkeys obj;
      hfold (λ _ key,
        item ← hget obj key;
        match streq key #"$ref", item with
        | true, HV (VStr s) => hset obj key (text (joinUrl r s))
        | _, HL _ => retain_root n r item
        | _, _ => mret tt
        end) ks tt
  end.
Definition retainRoot_h (origKey : jstr) (obj : hval) (r : jstr) : hm hval :=
  match obj with
  | HL _ => λ h, (_ ← retain_root (S (length h)) r obj; mret obj) h
  | HV (VStr s) => mret (if streq origKey #"$ref" then text (joinUrl r s) else obj)
  | _ => mret obj
  end.

(** One entry of the table in [finish]. *)
Definition write_back (resolved : list (jstr * hresolved)) (localResolve : bool) (e : hentry) : hm unit :=
  match pget resolved (e_key e) with
  | None => mret tt
  | Some to =>
      _ ← ensure spec #"definitions";
      match e_as e with
      | AsRef =>
          _ ← (if localResolve then mret tt
               else ks ← hkeys (hr_obj to);
                    hfold (λ _ key, x ← hget (hr_obj to) key; abs ← retainRoot_h key x (e_root e);
                                    hset (hr_obj to) key abs) ks tt);
          defs ← definitions spec;
          _ ← hset defs (hr_name to) (hr_obj to);
          hset (e_obj e) #"$ref" (local_ref (hr_name to))
      | AsInline =>
          from ← halloc (HArr [text (e_key e)] []);
          _ ← hset (e_obj e) x_resolved_from from;
          _ ← hdel (e_obj e) #"$ref";
          ks ← hkeys (hr_obj to);
          hfold (λ _ key,
            x ← hget (hr_obj to) key;
            abs ← (if localResolve then mret x else retainRoot_h key x (e_root e));
            hset (e_obj e) key abs) ks tt
      end
  end.

(** ** Unresolved references *)

Fixpoint refs_in (n : nat) (h : heap) (x : hval) : res (list (jstr * unit)) :=
  match n with
  | O => stack_overflow
  | S n =>
      fold_res (λ output key,
        item ← look x key h;
        match streq key #"$ref", item with
        | true, HV (VStr r) => Ok (pset r tt output)
        | _, HL _ => o ← refs_in n h item; Ok (fold_left (λ out r, pset r tt out) (enum_keys o) output)
        | _, _ => Ok output
        end) (keys_in x h) []
  end.

Fixpoint follow_h (h : heap) (x : hval) (parts : list jstr) : res bool :=
  match parts with
  | [] => Ok true
  | [] :: rest => follow_h h x rest
  | key :: rest =>
      y ← look x key h;
      if h_undef y then Ok false else follow_h h y rest
  end.

Definition count_unresolved (x : hval) (h : heap) : res nat :=
  refs ← refs_in (S (length h)) h x;
  let refs := enum_keys refs in
  found ← map_res (λ r, follow_h h x (split #"/" (drop 1 r))) (List.filter (prefixb #"#") refs);
  Ok (length (List.filter (λ r, negb (prefixb #"#" r)) refs) + length (List.filter negb found))%nat.

(** ** Composition *)

Definition has_own (x : hval) (k : jstr) : hm bool := reads (λ h, Ok (existsb (streq k) (keys_in x h))).

(** [===] *)
Definition h_strict_eq (x y : hval) : bool :=
  match x, y with
  | HV v, HV w => strict_eq v w
  | HL l, HL m => (l =? m)%nat
  | _, _ => false
  end.
Fixpoint h_dedup (n : nat) (l : list hval) : list hval :=
  match n, l with
  | S n, x :: t => x :: h_dedup n (List.filter (λ y, negb (h_strict_eq x y)) t)
  | _, _ => []
  end.

(** One part of a component; [required] lists are arrays. *)
Definition compose_part (output component source : hval) (part : jstr) : hm unit :=
  own ← has_own output part;
  v ← hget component part;
  if negb own then
    c ← cloneDeep v;
    _ ← hset output part c;
    if streq part #"properties" then
      ks ← hkeys c;
      hfold (λ _ name, p ← hget c name; hset p x_resolved_from source) ks tt
    else mret tt
  else if streq part #"properties" then
    ks ← hkeys v;
    hfold (λ _ name,
      p ← hget v name;
      c ← cloneDeep p;
      ps ← hget output #"properties";
      _ ← hset ps name c;
      from ← hget p x_resolved_from;
      q ← hget ps name;
      hset q x_resolved_from (if h_undef from || h_is #"self" from then source else from)) ks tt
  else if streq part #"required" then
    req ← hget output #"required";
    l ← elements req;
    is_list ← reads (λ h, Ok (h_array v h));
    m ← (if is_list : bool then elements v else mret [v]);
    a ← halloc (HArr (h_dedup (length (l ++ m)) (l ++ m)) []);
    hset output #"required" a
  else if streq part x_resolved_from then
    from ← hget output x_resolved_from;
    l ← elements from;
    set_elements from (l ++ [source])
  else mret tt.

Definition compose_item (item allOf : hval) : hm hval :=
  output ← cloneDeep item;
  _ ← hdel output #"allOf";
  _ ← hset output #"x-composed" (HV (VBool true));
  from ← hget item x_resolved_from;
  _ ← (if h_undef from then mret tt else hset output x_resolved_from from);
  l ← elements allOf;
  _ ← hfold (λ _ component,
        from ← hget component x_resolved_from;
        source ← (if h_undef from then mret (text #"self") else hget from #"0");
        ks ← hkeys component;
        hfold (λ _ part, compose_part output component source part) ks tt) l tt;
  mret output.

(** [resolveAllOf]: bottom up. An object that is composed is replaced by one that is
    not deeper, so the depth stays within the number of objects at the start. *)
Fixpoint compose_all (n : nat) (obj : hval) : hm unit :=
  match n with
  | O => lift stack_overflow
  | S n =>
      ks ← hkeys obj;
      hfold (λ _ key,
        item ← hget obj key;
        match item with
        | HV VNull => hthrow TypeError
        | HV _ => mret tt
        | HL _ =>
            _ ← compose_all n item;
            allOf ← hget item #"allOf";
            composed ← reads (λ h, Ok (h_array allOf h));
            if composed : bool then output ← compose_item item allOf; hset obj key output
            else mret tt
        end) ks tt
  end.
Definition resolveAllOf_h (obj : hval) : hm unit := λ h, compose_all (S (length h)) obj h.

(** ** Rounds *)

(** [turns] bounds the loop that chooses entries, which may not end: [None]. The
    result is what the callback gets as unresolved references. *)
Fixpoint resolve (rounds turns iteration : nat) (failed : list jstr) (cache : list (jstr * hval))
    : hm (option (list (jstr * (jstr * value)))) :=
  match rounds with
  | O => mret None
  | S rounds =>
      table ← walk sort_order root spec;
      chosen ← reads (λ h, select_h turns (λ l, follow_fragment_h h spec l None) root 0 table [] false);
      match chosen with
      | None => mret None
      | Some (all, todo) =>
          '(s, local) ← look_up iteration (omap (λ i, all !! i) todo) failed cache;
          _ ← hfold (λ _ e, write_back (lk_resolved s) local e) all tt;
          unresolved ← reads (count_unresolved spec);
          if again unresolved iteration then resolve rounds turns (S iteration) (lk_failed s) (lk_cache s)
          else
            defs ← definitions spec;
            _ ← resolveAllOf_h defs;
            mret (Some (lk_unresolved s))
      end
  end.
End resolve.
