(* ===== verification/ResolverSound.v ===== *)
(** * What resolution does to a document

    Resolution never loses anything but the properties it replaces, whatever the
    document, the fetched documents and the order of the answers; and a document
    that is resolved stays as it is. *)

From S2P Require Import Prelude JsValue Resolver ResolverLoop JsHeap ResolverWalk.

(** ** What is kept *)

(** The properties that are deleted: references that are replaced, and what moves to
    a definition of its own. *)
Definition removable (k : jstr) : bool :=
  existsb (streq k) [ #"$ref"; #"allOf"; #"type"; #"title"; #"properties"].

Definition keeps_keys (o o' : list (jstr * hval)) : Prop :=
  ∀ k, removable k = false → k ∈ o.*1 → k ∈ o'.*1.

Definition obj_keeps (b b' : hobj) : Prop :=
  match b, b' with
  | HObj o, HObj o' => keeps_keys o o'
  | HArr l o, HArr l' o' => (length l <= length l')%nat ∧ keeps_keys o o'
  | _, _ => False
  end.

(** Every object of [h] is in [h'], with its properties; arrays do not shrink. *)
Definition keeps (h h' : heap) : Prop :=
  ∀ l b, h !! l = Some b → ∃ b', h' !! l = Some b' ∧ obj_keeps b b'.

#[export] Instance obj_keeps_preorder : PreOrder obj_keeps.
Proof.
  split.
  - intros [o|l o]; [by intros k|]. split; [lia|by intros k].
  - intros [o|l o] [o'|l' o'] [o''|l'' o'']; try done; unfold obj_keeps, keeps_keys.
    + eauto.
    + intros [H1 H2] [H3 H4]. split; [lia|eauto].
Qed.

#[export] Instance keeps_preorder : PreOrder keeps.
Proof.
  split.
  - intros h l b H. exists b. split; [done|reflexivity].
  - intros h1 h2 h3 H12 H23 l b Hb. apply H12 in Hb as (b2 & H2 & K2). apply H23 in H2 as (b3 & H3 & K3).
    exists b3. split; [done|by etrans].
Qed.

Lemma keeps_alter f l h : (∀ b, obj_keeps b (f b)) → keeps h (alter f l h).
Proof.
  intros Hf m b Hb. destruct (decide (m = l)) as [->|Hm].
  - exists (f b). split; [|done]. by rewrite list_lookup_alter_eq Hb.
  - exists b. split; [|reflexivity]. rewrite list_lookup_alter_ne; [done|congruence].
Qed.

Lemma keeps_alloc b : mono keeps (halloc b).
Proof.
  intros h x h' [= <- <-] l c Hc. exists c. split; [|reflexivity]. apply lookup_app_l_Some, Hc.
Qed.

Lemma obj_keeps_set k y b : obj_keeps b (obj_set k y b).
Proof.
  destruct b as [o|l o]; cbn [obj_set].
  - intros k' _ Hk. rewrite pset_in. by right.
  - destruct (canonical_index k) as [n|]; [|split; [lia|intros k' _ Hk; rewrite pset_in; by right]].
    destruct (_ <? _)%nat; (split; [|by intros k']).
    + by rewrite length_insert.
    + rewrite length_app. lia.
Qed.

Lemma keeps_set x k y : mono keeps (hset x k y).
Proof. destruct x as [v|l]; [done|]. intros h [] h' [= <-]. apply keeps_alter, obj_keeps_set. Qed.

Lemma pdel_keeps k o : removable k = true → keeps_keys o (pdel k o).
Proof.
  intros Hk k' Hk' H. apply list_elem_of_fmap in H as ([k2 v] & -> & Hin). apply list_elem_of_fmap.
  exists (k2, v). split; [done|]. unfold pdel. apply list_elem_of_filter. split; [|done]. cbn in *. congruence.
Qed.

Lemma keeps_del x k : removable k = true → canonical_index k = None → mono keeps (hdel x k).
Proof.
  intros Hk Hi h a h' H. destruct x as [v|l]; [by destruct v; try done; injection H as <- <-|].
  injection H as <- <-. apply keeps_alter. intros [o|l' o]; cbn [obj_del]; [by apply pdel_keeps|].
  rewrite Hi. split; [lia|by apply pdel_keeps].
Qed.

Lemma keeps_elements x l h l0 : elements x h = Ok (l0, h) → (length l0 <= length l)%nat →
  ∀ h', set_elements x l h = Ok (tt, h') → keeps h h'.
Proof.
  intros He Hl h' H. destruct x as [v|a]; [done|]. injection H as <-.
  unfold elements in He. apply reads_Ok in He as [He _]. destruct (h !! a) as [[o|l1 o]|] eqn:E; try done. injection He as ->.
  intros m b Hb. destruct (decide (m = a)) as [->|Hm].
  - exists (HArr l o). rewrite list_lookup_alter_eq E. split; [done|]. rewrite E in Hb. injection Hb as <-.
    split; [done|by intros k].
  - exists b. split; [|reflexivity]. rewrite list_lookup_alter_ne; [done|congruence].
Qed.

#[export] Hint Resolve keeps_alloc keeps_set : mono.
#[export] Hint Extern 1 (mono keeps (hdel _ _)) => apply keeps_del; reflexivity : mono.
#[export] Hint Extern 1 (mono keeps (cloneDeep _)) => apply mono_cloneDeep; [typeclasses eauto|apply keeps_alloc|apply keeps_set] : mono.
#[export] Hint Extern 1 (mono keeps (build _)) => apply mono_build; [typeclasses eauto|apply keeps_alloc] : mono.

(** An array is extended. *)
Lemma keeps_extend x f : (∀ l, length l <= length (f l))%nat →
  mono keeps (l ← elements x; set_elements x (f l)).
Proof.
  intros Hf h [] h' (l & h1 & H1 & H2)%hbind_Ok.
  assert (h1 = h) as -> by (unfold elements in H1; by apply reads_Ok in H1 as [_ ->]). eapply keeps_elements; eauto.
Qed.
#[export] Hint Extern 1 (mono keeps (mbind (λ l, set_elements _ _) (elements _))) =>
  apply keeps_extend; intros; cbn; rewrite ?length_app; lia : mono.

Section keeps.
Context (sort_order : list bool → list nat) (root : jstr) (spec : hval).
Hypothesis sort_permutes : ∀ flags, sort_order flags ≡ₚ seq 0 (length flags).

Lemma hmap_reads_length {A B} (f : A → hm B) l : ∀ h ys h',
  hmap f l h = Ok (ys, h') → length ys = length l.
Proof.
  induction l as [|x l IH]; intros h ys h' H; cbn [hmap] in H; inv_hm; [done|]. cbn. f_equal. eauto.
Qed.

Lemma omap_lookup_perm {A} (l : list A) ps : ps ≡ₚ seq 0 (length l) → length (omap (λ i, l !! i) ps) = length l.
Proof.
  intros H. assert (∀ js : list nat, Forall (λ i, (i < length l)%nat) js → length (omap (λ i, l !! i) js) = length js) as Ho.
  { induction 1 as [|i js Hi _ IH]; [done|]. cbn. destruct (lookup_lt_is_Some_2 _ _ Hi) as [x ->]. cbn. by rewrite IH. }
  rewrite Ho; [by rewrite H length_seq|]. apply Forall_forall. intros i Hi. rewrite H in Hi. apply elem_of_seq in Hi. lia.
Qed.

Lemma sort_refs_length l h l' h' : sort_refs sort_order l h = Ok (l', h') → h' = h ∧ length l' = length l.
Proof.
  unfold sort_refs. intros H. assert (∀ l h ys h', hmap (λ x, r ← hget x #"$ref"; mret (h_truthy r)) l h = Ok (ys, h') → h' = h) as Hr.
  { clear. induction l as [|x l IH]; intros h ys h' H; cbn [hmap] in H; inv_hm; [done|]. eauto. }
  destruct l as [|x [|y l]]; [by injection H as <- <-..|]. inv_hm.
  match goal with H : hmap _ _ _ = _ |- _ => pose proof (hmap_reads_length _ _ _ _ _ H); apply Hr in H as -> end.
  split; [done|]. apply omap_lookup_perm. etrans; [apply sort_permutes|]. by f_equiv.
Qed.

Lemma keeps_resolve_to n : ∀ property table location, mono keeps (resolve_to root spec n property table location).
Proof.
  induction n as [|n IH]; intros property table location; cbn [resolve_to]; [apply mono_lift; typeclasses eauto|].
  assert (∀ free m base name count, mono keeps (free_loop spec free m base name count)) as Hf.
  { clear. induction m as [|m IH]; intros; cbn [free_loop]; [apply mono_lift; typeclasses eauto|]. unfold definitions. mono. }
  assert (mono keeps (inline_model spec property)) as Hi.
  { unfold inline_model, unique_name, free_name, definitions, h_text. mono. }
  mono.
Qed.

Lemma keeps_free_name free base : mono keeps (free_name spec free base).
Proof.
  assert (∀ m name count, mono keeps (free_loop spec free m base name count)) as Hf.
  { induction m as [|m IH]; intros; cbn [free_loop]; [apply mono_lift; typeclasses eauto|]. unfold definitions. mono. }
  unfold free_name, definitions. mono.
Qed.
#[local] Hint Resolve keeps_free_name : mono.

Lemma keeps_resolveTo property table location : mono keeps (resolveTo root spec property table location).
Proof. intros h. apply keeps_resolve_to. Qed.
#[local] Hint Resolve keeps_resolveTo : mono.

Lemma keeps_resolveInline property table location : mono keeps (resolveInline root spec property table location).
Proof. unfold resolveInline. mono. Qed.
#[local] Hint Resolve keeps_resolveInline : mono.

Lemma keeps_sort x : mono keeps (sort_array sort_order x).
Proof.
  intros h r h' (l & h1 & H1 & (l' & h2 & H2 & ([] & h3 & H3 & [= <- <-])%hbind_Ok)%hbind_Ok)%hbind_Ok.
  assert (h1 = h) as -> by (unfold elements in H1; by apply reads_Ok in H1 as [_ ->]).
  apply sort_refs_length in H2 as [-> Hl]. eapply keeps_elements; [done| |done]. lia.
Qed.
#[local] Hint Resolve keeps_sort : mono.

Lemma keeps_processAllOf name definition table : mono keeps (processAllOf sort_order root spec name definition table).
Proof. unfold processAllOf. mono. Qed.
#[local] Hint Resolve keeps_processAllOf : mono.

Lemma keeps_move_allOf schema allOf b table : mono keeps (move_allOf sort_order root spec schema allOf b table).
Proof. unfold move_allOf, definitions. mono. Qed.
#[local] Hint Resolve keeps_move_allOf : mono.

Lemma keeps_walk_parameter parameter name table location :
  mono keeps (walk_parameter sort_order root spec parameter name table location).
Proof. unfold walk_parameter. mono. Qed.
#[local] Hint Resolve keeps_walk_parameter : mono.

Lemma keeps_walk_method path acc method : mono keeps (walk_method sort_order root spec path acc method).
Proof. unfold walk_method, walk_operation_parameter, walk_response, or_empty. mono. Qed.
#[local] Hint Resolve keeps_walk_method : mono.

Lemma keeps_ensure k : mono keeps (ensure spec k).
Proof. unfold ensure. mono. Qed.
#[local] Hint Resolve keeps_ensure : mono.

Lemma keeps_walk : mono keeps (walk sort_order root spec).
Proof. unfold walk, walk_definition, walk_property, walk_shared_parameter, walk_path, definitions. mono. Qed.

Context (fetch : jstr → option value) (order : nat → list hentry → list hentry).

Lemma keeps_look_up iteration todo failed cache : mono keeps (look_up root spec fetch order iteration todo failed cache).
Proof. unfold look_up, look_up_now, look_up_later, resolve_item. mono. Qed.

Lemma keeps_retain_root n : ∀ r obj, mono keeps (retain_root n r obj).
Proof. induction n as [|n IH]; intros r obj; cbn [retain_root]; mono. Qed.

Lemma keeps_retainRoot key obj r : mono keeps (retainRoot_h key obj r).
Proof.
  destruct obj as [v|l]; cbn [retainRoot_h]; [mono|]. intros h a h' H. revert H. generalize (S (length h)). intros n.
  apply (mono_bind keeps); [apply keeps_retain_root|mono].
Qed.
#[local] Hint Resolve keeps_retainRoot : mono.

Lemma keeps_write_back resolved local e : mono keeps (write_back spec resolved local e).
Proof. unfold write_back, definitions. mono. Qed.

Lemma keeps_compose_item item allOf : mono keeps (compose_item item allOf).
Proof. unfold compose_item, compose_part, has_own. mono. Qed.

Lemma keeps_compose_all n : ∀ obj, mono keeps (compose_all n obj).
Proof. pose proof keeps_compose_item. induction n as [|n IH]; intros obj; cbn [compose_all]; mono. Qed.

Lemma keeps_resolve n turns : ∀ iteration failed cache,
  mono keeps (resolve sort_order root spec fetch order n turns iteration failed cache).
Proof.
  pose proof keeps_walk as H1. pose proof keeps_look_up as H2. pose proof keeps_write_back as H3.
  assert (∀ obj, mono keeps (resolveAllOf_h obj)) as H4 by (intros obj h; apply keeps_compose_all).
  induction n as [|n IH]; intros iteration failed cache; cbn [resolve]; unfold definitions; mono.
Qed.

(** Whatever the document, the documents it refers to and the order of the answers:
    a resolution that ends has every object of the document, every object with all
    its properties apart from those that resolving replaces, and every array with at
    least as many elements. *)
Theorem resolution_keeps n turns iteration failed cache h r h' :
  resolve sort_order root spec fetch order n turns iteration failed cache h = Ok (r, h') → keeps h h'.
Proof. apply keeps_resolve. Qed.

(** Seven rounds are enough: the bound on the rounds is not reached. *)
Theorem resolve_rounds_enough n turns : ∀ iteration failed cache h,
  (7 <= n + iteration)%nat → (iteration <= 6)%nat →
  resolve sort_order root spec fetch order (S n) turns iteration failed cache h =
  resolve sort_order root spec fetch order n turns iteration failed cache h.
Proof.
  induction n as [|n IH]; intros iteration failed cache h Hn Hi; [lia|].
  set (m := S n) at 1. cbn [resolve].
  apply hbind_ext. intros table h1 _. apply hbind_ext. intros [[all todo]|] h2 _; [|done].
  apply hbind_ext. intros [s local] h3 _. apply hbind_ext. intros [] h4 _. apply hbind_ext. intros c h5 _.
  destruct (again c iteration) eqn:Ea; [|done].
  assert (iteration <= 5)%nat.
  { unfold again in Ea. apply negb_true_iff, orb_false_iff in Ea as [_ Ea%Nat.ltb_ge]. lia. }
  unfold m. apply IH; lia.
Qed.
End keeps.

(** ** Runs *)

(** A sort that keeps the order of the elements with and without a reference. *)
Definition stable_order (flags : list bool) : list nat :=
  filter (λ i, flags !! i = Some true) (seq 0 (length flags)) ++
  filter (λ i, ¬ (flags !! i = Some true)) (seq 0 (length flags)).

Lemma stable_order_permutes flags : stable_order flags ≡ₚ seq 0 (length flags).
Proof. apply filter_app_complement. Qed.

(** A document in an empty heap is resolved, with answers in the order of the
    requests. *)
Definition resolve_document (root : jstr) (fetch : jstr → option value) (doc : value)
    : res ((hval * option (list (jstr * (jstr * value)))) * heap) :=
  (spec ← build doc;
   r ← resolve stable_order root spec fetch (λ _ l, l) 7 100 0 [] [];
   mret (spec, r)) [].

Definition ref_to (r : jstr) : value := VObj [(#"$ref", VStr r)].
Definition with_properties (ps : list (jstr * value)) : value := VObj [(#"properties", VObj ps)].
Definition with_definitions (ds : list (jstr * value)) : value := VObj [(#"definitions", VObj ds)].
Definition the_root : jstr := #"http://h/a.json".

(** A reference to another file, whose definition refers to a second one there, and
    an inline model. *)
Definition two_files : value :=
  with_definitions [(#"A", with_properties [(#"x", ref_to #"b.json#/definitions/B");
                                            (#"y", with_properties [(#"z", ref_to #"#/definitions/A")])])].
Definition other_file (url : jstr) : option value :=
  if streq url #"http://h/b.json"
  then Some (with_definitions [(#"B", with_properties [(#"c", ref_to #"#/definitions/C")]);
                               (#"C", VObj [(#"type", VStr #"string")])])
  else None.

Example two_files_resolved :
  match resolve_document the_root other_file two_files with
  | Ok ((spec, Some []), h) => tree 9 h spec
  | _ => None
  end =
  Some (VObj
    [(#"definitions", VObj
       [(#"A", with_properties [(#"x", ref_to #"#/definitions/B"); (#"y", ref_to #"#/definitions/inline_model")]);
        (#"inline_model", with_properties [(#"z", ref_to #"#/definitions/A")]);
        (#"B", with_properties [(#"c", ref_to #"#/definitions/C")]);
        (#"C", VObj [(#"type", VStr #"string")])]);
     (#"parameters", VObj [])]).
Proof. vm_compute. reflexivity. Qed.

(** The document in its heap, and the heap when it is resolved. *)
Definition two_files_start : hval * heap := match build two_files [] with Ok p => p | Throw _ => (undefined, []) end.
Definition two_files_end : heap := match resolve_document the_root other_file two_files with Ok (_, h) => h | Throw _ => [] end.

Lemma resolution_keeps_witness : keeps two_files_start.2 two_files_end.
Proof.
  apply (resolution_keeps stable_order the_root two_files_start.1 stable_order_permutes other_file (λ _ l, l) 7 100 0 [] [] two_files_start.2 (Some []) two_files_end).
  vm_compute. reflexivity.
Defined.

(** Two files with a definition of one name: both references get the one that was
    answered last. *)
Example names_collide :
  let pet t := with_definitions [(#"Pet", VObj [(#"type", VStr t)])] in
  match resolve_document the_root
    (λ u, if streq u #"http://x/b.json" then Some (pet #"integer") else if streq u #"http://y/b.json" then Some (pet #"string") else None)
    (with_definitions [(#"A", with_properties [(#"x", ref_to #"http://x/b.json#/definitions/Pet");
                                               (#"y", ref_to #"http://y/b.json#/definitions/Pet")])]) with
  | Ok ((spec, _), h) => tree 9 h spec
  | Throw _ => None
  end =
  Some (VObj
    [(#"definitions", VObj
       [(#"A", with_properties [(#"x", ref_to #"#/definitions/Pet"); (#"y", ref_to #"#/definitions/Pet")]);
        (#"Pet", VObj [(#"type", VStr #"string")])]);
     (#"parameters", VObj [])]).
Proof. vm_compute. reflexivity. Qed.

(** ** Circular documents *)

Lemma refs_in_outcome n h : ∀ x l, x = HL l → (∃ out, refs_in n h x = Ok out) ∨ refs_in n h x = stack_overflow.
Proof.
  induction n as [|n IH]; intros x l ->; [by right|]. cbn [refs_in]. generalize ([] : list (jstr * unit)).
  induction (keys_in (HL l) h) as [|k ks IHk]; intros out; cbn [fold_res]; [by left; eexists|].
  assert (∃ y, look (HL l) k h = Ok y) as [y ->] by (by eexists). cbn [mbind res_bind].
  destruct y as [v|m]; [destruct (streq k #"$ref"), v; apply IHk|].
  destruct (IH (HL m) m eq_refl) as [[o ->]| ->]; destruct (streq k #"$ref"); [apply IHk|apply IHk|by right|by right].
Qed.

(** Objects that lead to each other are searched without end. *)
Lemma refs_in_circular h (C : loc → Prop) :
  (∀ l, C l → ∃ k m, k ∈ keys_in (HL l) h ∧ look (HL l) k h = Ok (HL m) ∧ C m) →
  ∀ n l, C l → refs_in n h (HL l) = stack_overflow.
Proof.
  intros HC n. induction n as [|n IH]; intros l Hl; [done|]. cbn [refs_in]. destruct (HC l Hl) as (k & m & Hk & Hm & Cm).
  generalize ([] : list (jstr * unit)). induction Hk as [k ks|k k' ks Hk IHk]; intros out; cbn [fold_res].
  - rewrite Hm. cbn [mbind res_bind]. rewrite (IH m Cm). by destruct (streq k #"$ref").
  - assert (∃ y, look (HL l) k' h = Ok y) as [y ->] by (by eexists). cbn [mbind res_bind].
    destruct y as [v|j]; [destruct (streq k' #"$ref"), v; by apply IHk|].
    destruct (refs_in_outcome n h (HL j) j eq_refl) as [[o ->]| ->]; destruct (streq k' #"$ref"); try done; by apply IHk.
Qed.

(** A model with a property composed of the model itself, a usual way to describe a
    linked list. *)
Definition linked_list : value :=
  with_definitions [(#"Node", with_properties [(#"next", VObj [(#"allOf", VArr [ref_to #"#/definitions/Node"])])])].

(** The first round up to the writing back. *)
Definition first_round (doc : value) : res (hval * heap) :=
  (spec ← build doc;
   table ← walk stable_order the_root spec;
   '(s, local) ← look_up the_root spec (λ _, None) (λ _ l, l) 0 table [] [];
   _ ← hfold (λ _ e, write_back spec (lk_resolved s) local e) table tt;
   mret spec) [].

(** The composition is replaced by the properties of the model, which contain it: the
    document becomes circular, and counting its references overflows every stack. *)
Theorem linked_list_circular :
  ∃ spec h, first_round linked_list = Ok (spec, h) ∧ ∀ depth, refs_in depth h spec = stack_overflow.
Proof.
  eexists _, _. split; [vm_compute; reflexivity|]. intros depth. apply (refs_in_circular _ (λ l, l ∈ seq 0 7)).
  - intros l Hl. cbn in Hl. rewrite !elem_of_cons in Hl. destruct Hl as [->|[->|[->|[->|[->|[->|[->|Hl]]]]]]];
      [exists #"properties", 3%nat|exists #"0", 0%nat|exists #"allOf", 1%nat|exists #"next", 2%nat|
       exists #"properties", 3%nat|exists #"Node", 4%nat|exists #"definitions", 5%nat|by apply not_elem_of_nil in Hl];
      (split_and!; [|vm_compute; reflexivity|]);
      apply list_elem_of_In; vm_compute; tauto.
  - apply elem_of_seq. lia.
Qed.

Example linked_list_overflows : resolve_document the_root (λ _, None) linked_list = stack_overflow.
Proof. vm_compute. reflexivity. Qed.
