(* ===== verification/ResolverWrite.v ===== *)
(** * What a resolved reference becomes

    An entry of the resolution table is looked up in a document and written back: the
    object that held the reference refers to the object that was found, which is now a
    definition, or has its properties. The theorem is about the heap, so that it holds
    for shared objects; an entry of a fetched document has the references below it
    rebased on the way. *)

From S2P Require Import Prelude JsValue Resolver ResolverLoop JsHeap ResolverWalk.

(** ** Properties of the objects of a heap *)

Definition prop (l : loc) (k : jstr) (h : heap) : hval :=
  match h !! l with Some b => obj_get b k | None => undefined end.
Definition is_obj (l : loc) (h : heap) : Prop := ∃ o, h !! l = Some (HObj o).

Lemma look_prop l k h : look (HL l) k h = Ok (prop l k h).
Proof. done. Qed.

Lemma prop_alter_ne f l m k h : m ≠ l → prop m k (alter f l h) = prop m k h.
Proof. intros Hm. unfold prop. by rewrite list_lookup_alter_ne. Qed.

Lemma prop_set l m k k' y h : is_obj l h →
  prop m k' (alter (obj_set k y) l h) = if (m =? l)%nat && streq k k' then y else prop m k' h.
Proof.
  intros [o Ho]. destruct (Nat.eqb_spec m l) as [->|Hm]; [|by rewrite prop_alter_ne].
  unfold prop. rewrite list_lookup_alter_eq Ho. cbn [fmap option_fmap option_map obj_set obj_get andb].
  destruct (streq k k') eqn:E; [apply streq_spec in E as ->; by rewrite pget_pset_eq|].
  apply streq_neq in E. by rewrite pget_pset_ne.
Qed.

Lemma prop_del l m k k' h : is_obj l h →
  prop m k' (alter (obj_del k) l h) = if (m =? l)%nat && streq k k' then undefined else prop m k' h.
Proof.
  intros [o Ho]. destruct (Nat.eqb_spec m l) as [->|Hm]; [|by rewrite prop_alter_ne].
  unfold prop. rewrite list_lookup_alter_eq Ho. cbn [fmap option_fmap option_map obj_del obj_get andb].
  destruct (streq k k') eqn:E; [apply streq_spec in E as ->; by rewrite pget_pdel_eq|].
  apply streq_neq in E. by rewrite pget_pdel_ne.
Qed.

Lemma is_obj_alter f l m h : (∀ o, ∃ o', f (HObj o) = HObj o') → is_obj m h → is_obj m (alter f l h).
Proof.
  intros Hf [o Ho]. destruct (decide (m = l)) as [->|Hm].
  - destruct (Hf o) as [o' E]. exists o'. by rewrite list_lookup_alter_eq Ho /= E.
  - exists o. by rewrite list_lookup_alter_ne.
Qed.
Lemma is_obj_set l m k y h : is_obj m h → is_obj m (alter (obj_set k y) l h).
Proof. apply is_obj_alter. intros o. by eexists. Qed.
Lemma is_obj_del l m k h : is_obj m h → is_obj m (alter (obj_del k) l h).
Proof. apply is_obj_alter. intros o. by eexists. Qed.

Lemma is_obj_lt l h : is_obj l h → (l < length h)%nat.
Proof. intros [o Ho]. by eapply lookup_lt_Some. Qed.

Lemma prop_app l k h b : (l < length h)%nat → prop l k (h ++ [b]) = prop l k h.
Proof. intros Hl. unfold prop. by rewrite lookup_app_l. Qed.
Lemma is_obj_app l h b : is_obj l h → is_obj l (h ++ [b]).
Proof. intros [o Ho]. exists o. by apply lookup_app_l_Some. Qed.

(** ** Rebasing

    Nothing but references changes. *)
Definition rebased (h h' : heap) : Prop :=
  length h' = length h ∧ (∀ m, is_obj m h → is_obj m h') ∧ ∀ m k, k ≠ #"$ref" → prop m k h' = prop m k h.

#[export] Instance rebased_preorder : PreOrder rebased.
Proof.
  split; [by intros h|]. intros h1 h2 h3 (L1 & O1 & P1) (L2 & O2 & P2). split_and!; [congruence|auto|]. intros m k Hk. rewrite (P2 m k Hk). by apply P1.
Qed.

Lemma rebased_ref x k y : streq k #"$ref" = true → mono rebased (hset x k y).
Proof.
  intros ->%streq_spec. destruct x as [v|l]; [done|]. intros h [] h' [= <-]. split_and!.
  - by rewrite length_alter.
  - intros m. apply is_obj_set.
  - intros m k Hk. destruct (decide (m = l)) as [->|Hm]; [|by rewrite prop_alter_ne].
    unfold prop. rewrite list_lookup_alter_eq. destruct (h !! l) as [[o|es o]|] eqn:E; rewrite E; [| |done]; cbn [fmap option_fmap option_map obj_set].
    + cbn [obj_get]. by rewrite pget_pset_ne.
    + change (canonical_index #"$ref") with (@None Z). cbn [obj_get]. destruct (streq k #"length"); [done|].
      destruct (canonical_index k); [done|]. by rewrite pget_pset_ne.
Qed.

Lemma rebased_retain_root n : ∀ r obj, mono rebased (retain_root n r obj).
Proof.
  induction n as [|n IH]; intros r obj; cbn [retain_root]; [mono|].
  apply mono_bind; [typeclasses eauto|mono|]. intros ks. apply mono_fold; [typeclasses eauto|]. intros [] key.
  apply mono_bind; [typeclasses eauto|mono|]. intros item.
  destruct (streq key #"$ref") eqn:E, item as [[]|l]; try by mono. by apply rebased_ref.
Qed.

Lemma retainRoot_rebases key x r h y h' : retainRoot_h key x r h = Ok (y, h') → rebased h h' ∧ (key ≠ #"$ref" → y = x).
Proof.
  destruct x as [v|l]; cbn [retainRoot_h]; intros H.
  - destruct v; try (injection H as <- <-; by split). injection H as <- <-. split; [done|]. intros Hk. by rewrite (proj2 (streq_neq key _)).
  - apply hbind_Ok in H as ([] & h1 & H1 & H). injection H as <- <-. split; [by eapply rebased_retain_root|done].
Qed.

(** The loop over the properties of the object that was found. *)
Lemma rebase_loop t r ks : ∀ h h', is_obj t h →
  hfold (λ _ key, x ← hget (HL t) key; abs ← retainRoot_h key x r; hset (HL t) key abs) ks tt h = Ok (tt, h') → rebased h h'.
Proof.
  induction ks as [|key ks IH]; intros h h' Ht H; [injection H as <-; reflexivity|]. cbn [hfold] in H.
  apply hbind_Ok in H as ([] & h1 & H1 & H). apply hbind_Ok in H1 as (x & h2 & Hx & H1). apply reads_Ok in Hx as [Hx ->].
  rewrite look_prop in Hx. injection Hx as <-. apply hbind_Ok in H1 as (abs & h3 & Ha & H1). injection H1 as <-.
  apply retainRoot_rebases in Ha as [(L & O & P) Hv].
  assert (rebased h (alter (obj_set key abs) t h3)) as Hr.
  { split_and!; [by rewrite length_alter|intros m Hm; by apply is_obj_set, O|]. intros m k Hk. rewrite prop_set; [|by apply O].
    destruct (Nat.eqb_spec m t) as [->|]; cbn [andb]; [|by apply P]. destruct (streq key k) eqn:E; [|by apply P].
    apply streq_spec in E as ->. by apply Hv. }
  etrans; [exact Hr|]. eapply IH; [|exact H]. by apply Hr.
Qed.

(** ** Copying properties *)

(** The loop that copies the properties of [t] to [l]; a reference is copied as it is
    when it is local. *)
Lemma copy_loop local t l r ks : l ≠ t → ∀ h h', is_obj t h → is_obj l h →
  hfold (λ _ key, x ← hget (HL t) key; abs ← (if local then mret x else retainRoot_h key x r); hset (HL l) key abs) ks tt h = Ok (tt, h') →
  (∀ k, (k = #"$ref" → local = true) → prop l k h' = if bool_decide (k ∈ ks) then prop t k h else prop l k h) ∧
  ∀ m k, k ≠ #"$ref" → m ≠ l → prop m k h' = prop m k h.
Proof.
  intros Hlt. induction ks as [|key ks IH]; intros h h' Ht Hl H; [by injection H as <-|]. cbn [hfold] in H.
  apply hbind_Ok in H as ([] & h1 & H1 & H). apply hbind_Ok in H1 as (x & h2 & Hx & H1). apply reads_Ok in Hx as [Hx ->].
  rewrite look_prop in Hx. injection Hx as <-. apply hbind_Ok in H1 as (abs & h3 & Ha & H1). injection H1 as <-.
  assert (rebased h h3 ∧ (local = true → h3 = h) ∧ (key = #"$ref" → local = true → abs = prop t key h) ∧ (key ≠ #"$ref" → abs = prop t key h)) as ((L & O & P) & Hh & Hv1 & Hv2).
  { destruct local; [injection Ha as <- <-; by split_and!|]. apply retainRoot_rebases in Ha as [? ?]. by split_and!. }
  assert (∀ m k, (k = #"$ref" → local = true) → prop m k h3 = prop m k h) as P'.
  { intros m k Hk. destruct (decide (k = #"$ref")) as [E|E]; [rewrite Hh //; auto|by apply P]. }
  destruct (IH (alter (obj_set key abs) l h3) h') as [I1 I2]; [by apply is_obj_set, O|by apply is_obj_set, O|exact H|]. split.
  - intros k Hk. rewrite I1 //. rewrite !prop_set; [|by apply O|by apply O]. rewrite (proj2 (Nat.eqb_neq t l)) // Nat.eqb_refl. cbn [andb].
    rewrite !P' //. destruct (decide (key = k)) as [->|Hne].
    + rewrite streq_refl (bool_decide_eq_true_2 (k ∈ k :: ks)); [|by left]. case_bool_decide; [done|].
      destruct (decide (k = #"$ref")); auto.
    + rewrite (proj2 (streq_neq key k)) //. assert (bool_decide (k ∈ key :: ks) = bool_decide (k ∈ ks)) as ->; [|done].
      apply bool_decide_ext. rewrite elem_of_cons. naive_solver.
  - intros m k Hk Hm. rewrite I2 //. rewrite prop_set; [|by apply O]. rewrite (proj2 (Nat.eqb_neq m l)) //. cbn [andb]. by apply P.
Qed.

Lemma copy_loop_ok t l r ks : ∀ h,
  ∃ h', hfold (λ _ key, x ← hget (HL t) key; abs ← (if true then mret x else retainRoot_h key x r); hset (HL l) key abs) ks tt h = Ok (tt, h').
Proof. induction ks as [|key ks IH]; intros h; [by eexists|]. cbn [hfold]. apply IH. Qed.

(** ** Definitions *)

(** The document is an object, and its definitions, if it has any, are one. *)
Definition shaped (s : loc) (h : heap) : Prop :=
  is_obj s h ∧ match prop s #"definitions" h with HL d => d ≠ s ∧ is_obj d h | HV v => truthy v = false end.

(** [ensure] leaves what there is and makes sure of the definitions. *)
Lemma ensure_definitions s h : shaped s h → ∃ h' d, ensure (HL s) #"definitions" h = Ok (tt, h') ∧
  prop s #"definitions" h' = HL d ∧ d ≠ s ∧ is_obj d h' ∧ (length h <= length h')%nat ∧
  (∀ m, is_obj m h → is_obj m h') ∧
  (∀ m, m ≠ s → is_obj m h → h' !! m = h !! m) ∧
  (∀ k, k ≠ #"definitions" → prop s k h' = prop s k h).
Proof.
  intros [Hs Hd]. unfold ensure, hget. rewrite (hbind_run _ _ h (prop s #"definitions" h) h); [|done].
  destruct (prop s #"definitions" h) as [v|d] eqn:E; cbn [h_truthy].
  - rewrite Hd. pose proof (is_obj_lt _ _ Hs) as Hlt.
    rewrite (hbind_run _ _ h (HL (length h)) (h ++ [HObj []])); [|done]. cbn [hset]. eexists _, (length h). split; [done|].
    assert (is_obj s (h ++ [HObj []])) as Hs' by by apply is_obj_app.
    rewrite prop_set // Nat.eqb_refl streq_refl. split_and!; [done|lia| |rewrite length_alter length_app; lia| | |].
    + apply is_obj_set. exists []. by rewrite lookup_app_r // Nat.sub_diag.
    + intros m Hm. by apply is_obj_set, is_obj_app.
    + intros m Hm Ho. rewrite list_lookup_alter_ne //. apply lookup_app_l. by apply is_obj_lt.
    + intros k Hk. rewrite prop_set // Nat.eqb_refl (proj2 (streq_neq _ k)) //. cbn [andb]. by apply prop_app.
  - rewrite (hbind_run _ _ h (HL d) h); [|done]. cbn [hset]. eexists _, d. split; [done|]. destruct Hd as [Hne Hd].
    rewrite prop_set // Nat.eqb_refl streq_refl. split_and!; [done|done|by apply is_obj_set|by rewrite length_alter|intros; by apply is_obj_set| |].
    + intros m Hm Ho. by rewrite list_lookup_alter_ne.
    + intros k Hk. by rewrite prop_set // Nat.eqb_refl (proj2 (streq_neq _ k)).
Qed.

(** ** Looking up and writing back *)

Section written.
(** An entry [e] whose reference is held by [l], found at [t] when [doc] is looked up; the
    document that is resolved is [s]. *)
Context (s : loc) (doc : hval) (e : hentry) (p : jstr) (found : lookups) (l t : loc) (local : bool) (h : heap).
Hypothesis location : e_location e = VStr p.
Hypothesis target : resolve_location_h h doc p = HL t.
Hypothesis holder : e_obj e = HL l.
Hypothesis document : shaped s h.
Hypothesis objects : is_obj l h ∧ is_obj t h.
Hypothesis apart : l ≠ t ∧ l ≠ s ∧ t ≠ s.

Lemma item_found : ∃ found', resolve_item doc e found h = Ok (found', h) ∧
  pget (lk_resolved found') (e_key e) = Some {| hr_name := resolved_name (e_key e); hr_obj := HL t; hr_key := e_key e; hr_root := e_root e |}.
Proof.
  unfold resolve_item. rewrite location. cbn [h_str text]. rewrite (hbind_run _ _ h p h); [|done].
  rewrite (hbind_run _ _ h (HL t) h); [|unfold reads; by rewrite target]. eexists. split; [done|]. cbn [lk_resolved]. apply pget_pset_eq.
Qed.

Let name : jstr := resolved_name (e_key e).
Context (found' : lookups).
Hypothesis resolved : pget (lk_resolved found') (e_key e) = Some {| hr_name := name; hr_obj := HL t; hr_key := e_key e; hr_root := e_root e |}.

(** The entry becomes a reference to a definition. *)
Lemma written_as_ref h' : e_as e = AsRef → name ≠ #"$ref" → write_back (HL s) (lk_resolved found') local e h = Ok (tt, h') →
  prop l #"$ref" h' = local_ref name ∧ ∃ d, prop s #"definitions" h' = HL d ∧ prop d name h' = HL t ∧
  ∀ k, k ≠ #"$ref" → (l = d → k ≠ name) → prop l k h' = prop l k h.
Proof.
  intros Has Hn H. destruct objects as [Hl Ht]. destruct apart as (Hlt & Hls & Hts). unfold write_back in H. rewrite resolved Has in H.
  destruct (ensure_definitions s h document) as (h1 & d & E1 & Ed & Hds & Hd & _ & Ho & Hsame & Hs).
  rewrite (hbind_run _ _ h tt h1) // in H. cbn [hr_obj hr_name] in H.
  apply hbind_Ok in H as ([] & h2 & H2 & H).
  assert (rebased h1 h2) as (L & O & P).
  { destruct local; [injection H2 as <-; reflexivity|]. apply hbind_Ok in H2 as (ks & h3 & H3 & H2). unfold hkeys in H3. apply reads_Ok in H3 as [_ ->].
    eapply rebase_loop; [|exact H2]. by apply Ho. }
  unfold definitions, hget in H. rewrite (hbind_run _ _ h2 (HL d) h2) in H; [|unfold reads; by rewrite look_prop P // Ed].
  rewrite holder in H. rewrite (hbind_run _ _ h2 tt (alter (obj_set name (HL t)) d h2)) // in H. injection H as <-.
  assert (is_obj d h2 ∧ is_obj l h2) as [Hd2 Hl2] by (split; apply O; [done|by apply Ho]).
  assert (∀ m k, prop m k (alter (obj_set #"$ref" (local_ref name)) l (alter (obj_set name (HL t)) d h2)) =
    if (m =? l)%nat && streq #"$ref" k then local_ref name else if (m =? d)%nat && streq name k then HL t else prop m k h2) as Hp.
  { intros m k. rewrite prop_set; [|by apply is_obj_set]. by rewrite prop_set. }
  split; [by rewrite Hp Nat.eqb_refl streq_refl|]. exists d. rewrite !Hp. split_and!.
  - rewrite (proj2 (Nat.eqb_neq s l)) // (proj2 (Nat.eqb_neq s d)) //. cbn [andb]. rewrite P //.
  - rewrite (proj2 (streq_neq #"$ref" name)) // andb_false_r Nat.eqb_refl streq_refl. done.
  - intros k Hk Hkn. rewrite Hp (proj2 (streq_neq #"$ref" k)) // andb_false_r.
    assert ((l =? d)%nat && streq name k = false) as ->.
    { destruct (Nat.eqb_spec l d) as [E|]; [|done]. apply streq_neq. intros <-. by apply Hkn. }
    rewrite P //. unfold prop. by rewrite Hsame.
Qed.

(** The entry is replaced by the properties of what was found. *)
Lemma written_inline h' : e_as e = AsInline → write_back (HL s) (lk_resolved found') local e h = Ok (tt, h') →
  ∃ from, prop from #"0" h' = text (e_key e) ∧
  ∀ k, (k = #"$ref" → local = true) → prop l k h' =
    if bool_decide (k ∈ keys_in (HL t) h) then prop t k h
    else if streq #"$ref" k then undefined else if streq x_resolved_from k then HL from else prop l k h.
Proof.
  intros Has H. destruct objects as [Hl Ht]. destruct apart as (Hlt & Hls & Hts). unfold write_back in H. rewrite resolved Has in H.
  destruct (ensure_definitions s h document) as (h1 & d & E1 & Ed & Hds & Hd & Hlen & Ho & Hsame & Hs).
  rewrite (hbind_run _ _ h tt h1) // in H. cbn [hr_obj hr_name] in H. rewrite holder in H.
  rewrite (hbind_run _ _ h1 (HL (length h1)) (h1 ++ [HArr [text (e_key e)] []])) // in H.
  set (h2 := h1 ++ [HArr [text (e_key e)] []]) in *.
  rewrite (hbind_run _ _ h2 tt (alter (obj_set x_resolved_from (HL (length h1))) l h2)) // in H. set (h3 := alter _ l h2) in *.
  rewrite (hbind_run _ _ h3 tt (alter (obj_del #"$ref") l h3)) // in H. set (h4 := alter _ l h3) in *.
  assert (is_obj l h1 ∧ is_obj t h1) as [Hl1 Ht1] by (split; by apply Ho).
  assert (is_obj l h2 ∧ is_obj l h3 ∧ is_obj l h4) as (Hl2 & Hl3 & Hl4).
  { assert (is_obj l h2) by (by apply is_obj_app). assert (is_obj l h3) by (by apply is_obj_set). split_and!; [done|done|by apply is_obj_del]. }
  assert (h4 !! t = h !! t) as Et.
  { unfold h4, h3, h2. rewrite list_lookup_alter_ne // list_lookup_alter_ne //. rewrite lookup_app_l; [by apply Hsame|by apply is_obj_lt]. }
  assert (is_obj t h4) as Ht4 by (destruct Ht as [o Ho']; exists o; by rewrite Et).
  rewrite (hbind_run _ _ h4 (keys_in (HL t) h) h4) in H; [|unfold hkeys, reads, keys_in; by rewrite Et].
  destruct (copy_loop local t l (e_root e) _ Hlt h4 h' Ht4 Hl4 H) as [C1 C2]. exists (length h1). split.
  - rewrite C2 //; [|pose proof (is_obj_lt _ _ Hl1); lia]. unfold h4, h3. rewrite !prop_alter_ne; [..|pose proof (is_obj_lt _ _ Hl1); lia|pose proof (is_obj_lt _ _ Hl1); lia].
    unfold prop, h2. by rewrite lookup_app_r // Nat.sub_diag.
  - intros k Hk. rewrite C1 //. assert (prop t k h4 = prop t k h) as -> by (unfold prop; by rewrite Et). case_bool_decide; [done|].
    unfold h4, h3. rewrite prop_del // prop_set // Nat.eqb_refl. cbn [andb]. destruct (streq #"$ref" k); [done|]. destruct (streq x_resolved_from k); [done|].
    unfold h2. rewrite prop_app; [|by apply is_obj_lt]. unfold prop. by rewrite Hsame.
Qed.

(** A local entry is always written. *)
Lemma written_local : local = true → ∃ h', write_back (HL s) (lk_resolved found') local e h = Ok (tt, h').
Proof.
  intros ->. unfold write_back. rewrite resolved. destruct (ensure_definitions s h document) as (h1 & d & E1 & Ed & _).
  rewrite (hbind_run _ _ h tt h1) //. cbn [hr_obj hr_name]. rewrite holder. destruct (e_as e).
  - rewrite (hbind_run _ _ h1 tt h1) //. unfold definitions, hget. rewrite (hbind_run _ _ h1 (HL d) h1); [|unfold reads; by rewrite look_prop Ed].
    by eexists.
  - apply (copy_loop_ok t l (e_root e)).
Qed.
End written.

(** (C23) A reference that is looked up and written back. The entry [e] is a reference in
    the object [l]; the document it refers to has the object [t] at its location. Then the
    lookup finds [t], and a local entry is always written. An entry kept as a reference
    leaves [l] with a reference to the local definition of its name, that definition of the
    document is [t] itself, and nothing else of [l] changes. An entry that is inlined
    leaves [l] with the value of [t] for every property of [t], the origin of the
    reference, no reference where [t] has none, and its own value for every other property
    (references inside a fetched document are rebased, which may change the property
    [$ref] alone). *)
Theorem reference_written s doc e p found l t local h :
  e_location e = VStr p → resolve_location_h h doc p = HL t → e_obj e = HL l →
  shaped s h → is_obj l h → is_obj t h → l ≠ t → l ≠ s → t ≠ s →
  let name := resolved_name (e_key e) in name ≠ #"$ref" →
  ∃ found', resolve_item doc e found h = Ok (found', h) ∧
    (local = true → ∃ h', write_back (HL s) (lk_resolved found') local e h = Ok (tt, h')) ∧
    ∀ h', write_back (HL s) (lk_resolved found') local e h = Ok (tt, h') →
    match e_as e with
    | AsRef =>
        prop l #"$ref" h' = local_ref name ∧ ∃ d, prop s #"definitions" h' = HL d ∧ prop d name h' = HL t ∧
          ∀ k, k ≠ #"$ref" → (l = d → k ≠ name) → prop l k h' = prop l k h
    | AsInline =>
        ∃ from, prop from #"0" h' = text (e_key e) ∧
        ∀ k, (k = #"$ref" → local = true) → prop l k h' =
          if bool_decide (k ∈ keys_in (HL t) h) then prop t k h
          else if streq #"$ref" k then undefined else if streq x_resolved_from k then HL from else prop l k h
    end.
Proof.
  intros H1 H2 H3 H4 H5 H6 H7 H8 H9 name Hn. destruct (item_found doc e p found t h H1 H2) as (found' & E & Hr).
  exists found'. split; [done|]. split; [by eapply written_local|]. intros h' Hw.
  destruct (e_as e) eqn:Has; [by eapply written_as_ref|by eapply written_inline].
Qed.

(** A document with a definition that refers to another one. *)
Definition linked_doc : value :=
  VObj [(#"definitions", VObj [(#"A", VObj [(#"$ref", VStr #"#/definitions/B")]); (#"B", VObj [(#"type", VStr #"string")])])].
Definition linked_heap : heap := match build linked_doc [] with Ok (_, h) => h | Throw _ => [] end.
Definition linked_entry : hentry :=
  {| e_obj := HL 0%nat; e_as := AsInline; e_root := []; e_key := #"#/definitions/B"; e_location := VStr #"/definitions/B" |}.

Lemma reference_written_witness :
  let none := {| lk_resolved := []; lk_unresolved := []; lk_failed := []; lk_cache := [] |} in
  ∃ found', resolve_item (HL 3%nat) linked_entry none linked_heap = Ok (found', linked_heap) ∧
    (true = true → ∃ h', write_back (HL 3%nat) (lk_resolved found') true linked_entry linked_heap = Ok (tt, h')) ∧
    ∀ h', write_back (HL 3%nat) (lk_resolved found') true linked_entry linked_heap = Ok (tt, h') →
      ∃ from, prop from #"0" h' = text #"#/definitions/B" ∧
      ∀ k, (k = #"$ref" → true = true) → prop 0%nat k h' =
        if bool_decide (k ∈ keys_in (HL 1%nat) linked_heap) then prop 1%nat k linked_heap
        else if streq #"$ref" k then undefined else if streq x_resolved_from k then HL from else prop 0%nat k linked_heap.
Proof.
  intros none. apply (reference_written 3%nat (HL 3%nat) linked_entry #"/definitions/B" none 0%nat 1%nat true linked_heap);
    try done; try (by eexists; vm_compute; reflexivity).
  split; [by eexists; vm_compute; reflexivity|]. vm_compute. split; [done|]. by eexists.
Defined.
