(* ===== verification/ResolverSettled.v ===== *)
(** * Resolved documents

    A document as the resolver leaves one, with local references that lead somewhere,
    nothing left to inline or to compose, and the lists of parameters the resolver adds,
    is a fixed point of resolution: the callback comes after one round, without a request,
    and the document is what it was. *)

From S2P Require Import Prelude JsValue Resolver ResolverLoop JsHeap ResolverWalk ResolverSound.

(** ** Documents with nothing to do *)

Definition at_key (v : value) (k : jstr) (P : value → bool) : bool :=
  match get v k with Ok w => P w | Throw _ => false end.

(** Every value a [for (k in v)] visits. *)
Definition each (P : value → bool) (v : value) : bool :=
  match v with
  | VObj o => forallb (λ p, P p.2) o
  | VArr l => (Z.of_nat (length l) <? 4294967295) && forallb P l
  | VStr _ => false
  | _ => true
  end.

Definition falsy (v : value) : bool := negb (truthy v).
Definition no_list (v : value) : bool := negb (is_array v).

Section settled.
Context (doc : value).

(** A reference into the document that leads to a value. *)
Definition good_ref (r : jstr) : bool :=
  prefixb #"#" r && negb (contains #"../" r) &&
  match follow doc (split #"/" (drop 1 r)) with Ok true => true | _ => false end.

(** A schema in which [resolveTo] finds a reference at most. *)
Fixpoint quiet_schema (v : value) : bool :=
  match v with
  | VUndef | VNull => false
  | VObj o =>
      match field o #"$ref" with
      | VStr r => good_ref r
      | VUndef | VNull =>
          if is_str #"array" (field o #"type") then
            (fix go o := match o with
               | [] => false
               | (k, x) :: o => if streq #"items" k then quiet_schema x else go o
               end) o
          else falsy (field o #"properties") && falsy (field o #"additionalProperties")
      | _ => false
      end
  | _ => true
  end.

Definition quiet_property (p : value) : bool := at_key p #"allOf" no_list && quiet_schema p.

Definition quiet_definition (d : value) : bool :=
  at_key d #"$ref" falsy && at_key d #"properties" (each quiet_property) && at_key d #"allOf" falsy.

Definition quiet_parameter (p : value) : bool :=
  at_key p #"in" (λ i, negb (is_str #"body" i) || at_key p #"schema" (λ s, falsy s || quiet_property s))
  && at_key p #"$ref" falsy.

Definition quiet_response (r : value) : bool :=
  negb (is_object r) ||
  at_key r #"$ref" falsy &&
  at_key r #"schema" (λ s, falsy s ||
    at_key s #"allOf" no_list &&
    at_key s #"type" (λ t, if is_str #"array" t
                           then at_key s #"items" (λ i, falsy i || at_key i #"$ref" falsy)
                           else quiet_schema s)).

(** An operation has its parameters; what is beside operations is not an object. *)
Definition quiet_operation (op : value) : bool :=
  match op with
  | VObj o => at_key op #"parameters" (λ ps, truthy ps && each quiet_parameter ps) &&
              at_key op #"responses" (each quiet_response)
  | VArr _ | VUndef | VNull => false
  | _ => true
  end.

Definition is_empty_list (v : value) : bool := match v with VArr [] => true | _ => false end.

Definition quiet_method (p : jstr * value) : bool :=
  negb (streq p.1 #"$ref") && if streq p.1 #"parameters" then is_empty_list p.2 else quiet_operation p.2.

Definition quiet_path (p : value) : bool :=
  match p with
  | VObj o => is_empty_list (field o #"parameters") && forallb quiet_method o
  | VNull | VArr _ => false
  | _ => true
  end.

(** Neither nulls nor compositions. *)
Fixpoint composed (v : value) : bool :=
  match v with
  | VObj o => forallb (λ p, match p.2 with VNull => false | VObj q => no_list (field q #"allOf") | _ => true end
                            && composed p.2) o
  | VArr l => (Z.of_nat (length l) <? 4294967295) &&
              forallb (λ x, match x with VNull => false | VObj q => no_list (field q #"allOf") | _ => true end
                            && composed x) l
  | _ => true
  end.

Definition settled : bool :=
  is_plain_object doc
  && at_key doc #"definitions" (λ d, is_object d && each quiet_definition d && composed d)
  && at_key doc #"parameters" (λ p, truthy p && each quiet_parameter p)
  && at_key doc #"paths" (each quiet_path)
  && match countUnresolvedRefs doc with Ok O => true | _ => false end.

(** ** Reading the predicates *)

Lemma at_key_true v k P : at_key v k P = true ↔ ∃ w, get v k = Ok w ∧ P w = true.
Proof. unfold at_key. destruct (get v k); naive_solver. Qed.

Lemma index_key n : 0 <= n < 4294967295 → canonical_index (str_of_Z n) = Some n ∧ streq (str_of_Z n) #"length" = false.
Proof.
  intros Hn. destruct (str_of_Z_digits n ltac:(lia)) as (Hd & Hv & Hne & H0). split.
  - unfold canonical_index. destruct (str_of_Z n) as [|c t] eqn:E; [done|]. rewrite Hd. cbn [andb].
    change (fold_left _ (c :: t) 0) with (digits_value (c :: t)). rewrite Hv.
    replace (n <? 4294967295) with true by (symmetry; apply Z.ltb_lt; lia).
    destruct (Z.eqb_spec c 48) as [->|]; [|done]. cbn [negb orb].
    destruct t as [|d t]; [done|]. destruct (decide (n = 0)) as [->|Hz]; [done|]. by destruct (H0 Hz).
  - apply streq_neq. intros E. rewrite E in Hd. done.
Qed.

Lemma forallb_in {A} (P : A → bool) l x : forallb P l = true → x ∈ l → P x = true.
Proof. intros H Hx. rewrite forallb_forall in H. by apply H, list_elem_of_In. Qed.

Lemma each_get P v k : each P v = true → k ∈ vkeys v → ∃ w, get v k = Ok w ∧ P w = true.
Proof.
  destruct v as [| | | | | |l|o]; cbn [each vkeys]; intros H Hk; try (by apply not_elem_of_nil in Hk); [done| |].
  - apply andb_true_iff in H as [Hl H]. unfold indices in Hk. apply elem_of_lookup_imap in Hk as (i & x & -> & Hi).
    pose proof (lookup_lt_Some _ _ _ Hi). cbn [get]. destruct (index_key (Z.of_nat i)) as [-> ->]; [lia|].
    rewrite Nat2Z.id Hi. exists x. split; [done|]. by apply (forallb_in _ _ _ H), (list_elem_of_lookup_2 _ i).
  - cbn [get]. destruct (pget o k) as [w|] eqn:E; [|by apply pget_none in E]. exists w. split; [done|].
    apply pget_some_in in E. by apply (forallb_in _ _ _ H) in E.
Qed.

Lemma quiet_items o :
  (fix go o := match o with
     | [] => false
     | (k, x) :: o => if streq #"items" k then quiet_schema x else go o
     end) o = true → quiet_schema (field o #"items") = true.
Proof.
  unfold field. induction o as [|[k x] o IH]; [done|]. cbn [pget]. by destruct (streq #"items" k).
Qed.

Lemma quiet_schema_cases v : quiet_schema v = true →
  (∃ r, get v #"$ref" = Ok (VStr r) ∧ good_ref r = true) ∨
  (∃ w t, get v #"$ref" = Ok w ∧ (w = VUndef ∨ w = VNull) ∧ get v #"type" = Ok t ∧
    if is_str #"array" t then ∃ i, get v #"items" = Ok i ∧ quiet_schema i = true
    else ∃ ps ap, get v #"properties" = Ok ps ∧ truthy ps = false ∧ get v #"additionalProperties" = Ok ap ∧ truthy ap = false).
Proof.
  destruct v as [| | | | | |l|o]; try done; [right..|].
  1-5: exists VUndef, VUndef; split_and!; [reflexivity|by left|reflexivity|]; exists VUndef, VUndef; done.
  cbn [quiet_schema]. intros H. rewrite !get_obj.
  destruct (field o #"$ref") as [| | | | |r| |] eqn:Er; try done; [right..|left; eauto].
  1-2: eexists _, (field o #"type"); split_and!; [reflexivity|by (left + right)|reflexivity|]; destruct (is_str _ _).
  1,3: exists (field o #"items"); split; [done|by apply quiet_items].
  all: apply andb_true_iff in H as [H1%negb_true_iff H2%negb_true_iff]; eauto 10.
Qed.

(** ** The walk *)

Context (sort_order : list bool → list nat) (root : jstr) (spec : hval).

Definition ok_entry (e : hentry) : Prop := e_as e = AsRef ∧ e_root e = root ∧ good_ref (e_key e) = true.
Definition ok_table : list hentry → Prop := Forall ok_entry.
Definition ok_acc (r : jstr * list hentry) : Prop := ok_table r.2.

Lemma hash_head r : prefixb #"#" r = true → ∃ t, r = 35 :: t.
Proof. destruct r as [|c t]; [done|]. cbn. intros H. apply andb_true_iff in H as [H%Z.eqb_eq _]. exists t. by rewrite -H. Qed.

Lemma good_entry property r location :
  good_ref r = true → ok_entry (to_entry property (resolveTo_ref root r location)).
Proof.
  intros H. pose proof H as [[Hh _]%andb_true_iff _]%andb_true_iff. destruct (hash_head r Hh) as [t ->].
  assert (before_hash (35 :: t) = []) as Hb.
  { unfold before_hash, split. cbn [split_go]. done. }
  assert (contains #"#" (35 :: t) = true) as Hc by done.
  unfold resolveTo_ref. rewrite Hc Hb. done.
Qed.

Lemma scalar_type v n h x : tree n h x = Some v → n = 0%nat → get v #"type" = Ok VUndef ∨ is_undef v = true ∨ v = VNull.
Proof.
  intros H ->. destruct x as [u|l]; [|done]. cbn [tree] in H. destruct u; cbn in H; simplify_eq; auto.
Qed.

Lemma calm_resolve_to f : ∀ n h x v table location,
  tree n h x = Some v → quiet_schema v = true → (n < f)%nat → ok_table table →
  calm h (resolve_to root spec f x table location) ok_table.
Proof.
  induction f as [|f IH]; intros n h x v table location Hx Hq Hn Ht; [lia|]. cbn [resolve_to].
  apply quiet_schema_cases in Hq as [(r & Hr & Hg)|(w & t & Hw & Hwu & Hty & H)].
  - eapply calm_get; [exact Hx|exact Hr|]. intros y Hy. destruct y as [u|l]; [|by destruct (tree_class _ _ _ _ Hy) as (_ & [=] & _)].
    assert (u = VStr r) as ->.
    { destruct (pred n); cbn [tree] in Hy; by destruct (is_object u); [|injection Hy as ->]. }
    apply calm_ret. apply Forall_app. split; [done|]. constructor; [by apply good_entry|done].
  - eapply calm_get; [exact Hx|exact Hw|]. intros y Hy. assert (y = HV w) as ->.
    { destruct y as [u|l]; [|destruct (tree_class _ _ _ _ Hy) as (_ & E & _); by destruct Hwu as [-> | ->]].
      destruct (pred n); cbn [tree] in Hy; by destruct (is_object u); [|injection Hy as ->]. }
    assert (∀ m : hm (list hentry), calm h m ok_table → calm h (match w with VUndef | VNull => m | _ =>
      r ← h_str (HV w); mret (table ++ [to_entry x (resolveTo_ref root r location)]) end) ok_table) as Hm.
    { intros m Hm. by destruct Hwu as [-> | ->]. }
    apply Hm. clear Hm. eapply calm_get; [exact Hx|exact Hty|]. intros ty Hty'.
    destruct (tree_class _ _ _ _ Hty') as (_ & _ & _ & -> & _). destruct (is_str #"array" t) eqn:Ea.
    + destruct H as (i & Hi & Hqi). eapply calm_get; [exact Hx|exact Hi|]. intros z Hz. eapply IH; [exact Hz|done| |done].
      destruct n as [|n]; [|lia]. destruct (scalar_type _ _ _ _ Hx eq_refl) as [E|[E|E]]; [|by destruct v|by subst v].
      rewrite E in Hty. injection Hty as <-. done.
    + destruct H as (ps & ap & Hps & Hps' & Hap & Hap'). eapply calm_get; [exact Hx|exact Hps|]. intros z Hz.
      destruct (tree_class _ _ _ _ Hz) as (-> & _). rewrite Hps'. eapply calm_get; [exact Hx|exact Hap|]. intros z' Hz'.
      destruct (tree_class _ _ _ _ Hz') as (-> & _). rewrite Hap'. by apply calm_ret.
Qed.

Lemma calm_resolveTo n h x v table location :
  tree n h x = Some v → quiet_schema v = true → ok_table table → calm h (resolveTo root spec x table location) ok_table.
Proof.
  intros Hx%tree_bound Hq Ht. unfold resolveTo. eapply calm_resolve_to in Hx; [|done|apply Nat.lt_succ_diag_r|done]. exact Hx.
Qed.

(** One step of a proof: a property is read. *)
Ltac get_step y H := eapply calm_get; [eassumption|eassumption|]; intros y H.
Ltac keys_step := unfold hkeys; eapply calm_reads; [reflexivity|].
Ltac class H := let C := fresh in pose proof (tree_class _ _ _ _ H) as C;
  destruct C as (-> & _) || destruct C as (_ & -> & _) || destruct C as (_ & _ & _ & -> & _).

Lemma calm_property {A} n h x v (f : hval → hm A) (g : hm A) Q :
  tree n h x = Some v → quiet_property v = true → calm h g Q →
  calm h (allOf ← hget x #"allOf"; composed ← reads (λ h, Ok (h_array allOf h)); if composed : bool then f allOf else g) Q.
Proof.
  intros Hx Hq Hg. unfold quiet_property in Hq. apply andb_true_iff in Hq as [Ha Hq].
  apply at_key_true in Ha as (a & Ha & Hl). get_step y Hy. eapply calm_reads; [reflexivity|].
  destruct (tree_class _ _ _ _ Hy) as (_ & _ & _ & _ & ->). apply negb_true_iff in Hl. by rewrite Hl.
Qed.

Lemma quiet_property_schema v : quiet_property v = true → quiet_schema v = true.
Proof. unfold quiet_property. by intros [_ H]%andb_true_iff. Qed.

Lemma calm_walk_definition N h table name d :
  tree N h spec = Some doc → get doc #"definitions" = Ok d → each quiet_definition d = true → name ∈ vkeys d →
  ok_table table → calm h (walk_definition sort_order root spec table name) ok_table.
Proof.
  intros Hs Hd He Hn Ht. unfold walk_definition, definitions. get_step x Hx.
  destruct (each_get _ _ _ He Hn) as (def & Hdef & Hq). get_step y Hy.
  unfold quiet_definition in Hq. apply andb_true_iff in Hq as [[Hr Hp]%andb_true_iff Ha].
  apply at_key_true in Hr as (r & Hr & Hr'). apply at_key_true in Hp as (ps & Hp & Hp'). apply at_key_true in Ha as (a & Ha & Ha').
  apply negb_true_iff in Hr', Ha'. get_step ref Href. class Href. rewrite Hr'. get_step z Hz. keys_step.
  eapply calm_bind with (P := ok_table).
  - apply calm_fold; [|done]. intros h1 t k S1 Ht1 Hk. apply (tree_keys _ _ _ _ _ Hz) in Hk.
    destruct (each_get _ _ _ Hp' Hk) as (p & Hpk & Hpq). unfold walk_property.
    apply S1 in Hy. get_step z1 Hz1. get_step q Hqq. eapply calm_property; [done|done|].
    eapply calm_resolveTo; [done|by apply quiet_property_schema|done].
  - intros t h1 S1 Ht1. apply S1 in Hy. get_step w Hw. class Hw. rewrite Ha'. by apply calm_ret.
Qed.

Lemma calm_walk_parameter n h p v name table location :
  tree n h p = Some v → quiet_parameter v = true → ok_table table →
  calm h (walk_parameter sort_order root spec p name table location) ok_acc.
Proof.
  intros Hp Hq Ht. unfold quiet_parameter in Hq. apply andb_true_iff in Hq as [Hi Hr].
  apply at_key_true in Hi as (i & Hi & Hi'), Hr as (r & Hr & Hr'). apply negb_true_iff in Hr'.
  unfold walk_parameter. get_step x Hx. destruct (tree_class _ _ _ _ Hx) as (_ & _ & _ & -> & _).
  assert (∀ h1 name t, same h h1 → ok_table t → calm h1 (ref ← hget p #"$ref"; if h_truthy ref then
    loc ← lift (match ref with HV v => Ok v | HL _ => Ok (VObj []) end);
    table ← resolveInline root spec p t loc; mret (name, table) else mret (name, t)) ok_acc) as Hrest.
  { intros h1 name1 t S1 Ht1. apply S1 in Hp. get_step ref Href. class Href. rewrite Hr'. by apply calm_ret. }
  destruct (is_str #"body" i); cbn [negb orb] in Hi'.
  - apply at_key_true in Hi' as (s & Hs & Hs'). get_step y Hy. class Hy.
    eapply calm_bind with (P := ok_acc); [|intros [nm t] h1 S1 Ht1; by apply Hrest].
    destruct (truthy s) eqn:Es; [|by apply calm_ret]. unfold falsy in Hs'. rewrite Es in Hs'. cbn [negb orb] in Hs'.
    eapply calm_property; [done|done|]. eapply calm_bind; [eapply calm_resolveTo; [done|by apply quiet_property_schema|done]|].
    intros t h1 S1 Ht1. by apply calm_ret.
  - eapply calm_bind with (P := λ y, y = undefined); [by apply calm_ret|]. intros y h1 S1 ->.
    eapply calm_bind with (P := ok_acc); [by apply calm_ret|]. intros [nm t] h2 S2 Ht2.
    apply Hrest; [by etrans|done].
Qed.

Lemma calm_walk_response n h responses v method acc code :
  tree n h responses = Some v → each quiet_response v = true → code ∈ vkeys v → ok_acc acc →
  calm h (walk_response sort_order root spec method responses acc code) ok_acc.
Proof.
  intros Hv He Hc Ha. destruct acc as [name table]. destruct (each_get _ _ _ He Hc) as (r & Hr & Hq).
  unfold walk_response. get_step x Hx. destruct (tree_class _ _ _ _ Hx) as (_ & -> & _). unfold quiet_response in Hq.
  destruct (is_object r); cbn [negb orb] in *; [|by apply calm_ret].
  apply andb_true_iff in Hq as [Href Hs]. apply at_key_true in Href as (ref & Href & Hf), Hs as (s & Hs & Hs').
  apply negb_true_iff in Hf. get_step y Hy. class Hy. rewrite Hf.
  eapply calm_bind with (P := ok_table); [by apply calm_ret|]. intros t h1 S1 Ht. apply S1 in Hx.
  get_step z Hz. class Hz. unfold falsy in Hs'. destruct (truthy s); cbn [negb orb] in *; [|by apply calm_ret].
  apply andb_true_iff in Hs' as [Hal Hty]. apply at_key_true in Hal as (a & Hal & Hl), Hty as (ty & Hty & Hk).
  apply negb_true_iff in Hl. get_step u Hu. eapply calm_reads; [reflexivity|].
  destruct (tree_class _ _ _ _ Hu) as (_ & _ & _ & _ & ->). rewrite Hl. get_step w Hw.
  destruct (tree_class _ _ _ _ Hw) as (_ & _ & _ & -> & _). destruct (is_str #"array" ty).
  - apply at_key_true in Hk as (i & Hi & Hk). get_step it Hit. class Hit. unfold falsy in Hk.
    destruct (truthy i) eqn:Ei; cbn [negb orb] in Hk.
    + apply at_key_true in Hk as (r2 & Hr2 & Hf2). apply negb_true_iff in Hf2. get_step y2 Hy2. class Hy2.
      rewrite Hf2. by apply calm_ret.
    + eapply calm_bind with (P := λ x, x = it); [by apply calm_ret|]. intros x2 h2 S2 ->. class Hit. rewrite Ei. by apply calm_ret.
  - eapply calm_bind; [by eapply calm_resolveTo|]. intros t2 h2 S2 Ht2. by apply calm_ret.
Qed.

(** Assigning a property a value with the tree it has. *)
Lemma calm_rewrite n m h x o k y w :
  tree n h x = Some (VObj o) → tree m h y = Some w → pget o k = Some w → calm h (hset x k y) (λ _, True).
Proof.
  intros Hx Hy Hk. destruct x as [u|l]; [destruct n; cbn [tree] in Hx; by destruct u|].
  pose proof (tree_obj _ _ _ _ Hx) as (j & -> & [(o' & vs & E & [= <-] & H)|(es & vs & E & [=] & H)]).
  eexists tt, _. split; [reflexivity|]. split; [|done]. pose proof (mapM_pget _ _ _ k H) as Hp. rewrite Hk in Hp.
  destruct (pget o' k) as [z|] eqn:Ez; [|done]. eapply same_set; [done|exact Ez|]. intros i v Hi.
  pose proof (tree_unique _ _ _ _ _ _ Hp Hi) as <-. eapply tree_weaken; [by eapply tree_depth|done|by eapply tree_height].
Qed.

Lemma calm_alloc h b : calm h (halloc b) (λ y, y = HL (length h)).
Proof. eexists _, _. split; [reflexivity|]. split; [apply same_alloc|done]. Qed.

Lemma calm_ensure N h k x : tree N h spec = Some doc → is_plain_object doc = true → get doc k = Ok x → truthy x = true →
  calm h (ensure spec k) (λ _, True).
Proof.
  intros Hs Ho Hk Hx. unfold ensure. get_step y Hy. class Hy. rewrite Hx.
  eapply calm_bind with (P := λ z, z = y); [by apply calm_ret|]. intros z h1 S1 ->. apply S1 in Hs, Hy.
  destruct doc as [| | | | | | |o]; try done. eapply calm_rewrite; [exact Hs|exact Hy|].
  cbn in Hk. injection Hk as <-. by destruct (pget o k).
Qed.

Lemma calm_new_list {B} h (f : hval → hm B) Q :
  (∀ h1 y, same h h1 → tree 1 h1 y = Some (VArr []) → calm h1 (f y) Q) → calm h (halloc (HArr [] []) ≫= f) Q.
Proof.
  intros Hf. assert (calm (h ++ [HArr [] []]) (f (HL (length h))) Q) as (b & h2 & E & S2 & Hb).
  { apply Hf; [apply same_alloc|]. cbn [tree]. by rewrite list_lookup_middle. }
  exists b, h2. split_and!; [done| |done]. etrans; [apply same_alloc|done].
Qed.

Lemma calm_method_tail n m h operation op parameters ps rs method acc :
  tree n h operation = Some op → tree m h parameters = Some ps → each quiet_parameter ps = true →
  get op #"responses" = Ok rs → each quiet_response rs = true → ok_acc acc →
  calm h (ks ← hkeys parameters;
    acc ← hfold (walk_operation_parameter sort_order root spec method parameters) ks acc;
    responses ← hget operation #"responses";
    ks ← hkeys responses;
    hfold (walk_response sort_order root spec method responses) ks acc) ok_acc.
Proof.
  intros Ho Hp Hq Hr Hqr Ha. keys_step. eapply calm_bind with (P := ok_acc).
  - apply calm_fold; [|done]. intros h1 [name t] k S1 Ht Hk. apply (tree_keys _ _ _ _ _ Hp) in Hk.
    destruct (each_get _ _ _ Hq Hk) as (p & Hpk & Hpq). unfold walk_operation_parameter. apply S1 in Hp.
    get_step x Hx. by eapply calm_walk_parameter.
  - intros acc1 h1 S1 Ha1. apply S1 in Ho. get_step x Hx. keys_step. apply calm_fold; [|done].
    intros h2 acc2 code S2 Ha2 Hk. apply (tree_keys _ _ _ _ _ Hx) in Hk. eapply calm_walk_response; [|done|done|done].
    apply S2, Hx.
Qed.

Lemma or_empty_nil n h x : tree n h x = Some (VArr []) → or_empty x h = Ok ([], h).
Proof.
  intros H. unfold or_empty. pose proof (tree_class _ _ _ _ H) as (-> & _). cbn [truthy].
  destruct x as [u|l]; [destruct n; cbn [tree] in H; by destruct u|].
  apply tree_obj in H as (m & -> & [(o & vs & E & [=] & H)|(es & vs & E & [= <-] & H)]).
  apply mapM_Some, Forall2_nil_inv_r in H. subst es. unfold elements, reads. by rewrite E.
Qed.

(** What a method's value has for parameters and responses. *)
Lemma quiet_method_parts method op :
  quiet_method (method, op) = true →
  ∃ ps rs, get op #"parameters" = Ok ps ∧ get op #"responses" = Ok rs ∧ each quiet_response rs = true ∧
    (if truthy ps then each quiet_parameter ps = true ∧ is_plain_object op = true
     else negb (streq method #"parameters") && is_object op = false).
Proof.
  unfold quiet_method. cbn [fst snd]. intros [_ H]%andb_true_iff. destruct (streq method #"parameters").
  - destruct op as [| | | | | |[|]|]; try done. exists VUndef, VUndef. done.
  - destruct op as [| |b|z|d|s|l|o]; try done; [by exists VUndef, VUndef..|]. cbn [quiet_operation] in H.
    apply andb_true_iff in H as [H1 H2]. apply at_key_true in H1 as (ps & H1 & [Ht He]%andb_true_iff), H2 as (rs & H2 & Hr).
    exists ps, rs. rewrite Ht. done.
Qed.

Lemma calm_walk_method n h path o acc method :
  tree n h path = Some (VObj o) → quiet_path (VObj o) = true → method ∈ o.*1 → ok_acc acc →
  calm h (walk_method sort_order root spec path acc method) ok_acc.
Proof.
  intros Hp Hq Hm Ha. destruct acc as [name table]. cbn [quiet_path] in Hq. apply andb_true_iff in Hq as [He Hq].
  destruct (pget o method) as [op|] eqn:Eop; [|by apply pget_none in Eop].
  pose proof (forallb_in _ _ _ Hq (pget_some_in _ _ _ Eop)) as Hqm.
  unfold walk_method. replace (streq method #"$ref") with false.
  2: { unfold quiet_method in Hqm. by apply andb_true_iff in Hqm as [Hr%negb_true_iff _]. }
  assert (get (VObj o) method = Ok op) as Hg by (cbn; by rewrite Eop).
  assert (get (VObj o) #"parameters" = Ok (VArr [])) as Hgp.
  { rewrite get_obj. destruct (field o #"parameters") as [| | | | | |[]|]; done. }
  apply quiet_method_parts in Hqm as (ps & rs & Hps & Hrs & Hqr & Hcase).
  get_step operation Hop. get_step shared Hsh. get_step psx Hpx.
  assert (∀ h1 parameters m v, same h h1 → tree m h1 parameters = Some v → each quiet_parameter v = true →
    calm h1 (shared ← or_empty shared;
      _ ← hfold (λ _ p, l ← elements parameters; set_elements parameters (p :: l)) shared tt;
      _ ← (if negb (streq method #"parameters") && h_object operation
           then ps ← hget operation #"parameters"; hset operation #"parameters" (if h_truthy ps then ps else parameters)
           else mret tt);
      ks ← hkeys parameters;
      acc ← hfold (walk_operation_parameter sort_order root spec method parameters) ks (name, table);
      responses ← hget operation #"responses";
      ks ← hkeys responses;
      hfold (walk_response sort_order root spec method responses) ks acc) ok_acc) as Hrest.
  { intros h1 parameters m v S1 Hpar Hv. apply S1 in Hsh, Hop, Hpx.
    eapply calm_bind with (P := λ l, l = []); [exists [], h1; split_and!; [by eapply or_empty_nil|reflexivity|done]|].
    intros sh h2 S2 ->. cbn [hfold]. eapply calm_bind with (P := λ _, True); [by apply calm_ret|]. intros [] h3 S3 _.
    assert (same h1 h3) as S13 by (by etrans). clear S2. apply S13 in Hpar, Hop.
    eapply calm_bind with (P := λ _, True).
    - destruct (tree_class _ _ _ _ Hop) as (_ & -> & _). destruct (negb _ && is_object op) eqn:Eo; [|by apply calm_ret].
      get_step p2 Hp2. class Hp2. destruct (truthy ps) eqn:Et; [|done]. destruct Hcase as [_ Hob].
      destruct op as [| | | | | | |oo]; try done. eapply calm_rewrite; [exact Hop|exact Hp2|].
      cbn in Hps. injection Hps as <-. by destruct (pget oo #"parameters").
    - intros [] h4 S4 _. apply S4 in Hpar, Hop. by eapply calm_method_tail. }
  class Hpx. destruct (truthy ps).
  - eapply calm_bind with (P := λ y, y = psx); [by apply calm_ret|]. intros y h1 S1 ->. apply S1 in Hpx.
    eapply Hrest; [done|exact Hpx|apply Hcase].
  - apply calm_new_list. intros h1 y S1 Hy. eapply Hrest; [done|exact Hy|done].
Qed.

Lemma calm_walk_path N h table name pv :
  tree N h spec = Some doc → get doc #"paths" = Ok pv → each quiet_path pv = true → name ∈ vkeys pv →
  ok_table table → calm h (walk_path sort_order root spec table name) ok_table.
Proof.
  intros Hs Hpv He Hn Ht. unfold walk_path. get_step x Hx. destruct (each_get _ _ _ He Hn) as (p & Hp & Hq). get_step y Hy.
  destruct y as [u|l].
  - assert (u = p) as ->.
    { destruct (pred (pred N)); cbn [tree] in Hy; by destruct (is_object u); [|injection Hy as ->]. }
    destruct p; try done; by apply calm_ret.
  - destruct p as [| | | | | |ls|o]; try (by pose proof (tree_class _ _ _ _ Hy) as (_ & [=] & _)). keys_step.
    eapply calm_bind with (P := ok_acc).
    + apply calm_fold; [|done]. intros h1 acc k S1 Ha Hk. apply (tree_keys _ _ _ _ _ Hy) in Hk. apply S1 in Hy.
      by eapply calm_walk_method.
    + intros [nm t] h1 S1 Ht1. apply S1 in Hy. apply calm_new_list. intros h2 e S2 Hee. apply S2 in Hy.
      eapply calm_bind with (P := λ _, True); [|intros; by apply calm_ret].
      eapply calm_rewrite; [exact Hy|exact Hee|]. cbn [quiet_path] in Hq. apply andb_true_iff in Hq as [Hq _].
      unfold field in Hq. destruct (pget o #"parameters") as [[| | | | | |[]|]|]; done.
Qed.

Lemma calm_walk N h :
  tree N h spec = Some doc → settled = true → calm h (walk sort_order root spec) ok_table.
Proof.
  intros Hs H. unfold settled in H. apply andb_true_iff in H as [[[[Ho Hd]%andb_true_iff Hp]%andb_true_iff Hpa]%andb_true_iff _].
  apply at_key_true in Hd as (d & Hd & [[Hd1 Hd2]%andb_true_iff _]%andb_true_iff), Hp as (ps & Hp & [Hp1 Hp2]%andb_true_iff),
    Hpa as (pa & Hpa & Hpa'). unfold walk, definitions.
  eapply calm_bind; [eapply calm_ensure; [exact Hs|done|exact Hd|by destruct d]|]. intros [] h1 S1 _. apply S1 in Hs.
  get_step x Hx. keys_step. eapply calm_bind with (P := ok_table).
  { apply calm_fold; [|constructor]. intros h2 t k S2 Ht Hk. apply (tree_keys _ _ _ _ _ Hx) in Hk.
    eapply calm_walk_definition; [apply S2, Hs|done|done|done|done]. }
  intros t h2 S2 Ht. apply S2 in Hs.
  eapply calm_bind; [eapply calm_ensure; [exact Hs|done|exact Hp|done]|]. intros [] h3 S3 _. apply S3 in Hs.
  get_step y Hy. keys_step. eapply calm_bind with (P := ok_table).
  { apply calm_fold; [|done]. intros h4 t4 k S4 Ht4 Hk. apply (tree_keys _ _ _ _ _ Hy) in Hk. apply S4 in Hs.
    destruct (each_get _ _ _ Hp2 Hk) as (p & Hpk & Hpq). unfold walk_shared_parameter. get_step y2 Hy2. get_step z Hz.
    eapply calm_bind; [by eapply calm_walk_parameter|]. intros [nm t5] h5 S5 Ht5. by apply calm_ret. }
  intros t4 h4 S4 Ht4. apply S4 in Hs. get_step z Hz. keys_step. apply calm_fold; [|done].
  intros h5 t5 k S5 Ht5 Hk. apply (tree_keys _ _ _ _ _ Hz) in Hk. eapply calm_walk_path; [apply S5, Hs|done|done|done|done].
Qed.

(** ** The rest of a round *)

Lemma follow_fragment_tree n h : ∀ parts x v r,
  tree n h x = Some v → follow v parts = Ok true → r ≠ Some true →
  ∃ r', follow_fragment_h h x parts r = Ok r' ∧ r' ≠ Some true.
Proof.
  intros parts. induction parts as [|part parts IH]; intros x v r Hx Hf Hr; [by exists r|].
  destruct part as [|c part]; cbn [follow follow_fragment_h] in *; [eauto|].
  apply bind_Ok in Hf as (w & Hw & Hf). destruct (tree_look _ _ _ _ _ _ Hx Hw) as (y & -> & Hy). cbn [mbind res_bind].
  destruct (tree_class _ _ _ _ Hy) as (_ & _ & -> & _). destruct (is_undef w); [done|].
  eapply IH; [|done|done]. eapply tree_weaken; [|done|exact Hy]. lia.
Qed.

Lemma follow_tree n h : ∀ parts x v b, tree n h x = Some v → follow v parts = Ok b → follow_h h x parts = Ok b.
Proof.
  intros parts. induction parts as [|part parts IH]; intros x v b Hx Hf; [done|].
  destruct part as [|c part]; cbn [follow follow_h] in *; [eauto|].
  apply bind_Ok in Hf as (w & Hw & Hf). destruct (tree_look _ _ _ _ _ _ Hx Hw) as (y & -> & Hy). cbn [mbind res_bind].
  destruct (tree_class _ _ _ _ Hy) as (_ & _ & -> & _). destruct (is_undef w); [done|].
  eapply IH; [|done]. eapply tree_weaken; [|done|exact Hy]. lia.
Qed.

(** A settled entry is not chosen. *)
Lemma select_entry_settled N h e : tree N h spec = Some doc → ok_entry e →
  select_entry (λ l, follow_fragment_h h spec l None) root (to_item e) false = Ok (to_item e, false, false, None).
Proof.
  intros Hs (Ha & Hr & Hk). unfold select_entry, to_item at 1 2. cbn [i_root i_as]. rewrite Hr streq_refl Ha.
  unfold good_ref in Hk. apply andb_true_iff in Hk as [[Hh Hd%negb_true_iff]%andb_true_iff Hf].
  change (0 <=? index_of #"../" (i_key (to_item e))) with (contains #"../" (e_key e)). rewrite Hd.
  change (i_key (to_item e)) with (e_key e). destruct (hash_head _ Hh) as [t Et]. rewrite Et in Hf |- *.
  change (split #"#" (35 :: t)) with (split [35] ([] ++ 35 :: t)). rewrite split_cut; [|apply not_elem_of_nil].
  pose proof (join_split [35] t ltac:(done)) as Hj. destruct (split [35] t) as [|l [|]]; [done| |done]. cbn in Hj. subst l.
  destruct (follow doc (split #"/" (drop 1 (35 :: t)))) as [[]|] eqn:Ef; try done.
  destruct (follow_fragment_tree _ _ _ _ _ None Hs Ef ltac:(done)) as (r & Hr' & Hn). cbn [drop] in Hr'. rewrite Hr'.
  cbn [mbind res_bind]. by destruct r as [[]|].
Qed.

Lemma select_settled N h turns : ∀ i all, tree N h spec = Some doc → ok_table all → (length all - i <= turns)%nat →
  select_h turns (λ l, follow_fragment_h h spec l None) root i all [] false = Ok (Some (all, [])).
Proof.
  induction turns as [|turns IH]; intros i all Hs Hall Hi; cbn [select_h].
  - by rewrite lookup_ge_None_2; [|lia].
  - destruct (all !! i) as [e|] eqn:E; [|done]. rewrite (select_entry_settled N).
    + cbn [mbind res_bind default]. assert (update e (to_item e) None = e) as ->.
      { by destruct e. }
      rewrite list_insert_id //. apply IH; [done|done|]. apply lookup_lt_Some in E. lia.
    + done.
    + eapply Forall_lookup_1; [exact Hall|done].
Qed.

Lemma ref_in_get r v k w : is_object v = true → get v k = Ok w → ref_in r w → ref_in r v.
Proof.
  intros Hv Hg Hr. destruct v as [| | | | | |l|o]; try done.
  - cbn in Hg. destruct (streq k #"length"); [by injection Hg as <-; inversion Hr|].
    destruct (canonical_index k) as [i|]; [|by injection Hg as <-; inversion Hr]. injection Hg as <-.
    destruct (l !! Z.to_nat i) as [x|] eqn:E; [|by inversion Hr]. eapply ref_arr; [|exact Hr]. by eapply list_elem_of_lookup_2.
  - cbn in Hg. injection Hg as <-. destruct (pget o k) as [x|] eqn:E; [|by inversion Hr].
    eapply ref_obj; [|exact Hr]. by apply pget_some_in.
Qed.

Lemma ref_here_get r v : get v #"$ref" = Ok (VStr r) → ref_in r v.
Proof.
  destruct v as [| | | | | |l|o]; try done. cbn. destruct (pget o #"$ref") as [x|] eqn:E; [|done]. intros [= ->].
  constructor. by apply pget_some_in.
Qed.

(** The references found are those of the tree. *)
Lemma refs_in_tree f : ∀ n h l v, tree n h (HL l) = Some v → (n <= f)%nat →
  ∃ out, refs_in f h (HL l) = Ok out ∧ ∀ r, r ∈ out.*1 → ref_in r v.
Proof.
  induction f as [|f IH]; intros n h l v Hx Hn; [destruct n; [done|lia]|]. cbn [refs_in].
  assert (is_object v = true) as Hv by (by destruct (tree_class _ _ _ _ Hx) as (_ & E & _)).
  apply (fold_res_ok (λ out : list (jstr * unit), ∀ r, r ∈ out.*1 → ref_in r v)); [|intros r H; by apply not_elem_of_nil in H].
  intros out k Hout _. assert (∃ w, get v k = Ok w) as [w Hw].
  { destruct v as [| | | | | |es|o]; try done; [|by eexists]. cbn. repeat case_match; eauto. }
  destruct (tree_look _ _ _ _ _ _ Hx Hw) as (y & -> & Hy). cbn [mbind res_bind].
  destruct y as [u|m].
  - assert (u = w) as ->.
    { destruct (pred n); cbn [tree] in Hy; by destruct (is_object u); [|injection Hy as ->]. }
    destruct (streq k #"$ref") eqn:Ek; [apply streq_spec in Ek as ->|by eexists; split; [|exact Hout]].
    destruct w; try (by eexists; split; [|exact Hout]). eexists; split; [done|]. intros r [->|H]%pset_in; [|by apply Hout].
    by apply ref_here_get.
  - destruct (IH (pred n) h m w Hy ltac:(lia)) as (o & Ho & Hro). rewrite Ho. cbn [mbind res_bind].
    assert (∀ r, r ∈ (fold_left (λ out r, pset r tt out) (enum_keys o) out).*1 → ref_in r v) as Hr.
    { intros r [H|H]%add_keys_in; [by apply Hout|]. rewrite enum_keys_in in H. eapply ref_in_get; [done|exact Hw|by apply Hro]. }
    destruct (streq k #"$ref"); by eexists.
Qed.

Lemma count_settled N h l : spec = HL l → tree N h spec = Some doc → countUnresolvedRefs doc = Ok 0%nat →
  count_unresolved spec h = Ok 0%nat.
Proof.
  intros El Hs Hc. pose proof (tree_bound _ _ _ _ Hs) as Hb. rewrite El in Hb. unfold count_unresolved. rewrite El.
  destruct (refs_in_tree (S (length h)) _ _ _ _ Hb ltac:(lia)) as (out & -> & Hout). cbn [mbind res_bind].
  apply count_zero. intros r Hr. rewrite enum_keys_in in Hr. apply Hout in Hr.
  destruct (proj1 (countUnresolvedRefs_follow doc) Hc r Hr) as [H1 H2]. split; [done|]. rewrite -El. by eapply follow_tree.
Qed.

(** No composition is left to make. *)
Lemma calm_compose f : ∀ n h l v, tree n h (HL l) = Some v → composed v = true → (n <= f)%nat →
  calm h (compose_all f (HL l)) (λ _, True).
Proof.
  set (P := λ x, match x with VNull => false | VObj q => no_list (field q #"allOf") | _ => true end && composed x).
  induction f as [|f IH]; intros n h l v Hx Hc Hn; [destruct n; [done|lia]|]. cbn [compose_all]. keys_step.
  assert (each P v = true) as He by (by destruct v as [| | | | |s| |]; [..|destruct (tree_class _ _ _ _ Hx) as (_ & [=] & _)| |]).
  apply calm_fold; [|done]. intros h1 [] k S1 _ Hk. apply (tree_keys _ _ _ _ _ Hx) in Hk. apply S1 in Hx.
  destruct (each_get _ _ _ He Hk) as (w & Hw & [Hp Hq]%andb_true_iff). get_step y Hy. destruct y as [u|m].
  - assert (u = w) as ->.
    { destruct (pred n); cbn [tree] in Hy; by destruct (is_object u); [|injection Hy as ->]. }
    destruct w; try done; by apply calm_ret.
  - eapply calm_bind; [eapply IH; [exact Hy|done|lia]|]. intros [] h2 S2 _. apply S2 in Hy.
    assert (∃ a, get w #"allOf" = Ok a ∧ is_array a = false) as (a & Ha & Hl).
    { destruct w as [| | | | | | |q]; try (by destruct (tree_class _ _ _ _ Hy) as (_ & [=] & _)); [by exists VUndef|].
      exists (field q #"allOf"). split; [done|]. by apply negb_true_iff. }
    get_step z Hz. eapply calm_reads; [reflexivity|]. destruct (tree_class _ _ _ _ Hz) as (_ & _ & _ & _ & ->). rewrite Hl.
    by apply calm_ret.
Qed.

(** Nothing is looked up, and nothing written back. *)
Lemma calm_nothing (fetch : jstr → option value) (order : nat → list hentry → list hentry) iteration failed cache h :
  (∀ i l, order i l ≡ₚ l) →
  look_up root spec fetch order iteration [] failed cache h =
  Ok (({| lk_resolved := []; lk_unresolved := []; lk_failed := failed; lk_cache := cache |}, false), h).
Proof.
  intros Hperm. unfold look_up. cbn [hfold]. assert (order iteration [] = []) as E by (apply Permutation_nil_r, Hperm).
  unfold mbind, hm_bind, mret, hm_ret. by rewrite E.
Qed.

Lemma calm_no_write local l : ∀ h, calm h (hfold (λ _ e, write_back spec [] local e) l tt) (λ _, True).
Proof. intros h. apply calm_fold; [|done]. intros h1 [] e _ _ _. by apply calm_ret. Qed.

(** (C24) A document as the resolver leaves one is a fixed point of resolution. Such a document
    has local references that lead to values, nothing to inline or compose, definitions,
    shared parameters, an empty list of parameters on every path and a list of its own on
    every operation ([settled]: where one of these is missing, the code adds it). Resolving it
    takes one round: the callback gets no unresolved references and the document is what it
    was. No document is requested: the outcome, heap and all, is the same whatever requests
    would be answered and in which order. *)
Theorem resolve_settled n iteration failed cache N h :
  tree N h spec = Some doc → settled = true →
  ∃ enough, ∀ turns, (enough <= turns)%nat → ∃ h', tree N h' spec = Some doc ∧
    ∀ (fetch : jstr → option value) (order : nat → list hentry → list hentry), (∀ i l, order i l ≡ₚ l) →
    resolve sort_order root spec fetch order (S n) turns iteration failed cache h = Ok (Some [], h').
Proof.
  intros Hs H. destruct (calm_walk N h Hs H) as (table & h1 & E1 & S1 & Ht). exists (length table). intros turns Hturns.
  unfold settled in H. apply andb_true_iff in H as [[[[Ho Hd]%andb_true_iff _]%andb_true_iff _]%andb_true_iff Hc].
  apply at_key_true in Hd as (d & Hd & [[Hd1 _]%andb_true_iff Hd2]%andb_true_iff).
  destruct (countUnresolvedRefs doc) as [[|]|] eqn:Ec; try done.
  assert (∃ l, spec = HL l) as [l El].
  { destruct spec as [u|l]; [|eauto]. destruct (tree_class _ _ _ _ Hs) as (_ & E & _). by destruct doc. }
  destruct (calm_no_write false table h1) as ([] & h2 & E2 & S2 & _).
  assert (tree N h2 spec = Some doc) as Hs2 by apply S2, S1, Hs.
  destruct (tree_look _ _ _ _ _ _ Hs2 Hd) as (y & Ey & Hy). destruct y as [u|m].
  { destruct (tree_class _ _ _ _ Hy) as (_ & E & _). by rewrite Hd1 in E. }
  destruct (calm_compose (S (length h2)) _ _ _ _ (tree_bound _ _ _ _ Hy) Hd2 ltac:(lia)) as ([] & h3 & E3 & S3 & _).
  exists h3. split; [by apply S3|]. intros fetch order Hperm. cbn [resolve]. rewrite (hbind_run _ _ _ _ _ E1).
  rewrite (hbind_run _ _ _ (Some (table, [])) h1).
  2: { unfold reads. rewrite (select_settled N); [done|by apply S1|done|lia]. }
  cbn [omap list_omap]. rewrite (hbind_run _ _ _ _ _ (calm_nothing fetch order iteration failed cache h1 Hperm)).
  rewrite (hbind_run _ _ _ tt h2 E2). rewrite (hbind_run _ _ _ 0%nat h2).
  2: { unfold reads. by rewrite (count_settled N h2 l El Hs2 Ec). }
  change (again 0 iteration) with false. cbn iota.
  rewrite (hbind_run _ _ _ (HL m) h2); [|by unfold definitions, hget, reads; rewrite Ey].
  by rewrite (hbind_run (resolveAllOf_h (HL m)) _ h2 tt h3 E3).
Qed.
End settled.

(** A document with a reference, an operation with a body and a response. *)
Definition settled_sample : value :=
  let pet := VObj [(#"$ref", VStr #"#/definitions/Pet")] in
  VObj [(#"definitions", VObj [(#"Pet", VObj [(#"properties", VObj [(#"parent", pet); (#"name", VObj [(#"type", VStr #"string")])])])]);
        (#"parameters", VObj []);
        (#"paths", VObj [(#"/pets", VObj
          [(#"parameters", VArr []);
           (#"post", VObj
             [(#"parameters", VArr [VObj [(#"in", VStr #"body"); (#"schema", pet)]]);
              (#"responses", VObj [(#"200", VObj [(#"schema", pet)])])])])])].
Definition settled_start : hval * heap :=
  match build settled_sample [] with Ok p => p | Throw _ => (undefined, []) end.

Lemma resolve_settled_witness :
  ∃ enough, ∀ turns, (enough <= turns)%nat → ∃ h', tree 9 h' settled_start.1 = Some settled_sample ∧
    ∀ fetch order, (∀ i l, order i l ≡ₚ l) →
    resolve stable_order #"http://h/a.json" settled_start.1 fetch order 7 turns 0 [] [] settled_start.2 = Ok (Some [], h').
Proof. apply (resolve_settled settled_sample stable_order #"http://h/a.json" settled_start.1); vm_compute; reflexivity. Defined.
