(* ===== verification/YamlScan.v ===== *)
(** * js-yaml: reading scalars

    The part of the loader that works on the text alone: classes of units, line
    breaks and separation, the four kinds of scalars. The variables of [state] that
    tell the place in the text are a [cursor]; a reader of scalars that does not
    apply (it returns [false]) leaves them alone. Warnings have no handler. *)

From S2P Require Import Prelude JsValue Int32 YamlMark.

(** ** Classes of units *)

Definition is_EOL (c : Z) : bool := (c =? 10) || (c =? 13).
Definition is_WHITE_SPACE (c : Z) : bool := (c =? 9) || (c =? 32).
Definition is_WS_OR_EOL (c : Z) : bool := (c =? 9) || (c =? 32) || (c =? 10) || (c =? 13).
Definition is_FLOW_INDICATOR (c : Z) : bool := (c =? 44) || (c =? 91) || (c =? 93) || (c =? 123) || (c =? 125).

Definition fromHexCode (c : Z) : Z :=
  if (48 <=? c) && (c <=? 57) then c - 48
  else let lc := jor c 32 in
       if (97 <=? lc) && (lc <=? 102) then lc - 97 + 10 else -1.

Definition escapedHexLen (c : Z) : nat :=
  if c =? 120 then 2%nat else if c =? 117 then 4%nat else if c =? 85 then 8%nat else 0%nat.
Definition fromDecimalCode (c : Z) : Z := if (48 <=? c) && (c <=? 57) then c - 48 else -1.

Definition simpleEscapeSequence (c : Z) : jstr :=
  if c =? 48 then [0] else if c =? 97 then [7] else if c =? 98 then [8] else if c =? 116 then [9]
  else if c =? 9 then [9] else if c =? 110 then [10] else if c =? 118 then [11] else if c =? 102 then [12]
  else if c =? 114 then [13] else if c =? 101 then [27] else if c =? 32 then [32] else if c =? 34 then [34]
  else if c =? 47 then [47] else if c =? 92 then [92] else if c =? 78 then [133] else if c =? 95 then [160]
  else if c =? 76 then [8232] else if c =? 80 then [8233] else [].

(** [String.fromCharCode] takes a number modulo 2^16. *)
Definition fromCharCode (c : Z) : Z := c mod 65536.
Definition charFromCodepoint (c : Z) : jstr :=
  if c <=? 65535 then [fromCharCode c]
  else [fromCharCode (jshr (c - 65536) 10 + 55296); fromCharCode (jand (c - 65536) 1023 + 56320)].

(** [PATTERN_NON_PRINTABLE]; [high] tells whether the unit before is a high
    surrogate. *)
Definition is_high (c : Z) : bool := (55296 <=? c) && (c <=? 56319).
Definition is_low (c : Z) : bool := (56320 <=? c) && (c <=? 57343).
Definition control (c : Z) : bool :=
  ((0 <=? c) && (c <=? 8)) || (c =? 11) || (c =? 12) || ((14 <=? c) && (c <=? 31)) || ((127 <=? c) && (c <=? 132))
  || ((134 <=? c) && (c <=? 159)) || (c =? 65534) || (c =? 65535).
Fixpoint non_printable (high : bool) (s : jstr) : bool :=
  match s with
  | [] => false
  | c :: t =>
      control c
      || (is_high c && negb (match t with d :: _ => is_low d | [] => false end))
      || (is_low c && negb high)
      || non_printable (is_high c) t
  end.

(** ** The cursor *)

Record cursor := { c_position : nat; c_line : Z; c_lineStart : nat; c_lineIndent : Z }.

Definition move (p : nat) (c : cursor) : cursor :=
  {| c_position := p; c_line := c_line c; c_lineStart := c_lineStart c; c_lineIndent := c_lineIndent c |}.
Definition advance (c : cursor) : cursor := move (S (c_position c)) c.
Definition set_indent (n : Z) (c : cursor) : cursor :=
  {| c_position := c_position c; c_line := c_line c; c_lineStart := c_lineStart c; c_lineIndent := n |}.

Section scan.
(** The text with its terminator, and the name of the file. *)
Context (input filename : jstr).

(** [input.charCodeAt(p)]; beyond the end there is a number that is no unit. *)
Definition code (p : nat) : Z := default (-1) (input !! p).
Definition here (c : cursor) : Z := code (c_position c).

(** [throwError]: the message has the mark. *)
Definition throwError {A} (c : cursor) (message : jstr) : res A :=
  Throw (JsError (message ++ #" " ++ Mark_toString
    {| name := filename; buffer := input; position := c_position c; line := c_line c;
       column := Z.of_nat (c_position c) - Z.of_nat (c_lineStart c) |} false)).

(** The position after the units that satisfy [f]; positions stay within the text. *)
Fixpoint skip_while (f : Z → bool) (n p : nat) : nat :=
  match n with
  | O => p
  | S n => if f (code p) then skip_while f n (S p) else p
  end.
Definition skip (f : Z → bool) (p : nat) : nat := skip_while f (length input - p) p.

Definition slice (start fin : nat) : jstr := take (fin - start) (drop start input).

(** [result] with a segment of the text. *)
Definition captureSegment (c : cursor) (start fin : nat) (checkJson : bool) (result : jstr) : res jstr :=
  if (start <? fin)%nat then
    let s := slice start fin in
    if checkJson then
      if forallb (λ x, (x =? 9) || ((32 <=? x) && (x <=? 1114111))) s then Ok (result ++ s)
      else throwError c #"expected valid JSON character"
    else if non_printable false s then throwError c #"the stream contains non-printable characters"
    else Ok (result ++ s)
  else Ok result.

(** ** Lines *)

Definition next_line (p : nat) (c : cursor) : cursor :=
  {| c_position := p; c_line := c_line c + 1; c_lineStart := p; c_lineIndent := c_lineIndent c |}.

Definition readLineBreak (c : cursor) : res cursor :=
  let p := c_position c in
  if code p =? 10 then Ok (next_line (S p) c)
  else if code p =? 13 then Ok (next_line (if code (S p) =? 10 then S (S p) else S p) c)
  else throwError c #"a line break is expected".

Definition is_SPACE (x : Z) : bool := x =? 32.
Definition not_EOL (x : Z) : bool := negb (is_EOL x) && negb (x =? 0).

(** The indentation of a line that starts at the cursor. *)
Definition read_indent (c : cursor) : cursor :=
  let p := skip is_SPACE (c_position c) in
  set_indent (Z.of_nat p - Z.of_nat (c_position c)) (move p c).

(** [skipSeparationSpace]; every turn reads a line break. *)
Fixpoint separation (n : nat) (allowComments : bool) (c : cursor) (lineBreaks : Z) : cursor * Z :=
  match n with
  | O => (c, lineBreaks)
  | S n =>
      if here c =? 0 then (c, lineBreaks)
      else
        let p := skip is_WHITE_SPACE (c_position c) in
        let p := if allowComments && (code p =? 35) then skip not_EOL (S p) else p in
        match is_EOL (code p), readLineBreak (move p c) with
        | true, Ok c => separation n allowComments (read_indent c) (lineBreaks + 1)
        | _, _ => (move p c, lineBreaks)
        end
  end.
Definition skipSeparationSpace (allowComments : bool) (c : cursor) : cursor * Z :=
  separation (S (length input)) allowComments c 0.

Definition testDocumentSeparator (c : cursor) : bool :=
  let p := c_position c in
  ((code p =? 45) || (code p =? 46)) && (code p =? code (p + 1)) && (code p =? code (p + 2)) &&
  ((code (p + 3) =? 0) || is_WS_OR_EOL (code (p + 3))).

(** At the start of a line, a document separator. *)
Definition at_separator (c : cursor) : bool := (c_position c =? c_lineStart c)%nat && testDocumentSeparator c.

Definition writeFoldedLines (count : Z) (result : jstr) : jstr :=
  if count =? 1 then result ++ [32] else result ++ replicate (Z.to_nat (count - 1)) 10.

(** ** Plain scalars *)

(** The variables of the loop beside the cursor. *)
Record plain := { captureStart : nat; captureEnd : nat; hasPendingContent : bool; p_line : Z; p_result : jstr }.

Section plain.
Context (nodeIndent : Z) (withinFlowCollection : bool).

Definition ends_key (x : Z) : bool := is_WS_OR_EOL x || (withinFlowCollection && is_FLOW_INDICATOR x).

Definition starts_plain (p : nat) : bool :=
  let ch := code p in
  negb (is_WS_OR_EOL ch || is_FLOW_INDICATOR ch || has ch #"#&*!|>'%@`" || (ch =? 34))
  && negb (((ch =? 63) || (ch =? 45)) && ends_key (code (S p))).

(** A unit that ends the scalar on its line. *)
Definition plain_break (c : cursor) : bool :=
  let ch := here c in
  if ch =? 58 then ends_key (code (S (c_position c)))
  else if ch =? 35 then is_WS_OR_EOL (code (c_position c - 1))
  else at_separator c || (withinFlowCollection && is_FLOW_INDICATOR ch).

(** One unit of the scalar: what is pending is captured first. *)
Definition plain_unit (c : cursor) (v : plain) : res plain :=
  v ← (if hasPendingContent v then
         r ← captureSegment c (captureStart v) (captureEnd v) false (p_result v);
         Ok {| captureStart := c_position c; captureEnd := c_position c; hasPendingContent := false; p_line := p_line v;
               p_result := writeFoldedLines (c_line c - p_line v) r |}
       else Ok v);
  Ok (if is_WHITE_SPACE (here c) then v
      else {| captureStart := captureStart v; captureEnd := S (c_position c); hasPendingContent := hasPendingContent v;
              p_line := p_line v; p_result := p_result v |}).

Fixpoint plain_loop (n : nat) (c : cursor) (v : plain) : res (cursor * plain) :=
  match n with
  | O => stack_overflow
  | S n =>
      if here c =? 0 then Ok (c, v)
      else if plain_break c then Ok (c, v)
      else if is_EOL (here c) then
        let c' := (skipSeparationSpace false c).1 in
        if nodeIndent <=? c_lineIndent c' then
          plain_loop n c' {| captureStart := captureStart v; captureEnd := captureEnd v; hasPendingContent := true;
                             p_line := c_line c; p_result := p_result v |}
        else Ok (move (captureEnd v) c, v)
      else v ← plain_unit c v; plain_loop n (advance c) v
  end.

(** [readPlainScalar]: [None] when there is none. *)
Definition readPlainScalar (c : cursor) : res (cursor * option jstr) :=
  if negb (starts_plain (c_position c)) then Ok (c, None)
  else
    '(c, v) ← plain_loop (2 * length input + 2) c
      {| captureStart := c_position c; captureEnd := c_position c; hasPendingContent := false; p_line := 0; p_result := [] |};
    r ← captureSegment c (captureStart v) (captureEnd v) false (p_result v);
    Ok (c, match r with [] => None | _ => Some r end).
End plain.

(** ** Quoted scalars *)

Fixpoint single_loop (n : nat) (c : cursor) (captureStart captureEnd : nat) (result : jstr) : res (cursor * jstr) :=
  match n with
  | O => stack_overflow
  | S n =>
      let ch := here c in
      if ch =? 0 then throwError c #"unexpected end of the stream within a single quoted scalar"
      else if ch =? 39 then
        r ← captureSegment c captureStart (c_position c) true result;
        let c := advance c in
        if here c =? 39 then single_loop n (advance c) (c_position c) (c_position c) r
        else Ok (c, r)
      else if is_EOL ch then
        r ← captureSegment c captureStart captureEnd true result;
        let '(c, count) := skipSeparationSpace false c in
        single_loop n c (c_position c) (c_position c) (writeFoldedLines count r)
      else if at_separator c then throwError c #"unexpected end of the document within a single quoted scalar"
      else single_loop n (advance c) captureStart (S (c_position c)) result
  end.

Definition readSingleQuotedScalar (c : cursor) : res (cursor * option jstr) :=
  if here c =? 39 then
    let c := advance c in
    '(c, r) ← single_loop (S (length input)) c (c_position c) (c_position c) [];
    Ok (c, Some r)
  else Ok (c, None).

(** The digits of an escape, before which the cursor is. *)
Fixpoint hex_loop (hexLength : nat) (c : cursor) (hexResult : Z) : res (cursor * Z) :=
  match hexLength with
  | O => Ok (c, hexResult)
  | S hexLength =>
      let c := advance c in
      let tmp := fromHexCode (here c) in
      if 0 <=? tmp then hex_loop hexLength c (jshl hexResult 4 + tmp)
      else throwError c #"expected hexadecimal character"
  end.

(** An escape, with the cursor after the backslash. *)
Definition read_escape (c : cursor) (result : jstr) : res (cursor * jstr) :=
  let ch := here c in
  if is_EOL ch then Ok ((skipSeparationSpace false c).1, result)
  else if (ch <? 256) && negb (streq (simpleEscapeSequence ch) []) then Ok (advance c, result ++ simpleEscapeSequence ch)
  else if (0 <? escapedHexLen ch)%nat then
    '(c, x) ← hex_loop (escapedHexLen ch) c 0;
    Ok (advance c, result ++ charFromCodepoint x)
  else throwError c #"unknown escape sequence".

Fixpoint double_loop (n : nat) (c : cursor) (captureStart captureEnd : nat) (result : jstr) : res (cursor * jstr) :=
  match n with
  | O => stack_overflow
  | S n =>
      let ch := here c in
      if ch =? 0 then throwError c #"unexpected end of the stream within a double quoted scalar"
      else if ch =? 34 then
        r ← captureSegment c captureStart (c_position c) true result;
        Ok (advance c, r)
      else if ch =? 92 then
        r ← captureSegment c captureStart (c_position c) true result;
        '(c, r) ← read_escape (advance c) r;
        double_loop n c (c_position c) (c_position c) r
      else if is_EOL ch then
        r ← captureSegment c captureStart captureEnd true result;
        let '(c, count) := skipSeparationSpace false c in
        double_loop n c (c_position c) (c_position c) (writeFoldedLines count r)
      else if at_separator c then throwError c #"unexpected end of the document within a double quoted scalar"
      else double_loop n (advance c) captureStart (S (c_position c)) result
  end.

Definition readDoubleQuotedScalar (c : cursor) : res (cursor * option jstr) :=
  if here c =? 34 then
    let c := advance c in
    '(c, r) ← double_loop (S (length input)) c (c_position c) (c_position c) [];
    Ok (c, Some r)
  else Ok (c, None).

(** ** Block scalars *)

Inductive chomping := CHOMPING_CLIP | CHOMPING_STRIP | CHOMPING_KEEP.

(** The indicators after [|] or [>], before which the cursor is: the chomping, and
    the indentation if it is given. *)
Fixpoint block_header (n : nat) (nodeIndent : Z) (c : cursor) (ch : chomping) (textIndent : option Z)
    : res (cursor * chomping * option Z) :=
  match n with
  | O => stack_overflow
  | S n =>
      let c := advance c in
      let x := here c in
      if (x =? 43) || (x =? 45) then
        match ch with
        | CHOMPING_CLIP => block_header n nodeIndent c (if x =? 43 then CHOMPING_KEEP else CHOMPING_STRIP) textIndent
        | _ => throwError c #"repeat of a chomping mode identifier"
        end
      else
        let tmp := fromDecimalCode x in
        if 0 <=? tmp then
          if tmp =? 0 then throwError c #"bad explicit indentation width of a block scalar; it cannot be less than one"
          else match textIndent with
               | None => block_header n nodeIndent c ch (Some (nodeIndent + tmp - 1))
               | Some _ => throwError c #"repeat of an indentation width identifier"
               end
        else Ok (c, ch, textIndent)
  end.

(** The variables of the loop over the lines. *)
Record block := {
  b_textIndent : Z; detectedIndent : bool; didReadContent : bool; emptyLines : nat; atMoreIndented : bool; b_result : jstr
}.

Definition breaks (n : nat) : jstr := replicate n 10.

(** The line breaks before a line of content. *)
Definition block_breaks (folding : bool) (ch : Z) (v : block) : jstr * bool :=
  let all := if didReadContent v then S (emptyLines v) else emptyLines v in
  if folding then
    if is_WHITE_SPACE ch then (breaks all, true)
    else if atMoreIndented v then (breaks (S (emptyLines v)), false)
    else match emptyLines v with
         | O => (if didReadContent v then [32] else [], false)
         | n => (breaks n, false)
         end
  else (breaks all, atMoreIndented v).

Definition chomp (ch : chomping) (v : block) : jstr :=
  match ch with
  | CHOMPING_KEEP => breaks (if didReadContent v then S (emptyLines v) else emptyLines v)
  | CHOMPING_CLIP => if didReadContent v then [10] else []
  | CHOMPING_STRIP => []
  end.

(** The position after the indentation of a line: spaces, but no more than the
    indentation of the text once it is known. *)
Definition block_indent (v : block) (c : cursor) : cursor :=
  let p := c_position c in
  let all := (skip is_SPACE p - p)%nat in
  let n := if detectedIndent v then Nat.min all (Z.to_nat (b_textIndent v)) else all in
  set_indent (Z.of_nat n) (move (p + n) c).

Fixpoint block_loop (n : nat) (folding : bool) (chomping : chomping) (c : cursor) (v : block) : res (cursor * jstr) :=
  match n with
  | O => stack_overflow
  | S n =>
      if here c =? 0 then Ok (c, b_result v)
      else
        c ← readLineBreak c;
        let c := block_indent v (set_indent 0 c) in
        let ch := here c in
        let indent := if negb (detectedIndent v) && (b_textIndent v <? c_lineIndent c) then c_lineIndent c else b_textIndent v in
        if is_EOL ch then
          block_loop n folding chomping c
            {| b_textIndent := indent; detectedIndent := detectedIndent v; didReadContent := didReadContent v;
               emptyLines := S (emptyLines v); atMoreIndented := atMoreIndented v; b_result := b_result v |}
        else if c_lineIndent c <? indent then Ok (c, b_result v ++ chomp chomping v)
        else
          let '(brk, more) := block_breaks folding ch v in
          let p := skip not_EOL (c_position c) in
          r ← captureSegment (move p c) (c_position c) p false (b_result v ++ brk);
          block_loop n folding chomping (move p c)
            {| b_textIndent := indent; detectedIndent := true; didReadContent := true; emptyLines := 0;
               atMoreIndented := more; b_result := r |}
  end.

Definition readBlockScalar (nodeIndent : Z) (c : cursor) : res (cursor * option jstr) :=
  let ch := here c in
  if (ch =? 124) || (ch =? 62) then
    '(c, chomping, indent) ← block_header (S (length input)) nodeIndent c CHOMPING_CLIP None;
    let p := c_position c in
    let q := skip is_WHITE_SPACE p in
    let q := if is_WHITE_SPACE (code p) && (code q =? 35) then skip not_EOL (S q) else q in
    '(c, r) ← block_loop (S (length input)) (ch =? 62) chomping (move q c)
      {| b_textIndent := default nodeIndent indent; detectedIndent := match indent with Some _ => true | None => false end;
         didReadContent := false; emptyLines := 0; atMoreIndented := false; b_result := [] |};
    Ok (c, Some r)
  else Ok (c, None).
End scan.
