(* ===== verification/YamlLoader.v ===== *)
(** * js-yaml: the loader

    Nodes, documents and the entry points of the loader. Sequences and mappings are
    objects of a heap, because an anchor names the object while it is being read:
    an alias inside it makes the structure circular. The types of the schema are
    given by their functions. [composeNode] and the readers of collections call each
    other; the readers take [composeNode] as an argument, and the recursion is
    bounded by the length of the text. *)

From S2P Require Import Prelude JsValue JsHeap YamlMark YamlScan.

(** A type of the compiled schema. *)
Record ltype := {
  lt_tag : jstr;
  lt_kind : jstr;
  lt_resolve : hval → heap → bool;
  lt_construct : hval → hm hval;
}.

Record lstate := {
  cur : cursor;
  n_tag : option jstr;
  n_anchor : option jstr;
  n_kind : option jstr;
  n_result : hval;
  l_version : option jstr;
  checkLineBreaks : bool;
  tagMap : list (jstr * jstr);
  anchorMap : list (jstr * hval);
  documents : list hval;
  objs : heap;
}.

Definition lm (A : Type) := lstate → res (A * lstate).
#[export] Instance lm_ret : MRet lm := fun A a s => Ok (a, s).
#[export] Instance lm_bind : MBind lm := fun A B f m s =>
  match m s with Ok (a, s') => f a s' | Throw e => Throw e end.

Definition gets {A} (f : lstate → A) : lm A := λ s, Ok (f s, s).
Definition modify (f : lstate → lstate) : lm unit := λ s, Ok (tt, f s).

Definition with_cur (c : cursor) (s : lstate) : lstate :=
  {| cur := c; n_tag := n_tag s; n_anchor := n_anchor s; n_kind := n_kind s; n_result := n_result s;
     l_version := l_version s; checkLineBreaks := checkLineBreaks s; tagMap := tagMap s; anchorMap := anchorMap s;
     documents := documents s; objs := objs s |}.
Definition with_node (tag anchor kind : option jstr) (result : hval) (s : lstate) : lstate :=
  {| cur := cur s; n_tag := tag; n_anchor := anchor; n_kind := kind; n_result := result;
     l_version := l_version s; checkLineBreaks := checkLineBreaks s; tagMap := tagMap s; anchorMap := anchorMap s;
     documents := documents s; objs := objs s |}.
Definition with_tag (tag : option jstr) (s : lstate) : lstate := with_node tag (n_anchor s) (n_kind s) (n_result s) s.
Definition with_anchor (anchor : option jstr) (s : lstate) : lstate := with_node (n_tag s) anchor (n_kind s) (n_result s) s.
Definition with_result (result : hval) (s : lstate) : lstate := with_node (n_tag s) (n_anchor s) (n_kind s) result s.
Definition with_directives (version : option jstr) (check : bool) (tags : list (jstr * jstr)) (anchors : list (jstr * hval))
    (s : lstate) : lstate :=
  {| cur := cur s; n_tag := n_tag s; n_anchor := n_anchor s; n_kind := n_kind s; n_result := n_result s;
     l_version := version; checkLineBreaks := check; tagMap := tags; anchorMap := anchors;
     documents := documents s; objs := objs s |}.
Definition with_anchors (anchors : list (jstr * hval)) (s : lstate) : lstate :=
  with_directives (l_version s) (checkLineBreaks s) (tagMap s) anchors s.
Definition with_documents (l : list hval) (s : lstate) : lstate :=
  {| cur := cur s; n_tag := n_tag s; n_anchor := n_anchor s; n_kind := n_kind s; n_result := n_result s;
     l_version := l_version s; checkLineBreaks := checkLineBreaks s; tagMap := tagMap s; anchorMap := anchorMap s;
     documents := l; objs := objs s |}.

(** A program on the heap. *)
Definition on_heap {A} (m : hm A) : lm A := λ s,
  '(a, h) ← m (objs s);
  Ok (a, {| cur := cur s; n_tag := n_tag s; n_anchor := n_anchor s; n_kind := n_kind s; n_result := n_result s;
            l_version := l_version s; checkLineBreaks := checkLineBreaks s; tagMap := tagMap s; anchorMap := anchorMap s;
            documents := documents s; objs := h |}).

Definition null : hval := HV VNull.
Definition text_value (s : jstr) : hval := HV (VStr s).

Inductive context := CONTEXT_FLOW_IN | CONTEXT_FLOW_OUT | CONTEXT_BLOCK_IN | CONTEXT_BLOCK_OUT.

(** ** Patterns *)

Definition is_alpha (c : Z) : bool := ((65 <=? c) && (c <=? 90)) || ((97 <=? c) && (c <=? 122)).
(** [PATTERN_TAG_HANDLE] *)
Definition tag_handle_ok (s : jstr) : bool :=
  streq s #"!" || streq s #"!!" ||
  match s with
  | 33 :: t => match rev t with
               | 33 :: c :: m => forallb (λ c, is_alpha c || (c =? 45)) (c :: m)
               | _ => false
               end
  | _ => false
  end.

Definition is_hex (c : Z) : bool := is_digit c || ((65 <=? c) && (c <=? 70)) || ((97 <=? c) && (c <=? 102)).
Fixpoint uri_rest (s : jstr) : bool :=
  match s with
  | [] => true
  | 37 :: t => match t with a :: b :: t => is_hex a && is_hex b && uri_rest t | _ => false end
  | c :: t => (is_digit c || is_alpha c || has c #"-#;/?:@&=+$,_.!~*'()[]") && uri_rest t
  end.
(** [PATTERN_TAG_URI] *)
Definition tag_uri_ok (s : jstr) : bool :=
  match s with c :: t => negb (is_FLOW_INDICATOR c) && uri_rest t | [] => false end.

Section loader.
Context (input filename : jstr) (json legacy : bool) (implicitTypes : list ltype) (typeMap : list (jstr * ltype)).

Definition position_here : lm nat := gets (λ s, c_position (cur s)).
(** The unit [k] places on. *)
Definition peek (k : nat) : lm Z := gets (λ s, code input (c_position (cur s) + k)).
Definition step_on : lm unit := modify (λ s, with_cur (advance (cur s)) s).
Definition go_to (p : nat) : lm unit := modify (λ s, with_cur (move p (cur s)) s).
Definition fail {A} (message : jstr) : lm A := λ s, throwError input filename (cur s) message.
Definition endless {A} : lm A := λ _, stack_overflow.

(** [skipSeparationSpace]: the number of line breaks. *)
Definition separate (allowComments : bool) : lm Z := λ s,
  let '(c, n) := skipSeparationSpace input filename allowComments (cur s) in Ok (n, with_cur c s).

Definition line_break : lm unit := λ s, c ← readLineBreak input filename (cur s); Ok (tt, with_cur c s).

(** A reader of scalars: on success the node is its text. *)
Definition scalar (read : cursor → res (cursor * option jstr)) : lm bool := λ s,
  '(c, r) ← read (cur s);
  match r with
  | Some t => Ok (true, with_cur c (with_node (n_tag s) (n_anchor s) (Some #"scalar") (text_value t) s))
  | None => Ok (false, with_cur c s)
  end.

(** [state.anchorMap[state.anchor] = x], if there is an anchor. *)
Definition name_anchor (x : hval) : lm unit :=
  modify (λ s, match n_anchor s with Some a => with_anchors (pset a x (anchorMap s)) s | None => s end).

(** ** Mappings *)

Definition mergeMappings (destination source : hval) (overridableKeys : list (jstr * unit)) : lm (list (jstr * unit)) :=
  if negb (h_object source) then fail #"cannot merge mappings; the provided source object is unacceptable"
  else
    ks ← on_heap (hkeys source);
    on_heap (hfold (λ over key,
      own ← hkeys destination;
      if existsb (streq key) own then mret over
      else x ← hget source key; _ ← hset destination key x; mret (pset key tt over)) ks overridableKeys).

Fixpoint merge_all (destination : hval) (sources : list hval) (over : list (jstr * unit)) : lm (list (jstr * unit)) :=
  match sources with
  | [] => mret over
  | x :: l => over ← mergeMappings destination x over; merge_all destination l over
  end.

(** [String(x)]: an array is the text of its elements, and is empty inside itself.
    Arrays are entered once, so that the depth is at most the number of objects. *)
Fixpoint key_text (n : nat) (h : heap) (entered : list loc) (x : hval) : jstr :=
  match n, x with
  | _, HV v => to_string v
  | O, _ => []
  | S n, HL l =>
      match h !! l with
      | Some (HArr es _) =>
          if bool_decide (l ∈ entered) then []
          else join #"," (map (λ e, match e with
                                    | HV (VUndef | VNull) => []
                                    | _ => key_text n h (l :: entered) e
                                    end) es)
      | _ => #"[object Object]"
      end
  end.

Definition merge_tag : jstr := #"tag:yaml.org,2002:merge".

Definition storeMappingPair (result : option hval) (over : list (jstr * unit)) (keyTag : option jstr) (keyNode valueNode : hval)
    : lm (hval * list (jstr * unit)) :=
  key ← on_heap (reads (λ h, Ok (key_text (S (length h)) h [] keyNode)));
  result ← (match result with Some r => mret r | None => on_heap (halloc (HObj [])) end);
  if bool_decide (keyTag = Some merge_tag) then
    many ← on_heap (reads (λ h, Ok (h_array valueNode h)));
    sources ← (if many : bool then on_heap (elements valueNode) else mret [valueNode]);
    over ← merge_all result sources over;
    mret (result, over)
  else
    own ← on_heap (hkeys result);
    if negb json && negb (existsb (λ p, streq key p.1) over) && existsb (streq key) own
    then fail #"duplicated mapping key"
    else _ ← on_heap (hset result key valueNode); mret (result, pdel key over).

(** ** Properties of a node *)

(** The loop over the units of a tag that is not verbatim: the handle, whether it is
    named, and where the suffix starts. *)
Fixpoint tag_loop (n : nat) (handle : jstr) (isNamed : bool) (start : nat) : lm (jstr * nat) :=
  match n with
  | O => endless
  | S n =>
      ch ← peek 0;
      if (ch =? 0) || is_WS_OR_EOL ch then mret (handle, start)
      else if ch =? 33 then
        if isNamed then fail #"tag suffix cannot contain exclamation marks"
        else
          p ← position_here;
          let handle := slice input (start - 1) (S p) in
          if negb (tag_handle_ok handle) then fail #"named tag handle cannot contain such characters"
          else _ ← step_on; tag_loop n handle true (S p)
      else _ ← step_on; tag_loop n handle isNamed start
  end.

Definition read_verbatim : lm jstr :=
  start ← position_here;
  _ ← go_to (skip input (λ x, negb (x =? 0) && negb (x =? 62)) (S start));
  p ← position_here;
  if (S p <? length input)%nat then _ ← step_on; mret (slice input start p)
  else fail #"unexpected end of the stream within a verbatim tag".

Definition readTagProperty : lm bool :=
  ch ← peek 0;
  if negb (ch =? 33) then mret false
  else
    old ← gets n_tag;
    if negb (bool_decide (old = None)) then fail #"duplication of a tag property"
    else
      _ ← step_on;
      ch ← peek 0;
      if ch =? 60 then
        _ ← step_on;
        name ← read_verbatim;
        if negb (streq name []) && negb (tag_uri_ok name) then fail (#"tag name cannot contain such characters: " ++ name)
        else _ ← modify (with_tag (Some name)); mret true
      else
        _ ← (if ch =? 33 then step_on else mret tt);
        start ← position_here;
        '(handle, from) ← tag_loop (S (length input)) (if ch =? 33 then #"!!" else #"!") (ch =? 33) start;
        p ← position_here;
        let name := slice input from p in
        if existsb is_FLOW_INDICATOR name then fail #"tag suffix cannot contain flow indicator characters"
        else if negb (streq name []) && negb (tag_uri_ok name) then fail (#"tag name cannot contain such characters: " ++ name)
        else
          tags ← gets tagMap;
          tag ← (match pget tags handle with
                 | Some prefix => mret (prefix ++ name)
                 | None =>
                     if streq handle #"!" then mret (#"!" ++ name)
                     else if streq handle #"!!" then mret (#"tag:yaml.org,2002:" ++ name)
                     else fail (#"undeclared tag handle " ++ [34] ++ handle ++ [34])
                 end);
          _ ← modify (with_tag (Some tag));
          mret true.

(** The name after [&] or [*]. *)
Definition read_name (message : jstr) : lm jstr :=
  _ ← step_on;
  start ← position_here;
  _ ← go_to (skip input (λ x, negb (x =? 0) && negb (is_WS_OR_EOL x) && negb (is_FLOW_INDICATOR x)) start);
  p ← position_here;
  if (p =? start)%nat then fail message else mret (slice input start p).

Definition readAnchorProperty : lm bool :=
  ch ← peek 0;
  if negb (ch =? 38) then mret false
  else
    old ← gets n_anchor;
    if negb (bool_decide (old = None)) then fail #"duplication of an anchor property"
    else
      a ← read_name #"name of an anchor node must contain at least one character";
      _ ← modify (with_anchor (Some a));
      mret true.

Definition readAlias : lm bool :=
  ch ← peek 0;
  if negb (ch =? 42) then mret false
  else
    a ← read_name #"name of an alias node must contain at least one character";
    anchors ← gets anchorMap;
    match pget anchors a with
    | None => fail (#"unidentified alias " ++ [34] ++ a ++ [34])
    | Some x => _ ← modify (with_result x); _ ← separate true; mret true
    end.

(** ** Collections *)

Section collections.
Context (composeNode : Z → context → bool → bool → lm bool).

Definition lineIndent : lm Z := gets (λ s, c_lineIndent (cur s)).
Definition line_here : lm Z := gets (λ s, c_line (cur s)).

Definition push (array x : hval) : lm unit := on_heap (l ← elements array; set_elements array (l ++ [x])).

(** One entry of a flow collection, up to its end. *)
Definition flow_entry (nodeIndent : Z) (result : hval) (isMapping : bool) (over : list (jstr * unit)) : lm (list (jstr * unit)) :=
  ch ← peek 0;
  following ← peek 1;
  let isExplicitPair := (ch =? 63) && is_WS_OR_EOL following in
  _ ← (if isExplicitPair then _ ← step_on; _ ← separate true; mret tt else mret tt);
  line ← line_here;
  _ ← composeNode nodeIndent CONTEXT_FLOW_IN false true;
  keyTag ← gets n_tag;
  keyNode ← gets n_result;
  _ ← separate true;
  ch ← peek 0;
  line' ← line_here;
  '(isPair, valueNode) ←
    (if (isExplicitPair || (line' =? line)) && (ch =? 58) then
       _ ← step_on;
       _ ← separate true;
       _ ← composeNode nodeIndent CONTEXT_FLOW_IN false true;
       v ← gets n_result;
       mret (true, v)
     else mret (isExplicitPair, null));
  over ←
    (if isMapping then '(_, over) ← storeMappingPair (Some result) over keyTag keyNode valueNode; mret over
     else if isPair : bool then
       '(entry, over) ← storeMappingPair None over keyTag keyNode valueNode; _ ← push result entry; mret over
     else _ ← push result keyNode; mret over);
  _ ← separate true;
  mret over.

Fixpoint flow_loop (n : nat) (nodeIndent : Z) (terminator : Z) (result : hval) (isMapping : bool) (tag anchor : option jstr)
    (readNext : bool) (over : list (jstr * unit)) : lm bool :=
  match n with
  | O => endless
  | S n =>
      ch ← peek 0;
      if ch =? 0 then fail #"unexpected end of the stream within a flow collection"
      else
        _ ← separate true;
        ch ← peek 0;
        if ch =? terminator then
          _ ← step_on;
          _ ← modify (with_node tag anchor (Some (if isMapping then #"mapping" else #"sequence")) result);
          mret true
        else if negb readNext then fail #"missed comma between flow collection entries"
        else
          over ← flow_entry nodeIndent result isMapping over;
          ch ← peek 0;
          _ ← (if ch =? 44 then step_on else mret tt);
          flow_loop n nodeIndent terminator result isMapping tag anchor (ch =? 44) over
  end.

Definition readFlowCollection (nodeIndent : Z) : lm bool :=
  ch ← peek 0;
  if (ch =? 91) || (ch =? 123) then
    tag ← gets n_tag;
    anchor ← gets n_anchor;
    result ← on_heap (halloc (if ch =? 123 then HObj [] else HArr [] []));
    _ ← name_anchor result;
    _ ← step_on;
    flow_loop (S (length input)) nodeIndent (if ch =? 123 then 125 else 93) result (ch =? 123) tag anchor true []
  else mret false.

(** The loop over the entries of a block sequence: whether there was one. *)
Fixpoint sequence_loop (n : nat) (nodeIndent : Z) (result : hval) (detected : bool) : lm bool :=
  match n with
  | O => endless
  | S n =>
      ch ← peek 0;
      following ← peek 1;
      if negb (ch =? 45) || negb (is_WS_OR_EOL following) then mret detected
      else
        _ ← step_on;
        breaks ← separate true;
        indent ← lineIndent;
        if negb (breaks =? 0) && (indent <=? nodeIndent) then
          _ ← push result null;
          sequence_loop n nodeIndent result true
        else
          line ← line_here;
          _ ← composeNode nodeIndent CONTEXT_BLOCK_IN false true;
          x ← gets n_result;
          _ ← push result x;
          _ ← separate true;
          ch ← peek 0;
          line' ← line_here;
          indent ← lineIndent;
          if ((line' =? line) || (nodeIndent <? indent)) && negb (ch =? 0) then fail #"bad indentation of a sequence entry"
          else if indent <? nodeIndent then mret true
          else sequence_loop n nodeIndent result true
  end.

Definition readBlockSequence (nodeIndent : Z) : lm bool :=
  tag ← gets n_tag;
  anchor ← gets n_anchor;
  result ← on_heap (halloc (HArr [] []));
  _ ← name_anchor result;
  detected ← sequence_loop (S (length input)) nodeIndent result false;
  if detected : bool then _ ← modify (with_node tag anchor (Some #"sequence") result); mret true
  else mret false.

(** The variables of the loop over the pairs of a block mapping. *)
Record pairs := {
  m_keyTag : option jstr; m_keyNode : hval; m_valueNode : hval; m_explicit : bool; m_detected : bool; m_over : list (jstr * unit)
}.

(** What the first half of a turn finds: a pair to go on with, [allowCompact], or
    an end of the loop, with the value the function returns if it does so at once. *)
Inductive half := Go (v : pairs) (allowCompact : bool) | Stop (v : pairs) | Return (b : bool).

(** A key that waits for its value gets [null]. *)
Definition flush_key (result : hval) (v : pairs) : lm pairs :=
  if m_explicit v then
    '(_, over) ← storeMappingPair (Some result) (m_over v) (m_keyTag v) (m_keyNode v) null;
    mret {| m_keyTag := None; m_keyNode := null; m_valueNode := null; m_explicit := m_explicit v;
            m_detected := m_detected v; m_over := over |}
  else mret v.

Definition mapping_key (flowIndent : Z) (result : hval) (tag anchor : option jstr) (line : Z) (v : pairs) : lm half :=
  ch ← peek 0;
  following ← peek 1;
  if ((ch =? 63) || (ch =? 58)) && is_WS_OR_EOL following then
    if ch =? 63 then
      v ← flush_key result v;
      _ ← step_on;
      mret (Go {| m_keyTag := m_keyTag v; m_keyNode := m_keyNode v; m_valueNode := m_valueNode v; m_explicit := true;
                  m_detected := true; m_over := m_over v |} true)
    else if m_explicit v then
      _ ← step_on;
      mret (Go {| m_keyTag := m_keyTag v; m_keyNode := m_keyNode v; m_valueNode := m_valueNode v; m_explicit := false;
                  m_detected := m_detected v; m_over := m_over v |} true)
    else fail #"incomplete explicit mapping pair; a key node is missed"
  else
    some ← composeNode flowIndent CONTEXT_FLOW_OUT false true;
    if negb some then mret (Stop v)
    else
      line' ← line_here;
      let keep := _ ← modify (λ s, with_tag tag (with_anchor anchor s)); mret (Return true) in
      if line' =? line then
        p ← position_here;
        _ ← go_to (skip input is_WHITE_SPACE p);
        ch ← peek 0;
        if ch =? 58 then
          _ ← step_on;
          ch ← peek 0;
          if negb (is_WS_OR_EOL ch)
          then fail #"a whitespace character is expected after the key-value separator within a block mapping"
          else
            v ← flush_key result v;
            keyTag ← gets n_tag;
            keyNode ← gets n_result;
            mret (Go {| m_keyTag := keyTag; m_keyNode := keyNode; m_valueNode := m_valueNode v; m_explicit := false;
                        m_detected := true; m_over := m_over v |} false)
        else if m_detected v then fail #"can not read an implicit mapping pair; a colon is missed"
        else keep
      else if m_detected v then fail #"can not read a block mapping entry; a multiline key may not be an implicit key"
      else keep.

(** The value after a key, or the key of an explicit pair. *)
Definition mapping_value (nodeIndent : Z) (result : hval) (line : Z) (allowCompact : bool) (v : pairs) : lm pairs :=
  line' ← line_here;
  indent ← lineIndent;
  if (line' =? line) || (nodeIndent <? indent) then
    some ← composeNode nodeIndent CONTEXT_BLOCK_OUT true allowCompact;
    x ← gets n_result;
    let v := if negb some then v
             else {| m_keyTag := m_keyTag v; m_keyNode := if m_explicit v then x else m_keyNode v;
                     m_valueNode := if m_explicit v then m_valueNode v else x; m_explicit := m_explicit v;
                     m_detected := m_detected v; m_over := m_over v |} in
    v ← (if m_explicit v then mret v
         else
           '(_, over) ← storeMappingPair (Some result) (m_over v) (m_keyTag v) (m_keyNode v) (m_valueNode v);
           mret {| m_keyTag := None; m_keyNode := null; m_valueNode := null; m_explicit := false;
                   m_detected := m_detected v; m_over := over |});
    _ ← separate true;
    mret v
  else mret v.

Fixpoint mapping_loop (n : nat) (nodeIndent flowIndent : Z) (result : hval) (tag anchor : option jstr) (v : pairs) : lm half :=
  match n with
  | O => endless
  | S n =>
      ch ← peek 0;
      if ch =? 0 then mret (Stop v)
      else
        line ← line_here;
        h ← mapping_key flowIndent result tag anchor line v;
        match h with
        | Go v allowCompact =>
            v ← mapping_value nodeIndent result line allowCompact v;
            ch ← peek 0;
            indent ← lineIndent;
            if (nodeIndent <? indent) && negb (ch =? 0) then fail #"bad indentation of a mapping entry"
            else if indent <? nodeIndent then mret (Stop v)
            else mapping_loop n nodeIndent flowIndent result tag anchor v
        | _ => mret h
        end
  end.

Definition readBlockMapping (nodeIndent flowIndent : Z) : lm bool :=
  tag ← gets n_tag;
  anchor ← gets n_anchor;
  result ← on_heap (halloc (HObj []));
  _ ← name_anchor result;
  h ← mapping_loop (S (length input)) nodeIndent flowIndent result tag anchor
    {| m_keyTag := None; m_keyNode := null; m_valueNode := null; m_explicit := false; m_detected := false; m_over := [] |};
  match h with
  | Return b => mret b
  | Go v _ | Stop v =>
      v ← flush_key result v;
      if m_detected v then _ ← modify (with_node tag anchor (Some #"mapping") result); mret true else mret false
  end.
End collections.

(** ** Nodes *)

Definition compare_indent (indent parentIndent : Z) : Z :=
  if parentIndent <? indent then 1 else if indent =? parentIndent then 0 else -1.

(** The tag and the anchor of a node; the result is [indentStatus], [atNewLine] and
    [allowBlockCollections]. *)
Fixpoint node_properties (n : nat) (parentIndent : Z) (styles : bool) (status : Z) (newline blocks : bool) : lm (Z * bool * bool) :=
  match n with
  | O => endless
  | S n =>
      t ← readTagProperty;
      a ← (if t : bool then mret true else readAnchorProperty);
      if negb a then mret (status, newline, blocks)
      else
        breaks ← separate true;
        indent ← gets (λ s, c_lineIndent (cur s));
        if breaks =? 0 then node_properties n parentIndent styles status newline false
        else node_properties n parentIndent styles (compare_indent indent parentIndent) true styles
  end.

(** The first of two readers that applies. *)
Definition or_read (a b : lm bool) : lm bool := x ← a; if x : bool then mret true else b.

(** The implicit type of a plain scalar. *)
Fixpoint resolve_implicit (types : list ltype) : lm unit :=
  match types with
  | [] => mret tt
  | t :: types =>
      x ← gets n_result;
      h ← gets objs;
      if lt_resolve t x h then
        y ← on_heap (lt_construct t x);
        _ ← modify (λ s, with_result y (with_tag (Some (lt_tag t)) s));
        name_anchor y
      else resolve_implicit types
  end.

Definition resolve_tag : lm unit :=
  tag ← gets n_tag;
  match tag with
  | None => mret tt
  | Some g =>
      if streq g #"!" then mret tt
      else if streq g #"?" then resolve_implicit implicitTypes
      else match pget typeMap g with
           | None => fail (#"unknown tag !<" ++ g ++ #">")
           | Some t =>
               x ← gets n_result;
               h ← gets objs;
               k ← gets n_kind;
               let is_null := match x with HV VNull => true | _ => false end in
               if negb is_null && negb (bool_decide (k = Some (lt_kind t)))
               then fail (#"unacceptable node kind for !<" ++ g ++ #"> tag; it should be " ++ [34] ++ lt_kind t ++ [34]
                          ++ #", not " ++ [34] ++ default #"null" k ++ [34])
               else if negb (lt_resolve t x h) then fail (#"cannot resolve a node with !<" ++ g ++ #"> explicit tag")
               else y ← on_heap (lt_construct t x); _ ← modify (with_result y); name_anchor y
           end
  end.

(** The content of a node that is not a collection. *)
Definition read_scalar (flowIndent : Z) (allowBlockScalars flow_in : bool) : lm bool :=
  found ← or_read (if allowBlockScalars then scalar (readBlockScalar input filename flowIndent) else mret false)
            (or_read (scalar (readSingleQuotedScalar input filename)) (scalar (readDoubleQuotedScalar input filename)));
  found ←
    (if found : bool then mret true
     else
       alias ← readAlias;
       if alias : bool then
         tag ← gets n_tag;
         anchor ← gets n_anchor;
         if bool_decide (tag = None) && bool_decide (anchor = None) then mret true
         else fail #"alias node should not have any properties"
       else
         some ← scalar (readPlainScalar input filename flowIndent flow_in);
         _ ← (if some : bool then modify (λ s, match n_tag s with None => with_tag (Some #"?") s | Some _ => s end) else mret tt);
         mret some);
  x ← gets n_result;
  _ ← name_anchor x;
  mret found.

Definition is_block (x : context) : bool := match x with CONTEXT_BLOCK_IN | CONTEXT_BLOCK_OUT => true | _ => false end.
Definition is_block_out (x : context) : bool := match x with CONTEXT_BLOCK_OUT => true | _ => false end.
Definition is_flow_in (x : context) : bool := match x with CONTEXT_FLOW_IN => true | _ => false end.

Fixpoint composeNode (n : nat) (parentIndent : Z) (nodeContext : context) (allowToSeek allowCompact : bool) : lm bool :=
  match n with
  | O => endless
  | S n =>
      _ ← modify (with_node None None None null);
      let styles := is_block nodeContext in
      '(status, newline) ←
        (if allowToSeek then
           breaks ← separate true;
           indent ← gets (λ s, c_lineIndent (cur s));
           mret (if breaks =? 0 then (1, false) else (compare_indent indent parentIndent, true))
         else mret (1, false));
      '(status, newline, blocks) ←
        (if status =? 1 then node_properties (S (length input)) parentIndent styles status newline styles
         else mret (status, newline, styles));
      let blocks := blocks && (newline || allowCompact) in
      hasContent ←
        (if (status =? 1) || is_block_out nodeContext then
           let flowIndent := if styles then parentIndent + 1 else parentIndent in
           blockIndent ← gets (λ s, Z.of_nat (c_position (cur s)) - Z.of_nat (c_lineStart (cur s)));
           if status =? 1 then
             collection ←
               or_read (if blocks then or_read (readBlockSequence (composeNode n) blockIndent)
                                         (readBlockMapping (composeNode n) blockIndent flowIndent)
                        else mret false)
                 (readFlowCollection (composeNode n) flowIndent);
             if collection : bool then mret true else read_scalar flowIndent styles (is_flow_in nodeContext)
           else if (status =? 0) && blocks then readBlockSequence (composeNode n) blockIndent
           else mret false
         else mret false);
      _ ← resolve_tag;
      tag ← gets n_tag;
      anchor ← gets n_anchor;
      mret (negb (bool_decide (tag = None)) || negb (bool_decide (anchor = None)) || hasContent)
  end.

(** ** Documents *)

Definition handleYamlDirective (args : list jstr) : lm unit :=
  version ← gets l_version;
  if negb (bool_decide (version = None)) then fail #"duplication of %YAML directive"
  else
    match args with
    | [arg] =>
        match split #"." arg with
        | [major; minor] =>
            let digits d := negb (streq d []) && forallb is_digit d in
            if digits major && digits minor then
              if negb (digits_value major =? 1) then fail #"unacceptable YAML version of the document"
              else modify (λ s, with_directives (Some arg) (digits_value minor <? 2) (tagMap s) (anchorMap s) s)
            else fail #"ill-formed argument of the YAML directive"
        | _ => fail #"ill-formed argument of the YAML directive"
        end
    | _ => fail #"YAML directive accepts exactly one argument"
    end.

Definition handleTagDirective (args : list jstr) : lm unit :=
  match args with
  | [handle; prefix] =>
      tags ← gets tagMap;
      if negb (tag_handle_ok handle) then fail #"ill-formed tag handle (first argument) of the TAG directive"
      else if negb (bool_decide (pget tags handle = None))
           then fail (#"there is a previously declared suffix for " ++ [34] ++ handle ++ [34] ++ #" tag handle")
      else if negb (tag_uri_ok prefix) then fail #"ill-formed tag prefix (second argument) of the TAG directive"
      else modify (λ s, with_directives (l_version s) (checkLineBreaks s) (pset handle prefix (tagMap s)) (anchorMap s) s)
  | _ => fail #"TAG directive accepts exactly two arguments"
  end.

Definition in_word (x : Z) : bool := negb (x =? 0) && negb (is_WS_OR_EOL x).

(** The arguments of a directive. *)
Fixpoint directive_args (n : nat) (args : list jstr) : lm (list jstr) :=
  match n with
  | O => endless
  | S n =>
      ch ← peek 0;
      if ch =? 0 then mret args
      else
        p ← position_here;
        _ ← go_to (skip input is_WHITE_SPACE p);
        ch ← peek 0;
        p ← position_here;
        if ch =? 35 then _ ← go_to (skip input not_EOL (S p)); mret args
        else if is_EOL ch then mret args
        else
          _ ← go_to (skip input in_word p);
          q ← position_here;
          directive_args n (args ++ [slice input p q])
  end.

(** The directives of a document: whether there are any. *)
Fixpoint directives (n : nat) (hasDirectives : bool) : lm bool :=
  match n with
  | O => endless
  | S n =>
      ch ← peek 0;
      if ch =? 0 then mret hasDirectives
      else
        _ ← separate true;
        ch ← peek 0;
        indent ← gets (λ s, c_lineIndent (cur s));
        if (0 <? indent) || negb (ch =? 37) then mret hasDirectives
        else
          _ ← step_on;
          p ← position_here;
          _ ← go_to (skip input in_word p);
          q ← position_here;
          let name := slice input p q in
          if streq name [] then fail #"directive name must not be less than one character in length"
          else
            args ← directive_args (S (length input)) [];
            ch ← peek 0;
            _ ← (if ch =? 0 then mret tt else line_break);
            _ ← (if streq name #"YAML" then handleYamlDirective args
                 else if streq name #"TAG" then handleTagDirective args else mret tt);
            directives n true
  end.

Definition readDocument : lm unit :=
  _ ← modify (with_directives None legacy [] []);
  hasDirectives ← directives (S (length input)) false;
  _ ← separate true;
  indent ← gets (λ s, c_lineIndent (cur s));
  a ← peek 0; b ← peek 1; c ← peek 2;
  _ ← (if (indent =? 0) && (a =? 45) && (b =? 45) && (c =? 45) then
         p ← position_here; _ ← go_to (p + 3); _ ← separate true; mret tt
       else if hasDirectives : bool then fail #"directives end mark is expected" else mret tt);
  indent ← gets (λ s, c_lineIndent (cur s));
  _ ← composeNode (S (length input)) (indent - 1) CONTEXT_BLOCK_OUT false true;
  _ ← separate true;
  _ ← modify (λ s, with_documents (documents s ++ [n_result s]) s);
  at_sep ← gets (λ s, at_separator input (cur s));
  if at_sep : bool then
    ch ← peek 0;
    if ch =? 46 then p ← position_here; _ ← go_to (p + 3); _ ← separate true; mret tt else mret tt
  else
    p ← position_here;
    if (S (S p) <? length input)%nat then fail #"end of the stream or a document separator is expected" else mret tt.

Fixpoint read_documents (n : nat) : lm unit :=
  match n with
  | O => endless
  | S n =>
      p ← position_here;
      if (S (S p) <? length input)%nat then _ ← readDocument; read_documents n else mret tt
  end.
End loader.

(** The text with a line break at its end and without a byte order mark, and the
    terminator after it. *)
Definition prepare (input : jstr) : jstr :=
  match input with
  | [] => []
  | _ =>
      let s := if is_EOL (List.last input 0) then input else input ++ [10] in
      match s with 65279 :: t => t | _ => s end
  end.

Section load.
Context (filename : jstr) (json legacy : bool) (implicitTypes : list ltype) (typeMap : list (jstr * ltype)).

Definition first_state (input : jstr) (h : heap) : lstate :=
  let p := skip input is_SPACE 0 in
  {| cur := {| c_position := p; c_line := 0; c_lineStart := 0; c_lineIndent := Z.of_nat p |};
     n_tag := None; n_anchor := None; n_kind := None; n_result := undefined; l_version := None; checkLineBreaks := false;
     tagMap := []; anchorMap := []; documents := []; objs := h |}.

(** [loadDocuments]: the documents, in a heap. *)
Definition loadDocuments (input : jstr) : hm (list hval) := λ h,
  let input := prepare input ++ [0] in
  '(_, s) ← read_documents input filename json legacy implicitTypes typeMap (S (length input)) (first_state input h);
  Ok (documents s, objs s).

Definition load (input : jstr) : hm hval :=
  l ← loadDocuments input;
  match l with
  | [] => mret undefined
  | [x] => mret x
  | _ => hthrow (JsError #"expected a single document in the stream, but found more")
  end.
End load.
