(* ===== verification/YamlDump.v ===== *)
(** * js-yaml: the dumper

    The styles of scalars and their text, flow and block collections, references to
    objects that occur several times, and the entry point. Objects are those of a
    heap. The types of the schema are given by their functions. *)

From S2P Require Import Prelude JsValue JsHeap YamlTypes.

(** ** Units *)

Definition isWhitespace (c : Z) : bool := (c =? 32) || (c =? 9).

Definition isPrintable (c : Z) : bool :=
  ((32 <=? c) && (c <=? 126))
  || ((161 <=? c) && (c <=? 55295) && negb (c =? 8232) && negb (c =? 8233))
  || ((57344 <=? c) && (c <=? 65533) && negb (c =? 65279))
  || ((65536 <=? c) && (c <=? 1114111)).

Definition isPlainSafe (c : Z) : bool :=
  isPrintable c && negb (c =? 65279) && negb (c =? 44) && negb (c =? 91) && negb (c =? 93) && negb (c =? 123)
  && negb (c =? 125) && negb (c =? 58) && negb (c =? 35).

Definition isPlainSafeFirst (c : Z) : bool :=
  isPrintable c && negb (c =? 65279) && negb (isWhitespace c)
  && negb (c =? 45) && negb (c =? 63) && negb (c =? 58) && negb (c =? 44) && negb (c =? 91) && negb (c =? 93)
  && negb (c =? 123) && negb (c =? 125) && negb (c =? 35) && negb (c =? 38) && negb (c =? 42) && negb (c =? 33)
  && negb (c =? 124) && negb (c =? 62) && negb (c =? 39) && negb (c =? 34) && negb (c =? 37) && negb (c =? 64)
  && negb (c =? 96).

(** [ESCAPE_SEQUENCES]: the letter after the backslash. *)
Definition ESCAPE_SEQUENCES : list (Z * Z) :=
  [(0, 48); (7, 97); (8, 98); (9, 116); (10, 110); (11, 118); (12, 102); (13, 114); (27, 101); (34, 34); (92, 92);
   (133, 78); (160, 95); (8232, 76); (8233, 80)].
Definition escape_letter (c : Z) : option Z := snd <$> List.find (λ p, p.1 =? c) ESCAPE_SEQUENCES.

Definition DEPRECATED_BOOLEANS_SYNTAX : list jstr :=
  [ #"y"; #"Y"; #"yes"; #"Yes"; #"YES"; #"on"; #"On"; #"ON"; #"n"; #"N"; #"no"; #"No"; #"NO"; #"off"; #"Off"; #"OFF"].

(** [encodeHex] of a unit, which is at most 0xFFFF. *)
Definition encodeHex (character : Z) : jstr :=
  let string := to_upper (to_radix 16 character) in
  let '(handle, len) := if character <=? 255 then (120, 2%nat) else (117, 4%nat) in
  [92; handle] ++ replicate (len - length string) 48 ++ string.

Definition escape_unit (c : Z) : jstr :=
  match escape_letter c with
  | Some e => [92; e]
  | None => if isPrintable c then [c] else encodeHex c
  end.
Definition escapeString (string : jstr) : jstr := concat (map escape_unit string).

(** ** The style of a scalar *)

Inductive scalar_style := STYLE_PLAIN | STYLE_SINGLE | STYLE_LITERAL | STYLE_FOLDED | STYLE_DOUBLE.

Definition unit_at (s : jstr) (i : Z) : Z := if i <? 0 then -1 else default (-1) (s !! Z.to_nat i).

(** A line from after [previous] to [i] that is too long and not more indented. *)
Definition foldable (string : jstr) (lineWidth previous i : Z) : bool :=
  (lineWidth <? i - previous - 1) && negb (unit_at string (previous + 1) =? 32).

(** The loop when block styles are permitted: [None] when a unit must be escaped. *)
Fixpoint style_loop (string : jstr) (lineWidth : Z) (rest : jstr) (i previous : Z) (hasLineBreak hasFoldable plain : bool)
    : option (Z * Z * bool * bool * bool) :=
  match rest with
  | [] => Some (i, previous, hasLineBreak, hasFoldable, plain)
  | c :: rest =>
      let plain := plain && isPlainSafe c in
      if c =? 10 then
        if negb (lineWidth =? -1) then
          style_loop string lineWidth rest (i + 1) i true (hasFoldable || foldable string lineWidth previous i) plain
        else style_loop string lineWidth rest (i + 1) previous true hasFoldable plain
      else if negb (isPrintable c) then None
      else style_loop string lineWidth rest (i + 1) previous hasLineBreak hasFoldable plain
  end.

Definition chooseScalarStyle (string : jstr) (singleLineOnly : bool) (indentPerLevel lineWidth : Z)
    (testAmbiguousType : jstr → bool) : scalar_style :=
  let plain := isPlainSafeFirst (unit_at string 0) && negb (isWhitespace (List.last string (-1))) in
  let one_line plain := if plain && negb (testAmbiguousType string) then STYLE_PLAIN else STYLE_SINGLE in
  if singleLineOnly then
    if forallb isPrintable string then one_line (plain && forallb isPlainSafe string) else STYLE_DOUBLE
  else
    match style_loop string lineWidth string 0 (-1) false false plain with
    | None => STYLE_DOUBLE
    | Some (i, previous, hasLineBreak, hasFoldable, plain) =>
        let hasFoldable := hasFoldable || (negb (lineWidth =? -1) && foldable string lineWidth previous i) in
        if negb hasLineBreak && negb hasFoldable then one_line plain
        else if (unit_at string 0 =? 32) && (9 <? indentPerLevel) then STYLE_DOUBLE
        else if hasFoldable then STYLE_FOLDED else STYLE_LITERAL
    end.

(** ** Block scalars *)

Definition blockHeader (string : jstr) (indentPerLevel : Z) : jstr :=
  let n := Z.of_nat (length string) in
  let indentIndicator := if unit_at string 0 =? 32 then str_of_Z indentPerLevel else [] in
  let clip := unit_at string (n - 1) =? 10 in
  let keep := clip && ((unit_at string (n - 2) =? 10) || streq string [10]) in
  indentIndicator ++ (if keep then #"+" else if clip then [] else #"-") ++ [10].

Definition dropEndingNewline (string : jstr) : jstr :=
  if unit_at string (Z.of_nat (length string) - 1) =? 10 then removelast string else string.

(** [indentString]: the lines, each with its line break, indented unless empty. *)
Fixpoint indent_lines (ind : jstr) (line rest : jstr) : jstr :=
  match rest with
  | [] => match line with [] => [] | _ => ind ++ line end
  | c :: rest =>
      if c =? 10 then (match line with [] => [] | _ => ind ++ line end) ++ [10] ++ indent_lines ind [] rest
      else indent_lines ind (line ++ [c]) rest
  end.
Definition indentString (string : jstr) (spaces : Z) : jstr := indent_lines (replicate (Z.to_nat spaces) 32) [] string.

(** The matches of [/ [^ ]/g]. *)
Definition break_points (line : jstr) : list Z :=
  map Z.of_nat (List.filter (λ i, (unit_at line (Z.of_nat i) =? 32) && (S i <? length line)%nat
                                  && negb (unit_at line (Z.of_nat i + 1) =? 32)) (seq 0 (length line))).

Definition str_between (s : jstr) (a b : Z) : jstr := take (Z.to_nat (b - a)) (drop (Z.to_nat a) s).

(** Greedy line breaking. *)
Definition fold_step (line : jstr) (width : Z) (acc : Z * Z * jstr) (next : Z) : Z * Z * jstr :=
  let '(start, curr, result) := acc in
  if width <? next - start then
    let fin := if start <? curr then curr else next in
    (fin + 1, next, result ++ [10] ++ str_between line start fin)
  else (start, next, result).

Definition foldLine (line : jstr) (width : Z) : jstr :=
  match line with
  | [] | 32 :: _ => line
  | _ =>
      let '(start, curr, result) := fold_left (fold_step line width) (break_points line) (0, 0, []) in
      let n := Z.of_nat (length line) in
      tail (result ++ [10] ++
        (if (width <? n - start) && (start <? curr)
         then str_between line start curr ++ [10] ++ str_between line (curr + 1) n
         else str_between line start n))
  end.

Fixpoint run_of (f : Z → bool) (s : jstr) : jstr :=
  match s with c :: t => if f c then c :: run_of f t else [] | [] => [] end.

(** The chunks of a text after its first line: line breaks and a line. *)
Fixpoint fold_chunks (n : nat) (width : Z) (s : jstr) (prevMoreIndented : bool) : jstr :=
  match n, s with
  | S n, _ :: _ =>
      let prefix := run_of (Z.eqb 10) s in
      let line := run_of (λ c, negb (c =? 10)) (drop (length prefix) s) in
      let moreIndented := unit_at line 0 =? 32 in
      prefix ++ (if negb prevMoreIndented && negb moreIndented && negb (streq line []) then [10] else [])
      ++ foldLine line width
      ++ fold_chunks n width (drop (length prefix + length line) s) moreIndented
  | _, _ => []
  end.

Definition foldString (string : jstr) (width : Z) : jstr :=
  let first := run_of (λ c, negb (c =? 10)) string in
  foldLine first width
  ++ fold_chunks (length string) width (drop (length first) string)
       ((unit_at string 0 =? 10) || (unit_at string 0 =? 32)).

(** ** Scalars *)

(** A function that represents values of a type, or one for each style. *)
Inductive representation :=
  | RFun (f : hval → jstr → hm hval)
  | RStyles (fs : list (jstr * (hval → jstr → hm hval))).

(** A type: its tag, its test ([instanceOf] and [predicate]), whether a text is read
    as a value of it, and its representation. *)
Record dtype := {
  dt_tag : jstr;
  dt_test : option (hval → heap → bool);
  dt_resolve : jstr → bool;
  dt_represent : option representation;
  dt_defaultStyle : jstr;
  dt_styleAliases : list (jstr * jstr);
}.

Inductive sort_keys := NoSort | DefaultSort | SortWith (sort : list jstr → list jstr) | NotAFunction.

(** The options of the dumper. *)
Record dump_options := {
  o_indent : Z;
  o_skipInvalid : bool;
  o_flowLevel : Z;
  o_styleMap : list (jstr * jstr);
  o_sortKeys : sort_keys;
  o_lineWidth : Z;
  o_noRefs : bool;
  o_noCompatMode : bool;
  o_implicit : list dtype;
  o_explicit : list dtype;
}.

(** [compileStyleMap] *)
Definition compile_style (typeMap : list (jstr * dtype)) (result : list (jstr * jstr)) (p : jstr * value) : list (jstr * jstr) :=
  let style := to_string p.2 in
  let tag := if streq (take 2 p.1) #"!!" then #"tag:yaml.org,2002:" ++ drop 2 p.1 else p.1 in
  let style := match pget typeMap tag with Some t => default style (pget (dt_styleAliases t) style) | None => style end in
  pset tag style result.
Definition compileStyleMap (typeMap : list (jstr * dtype)) (map : list (jstr * value)) : list (jstr * jstr) :=
  fold_left (compile_style typeMap) (enum map) [].

Section dump.
Context (o : dump_options).

Definition testImplicitResolving (s : jstr) : bool := existsb (λ t, dt_resolve t s) (o_implicit o).

Definition single_quoted (s : jstr) : jstr := [39] ++ replace_all #"'" #"''" s ++ [39].

Definition writeScalar (string : jstr) (level : Z) (iskey : bool) : jstr :=
  match string with
  | [] => #"''"
  | _ =>
      if negb (o_noCompatMode o) && existsb (streq string) DEPRECATED_BOOLEANS_SYNTAX then [39] ++ string ++ [39]
      else
        let indent := o_indent o * Z.max 1 level in
        let lineWidth := if o_lineWidth o =? -1 then -1
                         else Z.max (Z.min (o_lineWidth o) 40) (o_lineWidth o - indent) in
        let singleLineOnly := iskey || ((-1 <? o_flowLevel o) && (o_flowLevel o <=? level)) in
        match chooseScalarStyle string singleLineOnly (o_indent o) lineWidth testImplicitResolving with
        | STYLE_PLAIN => string
        | STYLE_SINGLE => single_quoted string
        | STYLE_LITERAL => #"|" ++ blockHeader string (o_indent o) ++ dropEndingNewline (indentString string indent)
        | STYLE_FOLDED => #">" ++ blockHeader string (o_indent o)
                          ++ dropEndingNewline (indentString (foldString string lineWidth) indent)
        | STYLE_DOUBLE => [34] ++ escapeString string ++ [34]
        end
  end.

(** ** Nodes *)

(** The variables of the dumper's state that change: [tag], [dump],
    [usedDuplicates], and the heap. *)
Record dstate := { d_tag : option jstr; d_dump : hval; d_used : list bool; d_heap : heap }.

Definition dm (A : Type) := dstate → res (A * dstate).
#[export] Instance dm_ret : MRet dm := fun A a s => Ok (a, s).
#[export] Instance dm_bind : MBind dm := fun A B f m s =>
  match m s with Ok (a, s') => f a s' | Throw e => Throw e end.

Definition state {A} (f : dstate → A) : dm A := λ s, Ok (f s, s).
Definition set_tag (t : option jstr) : dm unit := λ s,
  Ok (tt, {| d_tag := t; d_dump := d_dump s; d_used := d_used s; d_heap := d_heap s |}).
Definition set_dump (x : hval) : dm unit := λ s,
  Ok (tt, {| d_tag := d_tag s; d_dump := x; d_used := d_used s; d_heap := d_heap s |}).
Definition dump_text (t : jstr) : dm unit := set_dump (HV (VStr t)).
Definition mark_used (i : nat) : dm unit := λ s,
  Ok (tt, {| d_tag := d_tag s; d_dump := d_dump s; d_used := <[i := true]> (d_used s); d_heap := d_heap s |}).
Definition heap_do {A} (m : hm A) : dm A := λ s,
  '(a, h) ← m (d_heap s);
  Ok (a, {| d_tag := d_tag s; d_dump := d_dump s; d_used := d_used s; d_heap := h |}).
Definition yaml_error {A} (reason : jstr) : dm A := λ _, Throw (JsError reason).

Fixpoint dfold {A B} (f : A → B → dm A) (l : list B) (a : A) : dm A :=
  match l with
  | [] => mret a
  | b :: l => a' ← f a b; dfold f l a'
  end.

(** The text a node has left in [state.dump]. *)
Definition dumped : dm jstr := state (λ s, match d_dump s with HV (VStr t) => t | _ => [] end).

Definition generateNextLine (level : Z) : jstr := [10] ++ replicate (Z.to_nat (o_indent o * level)) 32.

(** The style a type represents a value in. *)
Definition represent_with (t : dtype) (r : representation) (object : hval) : dm hval :=
  let style := match pget (o_styleMap o) (dt_tag t) with Some (c :: s) => c :: s | _ => dt_defaultStyle t end in
  match r with
  | RFun f => heap_do (f object style)
  | RStyles fs =>
      match pget fs style with
      | Some f => heap_do (f object style)
      | None => yaml_error (#"!<" ++ dt_tag t ++ #"> tag resolver accepts not " ++ [34] ++ style ++ [34] ++ #" style")
      end
  end.

Fixpoint detectType (types : list dtype) (explicit : bool) (object : hval) : dm bool :=
  match types with
  | [] => mret false
  | t :: types =>
      h ← state d_heap;
      if match dt_test t with Some f => f object h | None => false end then
        _ ← set_tag (Some (if explicit then dt_tag t else #"?"));
        _ ← (match dt_represent t with
             | Some r => x ← represent_with t r object; set_dump x
             | None => mret tt
             end);
        mret true
      else detectType types explicit object
  end.

(** The default order of [sort]: by units. *)
Fixpoint unit_le (a b : jstr) : bool :=
  match a, b with
  | [], _ => true
  | _, [] => false
  | x :: a, y :: b => (x <? y) || ((x =? y) && unit_le a b)
  end.
Fixpoint insert_key (k : jstr) (l : list jstr) : list jstr :=
  match l with
  | [] => [k]
  | k' :: l' => if unit_le k k' then k :: l else k' :: insert_key k l'
  end.

Definition order_keys (ks : list jstr) : dm (list jstr) :=
  match o_sortKeys o with
  | NoSort => mret ks
  | DefaultSort => mret (foldr insert_key [] ks)
  | SortWith f => mret (f ks)
  | NotAFunction => yaml_error #"sortKeys must be a boolean or a function"
  end.

Section nodes.
(** [writeNode], by level, object, [block], [compact] and [iskey]. *)
Context (writeNode : Z → hval → bool → bool → bool → dm bool).

Definition writeFlowSequence (level : Z) (object : hval) : dm unit :=
  tag ← state d_tag;
  l ← heap_do (elements object);
  '(_, result) ← dfold (λ acc x,
    let '(index, result) := acc in
    ok ← writeNode level x false false false;
    t ← dumped;
    mret (S index, if ok : bool then result ++ (if (index =? 0)%nat then [] else #", ") ++ t else result)) l (0%nat, []);
  _ ← set_tag tag;
  dump_text (#"[" ++ result ++ #"]").

Definition writeBlockSequence (level : Z) (object : hval) (compact : bool) : dm unit :=
  tag ← state d_tag;
  l ← heap_do (elements object);
  '(_, result) ← dfold (λ acc x,
    let '(index, result) := acc in
    ok ← writeNode (level + 1) x true true false;
    t ← dumped;
    mret (S index, if ok : bool
                   then result ++ (if negb compact || negb (index =? 0)%nat then generateNextLine level else []) ++ #"- " ++ t
                   else result)) l (0%nat, []);
  _ ← set_tag tag;
  dump_text (match result with [] => #"[]" | _ => result end).

Definition writeFlowMapping (level : Z) (object : hval) : dm unit :=
  tag ← state d_tag;
  ks ← heap_do (hkeys object);
  '(_, result) ← dfold (λ acc key,
    let '(index, result) := acc in
    x ← heap_do (hget object key);
    ok ← writeNode level (HV (VStr key)) false false false;
    if negb ok then mret (S index, result)
    else
      k ← dumped;
      ok ← writeNode level x false false false;
      v ← dumped;
      mret (S index, if ok : bool
                     then result ++ (if (index =? 0)%nat then [] else #", ")
                          ++ (if (1024 <? length k)%nat then #"? " else []) ++ k ++ #": " ++ v
                     else result)) ks (0%nat, []);
  _ ← set_tag tag;
  dump_text (#"{" ++ result ++ #"}").

Definition writeBlockMapping (level : Z) (object : hval) (compact : bool) : dm unit :=
  tag ← state d_tag;
  ks ← heap_do (hkeys object);
  ks ← order_keys ks;
  '(_, result) ← dfold (λ acc key,
    let '(index, result) := acc in
    let before := if negb compact || negb (index =? 0)%nat then generateNextLine level else [] in
    x ← heap_do (hget object key);
    ok ← writeNode (level + 1) (HV (VStr key)) true true true;
    if negb ok then mret (S index, result)
    else
      k ← dumped;
      t ← state d_tag;
      let explicitPair := (negb (bool_decide (t = None)) && negb (bool_decide (t = Some #"?"))) || (1024 <? length k)%nat in
      let key_text := (if explicitPair then match k with 10 :: _ => #"?" | _ => #"? " end else []) ++ k
                      ++ (if explicitPair then generateNextLine level else []) in
      ok ← writeNode (level + 1) x true explicitPair false;
      v ← dumped;
      mret (S index, if ok : bool
                     then result ++ before ++ key_text ++ (match v with 10 :: _ => #":" | _ => #": " end) ++ v
                     else result)) ks (0%nat, []);
  _ ← set_tag tag;
  dump_text (match result with [] => #"{}" | _ => result end).

Definition type_name (x : hval) : jstr :=
  match x with
  | HV VUndef => #"[object Undefined]"
  | HV VNull => #"[object Null]"
  | HV (VBool _) => #"[object Boolean]"
  | HV (VNum _ | VDbl _) => #"[object Number]"
  | _ => #"[object Object]"
  end.

Definition ref_name (i : nat) : jstr := #"ref_" ++ str_of_Z (Z.of_nat i).

(** The name before an object that occurs several times. *)
Definition anchored (dup : option nat) (sep : jstr) : dm unit :=
  match dup with
  | Some i => t ← dumped; dump_text (#"&" ++ ref_name i ++ sep ++ t)
  | None => mret tt
  end.

(** The indices of an array. *)
Definition array_keys (x : hval) (h : heap) : list jstr :=
  match x with HL l => match h !! l with Some (HArr es _) => indices es | _ => [] end | HV _ => [] end.

(** The second half of [writeNode]: the text of [state.dump], which is [d]. *)
Definition write_content (level : Z) (d : hval) (dup : option nat) (block compact iskey : bool) : dm bool :=
  h ← state d_heap;
  tag ← state d_tag;
  let tagged := negb (bool_decide (tag = None)) && negb (bool_decide (tag = Some #"?")) in
  written ←
    (match d with
     | HL _ =>
         let empty := match (if h_array d h then array_keys d h else keys_in d h) with [] => true | _ => false end in
         if h_array d h then
           if block && negb empty then _ ← writeBlockSequence level d compact; _ ← anchored dup []; mret true
           else _ ← writeFlowSequence level d; _ ← anchored dup #" "; mret true
         else
           if block && negb empty then _ ← writeBlockMapping level d compact; _ ← anchored dup []; mret true
           else _ ← writeFlowMapping level d; _ ← anchored dup #" "; mret true
     | HV (VStr t) =>
         if bool_decide (tag = Some #"?") then mret true
         else _ ← dump_text (writeScalar t level iskey); mret true
     | HV _ =>
         if o_skipInvalid o then mret false
         else yaml_error (#"unacceptable kind of an object to dump " ++ type_name d)
     end);
  if written && tagged then t ← dumped; _ ← dump_text (#"!<" ++ default [] tag ++ #"> " ++ t); mret true
  else mret written.
End nodes.

(** The position of an object among those that occur several times. *)
Definition duplicate_index (duplicates : list loc) (x : hval) : option nat :=
  match x with HL l => fst <$> list_find (λ m, m = l) duplicates | HV _ => None end.

(** [writeNode]; [n] bounds the depth. *)
Fixpoint writeNode (n : nat) (duplicates : list loc) (level : Z) (object : hval) (block compact iskey : bool) : dm bool :=
  match n with
  | O => λ _, stack_overflow
  | S n =>
      _ ← set_tag None;
      _ ← set_dump object;
      found ← detectType (o_implicit o) false object;
      _ ← (if found : bool then mret true else detectType (o_explicit o) true object);
      d ← state d_dump;
      tag ← state d_tag;
      used ← state d_used;
      let block := block && ((o_flowLevel o <? 0) || (level <? o_flowLevel o)) in
      let tagged := negb (bool_decide (tag = None)) && negb (bool_decide (tag = Some #"?")) in
      let dup := if h_object d then duplicate_index duplicates object else None in
      let compact := compact && negb (tagged || negb (bool_decide (dup = None)) || (negb (o_indent o =? 2) && (0 <? level))) in
      match dup with
      | None => write_content (writeNode n duplicates) level d None block compact iskey
      | Some i =>
          if default false (used !! i) then _ ← dump_text (#"*" ++ ref_name i); mret true
          else _ ← mark_used i; write_content (writeNode n duplicates) level d dup block compact iskey
      end
  end.

(** [inspectNode]: the objects in the order they are met, and the positions of those
    that are met again; an object is entered once. *)
Fixpoint inspectNode (n : nat) (h : heap) (object : hval) (acc : list loc * list nat) : res (list loc * list nat) :=
  match n, object with
  | _, HV _ => Ok acc
  | O, _ => stack_overflow
  | S n, HL l =>
      let '(objects, dups) := acc in
      match list_find (λ m, m = l) objects with
      | Some (i, _) => Ok (objects, if bool_decide (i ∈ dups) then dups else dups ++ [i])
      | None =>
          fold_res (λ acc k, x ← look object k h; inspectNode n h x acc)
            (if h_array object h then array_keys object h else keys_in object h) (objects ++ [l], dups)
      end
  end.

Definition getDuplicateReferences (h : heap) (object : hval) : res (list loc) :=
  match inspectNode (S (length h)) h object ([], []) with
  | Ok (objects, dups) => Ok (omap (λ i, objects !! i) dups)
  | Throw e => Throw e
  end.

Definition dump (input : hval) (h : heap) : res jstr :=
  duplicates ← (if o_noRefs o then Ok [] else getDuplicateReferences h input);
  '(ok, s) ← writeNode (S (S (length h))) duplicates 0 input true true false
    {| d_tag := None; d_dump := undefined; d_used := replicate (length duplicates) false; d_heap := h |};
  Ok (if ok : bool then (match d_dump s with HV (VStr t) => t | _ => [] end) ++ [10] else []).
End dump.
