(* ===== verification/YamlCore.v ===== *)
(** * js-yaml: the types of scalars in the schema

    The objects [new Type(...)] of the types str, null, bool, int and merge, as the
    loader and the dumper use them, over the functions of the types. The loader calls
    them with the text of a scalar, or with [null] for an empty node. *)

From S2P Require Import Prelude JsValue JsHeap YamlTypes YamlLoader YamlDump.

Definition scalar_data (x : hval) : option jstr := match x with HV (VStr s) => Some s | _ => None end.

Definition yaml_tag (name : jstr) : jstr := #"tag:yaml.org,2002:" ++ name.

(** ** What the loader uses *)

Definition load_str : ltype :=
  {| lt_tag := yaml_tag #"str"; lt_kind := #"scalar"; lt_resolve _ _ := true;
     lt_construct x := mret (HV (VStr (default [] (scalar_data x)))) |}.

Definition load_null : ltype :=
  {| lt_tag := yaml_tag #"null"; lt_kind := #"scalar"; lt_resolve x _ := resolveYamlNull (scalar_data x);
     lt_construct _ := mret null |}.

Definition load_bool : ltype :=
  {| lt_tag := yaml_tag #"bool"; lt_kind := #"scalar"; lt_resolve x _ := resolveYamlBoolean (scalar_data x);
     lt_construct x := mret (HV (VBool (constructYamlBoolean (default [] (scalar_data x))))) |}.

(** A text of an integer that is not a number is [NaN]. *)
Definition load_int : ltype :=
  {| lt_tag := yaml_tag #"int"; lt_kind := #"scalar"; lt_resolve x _ := resolveYamlInteger (scalar_data x);
     lt_construct x := mret (HV (match constructYamlInteger (default [] (scalar_data x)) with
                                 | Some n => VNum n
                                 | None => VDbl #"NaN"
                                 end)) |}.

Definition load_merge : ltype :=
  {| lt_tag := yaml_tag #"merge"; lt_kind := #"scalar"; lt_resolve x _ := resolveYamlMerge (scalar_data x);
     lt_construct x := mret x |}.

(** ** What the dumper uses *)

Definition text_of (t : jstr) : hm hval := mret (HV (VStr t)).

Definition dump_str : dtype :=
  {| dt_tag := yaml_tag #"str"; dt_test := None; dt_resolve _ := true; dt_represent := None;
     dt_defaultStyle := []; dt_styleAliases := [] |}.

Definition dump_null : dtype :=
  {| dt_tag := yaml_tag #"null";
     dt_test := Some (λ x _, match x with HV VNull => true | _ => false end);
     dt_resolve s := resolveYamlNull (Some s);
     dt_represent := Some (RStyles [(#"canonical", λ _ _, text_of (representYamlNull Canonical));
                                    (#"lowercase", λ _ _, text_of (representYamlNull Lowercase));
                                    (#"uppercase", λ _ _, text_of (representYamlNull Uppercase));
                                    (#"camelcase", λ _ _, text_of (representYamlNull Camelcase))]);
     dt_defaultStyle := #"lowercase"; dt_styleAliases := [] |}.

(** The functions are called on values of the type only. *)
Definition dump_of_bool (st : style) (x : hval) (_ : jstr) : hm hval :=
  match x with
  | HV (VBool b) => match representYamlBoolean st b with Some t => text_of t | None => hthrow TypeError end
  | _ => hthrow TypeError
  end.
Definition dump_bool : dtype :=
  {| dt_tag := yaml_tag #"bool";
     dt_test := Some (λ x _, match x with HV (VBool _) => true | _ => false end);
     dt_resolve s := resolveYamlBoolean (Some s);
     dt_represent := Some (RStyles [(#"lowercase", dump_of_bool Lowercase); (#"uppercase", dump_of_bool Uppercase);
                                    (#"camelcase", dump_of_bool Camelcase)]);
     dt_defaultStyle := #"lowercase"; dt_styleAliases := [] |}.

Definition dump_of_int (st : int_style) (x : hval) (_ : jstr) : hm hval :=
  match x with HV (VNum n) => text_of (representYamlInteger st n) | _ => hthrow TypeError end.
Definition dump_int : dtype :=
  {| dt_tag := yaml_tag #"int";
     dt_test := Some (λ x _, match x with HV (VNum _) => true | _ => false end);
     dt_resolve s := resolveYamlInteger (Some s);
     dt_represent := Some (RStyles [(#"binary", dump_of_int Binary); (#"octal", dump_of_int Octal);
                                    (#"decimal", dump_of_int Decimal); (#"hexadecimal", dump_of_int Hexadecimal)]);
     dt_defaultStyle := #"decimal";
     dt_styleAliases := [(#"2", #"binary"); (#"bin", #"binary"); (#"8", #"octal"); (#"oct", #"octal");
                         (#"10", #"decimal"); (#"dec", #"decimal"); (#"16", #"hexadecimal"); (#"hex", #"hexadecimal")] |}.

Definition dump_merge : dtype :=
  {| dt_tag := yaml_tag #"merge"; dt_test := None; dt_resolve s := resolveYamlMerge (Some s); dt_represent := None;
     dt_defaultStyle := []; dt_styleAliases := [] |}.

(** The implicit types that come first in the compiled schemas. *)
Definition load_first : list ltype := [load_null; load_bool; load_int].
Definition dump_first : list dtype := [dump_null; dump_bool; dump_int].

(** What the dumper tests on a text is what the loader tries on it. *)
Lemma first_types_agree s h ty : In ty load_first → lt_resolve ty (text_value s) h = true → existsb (λ t, dt_resolve t s) dump_first = true.
Proof.
  intros Hin Hr. assert (∃ t, In t dump_first ∧ dt_resolve t s = true) as (t & Ht & Hd); [|by apply existsb_exists; exists t].
  repeat destruct Hin as [<-|Hin]; [exists dump_null|exists dump_bool|exists dump_int|done]; (split; [|exact Hr]); cbn; tauto.
Qed.
