(* ===== verification/YamlRoundtrip.v ===== *)
(** * js-yaml: texts that are dumped and loaded

    A text that the dumper writes on one line, plain or in quotes, is the text the
    loader reads. *)

From S2P Require Import Prelude JsValue JsHeap Int32 YamlTypes YamlMark YamlScan YamlLoader YamlDump YamlCore.

(** ** Reading escapes *)

(** The value of hexadecimal digits, as the loader accumulates it. *)
Fixpoint hex_value (s : jstr) (acc : Z) : option Z :=
  match s with
  | [] => Some acc
  | c :: t => if 0 <=? fromHexCode c then hex_value t (jshl acc 4 + fromHexCode c) else None
  end.

(** What the loader makes of an escape of the dumper. *)
Definition unescapes (c : Z) (s : jstr) : bool :=
  match s with
  | [x] => (x =? c) && negb (has c [0; 10; 13; 34; 92]) && (32 <=? c)
  | b :: e :: t =>
      (b =? 92) && negb (is_EOL e) &&
      if streq (simpleEscapeSequence e) [] then
        (0 <? escapedHexLen e)%nat && (length t =? escapedHexLen e)%nat && bool_decide (hex_value t 0 = Some c)
      else (e <? 256) && streq (simpleEscapeSequence e) [c] && streq t []
  | [] => false
  end.

Lemma radix_go_length base f : ∀ n acc k,
  2 <= base → n < base ^ Z.of_nat (S k) → (length (radix_go f base n acc) <= S k + length acc)%nat.
Proof.
  induction f as [|f IH]; intros n acc k Hb Hn; cbn [radix_go]; [lia|].
  destruct (Z.ltb_spec n base); [cbn; lia|]. destruct k as [|k].
  { change (Z.of_nat 1) with 1 in Hn. rewrite Z.pow_1_r in Hn. lia. }
  assert (n / base < base ^ Z.of_nat (S k)) as Hd.
  { apply Z.div_lt_upper_bound; [lia|]. rewrite Nat2Z.inj_succ Z.pow_succ_r in Hn; lia. }
  specialize (IH (n / base) (digit_unit (n mod base) :: acc) k Hb Hd). cbn [length] in IH. lia.
Qed.

Lemma hex_digit d : 0 <= d < 16 → fromHexCode (upper_unit (digit_unit d)) = d.
Proof. intros Hd. by apply Z.eqb_eq, (range_check (λ d, fromHexCode (upper_unit (digit_unit d)) =? d) 0 16 eq_refl d). Qed.

Lemma fold_digits_le d : ∀ a, 0 <= a → Forall (λ x, 0 <= x < 16) d → a <= fold_left (λ a x, a * 16 + x) d a.
Proof.
  induction d as [|x d IH]; intros a Ha HF; cbn [fold_left]; [lia|]. apply Forall_cons in HF as [Hx HF].
  specialize (IH (a * 16 + x) ltac:(lia) HF). lia.
Qed.

Lemma hex_value_digits d : ∀ a,
  0 <= a → Forall (λ x, 0 <= x < 16) d → fold_left (λ a x, a * 16 + x) d a < 65536 →
  hex_value (map (λ x, upper_unit (digit_unit x)) d) a = Some (fold_left (λ a x, a * 16 + x) d a).
Proof.
  induction d as [|x d IH]; intros a Ha HF Hb; [done|]. apply Forall_cons in HF as [Hx HF]. cbn [map hex_value fold_left] in *.
  rewrite hex_digit //. destruct (Z.leb_spec 0 x); [|lia].
  pose proof (fold_digits_le d (a * 16 + x) ltac:(lia) HF) as Hle.
  assert (jshl a 4 = a * 16) as ->; [|by apply IH; [lia|done|done]].
  unfold jshl. rewrite (to_int32_small a); [|lia]. rewrite Z.shiftl_mul_pow2; [|lia]. change (2 ^ 4) with 16.
  apply to_int32_small. lia.
Qed.

Lemma hex_value_zeros k s : hex_value (replicate k 48 ++ s) 0 = hex_value s 0.
Proof. induction k as [|k IH]; [done|]. cbn [replicate app hex_value]. exact IH. Qed.

Lemma encodeHex_read c : code_unit c → unescapes c (encodeHex c) = true.
Proof.
  intros Hc. unfold code_unit in Hc. destruct (to_radix_spec 16 c ltac:(lia) ltac:(lia)) as (d & Ed & _ & HF & Hv).
  assert (hex_value (to_upper (to_radix 16 c)) 0 = Some c) as Hx.
  { rewrite Ed. unfold to_upper. rewrite map_map. rewrite hex_value_digits; [by rewrite Hv|lia|done|lia]. }
  assert (∀ k : nat, c < 16 ^ Z.of_nat (S k) → (length (to_upper (to_radix 16 c)) <= S k)%nat) as Hl.
  { intros k Hk. unfold to_upper, to_radix. rewrite length_map. destruct (Z.ltb_spec c 0); [lia|].
    pose proof (radix_go_length 16 (S (Z.to_nat (Z.log2 c))) c [] k ltac:(lia) Hk) as H1. cbn [length] in H1. lia. }
  unfold encodeHex. destruct (Z.leb_spec c 255) as [H|H].
  - specialize (Hl 1%nat ltac:(change (16 ^ Z.of_nat 2) with 256; lia)). cbn [unescapes app].
    change (is_EOL 120) with false. change (simpleEscapeSequence 120) with (@nil Z). change (escapedHexLen 120) with 2%nat.
    rewrite hex_value_zeros Hx. rewrite length_app length_replicate. cbn. rewrite bool_decide_eq_true_2 // andb_true_r.
    apply Nat.eqb_eq. lia.
  - specialize (Hl 3%nat ltac:(change (16 ^ Z.of_nat 4) with 65536; lia)). cbn [unescapes app].
    change (is_EOL 117) with false. change (simpleEscapeSequence 117) with (@nil Z). change (escapedHexLen 117) with 4%nat.
    rewrite hex_value_zeros Hx. rewrite length_app length_replicate. cbn. rewrite bool_decide_eq_true_2 // andb_true_r.
    apply Nat.eqb_eq. lia.
Qed.

Lemma escape_unit_read c : code_unit c → unescapes c (escape_unit c) = true.
Proof.
  intros Hc. unfold escape_unit, escape_letter. destruct (List.find _ _) as [[a e]|] eqn:E; cbn [fmap option_fmap option_map].
  - apply find_some in E as [Hin Ha%Z.eqb_eq]. cbn in Ha. subst a.
    assert (forallb (λ p, unescapes p.1 [92; p.2]) ESCAPE_SEQUENCES = true) as Hf by (vm_compute; reflexivity).
    rewrite forallb_forall in Hf. apply (Hf _ Hin).
  - destruct (isPrintable c) eqn:Ep; [|by apply encodeHex_read]. cbn [unescapes]. rewrite Z.eqb_refl. cbn [andb].
    apply andb_true_iff. split.
    + apply negb_true_iff. destruct (has c [0; 10; 13; 34; 92]) eqn:Eh; [|done].
      unfold has in Eh. apply existsb_exists in Eh as (x & Hx & ->%Z.eqb_eq).
      exfalso. clear -Hx E. cbn in Hx. destruct Hx as [<-|[<-|[<-|[<-|[<-|[]]]]]]; discriminate E.
    + unfold isPrintable in Ep. lia.
Qed.

(** ** Quoted scalars *)

Definition json_unit_ok (x : Z) : bool := (x =? 9) || ((32 <=? x) && (x <=? 1114111)).

Section quoted.
Context (input filename : jstr).

Lemma code_at pre x rest : input = pre ++ x :: rest → code input (length pre) = x.
Proof. intros ->. unfold code. by rewrite list_lookup_middle. Qed.

Lemma slice_at a b rest : input = a ++ b ++ rest → slice input (length a) (length a + length b) = b.
Proof. intros ->. unfold slice. rewrite drop_app_length. replace (_ + _ - _)%nat with (length b) by lia. apply take_app_length. Qed.

Lemma capture_json c a b rest r : input = a ++ b ++ rest → forallb json_unit_ok b = true →
  captureSegment input filename c (length a) (length a + length b) true r = Ok (r ++ b).
Proof.
  intros E Hb. unfold captureSegment. destruct (Nat.ltb_spec (length a) (length a + length b)) as [H|H].
  - rewrite (slice_at a b rest E). unfold json_unit_ok in Hb. by rewrite Hb.
  - assert (b = []) as -> by (apply length_zero_iff_nil; lia). by rewrite app_nil_r.
Qed.

Lemma hex_loop_reads t : ∀ pre rest c acc v, input = pre ++ t ++ rest → S (c_position c) = length pre → hex_value t acc = Some v →
  hex_loop input filename (length t) c acc = Ok (move (c_position c + length t) c, v).
Proof.
  induction t as [|x t IH]; intros pre rest c acc v E Hp Hv; cbn [length hex_loop hex_value] in *.
  - injection Hv as ->. rewrite Nat.add_0_r. by destruct c.
  - unfold here. change (c_position (advance c)) with (S (c_position c)). rewrite Hp (code_at pre x (t ++ rest) E).
    destruct (0 <=? fromHexCode x); [|done]. rewrite (IH (pre ++ [x]) rest (advance c) _ v); [|by rewrite -app_assoc| |done].
    + cbn. f_equal. f_equal. unfold move, advance. f_equal. cbn. lia.
    + cbn. rewrite length_app. cbn. lia.
Qed.

Lemma fromCodepoint_unit c : code_unit c → charFromCodepoint c = [c].
Proof.
  unfold code_unit, charFromCodepoint, fromCharCode. intros H. destruct (Z.leb_spec c 65535); [|lia]. f_equal. apply Z.mod_small. lia.
Qed.

Lemma move_move p q c : move p (move q c) = move p c.
Proof. done. Qed.

Lemma not_separator c : (c_lineStart c < c_position c)%nat → at_separator input c = false.
Proof. intros H. unfold at_separator. by rewrite (proj2 (Nat.eqb_neq _ _)); [|lia]. Qed.

(** An escape of the dumper, after its backslash. *)
Lemma read_escape_reads pre e t rest c x r :
  input = pre ++ e :: t ++ rest → c_position c = length pre → code_unit x → unescapes x (92 :: e :: t) = true →
  read_escape input filename c r = Ok (move (length pre + S (length t)) c, r ++ [x]).
Proof.
  intros E Hp Hx H. cbn [unescapes] in H. rewrite Z.eqb_refl in H. cbn [andb] in H. apply andb_true_iff in H as [He%negb_true_iff H].
  unfold read_escape, here. rewrite Hp (code_at pre e (t ++ rest) E) He.
  destruct (streq (simpleEscapeSequence e) []) eqn:Es.
  - apply andb_true_iff in H as [[Hl Hlen%Nat.eqb_eq]%andb_true_iff Hv%bool_decide_eq_true]. cbn [negb]. rewrite andb_false_r Hl.
    rewrite -Hlen. rewrite (hex_loop_reads t (pre ++ [e]) rest c 0 x); [|by rewrite -app_assoc| |done].
    + cbn [mbind res_bind]. rewrite fromCodepoint_unit //. f_equal. f_equal. unfold advance. rewrite move_move. f_equal. cbn. lia.
    + rewrite length_app. cbn. lia.
  - apply andb_true_iff in H as [[Hl Hs%streq_spec]%andb_true_iff Ht%streq_spec]. subst t. rewrite Hl Hs. cbn [negb andb].
    f_equal. f_equal. unfold advance. f_equal. rewrite Hp. cbn. lia.
Qed.

(** A text in double quotes, from a place inside it: [b] is what the pending segment
    holds. *)
Lemma double_loop_reads s : ∀ n a b post r c ce,
  input = a ++ b ++ escapeString s ++ 34 :: post → c_position c = (length a + length b)%nat →
  forallb json_unit_ok b = true → (c_lineStart c < c_position c)%nat → wf_jstr s → (length (escapeString s) < n)%nat →
  double_loop input filename n c (length a) ce r =
  Ok (move (S (length a + length b + length (escapeString s))) c, r ++ b ++ s).
Proof.
  induction s as [|x s IH]; intros n a b post r c ce E Hp Hb Hl Hw Hn; (destruct n as [|n]; [lia|]); cbn [double_loop].
  - unfold here. rewrite Hp -length_app (code_at (a ++ b) 34 post); [|by rewrite -app_assoc].
    change (34 =? 0) with false. change (34 =? 34) with true. cbv iota. rewrite length_app (capture_json c a b (34 :: post) r E Hb).
    cbn [mbind res_bind]. rewrite app_nil_r. f_equal. f_equal. unfold advance. f_equal. rewrite Hp. cbn. lia.
  - apply Forall_cons in Hw as [Hx Hw]. pose proof (escape_unit_read x Hx) as Hu. unfold escapeString in *. cbn [map concat] in *.
    fold (escapeString s) in *. rewrite length_app in Hn. destruct (escape_unit x) as [|y [|e t]] eqn:Eu; [done| |].
    + cbn [unescapes] in Hu. apply andb_true_iff in Hu as [[->%Z.eqb_eq Hh%negb_true_iff]%andb_true_iff H32%Z.leb_le].
      unfold here. rewrite Hp -length_app (code_at (a ++ b) x (escapeString s ++ 34 :: post)); [|by rewrite -app_assoc].
      unfold has in Hh. cbn [existsb] in Hh. rewrite !orb_false_iff in Hh. destruct Hh as (H0 & H10 & H13 & H34 & H92 & _).
      rewrite H0 H34 H92. unfold is_EOL. rewrite H10 H13. cbn [orb]. rewrite not_separator //.
      rewrite (IH n a (b ++ [x]) post r (advance c)).
      * rewrite !length_app. cbn [length]. f_equal. f_equal; [unfold advance; rewrite move_move; f_equal; lia|by rewrite -app_assoc].
      * rewrite E. by rewrite -!app_assoc.
      * cbn. rewrite length_app. cbn. lia.
      * rewrite forallb_app Hb. cbn. unfold json_unit_ok. unfold code_unit in Hx. lia.
      * cbn. lia.
      * done.
      * cbn [length] in Hn. lia.
    + pose proof Hu as Hu'. cbn [unescapes] in Hu'. apply andb_true_iff in Hu' as [[->%Z.eqb_eq _]%andb_true_iff _].
      unfold here. rewrite Hp -length_app (code_at (a ++ b) 92 (e :: t ++ escapeString s ++ 34 :: post)); [|by rewrite E -!app_assoc].
      change (92 =? 0) with false. change (92 =? 34) with false. change (92 =? 92) with true. cbv iota.
      rewrite length_app (capture_json c a b (92 :: e :: t ++ escapeString s ++ 34 :: post) r); [|by rewrite E -!app_assoc|done].
      cbn [mbind res_bind].
      rewrite (read_escape_reads (a ++ b ++ [92]) e t (escapeString s ++ 34 :: post) (advance c) x); [|by rewrite E -!app_assoc| |done|done].
      2: { rewrite !length_app. cbn. lia. }
      cbn [mbind res_bind]. set (c' := move _ (advance c)).
      assert (c_position c' = length (a ++ b ++ 92 :: e :: t)) as Hc' by (unfold c'; cbn; rewrite !length_app; cbn; lia).
      rewrite Hc' (IH n (a ++ b ++ 92 :: e :: t) [] post (( r ++ b) ++ [x]) c').
      * rewrite !length_app. cbn [length]. f_equal. f_equal; [unfold c', advance; rewrite !move_move; f_equal; lia|].
        by rewrite -!app_assoc.
      * by rewrite E -!app_assoc.
      * rewrite Hc'. cbn. lia.
      * done.
      * rewrite Hc'. unfold c'. cbn. rewrite !length_app. cbn. lia.
      * done.
      * cbn [length] in Hn. lia.
Qed.

(** A text in single quotes. *)
Definition quote_unit (c : Z) : jstr := if c =? 39 then [39; 39] else [c].
Definition quote_units (s : jstr) : jstr := concat (map quote_unit s).

Definition line_unit (c : Z) : bool := json_unit_ok c && negb (is_EOL c).

Lemma single_loop_reads s : ∀ n a b post r c ce,
  input = a ++ b ++ quote_units s ++ 39 :: post → c_position c = (length a + length b)%nat → code input (S (length a + length b + length (quote_units s))) ≠ 39 →
  forallb json_unit_ok b = true → (c_lineStart c < c_position c)%nat → forallb line_unit s = true → (length (quote_units s) < n)%nat →
  single_loop input filename n c (length a) ce r =
  Ok (move (S (length a + length b + length (quote_units s))) c, r ++ b ++ s).
Proof.
  induction s as [|x s IH]; intros n a b post r c ce E Hp Hpost Hb Hl Hw Hn; (destruct n as [|n]; [lia|]); cbn [single_loop].
  - unfold here. rewrite Hp -length_app (code_at (a ++ b) 39 post); [|by rewrite -app_assoc].
    change (39 =? 0) with false. change (39 =? 39) with true. cbv iota. rewrite length_app (capture_json c a b (39 :: post) r E Hb).
    cbn [mbind res_bind]. change (quote_units []) with (@nil Z) in *. cbn [length] in *. rewrite Nat.add_0_r in Hpost |- *.
    change (c_position (advance c)) with (S (c_position c)). rewrite Hp. rewrite (proj2 (Z.eqb_neq _ _) Hpost) app_nil_r. f_equal. f_equal.
    unfold advance. by rewrite Hp.
  - cbn [forallb] in Hw. apply andb_true_iff in Hw as [Hx Hw]. unfold line_unit in Hx. apply andb_true_iff in Hx as [Hj He%negb_true_iff].
    unfold quote_units in *. cbn [map concat] in *. fold (quote_units s) in *. rewrite length_app in Hn Hpost |- *.
    unfold quote_unit in *. destruct (Z.eqb_spec x 39) as [->|Hx].
    + unfold here. rewrite Hp -length_app (code_at (a ++ b) 39 (39 :: quote_units s ++ 39 :: post)); [|by rewrite E -!app_assoc].
      change (39 =? 0) with false. change (39 =? 39) with true. cbv iota.
      rewrite length_app (capture_json c a b (39 :: 39 :: quote_units s ++ 39 :: post) r); [|by rewrite E -!app_assoc|done].
      cbn [mbind res_bind]. change (c_position (advance c)) with (S (c_position c)).
      assert (S (c_position c) = length (a ++ b ++ [39])) as Hc by (rewrite Hp !length_app; cbn; lia).
      rewrite Hc (code_at (a ++ b ++ [39]) 39 (quote_units s ++ 39 :: post)); [|by rewrite E -!app_assoc].
      change (39 =? 39) with true. cbv iota. rewrite (IH n (a ++ b ++ [39]) [39] post (r ++ b) (advance (advance c))).
      * rewrite !length_app. cbn [length]. f_equal. f_equal; [unfold advance; rewrite !move_move; f_equal; lia|].
        by rewrite -!app_assoc.
      * by rewrite E -!app_assoc.
      * cbn. rewrite !length_app. cbn. lia.
      * rewrite !length_app. cbn [length] in *. intros Hc'. apply Hpost. rewrite -Hc'. f_equal. lia.
      * done.
      * cbn. lia.
      * done.
      * cbn [length] in Hn. lia.
    + unfold here. rewrite Hp -length_app (code_at (a ++ b) x (quote_units s ++ 39 :: post)); [|by rewrite E -!app_assoc].
      rewrite (proj2 (Z.eqb_neq x 39) Hx) He. assert ((x =? 0) = false) as -> by (unfold json_unit_ok in Hj; lia).
      rewrite not_separator //. rewrite (IH n a (b ++ [x]) post r (advance c)).
      * rewrite !length_app. cbn [length]. f_equal. f_equal; [unfold advance; rewrite move_move; f_equal; lia|by rewrite -app_assoc].
      * by rewrite E -!app_assoc.
      * cbn. rewrite length_app. cbn. lia.
      * rewrite !length_app. cbn [length] in *. intros Hc'. apply Hpost. rewrite -Hc'. f_equal. lia.
      * rewrite forallb_app Hb. cbn. by rewrite Hj.
      * cbn. lia.
      * done.
      * cbn [length] in Hn. lia.
Qed.

(** ** Plain scalars *)

Lemma plain_safe_unit x : isPlainSafe x = true →
  x ≠ 0 ∧ x ≠ 58 ∧ x ≠ 35 ∧ is_EOL x = false ∧ is_FLOW_INDICATOR x = false.
Proof. unfold isPlainSafe, isPrintable, is_EOL, is_FLOW_INDICATOR. intros H. repeat split; lia. Qed.

(** The units of a plain scalar on its line. *)
Lemma plain_loop_reads indent flow s : ∀ n a rest v c,
  input = a ++ s ++ rest → c_position c = length a → forallb isPlainSafe s = true →
  hasPendingContent v = false → (a = [] → at_separator input c = false) → (c_lineStart c <= c_position c)%nat →
  (a ≠ [] → (c_lineStart c < c_position c)%nat) →
  (s = [] → captureEnd v = length a) → is_WHITE_SPACE (List.last s 0) = false → (length s < n)%nat →
  plain_loop input filename indent flow n c v =
  plain_loop input filename indent flow (n - length s) (move (length a + length s) c)
    {| captureStart := captureStart v; captureEnd := (length a + length s)%nat; hasPendingContent := false;
       p_line := p_line v; p_result := p_result v |}.
Proof.
  induction s as [|x s IH]; intros n a rest v c E Hp Hs Hv Hsep Hle Hls Hend Hlast Hn.
  - cbn [length]. rewrite Nat.sub_0_r Nat.add_0_r. f_equal; [rewrite -Hp; by destruct c|].
    rewrite -(Hend eq_refl) -Hv. by destruct v.
  - destruct n as [|n]; [cbn in Hn; lia|]. cbn [forallb] in Hs. apply andb_true_iff in Hs as [Hx Hs].
    destruct (plain_safe_unit x Hx) as (H0 & H58 & H35 & Heol & Hflow).
    assert (here input c = x) as Hh by (unfold here; rewrite Hp; by apply (code_at a x (s ++ rest))).
    cbn [plain_loop length Nat.sub]. rewrite Hh (proj2 (Z.eqb_neq _ _) H0).
    assert (plain_break input flow c = false) as ->.
    { unfold plain_break. rewrite Hh (proj2 (Z.eqb_neq _ _) H58) (proj2 (Z.eqb_neq _ _) H35). cbn [andb]. rewrite Hflow andb_false_r orb_false_r.
      destruct a as [|y a]; [by apply Hsep|]. apply not_separator. by apply Hls. }
    rewrite Heol. unfold plain_unit. rewrite Hv Hh. cbn [mbind res_bind].
    set (v' := if is_WHITE_SPACE x then v else _). rewrite (IH n (a ++ [x]) rest v' (advance c)).
    + rewrite !length_app. cbn [length]. unfold advance. rewrite move_move.
      replace (length a + 1 + length s)%nat with (length a + S (length s))%nat by lia.
      f_equal. unfold v'. destruct (is_WHITE_SPACE x); done.
    + by rewrite E -app_assoc.
    + rewrite length_app. cbn. lia.
    + done.
    + unfold v'. by destruct (is_WHITE_SPACE x).
    + intros H. by destruct a.
    + cbn. lia.
    + intros _. cbn. lia.
    + intros ->. unfold v'. cbn [List.last] in Hlast. rewrite Hlast. cbn. rewrite length_app Hp. cbn. lia.
    + destruct s; [done|exact Hlast].
    + cbn in Hn. lia.
Qed.

Lemma plain_printable s : forallb isPlainSafe s = true → ∀ b, non_printable b s = false.
Proof.
  induction s as [|x s IH]; intros H b; [done|]. cbn [forallb non_printable] in *. apply andb_true_iff in H as [Hx H].
  rewrite IH //. unfold isPlainSafe, isPrintable in Hx.
  assert (control x = false) as -> by (unfold control; lia). assert (is_high x = false) as -> by (unfold is_high; lia).
  assert (is_low x = false) as -> by (unfold is_low; lia). done.
Qed.

(** ** Separation *)

Lemma skip_stop f p : f (code input p) = false → skip input f p = p.
Proof. intros H. unfold skip. destruct (length input - p)%nat; cbn [skip_while]; [done|]. by rewrite H. Qed.

Definition end_cursor (a : jstr) (c : cursor) : cursor :=
  {| c_position := S (length a); c_line := c_line c + 1; c_lineStart := S (length a); c_lineIndent := 0 |}.

(** The line break before the terminator. *)
Lemma separation_end a allow c : input = a ++ [10; 0] → c_position c = length a →
  skipSeparationSpace input filename allow c = (end_cursor a c, 1).
Proof.
  intros E Hp. assert (code input (length a) = 10) as H10 by (by apply (code_at a 10 [0])).
  assert (code input (S (length a)) = 0) as H0.
  { pose proof (code_at (a ++ [10]) 0 [] ltac:(by rewrite -app_assoc)) as H. rewrite length_app Nat.add_1_r in H. done. }
  unfold skipSeparationSpace. assert (∃ n, length input = S n) as [n ->].
  { exists (S (length a)). rewrite E length_app. cbn. lia. }
  cbn [separation]. unfold here. rewrite Hp H10. change (10 =? 0) with false. cbv iota.
  rewrite skip_stop; [|by rewrite H10]. rewrite H10. change (10 =? 35) with false. rewrite andb_false_r. cbv iota.
  change (is_EOL 10) with true. unfold readLineBreak. cbn [c_position move]. rewrite H10. cbn [Z.eqb Pos.eqb]. cbv iota.
  unfold read_indent. cbn [c_position next_line move]. rewrite skip_stop; [|by rewrite H0].
  rewrite Z.sub_diag. change (set_indent 0 (move (S (length a)) _)) with (end_cursor a c).
  change (c_position (end_cursor a c)) with (S (length a)). by rewrite H0.
Qed.

(** Nothing to skip. *)
Lemma separation_none allow c : has (here input c) [9; 10; 13; 32; 35] = false →
  skipSeparationSpace input filename allow c = (c, 0).
Proof.
  intros H. unfold has in H. cbn [existsb] in H. rewrite !orb_false_iff in H. destruct H as (H9 & H10 & H13 & H32 & H35 & _).
  unfold skipSeparationSpace. cbn [separation]. destruct (here input c =? 0); [done|].
  rewrite skip_stop; [|unfold is_WHITE_SPACE; unfold here in *; by rewrite H9 H32]. unfold here in *. rewrite H35 andb_false_r.
  unfold is_EOL. rewrite H10 H13. cbn [orb]. f_equal. by destruct c.
Qed.

Definition start_cursor : cursor := {| c_position := 0; c_line := 0; c_lineStart := 0; c_lineIndent := 0 |}.

Lemma plain_first_starts : isPlainSafeFirst (code input 0) = true → starts_plain input false 0 = true.
Proof.
  unfold starts_plain. set (x := code input 0). intros Hf. unfold isPlainSafeFirst, isPrintable, isWhitespace in Hf. apply andb_true_iff. split.
  - apply negb_true_iff. unfold is_WS_OR_EOL, is_FLOW_INDICATOR. change #"#&*!|>'%@`" with [35; 38; 42; 33; 124; 62; 39; 37; 64; 96].
    unfold has. cbn [existsb]. lia.
  - apply negb_true_iff. apply andb_false_iff. left. lia.
Qed.

(** A plain scalar alone on its line. *)
Lemma readPlainScalar_reads s : input = s ++ [10; 0] → s ≠ [] → forallb isPlainSafe s = true →
  starts_plain input false 0 = true → is_WHITE_SPACE (List.last s 0) = false → at_separator input start_cursor = false →
  readPlainScalar input filename 0 false start_cursor = Ok (end_cursor s start_cursor, Some s).
Proof.
  intros E Hne Hs Hf Hlast Hsep. destruct s as [|x t] eqn:Es; [done|]. rewrite -Es in E Hs Hlast |- *.
  unfold readPlainScalar. cbn [c_position start_cursor]. rewrite Hf.
  cbn [negb]. set (v0 := {| captureStart := 0 |}). rewrite (plain_loop_reads 0 false s _ [] [10; 0] v0 start_cursor); [|done|done|done|done|done|done|done|by rewrite Es|done|].
  2: { rewrite E length_app. cbn. lia. }
  set (m := (2 * length input + 2 - length s)%nat). assert (∃ k, m = S (S k)) as [k ->].
  { exists (m - 2)%nat. unfold m. rewrite E length_app. cbn. lia. }
  cbn [length Nat.add]. set (c1 := move (length s) start_cursor). cbn [plain_loop].
  assert (here input c1 = 10) as Hh by (unfold here, c1; cbn [c_position move]; by apply (code_at s 10 [0])).
  rewrite Hh. change (10 =? 0) with false. cbv iota.
  replace (plain_break input false c1) with false.
  2: { symmetry. unfold plain_break. rewrite Hh. cbn [Z.eqb Pos.eqb andb]. rewrite orb_false_r. unfold at_separator, testDocumentSeparator.
       unfold here in Hh. rewrite Hh. cbn. by rewrite andb_false_r. }
  change (is_EOL 10) with true. cbv iota. rewrite (separation_end s false c1 E ltac:(done)). cbn [fst].
  change (0 <=? c_lineIndent (end_cursor s c1)) with true. cbv iota.
  assert (here input (end_cursor s c1) = 0) as ->.
  { unfold here. cbn. pose proof (code_at (s ++ [10]) 0 [] ltac:(by rewrite -app_assoc)) as H. by rewrite length_app Nat.add_1_r in H. }
  cbn [Z.eqb mbind res_bind captureStart captureEnd p_result]. unfold captureSegment. cbn [captureStart v0].
  destruct (Nat.ltb_spec 0 (length s)) as [_|H]; [|rewrite Es in H; cbn in H; lia].
  rewrite (slice_at [] s [10; 0] E : slice input 0 (length s) = s). rewrite (plain_printable s Hs). cbn [mbind res_bind app].
  rewrite Es. done.
Qed.
End quoted.

(** ** Documents that are a scalar *)

Lemma lbind_run {A B} (m : lm A) (f : A → lm B) s a s' : m s = Ok (a, s') → (m ≫= f) s = f a s'.
Proof. unfold mbind, lm_bind. by intros ->. Qed.

Lemma no_byte_order_mark x (l : jstr) : x ≠ 65279 → match x :: l with 65279 :: t => t | _ => x :: l end = x :: l.
Proof. intros Hx. destruct x as [|p|p]; [done| |done]. do 17 (destruct p as [p|p|]; try done). Qed.

(** ** Nodes in the flow *)

Section node.
Context (input filename : jstr) (json : bool) (implicitTypes : list ltype) (typeMap : list (jstr * ltype)).

Lemma peek_here s x k : code input (c_position (cur s) + k) = x → peek input k s = Ok (x, s).
Proof. by intros <-. Qed.

Lemma peek_at s x : here input (cur s) = x → peek input 0 s = Ok (x, s).
Proof. intros <-. apply peek_here. unfold here. f_equal. lia. Qed.

Lemma properties_none x m pi st status nl bl s : here input (cur s) = x → has x [33; 38] = false →
  node_properties input filename (S m) pi st status nl bl s = Ok ((status, nl, bl), s).
Proof.
  intros Hx Hq. cbn [node_properties]. unfold has in Hq. cbn [existsb] in Hq. rewrite !orb_false_iff in Hq. destruct Hq as (H33 & H38 & _).
  rewrite (lbind_run _ _ s false s).
  2: { unfold readTagProperty. rewrite (lbind_run _ _ s x s); [by rewrite H33|by apply peek_at]. }
  rewrite (lbind_run _ _ s false s); [done|].
  unfold readAnchorProperty. rewrite (lbind_run _ _ s x s); [by rewrite H38|by apply peek_at].
Qed.

(** A node in the flow that has no properties is a collection or a scalar. *)
Definition fresh_node (s : lstate) : lstate := with_node None None None null s.

Lemma compose_content n pi ctx s x s2 s3 : is_block ctx = false → here input (cur s) = x → has x [33; 38] = false →
  (collection ← readFlowCollection input filename json (composeNode input filename json implicitTypes typeMap n) pi;
   if collection : bool then mret true else read_scalar input filename pi false (is_flow_in ctx)) (fresh_node s) = Ok (true, s2) →
  resolve_tag input filename implicitTypes typeMap s2 = Ok (tt, s3) →
  composeNode input filename json implicitTypes typeMap (S n) pi ctx false true s = Ok (true, s3).
Proof.
  intros Hb Hx Hq Hr Ht. cbn [composeNode]. set (s1 := with_node None None None null s).
  rewrite (lbind_run _ _ s tt s1) //. rewrite (lbind_run _ _ s1 (1, false) s1) // Hb.
  rewrite (lbind_run _ _ s1 (1, false, false) s1); [|by apply (properties_none x)].
  cbn [andb]. rewrite (lbind_run _ _ s1 true s2).
  2: { change (1 =? 1) with true. cbn [orb]. cbv iota.
       rewrite (lbind_run _ _ s1 (Z.of_nat (c_position (cur s1)) - Z.of_nat (c_lineStart (cur s1))) s1) //. }
  rewrite (lbind_run _ _ s2 tt s3) // (lbind_run _ _ s3 (n_tag s3) s3) // (lbind_run _ _ s3 (n_anchor s3) s3) //. by rewrite !orb_true_r.
Qed.

Lemma compose_scalar n pi ctx s x s2 s3 : is_block ctx = false → here input (cur s) = x → has x [33; 38; 91; 123] = false →
  read_scalar input filename pi false (is_flow_in ctx) (fresh_node s) = Ok (true, s2) →
  resolve_tag input filename implicitTypes typeMap s2 = Ok (tt, s3) →
  composeNode input filename json implicitTypes typeMap (S n) pi ctx false true s = Ok (true, s3).
Proof.
  intros Hb Hx Hq Hr Ht. unfold has in Hq. cbn [existsb] in Hq. rewrite !orb_false_iff in Hq. destruct Hq as (H33 & H38 & H91 & H123 & _).
  apply (compose_content n pi ctx s x s2); [done|done|by unfold has; cbn [existsb]; rewrite H33 H38| |done].
  rewrite (lbind_run _ _ (fresh_node s) false (fresh_node s)) //. unfold readFlowCollection.
  rewrite (lbind_run _ _ (fresh_node s) x (fresh_node s)); [by rewrite H91 H123|by apply peek_at].
Qed.

Lemma compose_collection n pi ctx s x s2 : is_block ctx = false → here input (cur s) = x → has x [33; 38] = false →
  readFlowCollection input filename json (composeNode input filename json implicitTypes typeMap n) pi (fresh_node s) = Ok (true, s2) →
  n_tag s2 = None → composeNode input filename json implicitTypes typeMap (S n) pi ctx false true s = Ok (true, s2).
Proof.
  intros Hb Hx Hq Hr Ht. apply (compose_content n pi ctx s x s2); [done|done|done| |].
  - by rewrite (lbind_run _ _ (fresh_node s) true s2).
  - unfold resolve_tag. rewrite (lbind_run _ _ s2 None s2) //. unfold gets. by rewrite Ht.
Qed.
End node.

Section document.
Context (filename : jstr) (json legacy : bool) (implicitTypes : list ltype) (typeMap : list (jstr * ltype)).
(** The text [q], which starts with [x], of a node; the cursor [c1] after it, and what
    holds of the value in the heap. *)
Context (q q' : jstr) (x : Z) (good : hval → heap → Prop) (c1 c2 : cursor) (k : Z).
Let input : jstr := q ++ [10; 0].

Hypothesis q_first : q = x :: q'.
Hypothesis first_quiet : has x [0; 9; 10; 13; 32; 33; 35; 37; 38; 58; 63] = false.
Hypothesis no_colon : has (here input c1) [9; 32; 58] = false.
Hypothesis to_end : skipSeparationSpace input filename true c1 = (c2, k).
Hypothesis at_end : c_position c2 = S (length q) ∧ c_lineStart c2 = S (length q).
Hypothesis no_dash : x = 45 → has (code input 1) [9; 10; 13; 32; 45] = false.
(** A state at the place after the node whose node is the value. *)
Definition has_node (s s' : lstate) : Prop :=
  cur s' = c1 ∧ good (n_result s') (objs s') ∧ documents s' = documents s.
(** The text is read as a node in the flow. *)
Hypothesis inner : ∀ s, cur s = start_cursor → ∃ s',
  composeNode input filename json implicitTypes typeMap (S (S (length q))) 0 CONTEXT_FLOW_OUT false true s = Ok (true, s') ∧ has_node s s'.

Lemma first_code : code input 0 = x.
Proof. unfold input. by rewrite q_first. Qed.

Lemma quiet_first y : has y [0; 9; 10; 13; 32; 33; 35; 37; 38; 58; 63] = true → (x =? y) = false.
Proof. intros Hy. apply Z.eqb_neq. intros ->. congruence. Qed.

Lemma here_first s : cur s = start_cursor → here input (cur s) = x.
Proof. intros ->. apply first_code. Qed.

Lemma peek_first s : cur s = start_cursor → peek input 0 s = Ok (x, s).
Proof. intros Hc. by apply peek_at, here_first. Qed.

Lemma no_properties m pi st status nl bl s : cur s = start_cursor →
  node_properties input filename (S m) pi st status nl bl s = Ok ((status, nl, bl), s).
Proof.
  intros Hc. apply (properties_none input filename x); [by apply here_first|]. unfold has. cbn [existsb]. by rewrite !quiet_first.
Qed.

Lemma after_dash (s : lstate) : cur s = start_cursor →
  negb (x =? 45) || negb (is_WS_OR_EOL (code input (c_position (cur s) + 1))) = true ∧
  (x =? 45) && (code input (c_position (cur s) + 1) =? 45) = false.
Proof.
  intros ->. cbn [c_position start_cursor Nat.add]. destruct (Z.eqb_spec x 45) as [Hx|]; [|done]. cbn [negb orb andb].
  pose proof (no_dash Hx) as H. unfold has in H. cbn [existsb] in H. unfold is_WS_OR_EOL. split; lia.
Qed.

Lemma mapping_is_node s : cur s = start_cursor → n_tag s = None → n_anchor s = None →
  ∃ s', readBlockMapping input filename json (composeNode input filename json implicitTypes typeMap (S (S (length q)))) 0 0 s = Ok (true, s') ∧
    has_node s s' ∧ n_tag s' = None.
Proof.
  intros Hc Ht Ha. unfold readBlockMapping. rewrite (lbind_run _ _ s (n_tag s) s) // (lbind_run _ _ s (n_anchor s) s) //.
  set (s1 := {| cur := cur s; n_tag := n_tag s; n_anchor := n_anchor s; n_kind := n_kind s; n_result := n_result s;
    l_version := l_version s; checkLineBreaks := checkLineBreaks s; tagMap := tagMap s; anchorMap := anchorMap s;
    documents := documents s; objs := objs s ++ [HObj []] |}).
  rewrite (lbind_run _ _ s (HL (length (objs s))) s1) //. rewrite (lbind_run _ _ s1 tt s1); [|unfold name_anchor, modify; cbn; by rewrite Ha].
  assert (cur s1 = start_cursor) as Hc1 by done. destruct (inner s1 Hc1) as (s' & Es' & Hcur & Hres & Hdoc).
  set (s2 := with_tag (n_tag s) (with_anchor (n_anchor s) s')).
  exists s2. split; [|unfold has_node; split_and!; done].
  rewrite (lbind_run _ _ s1 (Return true) s2) //. cbn [mapping_loop].
  rewrite (lbind_run _ _ s1 x s1); [|by apply peek_first]. rewrite quiet_first //.
  rewrite (lbind_run _ _ s1 0 s1); [|by unfold line_here, gets; rewrite Hc1].
  rewrite (lbind_run _ _ s1 (Return true) s2) //. unfold mapping_key.
  rewrite (lbind_run _ _ s1 x s1); [|by apply peek_first].
  rewrite (lbind_run _ _ s1 (code input (c_position (cur s1) + 1)) s1) //. rewrite !quiet_first //. cbn [orb andb].
  rewrite (lbind_run _ _ s1 true s') //. cbn [negb].
  rewrite (lbind_run _ _ _ (c_line c1) s'); [|by unfold line_here, gets; rewrite Hcur]. destruct (c_line c1 =? 0); [|done].
  rewrite (lbind_run _ _ _ (c_position c1) s'); [|by unfold position_here, gets; rewrite Hcur].
  pose proof no_colon as Hn. unfold has, here in Hn. cbn [existsb] in Hn. rewrite !orb_false_iff in Hn.
  destruct Hn as (N9 & N32 & N58 & _).
  rewrite (lbind_run _ _ _ tt s').
  2: { unfold go_to, modify. rewrite skip_stop; [|unfold is_WHITE_SPACE; by rewrite N9 N32].
       f_equal. f_equal. unfold with_cur. rewrite -Hcur. by destruct s' as [[]]. }
  rewrite (lbind_run _ _ _ (code input (c_position c1)) s').
  2: { unfold peek, gets. by rewrite Nat.add_0_r Hcur. }
  rewrite N58. done.
Qed.

Lemma outer_compose s : cur s = start_cursor →
  ∃ s', composeNode input filename json implicitTypes typeMap (S (S (S (length q)))) (-1) CONTEXT_BLOCK_OUT false true s = Ok (true, s') ∧
    has_node s s'.
Proof.
  intros Hc. remember (S (S (length q))) as m eqn:Em. cbn [composeNode]. set (s1 := with_node None None None null s).
  assert (cur s1 = start_cursor) as Hc1 by done.
  rewrite (lbind_run _ _ s tt s1) //. rewrite (lbind_run _ _ s1 (1, false) s1) //.
  rewrite (lbind_run _ _ s1 (1, false, true) s1); [|by apply no_properties].
  set (s2 := {| cur := cur s1; n_tag := n_tag s1; n_anchor := n_anchor s1; n_kind := n_kind s1; n_result := n_result s1;
    l_version := l_version s1; checkLineBreaks := checkLineBreaks s1; tagMap := tagMap s1; anchorMap := anchorMap s1;
    documents := documents s1; objs := objs s1 ++ [HArr [] []] |}).
  destruct (mapping_is_node s2) as (s3 & E3 & H3 & Htag); [done|done|done|]. rewrite -Em in E3.
  exists s3. split; [|exact H3].
  cbn [is_block andb orb]. rewrite (lbind_run _ _ s1 true s3).
  2: { change ((1 =? 1) || is_block_out CONTEXT_BLOCK_OUT) with true. cbv iota.
       rewrite (lbind_run _ _ s1 0 s1); [|by unfold gets; rewrite Hc1].
       change (1 =? 1) with true. cbv iota. rewrite (lbind_run _ _ s1 true s3) //. unfold or_read.
       rewrite (lbind_run _ _ s1 true s3) //. rewrite (lbind_run _ _ s1 false s2) //. unfold readBlockSequence.
       rewrite (lbind_run _ _ s1 None s1) // (lbind_run _ _ s1 None s1) //. rewrite (lbind_run _ _ s1 (HL (length (objs s1))) s2) //.
       rewrite (lbind_run _ _ s2 tt s2) //. rewrite (lbind_run _ _ s2 false s2) //. cbn [sequence_loop].
       rewrite (lbind_run _ _ s2 x s2); [|by apply peek_first]. rewrite (lbind_run _ _ s2 (code input (c_position (cur s2) + 1)) s2) //.
       by rewrite (proj1 (after_dash s2 Hc1)). }
  rewrite (lbind_run _ _ _ tt s3).
  2: { unfold resolve_tag. rewrite (lbind_run _ _ _ None s3) //. unfold gets. by rewrite Htag. }
  rewrite (lbind_run _ _ _ (n_tag s3) s3) // (lbind_run _ _ _ (n_anchor s3) s3) //. by rewrite orb_true_r.
Qed.

Lemma separate_first s : cur s = start_cursor → separate input filename true s = Ok (0, s).
Proof.
  intros Hc. unfold separate. rewrite Hc separation_none.
  - unfold with_cur. rewrite -Hc. by destruct s.
  - unfold here. cbn [c_position start_cursor]. rewrite first_code. unfold has. cbn [existsb]. by rewrite !quiet_first.
Qed.

Lemma end_code : code input (S (length q)) = 0.
Proof.
  pose proof (code_at input (q ++ [10]) 0 [] ltac:(unfold input; by rewrite -app_assoc)) as H.
  by rewrite length_app Nat.add_1_r in H.
Qed.

Lemma read_node_document s : cur s = start_cursor → ∃ s',
  readDocument input filename json legacy implicitTypes typeMap s = Ok (tt, s') ∧ cur s' = c2 ∧
  ∃ v, good v (objs s') ∧ documents s' = documents s ++ [v].
Proof.
  intros Hc. unfold readDocument. set (s1 := with_directives None legacy [] [] s). assert (cur s1 = start_cursor) as Hc1 by done.
  rewrite (lbind_run _ _ s tt s1) //. rewrite (lbind_run _ _ s1 false s1).
  2: { cbn [directives]. rewrite (lbind_run _ _ s1 x s1); [|by apply peek_first]. rewrite quiet_first //.
       rewrite (lbind_run _ _ s1 0 s1); [|by apply separate_first]. rewrite (lbind_run _ _ s1 x s1); [|by apply peek_first].
       rewrite (lbind_run _ _ s1 0 s1); [|by unfold gets; rewrite Hc1]. by rewrite quiet_first. }
  rewrite (lbind_run _ _ s1 0 s1); [|by apply separate_first]. rewrite (lbind_run _ _ s1 0 s1); [|by unfold gets; rewrite Hc1].
  rewrite (lbind_run _ _ s1 x s1); [|by apply peek_first].
  rewrite (lbind_run _ _ s1 (code input (c_position (cur s1) + 1)) s1) // (lbind_run _ _ s1 (code input (c_position (cur s1) + 2)) s1) //.
  replace ((0 =? 0) && (x =? 45) && _ && _) with false by (cbn [Z.eqb andb]; by rewrite (proj2 (after_dash s1 Hc1))).
  rewrite (lbind_run _ _ s1 tt s1) //.
  rewrite (lbind_run _ _ s1 0 s1); [|by unfold gets; rewrite Hc1].
  destruct (outer_compose s1 Hc1) as (s2 & E2 & Hcur & Hres & Hdoc).
  assert (length input = S (S (length q))) as Hlen by (unfold input; rewrite length_app; cbn; lia).
  change (0 - 1) with (-1). rewrite (lbind_run _ _ s1 true s2); [|rewrite Hlen; exact E2].
  set (s3 := with_cur c2 s2). rewrite (lbind_run _ _ s2 k s3); [|by unfold separate; rewrite Hcur to_end].
  set (s4 := with_documents (documents s3 ++ [n_result s3]) s3). rewrite (lbind_run _ _ s3 tt s4) //.
  destruct at_end as [Hp Hl]. rewrite (lbind_run _ _ s4 false s4).
  2: { unfold gets. f_equal. f_equal. cbn [s4 s3 cur with_documents with_cur]. unfold at_separator, testDocumentSeparator.
       by rewrite Hp end_code andb_false_r. }
  rewrite (lbind_run _ _ s4 (S (length q)) s4); [|by unfold position_here, gets; cbn; rewrite Hp]. rewrite Hlen.
  destruct (Nat.ltb_spec (S (S (S (length q)))) (S (S (length q)))) as [H|_]; [lia|].
  exists s4. split_and!; [done|done|]. exists (n_result s2). split; [done|]. cbn [s4 s3 documents with_documents with_cur]. by rewrite Hdoc.
Qed.

Lemma read_node_documents n s : cur s = start_cursor → ∃ s',
  read_documents input filename json legacy implicitTypes typeMap (S (S n)) s = Ok (tt, s') ∧
  ∃ v, good v (objs s') ∧ documents s' = documents s ++ [v].
Proof.
  intros Hc. remember (S n) as m eqn:Em. cbn [read_documents]. rewrite (lbind_run _ _ s 0%nat s); [|by unfold position_here, gets; rewrite Hc].
  assert (length input = S (S (length q))) as Hlen by (unfold input; rewrite length_app; cbn; lia). rewrite Hlen.
  destruct (Nat.ltb_spec 2 (S (S (length q)))) as [_|H]; [|rewrite q_first in H; cbn in H; lia].
  destruct (read_node_document s Hc) as (s1 & E1 & Hc1 & Hd). rewrite (lbind_run _ _ s tt s1) //. exists s1. split; [|done].
  subst m. cbn [read_documents]. destruct at_end as [Hp _].
  rewrite (lbind_run _ _ s1 (S (length q)) s1); [|by unfold position_here, gets; rewrite Hc1 Hp]. rewrite Hlen.
  by destruct (Nat.ltb_spec (S (S (S (length q)))) (S (S (length q)))) as [H|_]; [lia|].
Qed.

(** The text, with the line break after it, is loaded as the value. *)
Lemma node_loaded h : x ≠ 65279 →
  ∃ v h', load filename json legacy implicitTypes typeMap (q ++ [10]) h = Ok (v, h') ∧ good v h'.
Proof.
  intros Hx. assert (prepare (q ++ [10]) ++ [0] = input) as Hi.
  { unfold prepare, input. rewrite List.last_last q_first. cbn [app]. change (is_EOL 10) with true. cbv iota.
    rewrite no_byte_order_mark //. cbn [app]. by rewrite -app_assoc. }
  set (s0 := first_state input h). assert (cur s0 = start_cursor) as Hc.
  { unfold s0, first_state. cbv zeta. rewrite skip_stop; [done|]. unfold is_SPACE. rewrite first_code. by apply quiet_first. }
  assert (S (length input) = S (S (S (length q)))) as Hn by (unfold input; rewrite length_app; cbn; lia).
  destruct (read_node_documents (S (length q)) s0 Hc) as (s1 & E1 & v & Hv & Hd). exists v, (objs s1). split; [|done].
  assert (loadDocuments filename json legacy implicitTypes typeMap (q ++ [10]) h = Ok ([v], objs s1)) as Hl.
  { unfold loadDocuments. cbv zeta. rewrite Hi Hn. fold s0. rewrite E1. cbv beta iota delta [mbind res_bind]. by rewrite Hd. }
  unfold load, mbind, hm_bind. by rewrite Hl.
Qed.
End document.

(** A text that is read as a scalar. *)
Section scalar_document.
Context (filename : jstr) (json legacy : bool) (implicitTypes : list ltype) (typeMap : list (jstr * ltype)).
Context (q q' : jstr) (x : Z) (t : jstr) (v : hval) (c1 c2 : cursor) (k : Z) (tg : option jstr).
Let input : jstr := q ++ [10; 0].
Definition scalar_read (s : lstate) : lstate := with_cur c1 (with_node tg None (Some #"scalar") (text_value t) s).

Lemma scalar_loaded h :
  q = x :: q' → has x [0; 9; 10; 13; 32; 33; 35; 37; 38; 58; 63; 91; 123] = false →
  (∀ s, cur s = start_cursor → n_tag s = None → n_anchor s = None →
    read_scalar input filename 0 false false s = Ok (true, scalar_read s)) →
  has (here input c1) [9; 32; 58] = false → skipSeparationSpace input filename true c1 = (c2, k) →
  c_position c2 = S (length q) ∧ c_lineStart c2 = S (length q) →
  (x = 45 → has (code input 1) [9; 10; 13; 32; 45] = false) →
  (∀ s, ∃ s', resolve_tag input filename implicitTypes typeMap (scalar_read s) = Ok (tt, s') ∧
    cur s' = c1 ∧ n_result s' = v ∧ documents s' = documents s) →
  x ≠ 65279 → ∃ h', load filename json legacy implicitTypes typeMap (q ++ [10]) h = Ok (v, h').
Proof.
  intros Hq Hx Hr Hn Hsep Hend Hdash Ht Hbom.
  assert (∀ y, has y [0; 9; 10; 13; 32; 33; 35; 37; 38; 58; 63; 91; 123] = true → (x =? y) = false) as Hne
    by (intros y Hy; apply Z.eqb_neq; intros ->; congruence).
  destruct (node_loaded filename json legacy implicitTypes typeMap q q' x (λ v' _, v' = v) c1 c2 k) with (h := h) as (v' & h' & Hl & ->); try done.
  - unfold has. cbn [existsb]. by rewrite !Hne.
  - intros s Hc. destruct (Ht (fresh_node s)) as (s' & E & Hs'). exists s'. split; [|done].
    apply (compose_scalar _ _ _ _ _ _ _ _ s x (scalar_read (fresh_node s))); [done| | |by apply Hr|done].
    + rewrite Hc Hq. done.
    + unfold has. cbn [existsb]. by rewrite !Hne.
  - by exists h'.
Qed.
End scalar_document.

(** ** The styles of the dumper *)

Lemma style_loop_facts string lineWidth rest : ∀ i previous broken folds plain i' previous' broken' folds' plain',
  style_loop string lineWidth rest i previous broken folds plain = Some (i', previous', broken', folds', plain') →
  plain' = plain && forallb isPlainSafe rest ∧ (broken' = false → broken = false ∧ forallb isPrintable rest = true).
Proof.
  induction rest as [|c rest IH]; intros i previous broken folds plain i' previous' broken' folds' plain' H; cbn [style_loop forallb] in *.
  - injection H as <- <- <- <- <-. by rewrite andb_true_r.
  - destruct (c =? 10).
    + destruct (negb (lineWidth =? -1)); apply IH in H as [-> Hb]; (split; [by rewrite andb_assoc|]); by intros [? _]%Hb.
    + destruct (isPrintable c); cbn [negb] in H; [|done]. apply IH in H as [-> Hb]. split; [by rewrite andb_assoc|]. by intros [? ?]%Hb.
Qed.

Lemma chosen_one_line string single indent lineWidth ambiguous style :
  chooseScalarStyle string single indent lineWidth ambiguous = style → (style = STYLE_PLAIN ∨ style = STYLE_SINGLE) →
  forallb isPrintable string = true ∧
  (style = STYLE_PLAIN →
   isPlainSafeFirst (unit_at string 0) = true ∧ isWhitespace (List.last string (-1)) = false ∧
   forallb isPlainSafe string = true ∧ ambiguous string = false).
Proof.
  assert (∀ p q : bool, (if p && negb q then STYLE_PLAIN else STYLE_SINGLE) = STYLE_PLAIN → p = true ∧ q = false) as Hone
    by (by intros [] []).
  unfold chooseScalarStyle. destruct single; intros <- Hs.
  - destruct (forallb isPrintable string); [split; [done|]|by destruct Hs].
    intros [[[H1 H2%negb_true_iff]%andb_true_iff H3]%andb_true_iff H4]%Hone. done.
  - destruct (style_loop _ _ _ _ _ _ _ _) as [[[[[i previous] broken] folds] plain]|] eqn:E; [|by destruct Hs].
    apply style_loop_facts in E as [-> Hb].
    destruct broken; cbn [negb andb] in *; [by repeat case_match; destruct Hs|].
    destruct (_ || _); cbn [negb] in *; [by repeat case_match; destruct Hs|].
    split; [by apply Hb|]. intros [[[H1 H2%negb_true_iff]%andb_true_iff H3]%andb_true_iff H4]%Hone. done.
Qed.

Lemma replace_quotes s : ∀ acc, join #"''" (split_go #"'" acc 0 s) = rev acc ++ quote_units s.
Proof.
  change #"''" with [39; 39]. change #"'" with [39].
  induction s as [|c s IH]; intros acc; [by cbn; rewrite app_nil_r|]. cbn [split_go prefixb]. unfold quote_units, quote_unit. cbn [map concat].
  fold (quote_units s). destruct (Z.eqb_spec 39 c) as [<-|Hc].
  - cbn [andb]. rewrite Z.eqb_refl. rewrite join_cons; [|apply split_go_not_nil]. by rewrite IH.
  - cbn [andb]. rewrite IH (proj2 (Z.eqb_neq c 39)); [|done]. cbn [rev]. by rewrite -app_assoc.
Qed.

Lemma single_quoted_units s : single_quoted s = 39 :: quote_units s ++ [39].
Proof. unfold single_quoted, replace_all, split. by rewrite replace_quotes. Qed.

Lemma quote_units_none s : 39 ∉ s → quote_units s = s.
Proof.
  induction s as [|c s IH]; [done|]. intros [Hc Hs]%not_elem_of_cons. change (quote_units (c :: s)) with (quote_unit c ++ quote_units s).
  rewrite IH //. unfold quote_unit. by destruct (Z.eqb_spec c 39); [congruence|].
Qed.

(** The forms of a text on one line. *)
Lemma written_forms o s level iskey : has (List.hd 0 (writeScalar o s level iskey)) #"|>" = false →
  (writeScalar o s level iskey = 39 :: quote_units s ++ [39] ∧ forallb isPrintable s = true) ∨
  writeScalar o s level iskey = [34] ++ escapeString s ++ [34] ∨
  (writeScalar o s level iskey = s ∧ isPlainSafeFirst (unit_at s 0) = true ∧ isWhitespace (List.last s (-1)) = false ∧
   forallb isPlainSafe s = true ∧ testImplicitResolving o s = false).
Proof.
  intros Hb. unfold writeScalar in *. destruct s as [|x s'] eqn:Es; [by left|].
  rewrite -Es in Hb |- *. destruct (negb (o_noCompatMode o) && _) eqn:Ec.
  - left. apply andb_true_iff in Ec as [_ (d & Hd & ->%streq_spec)%existsb_exists].
    assert (forallb (λ d, forallb isPrintable d && bool_decide (39 ∉ d)) DEPRECATED_BOOLEANS_SYNTAX = true) as Hall
      by (vm_compute; reflexivity). rewrite forallb_forall in Hall.
    apply Hall, andb_true_iff in Hd as [Hp Hq%bool_decide_eq_true]. by rewrite quote_units_none.
  - cbv zeta in *. destruct (chooseScalarStyle s _ _ _ _) eqn:Est; [| |done|done|by right; left].
    + right. right. destruct (chosen_one_line _ _ _ _ _ _ Est ltac:(by left)) as (_ & Hplain). by destruct (Hplain eq_refl) as (Hf & Hl & Hs & Ha).
    + left. destruct (chosen_one_line _ _ _ _ _ _ Est ltac:(by right)) as (Hp & _). by rewrite single_quoted_units.
Qed.

Lemma untyped_text o types s : testImplicitResolving o s = false →
  (∀ ty h, In ty types → lt_resolve ty (text_value s) h = true → testImplicitResolving o s = true) →
  ∀ h, existsb (λ ty, lt_resolve ty (text_value s) h) types = false.
Proof. intros Ha Hi h. apply not_true_iff_false. intros (ty & Hin & Hr)%existsb_exists. by rewrite (Hi ty h Hin Hr) in Ha. Qed.

(** ** Documents of each style *)
Lemma resolve_implicit_none types s : existsb (λ ty, lt_resolve ty (n_result s) (objs s)) types = false →
  resolve_implicit types s = Ok (tt, s).
Proof.
  induction types as [|ty types IH]; [done|]. cbn [existsb]. intros [H1 H2]%orb_false_iff. cbn [resolve_implicit].
  rewrite (lbind_run _ _ s (n_result s) s) // (lbind_run _ _ s (objs s) s) // H1. by apply IH.
Qed.

Lemma scalar_found read s c t : read (cur s) = Ok (c, Some t) →
  scalar read s = Ok (true, with_cur c (with_node (n_tag s) (n_anchor s) (Some #"scalar") (text_value t) s)).
Proof. intros H. unfold scalar. by rewrite H. Qed.

Lemma scalar_absent read s : read (cur s) = Ok (cur s, None) → scalar read s = Ok (false, s).
Proof. intros H. unfold scalar. rewrite H. cbn. by destruct s. Qed.

(** The reader of scalars on a text in quotes, and on a plain one. *)
Lemma read_scalar_quoted input filename pi flow x c1 t s : here input (cur s) = x → has x [34; 39] = true → n_tag s = None → n_anchor s = None →
  (if x =? 39 then readSingleQuotedScalar else readDoubleQuotedScalar) input filename (cur s) = Ok (c1, Some t) →
  read_scalar input filename pi false flow s = Ok (true, scalar_read t c1 None s).
Proof.
  intros Hx Hq Ht Ha Hr. set (s' := scalar_read t c1 None s). assert (x = 34 ∨ x = 39) as Hx' by (unfold has in Hq; cbn [existsb] in Hq; lia).
  unfold read_scalar. rewrite (lbind_run _ _ s true s') //. unfold or_read at 1. rewrite (lbind_run _ _ s false s) //. unfold or_read.
  destruct Hx' as [E|E]; rewrite E in Hr Hx.
  - rewrite (lbind_run _ _ s false s); [|apply scalar_absent; unfold readSingleQuotedScalar; by rewrite Hx].
    rewrite (scalar_found _ s c1 t) //. by rewrite Ht Ha.
  - rewrite (lbind_run _ _ s true s') //. rewrite (scalar_found _ s c1 t) //. by rewrite Ht Ha.
Qed.

Lemma read_scalar_plain input filename pi flow x c1 t s : here input (cur s) = x → has x [34; 39; 42] = false → n_tag s = None → n_anchor s = None →
  readPlainScalar input filename pi flow (cur s) = Ok (c1, Some t) →
  read_scalar input filename pi false flow s = Ok (true, scalar_read t c1 (Some #"?") s).
Proof.
  intros Hx Hq Ht Ha Hr. unfold has in Hq. cbn [existsb] in Hq. rewrite !orb_false_iff in Hq. destruct Hq as (X34 & X39 & X42 & _).
  unfold read_scalar. rewrite (lbind_run _ _ s false s).
  2: { unfold or_read at 1. rewrite (lbind_run _ _ s false s) //. unfold or_read.
       rewrite (lbind_run _ _ s false s); apply scalar_absent.
       - unfold readDoubleQuotedScalar. by rewrite Hx X34.
       - unfold readSingleQuotedScalar. by rewrite Hx X39. }
  set (s' := scalar_read t c1 (Some #"?") s). rewrite (lbind_run _ _ s true s'); [done|].
  rewrite (lbind_run _ _ s false s).
  2: { unfold readAlias. rewrite (lbind_run _ _ s x s); [by rewrite X42|by apply peek_at]. }
  set (s1 := scalar_read t c1 None s). rewrite (lbind_run _ _ s true s1); [done|]. rewrite (scalar_found _ s c1 t) //. by rewrite Ht Ha.
Qed.

Section styles.
Context (filename : jstr) (json legacy : bool) (implicitTypes : list ltype) (typeMap : list (jstr * ltype)).

(** A reader of a quoted scalar succeeds on the whole line. *)
Lemma quoted_loaded h x q' t : let q := x :: q' in let input := q ++ [10; 0] in
  has x [34; 39] = true →
  (if x =? 39 then readSingleQuotedScalar else readDoubleQuotedScalar) input filename start_cursor =
    Ok (move (length q) start_cursor, Some t) →
  ∃ h', load filename json legacy implicitTypes typeMap (q ++ [10]) h = Ok (text_value t, h').
Proof.
  intros q input Hx Hr. assert (x = 34 ∨ x = 39) as Hx' by (unfold has in Hx; cbn [existsb] in Hx; lia).
  pose proof (code_at input q 10 [0] eq_refl) as H10.
  apply (scalar_loaded filename json legacy implicitTypes typeMap q q' x t (text_value t) (move (length q) start_cursor)
    (end_cursor q (move (length q) start_cursor)) 1 None).
  - done.
  - by destruct Hx' as [-> | ->].
  - intros s Hc Ht Ha. apply (read_scalar_quoted _ _ _ _ x); [by rewrite Hc|done|done|done|by rewrite Hc].
  - unfold here. cbn [c_position move]. by rewrite H10.
  - by apply separation_end.
  - done.
  - by destruct Hx' as [-> | ->].
  - intros s. by exists (scalar_read t (move (length q) start_cursor) None s).
  - by destruct Hx' as [-> | ->].
Qed.

Lemma double_loaded h s : wf_jstr s →
  ∃ h', load filename json legacy implicitTypes typeMap (([34] ++ escapeString s ++ [34]) ++ [10]) h = Ok (text_value s, h').
Proof.
  intros Hw. apply quoted_loaded; [done|]. cbn [Z.eqb Pos.eqb]. unfold readDoubleQuotedScalar. set (input := _ ++ [10; 0]).
  change (here input start_cursor =? 34) with true. cbv iota zeta.
  rewrite (double_loop_reads input filename s (S (length input)) [34] [] [10; 0] [] (advance start_cursor)).
  - cbn [mbind res_bind]. unfold advance. rewrite move_move. cbn. rewrite length_app Nat.add_1_r. done.
  - unfold input. cbn. by rewrite -app_assoc.
  - done.
  - done.
  - cbn. lia.
  - done.
  - unfold input. cbn. rewrite !length_app. cbn. lia.
Qed.

Lemma single_loaded h s : forallb isPrintable s = true →
  ∃ h', load filename json legacy implicitTypes typeMap ((39 :: quote_units s ++ [39]) ++ [10]) h = Ok (text_value s, h').
Proof.
  intros Hw. apply quoted_loaded; [done|]. cbn [Z.eqb Pos.eqb]. unfold readSingleQuotedScalar. set (input := _ ++ [10; 0]).
  change (here input start_cursor =? 39) with true. cbv iota zeta.
  assert (input = [39] ++ [] ++ quote_units s ++ 39 :: [10; 0]) as E by (unfold input; cbn; by rewrite -app_assoc).
  rewrite (single_loop_reads input filename s (S (length input)) [39] [] [10; 0] [] (advance start_cursor)).
  - cbn [mbind res_bind]. unfold advance. rewrite move_move. cbn. rewrite length_app Nat.add_1_r. done.
  - done.
  - done.
  - pose proof (code_at input ([39] ++ quote_units s ++ [39]) 10 [0] eq_refl) as H10.
    rewrite !length_app Nat.add_1_r in H10. cbn [length Nat.add] in *. by rewrite H10.
  - done.
  - cbn. lia.
  - rewrite forallb_forall in Hw. apply forallb_forall. intros c Hc%Hw. unfold line_unit, json_unit_ok, is_EOL. unfold isPrintable in Hc. lia.
  - rewrite E. cbn. rewrite length_app. cbn. lia.
Qed.

(** A text that is, or starts, the line that ends a document. *)
Definition ends_document (s : jstr) : bool := streq (take 3 s) #"..." && is_WS_OR_EOL (default 10 (s !! 3%nat)).

(** How a plain scalar may start: what the dumper accepts, and a negative number. *)
Definition plain_start (s : jstr) : bool := isPlainSafeFirst (unit_at s 0) || ((unit_at s 0 =? 45) && is_digit (unit_at s 1)).

Lemma plain_separator s : forallb isPlainSafe s = true → plain_start s = true → ends_document s = false →
  at_separator (s ++ [10; 0]) start_cursor = false.
Proof.
  intros Hs Hf He. apply not_true_iff_false. unfold at_separator, testDocumentSeparator. cbn [c_position start_cursor c_lineStart Nat.eqb Nat.add andb].
  intros [[[Ha H1%Z.eqb_eq]%andb_true_iff H2%Z.eqb_eq]%andb_true_iff H3]%andb_true_iff.
  destruct s as [|a s]; [done|]. change (code ((a :: s) ++ [10; 0]) 0) with a in *. unfold plain_start in Hf.
  change (unit_at (a :: s) 0) with a in Hf.
  destruct s as [|b s]; [by destruct (Z.eqb_spec a 45) as [->|]; [|unfold code in H1; cbn in H1; subst a]|].
  change (unit_at (a :: b :: s) 1) with b in Hf. unfold code in H1. cbn in H1. subst b.
  assert (a = 46) as -> by (clear -Ha Hf; unfold isPlainSafeFirst, is_digit in Hf; lia).
  destruct s as [|c s]; [done|]. unfold code in H2. cbn in H2. subst c.
  unfold ends_document in He. change (streq (take 3 (46 :: 46 :: 46 :: s)) #"...") with true in He. cbn [andb] in He.
  destruct s as [|d s]; [done|]. cbn in He. unfold code in H3. cbn in H3. rewrite He orb_false_r in H3.
  apply Z.eqb_eq in H3 as ->. done.
Qed.

Lemma plain_start_starts s : plain_start s = true → starts_plain (s ++ [10; 0]) false 0 = true.
Proof.
  intros [Hf|[Hx Hd]%andb_true_iff]%orb_true_iff; destruct s as [|x s]; try done.
  - by apply plain_first_starts.
  - change (unit_at (x :: s) 0) with x in Hx. apply Z.eqb_eq in Hx as ->. destruct s as [|y s]; [done|].
    change (unit_at (45 :: y :: s) 1) with y in Hd. unfold starts_plain.
    change (code ((45 :: y :: s) ++ [10; 0]) 0) with 45. change (code ((45 :: y :: s) ++ [10; 0]) 1) with y.
    change (is_WS_OR_EOL 45 || is_FLOW_INDICATOR 45 || has 45 #"#&*!|>'%@`" || (45 =? 34)) with false.
    unfold ends_key, is_WS_OR_EOL, is_digit in *. cbn. lia.
Qed.

Lemma last_default (l : jstr) (x d e : Z) : List.last (x :: l) d = List.last (x :: l) e.
Proof. revert x. induction l as [|y l IH]; intros x; [done|]. apply (IH y). Qed.

(** The node a plain scalar becomes. *)
Definition resolves_to (s : jstr) (v : hval) : Prop := ∀ st, n_result st = text_value s → n_anchor st = None →
  ∃ st', resolve_implicit implicitTypes st = Ok (tt, st') ∧
    cur st' = cur st ∧ objs st' = objs st ∧ n_result st' = v ∧ documents st' = documents st.

Lemma plain_loaded h s v : forallb isPlainSafe s = true → plain_start s = true →
  isWhitespace (List.last s (-1)) = false → ends_document s = false → resolves_to s v →
  ∃ h', load filename json legacy implicitTypes typeMap (s ++ [10]) h = Ok (v, h').
Proof.
  intros Hs Hf Hl He Hi. pose proof (plain_start_starts s Hf) as Hstart. pose proof (plain_separator s Hs Hf He) as Hsep.
  destruct s as [|x q'] eqn:Es; [done|]. rewrite -Es in Hs Hf Hl He Hi Hstart Hsep |- *.
  assert (unit_at s 0 = x) as Hx by (by rewrite Es). unfold plain_start in Hf. rewrite Hx in Hf.
  set (input := s ++ [10; 0]). set (c1 := end_cursor s start_cursor).
  assert (here input c1 = 0) as H0.
  { pose proof (code_at input (s ++ [10]) 0 [] ltac:(unfold input; by rewrite -app_assoc)) as H.
    by rewrite length_app Nat.add_1_r in H. }
  assert (x ∉ [34; 39; 42; 65279; 0; 9; 10; 13; 32; 33; 35; 37; 38; 58; 63; 91; 123]) as Hq.
  { intros Hin. assert (forallb (λ x, negb (isPlainSafeFirst x || (x =? 45))) [34; 39; 42; 65279; 0; 9; 10; 13; 32; 33; 35; 37; 38; 58; 63; 91; 123] = true) as Hall
      by (vm_compute; reflexivity). rewrite forallb_forall in Hall. apply list_elem_of_In, Hall, negb_true_iff, orb_false_iff in Hin as [H1 H2].
    by rewrite H1 H2 in Hf. }
  assert (x ≠ 34 ∧ x ≠ 39 ∧ x ≠ 42 ∧ x ≠ 65279) as (X34%Z.eqb_neq & X39%Z.eqb_neq & X42%Z.eqb_neq & Xbom) by (split_and!; intros ->; apply Hq, has_spec; reflexivity).
  assert (here input start_cursor = x) as Hfirst by (unfold here, input; by rewrite Es).
  apply (scalar_loaded filename json legacy implicitTypes typeMap s q' x s v c1 c1 0 (Some #"?")).
  - done.
  - apply has_false. intros Hin. apply Hq. do 4 right. exact Hin.
  - intros st Hc Ht Ha. apply (read_scalar_plain _ _ _ _ x); [by rewrite Hc|by rewrite /has /= X34 X39 X42|done|done|].
    rewrite Hc. apply readPlainScalar_reads; try done.
    + by rewrite Es.
    + rewrite Es in Hl |- *. rewrite (last_default _ _ 0 (-1)). unfold is_WHITE_SPACE, isWhitespace in *. lia.
  - by rewrite H0.
  - apply separation_none. by rewrite H0.
  - done.
  - intros ->. assert (is_digit (unit_at s 1) = true) as Hd by exact Hf.
    rewrite Es in Hd |- *. destruct q' as [|y q']; [done|]. change (unit_at (45 :: y :: q') 1) with y in Hd.
    change (code ((45 :: y :: q') ++ [10; 0]) 1) with y. unfold is_digit in Hd. unfold has. cbn [existsb]. lia.
  - intros st. destruct (Hi (scalar_read s c1 (Some #"?") st)) as (st' & E & H1 & H2 & H3 & H4); [done|done|]. exists st'. split; [|done].
    unfold resolve_tag. rewrite (lbind_run _ _ _ (Some #"?") (scalar_read s c1 (Some #"?") st)) //.
  - exact Xbom.
Qed.

Lemma resolves_to_text s : (∀ h, existsb (λ ty, lt_resolve ty (text_value s) h) implicitTypes = false) → resolves_to s (text_value s).
Proof. intros H st Hr Ha. exists st. split; [|done]. apply resolve_implicit_none. rewrite Hr. apply H. Qed.

(** A text the dumper writes on one line. *)
Lemma written_loaded o s level iskey h :
  wf_jstr s → has (List.hd 0 (writeScalar o s level iskey)) #"|>" = false → ends_document s = false →
  (∀ ty h, In ty implicitTypes → lt_resolve ty (text_value s) h = true → testImplicitResolving o s = true) →
  ∃ h', load filename json legacy implicitTypes typeMap (writeScalar o s level iskey ++ [10]) h = Ok (text_value s, h').
Proof.
  intros Hw Hb He Hi. destruct (written_forms o s level iskey Hb) as [[-> Hp]|[->|(-> & Hf & Hl & Hs & Ha)]].
  - by apply single_loaded.
  - by apply double_loaded.
  - apply plain_loaded; [done|unfold plain_start; by rewrite Hf|done|done|]. apply resolves_to_text. by apply (untyped_text o).
Qed.
End styles.

(** ** The dumper on a text *)

Lemma detect_none o types explicit x s :
  (∀ t f, In t types → dt_test t = Some f → f x (d_heap s) = false) → detectType o types explicit x s = Ok (false, s).
Proof.
  induction types as [|t types IH]; intros H; [done|]. cbn [detectType]. unfold mbind at 1, dm_bind, state.
  destruct (dt_test t) as [f|] eqn:E; [rewrite (H t f (or_introl eq_refl) E)|]; apply IH; intros t' f' Hin; apply H; by right.
Qed.

Lemma dbind_run {A B} (m : dm A) (f : A → dm B) s a s' : m s = Ok (a, s') → (m ≫= f) s = f a s'.
Proof. unfold mbind, dm_bind. by intros ->. Qed.

(** What the types leave in the state is written. *)
Lemma dump_of_scalar o x found s h :
  (∃ b, detectType o (o_implicit o) false (HV x) {| d_tag := None; d_dump := HV x; d_used := []; d_heap := h |} =
          Ok (b, {| d_tag := if found then Some #"?" else None; d_dump := text_value s; d_used := []; d_heap := h |}) ∧ b = found) →
  (found = false → x = VStr s ∧ ∀ t f, In t (o_explicit o) → dt_test t = Some f → f (HV x) h = false) →
  dump o (HV x) h = Ok ((if found then s else writeScalar o s 0 false) ++ [10]).
Proof.
  intros (b & Hd & ->) He. unfold dump.
  assert ((if o_noRefs o then Ok [] else getDuplicateReferences h (HV x)) = Ok []) as -> by (by destruct (o_noRefs o)).
  set (s0 := {| d_tag := None; d_dump := undefined; d_used := []; d_heap := h |}).
  set (s1 := {| d_tag := None; d_dump := HV x; d_used := []; d_heap := h |}) in *.
  set (s2 := {| d_tag := if found then Some #"?" else None; d_dump := text_value s; d_used := []; d_heap := h |}) in *.
  assert (∃ s3, writeNode o (S (S (length h))) [] 0 (HV x) true true false s0 = Ok (true, s3) ∧
    d_dump s3 = text_value (if found then s else writeScalar o s 0 false)) as (s3 & Hn & H3); [|by cbn [mbind res_bind]; rewrite Hn; cbn; rewrite H3].
  remember (S (length h)) as n eqn:En. cbn [writeNode]. rewrite (dbind_run _ _ s0 tt s0) // (dbind_run _ _ s0 tt s1) //.
  rewrite (dbind_run _ _ s1 found s2) //. rewrite (dbind_run _ _ s2 found s2).
  2: { destruct found; [done|]. destruct (He eq_refl) as [-> Hf]. by apply detect_none. }
  destruct found; [by exists s2|].
  exists {| d_tag := None; d_dump := text_value (writeScalar o s 0 false); d_used := []; d_heap := h |}. by split.
Qed.

Section roundtrip.
Context (o : dump_options) (filename : jstr) (json legacy : bool) (d_rest : list dtype) (l_rest : list ltype)
  (typeMap : list (jstr * ltype)).
Hypothesis dump_types : o_implicit o = dump_first ++ d_rest.
Hypothesis dump_styles : o_styleMap o = [].

(** Values the dumper writes as text that the loader types. *)
Definition typed_text (x : value) : option jstr :=
  match x with
  | VNull => Some #"null"
  | VBool b => Some (if b then #"true" else #"false")
  | VNum n => Some (str_of_Z n)
  | _ => None
  end.

Lemma typed_dumped x s h : typed_text x = Some s → dump o (HV x) h = Ok (s ++ [10]).
Proof.
  intros Hs. apply (dump_of_scalar o x true s h); [|done]. exists true. split; [|done]. rewrite dump_types.
  destruct x; try done; injection Hs as <-; cbn [app detectType dump_first]; unfold mbind, dm_bind, represent_with; cbn;
    rewrite dump_styles; reflexivity.
Qed.

(** The texts of numbers. *)
Lemma number_text n : forallb isPlainSafe (str_of_Z n) = true ∧ plain_start (str_of_Z n) = true ∧
  isWhitespace (List.last (str_of_Z n) (-1)) = false ∧ ends_document (str_of_Z n) = false ∧
  resolveYamlNull (Some (str_of_Z n)) = false ∧ resolveYamlBoolean (Some (str_of_Z n)) = false.
Proof.
  assert (∃ sign d, str_of_Z n = sign ++ d ∧ (sign = [] ∨ sign = [45]) ∧ d ≠ [] ∧ forallb is_digit d = true) as (sign & d & -> & Hs & Hne & Hd).
  { destruct (Z.lt_ge_cases n 0) as [Hn|Hn].
    - destruct (str_of_Z_digits (- n)) as (H1 & _ & H3 & _); [lia|]. exists [45], (str_of_Z (- n)). by rewrite str_of_Z_neg; [auto|].
    - destruct (str_of_Z_digits n) as (H1 & _ & H3 & _); [lia|]. exists [], (str_of_Z n). auto. }
  assert (∀ c, is_digit c = true → isPlainSafe c = true ∧ isPlainSafeFirst c = true ∧ isWhitespace c = false) as Hc.
  { intros c. unfold is_digit, isPlainSafe, isPlainSafeFirst, isPrintable, isWhitespace. intros H. repeat split; lia. }
  assert (∀ c, c ∈ d → is_digit c = true) as Hin by (rewrite forallb_forall in Hd; intros c Hin; by apply Hd, list_elem_of_In).
  assert (∃ c t, d = c :: t ∧ is_digit c = true) as (c & t & Ed & Hc0).
  { destruct d as [|c t]; [done|]. exists c, t. split; [done|]. apply Hin. left. }
  assert (∀ l : list jstr, sign ++ d ∈ l → forallb (λ u, negb (is_digit (List.hd 0 u)) && negb (List.hd 0 u =? 45)) l = true → False) as Hno.
  { intros l Hl Hall. rewrite forallb_forall in Hall. apply list_elem_of_In, Hall, andb_true_iff in Hl as [H1 H2].
    rewrite Ed in H1, H2. destruct Hs as [-> | ->]; cbn in H1, H2; [by rewrite Hc0 in H1|done]. }
  split_and!.
  - rewrite forallb_app. apply andb_true_iff. split; [by destruct Hs as [-> | ->]|]. apply forallb_forall.
    intros x Hx%list_elem_of_In. by apply Hc, Hin.
  - unfold plain_start. rewrite Ed. destruct Hs as [-> | ->].
    + change (unit_at ([] ++ c :: t) 0) with c. by rewrite (proj1 (proj2 (Hc c Hc0))).
    + change (unit_at ([45] ++ c :: t) 1) with c. by rewrite Hc0 orb_true_r.
  - destruct (Hc (List.last d (-1))) as (_ & _ & H).
    + apply Hin, list_elem_of_In. rewrite {2}(app_removelast_last (-1) Hne). apply in_app_iff. right. by left.
    + destruct Hs as [-> | ->]; [done|]. rewrite Ed in H. by rewrite Ed.
  - unfold ends_document. apply andb_false_iff. left. apply streq_neq. rewrite Ed. destruct Hs as [-> | ->]; [|done].
    cbn. intros [= -> _]. done.
  - apply not_true_iff_false. intros H%null_texts. apply (Hno _ H). reflexivity.
  - apply not_true_iff_false. intros H%bool_texts. apply (Hno _ H). reflexivity.
Qed.

Lemma typed_resolves x s : typed_text x = Some s → resolves_to (load_first ++ l_rest) s (HV x).
Proof.
  intros Hs st Hr Ha. assert (∀ t y types, lt_resolve t (n_result st) (objs st) = true → lt_construct t (n_result st) (objs st) = Ok (y, objs st) →
    ∃ st', resolve_implicit (t :: types) st = Ok (tt, st') ∧ cur st' = cur st ∧ objs st' = objs st ∧ n_result st' = y ∧ documents st' = documents st) as Hfound.
  { intros t y types H1 H2. cbn [resolve_implicit]. rewrite (lbind_run _ _ st (n_result st) st) // (lbind_run _ _ st (objs st) st) // H1.
    rewrite (lbind_run _ _ st y st); [|unfold on_heap; rewrite H2; by destruct st].
    set (st' := with_result y (with_tag (Some (lt_tag t)) st)). rewrite (lbind_run _ _ st tt st') //. exists st'. split; [|done].
    unfold name_anchor, modify. cbn. by rewrite Ha. }
  assert (∀ t types, lt_resolve t (n_result st) (objs st) = false → resolve_implicit (t :: types) st = resolve_implicit types st) as Hnext.
  { intros t types H1. cbn [resolve_implicit]. by rewrite (lbind_run _ _ st (n_result st) st) // (lbind_run _ _ st (objs st) st) // H1. }
  unfold load_first. cbn [app]. rewrite Hr in Hfound, Hnext. destruct x as [| |b|n| | | |]; try done; injection Hs as <-.
  - by apply Hfound.
  - rewrite Hnext; [|by destruct b]. apply Hfound; by destruct b.
  - destruct (number_text n) as (_ & _ & _ & _ & Hnull & Hbool). rewrite Hnext // Hnext //.
    destruct (int_roundtrip Decimal n) as [H1 H2]; [by left|]. cbn [representYamlInteger] in H1, H2. apply Hfound; [done|].
    cbn. by rewrite H2.
Qed.

Lemma typed_loaded x s h : typed_text x = Some s →
  ∃ h', load filename json legacy (load_first ++ l_rest) typeMap (s ++ [10]) h = Ok (HV x, h').
Proof.
  intros Hs. pose proof (typed_resolves x s Hs) as Hr. destruct x as [| |b|n| | | |]; try done; injection Hs as <-.
  - by apply plain_loaded.
  - destruct b; by apply plain_loaded.
  - destruct (number_text n) as (H1 & H2 & H3 & H4 & _). by apply plain_loaded.
Qed.

(** A value that is not a collection, and what is required of it: numbers are those
    that are written with all their digits; a text is written on one line and does not
    end the document, and of the further types none represents it, and those that
    the loader tries are tested by the dumper. *)
Definition dumpable (x : value) (h : heap) : Prop :=
  match x with
  | VNull | VBool _ => True
  | VNum n => Z.abs n <= 2 ^ 53
  | VStr s =>
      wf_jstr s ∧ has (List.hd 0 (writeScalar o s 0 false)) #"|>" = false ∧ ends_document s = false ∧
      (∀ t f, In t (d_rest ++ o_explicit o) → dt_test t = Some f → f (text_value s) h = false) ∧
      (∀ ty h, In ty l_rest → lt_resolve ty (text_value s) h = true → existsb (λ t, dt_resolve t s) d_rest = true)
  | _ => False
  end.
End roundtrip.

(** (C36) A null, a truth value, an integer up to 2^53, or a text the dumper
    writes on one line, plain, in single quotes or in double quotes, is loaded
    back from what [dump] writes: the loader's type of the text is the value's.
    The texts are those the loader does not take for the end of a document
    ([ends_document]: the text begins with three dots, followed by nothing, a
    space or a line break; the dumper writes [...] plain and it is loaded as null,
    [three_dots_lost]), and that no further type claims: the schema's types null,
    bool and int come first, with no styles chosen; the others are any types
    whose loader claims a text only if their dumper does, and that do not dump
    a text themselves. *)
Theorem scalar_roundtrip o filename json legacy d_rest l_rest typeMap x h :
  o_implicit o = dump_first ++ d_rest → o_styleMap o = [] → dumpable o d_rest l_rest x h →
  ∃ text h', dump o (HV x) h = Ok text ∧
    load filename json legacy (load_first ++ l_rest) typeMap text h = Ok (HV x, h').
Proof.
  intros Ht Hs Hx. destruct (typed_text x) as [s|] eqn:Es.
  - destruct (typed_loaded filename json legacy l_rest typeMap x s h Es) as (h' & Hl). exists (s ++ [10]), h'.
    split; [by apply (typed_dumped o d_rest)|done].
  - destruct x as [| | | | |s| |]; try done. destruct Hx as (Hw & Hb & He & Hd & Hi).
    destruct (written_loaded filename json legacy (load_first ++ l_rest) typeMap o s 0 false h Hw Hb He) as (h' & Hl).
    { unfold testImplicitResolving. rewrite Ht. intros ty h1 Hin Hr. rewrite existsb_app. apply orb_true_iff.
      apply in_app_iff in Hin as [Hin|Hin]; [left; by apply (first_types_agree s h1 ty)|right; by apply (Hi ty h1)]. }
    exists (writeScalar o s 0 false ++ [10]), h'. split; [|done]. apply (dump_of_scalar o (VStr s) false s h).
    + exists false. split; [|done]. apply detect_none. rewrite Ht. intros t f [Hin|Hin]%in_app_iff Hf.
      * repeat destruct Hin as [<-|Hin]; try done; by injection Hf as <-.
      * apply (Hd t f); [apply in_app_iff; by left|done].
    + intros _. split; [done|]. intros t f Hin. apply Hd, in_app_iff. by right.
Qed.

(** The options [dump] has when it is given none. *)
Definition sample_options : dump_options :=
  {| o_indent := 2; o_skipInvalid := false; o_flowLevel := -1; o_styleMap := []; o_sortKeys := NoSort; o_lineWidth := 80;
     o_noRefs := false; o_noCompatMode := false; o_implicit := dump_first ++ [dump_merge]; o_explicit := [dump_str] |}.
Definition sample_load : jstr → hm hval := load #"a.yaml" false false (load_first ++ [load_merge]) [(yaml_tag #"str", load_str)].

Lemma scalar_roundtrip_witness :
  dump sample_options (HV (VStr #"it's 7: yes")) [] = Ok (#"'it''s 7: yes'" ++ [10]) ∧
  ∃ text h', dump sample_options (HV (VStr #"it's 7: yes")) [] = Ok text ∧
    load #"a.yaml" false false (load_first ++ [load_merge]) [(yaml_tag #"str", load_str)] text [] = Ok (HV (VStr #"it's 7: yes"), h').
Proof.
  split; [vm_compute; reflexivity|].
  apply (scalar_roundtrip sample_options #"a.yaml" false false [dump_merge] [load_merge] [(yaml_tag #"str", load_str)]
    (VStr #"it's 7: yes") []); [reflexivity|reflexivity|]. split_and!.
  - apply wf_check. reflexivity.
  - reflexivity.
  - reflexivity.
  - intros t f [<-|[<-|[]]]; discriminate.
  - intros ty h [<-|[]] Hr. discriminate Hr.
Defined.

(** The other styles. *)
Example roundtrip_styles :
  map (λ s, (writeScalar sample_options s 0 false,
             match sample_load (writeScalar sample_options s 0 false ++ [10]) [] with Ok (HV v, _) => v | _ => VUndef end))
    [ #"plain text"; #"12"; #"yes"; []; [7; 955; 55357]] =
  [(#"plain text", VStr #"plain text"); (#"'12'", VStr #"12"); (#"'yes'", VStr #"yes"); (#"''", VStr []);
   ([34] ++ #"\a" ++ [955] ++ #"\uD83D" ++ [34], VStr [7; 955; 55357])].
Proof. vm_compute. reflexivity. Qed.

(** The text of three dots is written plain, which ends the document: what is
    loaded is null. *)
Example three_dots_lost :
  dump sample_options (text_value #"...") [] = Ok (#"..." ++ [10]) ∧
  (∃ h, sample_load (#"..." ++ [10]) [] = Ok (null, h)).
Proof. split; [vm_compute; reflexivity|]. eexists. vm_compute. reflexivity. Qed.

(** A text of several lines that starts with a space is written with the
    indentation 2 in its header, which the loader counts from -1: what is loaded has a
    space more on every line. *)
Example leading_space_grows :
  dump sample_options (text_value (#" a" ++ [10] ++ #"b")) [] = Ok (#"|2-" ++ [10] ++ #"   a" ++ [10] ++ #"  b" ++ [10]) ∧
  (∃ h, sample_load (#"|2-" ++ [10] ++ #"   a" ++ [10] ++ #"  b" ++ [10]) [] = Ok (text_value (#"  a" ++ [10] ++ #" b"), h)).
Proof. split; [vm_compute; reflexivity|]. eexists. vm_compute. reflexivity. Qed.
