(* ===== verification/YamlTotal.v ===== *)
(** * js-yaml: the loader ends

    The loops of the loader run while the unit at the position is not the
    terminator; they would not end if a position passed it. No operation moves the
    position beyond the terminator or back, and every loop and every call of
    [composeNode] inside itself makes progress, so that the bounds of the model are
    never reached. *)

From S2P Require Import Prelude JsValue JsHeap YamlTypes YamlMark YamlScan YamlLoader YamlCore.

Create HintDb total.

Section total.
Context (input filename : jstr).
(** The text ends in a line break, and the terminator follows. *)
Hypothesis terminated : ∃ t, input = t ++ [0] ∧ (t = [] ∨ is_EOL (List.last t 0) = true).

(** A cursor in the text; on a line, it is not before the indentation. *)
Definition placed (c : cursor) : Prop :=
  (c_position c < length input)%nat ∧ 0 <= c_lineIndent c ∧ Z.of_nat (c_lineStart c) + c_lineIndent c <= Z.of_nat (c_position c).

(** A cursor that is reached: it is the same, or further on. *)
Definition reached (c c' : cursor) : Prop := placed c' ∧ (c' = c ∨ (c_position c < c_position c')%nat).
Definition passed (c c' : cursor) : Prop := placed c' ∧ (c_position c < c_position c')%nat.

Lemma reached_refl c : placed c → reached c c.
Proof. intros H. split; [done|by left]. Qed.
Lemma reached_trans a b c : reached a b → reached b c → reached a c.
Proof. intros [H1 H2] [H3 H4]. split; [done|]. destruct H2 as [->|H2]; [done|]. destruct H4 as [->|H4]; right; lia. Qed.
Lemma passed_reached a b : passed a b → reached a b.
Proof. intros [H1 H2]. split; [done|by right]. Qed.
Lemma passed_trans_l a b c : passed a b → reached b c → passed a c.
Proof. intros [H1 H2] [H3 [->|H4]]; split; try done; lia. Qed.
Lemma passed_trans_r a b c : reached a b → passed b c → passed a c.
Proof. intros [H1 [->|H2]] [H3 H4]; split; try done; lia. Qed.
Lemma reached_placed a b : reached a b → placed b.
Proof. by intros []. Qed.
Lemma reached_le a b : reached a b → (c_position a <= c_position b)%nat.
Proof. intros [_ [->|]]; lia. Qed.

(** A turn that makes progress needs one less. *)
Lemma turn_left a b n : placed a → passed a b → (length input - c_position a < S n)%nat → (length input - c_position b < n)%nat.
Proof. intros (H1 & _) [_ H2] H3. lia. Qed.

(** ** Units *)

Lemma last_unit : (0 < length input)%nat ∧ code input (length input - 1) = 0.
Proof.
  destruct terminated as (t & E & _). rewrite E length_app. cbn [length]. split; [lia|].
  unfold code. replace (length t + 1 - 1)%nat with (length t) by lia. by rewrite list_lookup_middle.
Qed.

(** A unit that is not the terminator is not the last one. *)
Lemma not_last p : (p < length input)%nat → code input p ≠ 0 → (S p < length input)%nat.
Proof. destruct last_unit as [_ H]. intros Hp Hc. destruct (decide (p = length input - 1)%nat) as [->|]; [done|lia]. Qed.

Lemma placed_advance c : placed c → here input c ≠ 0 → passed c (advance c).
Proof. intros (H1 & H2 & H3) Hc. apply not_last in Hc; [|done]. unfold passed, placed. cbn. lia. Qed.

(** Units that are skipped are not the terminator. *)
Lemma skip_within f p : (p < length input)%nat → f 0 = false → (p <= skip input f p < length input)%nat ∧ f (code input (skip input f p)) = false.
Proof.
  intros Hp Hf. unfold skip. remember (length input - p)%nat as n eqn:En. revert p Hp En. induction n as [|n IH]; intros p Hp En; [lia|].
  cbn [skip_while]. destruct (f (code input p)) eqn:E; [|split; [lia|done]].
  assert (code input p ≠ 0) as Hc by (intros H; rewrite H in E; congruence). apply not_last in Hc; [|done].
  destruct (IH (S p) Hc ltac:(lia)) as [H1 H2]. split; [lia|done].
Qed.

Lemma skip_le f p : (p <= skip input f p)%nat.
Proof.
  unfold skip. generalize (length input - p)%nat as n. intros n. revert p. induction n as [|n IH]; intros p; cbn [skip_while]; [lia|].
  destruct (f (code input p)); [|lia]. specialize (IH (S p)). lia.
Qed.

Lemma placed_move c p : placed c → (c_position c <= p < length input)%nat → reached c (move p c).
Proof.
  intros (H1 & H2 & H3) Hp. split; [unfold placed; cbn; lia|].
  destruct (decide (p = c_position c)) as [->|]; [left; by destruct c|right; cbn; lia].
Qed.

Lemma placed_skip c f : placed c → f 0 = false → reached c (move (skip input f (c_position c)) c).
Proof. intros Hc Hf. apply placed_move; [done|]. apply skip_within; [by destruct Hc|done]. Qed.

(** ** Separation *)

Lemma line_break_placed c : placed c → is_EOL (here input c) = true →
  ∃ c', readLineBreak input filename c = Ok c' ∧ (c_position c < c_position c' < length input)%nat ∧ c_lineStart c' = c_position c'.
Proof.
  intros (H1 & _) He. unfold readLineBreak. unfold here, is_EOL in He.
  assert (S (c_position c) < length input)%nat as Hn by (apply not_last; [done|]; intros H; by rewrite H in He).
  destruct (Z.eqb_spec (code input (c_position c)) 10); [eexists; split; [done|cbn; lia]|]. cbn in He. rewrite He.
  eexists. split; [done|]. cbn. destruct (Z.eqb_spec (code input (S (c_position c))) 10) as [E|E]; [|lia].
  assert (S (S (c_position c)) < length input)%nat by (apply not_last; [done|]; by rewrite E). lia.
Qed.

Lemma read_indent_placed c : (c_position c < length input)%nat → c_lineStart c = c_position c →
  placed (read_indent input c) ∧ (c_position c <= c_position (read_indent input c))%nat ∧ is_SPACE (here input (read_indent input c)) = false.
Proof.
  intros Hp Hl. unfold read_indent. destruct (skip_within is_SPACE (c_position c) Hp eq_refl) as [H1 H2].
  split_and!; [|cbn; lia|exact H2]. unfold placed. cbn. rewrite Hl. lia.
Qed.

(** The comment after the white space. *)
Definition comment_end (allow : bool) (p : nat) : nat :=
  if allow && (code input p =? 35) then skip input not_EOL (S p) else p.

Lemma comment_within allow p : (p < length input)%nat → (p <= comment_end allow p < length input)%nat.
Proof.
  intros Hp. unfold comment_end. destruct (allow && (code input p =? 35)) eqn:E; [|lia]. apply andb_true_iff in E as [_ E%Z.eqb_eq].
  assert (S p < length input)%nat as Hs by (apply not_last; [done|]; by rewrite E). pose proof (skip_within not_EOL (S p) Hs eq_refl). lia.
Qed.

Lemma separation_reaches n allow : ∀ c k, placed c → (length input - c_position c < n)%nat →
  reached c (separation input filename n allow c k).1 ∧ is_EOL (here input (separation input filename n allow c k).1) = false.
Proof.
  induction n as [|n IH]; intros c k Hc Hn; [lia|]. cbn [separation]. destruct (Z.eqb_spec (here input c) 0) as [E0|E0].
  { split; [by apply reached_refl|]. cbn. by rewrite E0. }
  set (p := skip input is_WHITE_SPACE (c_position c)). pose proof Hc as (Hp & _).
  destruct (skip_within is_WHITE_SPACE (c_position c) Hp eq_refl) as [Hs _]. fold p in Hs.
  fold (comment_end allow p). pose proof (comment_within allow p ltac:(lia)) as Hq. set (q := comment_end allow p) in *.
  assert (reached c (move q c)) as Hr by (apply placed_move; [done|lia]).
  destruct (is_EOL (code input q)) eqn:He; [|done].
  destruct (line_break_placed (move q c)) as (c' & -> & Hc' & Hl); [by eapply reached_placed|done|]. cbn [c_position move] in Hc'.
  destruct (read_indent_placed c') as (H1 & H2 & H3); [lia|done|].
  destruct (IH (read_indent input c') (k + 1) H1) as [H4 H5]; [lia|]. split; [|done].
  apply passed_reached. eapply passed_trans_l; [|exact H4]. split; [done|]. lia.
Qed.

Lemma separation_placed allow c : placed c →
  reached c (skipSeparationSpace input filename allow c).1 ∧ is_EOL (here input (skipSeparationSpace input filename allow c).1) = false.
Proof. intros Hc. apply separation_reaches; [done|]. lia. Qed.

Lemma separation_passed allow c : placed c → is_EOL (here input c) = true → passed c (skipSeparationSpace input filename allow c).1.
Proof. intros Hc He. destruct (separation_placed allow c Hc) as [[H1 [H2|H2]] H3]; [|done]. by rewrite H2 He in H3. Qed.

(** ** Scalars *)

(** A computation on the text that ends. *)
Definition ends {A} (r : res A) (Q : A → Prop) : Prop := match r with Ok a => Q a | Throw _ => no_overflow r end.

Lemma ends_bind {A B} (m : res A) (f : A → res B) Q R : ends m Q → (∀ a, Q a → ends (f a) R) → ends (m ≫= f) R.
Proof. destruct m as [a|e]; cbn; [auto|]. intros H _ [= ->]. by apply H. Qed.

Lemma ends_mono {A} (m : res A) (Q R : A → Prop) : ends m Q → (∀ a, Q a → R a) → ends m R.
Proof. destruct m; cbn; auto. Qed.

Lemma throw_ends {A} c message (Q : A → Prop) : ends (throwError input filename c message) Q.
Proof. done. Qed.

Lemma capture_ends c a b j r : ends (captureSegment input filename c a b j r) (λ _, True).
Proof. unfold captureSegment. repeat case_match; done. Qed.

Lemma ends_later {A} (m : res (cursor * A)) c c' : passed c c' → ends m (λ x, reached c' x.1) → ends m (λ x, passed c x.1).
Proof. intros Hc H. eapply ends_mono; [exact H|]. intros x Hx. by eapply passed_trans_l. Qed.

(** Loops that go on from a place further on. *)
Ltac go_on IH Hc Hn :=
  match goal with
  | H : passed ?c ?c' |- ends _ (λ x, passed ?c x.1) =>
      eapply (ends_later _ _ _ H), ends_mono;
      [apply IH; [by destruct H|exact (turn_left _ _ _ Hc H Hn)]|intros ??; by apply passed_reached]
  end.

Lemma single_loop_ends n : ∀ c a b r, placed c → (length input - c_position c < n)%nat →
  ends (single_loop input filename n c a b r) (λ x, passed c x.1).
Proof.
  induction n as [|n IH]; intros c a b r Hc Hn; [lia|]. cbn [single_loop].
  destruct (Z.eqb_spec (here input c) 0); [apply throw_ends|].
  pose proof (placed_advance c Hc ltac:(done)) as Ha.
  destruct (Z.eqb_spec (here input c) 39).
  - eapply ends_bind; [apply capture_ends|]. intros r' _. destruct (Z.eqb_spec (here input (advance c)) 39) as [E|E]; [|done].
    assert (passed c (advance (advance c))) as Hb.
    { eapply passed_trans_l; [exact Ha|]. apply passed_reached, placed_advance; [by destruct Ha|by rewrite E]. }
    go_on IH Hc Hn.
  - destruct (is_EOL (here input c)) eqn:He; [|destruct (at_separator input c); [apply throw_ends|go_on IH Hc Hn]].
    eapply ends_bind; [apply capture_ends|]. intros r' _. pose proof (separation_passed false c Hc He) as Hs.
    destruct (skipSeparationSpace input filename false c) as [c' k]. cbn [fst] in Hs. go_on IH Hc Hn.
Qed.

Lemma hex_loop_ends k : ∀ c x, placed c → here input c ≠ 0 →
  ends (hex_loop input filename k c x) (λ y, reached c y.1 ∧ here input y.1 ≠ 0).
Proof.
  induction k as [|k IH]; intros c x Hc H0; cbn [hex_loop]; [split; [by apply reached_refl|done]|].
  pose proof (placed_advance c Hc H0) as Ha. destruct (Z.leb_spec 0 (fromHexCode (here input (advance c)))) as [Hx|Hx]; [|apply throw_ends].
  eapply ends_mono; [apply IH; [by destruct Ha|]|].
  - intros E. by rewrite E in Hx.
  - intros y [H1 H2]. split; [|done]. eapply reached_trans; [apply passed_reached, Ha|done].
Qed.

Lemma read_escape_ends c r : placed c → ends (read_escape input filename c r) (λ x, passed c x.1).
Proof.
  intros Hc. unfold read_escape. destruct (is_EOL (here input c)) eqn:He; [by apply separation_passed|].
  destruct (_ && _) eqn:Es.
  - apply andb_true_iff in Es as [_ Es]. apply placed_advance; [done|]. intros E. by rewrite E in Es.
  - destruct (Nat.ltb_spec 0 (escapedHexLen (here input c))) as [Hx|Hx]; [|apply throw_ends].
    assert (here input c ≠ 0) as H0 by (intros E; rewrite E in Hx; cbn in Hx; lia).
    eapply ends_bind; [by apply hex_loop_ends|]. intros [c' x] [H1 H2]. cbn in H1, H2 |- *.
    eapply passed_trans_r; [exact H1|]. apply placed_advance; [by eapply reached_placed|done].
Qed.

Lemma double_loop_ends n : ∀ c a b r, placed c → (length input - c_position c < n)%nat →
  ends (double_loop input filename n c a b r) (λ x, passed c x.1).
Proof.
  induction n as [|n IH]; intros c a b r Hc Hn; [lia|]. cbn [double_loop].
  destruct (Z.eqb_spec (here input c) 0); [apply throw_ends|].
  pose proof (placed_advance c Hc ltac:(done)) as Ha.
  destruct (Z.eqb_spec (here input c) 34); [eapply ends_bind; [apply capture_ends|]; done|].
  destruct (Z.eqb_spec (here input c) 92).
  - eapply ends_bind; [apply capture_ends|]. intros r' _. eapply ends_bind; [apply read_escape_ends; by destruct Ha|].
    intros [c' r2] H1. cbn [fst] in H1. assert (passed c c') as H2 by (eapply passed_trans_l; [exact Ha|by apply passed_reached]).
    go_on IH Hc Hn.
  - destruct (is_EOL (here input c)) eqn:He; [|destruct (at_separator input c); [apply throw_ends|go_on IH Hc Hn]].
    eapply ends_bind; [apply capture_ends|]. intros r' _. pose proof (separation_passed false c Hc He) as Hs.
    destruct (skipSeparationSpace input filename false c) as [c' k]. cbn [fst] in Hs. go_on IH Hc Hn.
Qed.

(** A reader that ends at a place that is reached. *)
Definition reads_on (read : cursor → res (cursor * option jstr)) : Prop := ∀ c, placed c → ends (read c) (λ x, reached c x.1).

Lemma single_ends : reads_on (readSingleQuotedScalar input filename).
Proof.
  intros c Hc. unfold readSingleQuotedScalar. destruct (Z.eqb_spec (here input c) 39) as [E|E]; [|by apply reached_refl].
  pose proof (placed_advance c Hc ltac:(by rewrite E)) as Ha. eapply ends_bind; [apply single_loop_ends; [by destruct Ha|lia]|].
  intros [c' r] H. cbn in *. apply passed_reached. eapply passed_trans_l; [exact Ha|by apply passed_reached].
Qed.

Lemma double_ends : reads_on (readDoubleQuotedScalar input filename).
Proof.
  intros c Hc. unfold readDoubleQuotedScalar. destruct (Z.eqb_spec (here input c) 34) as [E|E]; [|by apply reached_refl].
  pose proof (placed_advance c Hc ltac:(by rewrite E)) as Ha. eapply ends_bind; [apply double_loop_ends; [by destruct Ha|lia]|].
  intros [c' r] H. cbn in *. apply passed_reached. eapply passed_trans_l; [exact Ha|by apply passed_reached].
Qed.

(** Inside a plain scalar that starts at [c0]: what is captured ends on the line of
    the cursor, unless it is pending. *)
Record in_plain (c0 c : cursor) (v : plain) : Prop := {
  plain_reached : reached c0 c;
  plain_captured : (captureEnd v <= c_position c)%nat;
  plain_started : c = c0 ∨ (c_position c0 < captureEnd v)%nat;
  plain_line : if hasPendingContent v then is_EOL (here input c) = false
               else Z.of_nat (c_lineStart c) + c_lineIndent c <= Z.of_nat (captureEnd v);
}.

(** A unit is read. *)
Lemma plain_unit_ends c0 c v : in_plain c0 c v → is_WS_OR_EOL (here input c0) = false → here input c ≠ 0 →
  ends (plain_unit input filename c v) (λ v', in_plain c0 (advance c) v').
Proof.
  intros [Hr Hc Hs Hl] H0 Hn. pose proof (reached_placed _ _ Hr) as Hp. pose proof (placed_advance c Hp Hn) as Ha.
  assert (reached c0 (advance c)) as Hr' by (eapply reached_trans; [exact Hr|by apply passed_reached]).
  assert (is_WHITE_SPACE (here input c) = true → c ≠ c0) as Hw.
  { intros Hw ->. unfold is_WHITE_SPACE, is_WS_OR_EOL in *. lia. }
  destruct Hp as (Hp1 & Hp2 & Hp3). pose proof (reached_le _ _ Hr) as Hle. unfold plain_unit.
  eapply (ends_bind _ _ (λ v', hasPendingContent v' = false ∧ (captureEnd v' <= c_position c)%nat ∧ (c = c0 ∨ (c_position c0 < captureEnd v')%nat) ∧
    Z.of_nat (c_lineStart c) + c_lineIndent c <= Z.of_nat (captureEnd v'))).
  - destruct (hasPendingContent v) eqn:Ev; [|by cbn]. eapply ends_bind; [apply capture_ends|]. intros r _. cbn. split_and!; [done|lia| |done].
    destruct Hr as [_ [->|]]; [by left|by right].
  - intros v' (E1 & E2 & E3 & E4). cbn. destruct (is_WHITE_SPACE (here input c)) eqn:Ew.
    + specialize (Hw eq_refl). split; [done|cbn; lia| |by rewrite E1]. right. by destruct E3.
    + split; [done|cbn; lia|right; cbn; lia|]. cbn. rewrite E1. lia.
Qed.

Lemma plain_loop_ends indent flow c0 n : is_WS_OR_EOL (here input c0) = false → ∀ c v, in_plain c0 c v →
  (length input - c_position c < n)%nat → ends (plain_loop input filename indent flow n c v) (λ x, reached c0 x.1).
Proof.
  intros H0. induction n as [|n IH]; intros c v Hv Hn; [lia|]. cbn [plain_loop]. pose proof Hv as [Hr Hc Hs Hl].
  pose proof (reached_placed _ _ Hr) as Hp. destruct (Z.eqb_spec (here input c) 0); [done|].
  destruct (plain_break input flow c); [done|]. destruct (is_EOL (here input c)) eqn:He.
  - destruct (hasPendingContent v) eqn:Ev; [congruence|].
    assert ((c_position c0 < captureEnd v)%nat) as Hst.
    { destruct Hs as [->|Hs]; [|done]. unfold is_EOL, is_WS_OR_EOL in *. lia. }
    pose proof (separation_passed false c Hp He) as Hq. destruct (separation_placed false c Hp) as [_ Hq'].
    set (c' := (skipSeparationSpace input filename false c).1) in *. destruct (indent <=? c_lineIndent c').
    + apply IH; [|exact (turn_left _ _ _ Hp Hq Hn)]. split; [|destruct Hq; cbn; lia|by right|done].
      eapply reached_trans; [exact Hr|by apply passed_reached].
    + destruct Hp as (Hp1 & Hp2 & Hp3). split; [unfold placed; cbn; lia|right; done].
  - eapply ends_bind; [by apply (plain_unit_ends c0)|]. intros v' Hv'. apply IH; [done|].
    apply (turn_left c); [done|by apply placed_advance|done].
Qed.

Lemma plain_ends indent flow : reads_on (readPlainScalar input filename indent flow).
Proof.
  intros c Hc. unfold readPlainScalar. destruct (starts_plain input flow (c_position c)) eqn:Es; cbn [negb]; [|by apply reached_refl].
  assert (is_WS_OR_EOL (here input c) = false) as H0.
  { unfold starts_plain in Es. unfold here. by destruct (is_WS_OR_EOL (code input (c_position c))). }
  eapply ends_bind; [apply (plain_loop_ends indent flow c); [done| |lia]|].
  - destruct Hc as (H1 & H2 & H3). split; [by apply reached_refl|cbn; lia|by left|cbn; lia].
  - intros [c' v] H. eapply ends_bind; [apply capture_ends|]. by intros r _.
Qed.

(** ** Block scalars *)

Lemma block_header_ends n indent : ∀ c ch ti, placed c → here input c ≠ 0 → (length input - c_position c < n)%nat →
  ends (block_header input filename n indent c ch ti) (λ x, passed c x.1.1).
Proof.
  induction n as [|n IH]; intros c ch ti Hc H0 Hn; [lia|]. cbn [block_header]. pose proof (placed_advance c Hc H0) as Ha.
  assert (∀ ch ti, here input (advance c) ≠ 0 → ends (block_header input filename n indent (advance c) ch ti) (λ x, passed c x.1.1)) as Hon.
  { intros ch' ti' H1. eapply ends_mono; [apply IH; [by destruct Ha|done|exact (turn_left _ _ _ Hc Ha Hn)]|].
    intros x Hx. eapply passed_trans_l; [exact Ha|by apply passed_reached]. }
  destruct (_ || _) eqn:Es.
  - assert (here input (advance c) ≠ 0) by (intros E; by rewrite E in Es). destruct ch; [by apply Hon|apply throw_ends..].
  - destruct (0 <=? fromDecimalCode (here input (advance c))) eqn:Ed; [|done].
    assert (here input (advance c) ≠ 0) by (intros E; by rewrite E in Ed).
    destruct (_ =? 0); [apply throw_ends|]. destruct ti; [apply throw_ends|by apply Hon].
Qed.

Lemma block_indent_placed v c : (c_position c < length input)%nat → c_lineStart c = c_position c →
  placed (block_indent input v c) ∧ (c_position c <= c_position (block_indent input v c))%nat.
Proof.
  intros Hp Hl. unfold block_indent. destruct (skip_within is_SPACE (c_position c) Hp eq_refl) as [H1 _].
  set (n := if detectedIndent v then _ else _). assert (n <= skip input is_SPACE (c_position c) - c_position c)%nat as Hn
    by (unfold n; destruct (detectedIndent v); lia).
  unfold placed. cbn [c_position c_lineIndent c_lineStart move set_indent]. rewrite Hl. lia.
Qed.

Lemma block_loop_ends n folding ch : ∀ c v, placed c → (length input - c_position c < n)%nat →
  ends (block_loop input filename n folding ch c v) (λ x, reached c x.1).
Proof.
  induction n as [|n IH]; intros c v Hc Hn; [lia|]. cbn [block_loop]. destruct (Z.eqb_spec (here input c) 0); [by apply reached_refl|].
  destruct (is_EOL (here input c)) eqn:He.
  2: { unfold readLineBreak. unfold is_EOL, here in He. apply orb_false_iff in He as [-> ->]. apply throw_ends. }
  destruct (line_break_placed c Hc He) as (c1 & -> & H1 & Hl). cbn [mbind res_bind].
  destruct (block_indent_placed v (set_indent 0 c1)) as [Hp Hle]; [cbn; lia|done|]. set (c2 := block_indent input v (set_indent 0 c1)) in *.
  assert (passed c c2) as H2 by (split; [done|]; change (c_position (set_indent 0 c1)) with (c_position c1) in Hle; lia).
  destruct (is_EOL (here input c2)).
  - eapply ends_mono; [apply IH; [done|exact (turn_left _ _ _ Hc H2 Hn)]|]. intros x Hx.
    eapply reached_trans; [apply passed_reached, H2|done].
  - destruct (_ <? _); [by apply passed_reached|]. destruct (block_breaks _ _ _) as [brk more].
    eapply ends_bind; [apply capture_ends|]. intros r _. pose proof (placed_skip c2 not_EOL Hp eq_refl) as H3.
    assert (passed c (move (skip input not_EOL (c_position c2)) c2)) as H4 by (by eapply passed_trans_l).
    eapply ends_mono; [apply IH; [by destruct H3|exact (turn_left _ _ _ Hc H4 Hn)]|]. intros x Hx.
    eapply reached_trans; [apply passed_reached, H4|done].
Qed.

Lemma block_ends indent : reads_on (readBlockScalar input filename indent).
Proof.
  intros c Hc. unfold readBlockScalar. destruct (_ || _) eqn:Es; [|by apply reached_refl].
  eapply ends_bind; [apply block_header_ends; [done|intros E; by rewrite E in Es|lia]|]. intros [[c1 ch] ti] H1. cbn [fst] in H1.
  pose proof H1 as [Hp1 _]. pose proof Hp1 as (Hlt & _).
  destruct (skip_within is_WHITE_SPACE (c_position c1) Hlt eq_refl) as [Hs _].
  set (q := skip input is_WHITE_SPACE (c_position c1)) in *. set (q' := if _ && _ then _ else q).
  assert (c_position c1 <= q' < length input)%nat as Hq.
  { unfold q'. destruct (_ && _) eqn:E; [|lia]. apply andb_true_iff in E as [_ E%Z.eqb_eq].
    assert (S q < length input)%nat as Hsq by (apply not_last; [lia|]; by rewrite E). pose proof (skip_within not_EOL (S q) Hsq eq_refl). lia. }
  pose proof (placed_move c1 q' Hp1 Hq) as H2.
  eapply ends_bind; [apply block_loop_ends; [by destruct H2|lia]|]. intros [c3 r] H3. cbn in *.
  eapply reached_trans; [apply passed_reached, H1|]. by eapply reached_trans.
Qed.

(** ** Programs of the loader *)

(** A program that ends from the place [c]; what holds of its result and of the
    place then. *)
Definition steps {A} (c : cursor) (m : lm A) (Q : A → cursor → Prop) : Prop :=
  ∀ s, cur s = c → ends (m s) (λ x, Q x.1 (cur x.2)).
(** It leaves the place alone. *)
Definition keeps {A} (m : lm A) : Prop := ∀ c, steps c m (λ _ c', c' = c).
(** It goes to a place that is reached. *)
Definition onward {A} (m : lm A) : Prop := ∀ c, placed c → steps c m (λ _ c', reached c c').

Lemma steps_bind {A B} c (m : lm A) (f : A → lm B) Q R :
  steps c m Q → (∀ a c', Q a c' → steps c' (f a) R) → steps c (m ≫= f) R.
Proof.
  intros Hm Hf s Hs. specialize (Hm s Hs). unfold mbind, lm_bind. destruct (m s) as [[a s']|e].
  - by apply (Hf a (cur s') Hm).
  - cbn in *. intros [= ->]. by apply Hm.
Qed.
Lemma steps_mono {A} c (m : lm A) (Q R : A → cursor → Prop) : steps c m Q → (∀ a c', Q a c' → R a c') → steps c m R.
Proof. intros Hm H s Hs. eapply ends_mono; [by apply Hm|]. intros [a s'] Ha. by apply H. Qed.
Lemma steps_ret {A} c (a : A) (Q : A → cursor → Prop) : Q a c → steps c (mret a) Q.
Proof. by intros H s <-. Qed.
Lemma steps_fail {A} c message (Q : A → cursor → Prop) : steps c (fail input filename message) Q.
Proof. intros s <-. apply throw_ends. Qed.

(** Rules for a program that is followed by another. *)
Lemma bind_keep {A B} c (m : lm A) (f : A → lm B) R : keeps m → (∀ a, steps c (f a) R) → steps c (m ≫= f) R.
Proof. intros Hm Hf. eapply steps_bind; [apply Hm|]. intros a c' ->. apply Hf. Qed.
Lemma bind_onward {A B} c (m : lm A) (f : A → lm B) R :
  onward m → placed c → (∀ a c', reached c c' → steps c' (f a) R) → steps c (m ≫= f) R.
Proof. intros Hm Hc Hf. eapply steps_bind; [by apply Hm|]. intros a c' H. by apply Hf. Qed.
Lemma bind_gets {A B} c (g : cursor → A) (f : A → lm B) R : steps c (f (g c)) R → steps c (gets (λ s, g (cur s)) ≫= f) R.
Proof. intros Hf s Hs. unfold mbind, lm_bind, gets. rewrite Hs. by apply Hf. Qed.
Lemma bind_peek {B} c k (f : Z → lm B) R : steps c (f (code input (c_position c + k))) R → steps c (peek input k ≫= f) R.
Proof. apply (bind_gets c (λ c, code input (c_position c + k))). Qed.
Lemma bind_step {B} c (f : unit → lm B) R : steps (advance c) (f tt) R → steps c (step_on ≫= f) R.
Proof. intros Hf s Hs. unfold mbind, lm_bind, step_on, modify. apply Hf. by rewrite -Hs. Qed.
Lemma bind_go {B} c p (f : unit → lm B) R : steps (move p c) (f tt) R → steps c (go_to p ≫= f) R.
Proof. intros Hf s Hs. unfold mbind, lm_bind, go_to, modify. apply Hf. by rewrite -Hs. Qed.

Lemma keeps_ret {A} (a : A) : keeps (mret a).
Proof. intros c. by apply steps_ret. Qed.
Lemma keeps_bind {A B} (m : lm A) (f : A → lm B) : keeps m → (∀ a, keeps (f a)) → keeps (m ≫= f).
Proof. intros Hm Hf c. apply bind_keep; [done|]. intros a. apply Hf. Qed.
Lemma keeps_gets {A} (f : lstate → A) : keeps (gets f).
Proof. by intros c s <-. Qed.
Lemma keeps_modify f : (∀ s, cur (f s) = cur s) → keeps (modify f).
Proof. intros Hf c s <-. cbn. apply Hf. Qed.
Lemma keeps_fail {A} message : keeps (A := A) (fail input filename message).
Proof. intros c. apply steps_fail. Qed.
Lemma keeps_heap {A} (m : hm A) : (∀ h, no_overflow (m h)) → keeps (on_heap m).
Proof.
  intros Hm c s Hs. unfold on_heap. specialize (Hm (objs s)). unfold mbind, res_bind. destruct (m (objs s)) as [[a h]|e]; [done|].
  intros [= ->]. by apply Hm.
Qed.
Lemma keeps_name_anchor x : keeps (name_anchor x).
Proof. apply keeps_modify. intros s. by destruct (n_anchor s). Qed.

Lemma onward_keeps {A} (m : lm A) : keeps m → onward m.
Proof. intros Hm c Hc. eapply steps_mono; [apply Hm|]. intros a c' ->. by apply reached_refl. Qed.
Lemma onward_separate b : onward (separate input filename b).
Proof.
  intros c Hc s Hs. unfold separate. rewrite Hs. pose proof (separation_placed b c Hc) as [H _].
  by destruct (skipSeparationSpace input filename b c) as [c' n].
Qed.
Lemma onward_scalar read : reads_on read → onward (scalar read).
Proof.
  intros Hr c Hc s Hs. unfold scalar. rewrite Hs. specialize (Hr c Hc). unfold mbind, res_bind.
  destruct (read c) as [[c' [t|]]|e]; [done|done|]. intros [= ->]. by apply Hr.
Qed.
Lemma onward_bind {A B} (m : lm A) (f : A → lm B) : onward m → (∀ a, onward (f a)) → onward (m ≫= f).
Proof.
  intros Hm Hf c Hc. eapply bind_onward; [done|done|]. intros a c' H. eapply steps_mono; [by apply Hf, (reached_placed c)|].
  intros b c'' H'. by eapply reached_trans.
Qed.
Lemma onward_or (a b : lm bool) : onward a → onward b → onward (or_read a b).
Proof. intros Ha Hb. apply onward_bind; [done|]. intros [|]; [|done]. apply onward_keeps, keeps_ret. Qed.


Lemma steps_or c (a b : lm bool) : steps c a (λ _ c', reached c c') → (∀ c', reached c c' → steps c' b (λ _ d, reached c' d)) →
  steps c (or_read a b) (λ _ c', reached c c').
Proof.
  intros Ha Hb. eapply steps_bind; [exact Ha|]. intros [|] c' H; [by apply steps_ret|].
  eapply steps_mono; [by apply Hb|]. intros x d Hd. by eapply reached_trans.
Qed.

(** ** The heap *)

Lemma heap_bind {A B} (m : hm A) (f : A → hm B) :
  (∀ h, no_overflow (m h)) → (∀ a h, no_overflow (f a h)) → ∀ h, no_overflow ((m ≫= f) h).
Proof.
  intros Hm Hf h. unfold mbind, hm_bind. specialize (Hm h). destruct (m h) as [[a h']|e]; [apply Hf|]. intros [= ->]. by apply Hm.
Qed.
Lemma heap_fold {A B} (f : A → B → hm A) l : (∀ a b h, no_overflow (f a b h)) → ∀ a h, no_overflow (hfold f l a h).
Proof. intros Hf. induction l as [|b l IH]; intros a; cbn [hfold]; [done|]. apply heap_bind; [apply Hf|apply IH]. Qed.
Lemma heap_get x k h : no_overflow (hget x k h).
Proof.
  unfold hget, reads, look. destruct x as [v|l]; [|done]. destruct v; cbn [get]; try done; repeat case_match; done.
Qed.
Lemma heap_set x k y h : no_overflow (hset x k y h).
Proof. by destruct x. Qed.
Lemma heap_elements x h : no_overflow (elements x h).
Proof. unfold elements, reads. destruct x as [v|l]; [done|]. by destruct (h !! l) as [[|]|]. Qed.
Lemma heap_set_elements x l h : no_overflow (set_elements x l h).
Proof. by destruct x. Qed.
#[local] Hint Resolve heap_get heap_set heap_elements heap_set_elements keeps_ret keeps_gets keeps_fail keeps_name_anchor : total.

Lemma keeps_line_here : keeps line_here.
Proof. apply keeps_gets. Qed.
Lemma keeps_lineIndent : keeps lineIndent.
Proof. apply keeps_gets. Qed.
#[local] Hint Resolve keeps_line_here keeps_lineIndent : total.

Lemma keeps_push a x : keeps (push a x).
Proof. apply keeps_heap, heap_bind; auto with total. Qed.

Lemma keeps_merge d x over : keeps (mergeMappings input filename d x over).
Proof.
  unfold mergeMappings. destruct (negb (h_object x)); [auto with total|]. apply keeps_bind; [by apply keeps_heap|]. intros ks.
  apply keeps_heap, heap_fold. intros a b. apply heap_bind; [done|]. intros own. destruct (existsb _ _); [done|].
  apply heap_bind; [auto with total|]. intros y. apply heap_bind; [auto with total|done].
Qed.
Lemma keeps_merge_all d l : ∀ over, keeps (merge_all input filename d l over).
Proof. induction l as [|x l IH]; intros over; cbn [merge_all]; [auto with total|]. apply keeps_bind; [apply keeps_merge|apply IH]. Qed.

Lemma keeps_store json r over t k v : keeps (storeMappingPair input filename json r over t k v).
Proof.
  unfold storeMappingPair. apply keeps_bind; [by apply keeps_heap|]. intros key. apply keeps_bind.
  { destruct r; [auto with total|by apply keeps_heap]. }
  intros result. destruct (bool_decide _).
  - apply keeps_bind; [by apply keeps_heap|]. intros many. apply keeps_bind.
    { destruct many; [apply keeps_heap; auto with total|auto with total]. }
    intros sources. apply keeps_bind; [apply keeps_merge_all|auto with total].
  - apply keeps_bind; [by apply keeps_heap|]. intros own. destruct (_ && _); [auto with total|].
    apply keeps_bind; [apply keeps_heap; auto with total|auto with total].
Qed.

Lemma keeps_flush json r v : keeps (flush_key input filename json r v).
Proof. unfold flush_key. destruct (m_explicit v); [|auto with total]. apply keeps_bind; [apply keeps_store|]. intros [r' over]. auto with total. Qed.

(** ** Properties of a node *)

Lemma here_code c : code input (c_position c + 0) = here input c.
Proof. unfold here. f_equal. lia. Qed.

Lemma tag_loop_steps n : ∀ c handle named start, placed c → (length input - c_position c < n)%nat →
  steps c (tag_loop input filename n handle named start) (λ _ c', reached c c').
Proof.
  induction n as [|n IH]; intros c handle named start Hc Hn; [lia|]. cbn [tag_loop]. apply bind_peek. rewrite here_code.
  destruct (Z.eqb_spec (here input c) 0); cbn [orb]; [by apply steps_ret, reached_refl|].
  destruct (is_WS_OR_EOL _); [by apply steps_ret, reached_refl|]. pose proof (placed_advance c Hc ltac:(done)) as Ha.
  assert (∀ h b st, steps (advance c) (tag_loop input filename n h b st) (λ _ c', reached c c')) as Hon.
  { intros h b st. eapply steps_mono; [apply IH; [by destruct Ha|exact (turn_left _ _ _ Hc Ha Hn)]|]. intros a c' H.
    eapply reached_trans; [apply passed_reached, Ha|done]. }
  destruct (_ =? 33); [|by apply bind_step]. destruct named; [apply steps_fail|].
  apply (bind_gets c c_position). destruct (negb _); [apply steps_fail|by apply bind_step].
Qed.

Lemma verbatim_steps c : placed c → steps c (read_verbatim input filename) (λ _ c', reached c c').
Proof.
  intros Hc. pose proof Hc as (Hp & _). unfold read_verbatim. apply (bind_gets c c_position). apply bind_go.
  set (q := skip input _ (S (c_position c))). apply (bind_gets (move q c) c_position). cbn [c_position move].
  destruct (Nat.ltb_spec (S q) (length input)) as [Hq|Hq]; [|apply steps_fail]. apply bind_step, steps_ret.
  assert (S (c_position c) <= q)%nat as Hle.
  { apply skip_le. }
  destruct Hc as (H1 & H2 & H3). split; [unfold placed; cbn; lia|right; cbn; lia].
Qed.

(** A property is read, or the place is the same. *)
Definition read_or_stay (c : cursor) (b : bool) (c' : cursor) : Prop := placed c' ∧ if b then passed c c' else c' = c.

Lemma tag_property_steps c : placed c → steps c (readTagProperty input filename) (read_or_stay c).
Proof.
  intros Hc. unfold readTagProperty. apply bind_peek. rewrite here_code. destruct (Z.eqb_spec (here input c) 33) as [E|E]; cbn [negb].
  2: { by apply steps_ret. }
  apply bind_keep; [auto with total|]. intros old. destruct (negb (bool_decide _)); [apply steps_fail|]. apply bind_step.
  pose proof (placed_advance c Hc ltac:(by rewrite E)) as Ha. pose proof Ha as [Hp _]. apply bind_peek. rewrite here_code.
  destruct (Z.eqb_spec (here input (advance c)) 60) as [E1|E1].
  - apply bind_step. pose proof (placed_advance _ Hp ltac:(by rewrite E1)) as Hb.
    eapply steps_bind; [apply verbatim_steps; by destruct Hb|]. intros nm c1 H1. destruct (_ && _); [apply steps_fail|].
    apply bind_keep; [by apply keeps_modify|]. intros _. apply steps_ret.
    assert (passed c c1) as H2 by (eapply passed_trans_l; [exact Ha|]; eapply reached_trans; [apply passed_reached, Hb|done]). by destruct H2.
  - eapply (steps_bind _ _ _ (λ _ c1, reached (advance c) c1)).
    { destruct (Z.eqb_spec (here input (advance c)) 33) as [E2|E2]; [|by apply steps_ret, reached_refl].
      intros s Hs. cbn. rewrite Hs. by apply passed_reached, placed_advance; [|rewrite E2]. }
    intros _ c1 H1. apply (bind_gets c1 c_position). eapply steps_bind; [apply tag_loop_steps; [by eapply reached_placed|lia]|].
    intros [handle from] c2 H2. apply (bind_gets c2 c_position).
    assert (passed c c2) as H3 by (eapply passed_trans_l; [exact Ha|by eapply reached_trans]). pose proof H3 as [Hp2 _].
    destruct (existsb _ _); [apply steps_fail|]. destruct (_ && _); [apply steps_fail|]. apply bind_keep; [auto with total|]. intros tags.
    apply bind_keep. { repeat case_match; auto with total. }
    intros tag. apply bind_keep; [by apply keeps_modify|]. intros _. by apply steps_ret.
Qed.

Lemma read_name_steps message c : placed c → here input c ≠ 0 → steps c (read_name input filename message) (λ _ c', passed c c').
Proof.
  intros Hc H0. unfold read_name. pose proof (placed_advance c Hc H0) as Ha. apply bind_step, (bind_gets (advance c) c_position), bind_go.
  set (q := skip input _ _). assert (reached (advance c) (move q (advance c))) as H1 by (apply placed_skip; [by destruct Ha|done]).
  apply (bind_gets _ c_position). destruct (_ =? _)%nat; [apply steps_fail|]. apply steps_ret. by eapply passed_trans_l.
Qed.

Lemma anchor_property_steps c : placed c → steps c (readAnchorProperty input filename) (read_or_stay c).
Proof.
  intros Hc. unfold readAnchorProperty. apply bind_peek. rewrite here_code. destruct (Z.eqb_spec (here input c) 38) as [E|E]; cbn [negb].
  2: { by apply steps_ret. }
  apply bind_keep; [auto with total|]. intros old. destruct (negb (bool_decide _)); [apply steps_fail|].
  eapply steps_bind; [apply read_name_steps; [done|by rewrite E]|]. intros a c' H. apply bind_keep; [by apply keeps_modify|].
  intros _. apply steps_ret. pose proof H as [Hp _]. by split.
Qed.

Lemma onward_alias : onward (readAlias input filename).
Proof.
  intros c Hc. unfold readAlias. apply bind_peek. rewrite here_code. destruct (Z.eqb_spec (here input c) 42) as [E|E]; cbn [negb].
  2: { by apply steps_ret, reached_refl. }
  eapply steps_bind; [apply read_name_steps; [done|by rewrite E]|]. intros a c' H. apply bind_keep; [auto with total|]. intros anchors.
  destruct (pget anchors a); [|apply steps_fail]. apply bind_keep; [by apply keeps_modify|]. intros _.
  apply bind_onward; [apply onward_separate|by destruct H|]. intros k c2 H2. apply steps_ret.
  eapply reached_trans; [apply passed_reached, H|done].
Qed.

(** ** Collections *)

Section collections.
Context (json : bool) (cn : Z → context → bool → bool → lm bool).

(** Nodes from the position [p] on are read; in the block contexts too if [blocks]. *)
Definition composes (p : nat) (blocks : bool) : Prop := ∀ indent ctx seek compact c,
  (is_block ctx = true → blocks = true) → (p <= c_position c)%nat → placed c → steps c (cn indent ctx seek compact) (λ _ c', reached c c').

Lemma composes_le p q blocks : composes p blocks → (p <= q)%nat → composes q blocks.
Proof. intros H Hle i ctx seek compact c Hb Hp Hc. apply H; [done|lia|done]. Qed.

Lemma bind_node {B} p blocks indent ctx seek compact c (f : bool → lm B) R :
  composes p blocks → (is_block ctx = true → blocks = true) → (p <= c_position c)%nat → placed c →
  (∀ a c', reached c c' → steps c' (f a) R) → steps c (cn indent ctx seek compact ≫= f) R.
Proof. intros Hp Hb Hle Hc Hf. eapply steps_bind; [by apply Hp|]. done. Qed.

Lemma bind_separate {B} b c (f : Z → lm B) R :
  placed c → (∀ a c', reached c c' → steps c' (f a) R) → steps c (separate input filename b ≫= f) R.
Proof. intros Hc. apply bind_onward; [apply onward_separate|done]. Qed.

Lemma flow_entry_steps p indent result mapping over c : composes p false → (p <= c_position c)%nat → placed c →
  steps c (flow_entry input filename json cn indent result mapping over) (λ _ c', reached c c').
Proof.
  intros Hcn Hp Hc. unfold flow_entry. apply bind_peek, bind_peek. rewrite here_code. set (e := _ && _).
  eapply (steps_bind _ _ _ (λ _ c', reached c c')).
  { destruct e eqn:E; [|by apply steps_ret, reached_refl]. unfold e in E. apply andb_true_iff in E as [E%Z.eqb_eq _].
    pose proof (placed_advance c Hc ltac:(by rewrite E)) as Ha. apply bind_step, bind_separate; [by destruct Ha|]. intros k c1 H1.
    apply steps_ret. eapply reached_trans; [apply passed_reached, Ha|done]. }
  clearbody e. intros _ c1 H1. pose proof (reached_le _ _ H1) as L1. apply bind_keep; [auto with total|]. intros line.
  apply (bind_node p false); [done|done|lia|by eapply reached_placed|]. intros b c2 H2. pose proof (reached_le _ _ H2) as L2.
  apply bind_keep; [auto with total|]. intros keyTag. apply bind_keep; [auto with total|]. intros keyNode.
  apply bind_separate; [by eapply reached_placed|]. intros k c3 H3. pose proof (reached_le _ _ H3) as L3.
  apply bind_peek. rewrite here_code. apply bind_keep; [auto with total|]. intros line'.
  eapply (steps_bind _ _ _ (λ _ c', reached c3 c')).
  { destruct (_ && _) eqn:E; [|apply steps_ret, reached_refl; by eapply reached_placed]. apply andb_true_iff in E as [_ E%Z.eqb_eq].
    pose proof (placed_advance c3 (reached_placed _ _ H3) ltac:(by rewrite E)) as Ha. pose proof Ha as [Hpa Hla].
    apply bind_step, bind_separate; [done|]. intros k1 c4 H4. pose proof (reached_le _ _ H4) as L4.
    apply (bind_node p false); [done|done|lia|by eapply reached_placed|]. intros b1 c5 H5. apply bind_keep; [auto with total|].
    intros v. apply steps_ret. eapply reached_trans; [apply passed_reached, Ha|]. by eapply reached_trans. }
  intros [isPair valueNode] c4 H4. apply bind_keep.
  { destruct mapping; [|destruct isPair].
    - apply keeps_bind; [apply keeps_store|]. intros [r o]. auto with total.
    - apply keeps_bind; [apply keeps_store|]. intros [r o]. apply keeps_bind; [apply keeps_push|auto with total].
    - apply keeps_bind; [apply keeps_push|auto with total]. }
  intros over'. apply bind_separate; [by eapply reached_placed|]. intros k5 c5 H5. apply steps_ret.
  eapply reached_trans; [exact H1|]. eapply reached_trans; [exact H2|]. eapply reached_trans; [exact H3|]. by eapply reached_trans.
Qed.

Lemma flow_loop_steps p n indent terminator result mapping tag anchor : terminator ≠ 0 → composes p false → ∀ c next over,
  (p <= c_position c)%nat → placed c → ((if next : bool then length input - c_position c else 0) < n)%nat →
  steps c (flow_loop input filename json cn n indent terminator result mapping tag anchor next over) (λ _ c', reached c c').
Proof.
  intros Ht0 Hcn. induction n as [|n IH]; intros c next over Hp Hc Hn; [lia|]. cbn [flow_loop]. apply bind_peek. rewrite here_code.
  destruct (Z.eqb_spec (here input c) 0); [apply steps_fail|]. apply bind_separate; [done|]. intros k c1 H1.
  pose proof (reached_le _ _ H1) as L1. pose proof (reached_placed _ _ H1) as P1. apply bind_peek. rewrite here_code.
  destruct (Z.eqb_spec (here input c1) terminator) as [Et|Et].
  { pose proof (placed_advance c1 P1 ltac:(by rewrite Et)) as Ha. apply bind_step, bind_keep; [by apply keeps_modify|]. intros _. apply steps_ret.
    eapply reached_trans; [exact H1|by apply passed_reached]. }
  destruct next; cbn [negb]; [|apply steps_fail].
  eapply steps_bind; [apply (flow_entry_steps p); [done|lia|done]|]. intros over' c2 H2.
  pose proof (reached_le _ _ H2) as L2. pose proof (reached_placed _ _ H2) as P2. apply bind_peek. rewrite here_code.
  assert (reached c c2) as H12 by (by eapply reached_trans). destruct Hc as (Hlt & _).
  destruct (Z.eqb_spec (here input c2) 44) as [E|E].
  - pose proof (placed_advance c2 P2 ltac:(by rewrite E)) as Ha. pose proof Ha as [Pa La]. apply bind_step.
    eapply steps_mono; [apply IH; [lia|done|destruct Pa; lia]|]. intros a c3 H3. eapply reached_trans; [exact H12|].
    eapply reached_trans; [apply passed_reached, Ha|done].
  - apply bind_keep; [auto with total|]. intros _. eapply steps_mono; [apply IH; [lia|done|lia]|]. intros a c3 H3. by eapply reached_trans.
Qed.

Lemma flow_steps indent c : composes (S (c_position c)) false → placed c →
  steps c (readFlowCollection input filename json cn indent) (λ _ c', reached c c').
Proof.
  intros Hcn Hc. unfold readFlowCollection. apply bind_peek. rewrite here_code. destruct (_ || _) eqn:E; [|by apply steps_ret, reached_refl].
  pose proof (placed_advance c Hc ltac:(intros H; by rewrite H in E)) as Ha.
  apply bind_keep; [auto with total|]. intros tag. apply bind_keep; [auto with total|]. intros anchor.
  apply bind_keep; [by apply keeps_heap|]. intros result. apply bind_keep; [auto with total|]. intros _. apply bind_step.
  eapply steps_mono; [apply (flow_loop_steps (S (c_position c)))|].
  - by destruct (_ =? 123).
  - done.
  - cbn. lia.
  - by destruct Ha.
  - lia.
  - intros a c' H. eapply reached_trans; [apply passed_reached, Ha|done].
Qed.

Lemma sequence_loop_steps p n indent result : composes (S p) true → ∀ c detected, (p <= c_position c)%nat → placed c →
  (length input - c_position c < n)%nat →
  steps c (sequence_loop input filename cn n indent result detected) (λ _ c', reached c c').
Proof.
  intros Hcn. induction n as [|n IH]; intros c detected Hp Hc Hn; [lia|]. cbn [sequence_loop]. apply bind_peek, bind_peek. rewrite here_code.
  destruct (Z.eqb_spec (here input c) 45) as [E|E]; [|by apply steps_ret, reached_refl]. cbn [negb orb].
  destruct (negb _); [by apply steps_ret, reached_refl|]. pose proof (placed_advance c Hc ltac:(by rewrite E)) as Ha.
  assert (∀ c' b, reached (advance c) c' → steps c' (sequence_loop input filename cn n indent result b) (λ _ c'', reached c c'')) as Hon.
  { intros c' b H'. assert (passed c c') as Hc' by (by eapply passed_trans_l). pose proof Hc' as [P' L'].
    eapply steps_mono; [apply IH; [lia|done|exact (turn_left _ _ _ Hc Hc' Hn)]|]. intros a c'' H. eapply reached_trans; [apply passed_reached, Hc'|done]. }
  apply bind_step, bind_separate; [by destruct Ha|]. intros k c1 H1. pose proof (reached_le _ _ H1) as L1. pose proof (reached_placed _ _ H1) as P1.
  apply bind_keep; [auto with total|]. intros i. destruct (_ && _).
  { apply bind_keep; [apply keeps_push|]. intros _. by apply Hon. }
  apply bind_keep; [auto with total|]. intros line.
  apply (bind_node (S p) true); [done|done|cbn in L1; lia|done|]. intros b c2 H2.
  apply bind_keep; [auto with total|]. intros x. apply bind_keep; [apply keeps_push|]. intros _.
  apply bind_separate; [by eapply reached_placed|]. intros k3 c3 H3.
  assert (reached (advance c) c3) as Hr by (eapply reached_trans; [exact H1|]; by eapply reached_trans).
  apply bind_peek, bind_keep; [auto with total|]. intros line'. apply bind_keep; [auto with total|]. intros i'.
  destruct (_ && _); [apply steps_fail|]. destruct (_ <? _); [|by apply Hon]. apply steps_ret.
  eapply reached_trans; [apply passed_reached, Ha|done].
Qed.

Lemma sequence_steps indent c : composes (S (c_position c)) true → placed c →
  steps c (readBlockSequence input filename cn indent) (λ _ c', reached c c').
Proof.
  intros Hcn Hc. unfold readBlockSequence. apply bind_keep; [auto with total|]. intros tag. apply bind_keep; [auto with total|]. intros anchor.
  apply bind_keep; [by apply keeps_heap|]. intros result. apply bind_keep; [auto with total|]. intros _.
  eapply steps_bind; [apply (sequence_loop_steps (c_position c)); [done|lia|done|lia]|]. intros [|] c' H.
  - apply bind_keep; [by apply keeps_modify|]. intros _. by apply steps_ret.
  - by apply steps_ret.
Qed.

Lemma mapping_key_steps indent result tag anchor line v c : composes (c_position c) false → placed c → here input c ≠ 0 →
  steps c (mapping_key input filename json cn indent result tag anchor line v)
    (λ h c', match h with Go _ _ => passed c c' | _ => reached c c' end).
Proof.
  intros Hcn Hc H0. pose proof (placed_advance c Hc H0) as Ha. unfold mapping_key. apply bind_peek, bind_peek. rewrite here_code.
  destruct (_ && _).
  { destruct (_ =? 63); [|destruct (m_explicit v); [|apply steps_fail]].
    - apply bind_keep; [apply keeps_flush|]. intros v'. by apply bind_step, steps_ret.
    - by apply bind_step, steps_ret. }
  apply (bind_node (c_position c) false); [done|done|lia|done|]. intros [|] c1 H1; cbn [negb]; [|by apply steps_ret].
  apply bind_keep; [auto with total|]. intros line'. cbv zeta.
  set (keep := (_ ← modify (λ s, with_tag tag (with_anchor anchor s)); mret (Return true)) : lm half).
  assert (steps c1 keep (λ h c', match h with Go _ _ => passed c c' | _ => reached c c' end)) as Hkeep.
  { apply bind_keep; [by apply keeps_modify|]. intros _. by apply steps_ret. }
  destruct (line' =? line); [|destruct (m_detected v); [apply steps_fail|done]].
  apply (bind_gets c1 c_position), bind_go. pose proof (placed_skip c1 is_WHITE_SPACE (reached_placed _ _ H1) eq_refl) as H2.
  set (c2 := move _ c1) in *. apply bind_peek. rewrite here_code. assert (reached c c2) as H12 by (by eapply reached_trans).
  destruct (Z.eqb_spec (here input c2) 58) as [E|E].
  - pose proof (placed_advance c2 (reached_placed _ _ H2) ltac:(by rewrite E)) as Hb. apply bind_step, bind_peek.
    destruct (negb _); [apply steps_fail|]. apply bind_keep; [apply keeps_flush|]. intros v'. apply bind_keep; [auto with total|]. intros kt.
    apply bind_keep; [auto with total|]. intros kn. apply steps_ret. by eapply passed_trans_r.
  - destruct (m_detected v); [apply steps_fail|]. unfold keep. apply bind_keep; [by apply keeps_modify|]. intros _. by apply steps_ret.
Qed.

Lemma mapping_value_steps p indent result line compact v c : composes p true → (p <= c_position c)%nat → placed c →
  steps c (mapping_value input filename json cn indent result line compact v) (λ _ c', reached c c').
Proof.
  intros Hcn Hp Hc. unfold mapping_value. apply bind_keep; [auto with total|]. intros line'. apply bind_keep; [auto with total|]. intros i.
  destruct (_ || _); [|by apply steps_ret, reached_refl]. apply (bind_node p true); [done|done|done|done|]. intros some c1 H1.
  apply bind_keep; [auto with total|]. intros x. set (v' := if negb some then v else _). clearbody v'. apply bind_keep.
  { destruct (m_explicit v'); [auto with total|]. apply keeps_bind; [apply keeps_store|]. intros [r over]. auto with total. }
  intros v2. apply bind_separate; [by eapply reached_placed|]. intros k c2 H2. apply steps_ret. by eapply reached_trans.
Qed.

Lemma mapping_loop_steps p n indent flow result tag anchor : composes p false → composes (S p) true → ∀ c v, (p <= c_position c)%nat → placed c →
  (length input - c_position c < n)%nat →
  steps c (mapping_loop input filename json cn n indent flow result tag anchor v) (λ _ c', reached c c').
Proof.
  intros Hflow Hblock. induction n as [|n IH]; intros c v Hp Hc Hn; [lia|]. cbn [mapping_loop]. apply bind_peek. rewrite here_code.
  destruct (Z.eqb_spec (here input c) 0) as [|H0]; [by apply steps_ret, reached_refl|]. apply bind_keep; [auto with total|]. intros line.
  assert (composes (c_position c) false) as Hflow' by (by eapply composes_le).
  eapply steps_bind; [by apply mapping_key_steps|]. intros [v1 compact|v1|b] c1 H1; [|by apply steps_ret..].
  pose proof H1 as [P1 L1]. eapply steps_bind; [apply (mapping_value_steps (S p)); [done|lia|done]|]. intros v2 c2 H2.
  assert (passed c c2) as H12 by (by eapply passed_trans_l). pose proof H12 as [P2 L2]. apply bind_peek, bind_keep; [auto with total|].
  intros i. destruct (_ && _); [apply steps_fail|]. destruct (_ <? _); [by apply steps_ret, passed_reached|].
  eapply steps_mono; [apply IH; [lia|done|exact (turn_left _ _ _ Hc H12 Hn)]|]. intros a c3 H3.
  eapply reached_trans; [apply passed_reached, H12|done].
Qed.

Lemma mapping_steps indent flow c : composes (c_position c) false → composes (S (c_position c)) true → placed c →
  steps c (readBlockMapping input filename json cn indent flow) (λ _ c', reached c c').
Proof.
  intros Hf Hb Hc. unfold readBlockMapping. apply bind_keep; [auto with total|]. intros tag. apply bind_keep; [auto with total|]. intros anchor.
  apply bind_keep; [by apply keeps_heap|]. intros result. apply bind_keep; [auto with total|]. intros _.
  eapply steps_bind; [apply (mapping_loop_steps (c_position c)); [done|done|lia|done|lia]|]. intros h c' H.
  assert (∀ v, steps c' (v ← flush_key input filename json result v;
    if m_detected v then _ ← modify (with_node tag anchor (Some #"mapping") result); mret true else mret false) (λ _ d, reached c d)) as Hend.
  { intros v. apply bind_keep; [apply keeps_flush|]. intros v'. destruct (m_detected v'); [|by apply steps_ret].
    apply bind_keep; [by apply keeps_modify|]. intros _. by apply steps_ret. }
  destruct h; [apply Hend|apply Hend|by apply steps_ret].
Qed.
End collections.

(** ** Nodes *)

Lemma properties_steps parent styles n : ∀ c status newline blocks, placed c → (length input - c_position c < n)%nat → (blocks = true → styles = true) →
  steps c (node_properties input filename n parent styles status newline blocks) (λ x c', reached c c' ∧ (x.2 = true → styles = true)).
Proof.
  induction n as [|n IH]; intros c status newline blocks Hc Hn Hb; [lia|]. cbn [node_properties].
  eapply steps_bind; [by apply tag_property_steps|]. intros t c1 [P1 H1].
  eapply (steps_bind _ _ _ (read_or_stay c)).
  { destruct t; [by apply steps_ret|]. subst c1. by apply anchor_property_steps. }
  intros [|] c2 [P2 H2]; cbn [negb]; [|subst c2; apply steps_ret; split; [by apply reached_refl|done]].
  apply bind_separate; [done|]. intros k c3 H3. assert (passed c c3) as H23 by (by eapply passed_trans_l).
  apply bind_keep; [auto with total|]. intros i.
  destruct (k =? 0); (eapply steps_mono; [apply IH; [by destruct H23|exact (turn_left _ _ _ Hc H23 Hn)|done]|]); intros a c4 [H4 H5];
    (split; [eapply reached_trans; [apply passed_reached, H23|done]|done]).
Qed.

Lemma keeps_implicit types : (∀ t, t ∈ types → ∀ x h, no_overflow (lt_construct t x h)) → keeps (resolve_implicit types).
Proof.
  induction types as [|t types IH]; intros Hend; cbn [resolve_implicit]; [auto with total|].
  apply keeps_bind; [auto with total|]. intros x. apply keeps_bind; [auto with total|]. intros h.
  destruct (lt_resolve t x h); [|apply IH; intros t' Ht'; apply Hend; by right].
  apply keeps_bind; [apply keeps_heap, Hend; by left|]. intros y. apply keeps_bind; [by apply keeps_modify|auto with total].
Qed.

Section nodes.
Context (json : bool) (implicitTypes : list ltype) (typeMap : list (jstr * ltype)).
(** The functions of the types end. *)
Hypothesis types_end : ∀ t, t ∈ implicitTypes ∨ t ∈ typeMap.*2 → ∀ x h, no_overflow (lt_construct t x h).

Lemma keeps_resolve_tag : keeps (resolve_tag input filename implicitTypes typeMap).
Proof.
  unfold resolve_tag. apply keeps_bind; [auto with total|]. intros [g|]; [|auto with total].
  destruct (streq g #"!"); [auto with total|]. destruct (streq g #"?"); [apply keeps_implicit; auto|].
  destruct (pget typeMap g) as [t|] eqn:E; [|auto with total]. apply pget_some_in in E.
  apply keeps_bind; [auto with total|]. intros x. apply keeps_bind; [auto with total|]. intros h.
  apply keeps_bind; [auto with total|]. intros k. destruct (_ && _); [auto with total|]. destruct (negb _); [auto with total|].
  apply keeps_bind; [apply keeps_heap, types_end; right; by apply (list_elem_of_fmap_2 snd _ (g, t))|]. intros y.
  apply keeps_bind; [by apply keeps_modify|auto with total].
Qed.

Lemma onward_read_scalar indent blocks flow : onward (read_scalar input filename indent blocks flow).
Proof.
  unfold read_scalar. apply onward_bind.
  { apply onward_or; [destruct blocks; [apply onward_scalar, block_ends|apply onward_keeps; auto with total]|].
    apply onward_or; apply onward_scalar; [apply single_ends|apply double_ends]. }
  intros found. apply onward_bind.
  { destruct found; [apply onward_keeps; auto with total|]. apply onward_bind; [apply onward_alias|]. intros [|].
    - apply onward_keeps, keeps_bind; [auto with total|]. intros tag. apply keeps_bind; [auto with total|]. intros anchor.
      destruct (_ && _); auto with total.
    - apply onward_bind; [apply onward_scalar, plain_ends|]. intros some. apply onward_bind.
      + destruct some; apply onward_keeps; [|auto with total]. apply keeps_modify. intros s. by destruct (n_tag s).
      + intros _. apply onward_keeps. auto with total. }
  intros f. apply onward_keeps, keeps_bind; [auto with total|]. intros x. apply keeps_bind; auto with total.
Qed.

(** The depth a node may need: nodes inside it are further on, but the key of a
    mapping starts where the mapping does. *)
Lemma compose_steps n : ∀ parent ctx seek compact c, placed c →
  (length input - c_position c + (if is_block ctx then 1 else 0) <= n)%nat →
  steps c (composeNode input filename json implicitTypes typeMap n parent ctx seek compact) (λ _ c', reached c c').
Proof.
  induction n as [|n IH]; intros parent ctx seek compact c Hc Hn; [destruct Hc as (Hlt & _); lia|]. cbn [composeNode].
  apply bind_keep; [by apply keeps_modify|]. intros _.
  eapply (steps_bind _ _ _ (λ _ c1, reached c c1)).
  { destruct seek; [|by apply steps_ret, reached_refl]. apply bind_separate; [done|]. intros k c1 H1.
    apply bind_keep; [auto with total|]. intros i. by apply steps_ret. }
  intros [status newline] c1 H1. eapply (steps_bind _ _ _ (λ x c2, reached c c2 ∧ (x.2 = true → is_block ctx = true))).
  { destruct (status =? 1); [|by apply steps_ret]. eapply steps_mono; [apply properties_steps; [by eapply reached_placed|lia|done]|].
    intros a c2 [H2 H3]. split; [by eapply reached_trans|done]. }
  clear c1 H1. intros [[status' newline'] blocks] c1 [H1 Hblocks]. pose proof (reached_placed _ _ H1) as P1. pose proof (reached_le _ _ H1) as L1.
  set (cn := composeNode input filename json implicitTypes typeMap n).
  assert (∀ p b, (b = true → is_block ctx = true) → (length input - p + (if b then 1 else 0) <= n)%nat → composes cn p b) as Hinner.
  { intros p b Hb Hle i ctx' s' k' c' Hb' Hle' Hc'. apply IH; [done|]. destruct (is_block ctx'); [rewrite Hb' in Hle|]; try done; destruct b; lia. }
  pose proof P1 as (Hlt & _). eapply (steps_bind _ _ _ (λ _ c2, reached c1 c2)).
  2: { intros b c2 H2. apply bind_keep; [apply keeps_resolve_tag|]. intros _. apply bind_keep; [auto with total|]. intros tag.
       apply bind_keep; [auto with total|]. intros anchor. apply steps_ret. by eapply reached_trans. }
  destruct (_ || _); [|by apply steps_ret, reached_refl]. apply (bind_gets c1 (λ c, Z.of_nat (c_position c) - Z.of_nat (c_lineStart c))).
  assert (blocks && (newline' || compact) = true → composes cn (S (c_position c1)) true ∧ composes cn (c_position c1) false) as Hb.
  { intros [Hb _]%andb_true_iff. specialize (Hblocks Hb). rewrite Hblocks in Hn. split; apply Hinner; try done; lia. }
  destruct (status' =? 1).
  - eapply (steps_bind _ _ _ (λ _ c2, reached c1 c2)).
    + apply steps_or; [|intros c2 H2; apply flow_steps; [|by eapply reached_placed]].
      * destruct (blocks && _); [|by apply steps_ret, reached_refl]. destruct (Hb eq_refl) as [Hb1 Hb2].
        apply steps_or; [by apply sequence_steps|]. intros c2 H2. pose proof (reached_le _ _ H2) as L2.
        apply mapping_steps; [by eapply composes_le|eapply composes_le; [exact Hb1|lia]|by eapply reached_placed].
      * pose proof (reached_le _ _ H2) as L2. apply Hinner; [done|lia].
    + intros [|] c2 H2; [by apply steps_ret|]. eapply steps_mono; [apply onward_read_scalar; by eapply reached_placed|].
      intros a c3 H3. by eapply reached_trans.
  - destruct ((status' =? 0) && _) eqn:Eb; [|by apply steps_ret, reached_refl]. apply andb_true_iff in Eb as [_ Eb].
    apply sequence_steps; [by apply Hb|done].
Qed.

(** ** Documents *)

Lemma keeps_yaml args : keeps (handleYamlDirective input filename args).
Proof.
  unfold handleYamlDirective. apply keeps_bind; [auto with total|]. intros version.
  repeat case_match; try (by auto with total); by apply keeps_modify.
Qed.
Lemma keeps_tag_directive args : keeps (handleTagDirective input filename args).
Proof.
  unfold handleTagDirective. destruct args as [|handle [|prefix [|]]]; try (by auto with total).
  apply keeps_bind; [auto with total|]. intros tags. repeat case_match; try (by auto with total); by apply keeps_modify.
Qed.

(** On the same line. *)
Definition along (c c' : cursor) : Prop := reached c c' ∧ c_lineIndent c' = c_lineIndent c.
Lemma along_refl c : placed c → along c c.
Proof. intros H. split; [by apply reached_refl|done]. Qed.
Lemma along_trans a b c : along a b → along b c → along a c.
Proof. intros [H1 H2] [H3 H4]. split; [by eapply reached_trans|congruence]. Qed.
Lemma along_skip c f : placed c → f 0 = false → along c (move (skip input f (c_position c)) c).
Proof. intros Hc Hf. split; [by apply placed_skip|done]. Qed.

Lemma directive_args_steps n : ∀ c args, placed c → here input c = 0 ∧ (0 < n)%nat ∨ (length input - c_position c < n)%nat →
  steps c (directive_args input n args) (λ _ c', along c c').
Proof.
  induction n as [|n IH]; intros c args Hc Hn; [lia|]. cbn [directive_args]. apply bind_peek. rewrite here_code.
  destruct (Z.eqb_spec (here input c) 0) as [|H0]; [by apply steps_ret, along_refl|].
  assert (length input - c_position c < S n)%nat as Hn' by (destruct Hn as [[? _]|?]; [done|lia]).
  pose proof Hc as (Hlt & _). pose proof (not_last _ Hlt H0) as Hlt'.
  apply (bind_gets c c_position), bind_go. pose proof (along_skip c is_WHITE_SPACE Hc eq_refl) as A1. set (c1 := move _ c) in *.
  apply bind_peek. rewrite here_code. apply (bind_gets c1 c_position). pose proof A1 as [H1 _]. pose proof (reached_placed _ _ H1) as P1.
  pose proof (reached_le _ _ H1) as L1. destruct (Z.eqb_spec (here input c1) 35) as [E|E].
  { apply bind_go, steps_ret. eapply along_trans; [exact A1|].
    pose proof (placed_advance c1 P1 ltac:(by rewrite E)) as Ha. pose proof Ha as [Pa _].
    assert (along c1 (advance c1)) as A2 by (split; [by apply passed_reached|done]). eapply along_trans; [exact A2|].
    apply (along_skip (advance c1) not_EOL); done. }
  destruct (is_EOL (here input c1)) eqn:He; [by apply steps_ret|]. apply bind_go.
  pose proof (along_skip c1 in_word P1 eq_refl) as A2. set (c2 := move _ c1) in *. pose proof A2 as [H2 _].
  apply (bind_gets c2 c_position). eapply steps_mono; [apply IH; [by eapply reached_placed|]|].
  2: { intros a c3 A3. eapply along_trans; [exact A1|]. by eapply along_trans. }
  destruct (Z.eq_dec (here input c1) 0) as [E1|E1].
  - left. split; [|lia]. unfold c2. unfold skip. destruct (length input - c_position c1)%nat; cbn [skip_while]; [done|].
    unfold here in E1. rewrite E1. done.
  - right. assert (in_word (here input c1) = true) as Hw.
    { unfold in_word. rewrite (proj2 (Z.eqb_neq _ _) E1). cbn [negb andb]. apply negb_true_iff.
      assert (is_WHITE_SPACE (here input c1) = false) as Hs by exact (proj2 (skip_within is_WHITE_SPACE (c_position c) Hlt eq_refl)).
      generalize (here input c1) He Hs. clear. intros y. unfold is_WS_OR_EOL, is_WHITE_SPACE, is_EOL. lia. }
    assert (S (c_position c1) <= c_position c2)%nat as L2; [|lia].
    unfold c2. cbn [c_position move]. unfold skip. destruct P1 as (P1 & _).
    destruct (length input - c_position c1)%nat as [|m] eqn:Em; [lia|]. cbn [skip_while]. unfold here in Hw. rewrite Hw.
    pose proof (skip_le in_word (S (c_position c1))) as Hle. unfold skip in Hle. by replace (length input - S (c_position c1))%nat with m in Hle by lia.
Qed.

Lemma line_break_steps c : placed c → c_lineIndent c = 0 → steps c (line_break input filename) (λ _ c', passed c c').
Proof.
  intros Hc H0 s Hs. unfold line_break. rewrite Hs. destruct (is_EOL (here input c)) eqn:He.
  - destruct (line_break_placed c Hc He) as (c' & E & H1 & H2). rewrite E. cbn. split; [|lia].
    assert (c_lineIndent c' = 0) as H3.
    { unfold readLineBreak in E. repeat case_match; inv_res; done. }
    unfold placed. lia.
  - unfold readLineBreak. unfold is_EOL, here in He. apply orb_false_iff in He as [-> ->]. done.
Qed.

Lemma directives_steps n : ∀ c b, placed c → (length input - c_position c < n)%nat →
  steps c (directives input filename n b) (λ _ c', reached c c').
Proof.
  induction n as [|n IH]; intros c b Hc Hn; [lia|]. cbn [directives]. apply bind_peek. rewrite here_code.
  destruct (Z.eqb_spec (here input c) 0); [by apply steps_ret, reached_refl|]. apply bind_separate; [done|]. intros k c1 H1.
  pose proof (reached_placed _ _ H1) as P1. apply bind_peek. rewrite here_code. apply (bind_gets c1 c_lineIndent).
  destruct (_ || _) eqn:Ed; [by apply steps_ret|]. apply orb_false_iff in Ed as [Ei%Z.ltb_ge E%negb_false_iff]. apply Z.eqb_eq in E.
  assert (c_lineIndent c1 = 0) as Hi by (destruct P1; lia).
  pose proof (placed_advance c1 P1 ltac:(by rewrite E)) as Ha. pose proof Ha as [Pa _]. apply bind_step, (bind_gets (advance c1) c_position), bind_go.
  pose proof (along_skip (advance c1) in_word Pa eq_refl) as A2. set (c2 := move _ (advance c1)) in *. apply (bind_gets c2 c_position).
  destruct (streq _ _); [apply steps_fail|]. pose proof A2 as [H2 _].
  eapply steps_bind; [apply directive_args_steps; [by eapply reached_placed|right; lia]|]. intros args c3 A3.
  assert (along (advance c1) c3) as A13 by (by eapply along_trans). pose proof A13 as [H13 I13]. change (c_lineIndent (advance c1)) with (c_lineIndent c1) in I13.
  apply bind_peek. rewrite here_code. eapply (steps_bind _ _ _ (λ _ c4, reached c3 c4)).
  { destruct (_ =? 0); [apply steps_ret, reached_refl; by eapply reached_placed|].
    eapply steps_mono; [apply line_break_steps; [by eapply reached_placed|congruence]|]. intros a c4 H4. by apply passed_reached. }
  intros _ c4 H4. apply bind_keep. { repeat case_match; [apply keeps_yaml|apply keeps_tag_directive|auto with total]. }
  intros _. assert (passed c c4) as H5.
  { eapply passed_trans_r; [exact H1|]. eapply passed_trans_l; [exact Ha|]. by eapply reached_trans. }
  eapply steps_mono; [apply IH; [by destruct H5|exact (turn_left _ _ _ Hc H5 Hn)]|]. intros a c5 H6.
  eapply reached_trans; [apply passed_reached, H5|done].
Qed.

Lemma code_within p : 0 < code input p → (S p < length input)%nat.
Proof.
  unfold code. destruct (input !! p) as [x|] eqn:E; cbn; [|lia]. intros Hx. apply not_last; [by eapply lookup_lt_Some|].
  unfold code. rewrite E. cbn. lia.
Qed.

(** Three units of a mark are passed. *)
Lemma mark_passed c : placed c → 0 < code input (c_position c + 2) → passed c (move (c_position c + 3) c).
Proof. intros (H1 & H2 & H3) H. apply code_within in H. split; [unfold placed; cbn; lia|cbn; lia]. Qed.

(** A document makes progress, or is the last one. *)
Lemma document_steps legacy c : placed c → steps c (readDocument input filename json legacy implicitTypes typeMap)
  (λ _ c', reached c c' ∧ (passed c c' ∨ (length input <= S (S (c_position c')))%nat)).
Proof.
  intros Hc. unfold readDocument. apply bind_keep; [by apply keeps_modify|]. intros _.
  eapply steps_bind; [apply directives_steps; [done|lia]|]. intros has c1 H1. apply bind_separate; [exact (reached_placed _ _ H1)|].
  intros k c2 H2. pose proof (reached_placed _ _ H2) as P2. apply (bind_gets c2 c_lineIndent), bind_peek, bind_peek, bind_peek. rewrite here_code.
  set (mark := _ && _ && _ && _). eapply (steps_bind _ _ _ (λ _ c3, reached c2 c3 ∧ (mark = true → passed c2 c3))).
  { destruct mark eqn:Em.
    - unfold mark in Em. apply andb_true_iff in Em as [_ Em%Z.eqb_eq].
      pose proof (mark_passed c2 P2 ltac:(lia)) as Hm. apply (bind_gets c2 c_position), bind_go, bind_separate; [by destruct Hm|].
      intros k3 c3 H3. assert (passed c2 c3) as Hp by (by eapply passed_trans_l). apply steps_ret. split; [by apply passed_reached|done].
    - destruct has; [apply steps_fail|]. apply steps_ret. split; [by apply reached_refl|done]. }
  intros _ c3 [H3 Hmark]. pose proof (reached_placed _ _ H3) as P3. apply (bind_gets c3 c_lineIndent).
  eapply steps_bind; [apply compose_steps; [done|cbn; lia]|]. intros b c4 H4.
  apply bind_separate; [exact (reached_placed _ _ H4)|]. intros k5 c5 H5. pose proof (reached_placed _ _ H5) as P5.
  apply bind_keep; [by apply keeps_modify|]. intros _. apply (bind_gets c5 (at_separator input)).
  pose proof (reached_trans _ _ _ H1 H2) as R2. pose proof (reached_trans _ _ _ H3 (reached_trans _ _ _ H4 H5)) as R5.
  pose proof (reached_trans _ _ _ R2 R5) as R.
  destruct (at_separator input c5) eqn:Es.
  - unfold at_separator, testDocumentSeparator in Es. apply andb_true_iff in Es as [Ep%Nat.eqb_eq Es].
    apply andb_true_iff in Es as [[[Ea Eb%Z.eqb_eq]%andb_true_iff Ec%Z.eqb_eq]%andb_true_iff _].
    apply bind_peek. rewrite here_code. destruct (Z.eqb_spec (here input c5) 46) as [E|E].
    + pose proof (mark_passed c5 P5 ltac:(unfold here in E; lia)) as Hm. apply (bind_gets c5 c_position), bind_go, bind_separate; [by destruct Hm|].
      intros k6 c6 H6. assert (passed c c6) as Hp by (eapply passed_trans_r; [exact R|by eapply passed_trans_l]). apply steps_ret.
      split; [by apply passed_reached|by left].
    + apply steps_ret. split; [done|left]. destruct R as [_ [Heq|Hlt]]; [|by split]. exfalso.
      assert (c_position c5 = c_position c) as Hpos by (by rewrite Heq).
      destruct R2 as [_ [Heq2|Hlt2]]; [|pose proof (reached_le _ _ R5); lia].
      assert (c2 = c5) as Heq25 by congruence. assert (mark = true) as Hm.
      { unfold mark. rewrite Heq25. destruct P5 as (_ & Hi1 & Hi2). assert (c_lineIndent c5 = 0) as -> by lia. unfold here in *. lia. }
      destruct (Hmark Hm) as [_ Hlt3]. pose proof (reached_le _ _ H4). pose proof (reached_le _ _ H5).
      rewrite Heq25 in Hlt3. lia.
  - apply (bind_gets c5 c_position). destruct (Nat.ltb_spec (S (S (c_position c5))) (length input)); [apply steps_fail|].
    apply steps_ret. split; [done|by right].
Qed.

Lemma documents_steps legacy n : ∀ c, placed c → ((length input - c_position c < n)%nat ∨ (length input <= S (S (c_position c)))%nat ∧ (0 < n)%nat) →
  steps c (read_documents input filename json legacy implicitTypes typeMap n) (λ _ _, True).
Proof.
  induction n as [|n IH]; intros c Hc Hn; [lia|]. cbn [read_documents]. apply (bind_gets c c_position).
  destruct (Nat.ltb_spec (S (S (c_position c))) (length input)) as [Hlt|Hlt]; [|by apply steps_ret].
  eapply steps_bind; [by apply document_steps|]. intros _ c' [R [Hp|Hend]].
  - apply IH; [by destruct Hp|]. left. apply (turn_left c); [done|done|lia].
  - apply IH; [by eapply reached_placed|]. right. lia.
Qed.
End nodes.
End total.

(** The text the loader works on ends as it must. *)
Lemma prepare_terminated text : ∃ t, prepare text ++ [0] = t ++ [0] ∧ (t = [] ∨ is_EOL (List.last t 0) = true).
Proof.
  exists (prepare text). split; [done|]. unfold prepare. destruct text as [|x text]; [by left|right].
  set (s := if _ then _ else _). assert (is_EOL (List.last s 0) = true) as Hs.
  { unfold s. destruct (is_EOL (List.last (x :: text) 0)) eqn:E; [done|]. by rewrite List.last_last. }
  clearbody s. destruct s as [|y s]; [done|]. destruct (Z.eq_dec y 65279) as [->|Hy].
  - destruct s as [|z s]; [done|exact Hs].
  - assert (match y :: s with 65279 :: t => t | _ => y :: s end = y :: s) as ->; [|done].
    destruct y as [|p|p]; [done| |done]. do 17 (destruct p as [p|p|]; try done).
Qed.

(** (C37) The loader ends on every text, whatever it contains: no position ever passes
    the terminator of the text (beyond which the loops would not find their end), every
    loop makes progress, and nested nodes are further on in the text, so that none of the
    bounds of the model is reached. *)
Theorem load_ends filename json legacy implicitTypes typeMap text h :
  (∀ t, t ∈ implicitTypes ∨ t ∈ typeMap.*2 → ∀ x h, no_overflow (lt_construct t x h)) →
  no_overflow (load filename json legacy implicitTypes typeMap text h).
Proof.
  intros Ht. pose proof (prepare_terminated text) as Hend. unfold load. apply heap_bind.
  2: { intros [|x [|y l]]; done. }
  clear h. intros h. unfold loadDocuments. cbv zeta. set (input := prepare text ++ [0]) in *. set (s0 := first_state input h).
  assert (0 < length input)%nat as Hlen by (unfold input; rewrite length_app; cbn; lia).
  assert (placed input (cur s0)) as Hp.
  { destruct (skip_within input Hend is_SPACE 0 Hlen eq_refl) as [H1 _]. unfold s0, placed. cbn. lia. }
  pose proof (documents_steps input filename Hend json implicitTypes typeMap Ht legacy (S (length input)) (cur s0) Hp ltac:(left; lia) s0 eq_refl) as Hr.
  unfold mbind, res_bind. destruct (read_documents _ _ _ _ _ _ _ s0) as [[u s]|e]; [done|]. intros [= ->]. by apply Hr.
Qed.

(** A text whose collections are not closed. *)
Lemma load_ends_witness :
  (∃ e, load #"a.yaml" false false (load_first ++ [load_merge]) [(yaml_tag #"str", load_str)] #"a: [[[ {b: !!str 1" [] = Throw e) ∧
  no_overflow (load #"a.yaml" false false (load_first ++ [load_merge]) [(yaml_tag #"str", load_str)] #"a: [[[ {b: !!str 1" []).
Proof.
  split; [eexists; vm_compute; reflexivity|].
  apply (load_ends #"a.yaml" false false (load_first ++ [load_merge]) [(yaml_tag #"str", load_str)] #"a: [[[ {b: !!str 1" []).
  intros t Ht x h. cbn in Ht. set_unfold in Ht.
  repeat match type of Ht with _ ∨ _ => destruct Ht as [Ht|Ht] end; subst; try contradiction; discriminate.
Defined.
