(* ===== verification/YamlFlow.v ===== *)
(** * js-yaml: collections that are dumped and loaded

    Trees of objects, arrays and scalars in the flow style: what the dumper writes is
    read back by the loader. *)

From S2P Require Import Prelude JsValue JsHeap YamlTypes YamlMark YamlScan YamlLoader YamlDump YamlCore YamlRoundtrip.

(** ** The text of a tree *)

(** What comes after the first entry. *)
Definition more_texts (ts : list jstr) : jstr := concat (map (λ t, #", " ++ t) ts).
Definition texts (ts : list jstr) : jstr := match ts with [] => [] | t :: ts => t ++ more_texts ts end.

Definition pair_text (k v : jstr) : jstr := (if (1024 <? length k)%nat then #"? " else []) ++ k ++ #": " ++ v.

Section text.
Context (o : dump_options).

Fixpoint flow_text (v : value) : jstr :=
  match v with
  | VArr l => #"[" ++ texts (map flow_text l) ++ #"]"
  | VObj kvs => #"{" ++ texts (map (λ p, pair_text (writeScalar o p.1 0 false) (flow_text p.2)) kvs) ++ #"}"
  | VStr s => writeScalar o s 0 false
  | _ => default [] (typed_text v)
  end.
End text.

Lemma more_texts_app ts us : more_texts (ts ++ us) = more_texts ts ++ more_texts us.
Proof. unfold more_texts. by rewrite map_app concat_app. Qed.

Lemma texts_app ts t : texts (ts ++ [t]) = texts ts ++ (if (length ts =? 0)%nat then [] else #", ") ++ t.
Proof. destruct ts as [|u ts]; cbn [texts app length Nat.eqb]; [by rewrite app_nil_r|]. rewrite more_texts_app -app_assoc. cbn [more_texts map concat]. by rewrite app_nil_r. Qed.

(** ** The dumper *)

Section dumper.
Context (o : dump_options) (d_rest : list dtype) (l_rest : list ltype).

(** A text: further types that the loader tries on it are tested by the dumper. *)
Definition flow_string (s : jstr) : Prop :=
  wf_jstr s ∧ (∀ ty h, In ty l_rest → lt_resolve ty (text_value s) h = true → existsb (λ t, dt_resolve t s) d_rest = true).

(** Trees that are written: numbers have all their digits, and the properties of objects
    are in the order they are enumerated in. *)
Fixpoint flowable (v : value) : Prop :=
  match v with
  | VNull | VBool _ => True
  | VNum n => Z.abs n <= 2 ^ 53
  | VStr s => flow_string s
  | VArr l => Forall id (map flowable l)
  | VObj kvs => NoDup kvs.*1 ∧ enum_keys kvs = kvs.*1 ∧ Forall flow_string kvs.*1 ∧ Forall id (map (λ p, flowable p.2) kvs)
  | _ => False
  end.

Hypothesis flow_level : o_flowLevel o = 0.
Hypothesis dump_types : o_implicit o = dump_first ++ d_rest.
Hypothesis dump_styles : o_styleMap o = [].
(** No further type represents texts or collections. *)
Hypothesis untested : ∀ t f x h, In t (d_rest ++ o_explicit o) → dt_test t = Some f →
  match x with HV (VStr _) | HL _ => f x h = false | _ => True end.

Definition wrote (s s' : dstate) (t : jstr) : Prop := d_dump s' = text_value t ∧ d_heap s' = d_heap s.

Lemma detect_first types explicit x s : (types = o_implicit o ∨ types = o_explicit o) →
  match x with HV (VStr _) | HL _ => detectType o types explicit x s = Ok (false, s) | _ => True end.
Proof.
  intros Ht. assert (match x with HV (VStr _) | HL _ => ∀ t f, In t types → dt_test t = Some f → f x (d_heap s) = false | _ => True end) as H.
  { destruct Ht as [-> | ->]; [rewrite dump_types|].
    - destruct x as [[]|]; try done; (intros t f [Hin|Hin]%in_app_iff Hf; [repeat destruct Hin as [<-|Hin]; try done; by injection Hf as <-|]).
      + exact (untested t f (HV (VStr s0)) (d_heap s) (proj2 (in_app_iff _ _ _) (or_introl Hin)) Hf).
      + exact (untested t f (HL l) (d_heap s) (proj2 (in_app_iff _ _ _) (or_introl Hin)) Hf).
    - destruct x as [[]|]; try done; intros t f Hin Hf.
      + exact (untested t f (HV (VStr s0)) (d_heap s) (proj2 (in_app_iff _ _ _) (or_intror Hin)) Hf).
      + exact (untested t f (HL l) (d_heap s) (proj2 (in_app_iff _ _ _) (or_intror Hin)) Hf). }
  destruct x as [[]|]; try done; by apply detect_none.
Qed.

(** The order of enumeration depends on the names only. *)
Lemma insert_index_keys {V W} n (p : jstr * V) (q : jstr * W) : p.1 = q.1 → ∀ la lb,
  map (λ x, (x.1, x.2.1)) la = map (λ x, (x.1, x.2.1)) lb →
  map (λ x, (x.1, x.2.1)) (insert_index n p la) = map (λ x, (x.1, x.2.1)) (insert_index n q lb).
Proof.
  intros Hp. induction la as [|[m x] la IH]; intros [|[m' y] lb] H; try done; cbn in *; [by rewrite Hp|].
  injection H as -> Hxy H. destruct (n <? m'); cbn; [by rewrite Hp Hxy H|]. by rewrite Hxy (IH lb H).
Qed.

Lemma enum_keys_keys {V W} (a : list (jstr * V)) (b : list (jstr * W)) : a.*1 = b.*1 → enum_keys a = enum_keys b.
Proof.
  unfold enum_keys, enum. intros H. rewrite !fmap_app. f_equal.
  - assert (∀ (la : list (Z * (jstr * V))) (lb : list (Z * (jstr * W))),
      map (λ x, (x.1, x.2.1)) la = map (λ x, (x.1, x.2.1)) lb → la.*2.*1 = lb.*2.*1) as Hk.
    { intros la. induction la as [|x la IH]; intros [|y lb] E; try done. injection E as _ Hxy E. cbn. by rewrite Hxy (IH lb E). }
    apply Hk. assert (map (λ x : Z * (jstr * V), (x.1, x.2.1)) [] = map (λ x : Z * (jstr * W), (x.1, x.2.1)) []) as H0 by done. revert H0.
    generalize (@nil (Z * (jstr * V))) as la, (@nil (Z * (jstr * W))) as lb. revert b H.
    induction a as [|p a IH]; intros [|q b] H la lb Hl; try done. injection H as Hpq H. cbn [fold_left]. apply (IH b H). rewrite Hpq.
    destruct (canonical_index q.1); [by apply insert_index_keys|done].
  - revert b H. induction a as [|p a IH]; intros [|q b] H; try done. injection H as Hpq H. rewrite !filter_cons Hpq.
    case_decide; cbn; [rewrite Hpq|]; by rewrite (IH b H).
Qed.

(** A scalar. *)
Lemma write_scalar_node n v block compact s : is_object v = false → flowable v →
  ∃ s', writeNode o (S n) [] 0 (HV v) block compact false s = Ok (true, s') ∧ wrote s s' (flow_text o v).
Proof.
  intros Hv Hf. cbn [writeNode]. set (s1 := {| d_tag := None; d_dump := HV v; d_used := d_used s; d_heap := d_heap s |}).
  rewrite (dbind_run _ _ s tt {| d_tag := None; d_dump := d_dump s; d_used := d_used s; d_heap := d_heap s |}) // (dbind_run _ _ _ tt s1) //.
  destruct v as [| |b|m| |t| |]; try done.
  4: { rewrite (dbind_run _ _ s1 false s1); [|by apply (detect_first (o_implicit o) false (HV (VStr t))); left].
       rewrite (dbind_run _ _ s1 false s1); [|by apply (detect_first (o_explicit o) true (HV (VStr t))); right].
       by exists {| d_tag := None; d_dump := text_value (writeScalar o t 0 false); d_used := d_used s; d_heap := d_heap s |}. }
  all: match goal with |- context [HV ?v] =>
         set (s2 := {| d_tag := Some #"?"; d_dump := text_value (flow_text o v); d_used := d_used s; d_heap := d_heap s |}) end;
    (rewrite (dbind_run _ _ s1 true s2);
     [by exists s2|rewrite dump_types; cbn [app detectType dump_first]; unfold mbind, dm_bind, represent_with; cbn; rewrite dump_styles; reflexivity]).
Qed.

(** A node that is written from any state with the heap. *)
Definition writes (n : nat) (h : heap) (x : hval) (t : jstr) : Prop := ∀ block compact s, d_heap s = h →
  ∃ s', writeNode o n [] 0 x block compact false s = Ok (true, s') ∧ wrote s s' t.

Lemma dumped_text s t : d_dump s = text_value t → dumped s = Ok (t, s).
Proof. unfold dumped, state. by intros ->. Qed.

Lemma heap_read {A} (f : heap → res A) s a : f (d_heap s) = Ok a → heap_do (JsHeap.reads f) s = Ok (a, s).
Proof. intros H. unfold heap_do, JsHeap.reads. rewrite H. by destruct s. Qed.

Lemma write_elements n h xs ts : Forall2 (writes n h) xs ts → ∀ us s, d_heap s = h → ∃ s',
  dfold (λ acc x, let '(index, result) := acc in
    ok ← writeNode o n [] 0 x false false false; t ← dumped;
    mret (S index, if ok : bool then result ++ (if (index =? 0)%nat then [] else #", ") ++ t else result)) xs (length us, texts us) s
  = Ok ((length (us ++ ts), texts (us ++ ts)), s') ∧ d_heap s' = h.
Proof.
  induction 1 as [|x t xs ts Hx _ IH]; intros us s Hs; cbn [dfold]; [rewrite app_nil_r; by exists s|].
  destruct (Hx false false s Hs) as (s1 & E1 & D1 & H1).
  rewrite (dbind_run _ _ s (S (length us), texts (us ++ [t])) s1).
  2: { rewrite (dbind_run _ _ s true s1) // (dbind_run _ _ s1 t s1); [by rewrite texts_app|by apply dumped_text]. }
  destruct (IH (us ++ [t]) s1 ltac:(congruence)) as (s2 & E2 & H2). exists s2. split; [|done].
  rewrite (cons_middle t us ts) app_assoc -E2. do 2 f_equal. by rewrite length_app Nat.add_1_r.
Qed.

Lemma write_pairs n h x kvs ts : Forall2 (λ k t, ∃ y kt vt, look x k h = Ok y ∧ writes n h (HV (VStr k)) kt ∧ writes n h y vt ∧ t = pair_text kt vt) kvs ts →
  ∀ us s, d_heap s = h → ∃ s',
  dfold (λ acc key, let '(index, result) := acc in
    x ← heap_do (hget x key); ok ← writeNode o n [] 0 (HV (VStr key)) false false false;
    if negb ok then mret (S index, result)
    else
      k ← dumped; ok ← writeNode o n [] 0 x false false false; v ← dumped;
      mret (S index, if ok : bool
                     then result ++ (if (index =? 0)%nat then [] else #", ") ++ (if (1024 <? length k)%nat then #"? " else []) ++ k ++ #": " ++ v
                     else result)) kvs (length us, texts us) s
  = Ok ((length (us ++ ts), texts (us ++ ts)), s') ∧ d_heap s' = h.
Proof.
  induction 1 as [|k t kvs ts (y & kt & vt & Hk & Hkt & Hvt & ->) _ IH]; intros us s Hs; cbn [dfold]; [rewrite app_nil_r; by exists s|].
  destruct (Hkt false false s Hs) as (s1 & E1 & D1 & H1). destruct (Hvt false false s1 ltac:(congruence)) as (s2 & E2 & D2 & H2).
  rewrite (dbind_run _ _ s (S (length us), texts (us ++ [pair_text kt vt])) s2).
  2: { rewrite (dbind_run _ _ s y s); [|apply heap_read; by rewrite Hs].
       rewrite (dbind_run _ _ s true s1) //. cbn [negb]. rewrite (dbind_run _ _ s1 kt s1); [|by apply dumped_text].
       rewrite (dbind_run _ _ s1 true s2) // (dbind_run _ _ s2 vt s2); [|by apply dumped_text]. by rewrite texts_app. }
  destruct (IH (us ++ [pair_text kt vt]) s2 ltac:(congruence)) as (s3 & E3 & H3). exists s3. split; [|done].
  rewrite (cons_middle _ us ts) app_assoc -E3. do 2 f_equal. by rewrite length_app Nat.add_1_r.
Qed.

Lemma write_flow n : ∀ h x v, tree n h x = Some v → flowable v → ∀ k, writes (S (n + k)) h x (flow_text o v).
Proof.
  induction n as [|n IH]; intros h [u|l] v Hx Hv k block compact s Hs; try done.
  1,2: (cbn [tree] in Hx; destruct (is_object u) eqn:Eu; [done|]; injection Hx as ->; by apply write_scalar_node).
  cbn [writeNode]. set (s0 := {| d_tag := None; d_dump := d_dump s; d_used := d_used s; d_heap := d_heap s |}).
  set (s1 := {| d_tag := None; d_dump := HL l; d_used := d_used s; d_heap := d_heap s |}).
  rewrite (dbind_run _ _ s tt s0) // (dbind_run _ _ s0 tt s1) //.
  rewrite (dbind_run _ _ s1 false s1); [|by apply (detect_first (o_implicit o) false (HL l)); left].
  rewrite (dbind_run _ _ s1 false s1); [|by apply (detect_first (o_explicit o) true (HL l)); right].
  rewrite (dbind_run _ _ s1 (HL l) s1) // (dbind_run _ _ s1 None s1) // (dbind_run _ _ s1 (d_used s) s1) //. cbv zeta.
  rewrite flow_level. cbn [h_object duplicate_index list_find fmap option_fmap option_map Z.ltb Z.compare orb]. rewrite andb_false_r.
  unfold write_content. rewrite (dbind_run _ _ s1 h s1); [|by unfold state; rewrite -Hs]. rewrite (dbind_run _ _ s1 None s1) //. cbn [andb].
  apply tree_obj in Hx as (m & [= <-] & [(ps & vs & El & -> & Hm)|(es & vs & El & -> & Hm)]); cbn [h_array]; rewrite El; cbv iota.
  - destruct Hv as (Hnd & Henum & Hks & Hvs). assert (ps.*1 = vs.*1) as Hkeys.
    { apply mapM_Some in Hm. clear -Hm. induction Hm as [|p q ps vs (w & _ & ->)%fmap_Some _ IH]; [done|]. cbn. by rewrite IH. }
    assert (enum_keys ps = ps.*1) as Henum' by (rewrite (enum_keys_keys ps vs Hkeys) Henum; done).
    destruct (write_pairs (S (n + k)) h (HL l) ps.*1 (map (λ p, pair_text (writeScalar o p.1 0 false) (flow_text o p.2)) vs)) with (us := @nil jstr) (s := s1) as (s2 & E2 & H2).
    { apply mapM_Some in Hm. assert (∀ p, p ∈ ps → look (HL l) p.1 h = Ok p.2) as Hlook.
      { intros [key y] Hin. cbn [look]. rewrite El. cbn [obj_get]. rewrite (pget_in ps key y); [done|by rewrite Hkeys|done]. }
      clear -Hm IH Hks Hvs Hlook flow_level dump_types dump_styles untested. induction Hm as [|p q ps vs (w & Hw & ->)%fmap_Some _ IHm]; [constructor|].
      cbn in Hks, Hvs |- *. apply Forall_cons in Hks as [Hk Hks], Hvs as [Hv Hvs]. constructor.
      - exists p.2, (writeScalar o p.1 0 false), (flow_text o w). split_and!; [apply Hlook; by left| |exact (IH h p.2 w Hw Hv k)|done].
        intros b c s Hs. by apply (write_scalar_node (n + k) (VStr p.1)).
      - apply IHm; [done|done|]. intros p' Hp'. apply Hlook. by right. }
    { done. }
    set (s3 := {| d_tag := None; d_dump := text_value (flow_text o (VObj vs)); d_used := d_used s2; d_heap := d_heap s2 |}).
    rewrite (dbind_run _ _ s1 true s3).
    2: { rewrite (dbind_run _ _ s1 tt s3) //. unfold writeFlowMapping. rewrite (dbind_run _ _ s1 None s1) //.
         rewrite (dbind_run _ _ s1 ps.*1 s1); [|apply heap_read; cbn; by rewrite Hs El Henum'].
         rewrite (dbind_run _ _ _ _ _ E2). done. }
    exists s3. split; [done|]. split; [done|]. cbn. congruence.
  - destruct (write_elements (S (n + k)) h es (map (flow_text o) vs)) with (us := @nil jstr) (s := s1) as (s2 & E2 & H2).
    { apply mapM_Some in Hm. cbn [flowable] in Hv. clear -Hm IH Hv. induction Hm as [|x w es vs Hx _ IHm]; [constructor|].
      cbn [map] in *. apply Forall_cons in Hv as [Hw Hv]. constructor; [exact (IH h x w Hx Hw k)|exact (IHm Hv)]. }
    { done. }
    set (s3 := {| d_tag := None; d_dump := text_value (flow_text o (VArr vs)); d_used := d_used s2; d_heap := d_heap s2 |}).
    rewrite (dbind_run _ _ s1 true s3).
    2: { rewrite (dbind_run _ _ s1 tt s3) //. unfold writeFlowSequence. rewrite (dbind_run _ _ s1 None s1) //.
         rewrite (dbind_run _ _ s1 es s1); [|apply heap_read; cbn; by rewrite Hs El].
         rewrite (dbind_run _ _ _ _ _ E2). done. }
    exists s3. split; [done|]. split; [done|]. cbn. congruence.
Qed.
End dumper.

(** ** Allocation

    A collection is allocated before its entries are read, and each entry is added when
    it has been read. *)

Definition push_obj (x : hval) (b : hobj) : hobj := match b with HArr l o => HArr (l ++ [x]) o | HObj _ => b end.

Fixpoint place (v : value) (h : heap) : hval * heap :=
  match v with
  | VArr l =>
      (HL (length h), fold_left (λ h' f, alter (push_obj (f h').1) (length h) (f h').2) (map place l) (h ++ [HArr [] []]))
  | VObj kvs =>
      (HL (length h), fold_left (λ h' p, alter (obj_set p.1 (p.2 h').1) (length h) (p.2 h').2)
                        (map (λ p, (p.1, place p.2)) kvs) (h ++ [HObj []]))
  | _ => (HV v, h)
  end.

Definition extends (h h' : heap) : Prop := (length h <= length h')%nat ∧ ∀ l, (l < length h)%nat → h' !! l = h !! l.

Lemma extends_refl h : extends h h.
Proof. by split. Qed.
Lemma extends_trans a b c : extends a b → extends b c → extends a c.
Proof. intros [H1 H2] [H3 H4]. split; [lia|]. intros l Hl. rewrite H4; [by apply H2|lia]. Qed.
Lemma extends_app h e : extends h (h ++ e).
Proof. split; [rewrite length_app; lia|]. intros l Hl. by apply lookup_app_l. Qed.
Lemma extends_alter h h' f r : extends h h' → (length h <= r)%nat → extends h (alter f r h').
Proof. intros [H1 H2] Hr. split; [by rewrite length_alter|]. intros l Hl. rewrite list_lookup_alter_ne; [by apply H2|lia]. Qed.

Lemma fold_extends {A} (f : heap → A → heap) l : ∀ h0 h, extends h0 h → (∀ h' a, a ∈ l → extends h0 h' → extends h0 (f h' a)) → extends h0 (fold_left f l h).
Proof.
  induction l as [|a l IH]; intros h0 h H Hf; cbn [fold_left]; [done|]. apply IH; [apply Hf; [by left|done]|]. intros h' b Hb. apply Hf. by right.
Qed.

Lemma place_extends v : ∀ h, extends h (place v h).2.
Proof.
  induction v as [| | | | | |l IH|kvs IH] using value_ind; intros h; try apply extends_refl; cbn [place snd].
  - apply fold_extends; [apply extends_app|]. intros h' f (v & -> & Hv)%list_elem_of_fmap Hh'. rewrite Forall_forall in IH.
    apply extends_alter; [|done]. eapply extends_trans; [exact Hh'|by apply IH].
  - apply fold_extends; [apply extends_app|]. intros h' f (v & -> & Hv)%list_elem_of_fmap Hh'. rewrite Forall_forall in IH.
    apply extends_alter; [|done]. eapply extends_trans; [exact Hh'|by apply (IH v)].
Qed.

(** A value stands for a tree from [lo] on: whatever is below does not matter. *)
Definition stands (lo : nat) (h : heap) (x : hval) (v : value) : Prop :=
  ∀ h', (∀ l, (lo <= l)%nat → (l < length h)%nat → h' !! l = h !! l) → tree (height v) h' x = Some v.

Lemma stands_later lo h h' x v : stands lo h x v → (∀ l, (lo <= l)%nat → (l < length h)%nat → h' !! l = h !! l) → (length h <= length h')%nat → stands lo h' x v.
Proof. intros H Hh Hl h'' H''. apply H. intros l H1 H2. rewrite H''; [by apply Hh|done|lia]. Qed.

Lemma stands_below lo lo' h x v : stands lo h x v → (lo' <= lo)%nat → stands lo' h x v.
Proof. intros H Hl h' Hh'. apply H. intros l H1 H2. apply Hh'; lia. Qed.

(** A list of trees that have been placed behind the collection [r], which is changed
    next. *)
Lemma stands_step r h h1 f xs vs x v :
  Forall2 (stands (S r) h) xs vs → extends h h1 → (r < length h)%nat → stands (length h) h1 x v →
  Forall2 (stands (S r) (alter f r h1)) (xs ++ [x]) (vs ++ [v]).
Proof.
  intros Hs [Hl He] Hr Hx. apply Forall2_app; [|constructor; [|constructor]].
  - eapply Forall2_impl; [exact Hs|]. intros y w Hy. eapply stands_later; [exact Hy| |by rewrite length_alter].
    intros l H1 H2. rewrite list_lookup_alter_ne; [by apply He|lia].
  - eapply stands_later; [eapply stands_below; [exact Hx|lia]| |by rewrite length_alter].
    intros l H1 H2. apply list_lookup_alter_ne. lia.
Qed.

Fixpoint plain_tree (v : value) : Prop :=
  match v with
  | VArr l => Forall id (map plain_tree l)
  | VObj kvs => NoDup kvs.*1 ∧ Forall id (map (λ p, plain_tree p.2) kvs)
  | _ => True
  end.

Lemma mapM_height (h : heap) n xs vs : Forall2 (λ x v, tree (height v) h x = Some v ∧ (height v <= n)%nat) xs vs → mapM (tree n h) xs = Some vs.
Proof. intros H. apply mapM_Some. eapply Forall2_impl; [exact H|]. intros x v [Hx Hn]. by eapply tree_weaken. Qed.

Lemma height_le (vs : list value) v : v ∈ vs → (height v <= max_list (map height vs))%nat.
Proof. intros H. by apply max_list_elem_of_le, (list_elem_of_fmap_2 height). Qed.

(** A tree that stands where it is placed. *)
Definition placed_well (v : value) : Prop := ∀ h, plain_tree v → stands (length h) (place v h).2 (place v h).1 v.

Definition push_placed (r : nat) (h : heap) (f : heap → hval * heap) : heap := alter (push_obj (f h).1) r (f h).2.
Definition set_placed (r : nat) (h : heap) (p : jstr * (heap → hval * heap)) : heap := alter (obj_set p.1 (p.2 h).1) r (p.2 h).2.

Lemma array_fold r vs : ∀ done xs h, Forall placed_well vs → Forall id (map plain_tree vs) →
  h !! r = Some (HArr xs []) → Forall2 (stands (S r) h) xs done →
  let h' := fold_left (push_placed r) (map place vs) h in
  ∃ xs', h' !! r = Some (HArr xs' []) ∧ Forall2 (stands (S r) h') xs' (done ++ vs).
Proof.
  induction vs as [|v vs IHvs]; intros done xs h HF Hp Hr Hs; cbn [map fold_left]; [exists xs; by rewrite app_nil_r|].
  apply Forall_cons in HF as [Hv HF]. cbn [map] in Hp. apply Forall_cons in Hp as [Hpv Hp]. pose proof (place_extends v h) as He.
  pose proof (lookup_lt_Some _ _ _ Hr) as Hlt.
  destruct (IHvs (done ++ [v]) (xs ++ [(place v h).1]) (push_placed r h (place v))) as (xs' & H1 & H2); [done|done| | |].
  - unfold push_placed. rewrite list_lookup_alter_eq (proj2 He r Hlt) Hr. done.
  - eapply stands_step; [done|done|done|by apply Hv].
  - exists xs'. by rewrite -app_assoc in H2.
Qed.

Lemma object_fold r kvs : ∀ done ps h, Forall (λ p, placed_well p.2) kvs → Forall id (map (λ p, plain_tree p.2) kvs) →
  NoDup (done ++ kvs).*1 → h !! r = Some (HObj ps) → ps.*1 = done.*1 → Forall2 (stands (S r) h) ps.*2 done.*2 →
  let h' := fold_left (set_placed r) (map (λ p, (p.1, place p.2)) kvs) h in
  ∃ ps', h' !! r = Some (HObj ps') ∧ ps'.*1 = (done ++ kvs).*1 ∧ Forall2 (stands (S r) h') ps'.*2 (done ++ kvs).*2.
Proof.
  induction kvs as [|[k v] kvs IHvs]; intros done ps h HF Hp Hnd Hr Hk Hs; cbn [map fold_left]; [exists ps; by rewrite app_nil_r|].
  apply Forall_cons in HF as [Hv HF]. cbn [map] in Hp. apply Forall_cons in Hp as [Hpv Hp]. pose proof (place_extends v h) as He.
  pose proof (lookup_lt_Some _ _ _ Hr) as Hlt. assert (k ∉ ps.*1) as Hfresh.
  { rewrite Hk. intros Hin. rewrite fmap_app in Hnd. apply NoDup_app in Hnd as (_ & Hnd & _). apply (Hnd k Hin). by left. }
  destruct (IHvs (done ++ [(k, v)]) (ps ++ [(k, (place v h).1)]) (set_placed r h (k, place v))) as (ps' & H1 & H2 & H3); [done|done| | | | |].
  - by rewrite -app_assoc.
  - unfold set_placed. cbn [fst snd]. rewrite list_lookup_alter_eq (proj2 He r Hlt) Hr. cbn. by rewrite pset_fresh.
  - by rewrite !fmap_app Hk.
  - rewrite !fmap_app. cbn. eapply stands_step; [done|done|done|by apply Hv].
  - exists ps'. rewrite -app_assoc in H2, H3. done.
Qed.

Lemma place_stands v : placed_well v.
Proof.
  induction v as [| | | | | |l IH|kvs IH] using value_ind; intros h Hv; try (by intros h' _).
  - set (r := length h). destruct (array_fold r l [] [] (h ++ [HArr [] []]) IH Hv) as (xs & H1 & H2);
      [unfold r; by rewrite list_lookup_middle|done|].
    intros h' Hh'. pose proof (lookup_lt_Some _ _ _ H1) as Hlt. cbn [place height tree fst]. rewrite Hh' //.
    change (place (VArr l) h).2 with (fold_left (push_placed r) (map place l) (h ++ [HArr [] []])). rewrite H1.
    apply fmap_Some. exists l. split; [|done]. apply mapM_height.
    apply Forall2_same_length_lookup. split; [by eapply Forall2_length|]. intros i x w Hx Hw. split.
    + apply (Forall2_lookup_lr _ _ _ _ _ _ H2 Hx Hw). intros a Ha1 Ha2. apply Hh'; [lia|done].
    + apply height_le. by eapply list_elem_of_lookup_2.
  - destruct Hv as [Hnd Hv]. set (r := length h).
    destruct (object_fold r kvs [] [] (h ++ [HObj []]) IH Hv Hnd) as (ps & H1 & H2 & H3); [unfold r; by rewrite list_lookup_middle|done|done|].
    intros h' Hh'. pose proof (lookup_lt_Some _ _ _ H1) as Hlt. cbn [place height tree fst]. rewrite Hh' //.
    change (place (VObj kvs) h).2 with (fold_left (set_placed r) (map (λ p, (p.1, place p.2)) kvs) (h ++ [HObj []])). rewrite H1.
    apply fmap_Some. exists kvs. split; [|done]. apply mapM_Some. cbn [app] in H2, H3.
    apply Forall2_same_length_lookup. split; [by rewrite -(length_fmap fst ps) H2 length_fmap|]. intros i [k x] [k' w] Hx Hw.
    assert (k = k') as <-.
    { pose proof (list_lookup_fmap fst ps i) as E1. pose proof (list_lookup_fmap fst kvs i) as E2. rewrite Hx in E1. rewrite Hw -H2 E1 in E2. by injection E2. }
    apply fmap_Some. exists w. split; [|done]. eapply tree_weaken with (n := height w); [|done|].
    + apply (max_list_elem_of_le), (list_elem_of_fmap_2 (λ p, height p.2) kvs (k, w)). by eapply list_elem_of_lookup_2.
    + apply (Forall2_lookup_lr _ _ _ i _ _ H3); [by rewrite list_lookup_fmap Hx|by rewrite list_lookup_fmap Hw|].
      intros a Ha1 Ha2. apply Hh'; [lia|done].
Qed.
