(* ===== verification/YamlFlowLoad.v ===== *)
(** * js-yaml: reading collections in the flow style

    The loader on the text of a tree: each node is read where it stands in the line, a
    collection is allocated and then gets its entries, in the order of the text. *)

From S2P Require Import Prelude JsValue JsHeap YamlTypes YamlMark YamlScan YamlLoader YamlDump YamlCore YamlRoundtrip YamlFlow.

(** ** Places in the line *)

Section place.
Context (input filename : jstr).

(** The cursor at a place of the only line. *)
Definition place_at (p : nat) : cursor := move p start_cursor.

Lemma here_at pre x rest : input = pre ++ x :: rest → here input (place_at (length pre)) = x.
Proof. apply code_at. Qed.

Lemma next_at pre x y rest : input = pre ++ x :: y :: rest → code input (S (length pre)) = y.
Proof. intros E. pose proof (code_at input (pre ++ [x]) y rest ltac:(by rewrite E -app_assoc)) as H. by rewrite length_app Nat.add_1_r in H. Qed.

Lemma with_cur_same s : with_cur (cur s) s = s.
Proof. by destruct s. Qed.

Definition dark (x : Z) : bool := negb (has x [0; 9; 10; 13; 32; 35]).

Lemma dark_facts x : dark x = true → (x =? 0) = false ∧ is_WHITE_SPACE x = false ∧ is_EOL x = false ∧ (x =? 35) = false ∧ is_WS_OR_EOL x = false.
Proof. unfold dark, has, is_WHITE_SPACE, is_EOL, is_WS_OR_EOL. cbn [existsb]. intros H. split_and!; lia. Qed.

Lemma separate_none s pre x rest : input = pre ++ x :: rest → dark x = true → cur s = place_at (length pre) → separate input filename true s = Ok (0, s).
Proof.
  intros E Hx Hc. unfold separate. rewrite separation_none; [by rewrite with_cur_same|].
  rewrite Hc (here_at pre x rest E). unfold dark, has in *. cbn [existsb] in *. lia.
Qed.

Lemma skip_one f p : f (code input p) = true → f (code input (S p)) = false → (p < length input)%nat → skip input f p = S p.
Proof.
  intros H1 H2 Hp. unfold skip. destruct (length input - p)%nat as [|n] eqn:En; [lia|]. cbn [skip_while]. rewrite H1.
  destruct n; cbn [skip_while]; [done|]. by rewrite H2.
Qed.

Lemma separate_space s pre x rest : input = pre ++ 32 :: x :: rest → dark x = true → cur s = place_at (length pre) →
  separate input filename true s = Ok (0, with_cur (place_at (S (length pre))) s).
Proof.
  intros E Hx Hc. pose proof (here_at pre 32 (x :: rest) E) as Hh. pose proof (next_at pre 32 x rest E) as Hn.
  destruct (dark_facts x Hx) as (_ & Hw & He & H35 & _).
  unfold separate, skipSeparationSpace. rewrite Hc. cbn [separation]. rewrite Hh. change (32 =? 0) with false. cbv iota.
  change (c_position (place_at (length pre))) with (length pre). unfold here in Hh. change (c_position (place_at (length pre))) with (length pre) in Hh.
  rewrite (skip_one is_WHITE_SPACE); [|by rewrite Hh|by rewrite Hn|by rewrite E length_app; cbn; lia]. rewrite Hn H35. cbn [andb]. rewrite Hn He. done.
Qed.

(** Between the entries there is a space, or nothing. *)
Lemma separate_lead s pre lead x rest : (lead = [] ∨ lead = [32]) → input = pre ++ lead ++ x :: rest → dark x = true →
  cur s = place_at (length pre) → separate input filename true s = Ok (0, with_cur (place_at (length pre + length lead)) s).
Proof.
  intros [-> | ->] E Hx Hc.
  - rewrite (separate_none s pre x rest E Hx Hc). cbn [length]. by rewrite Nat.add_0_r -Hc with_cur_same.
  - rewrite (separate_space s pre x rest E Hx Hc). cbn [length]. by rewrite Nat.add_1_r.
Qed.

(** What comes after a node. *)
Definition follows (post : jstr) : Prop :=
  ∃ y rest, post = y :: rest ∧ (has y [44; 93; 125] = true ∨ y = 58 ∧ ∃ r, rest = 32 :: r).

Lemma follows_unit post : follows post → ∃ y rest, post = y :: rest ∧ dark y = true ∧ y ≠ 39.
Proof.
  intros (y & rest & -> & Hy). exists y, rest. split; [done|]. destruct Hy as [Hy|[-> _]]; [|done].
  unfold dark, has in *. cbn [existsb] in *. lia.
Qed.

(** ** Scalars *)

Lemma double_at s pre post : wf_jstr s → input = pre ++ ([34] ++ escapeString s ++ [34]) ++ post →
  readDoubleQuotedScalar input filename (place_at (length pre)) = Ok (place_at (length pre + length ([34] ++ escapeString s ++ [34])), Some s).
Proof.
  intros Hw E. unfold readDoubleQuotedScalar. rewrite (here_at pre 34 ((escapeString s ++ [34]) ++ post) E). cbn [Z.eqb Pos.eqb]. cbv iota zeta.
  change (c_position (advance (place_at (length pre)))) with (S (length pre)).
  pose proof (double_loop_reads input filename s (S (length input)) (pre ++ [34]) [] post [] (advance (place_at (length pre))) (S (length pre))) as H.
  rewrite length_app Nat.add_1_r in H. rewrite H.
  - cbn [mbind res_bind]. unfold advance, place_at. rewrite !move_move. do 3 f_equal. rewrite !length_app. cbn. lia.
  - by rewrite E -!app_assoc.
  - cbn. lia.
  - done.
  - cbn. lia.
  - done.
  - rewrite E !length_app. cbn. lia.
Qed.

Lemma single_at s pre y post : forallb isPrintable s = true → y ≠ 39 → input = pre ++ (39 :: quote_units s ++ [39]) ++ y :: post →
  readSingleQuotedScalar input filename (place_at (length pre)) = Ok (place_at (length pre + length (39 :: quote_units s ++ [39])), Some s).
Proof.
  intros Hw Hy E. unfold readSingleQuotedScalar. rewrite (here_at pre 39 ((quote_units s ++ [39]) ++ y :: post) E). cbn [Z.eqb Pos.eqb]. cbv iota zeta.
  change (c_position (advance (place_at (length pre)))) with (S (length pre)).
  pose proof (single_loop_reads input filename s (S (length input)) (pre ++ [39]) [] (y :: post) [] (advance (place_at (length pre))) (S (length pre))) as H.
  rewrite length_app Nat.add_1_r in H. rewrite H.
  - cbn [mbind res_bind]. unfold advance, place_at. rewrite !move_move. do 3 f_equal. cbn [length]. rewrite !length_app. cbn. lia.
  - rewrite E -!app_assoc. cbn [app]. by rewrite -!app_assoc.
  - cbn. lia.
  - cbn [length]. pose proof (code_at input (pre ++ 39 :: quote_units s ++ [39]) y post ltac:(by rewrite E -!app_assoc)) as Hc.
    rewrite !length_app in Hc. cbn [length] in Hc. rewrite length_app in Hc. cbn [length] in Hc.
    replace (S (S (length pre) + 0 + length (quote_units s)))%nat with (length pre + S (length (quote_units s) + 1))%nat by lia. by rewrite Hc.
  - done.
  - cbn. lia.
  - rewrite forallb_forall in Hw. apply forallb_forall. intros c Hc%Hw. unfold line_unit, json_unit_ok, is_EOL. unfold isPrintable in Hc. lia.
  - rewrite E !length_app. cbn [length]. rewrite length_app. cbn. lia.
Qed.

Lemma starts_plain_at s pre post : plain_start s = true → input = pre ++ s ++ post → s ≠ [] → starts_plain input true (length pre) = true.
Proof.
  intros Hf E Hne. destruct s as [|x s]; [done|]. unfold starts_plain. rewrite (code_at input pre x (s ++ post) E).
  unfold plain_start in Hf. change (unit_at (x :: s) 0) with x in Hf. apply orb_true_iff in Hf as [Hf|[->%Z.eqb_eq Hd]%andb_true_iff].
  - change #"#&*!|>'%@`" with [35; 38; 42; 33; 124; 62; 39; 37; 64; 96].
    unfold isPlainSafeFirst, isPrintable, isWhitespace in Hf. apply andb_true_iff. split.
    + apply negb_true_iff. unfold is_WS_OR_EOL, is_FLOW_INDICATOR, has. cbn [existsb]. lia.
    + apply negb_true_iff, andb_false_iff. left. lia.
  - destruct s as [|y s]; [done|]. change (unit_at (45 :: y :: s) 1) with y in Hd. rewrite (next_at pre 45 y (s ++ post) E).
    change (negb (is_WS_OR_EOL 45 || is_FLOW_INDICATOR 45 || has 45 #"#&*!|>'%@`" || (45 =? 34))) with true. cbn [andb].
    change ((45 =? 63) || (45 =? 45)) with true. cbn [andb]. unfold ends_key, is_WS_OR_EOL, is_FLOW_INDICATOR, is_digit in *. lia.
Qed.

Lemma plain_at s pre post : forallb isPlainSafe s = true → plain_start s = true → isWhitespace (List.last s (-1)) = false →
  pre ≠ [] → follows post → input = pre ++ s ++ post →
  readPlainScalar input filename 0 true (place_at (length pre)) = Ok (place_at (length pre + length s), Some s).
Proof.
  intros Hs Hf Hl Hpre Hpost E. destruct s as [|x t] eqn:Es; [done|]. rewrite -Es in Hs Hf Hl E |- *.
  assert (s ≠ []) as Hne by (by rewrite Es). assert (0 < length pre)%nat as Hlp by (destruct pre; [done|cbn; lia]).
  assert (is_WHITE_SPACE (List.last s 0) = false) as Hlast.
  { rewrite Es in Hl |- *. rewrite (last_default _ _ 0 (-1)). unfold is_WHITE_SPACE, isWhitespace in *. lia. }
  unfold readPlainScalar. change (c_position (place_at (length pre))) with (length pre). rewrite (starts_plain_at s pre post Hf E Hne). cbn [negb].
  set (v0 := {| captureStart := length pre |}).
  rewrite (plain_loop_reads input filename 0 true s _ pre post v0 (place_at (length pre))); [|done|done|done|done|done|cbn; lia|intros _; cbn; lia|by rewrite Es|done|rewrite E !length_app; lia].
  set (m := (2 * length input + 2 - length s)%nat). assert (∃ k, m = S k) as [k ->].
  { exists (m - 1)%nat. unfold m. rewrite E !length_app. lia. }
  change (move (length pre + length s) (place_at (length pre))) with (place_at (length pre + length s)). set (c1 := place_at (length pre + length s)).
  assert (plain_break input true c1 = true ∧ (here input c1 =? 0) = false) as [Hb H0].
  { destruct Hpost as (y & rest & -> & Hy). assert (here input c1 = y) as Hh.
    { unfold c1. rewrite -length_app. apply (here_at (pre ++ s) y rest). by rewrite E -app_assoc. }
    unfold plain_break. rewrite Hh. destruct Hy as [Hy|[-> (r & ->)]].
    - assert (y = 44 ∨ y = 93 ∨ y = 125) as Hy' by (unfold has in Hy; cbn [existsb] in Hy; lia).
      destruct Hy' as [-> |[-> | ->]]; by rewrite /= orb_true_r.
    - change (58 =? 58) with true. cbv iota. unfold c1. change (c_position (place_at ?p)) with p.
      rewrite -length_app (next_at (pre ++ s) 58 32 r); [done|by rewrite E -!app_assoc]. }
  cbn [plain_loop]. rewrite H0 Hb. cbn [mbind res_bind captureStart captureEnd p_result v0]. unfold captureSegment.
  destruct (Nat.ltb_spec (length pre) (length pre + length s)) as [_|H]; [|rewrite Es in H; cbn in H; lia].
  rewrite (slice_at input pre s post E) (plain_printable s Hs). cbn [mbind res_bind app]. by rewrite Es.
Qed.
End place.

(** ** Entries *)

Lemma more_texts_cons t ts : more_texts (t :: ts) = 44 :: 32 :: t ++ more_texts ts.
Proof. done. Qed.

Section entries.
Context (input filename : jstr) (json : bool) (compose : Z → context → bool → bool → lm bool).
Context {E : Type} (entry_text : E → jstr) (effect : heap → E → heap) (ready : list E → heap → Prop).
Context (terminator : Z) (r : loc) (isMapping : bool) (tag anchor : option jstr).

(** A state at a place, whose heap and documents are given. *)
Definition stopped (p : nat) (h : heap) (s s' : lstate) : Prop := cur s' = place_at p ∧ objs s' = h ∧ documents s' = documents s.

Hypothesis closing : has terminator [93; 125] = true.
Hypothesis opens : ∀ e es h, ready (e :: es) h → ∃ x t, entry_text e = x :: t ∧ dark x = true ∧ x ≠ terminator.
(** An entry is read up to what follows it. *)
Hypothesis entry_reads : ∀ e es pre y post s, ready (e :: es) (objs s) → input = pre ++ entry_text e ++ y :: post → pre ≠ [] →
  has y [44; 93; 125] = true → cur s = place_at (length pre) → ∃ s',
    flow_entry input filename json compose 0 (HL r) isMapping [] s = Ok ([], s') ∧
    stopped (length pre + length (entry_text e)) (effect (objs s) e) s s' ∧ ready es (objs s').

Lemma loop_ends m next pre lead post s : (lead = [] ∨ lead = [32]) → input = pre ++ lead ++ terminator :: post → cur s = place_at (length pre) →
  flow_loop input filename json compose (S m) 0 terminator (HL r) isMapping tag anchor next [] s =
  Ok (true, with_node tag anchor (Some (if isMapping then #"mapping" else #"sequence")) (HL r) (with_cur (place_at (S (length pre + length lead))) s)).
Proof.
  intros Hlead Ei Hc. assert (dark terminator = true) as Hd by (unfold dark, has in *; cbn [existsb] in *; lia).
  cbn [flow_loop]. rewrite (lbind_run _ _ s (here input (cur s)) s); [|by apply peek_at].
  assert ((here input (cur s) =? 0) = false) as ->.
  { rewrite Hc. destruct Hlead as [-> | ->]; rewrite (here_at input pre _ _ Ei); [by destruct (dark_facts _ Hd)|done]. }
  set (s1 := with_cur (place_at (length pre + length lead)) s).
  rewrite (lbind_run _ _ s 0 s1); [|by apply (separate_lead input filename s pre lead terminator post)].
  rewrite (lbind_run _ _ s1 terminator s1).
  2: { apply peek_at. unfold s1. cbn [cur with_cur]. rewrite -length_app. apply (here_at input (pre ++ lead) terminator post). by rewrite Ei -app_assoc. }
  by rewrite Z.eqb_refl.
Qed.

Lemma loop_reads es : ∀ m pre lead post s, (length es < m)%nat → ready es (objs s) → pre ≠ [] → (lead = [] ∨ lead = [32]) →
  input = pre ++ lead ++ texts (map entry_text es) ++ terminator :: post → cur s = place_at (length pre) → ∃ s',
    flow_loop input filename json compose m 0 terminator (HL r) isMapping tag anchor true [] s = Ok (true, s') ∧
    stopped (S (length pre + length lead + length (texts (map entry_text es)))) (fold_left effect es (objs s)) s s' ∧
    n_result s' = HL r ∧ n_tag s' = tag.
Proof.
  induction es as [|e es IH]; intros m pre lead post s Hm Hready Hpre Hlead Ei Hc; (destruct m as [|m]; [lia|]); cbn [map texts] in *.
  { rewrite (loop_ends m true pre lead post s Hlead Ei Hc). eexists. split; [done|]. split; [|done]. cbn [length]. by rewrite Nat.add_0_r. }
  destruct (opens e es (objs s) Hready) as (x & t & Et & Hd & Hx). cbn [flow_loop].
  rewrite (lbind_run _ _ s (here input (cur s)) s); [|by apply peek_at].
  assert (input = pre ++ lead ++ x :: t ++ more_texts (map entry_text es) ++ terminator :: post) as Ex by (by rewrite Ei Et -app_assoc).
  assert ((here input (cur s) =? 0) = false) as ->.
  { rewrite Hc. destruct Hlead as [-> | ->]; rewrite (here_at input pre _ _ Ex); [by destruct (dark_facts _ Hd)|done]. }
  set (s1 := with_cur (place_at (length pre + length lead)) s).
  rewrite (lbind_run _ _ s 0 s1); [|by eapply separate_lead].
  rewrite (lbind_run _ _ s1 x s1).
  2: { apply peek_at. unfold s1. cbn [cur with_cur]. rewrite -length_app. eapply here_at. by rewrite Ex -app_assoc. }
  rewrite (proj2 (Z.eqb_neq _ _) Hx). cbn [negb].
  (* the unit after the entry *)
  assert (∃ y rest, more_texts (map entry_text es) ++ terminator :: post = y :: rest ∧ has y [44; 93; 125] = true) as (y & rest & Ey & Hy).
  { destruct es as [|e' es]; cbn [map]; [|rewrite more_texts_cons]; eexists _, _; (split; [reflexivity|]); [|done].
    unfold has in *. cbn [existsb] in *. lia. }
  assert (input = (pre ++ lead) ++ entry_text e ++ y :: rest) as E1 by (by rewrite Ei -Ey -!app_assoc).
  destruct (entry_reads e es (pre ++ lead) y rest s1) as (s2 & E2 & (Hc2 & Ho2 & Hd2) & Hr2); [done|done|by destruct pre|done|by rewrite length_app|].
  rewrite (lbind_run _ _ s1 [] s2) //. rewrite -length_app in Hc2.
  rewrite (lbind_run _ _ s2 y s2).
  2: { apply peek_at. rewrite Hc2. eapply here_at. by rewrite E1 -!app_assoc. }
  destruct es as [|e' es]; cbn [map] in *.
  - injection Ey as <- <-. assert ((terminator =? 44) = false) as -> by (unfold has in closing; cbn [existsb] in closing; lia).
    rewrite (lbind_run _ _ s2 tt s2) //. destruct m as [|m]; [cbn in Hm; lia|].
    rewrite (loop_ends m false ((pre ++ lead) ++ entry_text e) [] post s2); [|by left|by rewrite E1 -!app_assoc|done].
    eexists. split; [done|]. split; [|done]. split_and!; [|done|done]. cbn [cur with_node with_cur].
    f_equal. cbn [more_texts map concat]. rewrite !length_app. cbn [length]. lia.
  - rewrite more_texts_cons in Ey Ei |- *. injection Ey as <- <-. change (44 =? 44) with true. cbv iota.
    set (s3 := with_cur (advance (cur s2)) s2). rewrite (lbind_run _ _ s2 tt s3) //.
    destruct (IH m (((pre ++ lead) ++ entry_text e) ++ [44]) [32] post s3) as (s' & E' & (Hc' & Ho' & Hd') & Hr' & Ht').
    + cbn in Hm |- *. lia.
    + done.
    + by destruct pre.
    + by right.
    + cbn [texts]. rewrite Ei -!app_assoc. cbn [app]. by rewrite -!app_assoc.
    + unfold s3. cbn [cur with_cur]. rewrite Hc2. unfold advance, place_at. rewrite move_move. f_equal. cbn. rewrite !length_app. cbn. lia.
    + exists s'. split; [exact E'|]. split; [|done]. split_and!.
      * rewrite Hc'. f_equal. cbn [texts]. rewrite !length_app. cbn [length]. rewrite !length_app. lia.
      * rewrite Ho'. cbn [fold_left]. unfold s3. cbn [objs with_cur]. by rewrite Ho2.
      * rewrite Hd'. exact Hd2.
Qed.
End entries.

(** ** One entry *)

Lemma alter_at {A} (f g : A → A) (l : list A) i a : l !! i = Some a → f a = g a → alter f i l = alter g i l.
Proof.
  intros Hl Hf. apply list_eq. intros j. destruct (decide (i = j)) as [<-|Hj].
  - rewrite !list_lookup_alter_eq Hl. cbn. by rewrite Hf.
  - by rewrite !list_lookup_alter_ne.
Qed.

Lemma push_at x r s es : objs s !! r = Some (HArr es []) → ∃ s', push (HL r) x s = Ok (tt, s') ∧
  cur s' = cur s ∧ objs s' = alter (push_obj x) r (objs s) ∧ documents s' = documents s.
Proof.
  intros Hr. unfold push, on_heap, mbind, hm_bind, elements, reads. rewrite Hr. cbn. eexists. split; [done|]. split_and!; try done.
  cbn. by apply (alter_at _ _ _ _ _ Hr).
Qed.

Section entry.
Context (input filename : jstr) (json : bool) (compose : Z → context → bool → bool → lm bool).

(** A node that is read in the flow of a collection, with what it allocates. *)
Definition node_reads (t : jstr) (f : heap → hval * heap) (good_tag : option jstr → Prop) : Prop := ∀ pre post s,
  input = pre ++ t ++ post → pre ≠ [] → follows post → cur s = place_at (length pre) → ∃ s',
    compose 0 CONTEXT_FLOW_IN false true s = Ok (true, s') ∧
    stopped (length pre + length t) (f (objs s)).2 s s' ∧ n_result s' = (f (objs s)).1 ∧ good_tag (n_tag s').

Lemma follows_closing y rest : has y [44; 93; 125] = true → follows (y :: rest).
Proof. intros H. exists y, rest. auto. Qed.

Lemma not_explicit s pre x rest : input = pre ++ x :: rest → x ≠ 63 → cur s = place_at (length pre) →
  peek input 0 s = Ok (x, s) ∧ ∀ z, ((x =? 63) && z) = false.
Proof. intros Ei Hx Hc. split; [apply peek_at; rewrite Hc; by eapply here_at|]. intros z. by rewrite (proj2 (Z.eqb_neq _ _) Hx). Qed.

Lemma separate_after s pre post : input = pre ++ post → follows post → cur s = place_at (length pre) → separate input filename true s = Ok (0, s).
Proof. intros Ei (y & rest & -> & Hd & _)%follows_unit Hc. by apply (separate_none input filename s pre y rest). Qed.

Lemma element_reads t f P x t' r es pre y post s : node_reads t f P → t = x :: t' → x ≠ 63 →
  (f (objs s)).2 !! r = Some (HArr es []) → input = pre ++ t ++ y :: post → pre ≠ [] → has y [44; 93; 125] = true → cur s = place_at (length pre) → ∃ s',
    flow_entry input filename json compose 0 (HL r) false [] s = Ok ([], s') ∧ stopped (length pre + length t) (push_placed r (objs s) f) s s'.
Proof.
  intros Hn Et Hx Hr Ei Hpre Hy Hc. destruct (not_explicit s pre x (t' ++ y :: post)) as [Hpeek Hne]; [by rewrite Ei Et|done|done|].
  destruct (Hn pre (y :: post) s Ei Hpre (follows_closing y post Hy) Hc) as (s1 & E1 & (Hc1 & Ho1 & Hd1) & Hres & _).
  rewrite -length_app in Hc1. rewrite -Ho1 in Hr. destruct (push_at (n_result s1) r s1 es Hr) as (s2 & E2 & Hc2 & Ho2 & Hd2).
  assert (separate input filename true s1 = Ok (0, s1)) as Hsep.
  { apply (separate_after s1 (pre ++ t) (y :: post)); [by rewrite Ei -app_assoc|by apply follows_closing|done]. }
  exists s2. split.
  - unfold flow_entry. rewrite (lbind_run _ _ s x s) // (lbind_run _ _ s (code input (c_position (cur s) + 1)) s) //. cbv zeta. rewrite Hne.
    rewrite (lbind_run _ _ s tt s) // (lbind_run _ _ s (c_line (cur s)) s) // (lbind_run _ _ s true s1) //.
    rewrite (lbind_run _ _ s1 (n_tag s1) s1) // (lbind_run _ _ s1 (n_result s1) s1) // (lbind_run _ _ s1 0 s1) //.
    rewrite (lbind_run _ _ s1 y s1); [|apply peek_at; rewrite Hc1; apply (here_at input (pre ++ t) y post); by rewrite Ei -app_assoc].
    rewrite (lbind_run _ _ s1 (c_line (cur s1)) s1) //. assert ((y =? 58) = false) as -> by (unfold has in Hy; cbn [existsb] in Hy; lia).
    rewrite andb_false_r. rewrite (lbind_run _ _ s1 (false, null) s1) //. rewrite (lbind_run _ _ s1 [] s2); [|by rewrite (lbind_run _ _ s1 tt s2)].
    rewrite (lbind_run _ _ s2 0 s2) //. apply (separate_after s2 (pre ++ t) (y :: post)); [by rewrite Ei -app_assoc|by apply follows_closing|by rewrite Hc2].
  - split_and!; [by rewrite Hc2 Hc1 length_app| |by rewrite Hd2]. unfold push_placed. by rewrite Ho2 Ho1 Hres.
Qed.

Lemma own_key_in {V} (ps : list (jstr * V)) k : existsb (streq k) (enum_keys ps) = true → k ∈ ps.*1.
Proof. intros (k' & Hk & ->%streq_spec)%existsb_exists. apply list_elem_of_In in Hk. unfold enum_keys in Hk. by rewrite enum_perm in Hk. Qed.

Lemma store_fresh k tag x r ps s : tag ≠ Some merge_tag → objs s !! r = Some (HObj ps) → k ∉ ps.*1 → ∃ s',
  storeMappingPair input filename json (Some (HL r)) [] tag (text_value k) x s = Ok ((HL r, []), s') ∧
  cur s' = cur s ∧ objs s' = alter (obj_set k x) r (objs s) ∧ documents s' = documents s.
Proof.
  intros Htag Hr Hk. unfold storeMappingPair.
  assert (∀ A (m : hm A) a h, m (objs s) = Ok (a, h) → ∃ s', on_heap m s = Ok (a, s') ∧ cur s' = cur s ∧ objs s' = h ∧ documents s' = documents s) as Hheap.
  { intros A m a h E. unfold on_heap. rewrite E. cbn. by eexists. }
  assert (∀ A (f : heap → res A) a, f (objs s) = Ok a → on_heap (reads f) s = Ok (a, s)) as Hread.
  { intros A f a E. unfold on_heap, reads. rewrite E. cbn. by destruct s. }
  rewrite (lbind_run _ _ s k s); [|by apply Hread]. rewrite (lbind_run _ _ s (HL r) s) //. rewrite bool_decide_eq_false_2 //.
  rewrite (lbind_run _ _ s (enum_keys ps) s); [|by apply Hread; cbn; rewrite Hr].
  assert (existsb (streq k) (enum_keys ps) = false) as -> by (apply not_true_iff_false; by intros ?%own_key_in). rewrite andb_false_r.
  destruct (Hheap unit (hset (HL r) k x) tt (alter (obj_set k x) r (objs s)) eq_refl) as (s' & E' & H'). rewrite (lbind_run _ _ s tt s') //. by exists s'.
Qed.

Definition prefix_of (kt : jstr) : jstr := if (1024 <? length kt)%nat then #"? " else [].

(** The mark of a long key. *)
Lemma entry_prefix s pre kt x t rest : kt = x :: t → dark x = true → x ≠ 63 → input = pre ++ prefix_of kt ++ kt ++ rest →
  cur s = place_at (length pre) → ∃ ch following, peek input 0 s = Ok (ch, s) ∧ peek input 1 s = Ok (following, s) ∧
    (if (ch =? 63) && is_WS_OR_EOL following then _ ← step_on; _ ← separate input filename true; mret tt else mret tt) s =
    Ok (tt, with_cur (place_at (length pre + length (prefix_of kt))) s).
Proof.
  intros Ek Hd Hx Ei Hc. exists (here input (cur s)), (code input (c_position (cur s) + 1)). split; [by apply peek_at|]. split; [done|].
  unfold prefix_of in *. destruct (1024 <? length kt)%nat; rewrite Hc.
  - assert (input = pre ++ 63 :: 32 :: kt ++ rest) as Ei' by exact Ei. rewrite (here_at input pre 63 (32 :: kt ++ rest) Ei').
    change (c_position (place_at (length pre))) with (length pre). rewrite Nat.add_1_r (next_at input pre 63 32 (kt ++ rest) Ei').
    change ((63 =? 63) && is_WS_OR_EOL 32) with true. cbv iota. set (s1 := with_cur (place_at (S (length pre))) s).
    set (s2 := with_cur (place_at (length pre + 2)) s). change (length #"? ") with 2%nat.
    rewrite (lbind_run _ _ s tt s1); [|unfold step_on, modify; by rewrite Hc]. rewrite (lbind_run _ _ s1 0 s2) //.
    rewrite (separate_space input filename s1 (pre ++ [63]) x (t ++ rest)); [|by rewrite Ei' Ek -app_assoc|done|by unfold s1; cbn; rewrite length_app Nat.add_1_r].
    assert (S (length (pre ++ [63])) = (length pre + 2)%nat) as -> by (rewrite length_app; cbn; lia). done.
  - assert (input = pre ++ x :: t ++ rest) as Ei' by (by rewrite Ei Ek). rewrite (here_at input pre x (t ++ rest) Ei').
    rewrite (proj2 (Z.eqb_neq _ _) Hx). cbn [andb length]. rewrite Nat.add_0_r -Hc with_cur_same. done.
Qed.

Lemma pair_reads k kt vt f P x t xv tv r ps pre y post s :
  node_reads kt (place (VStr k)) (λ tag, tag ≠ Some merge_tag) → node_reads vt f P → kt = x :: t → dark x = true → x ≠ 63 → vt = xv :: tv → dark xv = true →
  (f (objs s)).2 !! r = Some (HObj ps) → k ∉ ps.*1 → input = pre ++ pair_text kt vt ++ y :: post → pre ≠ [] → has y [44; 93; 125] = true →
  cur s = place_at (length pre) → ∃ s',
    flow_entry input filename json compose 0 (HL r) true [] s = Ok ([], s') ∧ stopped (length pre + length (pair_text kt vt)) (set_placed r (objs s) (k, f)) s s'.
Proof.
  intros Hk Hv Ek Hdx Hx Ev Hdv Hr Hfresh Ei Hpre Hy Hc.
  change (pair_text kt vt) with (prefix_of kt ++ kt ++ [58; 32] ++ vt) in *. set (p1 := pre ++ prefix_of kt).
  assert (input = pre ++ prefix_of kt ++ kt ++ [58; 32] ++ vt ++ y :: post) as E1 by (by rewrite Ei -!app_assoc).
  destruct (entry_prefix s pre kt x t ([58; 32] ++ vt ++ y :: post)) as (ch & fo & Hch & Hfo & Hm); [done|done|done|done|done|].
  set (s0 := with_cur (place_at (length p1)) s). destruct (Hk p1 ([58; 32] ++ vt ++ y :: post) s0) as (s1 & Es1 & (Hc1 & Ho1 & Hd1) & Hres1 & Htag).
  { unfold p1. by rewrite E1 -!app_assoc. } { unfold p1. by destruct pre. } { exists 58, (32 :: vt ++ y :: post). split; [done|]. right. split; [done|]. by eexists. } { done. }
  set (p2 := p1 ++ kt). rewrite -length_app in Hc1. fold p2 in Hc1. assert (input = p2 ++ 58 :: 32 :: vt ++ y :: post) as E2 by (unfold p2, p1; by rewrite E1 -!app_assoc).
  set (s2 := with_cur (place_at (length (p2 ++ [58]))) s1). set (p3 := p2 ++ [58; 32]). set (s3 := with_cur (place_at (length p3)) s1).
  assert (input = p3 ++ vt ++ y :: post) as E3 by (unfold p3; by rewrite E2 -app_assoc).
  destruct (Hv p3 (y :: post) s3 E3 ltac:(unfold p3; by destruct p2) (follows_closing y post Hy) eq_refl) as (s4 & Es4 & (Hc4 & Ho4 & Hd4) & Hres4 & _).
  assert (objs s3 = objs s) as Ho3 by exact Ho1. rewrite Ho3 in Ho4, Hres4.
  destruct (store_fresh k (n_tag s1) (n_result s4) r ps s4) as (s5 & Es5 & Hc5 & Ho5 & Hd5); [done|by rewrite Ho4|done|].
  exists s5. split.
  - unfold flow_entry. rewrite (lbind_run _ _ s ch s) // (lbind_run _ _ s fo s) //. cbv zeta. rewrite -length_app in Hm. rewrite (lbind_run _ _ _ _ _ Hm). fold p1. fold s0.
    rewrite (lbind_run _ _ s0 0 s0) // (lbind_run _ _ s0 true s1) // (lbind_run _ _ s1 (n_tag s1) s1) // (lbind_run _ _ s1 (n_result s1) s1) //.
    rewrite (lbind_run _ _ s1 0 s1); [|by apply (separate_none input filename s1 p2 58 (32 :: vt ++ y :: post))].
    rewrite (lbind_run _ _ s1 58 s1); [|apply peek_at; rewrite Hc1; by eapply here_at].
    rewrite (lbind_run _ _ s1 0 s1); [|by unfold line_here, gets; rewrite Hc1]. change (58 =? 58) with true. change (0 =? 0) with true. rewrite orb_true_r. cbn [andb].
    rewrite (lbind_run _ _ s1 (true, n_result s4) s4).
    2: { rewrite (lbind_run _ _ s1 tt s2); [|unfold step_on, modify, s2; rewrite Hc1 length_app Nat.add_1_r; done].
         rewrite (lbind_run _ _ s2 0 s3); [|rewrite (separate_space input filename s2 (p2 ++ [58]) xv (tv ++ y :: post)); [|by rewrite E2 Ev -app_assoc|done|done]].
         2: { assert (S (length (p2 ++ [58])) = length p3) as -> by (unfold p3; rewrite !length_app; cbn; lia). done. }
         rewrite (lbind_run _ _ s3 true s4) //. }
    rewrite (lbind_run _ _ s4 [] s5); [|rewrite Hres1; by rewrite (lbind_run _ _ _ _ _ Es5)].
    rewrite (lbind_run _ _ s5 0 s5) //. apply (separate_after s5 (p3 ++ vt) (y :: post)); [by rewrite E3 -app_assoc|by apply follows_closing|by rewrite Hc5 Hc4 length_app].
  - split_and!.
    + rewrite Hc5 Hc4. f_equal. unfold p3, p2, p1. rewrite !length_app. cbn [length]. lia.
    + rewrite Ho5 Ho4 Hres4. done.
    + rewrite Hd5 Hd4. exact Hd1.
Qed.
End entry.

(** ** Trees *)

Lemma Forall_id_map {A} (f : A → Prop) l : Forall id (map f l) → Forall f l.
Proof. induction l as [|a l IH]; [done|]. cbn [map]. intros [Ha Hl]%Forall_cons. constructor; [exact Ha|by apply IH]. Qed.

Lemma writeScalar_one_line o s : o_flowLevel o = 0 → has (List.hd 0 (writeScalar o s 0 false)) #"|>" = false.
Proof.
  intros Hf. unfold writeScalar. destruct s as [|x q] eqn:Es; [done|]. rewrite -Es. destruct (negb _ && _); [done|]. cbv zeta. rewrite Hf.
  change (false || ((-1 <? 0) && (0 <=? 0))) with true. unfold chooseScalarStyle. destruct (forallb isPrintable s); [|done].
  destruct (isPlainSafeFirst (unit_at s 0)) eqn:Ef; [|done]. rewrite Es in Ef |- *. change (unit_at (x :: q) 0) with x in Ef.
  destruct (_ && _); [|done]. cbn [List.hd]. change #"|>" with [124; 62]. unfold isPlainSafeFirst in Ef. unfold has. cbn [existsb]. lia.
Qed.

Section values.
Context (o : dump_options) (d_rest : list dtype) (l_rest : list ltype) (input filename : jstr) (json : bool) (typeMap : list (jstr * ltype)).
Hypothesis flow_level : o_flowLevel o = 0.
Hypothesis dump_types : o_implicit o = dump_first ++ d_rest.

Definition flow_compose (n : nat) : Z → context → bool → bool → lm bool := composeNode input filename json (load_first ++ l_rest) typeMap n.

(** How the text of a node starts. *)
Definition opening (x : Z) : bool := dark x && negb (has x [63; 93; 125]).

Lemma opening_plain x : isPlainSafeFirst x || (x =? 45) = true → opening x && negb (has x [33; 34; 38; 39; 42; 91; 123]) = true.
Proof. unfold opening, dark, has, isPlainSafeFirst, isPrintable, isWhitespace. cbn [existsb]. lia. Qed.

Lemma text_first s : ∃ x t, writeScalar o s 0 false = x :: t ∧ opening x = true.
Proof.
  destruct (written_forms o s 0 false (writeScalar_one_line o s flow_level)) as [[-> _]|[->|(-> & Hf & _)]]; [by eexists _, _..|].
  destruct s as [|x s]; [done|]. exists x, s. split; [done|]. change (unit_at (x :: s) 0) with x in Hf.
  pose proof (opening_plain x) as H. rewrite Hf in H. by apply andb_true_iff in H as [-> _].
Qed.

Lemma plain_start_first x s : plain_start (x :: s) = true → isPlainSafeFirst x || (x =? 45) = true.
Proof. unfold plain_start. change (unit_at (x :: s) 0) with x. intros [->|[-> _]%andb_true_iff]%orb_true_iff; [done|by rewrite orb_true_r]. Qed.

(** What the plain texts of the first types are made of. *)
Lemma typed_plain v s : typed_text v = Some s → forallb isPlainSafe s = true ∧ plain_start s = true ∧ isWhitespace (List.last s (-1)) = false.
Proof.
  destruct v as [| |b|n| | | |]; try done; intros [= <-]; [done|by destruct b|].
  destruct (number_text n) as (H1 & H2 & H3 & _). done.
Qed.

Lemma flow_first v : flowable d_rest l_rest v → ∃ x t, flow_text o v = x :: t ∧ opening x = true.
Proof.
  intros Hv. assert (∀ s, typed_text v = Some s → ∃ x t, s = x :: t ∧ opening x = true) as Ht.
  { intros s (_ & Hp & _)%typed_plain. destruct s as [|x s]; [done|]. exists x, s. split; [done|].
    by apply plain_start_first, opening_plain, andb_true_iff in Hp as [-> _]. }
  destruct v as [| |b|n| |s|l|kvs]; try done; try (by apply Ht); [apply text_first| |]; by eexists _, _.
Qed.

(** A plain scalar. *)
Lemma plain_reads n s v (P : option jstr → Prop) : forallb isPlainSafe s = true → plain_start s = true → isWhitespace (List.last s (-1)) = false →
  (∀ st, n_result st = text_value s → n_anchor st = None → n_tag st = Some #"?" → ∃ st', resolve_implicit (load_first ++ l_rest) st = Ok (tt, st') ∧
    cur st' = cur st ∧ objs st' = objs st ∧ n_result st' = v ∧ documents st' = documents st ∧ P (n_tag st')) →
  node_reads input (flow_compose (S n)) s (λ h, (v, h)) P.
Proof.
  intros Hs Hp Hl Hr pre post st Ei Hpre Hpost Hc. destruct s as [|x s'] eqn:Es; [done|]. rewrite -Es in Hs Hp Hl Hr Ei |- *.
  pose proof Hp as Hp'. rewrite Es in Hp'. apply plain_start_first, opening_plain, andb_true_iff in Hp' as [_ Hx%negb_true_iff].
  assert (∀ y, has y [33; 34; 38; 39; 42; 91; 123] = true → (x =? y) = false) as Hne by (intros y Hy; apply Z.eqb_neq; intros ->; congruence).
  assert (here input (cur st) = x) as Hh by (rewrite Hc; apply (here_at input pre x (s' ++ post)); by rewrite Ei Es).
  set (c1 := place_at (length pre + length s)). set (st1 := scalar_read s c1 (Some #"?") (fresh_node st)).
  destruct (Hr st1 eq_refl eq_refl eq_refl) as (st2 & E2 & Hc2 & Ho2 & Hr2 & Hd2 & Ht2). exists st2. split; [|by split_and!].
  apply (compose_scalar _ _ _ _ _ _ _ _ st x st1); [done|done|by unfold has; cbn [existsb]; rewrite !Hne| |].
  - apply (read_scalar_plain _ _ _ _ x); [done|by unfold has; cbn [existsb]; rewrite !Hne|done|done|].
    change (cur (fresh_node st)) with (cur st). rewrite Hc. by apply (plain_at input filename s pre post).
  - unfold resolve_tag. by rewrite (lbind_run _ _ _ (Some #"?") st1).
Qed.

Lemma quoted_reads n x q' s : has x [34; 39] = true →
  (∀ pre post, follows post → input = pre ++ (x :: q') ++ post →
    (if x =? 39 then readSingleQuotedScalar else readDoubleQuotedScalar) input filename (place_at (length pre)) =
      Ok (place_at (length pre + length (x :: q')), Some s)) →
  node_reads input (flow_compose (S n)) (x :: q') (place (VStr s)) (λ tag, tag ≠ Some merge_tag).
Proof.
  intros Hx Hr pre post st Ei Hpre Hpost Hc. set (c1 := place_at (length pre + length (x :: q'))).
  assert (here input (cur st) = x) as Hh by (rewrite Hc; by apply (here_at input pre x (q' ++ post))).
  exists (scalar_read s c1 None (fresh_node st)). split; [|done].
  apply (compose_scalar _ _ _ _ _ _ _ _ st x (scalar_read s c1 None (fresh_node st))); [done|done|unfold has in *; cbn [existsb] in *; lia| |done].
  apply (read_scalar_quoted _ _ _ _ x); [done|done|done|done|]. change (cur (fresh_node st)) with (cur st). rewrite Hc. by apply (Hr pre post).
Qed.

Lemma reads_weaken {t f} {P Q : option jstr → Prop} {c} : node_reads input c t f P → (∀ g, P g → Q g) → node_reads input c t f Q.
Proof. intros H HPQ pre post s Ei Hpre Hpost Hc. destruct (H pre post s Ei Hpre Hpost Hc) as (s' & E & H1 & H2 & H3). exists s'. auto. Qed.

(** A text, as a key or a value: its tag is that of no type. *)
Lemma text_reads n s : flow_string d_rest l_rest s →
  node_reads input (flow_compose (S n)) (writeScalar o s 0 false) (place (VStr s)) (λ tag, tag ≠ Some merge_tag).
Proof.
  intros [Hw Hi]. destruct (written_forms o s 0 false (writeScalar_one_line o s flow_level)) as [[-> Hp]|[->|(-> & Hf & Hl & Hs & Ha)]].
  - apply quoted_reads; [done|]. intros pre post (y & rest & -> & _ & Hy)%follows_unit Ei. by apply (single_at input filename s pre y rest).
  - apply quoted_reads; [done|]. intros pre post _ Ei. by apply (double_at input filename s pre post).
  - apply plain_reads; [done|unfold plain_start; by rewrite Hf|done|]. intros st Hr _ Ht. exists st. split; [|by rewrite Ht].
    apply resolve_implicit_none. rewrite Hr. apply (untyped_text o); [done|]. unfold testImplicitResolving. rewrite dump_types.
    intros ty h Hin Hy. rewrite existsb_app. apply orb_true_iff. apply in_app_iff in Hin as [Hin|Hin]; [left; by apply (first_types_agree s h ty)|right; by apply (Hi ty h)].
Qed.

Lemma typed_reads n v s : typed_text v = Some s → node_reads input (flow_compose (S n)) s (λ h, (HV v, h)) (λ _, True).
Proof.
  intros Hv. destruct (typed_plain v s Hv) as (H1 & H2 & H3). apply plain_reads; [done..|]. intros st Hr Ha _.
  destruct (typed_resolves l_rest v s Hv st Hr Ha) as (st' & E & Hc & Ho & Hres & Hd). by exists st'.
Qed.

(** A collection, wherever it stands. *)
Definition collection_reads (n : nat) (v : value) : Prop := ∀ ctx pre post s,
  is_block ctx = false → input = pre ++ flow_text o v ++ post → cur s = place_at (length pre) → ∃ s',
    flow_compose n 0 ctx false true s = Ok (true, s') ∧
    stopped (length pre + length (flow_text o v)) (place v (objs s)).2 s s' ∧ n_result s' = (place v (objs s)).1.

Lemma texts_length {A} (f : A → jstr) (l : list A) : (∀ a, a ∈ l → f a ≠ []) → (length l <= length (texts (map f l)))%nat.
Proof.
  assert (∀ l : list A, (length l <= length (more_texts (map f l)))%nat) as Hm.
  { induction l0 as [|a l0 IH]; [done|]. cbn [map length]. rewrite more_texts_cons. cbn [length]. rewrite length_app. lia. }
  destruct l as [|a l]; [done|]. intros H. cbn [map texts length]. rewrite length_app. specialize (Hm l).
  specialize (H a ltac:(by left)). destruct (f a); [done|]. cbn. lia.
Qed.

(** The entries of a collection are read from the place after its bracket. *)
Lemma brackets_read {E} (entry_text : E → jstr) (effect : heap → E → heap) (ready : list E → heap → Prop) (mapping : bool) n es v ctx pre post s :
  let opener := if mapping then 123 else 91 in let closer := if mapping then 125 else 93 in
  flow_text o v = opener :: texts (map entry_text es) ++ [closer] →
  place v (objs s) = (HL (length (objs s)), fold_left effect es (objs s ++ [if mapping then HObj [] else HArr [] []])) →
  (∀ e, e ∈ es → entry_text e ≠ []) → ready es (objs s ++ [if mapping then HObj [] else HArr [] []]) →
  (∀ e es h, ready (e :: es) h → ∃ x t, entry_text e = x :: t ∧ dark x = true ∧ x ≠ closer) →
  (∀ e es pre y post s1, ready (e :: es) (objs s1) → input = pre ++ entry_text e ++ y :: post → pre ≠ [] →
    has y [44; 93; 125] = true → cur s1 = place_at (length pre) → ∃ s',
    flow_entry input filename json (flow_compose n) 0 (HL (length (objs s))) mapping [] s1 = Ok ([], s') ∧
    stopped (length pre + length (entry_text e)) (effect (objs s1) e) s1 s' ∧ ready es (objs s')) →
  is_block ctx = false → input = pre ++ flow_text o v ++ post → cur s = place_at (length pre) → ∃ s',
    flow_compose (S n) 0 ctx false true s = Ok (true, s') ∧
    stopped (length pre + length (flow_text o v)) (place v (objs s)).2 s s' ∧ n_result s' = (place v (objs s)).1.
Proof.
  intros opener closer Et Ep Hne Hready Hopen Hentry Hctx Ei Hc. set (b := if mapping then HObj [] else HArr [] []) in *.
  assert (input = pre ++ opener :: texts (map entry_text es) ++ closer :: post) as Ei'.
  { rewrite Ei Et. cbn [app]. by rewrite -app_assoc. }
  assert (here input (cur s) = opener) as Hh by (rewrite Hc; by eapply here_at). set (s0 := fresh_node s).
  set (s1 := {| cur := cur s0; n_tag := None; n_anchor := None; n_kind := None; n_result := null; l_version := l_version s;
    checkLineBreaks := checkLineBreaks s; tagMap := tagMap s; anchorMap := anchorMap s; documents := documents s; objs := objs s ++ [b] |}).
  set (s2 := with_cur (place_at (length (pre ++ [opener]))) s1).
  destruct (loop_reads input filename json (flow_compose n) entry_text effect ready closer (length (objs s)) mapping None None) with
    (es := es) (m := S (length input)) (pre := pre ++ [opener]) (lead := @nil Z) (post := post) (s := s2) as (s3 & E3 & (Hc3 & Ho3 & Hd3) & Hr3 & Ht3).
  { by destruct mapping. } { done. } { done. }
  { pose proof (texts_length entry_text es Hne). rewrite Ei' !length_app. cbn. rewrite length_app. lia. }
  { done. } { by destruct pre. } { by left. } { cbn [app]. by rewrite Ei' -app_assoc. } { done. }
  exists s3. split; [|split; [split_and!|]].
  - apply (compose_collection _ _ _ _ _ n 0 ctx s opener s3); [done|done|by destruct mapping| |done]. fold s0. unfold readFlowCollection.
    rewrite (lbind_run _ _ s0 opener s0); [|by apply peek_at]. fold (flow_compose n).
    assert ((opener =? 91) || (opener =? 123) = true) as -> by (by destruct mapping).
    assert ((opener =? 123) = mapping) as -> by (by destruct mapping).
    rewrite (lbind_run _ _ s0 None s0) // (lbind_run _ _ s0 None s0) // (lbind_run _ _ s0 (HL (length (objs s))) s1) // (lbind_run _ _ s1 tt s1) //.
    rewrite (lbind_run _ _ s1 tt s2); [exact E3|]. unfold step_on, modify, s2. do 3 f_equal. change (cur s1) with (cur s). rewrite Hc length_app Nat.add_1_r. done.
  - rewrite Hc3 Et. f_equal. rewrite !length_app. cbn [length]. rewrite !length_app. cbn. lia.
  - rewrite Ho3 Ep. done.
  - exact Hd3.
  - by rewrite Hr3 Ep.
Qed.

(** A value that is read in the flow by nodes of depth [n]. *)
Definition value_reads (n : nat) (v : value) : Prop := node_reads input (flow_compose n) (flow_text o v) (place v) (λ _, True).

Lemma opening_facts x : opening x = true → dark x = true ∧ x ≠ 63 ∧ x ≠ 93 ∧ x ≠ 125.
Proof. unfold opening, dark, has. cbn [existsb]. intros H. split_and!; lia. Qed.

Lemma placed_at v h r : (r < length h)%nat → (place v h).2 !! r = h !! r.
Proof. apply place_extends. Qed.

Lemma array_reads n l : Forall (value_reads n) l → Forall (flowable d_rest l_rest) l → collection_reads (S n) (VArr l).
Proof.
  intros Hl Hf ctx pre post s Hctx Ei Hc. set (r := length (objs s)).
  set (ready := λ es (h : heap), Forall (λ v, value_reads n v ∧ flowable d_rest l_rest v) es ∧ ∃ xs, h !! r = Some (HArr xs [])).
  apply (brackets_read (flow_text o) (λ h v, push_placed r h (place v)) ready false n l (VArr l) ctx pre post s); try done.
  - cbn [place]. f_equal. fold r. generalize (objs s ++ [HArr [] []]) as h. clear. induction l as [|v l IH]; intros h; [done|]. cbn [map fold_left]. apply IH.
  - intros v Hv. rewrite Forall_forall in Hf. by destruct (flow_first v (Hf v Hv)) as (x & t & -> & _).
  - split; [|exists []; unfold r; by rewrite list_lookup_middle]. apply Forall_forall. intros v Hv. rewrite !Forall_forall in Hl, Hf. split; [by apply Hl|by apply Hf].
  - intros v es h [[[_ Hv] _]%Forall_cons _]. destruct (flow_first v Hv) as (x & t & Et & (Hd & _ & H93 & _)%opening_facts). by exists x, t.
  - intros v es pre' y post' s1 [[[Hv Hfv] Hes]%Forall_cons (xs & Hr)] Ei' Hpre Hy Hc'. destruct (flow_first v Hfv) as (x & t & Et & (_ & H63 & _)%opening_facts).
    pose proof (lookup_lt_Some _ _ _ Hr) as Hlt.
    destruct (element_reads input filename json (flow_compose n) (flow_text o v) (place v) (λ _, True) x t r xs pre' y post' s1) as (s2 & E2 & H2); try done.
    { by rewrite placed_at. }
    exists s2. split; [done|]. split; [done|]. split; [done|]. destruct H2 as (_ & -> & _). eexists. unfold push_placed.
    rewrite list_lookup_alter_eq placed_at // Hr. done.
Qed.

Lemma object_reads n kvs : Forall (λ p, value_reads (S n) p.2) kvs → Forall (λ p, flowable d_rest l_rest p.2) kvs → NoDup kvs.*1 →
  Forall (flow_string d_rest l_rest) kvs.*1 → collection_reads (S (S n)) (VObj kvs).
Proof.
  intros Hl Hf Hnd Hk ctx pre post s Hctx Ei Hc. set (r := length (objs s)).
  set (ready := λ (es : list (jstr * value)) (h : heap), Forall (λ p, value_reads (S n) p.2 ∧ flowable d_rest l_rest p.2 ∧ flow_string d_rest l_rest p.1) es ∧
    NoDup es.*1 ∧ ∃ ps, h !! r = Some (HObj ps) ∧ ∀ k, k ∈ es.*1 → k ∉ ps.*1).
  set (text := λ p : jstr * value, pair_text (writeScalar o p.1 0 false) (flow_text o p.2)).
  assert (∀ p, ∃ x t, text p = x :: t ∧ dark x = true ∧ x ≠ 125) as Hopen.
  { intros p. unfold text, pair_text. destruct (text_first (p.1)) as (x & t & -> & (Hd & _ & _ & H125)%opening_facts).
    destruct (1024 <? _)%nat; by eexists _, _. }
  apply (brackets_read text (λ h p, set_placed r h (p.1, place p.2)) ready true (S n) kvs (VObj kvs) ctx pre post s); try done.
  - cbn [place]. f_equal. fold r. generalize (objs s ++ [HObj []]) as h. clear. induction kvs as [|p kvs IH]; intros h; [done|]. cbn [map fold_left]. apply IH.
  - intros p _. by destruct (Hopen p) as (x & t & -> & _).
  - split; [|split; [done|exists []; split; [unfold r; by rewrite list_lookup_middle|intros k _; apply not_elem_of_nil]]].
    apply Forall_forall. intros p Hp. rewrite !Forall_forall in Hl, Hf, Hk. split_and!; [by apply Hl|by apply Hf|by apply Hk, list_elem_of_fmap_2].
  - intros [k v] es pre' y post' s1 [[(Hv & Hfv & Hkv) Hes]%Forall_cons (Hnd' & ps & Hr & Hfresh)] Ei' Hpre Hy Hc'. cbn [fst snd] in *.
    destruct (text_first k) as (x & t & Et & (Hd & H63 & _)%opening_facts). destruct (flow_first v Hfv) as (xv & tv & Ev & (Hdv & _)%opening_facts).
    pose proof (lookup_lt_Some _ _ _ Hr) as Hlt. apply NoDup_cons in Hnd' as [Hkes Hnd']. assert (k ∉ ps.*1) as Hkf by (apply Hfresh; by left).
    destruct (pair_reads input filename json (flow_compose (S n)) k (writeScalar o k 0 false) (flow_text o v) (place v) (λ _, True) x t xv tv r ps pre' y post' s1)
      as (s2 & E2 & H2); try done.
    { by apply text_reads. } { by rewrite placed_at. }
    exists s2. split; [done|]. split; [done|]. split; [done|]. split; [done|]. destruct H2 as (_ & -> & _). unfold set_placed. cbn [fst snd].
    eexists. rewrite list_lookup_alter_eq placed_at // Hr. split; [reflexivity|]. intros k' Hk'. rewrite pset_fresh // fmap_app. cbn.
    intros [Hin|Hin]%elem_of_app; [apply (Hfresh k'); [by right|done]|]. apply list_elem_of_singleton in Hin as ->. done.
Qed.

Lemma collection_value n v : collection_reads n v → value_reads n v.
Proof.
  intros H pre post s Ei _ _ Hc. destruct (H CONTEXT_FLOW_IN pre post s eq_refl Ei Hc) as (s' & E & H1 & H2). by exists s'.
Qed.

Lemma tree_reads v : flowable d_rest l_rest v → ∀ n, (height v < n)%nat → value_reads n v ∧ (is_object v = true → collection_reads n v).
Proof.
  induction v as [| |b|m| |s|l IH|kvs IH] using value_ind; intros Hv n Hn; try done; (destruct n as [|n]; [lia|]).
  1-3: (split; [by apply typed_reads|done]).
  - split; [|done]. eapply reads_weaken; [by apply text_reads|done].
  - cbn [height] in Hn. cbn [flowable] in Hv. assert (collection_reads (S n) (VArr l)) as H; [|by split; [apply collection_value|]].
    assert (Forall (flowable d_rest l_rest) l) as Hf by (by apply Forall_id_map). apply array_reads; [|done].
    apply Forall_forall. intros v Hin. rewrite !Forall_forall in IH, Hf. apply IH; [done|by apply Hf|]. pose proof (height_le l v Hin). lia.
  - cbn [height] in Hn. destruct Hv as (Hnd & _ & Hk & Hv). assert (collection_reads (S n) (VObj kvs)) as H; [|by split; [apply collection_value|]].
    assert (Forall (λ p, flowable d_rest l_rest p.2) kvs) as Hf by (by apply Forall_id_map). destruct n as [|n]; [lia|]. apply object_reads; [|done..].
    apply Forall_forall. intros p Hin. rewrite !Forall_forall in IH, Hf. apply (IH p Hin (Hf p Hin)).
    assert (height p.2 <= max_list (map (λ p, height p.2) kvs))%nat; [|lia].
    exact (max_list_elem_of_le _ _ (list_elem_of_fmap_2 (λ p, height p.2) kvs p Hin)).
Qed.
End values.

(** ** Documents *)

Section document.
Context (o : dump_options) (d_rest : list dtype) (l_rest : list ltype) (filename : jstr) (json legacy : bool) (typeMap : list (jstr * ltype)).
Hypothesis flow_level : o_flowLevel o = 0.
Hypothesis dump_types : o_implicit o = dump_first ++ d_rest.

Lemma flowable_plain v : flowable d_rest l_rest v → plain_tree v.
Proof.
  induction v as [| |b|m| |s|l IH|kvs IH] using value_ind; intros Hv; try done.
  - cbn [flowable plain_tree] in *. induction l as [|v l IHl]; [constructor|]. cbn [map] in *. apply Forall_cons in IH as [IH1 IH2], Hv as [H1 H2].
    constructor; [by apply IH1|by apply IHl].
  - destruct Hv as (Hnd & _ & _ & Hv). split; [done|]. clear Hnd. induction kvs as [|v kvs IHl]; [constructor|]. cbn [map] in *. apply Forall_cons in IH as [IH1 IH2], Hv as [H1 H2].
    constructor; [by apply IH1|by apply IHl].
Qed.

Lemma entry_length t ts : t ∈ ts → (length t <= length (texts ts))%nat.
Proof.
  assert (∀ us, t ∈ us → (length t <= length (more_texts us))%nat) as Hm.
  { intros us. induction us as [|u us IH]; [by intros ?%elem_of_nil|]. rewrite more_texts_cons. cbn [length]. rewrite length_app.
    intros [->|Hin]%elem_of_cons; [lia|]. specialize (IH Hin). lia. }
  destruct ts as [|u ts]; [by intros ?%elem_of_nil|]. cbn [texts]. rewrite length_app. intros [->|Hin]%elem_of_cons; [lia|]. specialize (Hm ts Hin). lia.
Qed.

(** A text is longer than its tree is deep. *)
Lemma flow_height v : (height v <= length (flow_text o v))%nat.
Proof.
  assert (∀ A (f : A → nat) (g : A → jstr) (l : list A), Forall (λ a, (f a <= length (g a))%nat) l → (max_list (map f l) <= length (texts (map g l)))%nat) as Hl.
  { intros A f g l Hf. destruct (decide (l = [])) as [->|Hne]; [cbn; lia|]. destruct (max_list_pick f l Hne) as (a & Ha & ->).
    rewrite Forall_forall in Hf. etrans; [by apply Hf|]. by apply entry_length, (list_elem_of_fmap_2 g). }
  induction v as [| | | | | |l IH|kvs IH] using value_ind; cbn [height]; try lia; cbn [flow_text]; rewrite !length_app.
  - specialize (Hl _ height (flow_text o) l IH). change (length #"[") with 1%nat. lia.
  - specialize (Hl _ (λ p, height p.2) (λ p, pair_text (writeScalar o p.1 0 false) (flow_text o p.2)) kvs).
    assert (max_list (map (λ p, height p.2) kvs) <= length (texts (map (λ p, pair_text (writeScalar o p.1 0 false) (flow_text o p.2)) kvs)))%nat; [|change (length #"{") with 1%nat; lia].
    apply Hl. eapply Forall_impl; [exact IH|]. intros p Hp. cbv beta in Hp |- *. unfold pair_text. rewrite !length_app. lia.
Qed.

Lemma collection_loaded v h : is_object v = true → flowable d_rest l_rest v → ∃ x h',
  load filename json legacy (load_first ++ l_rest) typeMap (flow_text o v ++ [10]) h = Ok (x, h') ∧ tree (length h') h' x = Some v.
Proof.
  intros Ho Hv. assert (∃ x q', flow_text o v = x :: q' ∧ (x = 91 ∨ x = 123)) as (x & q' & Eq & Hx) by (destruct v; try done; eexists _, _; auto).
  set (q := flow_text o v) in *. set (input := q ++ [10; 0]). set (c1 := place_at (length q)).
  pose proof (code_at input q 10 [0] eq_refl) as H10.
  apply (node_loaded filename json legacy (load_first ++ l_rest) typeMap q q' x (λ x h, tree (length h) h x = Some v) c1 (end_cursor q c1) 1).
  - done.
  - by destruct Hx as [-> | ->].
  - unfold here. change (c_position c1) with (length q). fold input. by rewrite H10.
  - by apply separation_end.
  - done.
  - by destruct Hx as [-> | ->].
  - intros s Hc. destruct (tree_reads o d_rest l_rest input filename json typeMap flow_level dump_types v Hv (S (S (length q)))) as [_ Hr].
    { pose proof (flow_height v) as Hh. fold q in Hh. lia. }
    destruct (Hr Ho CONTEXT_FLOW_OUT [] [10; 0] s eq_refl eq_refl Hc) as (s' & E & (Hc' & Ho' & Hd') & Hres). exists s'. split; [exact E|]. split_and!; [done| |done].
    apply (tree_bound (height v)). rewrite Ho' Hres. apply (place_stands v (objs s) (flowable_plain v Hv)). done.
  - by destruct Hx as [-> | ->].
Qed.

(** A text that is the whole document does not end it. *)
Definition whole (v : value) : Prop := match v with VStr s => ends_document s = false | _ => True end.

Lemma flow_loaded v h : flowable d_rest l_rest v → whole v → ∃ x h',
  load filename json legacy (load_first ++ l_rest) typeMap (flow_text o v ++ [10]) h = Ok (x, h') ∧ tree (length h') h' x = Some v.
Proof.
  intros Hv Hw. destruct (is_object v) eqn:Ho; [by apply collection_loaded|].
  assert (∃ h', load filename json legacy (load_first ++ l_rest) typeMap (flow_text o v ++ [10]) h = Ok (HV v, h')) as (h' & Hl); [|exists (HV v), h'; split; [done|by apply tree_scalar]].
  destruct (typed_text v) as [s|] eqn:Es.
  - assert (flow_text o v = s) as -> by (destruct v; try done; cbn [flow_text]; by rewrite Es). by apply typed_loaded.
  - destruct v as [| | | | |s| |]; try done. destruct Hv as [Hws Hi].
    apply written_loaded; [done|by apply writeScalar_one_line|done|]. unfold testImplicitResolving. rewrite dump_types. intros ty h1 Hin Hr.
    rewrite existsb_app. apply orb_true_iff. apply in_app_iff in Hin as [Hin|Hin]; [left; by apply (first_types_agree s h1 ty)|right; by apply (Hi ty h1)].
Qed.

Hypothesis dump_styles : o_styleMap o = [].
Hypothesis no_refs : o_noRefs o = true.
Hypothesis untested : ∀ t f x h, In t (d_rest ++ o_explicit o) → dt_test t = Some f →
  match x with HV (VStr _) | HL _ => f x h = false | _ => True end.

Lemma flow_dumped n h x v : tree n h x = Some v → flowable d_rest l_rest v → dump o x h = Ok (flow_text o v ++ [10]).
Proof.
  intros Hx Hv. apply tree_bound in Hx. unfold dump. rewrite no_refs. cbn [mbind res_bind length replicate].
  set (s0 := {| d_tag := None; d_dump := undefined; d_used := []; d_heap := h |}).
  destruct (write_flow o d_rest l_rest flow_level dump_types dump_styles untested (length h) h x v Hx Hv 1 true true s0 eq_refl) as (s1 & E & Hd & _).
  rewrite Nat.add_1_r in E. rewrite E. cbn. by rewrite Hd.
Qed.
End document.

(** (C35) A tree of objects, arrays, texts, integers, truth values and nulls, of any
    depth, is loaded back from what [dump] writes in the flow style: the loader
    returns a value that stands, in the heap it leaves, for the same tree, the
    properties in their order. Objects that occur several times are written out each
    time. *)
Theorem flow_roundtrip o filename json legacy d_rest l_rest typeMap n h x v h0 :
  o_flowLevel o = 0 → o_noRefs o = true → o_styleMap o = [] → o_implicit o = dump_first ++ d_rest →
  (∀ t f x h, In t (d_rest ++ o_explicit o) → dt_test t = Some f → match x with HV (VStr _) | HL _ => f x h = false | _ => True end) →
  tree n h x = Some v → flowable d_rest l_rest v → whole v →
  ∃ text x' h', dump o x h = Ok text ∧
    load filename json legacy (load_first ++ l_rest) typeMap text h0 = Ok (x', h') ∧ tree (length h') h' x' = Some v.
Proof.
  intros Hl Hr Hs Ht Hu Hx Hv Hw. destruct (flow_loaded o d_rest l_rest filename json legacy typeMap Hl Ht v h0 Hv Hw) as (x' & h' & E & H').
  exists (flow_text o v ++ [10]), x', h'. split; [|done]. by apply (flow_dumped o d_rest l_rest Hl Ht Hs Hr Hu n).
Qed.

Definition flow_options : dump_options :=
  {| o_indent := 2; o_skipInvalid := false; o_flowLevel := 0; o_styleMap := []; o_sortKeys := NoSort; o_lineWidth := 80;
     o_noRefs := true; o_noCompatMode := false; o_implicit := dump_first ++ [dump_merge]; o_explicit := [dump_str] |}.

(** An object with an array, an empty object that occurs twice, and a text that needs
    quotes. *)
Definition sample_heap : heap :=
  [HObj [(#"a", HL 1%nat); (#"it's", text_value #"7"); (#"<<", HL 2%nat)]; HArr [HV (VNum (-12)); null; HL 2%nat; text_value #"x y"] []; HObj []].
Definition sample_tree : value :=
  VObj [(#"a", VArr [VNum (-12); VNull; VObj []; VStr #"x y"]); (#"it's", VStr #"7"); (#"<<", VObj [])].

Lemma flow_roundtrip_witness :
  dump flow_options (HL 0%nat) sample_heap = Ok (#"{a: [-12, null, {}, x y], it's: '7', '<<': {}}" ++ [10]) ∧
  ∃ text x' h', dump flow_options (HL 0%nat) sample_heap = Ok text ∧
    load #"a.yaml" false false (load_first ++ [load_merge]) [] text [] = Ok (x', h') ∧ tree (length h') h' x' = Some sample_tree.
Proof.
  split; [vm_compute; reflexivity|].
  apply (flow_roundtrip flow_options #"a.yaml" false false [dump_merge] [load_merge] [] 3%nat sample_heap (HL 0%nat) sample_tree []);
    [reflexivity|reflexivity|reflexivity|reflexivity| |vm_compute; reflexivity| |exact I].
  - intros t f x h [<-|[<-|[]]]; discriminate.
  - assert (∀ s, forallb (λ c, (0 <=? c) && (c <? 65536)) s = true → flow_string [dump_merge] [load_merge] s) as Hs.
    { intros s Hs. split; [by apply wf_check|]. intros ty h [<-|[]] Hr. cbn. cbn in Hr. by rewrite Hr. }
    split_and!.
    + apply (bool_decide_unpack _). vm_compute. exact I.
    + vm_compute. reflexivity.
    + repeat (apply Forall_cons; split); [by apply Hs..|apply Forall_nil; exact I].
    + apply Forall_cons; split; [|apply Forall_cons; split; [by apply Hs|apply Forall_cons; split; [|apply Forall_nil; exact I]]].
      * repeat (apply Forall_cons; split); [vm_compute; congruence|exact I| |by apply Hs|apply Forall_nil; exact I].
        split_and!; [apply NoDup_nil; exact I|reflexivity|apply Forall_nil; exact I..].
      * split_and!; [apply NoDup_nil; exact I|reflexivity|apply Forall_nil; exact I..].
Defined.
