(* ===== verification/YamlTime.v ===== *)
(** * js-yaml: the type of timestamps

    A date is its time value, the milliseconds from 1970 on. The calendar is that of
    the language: [Date.UTC] takes months and days out of their ranges, and a year
    below 100 for one of the twentieth century. *)

From S2P Require Import Prelude Int32 Regex.

(** ** Dates of the language *)

Definition leap (y : Z) : bool := ((y mod 4 =? 0) && negb (y mod 100 =? 0)) || (y mod 400 =? 0).

(** The days before a year. *)
Definition day_from_year (y : Z) : Z := 365 * (y - 1970) + (y - 1969) / 4 - (y - 1901) / 100 + (y - 1601) / 400.

(** The days of a year before a month. *)
Definition month_starts : list Z := [0; 31; 59; 90; 120; 151; 181; 212; 243; 273; 304; 334; 365].
Definition day_from_month (y mn : Z) : Z := default 0 (month_starts !! Z.to_nat mn) + (if leap y && (2 <=? mn) then 1 else 0).

Definition MakeDay (year month date : Z) : Z :=
  let ym := year + month / 12 in day_from_year ym + day_from_month ym (month mod 12) + date - 1.
Definition ms_per_day : Z := 86400000.
Definition MakeTime (hour min sec ms : Z) : Z := hour * 3600000 + min * 60000 + sec * 1000 + ms.

(** [Date.UTC]; the years of the code have four digits, which keeps dates in range. *)
Definition Date_UTC (year month date hour min sec ms : Z) : Z :=
  let yr := if (0 <=? year) && (year <=? 99) then 1900 + year else year in
  MakeDay yr month date * ms_per_day + MakeTime hour min sec ms.

(** The year of a day is the one whose days it is among. *)
Definition year_of (day : Z) : Z :=
  let y := 1970 + 400 * day / 146097 in
  if day <? day_from_year y then y - 1 else if day_from_year (y + 1) <=? day then y + 1 else y.

(** The last month that has started. *)
Fixpoint month_among (n : nat) (y d : Z) : Z :=
  match n with
  | O => 0
  | S n => if day_from_month y (Z.of_nat (S n)) <=? d then Z.of_nat (S n) else month_among n y d
  end.

Fixpoint padded (n : nat) (x : Z) : jstr :=
  match n with O => [] | S n => padded n (x / 10) ++ [48 + x mod 10] end.

(** [toISOString]; years of more than four digits, or before 0, have six and a sign. *)
Definition toISOString (t : Z) : jstr :=
  let day := t / ms_per_day in
  let ms := t mod ms_per_day in
  let y := year_of day in
  let d := day - day_from_year y in
  let mn := month_among 11 y d in
  (if (0 <=? y) && (y <=? 9999) then padded 4 y else (if y <? 0 then #"-" else #"+") ++ padded 6 (Z.abs y))
  ++ #"-" ++ padded 2 (mn + 1) ++ #"-" ++ padded 2 (d - day_from_month y mn + 1)
  ++ #"T" ++ padded 2 (ms / 3600000) ++ #":" ++ padded 2 (ms / 60000 mod 60) ++ #":" ++ padded 2 (ms / 1000 mod 60)
  ++ #"." ++ padded 3 (ms mod 1000) ++ #"Z".

(** ** The type *)

Definition at_end : re := Peek (λ s, match s with [] => true | _ => false end).
Definition seqs (l : list re) : re := fold_right Seq Eps l.
Definition one_or_two : re := Seq digit (Opt digit).
Definition space_or_tab : re := Cls (λ c, (c =? 32) || (c =? 9)).

Definition YAML_DATE_REGEXP : re :=
  seqs [Grp 1 (seqs [digit; digit; digit; digit]); Chr 45; Grp 2 (seqs [digit; digit]); Chr 45; Grp 3 (seqs [digit; digit]); at_end].

Definition time_zone : re :=
  Grp 8 (Alt (Chr 90)
    (seqs [Grp 9 (Cls (λ c, (c =? 45) || (c =? 43))); Grp 10 one_or_two; Opt (Seq (Chr 58) (Grp 11 (seqs [digit; digit])))])).
Definition YAML_TIMESTAMP_REGEXP : re :=
  seqs [Grp 1 (seqs [digit; digit; digit; digit]); Chr 45; Grp 2 one_or_two; Chr 45; Grp 3 one_or_two;
        Alt (Cls (λ c, (c =? 84) || (c =? 116))) (Plus space_or_tab);
        Grp 4 one_or_two; Chr 58; Grp 5 (seqs [digit; digit]); Chr 58; Grp 6 (seqs [digit; digit]);
        Opt (Seq (Chr 46) (Grp 7 (Star digit)));
        Opt (Seq (Star space_or_tab) time_zone); at_end].

Definition resolveYamlTimestamp (data : option jstr) : bool :=
  match data with
  | None => false
  | Some s =>
      match exec YAML_DATE_REGEXP s with
      | Some _ => true
      | None => match exec YAML_TIMESTAMP_REGEXP s with Some _ => true | None => false end
      end
  end.

(** [+match[n]], where the group has digits. *)
Definition number_at (m : captures) (n : nat) : Z := digits_value (default [] (captured m n)).

Definition timestamp_of (m : captures) : Z :=
  let year := number_at m 1 in
  let month := number_at m 2 - 1 in
  let day := number_at m 3 in
  match captured m 4 with
  | None => Date_UTC year month day 0 0 0 0
  | Some _ =>
      let fraction := match captured m 7 with
                      | Some ((_ :: _) as f) => let f := take 3 f in digits_value (f ++ replicate (3 - length f) 48)
                      | _ => 0
                      end in
      let delta := match captured m 9 with
                   | Some sign =>
                       let delta := (number_at m 10 * 60 + number_at m 11) * 60000 in
                       if streq sign #"-" then - delta else delta
                   | None => 0
                   end in
      Date_UTC year month day (number_at m 4) (number_at m 5) (number_at m 6) fraction - delta
  end.

Definition constructYamlTimestamp (data : jstr) : res Z :=
  match exec YAML_DATE_REGEXP data with
  | Some m => Ok (timestamp_of m)
  | None =>
      match exec YAML_TIMESTAMP_REGEXP data with
      | Some m => Ok (timestamp_of m)
      | None => Throw (JsError #"Date resolve error")
      end
  end.

Definition representYamlTimestamp (object : Z) : jstr := toISOString object.

Example timestamps :
  constructYamlTimestamp #"2001-12-14t21:59:43.10-05:00" = Ok 1008385183100 ∧
  constructYamlTimestamp #"2001-12-15 2:59:43.1" = Ok 1008385183100 ∧
  constructYamlTimestamp #"2002-12-14" = Ok 1039824000000 ∧
  toISOString 1008385183100 = #"2001-12-15T02:59:43.100Z" ∧
  toISOString (-62198755200000) = #"-000001-01-01T00:00:00.000Z".
Proof. vm_compute. done. Qed.

(** ** Dates are read back *)

(** *** The calendar *)

(** A day is among those of its year. *)
Lemma year_of_spec day : day_from_year (year_of day) <= day < day_from_year (year_of day + 1).
Proof.
  unfold year_of. cbv zeta. destruct (Z.ltb_spec day (day_from_year (1970 + 400 * day / 146097))) as [H|H]; [|destruct (Z.leb_spec (day_from_year (1970 + 400 * day / 146097 + 1)) day) as [H'|H']]; unfold day_from_year in *.
  - zdm.
  - zdm.
  - lia.
Qed.

Lemma year_length y : day_from_year (y + 1) = day_from_year y + 365 + (if leap y then 1 else 0).
Proof.
  unfold day_from_year, leap. destruct (Z.eqb_spec (y mod 4) 0), (Z.eqb_spec (y mod 100) 0), (Z.eqb_spec (y mod 400) 0); cbn [andb orb negb]; zdm.
Qed.

(** The month found has started, and the next has not. *)
Lemma month_among_spec y d n : 0 <= d → let mn := month_among n y d in
  0 <= mn <= Z.of_nat n ∧ day_from_month y mn <= d ∧ (mn < Z.of_nat n → d < day_from_month y (mn + 1)).
Proof.
  intros Hd. cbv zeta. induction n as [|n IH]; cbn [month_among].
  - assert (day_from_month y 0 = 0) as -> by (unfold day_from_month; cbn; by rewrite andb_false_r). lia.
  - destruct (Z.leb_spec (day_from_month y (Z.of_nat (S n))) d) as [H|H]; [lia|]. destruct IH as (H1 & H2 & H3). split; [lia|]. split; [done|]. intros _.
    destruct (Z.eq_dec (month_among n y d) (Z.of_nat n)) as [->|]; [by replace (Z.of_nat n + 1) with (Z.of_nat (S n)) by lia|apply H3; lia].
Qed.

Lemma month_length y mn : 0 <= mn < 12 → day_from_month y (mn + 1) - day_from_month y mn <= 31.
Proof.
  intros H. unfold day_from_month. apply Z.leb_le. destruct (leap y); cbn [andb].
  - apply (range_check (λ mn, default 0 (month_starts !! Z.to_nat (mn + 1)) + (if 2 <=? mn + 1 then 1 else 0) - (default 0 (month_starts !! Z.to_nat mn) + (if 2 <=? mn then 1 else 0)) <=? 31) 0 12); [vm_compute; reflexivity|lia].
  - apply (range_check (λ mn, default 0 (month_starts !! Z.to_nat (mn + 1)) + 0 - (default 0 (month_starts !! Z.to_nat mn) + 0) <=? 31) 0 12); [vm_compute; reflexivity|lia].
Qed.

Lemma month_spec y d : 0 <= d < 365 + (if leap y then 1 else 0) → let mn := month_among 11 y d in 0 <= mn <= 11 ∧ 0 <= d - day_from_month y mn <= 30.
Proof.
  intros Hd. cbv zeta. destruct (month_among_spec y d 11 ltac:(lia)) as (H1 & H2 & H3). set (mn := month_among 11 y d) in *. split; [lia|].
  assert (d < day_from_month y (mn + 1)) as Hlt.
  { destruct (Z.eq_dec mn 11) as [->|]; [|apply H3; lia]. change (day_from_month y (11 + 1)) with (365 + (if leap y && true then 1 else 0)). rewrite andb_true_r. lia. }
  pose proof (month_length y mn ltac:(lia)). lia.
Qed.

(** *** The text of a date

    Seventeen digits between the marks of the form match the expression of
    timestamps, and not that of dates. *)

Section iso.

Context (y1 y2 y3 y4 m1 m2 d1 d2 h1 h2 i1 i2 s1 s2 f1 f2 f3 : Z).
Hypothesis digits : Forall (λ c, is_digit c = true) [y1; y2; y3; y4; m1; m2; d1; d2; h1; h2; i1; i2; s1; s2; f1; f2; f3].
Let text : jstr := [y1; y2; y3; y4; 45; m1; m2; 45; d1; d2; 84; h1; h2; 58; i1; i2; 58; s1; s2; 46; f1; f2; f3; 90].

Lemma iso_matched : exec YAML_DATE_REGEXP text = None ∧
  exec YAML_TIMESTAMP_REGEXP text = Some [(8%nat, [90]); (7%nat, [f1; f2; f3]); (6%nat, [s1; s2]); (5%nat, [i1; i2]); (4%nat, [h1; h2]); (3%nat, [d1; d2]); (2%nat, [m1; m2]); (1%nat, [y1; y2; y3; y4])].
Proof.
  pose proof digits as D. assert (is_digit 90 = false) as X1 by reflexivity. assert (is_digit 45 = false) as X2 by reflexivity.
  unfold exec, YAML_DATE_REGEXP, YAML_TIMESTAMP_REGEXP, text, one_or_two, time_zone, digit. clear digits. revert D X1 X2. generalize is_digit as dg. clear text. intros.
  repeat match goal with H : Forall _ (_ :: _) |- _ => apply Forall_cons in H as [? H] end.
  split; cbn; repeat match goal with H : dg ?x = _ |- context [dg ?x] => rewrite H; cbn end; done.
Qed.

End iso.

Lemma padded_value n x : 0 <= x < 10 ^ Z.of_nat n → digits_value (padded n x) = x.
Proof.
  revert x. induction n as [|n IH]; intros x H; cbn [padded]; [cbn in *; lia|].
  rewrite Nat2Z.inj_succ Z.pow_succ_r in H; [|lia]. unfold digits_value in *. rewrite fold_left_app. rewrite IH; [cbn|]; zdm.
Qed.

Lemma padded_digits n x : Forall (λ c, is_digit c = true) (padded n x).
Proof.
  revert x. induction n as [|n IH]; intros x; cbn [padded]; [constructor|]. apply Forall_app. split; [apply IH|]. constructor; [|constructor].
  unfold is_digit. apply andb_true_iff. rewrite !Z.leb_le. zdm.
Qed.

(** The date and the time that a text in the form of [toISOString] gives. *)
Lemma iso_read y mo d h i s f :
  0 <= y < 10000 → 0 <= mo < 100 → 0 <= d < 100 → 0 <= h < 100 → 0 <= i < 100 → 0 <= s < 100 → 0 <= f < 1000 →
  let text := padded 4 y ++ #"-" ++ padded 2 mo ++ #"-" ++ padded 2 d ++ #"T" ++ padded 2 h ++ #":" ++ padded 2 i ++ #":" ++ padded 2 s ++ #"." ++ padded 3 f ++ #"Z" in
  resolveYamlTimestamp (Some text) = true ∧ constructYamlTimestamp text = Ok (Date_UTC y (mo - 1) d h i s f).
Proof.
  intros Hy Hmo Hd Hh Hi Hs Hf. cbv zeta.
  assert (Forall (λ c, is_digit c = true) (padded 4 y ++ padded 2 mo ++ padded 2 d ++ padded 2 h ++ padded 2 i ++ padded 2 s ++ padded 3 f)) as D by (do 6 (apply Forall_app_2; [apply padded_digits|]); apply padded_digits).
  pose proof (padded_value 4 y Hy) as Vy. pose proof (padded_value 2 mo Hmo) as Vmo. pose proof (padded_value 2 d Hd) as Vd. pose proof (padded_value 2 h Hh) as Vh.
  pose proof (padded_value 2 i Hi) as Vi. pose proof (padded_value 2 s Hs) as Vs. pose proof (padded_value 3 f Hf) as Vf.
  cbn [padded app] in *. apply iso_matched in D as [E1 E2]. cbn [app] in *. change (js "-") with [45]. change (js "T") with [84]. change (js ":") with [58]. change (js ".") with [46]. change (js "Z") with [90].
  cbn [app]. unfold resolveYamlTimestamp, constructYamlTimestamp. rewrite E1 E2. split; [done|]. f_equal.
  unfold timestamp_of, number_at. cbn [captured List.find fst snd Nat.eqb fmap option_fmap option_map default from_option take replicate length Nat.sub app]. rewrite Vy Vmo Vd Vh Vi Vs Vf. lia.
Qed.

(** A date of the years 100 to 9999 is written as text that resolves as a timestamp
    and is read back as the same date, to the millisecond. *)
Theorem timestamp_read_back (t : Z) :
  100 <= year_of (t / ms_per_day) <= 9999 →
  resolveYamlTimestamp (Some (representYamlTimestamp t)) = true ∧ constructYamlTimestamp (representYamlTimestamp t) = Ok t.
Proof.
  intros Hy. pose proof (year_of_spec (t / ms_per_day)) as Hd. pose proof (year_length (year_of (t / ms_per_day))) as Hl.
  unfold representYamlTimestamp, toISOString. cbv zeta. set (day := t / ms_per_day) in *. set (y := year_of day) in *. set (d := day - day_from_year y).
  destruct (month_spec y d ltac:(lia)) as [Hm Hmd]. set (mn := month_among 11 y d) in *.
  assert (0 <= t mod ms_per_day < 86400000) as Hms by (apply Z.mod_pos_bound; done). set (ms := t mod ms_per_day) in *.
  rewrite (_ : (0 <=? y) && (y <=? 9999) = true); [|lia].
  destruct (iso_read y (mn + 1) (d - day_from_month y mn + 1) (ms / 3600000) (ms / 60000 mod 60) (ms / 1000 mod 60) (ms mod 1000)) as [H1 ->]; [zdm..|].
  split; [exact H1|]. f_equal. unfold Date_UTC, MakeDay, MakeTime. rewrite (_ : (0 <=? y) && (y <=? 99) = false); [|lia].
  replace (mn + 1 - 1) with mn by lia. rewrite Z.div_small; [|lia]. rewrite Z.mod_small; [|lia]. rewrite Z.add_0_r.
  rewrite (Z.div_mod t ms_per_day) //. fold day ms. unfold ms_per_day. subst d. clearbody ms y mn day. zdm.
Qed.

Lemma timestamp_read_back_witness :
  resolveYamlTimestamp (Some (representYamlTimestamp 951827696789)) = true ∧ constructYamlTimestamp (representYamlTimestamp 951827696789) = Ok 951827696789.
Proof. apply (timestamp_read_back 951827696789). vm_compute. split; discriminate. Defined.

(** The years below 100 are not read back: the first of January of the year 1, written
    [0001-01-01T00:00:00.000Z], is read as that of 1901. *)
Example early_years : constructYamlTimestamp (representYamlTimestamp (-62135596800000)) = Ok (-2177452800000).
Proof. vm_compute. done. Qed.
